(* ===== verification/_CoqProject ===== *)
-Q . S2P
Prelude.v
Text.v
Float.v
Json.v
Types.v
Store.v
Closure.v
StoreFacts.v
DedupKey.v
StoreSpec.v
StoreQueries.v
Record.v
RecordFacts.v
Matching.v
JsonDiff.v
JsonFacts.v
JsonSpec.v
Descriptor.v
ProtoText.v
ProtoDiff.v
ProtoFacts.v
AvroFormat.v
AvroFacts.v
Formats.v
Compat.v
Reader.v
ReaderFacts.v
Broker.v
BrokerFacts.v
KafkaStore.v
KafkaFacts.v
KafkaSpec.v
KafkaLive.v
Topic.v
Start.v
FormatsSpec.v
CompatCheck.v
Wire.v
Import.v
Client.v
Cache.v
CacheFacts.v
Serde.v
SerdeFacts.v
Election.v
ElectionFacts.v
Auth.v
Authz.v
Router.v
RouterFacts.v
Config.v
ConfigFacts.v
ServerArgs.v
Rest.v
RestFacts.v
ClientHttp.v
Interop.v
SerdeApi.v
Clients.v
Slots.v
Program.v
Protocol.v
Cluster.v
ClusterFacts.v
ClusterRun.v
Compaction.v
CompactionFacts.v
ClusterLog.v
Guards.v
Server.v
RestTypes.v
Delivery.v
JsonSyntax.v
JsonTests.v
ProtoTests.v
StoreTests.v
TopicTests.v
SecurityTests.v
ClientTests.v
UnitTests.v
