(* ===== verification/Prelude.v ===== *)
(** * krabka-schema-registry: a verification development

    The program is a Confluent-compatible schema registry in Rust. A node keeps
    the registry in memory ([StoreState]), persists every change as a record of
    the Kafka topic [_schemas], and rebuilds the state by replaying that topic.
    A write is decided on the live state, produced, and answered once the
    node's own reader has replayed a barrier record placed after it. One node
    of a cluster is elected primary through a Kafka consumer group; the others
    forward writes to it over HTTP. Clients frame messages with the schema id.

    Sources are under src/crates/schema-registry/src (unless another path is
    given) and src/crates/schema-serde/src.

    ** The files

    - Prelude.v (this file): machine integers, [result] with its bind, stable
      sorting, the order of strings and maps, tactics, the hint database
      [krabka]. Text.v: the [str] operations of the standard library (prefixes,
      splitting, trimming, parsing an i32) with their laws. Float.v: [f64] over
      the Standard Library's [SpecFloat].
    - Json.v: JSON values as serde_json has them. Types.v: schema types,
      references, [SrError] with its codes (error.rs, format/mod.rs) and the
      class [SchemaFormat], the interface of the three formats: parse to a
      canonical text, storage form, directional check.
    - Store.v: [StoreState] and every operation of store/mod.rs. Closure.v:
      the walk over schema references. StoreFacts.v: the invariant [store_wf],
      its preservation, and the step lemmas. DedupKey.v, StoreSpec.v,
      StoreQueries.v: the theorems about the identity, the state and the queries.
    - Record.v, RecordFacts.v: the records of the topic (kafkastore/record.rs),
      the derived serde instances written out over [json]; the text level of
      serde_json is the class [SerdeJson] with its round trip as a law. JsonSyntax.v:
      a printer and a parser that meet the law, so that records can be compared byte
      by byte. Slots.v: what a record's key says about the replayed state.
    - Matching.v, JsonDiff.v: the JSON Schema format (format/json/): the diff of
      two schemas, the matching of combinator branches, the compatible
      differences and the check; JsonFacts.v, JsonSpec.v: its theorems.
    - Descriptor.v: Protobuf descriptors. ProtoText.v: the normalised [.proto] text
      (schema-serde format/protobuf.rs). ProtoDiff.v, ProtoFacts.v: the Protobuf
      format (format/protobuf/) and what its check promises on the wire.
    - AvroFormat.v, AvroFacts.v: the registry's part of the Avro format
      (format/avro.rs); apache-avro is the class [AvroLib].
    - Formats.v: the dispatcher (format/mod.rs), which makes the instance of
      [SchemaFormat]; FormatsSpec.v: the registry over that instance.
      CompatCheck.v: the offline checker (bin/schema-compat-check.rs).
    - Compat.v: compatibility levels, enforcement and query (compat/mod.rs).
    - Reader.v, ReaderFacts.v: the topic reader (kafkastore/reader.rs): barrier
      tracker, replay of a record, rebuild of the view after a topic was
      truncated or replaced, the loop as a step relation over what the broker
      answers. Broker.v, BrokerFacts.v: the reader task around it: the search for
      the partition's leader, the bounds of the log, and the connections it holds.
      Topic.v: the creation of the topic (kafkastore/topic.rs). Start.v: the start
      of the store (start of kafkastore/mod.rs) over the turns of the reader.
    - KafkaStore.v: the facade (kafkastore/mod.rs) and the writer
      (kafkastore/writer.rs) in a state and error monad over a [World]: the
      committed log, how far this node has replayed it, the election watch, and
      a script of what the environment does at each call (records of other
      nodes, progress of the reader, election changes, outcomes; an error may
      leave the record committed). KafkaFacts.v: a Hoare logic for that monad.
      KafkaSpec.v: the specification of every write as a function on states,
      and the refinement. KafkaLive.v: the other half, that an operation
      answers when its environment does, and the theorems that combine both.
    - Program.v: the same writes as programs, trees of the calls they make, with the
      proof that running one against a [World] is the operation of KafkaStore.v.
      Protocol.v: the discipline the programs keep to (fence, barrier, one read, the
      decided records, the answer) as an automaton, and their decisions as functions
      from the state to the records they append.
      Cluster.v: any number of nodes that run such programs against one log, in any
      interleaving; ClusterFacts.v: the cluster behaves as one registry;
      ClusterRun.v: runs of it. Compaction.v: what the cleaner of a compacted topic may
      leave of a log, as a relation and as a function, and when a replayed table does not
      see it; CompactionFacts.v: that for the registry's state, with the equivalence
      [same_service] of states that answer alike; ClusterLog.v: the logs a cluster
      writes meet its conditions. Guards.v: the barrier guards of a node
      ([BarrierGuard] with its [Drop]) beside its producer and its reader.
    - Election.v, ElectionFacts.v: election/protocol.rs, election/client.rs and
      parse_identity of election/mod.rs, a node as a state machine over the
      coordinator's answers. Clients.v: the policies and connections of the election
      client, the reader and the writer.
    - Auth.v, Authz.v, Router.v, RouterFacts.v: auth/, authz.rs, rest/forward.rs
      and the route table and stack of rest/mod.rs. axum's path matching is the
      class [Axum] with its documented behaviour as laws.
    - Import.v: the order of a descriptor set (rest/import.rs). Rest.v,
      RestFacts.v: the handlers (rest/), each in the facade's monad, and a
      request's way from the stack to its handler. RestTypes.v: the JSON types of the
      endpoints' answers.
    - Config.v, ConfigFacts.v: config.rs, config_value.rs, cli.rs and what
      bin/schema-registry.rs builds from its options; ServerArgs.v: those options and
      main's configuration. Server.v: main itself, as a sequence of starts that may fail,
      the accept loops (rest/serve.rs), the key-set refresher and the start of the
      election.
    - Wire.v: the frames of the serializers (schema-serde wire.rs). Client.v:
      subject naming, errors and the resolution of references
      (schema-serde subject.rs, error.rs, registry/). ClientHttp.v: the client's
      requests and the import tool (bin/schema-push.rs); Interop.v: the client
      composed with the handlers. Cache.v,
      CacheFacts.v: the schema cache (schema-serde cache.rs), a background fetch
      being a task that starts and ends in separate steps. Serde.v, SerdeFacts.v:
      the typed serializers of the three formats (schema-serde format/). SerdeApi.v:
      their constructors and traits over the caches of a process, shared through [Arc],
      with the process-wide default, and the dispatch on the compiled features.
      Delivery.v: a value from the producer over the registry to the consumer.
    - JsonTests.v, ProtoTests.v, StoreTests.v, TopicTests.v, SecurityTests.v,
      ClientTests.v, UnitTests.v: the unit tests of the source, and the golden matrices of
      the verdicts a Confluent registry gives (tests/fixtures/compat), as inputs and expected results the definitions are run on.

    ** What the theorems show

    - The state. Every reachable state is well formed ([store_reachable_wf]);
      what [register] decides is what replaying its record gives, up to the text
      stored under an id that was already in use ([register_refines_replay]);
      registration is idempotent, ids are shared exactly between schemas with one
      canonical text, references and message type ([register_id_identity]);
      deletes remove exactly what they name and a deleted version number is not
      given out again in any later state ([permanent_delete_spec]);
      the queries return exactly the visible versions; [resolve_closure]
      returns the reference closure, dependencies first, and terminates.
    - The log. Every record decodes to what was encoded, keys identify what
      they name, any byte content replays to a
      well-formed state, a released waiter sees every record before its barrier
      ([read_your_writes]), and a barrier is released at most once. A node starts
      only on a topic with one partition that is compacted, does not wait past
      its deadline and retries only what may pass ([ensure_topic_spec]), and serves
      only once it has replayed everything before its start ([start_caught_up]); the
      reader task follows the step relation and has at most one connection open
      ([reader_task_spec]).
    - The facade. Against a log that only the primary writes, each write
      implements its specification: successes, refusals and what a transient
      failure may leave behind (the deletes against contracts on the registry itself); with an environment that answers, the specified
      outcome is reached ([register_refines], [settings_refine],
      [deletes_refine]). Barriers are given back wherever their waiter is dropped
      ([barriers_given_back]).
    - The cluster. Nodes that write side by side, two of which may believe they lead,
      with lagging readers, lost acknowledgements, cancelled requests and restarts,
      are together one sequential registry, and each answer is one that registry
      gives ([cluster_linearizable]). The transactional fencing costs liveness: a
      primary that a stale node fences out stays locked out for its generation
      ([fenced_primary_locked_out]).
    - Compaction. The cleaner may drop any superseded record and any leftover null of a
      log the cluster wrote, as often as it likes: a node that starts from what is left
      serves as the node that read everything, while the records of an id carry one
      content ([compaction_transparent]); the lookup by content is covered for logs
      without references and with one identity per id. What a compacted log does not keep is proved
      too: the largest id, the identities of deleted schemas, the earlier text of an id
      ([compaction_forgets_ids], [compaction_forgets_identities],
      [compaction_restores_text]).
    - The formats. A reader the Protobuf check accepts decodes what the writer
      wrote, field by field as [reads_schema] says ([protobuf_check_wire_safe]; groups
      count as messages), also through a registration
      ([protobuf_register_wire_safe]) and through the offline checker
      ([compat_check_sound]); an accepted JSON Schema relaxes the writer keyword by
      keyword, combinators, dependencies and conditionals included, to any depth
      without [$ref] ([json_check_relaxes]); the JSON check ends on documents without references or without
      combinators and diverges on some with both; the branch matching is maximum;
      the Avro preparation does what a reader's aliases and defaults ask.
    - The tests. On the inputs of the unit tests the definitions answer what the tests
      assert, and on all 152 JSON Schema and 108 Protobuf cases of the golden matrices
      the engine over the modelled diffs gives the recorded verdict
      ([json_engine_matches_cp_verdicts], [protobuf_engine_matches_cp_verdicts]).
    - Compatibility. Enforcement accepts exactly the candidates to which no comparison
      objects that the configured level asks for by its name, and agrees with the
      query endpoint: on the latest version, or on every version for the
      transitive levels.
    - The election and the HTTP surface. Within a generation at most one node
      claims the primary role, only as elected; a handler runs only behind
      authentication, the permission it needs and, for a write, on the primary;
      a forwarded write makes one hop; a request that writes to the log was
      authorised for just that subject or for the cluster ([writes_authorized]),
      and a node started from the command line enforces, on every connection, what its
      options ask and the ACLs its refresh task last read allow
      ([server_enforces_options]); it serves last ([server_start_order]); a policy it
      starts with fits what its requests carry, and its defaults are in force where
      no record says otherwise ([runtime_config_spec]); every answer has its
      endpoint's type, and an error is answered as what it is ([serve_well_typed]).
    - The clients. The frames round trip, the varint codec is a bijection;
      references resolve dependency first or fail for a reason that is there;
      the cache keeps at most one fetch of an id in flight, in every
      interleaving, and backs off as its policy says; pre-warm resolves every
      interned schema; a serde reads back what it wrote, and a pre-warmed one of any
      format writes the registered id ([registered_serde_writes]); the election client
      holds no connection between attempts ([run_leaks_nothing]). What a client gets is what
      the handler decided ([client_server_agree]), and a value a producer framed reaches
      a consumer that starts cold, with at most one fetch ([value_delivered]). A descriptor
      set is ordered dependency first, or the defect it has is reported.

    ** Bounds and fuel

    [resolve_into] recurses on stored references; its fuel is one more than the
    number of stored versions, and [resolve_closure_total] shows that it never
    runs out, since each level marks a new version as visited. The varint loops
    run at most ten times, which is what 64 bits need. The trimming loop runs
    at most once per byte. The walk of a descriptor set has one more than the
    number of files as fuel; out of fuel it has no answer, and [import_order_spec] shows
    that it always has one;
    [collect_refs] has one more than the number of imported names
    ([compat_check_sound]); the resolution of references recurses on the code's own
    depth limit of 64. The parser of JsonSyntax.v has twice the length of the text and
    one, which is enough for every printed value ([text_back]). The Avro rules recurse within the size of the reader's
    schema. The JSON Schema diff takes its fuel as an argument, since
    the code itself need not end: its answer does not depend on the fuel, and
    [json_check_terminates] gives a fuel that is enough. An operation of the facade makes at
    most 20 calls, the subject deletes a number of calls linear in the versions of
    the subject ([soft_bound], [permanent_bound]). The programs of Program.v and the
    steps of Cluster.v and Guards.v need no fuel; the scheduler of ClusterRun.v, which only
    makes the runs of the witnesses, has 60 calls per request.

    ** Not modelled, and why

    apache-avro's parsing and resolution, protox, prost-reflect, jsonschema, regex
    and serde_json's text are libraries: parameters, with the laws the theorems
    use stated as classes. Sockets, rustls and hyper, clap's parsing, telemetry and the audit log line are
    I/O: the models take what they deliver as inputs. Time appears as outcomes (a deadline
    that passed) in the registry, as a clock per round in Topic.v, and as
    instants in the client's cache.

    The brokers are not part of the program. What Cluster.v and Guards.v rely on is
    documented behaviour of Kafka, written as the steps the environment may take: the
    nodes share one transactional id, initialising it starts a new producer epoch and a
    transaction of an older epoch cannot commit; a transaction whose answer is lost may
    have committed; the cleaner keeps the last record of a key unless it is a null;
    readers fetch read_committed, so they never pass an open
    transaction and meet outcomes in log order; the idempotent producer keeps the order
    of its records. Brokers that lose acknowledged records are left out. *)

From stdpp Require Import base gmap strings list pretty sorting.
From Stdlib Require Import ZArith Lia Ascii.

(** ** Machine integers

    [SchemaId] and [SchemaVersion] are transparent newtypes over [i32]
    (ids.rs); both are [Z] here, with the width written out wherever the code
    does arithmetic on them. *)

Definition i32_min : Z := - 2 ^ 31.
Definition i32_max : Z := 2 ^ 31 - 1.

(** Two's-complement wrap-around to 32 bits: what [+] on [i32] does in a
    release build (a debug build panics instead when the result differs). *)
Definition i32_wrap (z : Z) : Z := (z + 2 ^ 31) mod 2 ^ 32 - 2 ^ 31.

(** [i32::saturating_add]. *)
Definition i32_saturating_add (a b : Z) : Z :=
  Z.max i32_min (Z.min i32_max (a + b)).

Definition in_i32 (z : Z) : Prop := (i32_min ≤ z ≤ i32_max)%Z.

#[global] Instance in_i32_dec z : Decision (in_i32 z).
Proof. unfold in_i32. apply _. Defined.

(** ** Results

    [Result<A, E>] of the source. The bind is the [?] operator; stdpp's
    [x ← c; k] notation is used for it throughout. *)

Inductive result (E A : Type) : Type :=
  | Ok (a : A)
  | Err (e : E).
Arguments Ok {E A} a.
Arguments Err {E A} e.

#[global] Instance result_ret E : MRet (result E) := λ A a, Ok a.
#[global] Instance result_bind E : MBind (result E) := λ A B k r,
  match r with Ok a => k a | Err e => Err e end.

Definition ok_or {E A} (o : option A) (e : E) : result E A :=
  match o with Some a => Ok a | None => Err e end.

Definition result_ok {E A} (r : result E A) : option A :=
  match r with Ok a => Some a | Err _ => None end.

Definition is_ok {E A} (r : result E A) : bool :=
  match r with Ok _ => true | Err _ => false end.

(** ** Development tactics *)

(** Case-split on every [match] of the goal or of a hypothesis [H], cleaning
    up the equalities after each split. *)
Ltac case_all := repeat (case_match; simplify_eq/=; try done).

Ltac invert_result :=
  repeat match goal with
    | H : Ok _ = Ok _ |- _ => injection H as H; subst
    | H : Err _ = Err _ |- _ => injection H as H; subst
    | H : Ok _ = Err _ |- _ => discriminate H
    | H : Err _ = Ok _ |- _ => discriminate H
    end.

(** Break a hypothesis [H : (x ← c; k x) = Ok y] into its two steps. *)
Ltac bind_inv H :=
  lazymatch type of H with
  | mbind ?k ?c = Ok ?y =>
      let E := fresh "Hstep" in
      destruct c eqn:E; simpl in H; [ | discriminate H ]
  end.

(** ** Integers *)

Lemma i32_wrap_id z : in_i32 z → i32_wrap z = z.
Proof.
  unfold in_i32, i32_min, i32_max, i32_wrap. intros H.
  rewrite Z.mod_small; lia.
Qed.

Lemma i32_wrap_range z : in_i32 (i32_wrap z).
Proof.
  unfold in_i32, i32_min, i32_max, i32_wrap.
  pose proof (Z.mod_pos_bound (z + 2 ^ 31) (2 ^ 32) ltac:(lia)). lia.
Qed.

Lemma i32_saturating_succ_lt z :
  in_i32 z → (z < i32_max)%Z → i32_saturating_add z 1 = (z + 1)%Z.
Proof. unfold in_i32, i32_saturating_add, i32_min, i32_max. lia. Qed.

Lemma i32_saturating_succ_ge z : in_i32 z → (z ≤ i32_saturating_add z 1)%Z.
Proof. unfold in_i32, i32_saturating_add, i32_min, i32_max. lia. Qed.

Lemma i32_saturating_range a b : in_i32 (i32_saturating_add a b).
Proof. unfold in_i32, i32_saturating_add, i32_min, i32_max. lia. Qed.

(** ** Stable sorting

    [slice::sort], [sort_by] and [sort_by_key] are stable; insertion from the
    right is the executable definition of the (unique) stable order. *)

Section sort_by.
Context {A : Type} (leb : A → A → bool).

Fixpoint insert_by (x : A) (l : list A) : list A :=
  match l with
  | [] => [x]
  | y :: l' => if leb x y then x :: l else y :: insert_by x l'
  end.

Fixpoint sort_by (l : list A) : list A :=
  match l with
  | [] => []
  | x :: l' => insert_by x (sort_by l')
  end.

Lemma insert_by_perm x l : insert_by x l ≡ₚ x :: l.
Proof.
  induction l as [|y l IH]; simpl; [done|].
  destruct (leb x y); [done|]. rewrite IH. apply perm_swap.
Qed.

Lemma sort_by_perm l : sort_by l ≡ₚ l.
Proof. induction l as [|x l IH]; simpl; [done|]. by rewrite insert_by_perm, IH. Qed.

Lemma elem_of_sort_by x l : x ∈ sort_by l ↔ x ∈ l.
Proof. by rewrite sort_by_perm. Qed.

Lemma length_sort_by l : length (sort_by l) = length l.
Proof. by rewrite sort_by_perm. Qed.

(** A list already in order is left as it is. *)
Lemma sort_by_sorted_id l :
  StronglySorted (λ x y, leb x y = true) l → sort_by l = l.
Proof.
  induction 1 as [|x l Hs IH Hall]; simpl; [done|]. rewrite IH.
  destruct l as [|y l]; simpl; [done|].
  apply Forall_cons in Hall as [-> _]. done.
Qed.

Context (Htotal : ∀ x y, leb x y = true ∨ leb y x = true).
Context (Htrans : ∀ x y z, leb x y = true → leb y z = true → leb x z = true).

Lemma insert_by_sorted x l :
  StronglySorted (λ x y, leb x y = true) l →
  StronglySorted (λ x y, leb x y = true) (insert_by x l).
Proof.
  induction 1 as [|y l Hs IH Hall]; simpl; [repeat constructor|].
  destruct (leb x y) eqn:E.
  - constructor; [by constructor|]. constructor; [done|].
    eapply Forall_impl; [done|]. intros z Hz. eauto.
  - constructor; [done|]. rewrite insert_by_perm. constructor; [|done].
    destruct (Htotal x y); congruence.
Qed.

Lemma sort_by_sorted l : StronglySorted (λ x y, leb x y = true) (sort_by l).
Proof. induction l; simpl; [constructor|]. by apply insert_by_sorted. Qed.
End sort_by.

(** ** String order: Rust compares [String]s byte by byte, as [String.leb]. *)

Lemma string_leb_total s1 s2 : String.leb s1 s2 = true ∨ String.leb s2 s1 = true.
Proof. apply String.leb_total. Qed.

Lemma string_leb_trans s1 s2 s3 :
  String.leb s1 s2 = true → String.leb s2 s3 = true → String.leb s1 s3 = true.
Proof.
  intros H1 H2. apply Is_true_true.
  apply (transitivity (R := String.le) (y := s2)); by apply Is_true_true.
Qed.

Lemma string_leb_antisym s1 s2 :
  String.leb s1 s2 = true → String.leb s2 s1 = true → s1 = s2.
Proof. apply String.leb_antisym. Qed.

(** ** [BTreeMap] iteration: the bindings in key order. *)

Definition pair_leb {A} (p q : string * A) : bool := String.leb p.1 q.1.

Definition btree_iter {A} (m : gmap string A) : list (string * A) :=
  sort_by pair_leb (map_to_list m).

Definition btree_keys {A} (m : gmap string A) : list string := (btree_iter m).*1.

Definition btree_values {A} (m : gmap string A) : list A := (btree_iter m).*2.

Lemma elem_of_btree_iter {A} (m : gmap string A) k v :
  (k, v) ∈ btree_iter m ↔ m !! k = Some v.
Proof. unfold btree_iter. by rewrite elem_of_sort_by, elem_of_map_to_list. Qed.

Lemma elem_of_btree_values {A} (m : gmap string A) v :
  v ∈ btree_values m ↔ ∃ k, m !! k = Some v.
Proof.
  unfold btree_values. rewrite list_elem_of_fmap. split.
  - intros ([k v'] & -> & H). exists k. by apply elem_of_btree_iter.
  - intros [k H]. exists (k, v). split; [done|]. by apply elem_of_btree_iter.
Qed.

Lemma btree_iter_sorted {A} (m : gmap string A) :
  StronglySorted (λ p q, pair_leb p q = true) (btree_iter m).
Proof.
  apply sort_by_sorted; unfold pair_leb; intros; eauto using string_leb_total, string_leb_trans.
Qed.

(** ** Lists *)

(** [Vec::dedup]-free [contains] guard before a push. *)
Definition push_unique `{EqDecision A} (x : A) (l : list A) : list A :=
  if bool_decide (x ∈ l) then l else l ++ [x].

Lemma elem_of_push_unique `{EqDecision A} (x y : A) l :
  y ∈ push_unique x l ↔ y = x ∨ y ∈ l.
Proof. unfold push_unique. case_bool_decide; set_solver. Qed.

Lemma NoDup_push_unique `{EqDecision A} (x : A) l :
  NoDup l → NoDup (push_unique x l).
Proof.
  unfold push_unique. case_bool_decide; [done|]. intros.
  rewrite Permutation_app_comm. simpl. by constructor.
Qed.

Lemma find_app {A} (f : A → bool) l1 l2 :
  List.find f (l1 ++ l2) =
  match List.find f l1 with Some x => Some x | None => List.find f l2 end.
Proof. induction l1 as [|x l1 IH]; simpl; [done|]. by destruct (f x). Qed.

(** [Vec::retain] that keeps the length keeps the vector. *)
Lemma filter_length_id {A} (f : A → bool) l :
  length (List.filter f l) = length l → List.filter f l = l.
Proof.
  induction l as [|x l IH]; simpl; [done|]. destruct (f x); simpl; intros Hl.
  - f_equal. apply IH. lia.
  - pose proof (List.filter_length_le f l). lia.
Qed.

Lemma filter_all {A} (f : A → bool) l : (∀ x, x ∈ l → f x = true) → List.filter f l = l.
Proof.
  induction l as [|x l IH]; intros Hl; simpl; [done|].
  rewrite Hl by (apply elem_of_cons; auto). f_equal. apply IH.
  intros y Hy. apply Hl, elem_of_cons. auto.
Qed.

Lemma elem_of_flat_map {A B} (f : A → list B) l y : y ∈ flat_map f l ↔ ∃ x, x ∈ l ∧ y ∈ f x.
Proof. rewrite list_elem_of_In, in_flat_map. by setoid_rewrite list_elem_of_In. Qed.

Lemma flat_map_nil {A B} (f : A → list B) l : (∀ x, x ∈ l → f x = []) → flat_map f l = [].
Proof.
  induction l as [|x l IH]; intros Hl; simpl; [done|].
  rewrite Hl by (by left). apply IH. intros y Hy. apply Hl. by right.
Qed.

Lemma both_nil {A} (l l' : list A) : l = [] → l' = [] → l ++ l' = [].
Proof. by intros -> ->. Qed.

(** [str::join]. *)
Fixpoint str_join (sep : string) (l : list string) : string :=
  match l with
  | [] => ""
  | [s] => s
  | s :: l' => s +:+ sep +:+ str_join sep l'
  end.

(** ** Hint database of the development *)

Create HintDb krabka.
Create Rewrite HintDb krabka.
#[export] Hint Resolve i32_wrap_range i32_saturating_range : krabka.
#[export] Hint Resolve elem_of_btree_iter btree_iter_sorted : krabka.
#[export] Hint Resolve NoDup_push_unique : krabka.
