(* ===== verification/Text.v ===== *)
(** * Text: the [str] operations the registry uses

    [strip_prefix], [split_once], [rsplit_once], [split], [trim], [lines] and
    the parsing of an [i32], on strings as byte sequences (UTF-8). *)

From stdpp Require Import base list strings pretty.
From Stdlib Require Import ZArith Lia Ascii.
From S2P Require Import Prelude.

(** [s.strip_prefix(p)]. *)
Fixpoint strip_prefix (p s : string) : option string :=
  match p, s with
  | EmptyString, _ => Some s
  | String a p', String b s' => if Ascii.eqb a b then strip_prefix p' s' else None
  | _, _ => None
  end.

Definition starts_with (p s : string) : bool :=
  match strip_prefix p s with Some _ => true | None => false end.

(** [s.split_once(d)] for a string [d]: the first occurrence. *)
Fixpoint split_once (d s : string) : option (string * string) :=
  match strip_prefix d s with
  | Some r => Some ("", r)
  | None =>
      match s with
      | EmptyString => None
      | String a s' => '(x, y) ← split_once d s'; Some (String a x, y)
      end
  end.

(** [s.rsplit_once(c)] for a character: the last occurrence. *)
Fixpoint rsplit_once (c : ascii) (s : string) : option (string * string) :=
  match s with
  | EmptyString => None
  | String a s' =>
      match rsplit_once c s' with
      | Some (x, y) => Some (String a x, y)
      | None => if Ascii.eqb a c then Some ("", s') else None
      end
  end.

(** [s.split(c)] for a character: never empty. *)
Fixpoint split_char (c : ascii) (s : string) : list string :=
  match s with
  | EmptyString => [""]
  | String a s' =>
      if Ascii.eqb a c then "" :: split_char c s'
      else match split_char c s' with
           | x :: l => String a x :: l
           | [] => []
           end
  end.

(** The number of a decimal digit. *)
Definition digit (c : ascii) : option Z :=
  let n := nat_of_ascii c in
  if (48 <=? n)%nat && (n <=? 57)%nat then Some (Z.of_nat (n - 48)) else None.

(** The value of a string of digits, most significant first. *)
Fixpoint digits_go (acc : Z) (s : string) : option Z :=
  match s with
  | EmptyString => Some acc
  | String c s' => d ← digit c; digits_go (10 * acc + d)%Z s'
  end.
Definition digits (s : string) : option Z :=
  match s with EmptyString => None | _ => digits_go 0 s end.

Definition signed_digits (s : string) : option Z :=
  match s with
  | String "+"%char r => digits r
  | String "-"%char r => Z.opp <$> digits r
  | _ => digits s
  end.

(** [s.parse::<i32>()]: an optional sign, at least one digit, in range. *)
Definition parse_i32 (s : string) : option Z :=
  z ← signed_digits s; if bool_decide (in_i32 z) then Some z else None.

(** *** Trimming *)

Definition of_bytes (l : list nat) : string := String.string_of_list_ascii (ascii_of_nat <$> l).

(** The characters with the Unicode property White_Space, in UTF-8. *)
Definition white_space : list string :=
  of_bytes <$>
    ([[9]; [10]; [11]; [12]; [13]; [32]; [194; 133]; [194; 160]; [225; 154; 128]] ++
     ((λ k, [226; 128; k]) <$> seq 128 11) ++
     [[226; 128; 168]; [226; 128; 169]; [226; 128; 175]; [226; 129; 159]; [227; 128; 128]]).

Fixpoint strip_any (ps : list string) (s : string) : option string :=
  match ps with
  | [] => None
  | p :: ps' => match strip_prefix p s with Some r => Some r | None => strip_any ps' s end
  end.

(** Strip as long as one of [ps] is a prefix; a round removes a character. *)
Fixpoint strip_all (fuel : nat) (ps : list string) (s : string) : string :=
  match fuel with
  | O => s
  | S fuel' => match strip_any ps s with Some r => strip_all fuel' ps r | None => s end
  end.

Definition str_rev (s : string) : string := String.string_of_list_ascii (rev (String.list_ascii_of_string s)).

Definition trim_start (s : string) : string := strip_all (String.length s) white_space s.
Definition trim_end (s : string) : string :=
  str_rev (strip_all (String.length s) (str_rev <$> white_space) (str_rev s)).
Definition trim (s : string) : string := trim_end (trim_start s).

(** [s.lines()]: pieces ended by a newline lose it and a carriage return
    before it; a last piece without a newline is a line unless empty. *)
Definition strip_cr (s : string) : string :=
  match strip_prefix (of_bytes [13]) (str_rev s) with Some r => str_rev r | None => s end.
Fixpoint lines_of (pieces : list string) : list string :=
  match pieces with
  | [] => []
  | [s] => if String.eqb s "" then [] else [s]
  | s :: rest => strip_cr s :: lines_of rest
  end.
Definition lines (s : string) : list string := lines_of (split_char (ascii_of_nat 10) s).

(** The [Debug] form of a string and of a list of strings. A character above
    ASCII is printed as it is, as Rust prints every printable one. *)
Definition hex_lower (n : nat) : ascii := ascii_of_nat (if (n <? 10)%nat then n + 48 else n + 87).

Definition debug_char (c : ascii) : string :=
  let n := nat_of_ascii c in
  let escape (x : nat) := of_bytes [92; x] in
  if (n =? 0)%nat then escape 48
  else if (n =? 9)%nat then escape 116
  else if (n =? 10)%nat then escape 110
  else if (n =? 13)%nat then escape 114
  else if (n =? 34)%nat then escape 34
  else if (n =? 92)%nat then escape 92
  else if (n <? 16)%nat then "\u{" +:+ String (hex_lower n) "}"
  else if ((n <? 32) || (n =? 127))%nat then
    "\u{" +:+ String (hex_lower (n / 16)) (String (hex_lower (n mod 16)) "}")
  else String c "".

Fixpoint debug_chars (s : string) : string :=
  match s with EmptyString => "" | String c s' => debug_char c +:+ debug_chars s' end.

Definition debug_str (s : string) : string := of_bytes [34] +:+ debug_chars s +:+ of_bytes [34].
Definition debug_strs (l : list string) : string := "[" +:+ str_join ", " (debug_str <$> l) +:+ "]".

(** ** Facts *)

Lemma strip_prefix_app p s : strip_prefix p (p +:+ s) = Some s.
Proof. induction p as [|a p IH]; simpl; [done|]. by rewrite Ascii.eqb_refl. Qed.

Lemma strip_prefix_Some p s r : strip_prefix p s = Some r ↔ s = p +:+ r.
Proof.
  split; [|intros ->; apply strip_prefix_app].
  revert s. induction p as [|a p IH]; intros [|b s]; simpl; try (intros; simplify_eq/=; done).
  destruct (Ascii.eqb_spec a b) as [->|]; [|done]. intros Hs%IH. by subst.
Qed.

Lemma string_app_nil (s : string) : s +:+ "" = s.
Proof. induction s as [|a s IH]; [done|]. change (String a (s +:+ "") = String a s). by rewrite IH. Qed.

(** [c] does not occur in [s]. *)
Fixpoint free_of (c : ascii) (s : string) : bool :=
  match s with EmptyString => true | String a s' => negb (Ascii.eqb a c) && free_of c s' end.

Lemma free_of_app c s t : free_of c (s +:+ t) = free_of c s && free_of c t.
Proof. induction s as [|a s IH]; simpl; [done|]. by rewrite IH, andb_assoc. Qed.

(** Splitting at a delimiter whose first character the prefix avoids. *)
Lemma split_once_app c d x y :
  free_of c x = true → split_once (String c d) (x +:+ String c d +:+ y) = Some (x, y).
Proof.
  induction x as [|a x IH]; intros Hf.
  - change ("" +:+ String c d +:+ y) with (String c d +:+ y).
    assert (strip_prefix (String c d) (String c d +:+ y) = Some y) as Hs by apply strip_prefix_app.
    simpl in *. by rewrite Hs.
  - simpl in Hf. apply andb_true_iff in Hf as [Ha Hf]. apply negb_true_iff in Ha.
    rewrite Ascii.eqb_sym in Ha. simpl. rewrite Ha. simpl in IH. by rewrite (IH Hf).
Qed.

Lemma split_once_Some d s x y : split_once d s = Some (x, y) → s = x +:+ d +:+ y.
Proof.
  revert x. induction s as [|a s IH]; intros x; cbn [split_once].
  - destruct (strip_prefix d "") as [r|] eqn:Hp; [|done]. intros [= <- <-].
    by apply strip_prefix_Some in Hp.
  - destruct (strip_prefix d (String a s)) as [r|] eqn:Hp.
    { intros [= <- <-]. by apply strip_prefix_Some in Hp. }
    destruct (split_once d s) as [[x' y']|]; simpl; [|done]. intros [= <- <-].
    by rewrite (IH x' eq_refl).
Qed.

(** Splitting at a character: the part before it is free of it. *)
Lemma split_once_char c s x y :
  split_once (String c "") s = Some (x, y) ↔ s = x +:+ String c y ∧ free_of c x = true.
Proof.
  split; [|intros [-> Hf]; apply (split_once_app c "" x y Hf)].
  revert x. induction s as [|a s IH]; intros x; [done|]. cbn [split_once strip_prefix].
  destruct (Ascii.eqb_spec c a) as [->|Hne].
  - intros [= <- <-]. done.
  - destruct (split_once (String c "") s) as [[x' y']|] eqn:Hs; simpl; [|done].
    intros [= <- <-]. destruct (IH x' eq_refl) as [-> Hf]. split; [done|]. simpl.
    destruct (Ascii.eqb_spec a c); [congruence|done].
Qed.

Lemma rsplit_once_None c s : rsplit_once c s = None ↔ free_of c s = true.
Proof.
  induction s as [|a s IH]; simpl; [done|]. destruct (rsplit_once c s) as [[x y]|].
  - rewrite andb_true_iff, <-IH. split; [done|by intros []].
  - destruct (Ascii.eqb a c); simpl; [done|]. tauto.
Qed.

Lemma rsplit_once_app c x y :
  free_of c y = true → rsplit_once c (x +:+ String c y) = Some (x, y).
Proof.
  intros Hy. induction x as [|a x IH].
  - simpl. apply rsplit_once_None in Hy. by rewrite Hy, Ascii.eqb_refl.
  - simpl in *. by rewrite IH.
Qed.

Lemma rsplit_once_Some c s x y : rsplit_once c s = Some (x, y) → s = x +:+ String c y.
Proof.
  revert x. induction s as [|a s IH]; intros x; simpl; [done|].
  destruct (rsplit_once c s) as [[x' y']|] eqn:Hr.
  - intros [= <- <-]. by rewrite (IH x' eq_refl).
  - destruct (Ascii.eqb_spec a c) as [->|]; [|done]. by intros [= <- <-].
Qed.

Lemma split_char_free c s : free_of c s = true → split_char c s = [s].
Proof.
  induction s as [|a s IH]; simpl; [done|]. rewrite andb_true_iff, negb_true_iff. intros [-> Hs].
  by rewrite IH.
Qed.

Lemma split_char_app c x s : free_of c x = true → split_char c (x +:+ String c s) = x :: split_char c s.
Proof.
  induction x as [|a x IH]; simpl; [by rewrite Ascii.eqb_refl|].
  rewrite andb_true_iff, negb_true_iff. intros [-> Hx]. simpl in IH. by rewrite IH.
Qed.

(** *** Numbers *)

Lemma digits_go_app acc s t : digits_go acc (s +:+ t) = (a ← digits_go acc s; digits_go a t).
Proof.
  revert acc. induction s as [|c s IH]; intros acc; simpl; [done|].
  destruct (digit c); simpl; [apply IH|done].
Qed.

Lemma digit_char n : (n < 10)%N → digit (pretty_N_char n) = Some (Z.of_N n).
Proof.
  intros Hn. assert (∀ k : nat, k < 10 → digit (pretty_N_char (N.of_nat k)) = Some (Z.of_nat k)) as Hall.
  { intros k Hk. do 10 (destruct k as [|k]; [reflexivity|]). lia. }
  specialize (Hall (N.to_nat n) ltac:(lia)). rewrite N2Nat.id in Hall. rewrite Hall. f_equal. lia.
Qed.

(** The printed number, read before the digits already printed. *)
Lemma digits_go_pretty x s acc :
  ∃ k, digits_go acc (pretty_N_go x s) = digits_go (acc * 10 ^ k + Z.of_N x)%Z s.
Proof.
  revert s acc. induction (N.lt_wf_0 x) as [x _ IH]; intros s acc.
  destruct (decide (x = 0)%N) as [->|Hx].
  { rewrite pretty_N_go_0. exists 0%Z. f_equal. lia. }
  rewrite pretty_N_go_step by lia.
  destruct (IH (x `div` 10)%N (N.div_lt x 10 ltac:(lia) eq_refl)
    (String (pretty_N_char (x `mod` 10)) s) acc) as [k Hk].
  destruct (decide (0 ≤ k)%Z) as [Hk0|Hk0].
  - exists (k + 1)%Z. rewrite Hk. cbn [digits_go].
    rewrite digit_char by (apply N.mod_lt; lia). simpl. f_equal.
    rewrite N2Z.inj_mod, N2Z.inj_div, Z.pow_add_r, Z.pow_1_r by lia.
    pose proof (Z.div_mod (Z.of_N x) 10 ltac:(lia)). simpl. lia.
  - exists k. rewrite Hk. cbn [digits_go]. rewrite digit_char by (apply N.mod_lt; lia). simpl. f_equal.
    rewrite (Z.pow_neg_r 10 k) by lia.
    rewrite N2Z.inj_mod, N2Z.inj_div. pose proof (Z.div_mod (Z.of_N x) 10 ltac:(lia)). simpl. lia.
Qed.

Lemma digits_pretty_N n : digits (pretty n) = Some (Z.of_N n).
Proof.
  unfold pretty, pretty_N. case_decide as Hn; [by subst|].
  destruct (digits_go_pretty n "" 0) as [k Hk]. rewrite Z.mul_0_l, Z.add_0_l in Hk.
  cbn [digits_go] in Hk.
  unfold digits. destruct (pretty_N_go n "") as [|c s] eqn:He; [|done].
  simpl in Hk. injection Hk as Hk. lia.
Qed.

Lemma digits_head c s z : digits (String c s) = Some z → ∃ d, digit c = Some d.
Proof. simpl. destruct (digit c) as [d|]; [eauto|done]. Qed.

Lemma signed_digits_pretty (z : Z) : signed_digits (pretty z) = Some z.
Proof.
  destruct z as [|p|p]; unfold pretty, pretty_Z; [done|..].
  - pose proof (digits_pretty_N (N.pos p)) as Hd. change (pretty p) with (pretty (N.pos p)).
    destruct (pretty (N.pos p)) as [|c s]; [done|]. destruct (digits_head c s _ Hd) as [d Hc].
    destruct c as [[] [] [] [] [] [] [] []]; try exact Hd; discriminate Hc.
  - change (signed_digits _) with (Z.opp <$> digits (pretty (N.pos p))). by rewrite digits_pretty_N.
Qed.

(** Printing an [i32] and parsing it back. *)
Lemma parse_i32_pretty z : in_i32 z → parse_i32 (pretty z) = Some z.
Proof.
  intros Hz. unfold parse_i32. rewrite signed_digits_pretty. simpl. by rewrite bool_decide_true.
Qed.

(** The characters a printed number can have. *)
Lemma free_of_pretty_N c (n : N) : digit c = None → free_of c (pretty n) = true.
Proof.
  intros Hc. pose proof (digits_pretty_N n) as Hd.
  assert (∀ s acc z, digits_go acc s = Some z → free_of c s = true) as Hall.
  { induction s as [|a s IH]; intros acc z; simpl; [done|].
    destruct (digit a) as [d|] eqn:Ha; simpl; [|done]. intros Hs.
    destruct (Ascii.eqb_spec a c) as [->|]; [congruence|]. simpl. by eapply IH. }
  unfold digits in Hd. destruct (pretty n); [done|]. by eapply Hall.
Qed.

Lemma free_of_pretty_Z c (z : Z) : digit c = None → c ≠ "-"%char → free_of c (pretty z) = true.
Proof.
  intros Hc Hd. destruct z as [|p|p]; unfold pretty, pretty_Z.
  - change (free_of c "0" = true). cbn [free_of]. destruct (Ascii.eqb_spec "0"%char c) as [<-|]; [discriminate Hc|done].
  - by apply free_of_pretty_N.
  - rewrite free_of_app. apply andb_true_iff. split; [|by apply (free_of_pretty_N c (N.pos p))].
    cbn [free_of]. destruct (Ascii.eqb_spec "-"%char c); [congruence|done].
Qed.
