(* ===== verification/Float.v ===== *)
(** * [f64] arithmetic

    The operations on [f64] that the sources use, over the IEEE binary64 of the
    Standard Library's [SpecFloat]: conversions from integers, the comparison
    with [f64::EPSILON], [round] and [max]. *)

From stdpp Require Import base.
From Stdlib Require Import ZArith Lia SpecFloat.

Open Scope Z_scope.

(** Integers as [f64], rounded to nearest. *)
Definition f64_of_Z (n : Z) : spec_float := binary_normalize 53 1024 n 0 false.

Definition f64_sub (x y : spec_float) : spec_float := SFsub 53 1024 x y.
Definition f64_mul (x y : spec_float) : spec_float := SFmul 53 1024 x y.
Definition f64_div (x y : spec_float) : spec_float := SFdiv 53 1024 x y.

(** [f64::EPSILON], [2^-52]. *)
Definition EPSILON : spec_float := S754_finite false 4503599627370496 (-104).

(** [f64::max]: a NaN gives the other argument. *)
Definition f64_max (x y : spec_float) : spec_float :=
  match x with
  | S754_nan => y
  | _ => if SFltb x y then y else x
  end.

(** [f64::round]: to the nearest integer, halves away from zero. *)
Definition f64_round (x : spec_float) : spec_float :=
  match x with
  | S754_finite s m e =>
      if 0 <=? e then x
      else
        let n := (2 * Z.pos m + 2 ^ (- e)) / 2 ^ (1 - e) in
        if n =? 0 then S754_zero s
        else binary_normalize 53 1024 (if s then - n else n) 0 s
  | _ => x
  end.

(** Two numbers further apart than [f64::EPSILON]. *)
Definition f64_differ (o u : spec_float) : bool := SFltb EPSILON (SFabs (f64_sub o u)).

(** No number differs from itself, whatever it is. *)
Lemma f64_differ_refl x : f64_differ x x = false.
Proof.
  unfold f64_differ, f64_sub. destruct x as [[]|[]| |s m e]; try reflexivity.
  cbn [SFsub]. rewrite Z.min_id. unfold shl_align. rewrite Z.sub_diag. cbn [fst]. rewrite ?Z.sub_diag, ?Z.add_opp_diag_r, ?Z.add_opp_diag_l.
  destruct s; reflexivity.
Qed.
