(* ===== verification/Json.v ===== *)
(** * serde_json values

    The data type [serde_json::Value] as the registry uses it. The crate is
    built without the [preserve_order] feature (Cargo.lock lists no [indexmap]
    dependency for it), so an object of a [Value] is a [BTreeMap<String, Value>]:
    an association list in strictly increasing key order, [json_wf] being that
    invariant. The same type also stands for a JSON text's content before it
    is collected into a map (the entries in the order of the text, repeated
    keys included), which is what a derived [Deserialize] reads;
    [json_normalize] is the collection. Numbers follow serde_json's three representations; [f64] is the
    IEEE binary64 of the Standard Library's [SpecFloat]. Parsing and printing
    of text belong to serde_json and are parameters where they are used. *)

From stdpp Require Import base gmap strings list sorting.
From Stdlib Require Import ZArith Lia SpecFloat.
From S2P Require Import Prelude.

Inductive number :=
  | PosInt (n : Z)
  | NegInt (n : Z)
  | Float (f : spec_float).

Inductive json :=
  | JNull
  | JBool (b : bool)
  | JNumber (n : number)
  | JString (s : string)
  | JArray (l : list json)
  | JObject (l : list (string * json)).

(** [Map::get] on the association list. *)
Fixpoint assoc_get {A} (k : string) (l : list (string * A)) : option A :=
  match l with
  | [] => None
  | (k', v) :: l' => if String.eqb k k' then Some v else assoc_get k l'
  end.

(** [Value::get] with a string index: [None] on everything but an object. *)
Definition json_get (v : json) (k : string) : option json :=
  match v with JObject l => assoc_get k l | _ => None end.

Definition as_str (v : json) : option string :=
  match v with JString s => Some s | _ => None end.
Definition as_array (v : json) : option (list json) :=
  match v with JArray l => Some l | _ => None end.
Definition as_object (v : json) : option (list (string * json)) :=
  match v with JObject l => Some l | _ => None end.
Definition as_bool (v : json) : option bool :=
  match v with JBool b => Some b | _ => None end.
Definition is_object (v : json) : bool :=
  match v with JObject _ => true | _ => false end.
Definition is_array (v : json) : bool :=
  match v with JArray _ => true | _ => false end.
Definition is_boolean (v : json) : bool :=
  match v with JBool _ => true | _ => false end.

(** Recursion principle through both containers. *)
Section json_ind.
Context (P : json → Prop).
Context (Hnull : P JNull) (Hbool : ∀ b, P (JBool b)) (Hnum : ∀ n, P (JNumber n)).
Context (Hstr : ∀ s, P (JString s)).
Context (Harr : ∀ l, Forall P l → P (JArray l)).
Context (Hobj : ∀ l, Forall (λ kv, P kv.2) l → P (JObject l)).

Fixpoint json_rect' (v : json) : P v :=
  match v with
  | JNull => Hnull
  | JBool b => Hbool b
  | JNumber n => Hnum n
  | JString s => Hstr s
  | JArray l => Harr l
      ((fix go l : Forall P l :=
          match l with
          | [] => Forall_nil_2 P
          | x :: l' => Forall_cons_2 P x l' (json_rect' x) (go l')
          end) l)
  | JObject l => Hobj l
      ((fix go l : Forall (λ kv, P kv.2) l :=
          match l with
          | [] => Forall_nil_2 _
          | x :: l' => Forall_cons_2 (λ kv, P kv.2) x l' (json_rect' x.2) (go l')
          end) l)
  end.
End json_ind.

(** Structural size, the measure of the recursive traversals. *)
Fixpoint json_size (v : json) : nat :=
  match v with
  | JArray l => S (sum_list_with json_size l)
  | JObject l => S (sum_list_with (λ kv, json_size kv.2) l)
  | _ => 1
  end.

#[global] Instance spec_float_eq_dec : EqDecision spec_float.
Proof. solve_decision. Defined.

#[global] Instance number_eq_dec : EqDecision number.
Proof. solve_decision. Defined.

(** Structural equality; the [PartialEq] of [Value], which compares numbers as IEEE does, is [json_eqb] of
    the JSON Schema diff. *)
#[global] Instance json_eq_dec : EqDecision json.
Proof.
  refine (fix go (v w : json) : Decision (v = w) :=
    match v, w with
    | JNull, JNull => left _
    | JBool b, JBool b' => cast_if (decide (b = b'))
    | JNumber n, JNumber n' => cast_if (decide (n = n'))
    | JString s, JString s' => cast_if (decide (s = s'))
    | JArray l, JArray l' =>
        cast_if ((fix goA (l l' : list json) : Decision (l = l') :=
          match l, l' with
          | [], [] => left _
          | x :: l, y :: l' => cast_if_and (go x y) (goA l l')
          | _, _ => right _
          end) l l')
    | JObject l, JObject l' =>
        cast_if ((fix goO (l l' : list (string * json)) : Decision (l = l') :=
          match l, l' with
          | [], [] => left _
          | (k, x) :: l, (k', y) :: l' =>
              cast_if_and3 (decide (k = k')) (go x y) (goO l l')
          | _, _ => right _
          end) l l')
    | _, _ => right _
    end); try congruence.
Defined.

(** ** Collection into a [BTreeMap] *)

(** [BTreeMap::insert] on the sorted association list. *)
Fixpoint assoc_insert {A} (k : string) (v : A) (l : list (string * A)) : list (string * A) :=
  match l with
  | [] => [(k, v)]
  | (k', v') :: l' =>
      match String.compare k k' with
      | Lt => (k, v) :: l
      | Eq => (k, v) :: l'
      | Gt => (k', v') :: assoc_insert k v l'
      end
  end.

Definition collect_map {A} (l : list (string * A)) : list (string * A) :=
  foldl (λ acc kv, assoc_insert kv.1 kv.2 acc) [] l.

(** Reading a text into a [Value]: later bindings of a key win. *)
Fixpoint json_normalize (v : json) : json :=
  match v with
  | JArray l => JArray (map json_normalize l)
  | JObject l => JObject (collect_map (map (λ kv, (kv.1, json_normalize kv.2)) l))
  | _ => v
  end.

Definition key_lt (a b : string) : Prop := String.compare a b = Lt.

Fixpoint json_wf (v : json) : Prop :=
  match v with
  | JArray l => foldr (λ x P, json_wf x ∧ P) True l
  | JObject l =>
      StronglySorted key_lt l.*1 ∧ foldr (λ kv P, json_wf kv.2 ∧ P) True l
  | _ => True
  end.

Lemma assoc_insert_above {A} (k : string) (v : A) l :
  (∀ k', k' ∈ l.*1 → key_lt k' k) → assoc_insert k v l = l ++ [(k, v)].
Proof.
  induction l as [|[k' v'] l IH]; intros Hl; simpl; [done|].
  assert (key_lt k' k) as Hk by (apply Hl; simpl; apply elem_of_cons; auto).
  unfold key_lt in Hk. rewrite String.compare_antisym, Hk. simpl. f_equal. apply IH.
  intros k2 Hk2. apply Hl. simpl. apply elem_of_cons. auto.
Qed.

Lemma collect_map_sorted {A} (l : list (string * A)) :
  StronglySorted key_lt l.*1 → collect_map l = l.
Proof.
  unfold collect_map. intros Hs.
  enough (∀ acc, StronglySorted key_lt (acc ++ l).*1 →
            foldl (λ acc kv, assoc_insert kv.1 kv.2 acc) acc l = acc ++ l) as Hgen.
  { by apply (Hgen []). }
  clear Hs. induction l as [|[k v] l IH]; intros acc Hs; simpl; [by rewrite app_nil_r|].
  rewrite assoc_insert_above.
  - rewrite IH; by rewrite <-app_assoc.
  - intros k' Hk'. rewrite fmap_app in Hs. simpl in Hs.
    clear -Hs Hk'. induction (acc.*1) as [|x xs IHx]; [by apply elem_of_nil in Hk'|].
    simpl in Hs. apply StronglySorted_inv in Hs as [Hs Hall].
    apply elem_of_cons in Hk' as [->|Hk']; [|auto].
    rewrite Forall_forall in Hall. apply Hall, elem_of_app. right. apply elem_of_cons. auto.
Qed.

Lemma json_normalize_wf v : json_wf v → json_normalize v = v.
Proof.
  induction v as [| | | |l IH|l IH] using json_rect'; simpl; try done.
  - intros Hw. f_equal. induction IH as [|x l Hx _ IHl]; simpl in *; [done|].
    destruct Hw as [Hx' Hw]. by rewrite Hx, IHl.
  - intros [Hs Hw].
    assert (map (λ kv, (kv.1, json_normalize kv.2)) l = l) as Heq.
    { clear Hs. induction IH as [|[k x] l Hx _ IHl]; simpl in *; [done|].
      destruct Hw as [Hx' Hw]. by rewrite Hx, IHl. }
    by rewrite Heq, collect_map_sorted.
Qed.
