(* ===== verification/Types.v ===== *)
(** * Shared types of the registry service

    [SchemaType] and [ResolvedReference] (format/mod.rs), [SchemaReference]
    (kafkastore/record.rs), the error model [SrError] with its Confluent codes
    (error.rs), and the interface [SchemaFormat] that the format layer offers
    to the store and to the compatibility engine. *)

From stdpp Require Import base gmap strings list pretty.
From Stdlib Require Import ZArith Lia.
From S2P Require Import Prelude Text.

Inductive SchemaType := Avro | Protobuf | Json.

#[global] Instance SchemaType_eq_dec : EqDecision SchemaType.
Proof. solve_decision. Defined.

Definition wire_name (ty : SchemaType) : option string :=
  match ty with
  | Avro => None
  | Protobuf => Some "PROTOBUF"
  | Json => Some "JSON"
  end.

Definition from_wire (s : option string) : SchemaType :=
  match s with
  | None => Avro
  | Some s =>
      if String.eqb s "" || String.eqb s "AVRO" then Avro
      else if String.eqb s "PROTOBUF" then Protobuf
      else Json
  end.

Record SchemaReference := mkSchemaReference {
  ref_name : string;
  ref_subject : string;
  ref_version : Z;
}.

#[global] Instance SchemaReference_eq_dec : EqDecision SchemaReference.
Proof. solve_decision. Defined.

Record ResolvedReference := mkResolvedReference {
  res_name : string;
  res_ty : SchemaType;
  res_schema : string;
}.

#[global] Instance ResolvedReference_eq_dec : EqDecision ResolvedReference.
Proof. solve_decision. Defined.

Inductive SrError :=
  | NotFound
  | MethodNotAllowed
  | Forbidden
  | InvalidRequest (m : string)
  | ForwardFailed
  | UnknownLeader (m : string)
  | SubjectNotFound (subject : string)
  | VersionNotFound
  | SchemaNotFound
  | InvalidSchema (m : string)
  | InvalidVersion (m : string)
  | InvalidCompatibilityLevel (m : string)
  | Backend (m : string)
  | OperationTimedOut
  | Incompatible (msgs : list string)
  | OperationNotPermitted (subject : string)
  | SchemaIdConflict (id : Z)
  | SubjectNotSoftDeleted (subject : string)
  | VersionNotSoftDeleted (subject : string) (version : Z)
  | InvalidMode (m : string)
  | SubjectSoftDeleted (subject : string)
  | SubjectModeNotConfigured (subject : string)
  | ReferenceNotFound (m : string)
  | ReferencedByOthers (m : string).

#[global] Instance SrError_eq_dec : EqDecision SrError.
Proof. solve_decision. Defined.

Definition error_code (e : SrError) : Z :=
  match e with
  | NotFound => 404
  | MethodNotAllowed => 405
  | Forbidden => 40301
  | InvalidRequest _ => 400
  | ForwardFailed => 50003
  | UnknownLeader _ => 50004
  | SubjectNotFound _ => 40401
  | VersionNotFound => 40402
  | SchemaNotFound => 40403
  | InvalidSchema _ | ReferenceNotFound _ => 42201
  | InvalidVersion _ => 42202
  | InvalidCompatibilityLevel _ => 42203
  | Backend _ => 50001
  | OperationTimedOut => 50002
  | Incompatible _ => 409
  | OperationNotPermitted _ | SchemaIdConflict _ => 42205
  | SubjectNotSoftDeleted _ => 40405
  | VersionNotSoftDeleted _ _ => 40407
  | InvalidMode _ => 42204
  | SubjectSoftDeleted _ => 40404
  | SubjectModeNotConfigured _ => 40409
  | ReferencedByOthers _ => 42206
  end%Z.

Definition http_status (e : SrError) : Z :=
  match e with
  | MethodNotAllowed => 405
  | Forbidden => 403
  | InvalidRequest _ => 400
  | NotFound | SubjectNotFound _ | VersionNotFound | SchemaNotFound
  | SubjectNotSoftDeleted _ | VersionNotSoftDeleted _ _
  | SubjectSoftDeleted _ | SubjectModeNotConfigured _ => 404
  | InvalidSchema _ | InvalidVersion _ | InvalidCompatibilityLevel _
  | OperationNotPermitted _ | SchemaIdConflict _ | InvalidMode _
  | ReferenceNotFound _ | ReferencedByOthers _ => 422
  | Backend _ | OperationTimedOut | ForwardFailed | UnknownLeader _ => 500
  | Incompatible _ => 409
  end%Z.

(** The [Display] of an error. *)
Definition error_message (e : SrError) : string :=
  match e with
  | NotFound => "HTTP 404 Not Found"
  | MethodNotAllowed => "HTTP 405 Method Not Allowed"
  | Forbidden => "Forbidden"
  | InvalidRequest m => m
  | ForwardFailed => "Error while forwarding register schema request to the leader"
  | UnknownLeader m => "Unknown leader: " +:+ m
  | SubjectNotFound s => "Subject '" +:+ s +:+ "' not found."
  | VersionNotFound => "Version not found."
  | SchemaNotFound => "Schema not found"
  | InvalidSchema m => "Invalid schema: " +:+ m
  | InvalidVersion m => "Invalid version: " +:+ m
  | InvalidCompatibilityLevel m => "Invalid compatibility level: " +:+ m
  | Backend m => "Error in the backend data store: " +:+ m
  | OperationTimedOut => "Operation timed out"
  | Incompatible msgs =>
      "Schema being registered is incompatible with an earlier schema; details: " +:+ debug_strs msgs
  | OperationNotPermitted s => "Subject '" +:+ s +:+ "' is in read-only mode."
  | SchemaIdConflict id => "Overwrite new schema with id " +:+ pretty id +:+ " is not permitted."
  | SubjectNotSoftDeleted s => "Subject '" +:+ s +:+ "' was not deleted first before being permanently deleted."
  | VersionNotSoftDeleted s v =>
      "Version " +:+ pretty v +:+ " of subject '" +:+ s +:+
      "' was not soft-deleted first before being permanently deleted."
  | InvalidMode m => "Invalid mode: " +:+ m
  | SubjectSoftDeleted s => "Subject '" +:+ s +:+ "' was soft deleted. Set permanent=true to delete permanently."
  | SubjectModeNotConfigured s => "Subject '" +:+ s +:+ "' does not have subject-level mode configured"
  | ReferenceNotFound m => "Reference " +:+ m +:+ " not found."
  | ReferencedByOthers m => "One or more references exist to the schema " +:+ m +:+ "."
  end.

(** ** The format layer's interface

    What [format::parse(..).map(canonical_form)], [format::check] and
    [format::normalized_storage_form] offer to the store. The store and the
    compatibility engine are proved against this class; no law is assumed. *)
Class SchemaFormat := {
  format_parse : SchemaType → string → list ResolvedReference → result SrError string;
  format_check : SchemaType → string → string →
                 list ResolvedReference → list ResolvedReference →
                 result (list string) unit;
  normalized_storage_form :
    SchemaType → string → list ResolvedReference → result SrError string;
}.

(** Reading back the wire name of a type gives the type. *)
Lemma from_wire_wire_name ty : from_wire (wire_name ty) = ty.
Proof. by destruct ty. Qed.

#[export] Hint Rewrite from_wire_wire_name : krabka.

(** The error code refines the HTTP status: its leading three digits are the
    status, with no exception. *)
Lemma error_code_refines_status e :
  error_code e = http_status e ∨ (error_code e / 100 = http_status e)%Z.
Proof. destruct e; simpl; auto. Qed.
