(* ===== verification/Store.v ===== *)
(** * The in-memory registry state: [StoreState] (store/mod.rs)

    Definitions only; the invariant and the theorems are in [StoreFacts].
    [BTreeMap]s are [gmap]s, iterated in key order through [btree_iter];
    a subject's history is the [Vec<VersionEntry>] of the source, a list.
    [SchemaId] and [SchemaVersion] are [Z] holding an [i32]. *)

From stdpp Require Import base gmap strings list pretty.
From Stdlib Require Import ZArith Lia Ascii.
From S2P Require Import Prelude Json Types.

Record Registered := mkRegistered {
  reg_id : Z;
  reg_version : Z;
}.

Record RegisteredSchema := mkRegisteredSchema {
  rs_ty : SchemaType;
  rs_schema : string;
  rs_references : list SchemaReference;
  rs_message_type : option string;
  rs_extra : gmap string json;
}.

Record VersionedSchema := mkVersionedSchema {
  vs_id : Z;
  vs_version : Z;
  vs_ty : SchemaType;
  vs_schema : string;
  vs_references : list SchemaReference;
  vs_message_type : option string;
  vs_extra : gmap string json;
}.

Record ListedSchema := mkListedSchema {
  ls_subject : string;
  ls_version : Z;
  ls_id : Z;
  ls_ty : SchemaType;
  ls_schema : string;
  ls_references : list SchemaReference;
  ls_message_type : option string;
}.

Record VersionEntry := mkVersionEntry {
  ve_version : Z;
  ve_id : Z;
  ve_deleted : bool;
}.

Record StoreState := mkStoreState {
  subjects : gmap string (list VersionEntry);
  by_id : gmap Z RegisteredSchema;
  by_canonical : gmap string Z;
  canonical_by_id : gmap Z string;
  global_compat_ : option string;
  default_compatibility : string;
  subject_compat_ : gmap string string;
  global_mode_ : option string;
  default_mode : string;
  subject_mode_ : gmap string string;
  max_id : Z;
  next_versions : gmap string Z;
}.

#[global] Instance Registered_eq_dec : EqDecision Registered.
Proof. solve_decision. Defined.
#[global] Instance VersionEntry_eq_dec : EqDecision VersionEntry.
Proof. solve_decision. Defined.
#[global] Instance RegisteredSchema_eq_dec : EqDecision RegisteredSchema.
Proof. solve_decision. Defined.

(** A decoded [SCHEMA] record's value (kafkastore/record.rs). *)
Record SchemaValue := mkSchemaValue {
  sv_subject : string;
  sv_version : Z;
  sv_id : Z;
  sv_schema_type : option string;
  sv_message_type : option string;
  sv_references : list SchemaReference;
  sv_schema : string;
  sv_deleted : bool;
  sv_extra : gmap string json;
}.

#[global] Instance SchemaValue_eq_dec : EqDecision SchemaValue.
Proof. solve_decision. Defined.

(** The value [schema_kv] (kafkastore/record.rs) builds for a [SCHEMA] record. *)
Definition schema_value (subject : string) (version id : Z) (ty : SchemaType)
    (schema : string) (references : list SchemaReference) (message_type : option string)
    (deleted : bool) (extra : gmap string json) : SchemaValue :=
  mkSchemaValue subject version id (wire_name ty) message_type references schema deleted extra.

(** ** Field updates *)

Definition set_subjects (f : gmap string (list VersionEntry) → gmap string (list VersionEntry))
    (s : StoreState) : StoreState :=
  mkStoreState (f (subjects s)) (by_id s) (by_canonical s) (canonical_by_id s)
    (global_compat_ s) (default_compatibility s) (subject_compat_ s)
    (global_mode_ s) (default_mode s) (subject_mode_ s) (max_id s) (next_versions s).
Definition set_by_id (f : gmap Z RegisteredSchema → gmap Z RegisteredSchema)
    (s : StoreState) : StoreState :=
  mkStoreState (subjects s) (f (by_id s)) (by_canonical s) (canonical_by_id s)
    (global_compat_ s) (default_compatibility s) (subject_compat_ s)
    (global_mode_ s) (default_mode s) (subject_mode_ s) (max_id s) (next_versions s).
Definition set_by_canonical (f : gmap string Z → gmap string Z)
    (s : StoreState) : StoreState :=
  mkStoreState (subjects s) (by_id s) (f (by_canonical s)) (canonical_by_id s)
    (global_compat_ s) (default_compatibility s) (subject_compat_ s)
    (global_mode_ s) (default_mode s) (subject_mode_ s) (max_id s) (next_versions s).
Definition set_canonical_by_id (f : gmap Z string → gmap Z string)
    (s : StoreState) : StoreState :=
  mkStoreState (subjects s) (by_id s) (by_canonical s) (f (canonical_by_id s))
    (global_compat_ s) (default_compatibility s) (subject_compat_ s)
    (global_mode_ s) (default_mode s) (subject_mode_ s) (max_id s) (next_versions s).
Definition set_max_id (n : Z) (s : StoreState) : StoreState :=
  mkStoreState (subjects s) (by_id s) (by_canonical s) (canonical_by_id s)
    (global_compat_ s) (default_compatibility s) (subject_compat_ s)
    (global_mode_ s) (default_mode s) (subject_mode_ s) n (next_versions s).
Definition set_next_versions (f : gmap string Z → gmap string Z)
    (s : StoreState) : StoreState :=
  mkStoreState (subjects s) (by_id s) (by_canonical s) (canonical_by_id s)
    (global_compat_ s) (default_compatibility s) (subject_compat_ s)
    (global_mode_ s) (default_mode s) (subject_mode_ s) (max_id s) (f (next_versions s)).
Definition set_compat_fields (g : option string) (m : gmap string string)
    (s : StoreState) : StoreState :=
  mkStoreState (subjects s) (by_id s) (by_canonical s) (canonical_by_id s)
    g (default_compatibility s) m
    (global_mode_ s) (default_mode s) (subject_mode_ s) (max_id s) (next_versions s).
Definition set_mode_fields (g : option string) (m : gmap string string)
    (s : StoreState) : StoreState :=
  mkStoreState (subjects s) (by_id s) (by_canonical s) (canonical_by_id s)
    (global_compat_ s) (default_compatibility s) (subject_compat_ s)
    g (default_mode s) m (max_id s) (next_versions s).

(** ** Construction and high-water marks *)

Definition with_defaults (compatibility mode : string) : StoreState :=
  mkStoreState ∅ ∅ ∅ ∅ None compatibility ∅ None mode ∅ 0 ∅.

(** [StoreState::default]: the runtime defaults of config.rs. *)
Definition default_store : StoreState := with_defaults "BACKWARD" "READWRITE".

Definition preserve_id_high_water (s previous : StoreState) : StoreState :=
  set_max_id (Z.max (max_id s) (max_id previous)) s.

Definition observe_next_version (subject : string) (next : Z) (s : StoreState) : StoreState :=
  set_next_versions (λ m,
    match m !! subject with
    | Some current => <[subject := Z.max current next]> m
    | None => <[subject := next]> m
    end) s.

Definition observe_version (subject : string) (version : Z) (s : StoreState) : StoreState :=
  observe_next_version subject (i32_saturating_add version 1) s.

Definition next_version (s : StoreState) (subject : string) : Z :=
  default 1%Z (next_versions s !! subject).

(** ** Reference closure *)

Definition find_version (version : Z) (vs : list VersionEntry) : option VersionEntry :=
  List.find (λ v, (ve_version v =? version)%Z) vs.

Definition id_of (s : StoreState) (subject : string) (version : Z) : option Z :=
  vs ← subjects s !! subject; ve_id <$> find_version version vs.

(** The three accumulators of [resolve_into]. *)
Record ResolveAcc := mkResolveAcc {
  ra_out : list ResolvedReference;
  ra_seen_names : gset string;
  ra_visited : gset (string * Z);
}.

Definition reference_label (r : SchemaReference) : string :=
  ref_name r +:+ ":" +:+ ref_subject r +:+ ":" +:+ pretty (ref_version r).

Definition visit (r : SchemaReference) (acc : ResolveAcc) : ResolveAcc :=
  mkResolveAcc (ra_out acc) (ra_seen_names acc)
    ({[ (ref_subject r, ref_version r) ]} ∪ ra_visited acc).

Definition emit (r : SchemaReference) (reg : RegisteredSchema) (acc : ResolveAcc) : ResolveAcc :=
  if bool_decide (ref_name r ∈ ra_seen_names acc) then acc
  else mkResolveAcc
         (ra_out acc ++ [mkResolvedReference (ref_name r) (rs_ty reg) (rs_schema reg)])
         ({[ ref_name r ]} ∪ ra_seen_names acc) (ra_visited acc).

(** The [for r in references] loop of [resolve_into]; [recur] is the recursive
    call on the references of the schema just found. *)
Fixpoint resolve_refs
    (recur : list SchemaReference → ResolveAcc → option (result SrError ResolveAcc))
    (s : StoreState) (references : list SchemaReference) (acc : ResolveAcc)
    : option (result SrError ResolveAcc) :=
  match references with
  | [] => Some (Ok acc)
  | r :: rest =>
    if bool_decide ((ref_subject r, ref_version r) ∈ ra_visited acc)
    then resolve_refs recur s rest acc
    else
      match id_of s (ref_subject r) (ref_version r) with
      | None => Some (Err (ReferenceNotFound (reference_label r)))
      | Some id =>
        match by_id s !! id with
        | None => Some (Err (ReferenceNotFound (reference_label r)))
        | Some reg =>
          match recur (rs_references reg) (visit r acc) with
          | None => None
          | Some (Err e) => Some (Err e)
          | Some (Ok acc') => resolve_refs recur s rest (emit r reg acc')
          end
        end
      end
  end.

(** [resolve_into]: the recursion depth is bounded by [fuel]; [None] is
    "out of fuel", which [closure_fuel] excludes. *)
Fixpoint resolve_into (fuel : nat) (s : StoreState)
    (references : list SchemaReference) (acc : ResolveAcc)
    : option (result SrError ResolveAcc) :=
  match fuel with
  | O => None
  | S fuel' => resolve_refs (resolve_into fuel' s) s references acc
  end.

(** Every [(subject, version)] the store holds: a recursive call consumes one. *)
Definition entry_keys (s : StoreState) : gset (string * Z) :=
  list_to_set (flat_map (λ p, (λ v, (p.1, ve_version v)) <$> p.2) (btree_iter (subjects s))).

Definition closure_fuel (s : StoreState) : nat := S (size (entry_keys s)).

Definition resolve_closure (s : StoreState) (references : list SchemaReference)
    : result SrError (list ResolvedReference) :=
  match resolve_into (closure_fuel s) s references (mkResolveAcc [] ∅ ∅) with
  | Some (Ok acc) => Ok (ra_out acc)
  | Some (Err e) => Err e
  | None => Err (Backend "unreachable: out of fuel")
  end.

(** Ids of the schemas whose own references name [(subject, version)]. *)
Definition references_target (subject : string) (version : Z) (reg : RegisteredSchema) : bool :=
  existsb (λ r, String.eqb (ref_subject r) subject && (ref_version r =? version)%Z)
    (rs_references reg).

Definition referenced_by (s : StoreState) (subject : string) (version : Z)
    (include_deleted : bool) : list Z :=
  let visit_entry ids entry :=
    if ve_deleted entry && negb include_deleted then ids
    else match by_id s !! ve_id entry with
         | Some reg =>
             if references_target subject version reg then push_unique (ve_id entry) ids
             else ids
         | None => ids
         end in
  sort_by Z.leb
    (foldl (λ ids vs, foldl visit_entry ids vs) [] (btree_values (subjects s))).

(** ** Registration *)

Definition sep (n : nat) : string := String (ascii_of_nat n) EmptyString.

Definition ref_fingerprint (r : SchemaReference) : string :=
  ref_name r +:+ sep 1 +:+ ref_subject r +:+ sep 1 +:+ pretty (ref_version r).

Definition dedup_key (canonical : string) (references : list SchemaReference)
    (message_type : option string) : string :=
  match references, message_type with
  | [], None => canonical
  | _, _ =>
      let refs := sort_by String.leb (ref_fingerprint <$> references) in
      canonical +:+ sep 0 +:+ str_join (sep 2) refs +:+ sep 0 +:+ default "" message_type
  end.

Definition find_under_subject_canonical (s : StoreState) (subject canonical : string)
    (include_deleted : bool) : option Registered :=
  id ← by_canonical s !! canonical;
  vs ← subjects s !! subject;
  entry ← List.find (λ v, (ve_id v =? id)%Z && (include_deleted || negb (ve_deleted v))) vs;
  Some (mkRegistered id (ve_version entry)).

Section with_format.
Context `{SchemaFormat}.

(** The global id of an identity: reused when the identity is known anywhere,
    else the next one, with the schema stored under it. *)
Definition allocate_id (key : string) (reg : RegisteredSchema) (s : StoreState)
    : Z * StoreState :=
  match by_canonical s !! key with
  | Some id => (id, s)
  | None =>
      let id := i32_wrap (max_id s + 1) in
      (id, set_by_id <[ id := reg ]>
             (set_canonical_by_id <[ id := key ]>
                (set_by_canonical <[ key := id ]>
                   (set_max_id id s))))
  end.

(** The subject's next version, bound to [id] at the end of its history. *)
Definition append_version (subject : string) (id : Z) (s : StoreState)
    : Registered * StoreState :=
  let next := next_version s subject in
  (mkRegistered id next,
   set_subjects (λ m,
     <[ subject := default [] (m !! subject) ++ [mkVersionEntry next id false] ]> m)
     (observe_version subject next s)).

Definition register (subject : string) (ty : SchemaType) (schema : string)
    (references : list SchemaReference) (message_type : option string) (s : StoreState)
    : result SrError (Registered * StoreState) :=
  resolved ← resolve_closure s references;
  canonical ← format_parse ty schema resolved;
  let key := dedup_key canonical references message_type in
  match find_under_subject_canonical s subject key true with
  | Some existing => Ok (existing, s)
  | None =>
    let '(id, s1) :=
      allocate_id key (mkRegisteredSchema ty schema references message_type ∅) s in
    Ok (append_version subject id s1)
  end.

(** ** Replay of a [SCHEMA] record *)

Definition version_leb (a b : VersionEntry) : bool := (ve_version a <=? ve_version b)%Z.

(** The last step of [apply_schema]: overwrite the version's entry in place, or
    push it and restore the version order. *)
Definition upsert_entry (version id : Z) (deleted : bool) (entry : list VersionEntry)
    : list VersionEntry :=
  match list_find (λ v, ve_version v = version) entry with
  | Some (i, e) => <[ i := mkVersionEntry (ve_version e) id deleted ]> entry
  | None => sort_by version_leb (entry ++ [mkVersionEntry version id deleted])
  end.

(** Forget the key currently bound to [id], in both directions. *)
Definition unbind_canonical (id : Z) (s : StoreState) : StoreState :=
  match canonical_by_id s !! id with
  | Some old_key =>
      let s1 := set_canonical_by_id (delete id) s in
      if bool_decide (by_canonical s1 !! old_key = Some id)
      then set_by_canonical (delete old_key) s1 else s1
  | None => s
  end.

(** Bind [key] to [id], unbinding the id that held the key before. *)
Definition bind_canonical (key : string) (id : Z) (s : StoreState) : StoreState :=
  let old := by_canonical s !! key in
  let s1 := set_by_canonical <[ key := id ]> s in
  let s2 :=
    match old with
    | Some old_id =>
        if negb (old_id =? id)%Z && bool_decide (canonical_by_id s1 !! old_id = Some key)
        then set_canonical_by_id (delete old_id) s1 else s1
    | None => s1
    end in
  set_canonical_by_id <[ id := key ]> s2.

Definition apply_schema (value : SchemaValue) (s : StoreState) : StoreState :=
  let ty := from_wire (sv_schema_type value) in
  let s1 := set_max_id (Z.max (max_id s) (sv_id value)) s in
  let s2 := observe_version (sv_subject value) (sv_version value) s1 in
  let s3 := unbind_canonical (sv_id value) s2 in
  let s4 := set_by_id <[ sv_id value :=
      mkRegisteredSchema ty (sv_schema value) (sv_references value)
        (sv_message_type value) (sv_extra value) ]> s3 in
  let s5 :=
    match (resolved ← resolve_closure s4 (sv_references value);
           format_parse ty (sv_schema value) resolved) with
    | Ok canonical =>
        bind_canonical (dedup_key canonical (sv_references value) (sv_message_type value))
          (sv_id value) s4
    | Err _ => s4
    end in
  set_subjects (λ m,
    <[ sv_subject value :=
         upsert_entry (sv_version value) (sv_id value) (sv_deleted value)
           (default [] (m !! sv_subject value)) ]> m) s5.

(** Whether [id] is already bound to a different canonical schema identity. *)
Definition schema_id_conflicts (s : StoreState) (id : Z) (ty : SchemaType) (schema : string)
    (references : list SchemaReference) (message_type : option string)
    : result SrError bool :=
  match by_id s !! id with
  | None => Ok false
  | Some existing =>
    if negb (bool_decide (rs_ty existing = ty)) then Ok true
    else
      existing_resolved ← resolve_closure s (rs_references existing);
      existing_canonical ← format_parse (rs_ty existing) (rs_schema existing) existing_resolved;
      let existing_key :=
        dedup_key existing_canonical (rs_references existing) (rs_message_type existing) in
      candidate_resolved ← resolve_closure s references;
      candidate_canonical ← format_parse ty schema candidate_resolved;
      let candidate_key := dedup_key candidate_canonical references message_type in
      Ok (negb (String.eqb existing_key candidate_key))
  end.

Definition find_under_subject (s : StoreState) (subject : string) (ty : SchemaType)
    (schema : string) (references : list SchemaReference) (message_type : option string)
    (include_deleted : bool) : option Registered :=
  resolved ← result_ok (resolve_closure s references);
  canonical ← result_ok (format_parse ty schema resolved);
  find_under_subject_canonical s subject (dedup_key canonical references message_type)
    include_deleted.
End with_format.

(** ** Deletion *)

Definition mark_deleted (v : VersionEntry) : VersionEntry :=
  mkVersionEntry (ve_version v) (ve_id v) true.

Definition soft_delete_subject (subject : string) (s : StoreState)
    : option (list Z) * StoreState :=
  match subjects s !! subject with
  | None => (None, s)
  | Some [] => (None, s)
  | Some vs =>
      (Some (ve_version <$> vs), set_subjects <[ subject := mark_deleted <$> vs ]> s)
  end.

Definition permanent_delete_version (subject : string) (version : Z) (s : StoreState)
    : option Z * StoreState :=
  let s1 := observe_version subject version s in
  match subjects s1 !! subject with
  | None => (None, s1)
  | Some vs =>
      let vs' := List.filter (λ v, negb (ve_version v =? version)%Z) vs in
      if Nat.eqb (length vs') (length vs) then (None, s1)
      else (Some version,
            match vs' with
            | [] => set_subjects (delete subject) s1
            | _ => set_subjects <[ subject := vs' ]> s1
            end)
  end.

(** ** Compatibility level and mode *)

Definition set_global_compat (level : string) (s : StoreState) : StoreState :=
  set_compat_fields (Some level) (subject_compat_ s) s.
Definition set_subject_compat (subject level : string) (s : StoreState) : StoreState :=
  set_compat_fields (global_compat_ s) (<[ subject := level ]> (subject_compat_ s)) s.
Definition clear_subject_compat (subject : string) (s : StoreState) : StoreState :=
  set_compat_fields (global_compat_ s) (delete subject (subject_compat_ s)) s.
Definition global_compat (s : StoreState) : string :=
  default (default_compatibility s) (global_compat_ s).
Definition subject_compat (s : StoreState) (subject : string) : option string :=
  subject_compat_ s !! subject.

Definition set_global_mode (mode : string) (s : StoreState) : StoreState :=
  set_mode_fields (Some mode) (subject_mode_ s) s.
Definition set_subject_mode (subject mode : string) (s : StoreState) : StoreState :=
  set_mode_fields (global_mode_ s) (<[ subject := mode ]> (subject_mode_ s)) s.
Definition clear_subject_mode (subject : string) (s : StoreState) : StoreState :=
  set_mode_fields (global_mode_ s) (delete subject (subject_mode_ s)) s.
Definition clear_global_mode (s : StoreState) : StoreState :=
  set_mode_fields None (subject_mode_ s) s.
Definition global_mode (s : StoreState) : string :=
  default (default_mode s) (global_mode_ s).
Definition subject_mode (s : StoreState) (subject : string) : option string :=
  subject_mode_ s !! subject.
Definition effective_mode (s : StoreState) (subject : string) : string :=
  match subject_mode_ s !! subject with
  | Some mode => mode
  | None => global_mode s
  end.

(** ** Queries *)

(** A version a query with [include_deleted] can see. *)
Definition qualifies (include_deleted : bool) (v : VersionEntry) : bool :=
  include_deleted || negb (ve_deleted v).

Definition list_subjects (s : StoreState) (include_deleted : bool) : list string :=
  (List.filter (λ p, existsb (qualifies include_deleted) p.2) (btree_iter (subjects s))).*1.

Definition versions (s : StoreState) (subject : string) (include_deleted : bool)
    : option (list Z) :=
  vs ← subjects s !! subject;
  match ve_version <$> List.filter (qualifies include_deleted) vs with
  | [] => None
  | out => Some out
  end.

(** [Iterator::rfind]. *)
Definition rfind {A} (f : A → bool) (l : list A) : option A := List.find f (reverse l).

Definition version (s : StoreState) (subject : string) (v : option Z)
    (include_deleted : bool) : option VersionedSchema :=
  vs ← subjects s !! subject;
  entry ← match v with
          | Some v => List.find (λ e, (ve_version e =? v)%Z && qualifies include_deleted e) vs
          | None => rfind (qualifies include_deleted) vs
          end;
  reg ← by_id s !! ve_id entry;
  Some (mkVersionedSchema (ve_id entry) (ve_version entry) (rs_ty reg) (rs_schema reg)
          (rs_references reg) (rs_message_type reg) (rs_extra reg)).

Definition schema_by_id (s : StoreState) (id : Z) (include_deleted : bool)
    : option (SchemaType * string * list SchemaReference * option string) :=
  reg ← by_id s !! id;
  if existsb (λ v, (ve_id v =? id)%Z && qualifies include_deleted v)
       (concat (btree_values (subjects s)))
  then Some (rs_ty reg, rs_schema reg, rs_references reg, rs_message_type reg)
  else None.

Definition schema_id_subject_versions (s : StoreState) (id : Z) (include_deleted : bool)
    : list (string * Z) :=
  flat_map (λ p,
    (λ v, (p.1, ve_version v)) <$>
      List.filter (λ v, (ve_id v =? id)%Z && qualifies include_deleted v) p.2)
    (btree_iter (subjects s)).

Definition listed_leb (a b : ListedSchema) : bool :=
  match String.compare (ls_subject a) (ls_subject b) with
  | Lt => true
  | Eq => (ls_version a <=? ls_version b)%Z
  | Gt => false
  end.

Definition all_schemas (s : StoreState) (include_deleted : bool) : list ListedSchema :=
  sort_by listed_leb
    (flat_map (λ p,
       omap (λ v,
         if qualifies include_deleted v then
           reg ← by_id s !! ve_id v;
           Some (mkListedSchema p.1 (ve_version v) (ve_id v) (rs_ty reg) (rs_schema reg)
                   (rs_references reg) (rs_message_type reg))
         else None) p.2)
       (btree_iter (subjects s))).

Definition versions_schemas (s : StoreState) (subject : string)
    : list (SchemaType * string * list SchemaReference) :=
  match subjects s !! subject with
  | None => []
  | Some entries =>
      omap (λ e, (λ reg, (rs_ty reg, rs_schema reg, rs_references reg)) <$> by_id s !! ve_id e)
        (List.filter (λ e, negb (ve_deleted e)) entries)
  end.
