(* ===== verification/Closure.v ===== *)
(** * Reference resolution: [resolve_closure] (store/mod.rs)

    Termination of the depth-first walk, and its specification: it succeeds
    exactly when every transitively reachable reference names a stored
    version, and it fails naming a reachable reference that does not. *)

From stdpp Require Import base gmap strings list pretty.
From Stdlib Require Import ZArith Lia.
From S2P Require Import Prelude Json Types Store.

Abbreviation ref_key r := (ref_subject r, ref_version r).

(** The schema a reference names in [s]. *)
Definition target (s : StoreState) (r : SchemaReference) : option RegisteredSchema :=
  id ← id_of s (ref_subject r) (ref_version r); by_id s !! id.

(** The references reachable from [refs] through stored schemas. *)
Inductive reachable (s : StoreState) (refs : list SchemaReference) : SchemaReference → Prop :=
  | reachable_here r : r ∈ refs → reachable s refs r
  | reachable_step r reg r' :
      reachable s refs r → target s r = Some reg → r' ∈ rs_references reg →
      reachable s refs r'.

Lemma find_version_Some version vs e :
  find_version version vs = Some e → e ∈ vs ∧ ve_version e = version.
Proof.
  intros [Hin Heq]%List.find_some. split; [by apply list_elem_of_In|]. by apply Z.eqb_eq.
Qed.

Lemma elem_of_entry_keys s subject vs e :
  subjects s !! subject = Some vs → e ∈ vs → (subject, ve_version e) ∈ entry_keys s.
Proof.
  intros Hs He. unfold entry_keys. apply elem_of_list_to_set, list_elem_of_In, in_flat_map.
  exists (subject, vs). split; [by apply list_elem_of_In, elem_of_btree_iter|].
  apply list_elem_of_In, list_elem_of_fmap. eauto.
Qed.

Lemma id_of_Some s subject version id :
  id_of s subject version = Some id →
  ∃ vs e, subjects s !! subject = Some vs ∧ e ∈ vs ∧ ve_version e = version ∧ ve_id e = id.
Proof.
  unfold id_of. intros (vs & Hvs & (e & He & ->)%fmap_Some)%bind_Some.
  apply find_version_Some in He as [??]. eauto 6.
Qed.

Lemma id_of_entry_keys s r id :
  id_of s (ref_subject r) (ref_version r) = Some id → ref_key r ∈ entry_keys s.
Proof.
  intros (vs & e & Hvs & He & <- & _)%id_of_Some. by eapply elem_of_entry_keys.
Qed.

Lemma visited_emit r reg acc : ra_visited (emit r reg acc) = ra_visited acc.
Proof. unfold emit. by case_bool_decide. Qed.

#[export] Hint Rewrite visited_emit : krabka.

(** ** The walk visits what it should *)

Section walk.
Context (s : StoreState).

(** Every key in [new] but not in [old] resolves, and the keys of the
    references of its schema are all in [new]. *)
Definition closed_above (old new : gset (string * Z)) : Prop :=
  ∀ r, ref_key r ∈ new → ref_key r ∉ old →
    ∃ reg, target s r = Some reg ∧ ∀ r', r' ∈ rs_references reg → ref_key r' ∈ new.

(** What one call of the walk establishes about its result. *)
Definition walk_ok (refs : list SchemaReference) (acc acc' : ResolveAcc) : Prop :=
  ra_visited acc ⊆ ra_visited acc' ∧
  (∀ r, r ∈ refs → ref_key r ∈ ra_visited acc') ∧
  closed_above (ra_visited acc) (ra_visited acc').

Lemma target_intro r id reg :
  id_of s (ref_subject r) (ref_version r) = Some id → by_id s !! id = Some reg →
  target s r = Some reg.
Proof. unfold target. by intros -> . Qed.

Lemma closed_above_trans v1 v2 v3 :
  v2 ⊆ v3 → closed_above v1 v2 → closed_above v2 v3 → closed_above v1 v3.
Proof.
  intros Hsub H12 H23 r Hr3 Hr1. destruct (decide (ref_key r ∈ v2)) as [Hr2|Hr2].
  - destruct (H12 r Hr2 Hr1) as (reg & ? & Hrefs). exists reg. split; [done|]. set_solver.
  - by apply H23.
Qed.

Lemma target_key r r' : ref_key r = ref_key r' → target s r = target s r'.
Proof. intros [= H1 H2]. unfold target. by rewrite H1, H2. Qed.

(** Descending into [r] closes [r] itself once its references are visited. *)
Lemma closed_above_visit r reg acc acc' :
  target s r = Some reg →
  walk_ok (rs_references reg) (visit r acc) acc' →
  closed_above (ra_visited acc) (ra_visited acc').
Proof.
  intros Ht (Hsub & Hrefs & Hcl) r' Hr' Hnot. destruct (decide (ref_key r' = ref_key r)).
  - exists reg. split; [by rewrite (target_key r' r)|done].
  - apply Hcl; [done|]. simpl. set_solver.
Qed.

Lemma resolve_refs_walk recur refs acc acc' :
  (∀ refs acc acc', recur refs acc = Some (Ok acc') → walk_ok refs acc acc') →
  resolve_refs recur s refs acc = Some (Ok acc') → walk_ok refs acc acc'.
Proof.
  intros Hrec. revert acc. induction refs as [|r refs IH]; intros acc; simpl.
  { intros [= ->]. split_and!; [done|set_solver|]. intros r ??. done. }
  case_bool_decide as Hin.
  { intros (? & ? & ?)%IH. split_and!; [done|set_solver|done]. }
  destruct (id_of s _ _) as [id|] eqn:Hid; [|done].
  destruct (by_id s !! id) as [reg|] eqn:Hreg; [|done].
  destruct (recur _ _) as [[acc1|]|] eqn:Hr; [|done|done].
  apply Hrec in Hr as Hw. intros (Hsub & Hrefs & Hcl)%IH.
  rewrite visited_emit in *. pose proof Hw as (Hsub1 & _ & _). simpl in Hsub1.
  split_and!; [set_solver| |].
  - intros r' [->|?]%elem_of_cons; [set_solver|auto].
  - eapply closed_above_trans; [done| |done].
    eapply closed_above_visit; [by eapply target_intro|by eapply Hrec].
Qed.

Lemma resolve_into_walk fuel refs acc acc' :
  resolve_into fuel s refs acc = Some (Ok acc') → walk_ok refs acc acc'.
Proof.
  revert refs acc acc'. induction fuel as [|fuel IH]; intros refs acc acc'; simpl; [done|].
  by apply resolve_refs_walk.
Qed.

(** A failure names a reachable reference with no stored schema. *)
Lemma resolve_refs_fail recur roots refs acc e :
  (∀ refs acc e, (∀ r, r ∈ refs → reachable s roots r) →
     recur refs acc = Some (Err e) →
     ∃ r, reachable s roots r ∧ target s r = None ∧ e = ReferenceNotFound (reference_label r)) →
  (∀ r, r ∈ refs → reachable s roots r) →
  resolve_refs recur s refs acc = Some (Err e) →
  ∃ r, reachable s roots r ∧ target s r = None ∧ e = ReferenceNotFound (reference_label r).
Proof.
  intros Hrec. revert acc. induction refs as [|r refs IH]; intros acc Hreach; simpl; [done|].
  case_bool_decide; [apply IH; set_solver|].
  assert (reachable s roots r) as Hr by (apply Hreach; set_solver).
  destruct (id_of s _ _) as [id|] eqn:Hid.
  2: { intros [= <-]. exists r. unfold target. by rewrite Hid. }
  destruct (by_id s !! id) as [reg|] eqn:Hreg.
  2: { intros [= <-]. exists r. unfold target. by rewrite Hid. }
  destruct (recur _ _) as [[acc1|e1]|] eqn:Hc; [apply IH; set_solver| |done].
  intros [= <-]. eapply Hrec; [|done].
  intros r' Hr'. eapply reachable_step; [done|by eapply target_intro|done].
Qed.

Lemma resolve_into_fail fuel roots refs acc e :
  (∀ r, r ∈ refs → reachable s roots r) →
  resolve_into fuel s refs acc = Some (Err e) →
  ∃ r, reachable s roots r ∧ target s r = None ∧ e = ReferenceNotFound (reference_label r).
Proof.
  revert refs acc e. induction fuel as [|fuel IH]; intros refs acc e; simpl; [done|].
  by apply resolve_refs_fail.
Qed.

(** ** Termination *)

Lemma size_visit r acc id :
  id_of s (ref_subject r) (ref_version r) = Some id →
  ref_key r ∉ ra_visited acc →
  size (entry_keys s ∖ ra_visited (visit r acc)) < size (entry_keys s ∖ ra_visited acc).
Proof.
  intros Hid%id_of_entry_keys Hnot. apply subset_size. simpl. split.
  - intros k. rewrite !elem_of_difference, elem_of_union. tauto.
  - intros Hs. specialize (Hs (ref_key r)).
    rewrite !elem_of_difference, elem_of_union, elem_of_singleton in Hs. tauto.
Qed.

Lemma resolve_refs_fuel recur n refs acc :
  (∀ refs acc acc', recur refs acc = Some (Ok acc') → walk_ok refs acc acc') →
  (∀ refs acc, size (entry_keys s ∖ ra_visited acc) < n → is_Some (recur refs acc)) →
  size (entry_keys s ∖ ra_visited acc) < S n →
  is_Some (resolve_refs recur s refs acc).
Proof.
  intros Hwalk Hrec. revert acc. induction refs as [|r refs IH]; intros acc Hn; simpl; [done|].
  case_bool_decide as Hin; [auto|].
  destruct (id_of s _ _) as [id|] eqn:Hid; [|done].
  destruct (by_id s !! id) as [reg|]; [|done].
  pose proof (size_visit _ _ _ Hid Hin) as Hlt.
  destruct (Hrec (rs_references reg) (visit r acc)) as [[acc1|e] Hc]; [lia| |];
    rewrite Hc; [|done].
  apply IH. rewrite visited_emit. apply Hwalk in Hc as [Hsub _].
  enough (size (entry_keys s ∖ ra_visited acc1) ≤ size (entry_keys s ∖ ra_visited (visit r acc)))
    by lia.
  apply subseteq_size. by apply difference_mono.
Qed.

Lemma resolve_into_fuel fuel refs acc :
  size (entry_keys s ∖ ra_visited acc) < fuel → is_Some (resolve_into fuel s refs acc).
Proof.
  revert refs acc. induction fuel as [|fuel IH]; intros refs acc Hn; [lia|]. simpl.
  eapply resolve_refs_fuel; [apply resolve_into_walk|apply IH|done].
Qed.
End walk.

(** The chosen fuel is always enough. *)
Lemma resolve_closure_total s refs :
  is_Some (resolve_into (closure_fuel s) s refs (mkResolveAcc [] ∅ ∅)).
Proof.
  apply resolve_into_fuel. unfold closure_fuel. simpl.
  enough (size (entry_keys s ∖ ∅) ≤ size (entry_keys s)) by lia.
  apply subseteq_size. set_solver.
Qed.

(** A set of keys that contains the roots and is closed contains everything
    reachable, and everything reachable resolves. *)
Lemma closed_reachable s refs v r :
  (∀ r, r ∈ refs → ref_key r ∈ v) → closed_above s ∅ v →
  reachable s refs r → ref_key r ∈ v ∧ is_Some (target s r).
Proof.
  intros Hroots Hcl. assert (∀ r, ref_key r ∈ v → is_Some (target s r)) as Hres.
  { intros r' Hr'. destruct (Hcl r' Hr') as (reg & -> & _); [set_solver|done]. }
  intros Hr. enough (ref_key r ∈ v) by auto.
  induction Hr as [r Hr|r reg r' Hr IH Ht Hr']; [by apply Hroots|].
  destruct (Hcl r IH) as (reg' & Ht' & Hrefs); [set_solver|].
  rewrite Ht in Ht'. injection Ht' as <-. auto.
Qed.

Lemma resolve_closure_reachable s refs out r :
  resolve_closure s refs = Ok out → reachable s refs r → is_Some (target s r).
Proof.
  unfold resolve_closure.
  destruct (resolve_into _ _ _ _) as [[acc|]|] eqn:Hr; [|done|done]. intros _ Hreach.
  apply resolve_into_walk in Hr as (_ & Hroots & Hcl).
  by eapply closed_reachable in Hreach as [_ ?].
Qed.

(** ** The walk only looks at what the entries name *)

Section agree.
Context (s s' : StoreState) (Hsub : subjects s = subjects s').
Context (Hid : ∀ subject vs e, subjects s !! subject = Some vs → e ∈ vs →
           by_id s !! ve_id e = by_id s' !! ve_id e).

Lemma id_of_agree subject version : id_of s subject version = id_of s' subject version.
Proof. unfold id_of. by rewrite Hsub. Qed.

Lemma resolve_into_agree fuel refs acc :
  resolve_into fuel s refs acc = resolve_into fuel s' refs acc.
Proof.
  revert refs acc. induction fuel as [|fuel IH]; intros refs acc; simpl; [done|].
  revert acc. induction refs as [|r refs IHr]; intros acc; simpl; [done|].
  case_bool_decide; [done|]. rewrite <-id_of_agree.
  destruct (id_of s _ _) as [id|] eqn:Hr; [|done].
  apply id_of_Some in Hr as (vs & e & Hvs & He & _ & <-).
  rewrite <-(Hid _ _ _ Hvs He). destruct (by_id s !! _); [|done].
  rewrite IH. destruct (resolve_into fuel s' _ _) as [[]|]; auto.
Qed.

Lemma resolve_closure_agree refs : resolve_closure s refs = resolve_closure s' refs.
Proof.
  unfold resolve_closure, closure_fuel, entry_keys. rewrite Hsub.
  by rewrite resolve_into_agree.
Qed.
End agree.

(** ** What the walk returns *)

(** What is reachable from a reference depends on the version it names only. *)
Lemma reachable_key s a a' r :
  ref_key a' = ref_key a → reachable s [a] r →
  ∃ r', reachable s [a'] r' ∧ ref_key r' = ref_key r ∧ (r' = r ∨ r' = a').
Proof.
  intros Hk. induction 1 as [r ->%list_elem_of_singleton|r reg r1 Hr (r' & Hr' & Hk' & _) Ht Hin].
  - exists a'. split_and!; [apply reachable_here; set_solver|done|auto].
  - exists r1. split_and!; [|done|auto]. eapply reachable_step; [done| |done].
    by rewrite (target_key s r' r).
Qed.

Section output.
Context (s : StoreState) (roots : list SchemaReference).

(** The entry the closure holds for a reference to [reg]. *)
Definition entry_of (r : SchemaReference) (reg : RegisteredSchema) : ResolvedReference :=
  mkResolvedReference (ref_name r) (rs_ty reg) (rs_schema reg).

(** The version [k] is returned under the name of a reachable reference. *)
Definition named_in (k : string * Z) (out : list ResolvedReference) : Prop :=
  ∃ r, reachable s roots r ∧ ref_key r = k ∧ ref_name r ∈ res_name <$> out.

(** [r'] leads back to the version [r] names. *)
Definition leads_back (r' r : SchemaReference) : Prop :=
  ∃ r0, reachable s [r'] r0 ∧ ref_key r0 = ref_key r.

(** [x] is the schema of a reachable reference, and everything that schema
    references comes before it, except what leads back to it. *)
Definition entry_ok (before : list ResolvedReference) (x : ResolvedReference) : Prop :=
  ∃ r reg, reachable s roots r ∧ target s r = Some reg ∧ x = entry_of r reg ∧
    ∀ r', r' ∈ rs_references reg → named_in (ref_key r') before ∨ leads_back r' r.

(** [seen_names] is the set of emitted names, each emitted once, after its
    dependencies. *)
Definition out_ok (acc : ResolveAcc) : Prop :=
  NoDup (res_name <$> ra_out acc) ∧
  (∀ n, n ∈ ra_seen_names acc ↔ n ∈ res_name <$> ra_out acc) ∧
  ∀ l1 x l2, ra_out acc = l1 ++ x :: l2 → entry_ok l1 x.

(** Every visited key is emitted, or belongs to a reference still open. *)
Definition open_or_named (anc : list SchemaReference) (acc : ResolveAcc) : Prop :=
  ∀ k, k ∈ ra_visited acc → k ∈ (λ a, ref_key a) <$> anc ∨ named_in k (ra_out acc).

Lemma named_in_app k out out' : named_in k out → named_in k (out ++ out').
Proof. intros (r & ? & ? & ?). exists r. rewrite fmap_app, elem_of_app. auto. Qed.

Lemma emit_out r reg acc :
  ∃ out, ra_out (emit r reg acc) = ra_out acc ++ out.
Proof. unfold emit. case_bool_decide; [exists []; by rewrite app_nil_r|by eexists]. Qed.

Lemma emit_out_ok r reg acc :
  entry_ok (ra_out acc) (entry_of r reg) → out_ok acc → out_ok (emit r reg acc).
Proof.
  intros Hent (Hnd & Hseen & Hx). unfold emit. case_bool_decide as Hn; [done|].
  split_and!; simpl.
  - rewrite fmap_app. simpl. rewrite Permutation_app_comm. constructor; [|done]. naive_solver.
  - intros n. rewrite fmap_app, elem_of_app, elem_of_union, Hseen. simpl. set_solver.
  - intros l1 x l2. destruct l2 as [|y l2 _] using rev_ind.
    + intros Heq. change [entry_of r reg] with ([] ++ [entry_of r reg]) in Heq. apply app_inj_tail in Heq as [<- <-]. done.
    + rewrite app_comm_cons, app_assoc. intros [Heq _]%app_inj_tail. by eapply Hx.
Qed.

Lemma emit_named r reg acc :
  reachable s roots r → out_ok acc → named_in (ref_key r) (ra_out (emit r reg acc)).
Proof.
  intros Hr (_ & Hseen & _). exists r. split_and!; [done..|].
  unfold emit. case_bool_decide as Hn; [by apply Hseen|]. simpl.
  rewrite fmap_app, elem_of_app. right. simpl. set_solver.
Qed.

(** The references of an open schema are emitted once the walk is back,
    except those that lead back to it. *)
Lemma walked_entry_ok r reg anc acc :
  reachable s roots r → target s r = Some reg →
  (∀ a, a ∈ anc → reachable s [a] r) →
  (∀ r', r' ∈ rs_references reg → ref_key r' ∈ ra_visited acc) →
  open_or_named (r :: anc) acc → entry_ok (ra_out acc) (entry_of r reg).
Proof.
  intros Hr Ht Hanc Hvis Hopen. exists r, reg. split_and!; [done..|].
  intros r' [(a & Heq & Ha)%list_elem_of_fmap|Hn]%Hvis%Hopen; [right|by left].
  assert (reachable s [a] r) as Hreach.
  { apply elem_of_cons in Ha as [->|Ha]; [apply reachable_here; set_solver|auto]. }
  destruct (reachable_key s a r' r Heq Hreach) as (r0 & ? & ? & _). by exists r0.
Qed.

Lemma emit_open r reg anc acc :
  reachable s roots r → out_ok acc → open_or_named (r :: anc) acc →
  open_or_named anc (emit r reg acc).
Proof.
  intros Hr Hok Hopen k Hk. rewrite visited_emit in Hk.
  destruct (emit_out r reg acc) as [out Hout].
  destruct (Hopen k Hk) as [[->|?]%elem_of_cons|?]; [|by left|].
  - right. by apply emit_named.
  - right. rewrite Hout. by apply named_in_app.
Qed.

Lemma resolve_into_out_ok fuel refs anc acc acc' :
  (∀ r, r ∈ refs → reachable s roots r) →
  (∀ a r, a ∈ anc → r ∈ refs → reachable s [a] r) →
  out_ok acc → open_or_named anc acc →
  resolve_into fuel s refs acc = Some (Ok acc') → out_ok acc' ∧ open_or_named anc acc'.
Proof.
  revert refs anc acc acc'. induction fuel as [|fuel IH]; intros refs anc acc acc'; simpl; [done|].
  revert acc. induction refs as [|r refs IHr]; intros acc Hreach Hanc Hok Hopen; simpl.
  { by intros [= ->]. }
  assert (reachable s roots r) as Hr by (apply Hreach; set_solver).
  assert (∀ a, a ∈ anc → reachable s [a] r) as Hancr by (intros; apply Hanc; set_solver).
  case_bool_decide; [apply IHr; set_solver|].
  destruct (id_of s _ _) as [id|] eqn:Hid; [|done].
  destruct (by_id s !! id) as [reg|] eqn:Hreg; [|done].
  destruct (resolve_into _ _ _ _) as [[acc1|]|] eqn:Hc; [|done|done].
  assert (target s r = Some reg) as Ht by (by eapply target_intro).
  pose proof (resolve_into_walk _ _ _ _ _ Hc) as (_ & Hvis & _).
  apply (IH _ (r :: anc)) in Hc as [Hok1 Hopen1].
  - apply IHr; [set_solver|set_solver| |by apply emit_open].
    apply emit_out_ok; [by eapply walked_entry_ok|done].
  - intros r' ?. by eapply reachable_step.
  - intros a r' [->|Ha]%elem_of_cons ?.
    + apply (reachable_step _ _ r reg); [apply reachable_here; set_solver|done..].
    + eapply reachable_step; [by apply Hancr|done..].
  - done.
  - intros k. simpl. intros [->%elem_of_singleton|Hk]%elem_of_union; [left; set_solver|].
    destruct (Hopen k Hk); [left; set_solver|auto].
Qed.
End output.


(** ** A reference dropped by the cycle guard

    The guard on [(subject, version)] is meant for cycles; it also skips a
    second, acyclic reference to the same version under another name. *)

Definition alias_store : StoreState :=
  set_by_id (λ _, {[ 1%Z := mkRegisteredSchema Protobuf "P" [] None ∅ ]})
    (set_subjects (λ _, {[ "base" := [mkVersionEntry 1 1 false] ]}) default_store).

(** Two references to one stored version under two names: the closure
    holds the first name only, so a schema importing the second one cannot be
    resolved although its target is stored. *)
Theorem resolve_closure_drops_alias :
  resolve_closure alias_store
    [mkSchemaReference "a.proto" "base" 1; mkSchemaReference "b.proto" "base" 1] =
  Ok [mkResolvedReference "a.proto" Protobuf "P"].
Proof. vm_compute. reflexivity. Qed.

(** ** Growing the store keeps a resolved closure *)

Section extend.
Context (s s' : StoreState).
Context (Hext : ∀ r reg, target s r = Some reg → target s' r = Some reg).

Lemma resolve_into_extend fuel fuel' refs acc acc' :
  fuel ≤ fuel' → resolve_into fuel s refs acc = Some (Ok acc') →
  resolve_into fuel' s' refs acc = Some (Ok acc').
Proof.
  revert fuel' refs acc acc'. induction fuel as [|fuel IH]; intros fuel' refs acc acc' Hle;
    [done|]. destruct fuel' as [|fuel']; [lia|]. simpl.
  revert acc. induction refs as [|r refs IHr]; intros acc; simpl; [done|].
  case_bool_decide; [apply IHr|].
  destruct (id_of s _ _) as [id|] eqn:Hid; [|done].
  destruct (by_id s !! id) as [reg|] eqn:Hreg; [|done].
  pose proof (Hext r reg (target_intro _ _ _ _ Hid Hreg)) as Ht.
  unfold target in Ht. apply bind_Some in Ht as (id' & -> & ->).
  destruct (resolve_into fuel s _ _) as [[acc1|]|] eqn:Hc; [|done|done].
  rewrite (IH fuel' _ _ acc1) by (done || lia). apply IHr.
Qed.

Lemma resolve_closure_extend refs out :
  closure_fuel s ≤ closure_fuel s' →
  resolve_closure s refs = Ok out → resolve_closure s' refs = Ok out.
Proof.
  unfold resolve_closure. intros Hle.
  destruct (resolve_into _ s _ _) as [[acc|]|] eqn:Hr; [|done|done]. intros [= <-].
  by rewrite (resolve_into_extend _ _ _ _ _ Hle Hr).
Qed.
End extend.

Lemma entry_keys_elem s k :
  k ∈ entry_keys s → ∃ vs e, subjects s !! k.1 = Some vs ∧ e ∈ vs ∧ ve_version e = k.2.
Proof.
  unfold entry_keys. rewrite elem_of_list_to_set, list_elem_of_In, in_flat_map.
  intros ([subject vs] & Hin & Hk). apply list_elem_of_In, elem_of_btree_iter in Hin.
  apply list_elem_of_In, list_elem_of_fmap in Hk as (e & -> & He). eauto 6.
Qed.

Lemma closure_fuel_mono s s' :
  (∀ subject vs, subjects s !! subject = Some vs →
     ∃ vs', subjects s' !! subject = Some vs' ∧ (∀ e, e ∈ vs → e ∈ vs')) →
  closure_fuel s ≤ closure_fuel s'.
Proof.
  intros Hsub. unfold closure_fuel. enough (size (entry_keys s) ≤ size (entry_keys s')) by lia.
  apply subseteq_size. intros [subject v] (vs & e & Hvs & He & Hv)%entry_keys_elem. simpl in *.
  destruct (Hsub _ _ Hvs) as (vs' & Hvs' & Hin). subst v. eapply elem_of_entry_keys; eauto.
Qed.

(** ** The walk depends on the targets only *)

Section same_target.
Context (s s' : StoreState) (roots : list SchemaReference).
Context (Hsame : ∀ r, reachable s roots r → target s r = target s' r).

Lemma resolve_into_same fuel fuel' refs acc x :
  fuel ≤ fuel' → (∀ r, r ∈ refs → reachable s roots r) →
  resolve_into fuel s refs acc = Some x → resolve_into fuel' s' refs acc = Some x.
Proof.
  revert fuel' refs acc x. induction fuel as [|fuel IH]; intros fuel' refs acc x Hle; [done|].
  destruct fuel' as [|fuel']; [lia|]. simpl.
  revert acc. induction refs as [|r refs IHr]; intros acc Hreach; simpl; [done|].
  assert (reachable s roots r) as Hr by (apply Hreach; set_solver).
  case_bool_decide; [apply IHr; set_solver|].
  pose proof (Hsame r Hr) as Ht. unfold target in Ht.
  destruct (id_of s _ _) as [id|] eqn:Hid; destruct (id_of s' _ _) as [id'|]; simpl in Ht; try done.
  - rewrite <-Ht. destruct (by_id s !! id) as [reg|] eqn:Hreg; [|done].
    destruct (resolve_into fuel s _ _) as [y|] eqn:Hc; [|done].
    rewrite (IH fuel' _ _ y); [|lia| |done].
    + destruct y; [apply IHr; set_solver|done].
    + intros r' ?. eapply reachable_step; [done|by eapply target_intro|done].
  - by rewrite Ht.
  - by rewrite <-Ht.
Qed.
End same_target.

(** Two states in which every reference reachable from [refs] names the same
    schema give the same closure. *)
Lemma resolve_closure_same_reachable s s' refs :
  (∀ r, reachable s refs r → target s r = target s' r) →
  resolve_closure s refs = resolve_closure s' refs.
Proof.
  intros Hsame. unfold resolve_closure.
  destruct (resolve_closure_total s refs) as [x Hx], (resolve_closure_total s' refs) as [y Hy].
  enough (x = y) as -> by (by rewrite Hx, Hy).
  set (n := closure_fuel s `max` closure_fuel s').
  pose proof (resolve_into_same s s' refs Hsame (closure_fuel s) n _ _ _ ltac:(lia)
    (reachable_here s refs) Hx) as Hx'.
  pose proof (resolve_into_same s' s' refs (λ _ _, eq_refl) (closure_fuel s') n _ _ _ ltac:(lia)
    (reachable_here s' refs) Hy) as Hy'.
  congruence.
Qed.

Lemma resolve_closure_same s s' refs :
  (∀ r, target s r = target s' r) → resolve_closure s refs = resolve_closure s' refs.
Proof. intros Hsame. by apply resolve_closure_same_reachable. Qed.
