(* ===== verification/StoreFacts.v ===== *)
(** * Correctness of the in-memory registry state (store/mod.rs)

    The well-formedness invariant [store_wf] and its preservation by every
    operation of [StoreState]; the functional behaviour of registration,
    replay, deletion and the queries; and the refinement between the write
    path's probe ([register]) and the reader's replay ([apply_schema]). *)

From stdpp Require Import base gmap strings list pretty sorting.
From Stdlib Require Import ZArith Lia Ascii.
From S2P Require Import Prelude Json Types Store Closure.

(** ** The invariant *)

(** One subject's history: non-empty, strictly increasing, below the subject's
    version high-water mark, with every id stored. *)
Record hist_wf (ids : gmap Z RegisteredSchema) (next : option Z) (vs : list VersionEntry)
    : Prop := {
  hist_nonempty : vs ≠ [];
  hist_sorted : StronglySorted Z.lt (ve_version <$> vs);
  hist_stored : ∀ e, e ∈ vs → is_Some (ids !! ve_id e);
  hist_i32 : ∀ e, e ∈ vs → in_i32 (ve_version e);
  hist_next : ∀ e, e ∈ vs →
    ∃ n, next = Some n ∧ (i32_saturating_add (ve_version e) 1 ≤ n)%Z;
}.

(** The two identity indexes are inverse of each other and bind stored ids. *)
Record canon_wf (ids : gmap Z RegisteredSchema) (bc : gmap string Z) (cb : gmap Z string)
    : Prop := {
  canon_inverse : ∀ key id, bc !! key = Some id ↔ cb !! id = Some key;
  canon_stored : ∀ key id, bc !! key = Some id → is_Some (ids !! id);
}.

Record store_wf (s : StoreState) : Prop := {
  wf_hist : ∀ subject vs, subjects s !! subject = Some vs →
    hist_wf (by_id s) (next_versions s !! subject) vs;
  wf_canon : canon_wf (by_id s) (by_canonical s) (canonical_by_id s);
  wf_ids : ∀ id, is_Some (by_id s !! id) → (id ≤ max_id s)%Z;
  wf_max : in_i32 (max_id s);
  wf_next : ∀ subject n, next_versions s !! subject = Some n → in_i32 n;
}.

(** A record whose numbers are [i32]s, as the struct's types say. *)
Definition value_i32 (v : SchemaValue) : Prop := in_i32 (sv_version v) ∧ in_i32 (sv_id v).

#[global] Instance value_i32_dec v : Decision (value_i32 v).
Proof. unfold value_i32. apply _. Defined.

(** ** Histories *)

Lemma hist_wf_next_mono ids next n' vs :
  hist_wf ids next vs → (∀ n, next = Some n → (n ≤ n')%Z) → hist_wf ids (Some n') vs.
Proof.
  intros [Hne Hs Hid Hi Hn] Hle. split; [done..|].
  intros e He. destruct (Hn e He) as (n & Hn' & ?). exists n'. split; [done|].
  specialize (Hle n Hn'). lia.
Qed.

Lemma hist_wf_ids_mono ids ids' next vs :
  (∀ id, is_Some (ids !! id) → is_Some (ids' !! id)) →
  hist_wf ids next vs → hist_wf ids' next vs.
Proof. intros Hle [Hne Hs Hid Hi Hn]. split; auto. Qed.

Lemma hist_wf_next_Some ids next vs :
  hist_wf ids next vs → is_Some next.
Proof.
  intros Hw. destruct vs as [|e vs]; [by destruct (hist_nonempty _ _ _ Hw)|].
  destruct (hist_next _ _ _ Hw e) as (n & -> & _); [apply elem_of_cons; auto|done].
Qed.

(** A history's versions are below the high-water mark, unless it is saturated. *)
Lemma hist_below_next ids n vs e :
  hist_wf ids (Some n) vs → (n < i32_max)%Z → e ∈ vs → (ve_version e < n)%Z.
Proof.
  intros Hw Hn He. destruct (hist_next _ _ _ Hw e He) as (n' & [= <-] & Hle).
  pose proof (hist_i32 _ _ _ Hw e He) as Hr. revert Hle Hr Hn.
  unfold i32_saturating_add, in_i32, i32_max, i32_min. lia.
Qed.

Lemma StronglySorted_app_one (l : list Z) x :
  StronglySorted Z.lt l → (∀ y, y ∈ l → (y < x)%Z) → StronglySorted Z.lt (l ++ [x]).
Proof.
  induction 1 as [|y l Hs IH Hall]; intros Hlt; simpl; [repeat constructor|].
  constructor; [apply IH; intros; apply Hlt; by apply elem_of_cons; right|].
  apply Forall_app. split; [done|]. constructor; [|done]. apply Hlt, elem_of_cons. by left.
Qed.

Lemma versions_unique vs e e' :
  StronglySorted Z.lt (ve_version <$> vs) → e ∈ vs → e' ∈ vs →
  ve_version e = ve_version e' → e = e'.
Proof.
  induction vs as [|x vs IH]; simpl; intros Hs He He' Heq; [by apply elem_of_nil in He|].
  apply StronglySorted_inv in Hs as [Hs Hall]. rewrite Forall_fmap, Forall_forall in Hall.
  apply elem_of_cons in He as [->|He], He' as [->|He']; [done| | |auto].
  - specialize (Hall _ He'). simpl in *. lia.
  - specialize (Hall _ He). simpl in *. lia.
Qed.

(** [sort_by_key(version)] of a list whose versions are strictly increasing
    leaves it alone. *)
Lemma sort_versions_id vs :
  StronglySorted Z.lt (ve_version <$> vs) → sort_by version_leb vs = vs.
Proof.
  intros Hs. apply sort_by_sorted_id. induction vs as [|x vs IH]; [constructor|].
  simpl in Hs. apply StronglySorted_inv in Hs as [Hs Hall]. constructor; [auto|].
  rewrite Forall_fmap in Hall. eapply Forall_impl; [done|]. intros y. unfold version_leb. simpl. lia.
Qed.

Lemma version_leb_total a b : version_leb a b = true ∨ version_leb b a = true.
Proof. unfold version_leb. lia. Qed.

Lemma version_leb_trans a b c :
  version_leb a b = true → version_leb b c = true → version_leb a c = true.
Proof. unfold version_leb. lia. Qed.

(** Sorting distinct versions makes them strictly increasing. *)
Lemma sort_versions_strict vs :
  NoDup (ve_version <$> vs) → StronglySorted Z.lt (ve_version <$> sort_by version_leb vs).
Proof.
  intros Hnd.
  pose proof (sort_by_sorted version_leb version_leb_total version_leb_trans vs) as Hs.
  assert (NoDup (ve_version <$> sort_by version_leb vs)) as Hnd'.
  { by rewrite (fmap_Permutation _ _ _ (sort_by_perm version_leb vs)). }
  induction Hs as [|x l Hs IH Hall]; simpl; [constructor|].
  simpl in Hnd'. apply NoDup_cons in Hnd' as [Hx Hnd']. constructor; [auto|].
  apply Forall_fmap, Forall_forall. intros y Hy. simpl.
  rewrite Forall_forall in Hall. specialize (Hall y Hy). unfold version_leb in Hall.
  assert (ve_version y ≠ ve_version x); [|lia].
  intros Heq. apply Hx. rewrite <-Heq. apply list_elem_of_fmap. eauto.
Qed.

Lemma StronglySorted_lt_NoDup (l : list Z) : StronglySorted Z.lt l → NoDup l.
Proof.
  induction 1 as [|x l Hs IH Hall]; constructor; [|done].
  intros Hx. rewrite Forall_forall in Hall. specialize (Hall x Hx). simpl in Hall. lia.
Qed.

(** ** [upsert_entry] *)

Section upsert.
Context (version id : Z) (deleted : bool).

Abbreviation fresh_entry := (mkVersionEntry version id deleted).

(** The upsert's content: the new entry, and every entry of another version. *)
Lemma elem_of_upsert_entry vs e :
  StronglySorted Z.lt (ve_version <$> vs) →
  e ∈ upsert_entry version id deleted vs ↔
    e = fresh_entry ∨ (e ∈ vs ∧ ve_version e ≠ version).
Proof.
  intros Hs. unfold upsert_entry.
  destruct (list_find _ vs) as [[i x]|] eqn:Hf.
  - apply list_find_Some in Hf as (Hi & Hx & Hfirst). rewrite Hx.
    rewrite list_elem_of_lookup. split.
    + intros [j Hj]. destruct (decide (i = j)) as [->|Hne].
      * rewrite list_lookup_insert_eq in Hj by (by eapply lookup_lt_Some). left. congruence.
      * rewrite list_lookup_insert_ne in Hj by done. right.
        split; [by eapply list_elem_of_lookup_2|]. intros Hv.
        apply Hne. pose proof (StronglySorted_lt_NoDup _ Hs) as Hnd.
        eapply (NoDup_lookup _ i j version Hnd); rewrite list_lookup_fmap; rewrite ?Hi, ?Hj; simpl; congruence.
    + intros [->|[He Hv]].
      * exists i. by rewrite list_lookup_insert_eq by (by eapply lookup_lt_Some).
      * apply list_elem_of_lookup in He as [j Hj]. exists j.
        rewrite list_lookup_insert_ne; [done|]. intros ->. congruence.
  - apply list_find_None in Hf. rewrite elem_of_sort_by, elem_of_app, list_elem_of_singleton.
    rewrite Forall_forall in Hf. split; [|tauto]. intros [He| ->]; [|auto]. right. split; [done|].
    by apply Hf.
Qed.

Lemma fmap_insert_version (vs : list VersionEntry) (i : nat) x :
  vs !! i = Some x → ve_version x = version →
  ve_version <$> <[ i := fresh_entry ]> vs = ve_version <$> vs.
Proof.
  intros Hi Hx. rewrite list_fmap_insert. simpl. apply list_insert_id.
  by rewrite list_lookup_fmap, Hi; simpl; rewrite Hx.
Qed.

Lemma upsert_entry_sorted vs :
  StronglySorted Z.lt (ve_version <$> vs) →
  StronglySorted Z.lt (ve_version <$> upsert_entry version id deleted vs).
Proof.
  intros Hs. unfold upsert_entry.
  destruct (list_find _ vs) as [[i x]|] eqn:Hf.
  - apply list_find_Some in Hf as (Hi & Hx & _). rewrite Hx.
    by rewrite (fmap_insert_version vs i x).
  - apply list_find_None in Hf. apply sort_versions_strict. rewrite fmap_app.
    rewrite Permutation_app_comm. simpl. constructor.
    + intros (e & Hv & He)%list_elem_of_fmap. rewrite Forall_forall in Hf. by eapply Hf.
    + by apply StronglySorted_lt_NoDup.
Qed.

(** A version above the whole history is appended. *)
Lemma upsert_entry_above vs :
  StronglySorted Z.lt (ve_version <$> vs) → (∀ e, e ∈ vs → (ve_version e < version)%Z) →
  upsert_entry version id deleted vs = vs ++ [fresh_entry].
Proof.
  intros Hs Hlt. unfold upsert_entry.
  destruct (list_find _ vs) as [[i x]|] eqn:Hf.
  - apply list_find_Some in Hf as (Hi & Hx & _).
    apply list_elem_of_lookup_2, Hlt in Hi. lia.
  - apply sort_versions_id. rewrite fmap_app. apply StronglySorted_app_one; [done|].
    intros y (e & -> & He)%list_elem_of_fmap. by apply Hlt.
Qed.

Lemma upsert_entry_hist ids n vs :
  in_i32 version → is_Some (ids !! id) → (i32_saturating_add version 1 ≤ n)%Z →
  vs = [] ∨ hist_wf ids (Some n) vs → hist_wf ids (Some n) (upsert_entry version id deleted vs).
Proof.
  intros Hi Hid Hn Hvs.
  assert (StronglySorted Z.lt (ve_version <$> vs)) as Hs.
  { destruct Hvs as [->|[]]; [constructor|done]. }
  assert (∀ e, e ∈ vs → is_Some (ids !! ve_id e) ∧ in_i32 (ve_version e) ∧
            ∃ n', Some n = Some n' ∧ (i32_saturating_add (ve_version e) 1 ≤ n')%Z) as Hold.
  { intros e He. destruct Hvs as [->|[]]; [by apply elem_of_nil in He|auto]. }
  split.
  - intros Hnil. assert (fresh_entry ∈ upsert_entry version id deleted vs) as Hin.
    { apply elem_of_upsert_entry; auto. }
    rewrite Hnil in Hin. by apply elem_of_nil in Hin.
  - by apply upsert_entry_sorted.
  - intros e [->|[He _]]%elem_of_upsert_entry; [done|by apply Hold|done].
  - intros e [->|[He _]]%elem_of_upsert_entry; [done|by apply Hold|done].
  - intros e [->|[He _]]%elem_of_upsert_entry; [by exists n|by apply Hold|done].
Qed.
End upsert.

(** ** The high-water marks *)

Lemma lookup_observe_next_version subject next s subject' :
  next_versions (observe_next_version subject next s) !! subject' =
  if decide (subject = subject')
  then Some (match next_versions s !! subject with Some c => Z.max c next | None => next end)
  else next_versions s !! subject'.
Proof.
  unfold observe_next_version. simpl. destruct (next_versions s !! subject) eqn:E;
    destruct (decide (subject = subject')) as [->|];
    by rewrite ?lookup_insert_eq, ?lookup_insert_ne.
Qed.

(** Observing never lowers a mark. *)
Lemma observe_next_version_mono subject next s subject' n :
  next_versions s !! subject' = Some n →
  ∃ n', next_versions (observe_next_version subject next s) !! subject' = Some n' ∧ (n ≤ n')%Z.
Proof.
  intros Hn. rewrite lookup_observe_next_version.
  destruct (decide _) as [->|]; [|eauto with lia]. rewrite Hn. eexists. split; [done|]. lia.
Qed.

Lemma observe_next_version_wf subject next s :
  in_i32 next → store_wf s → store_wf (observe_next_version subject next s).
Proof.
  intros Hi [Hh Hc Hid Hm Hn]. split; [|done..|].
  - intros subject' vs Hvs. specialize (Hh subject' vs Hvs).
    pose proof (hist_wf_next_Some _ _ _ Hh) as [n Hn0].
    destruct (observe_next_version_mono subject next s subject' n Hn0) as (n' & -> & ?).
    eapply hist_wf_next_mono; [done|]. rewrite Hn0. intros ? [= <-]. done.
  - intros subject' n. rewrite lookup_observe_next_version.
    destruct (decide _) as [->|]; [|apply Hn]. intros [= <-].
    destruct (next_versions s !! subject') as [c|] eqn:E; [|done].
    apply Hn in E. unfold in_i32 in *. lia.
Qed.

Lemma observe_version_wf subject version s :
  store_wf s → store_wf (observe_version subject version s).
Proof. apply observe_next_version_wf, i32_saturating_range. Qed.

(** Replacing one subject's history. *)
Lemma set_subject_wf subject vs s :
  store_wf s → hist_wf (by_id s) (next_versions s !! subject) vs →
  store_wf (set_subjects (λ m, <[ subject := vs ]> m) s).
Proof.
  intros [Hh Hc Hid Hm Hn] Hvs. split; [|done..]. simpl.
  intros subject' vs'. destruct (decide (subject = subject')) as [->|Hne].
  - rewrite lookup_insert_eq. by intros [= <-].
  - rewrite lookup_insert_ne by done. apply Hh.
Qed.

Lemma delete_subject_wf subject s :
  store_wf s → store_wf (set_subjects (delete subject) s).
Proof.
  intros [Hh Hc Hid Hm Hn]. split; [|done..]. simpl.
  intros subject' vs' [_ ?]%lookup_delete_Some. by apply Hh.
Qed.

(** ** The identity indexes *)

Lemma canon_wf_unbind ids bc cb id key :
  canon_wf ids bc cb → cb !! id = Some key → canon_wf ids (delete key bc) (delete id cb).
Proof.
  intros [Hinv Hst] Hk. split.
  - intros key' id'. rewrite !lookup_delete_Some, Hinv.
    split; intros [Hne H']; (split; [|done]); intros ->.
    + apply Hne. congruence.
    + apply Hinv in H', Hk. congruence.
  - intros key' id' [_ ?]%lookup_delete_Some. eauto.
Qed.

Lemma canon_wf_bind ids bc cb id key :
  canon_wf ids bc cb → is_Some (ids !! id) → cb !! id = None → bc !! key = None →
  canon_wf ids (<[ key := id ]> bc) (<[ id := key ]> cb).
Proof.
  intros [Hinv Hst] Hid Hc Hb. split.
  - intros key' id'. rewrite !lookup_insert_Some, Hinv. split.
    + intros [[-> ->]|[Hne H']]; [auto|]. right. split; [|done]. congruence.
    + intros [[-> ->]|[Hne H']]; [auto|]. right. split; [|done]. intros ->.
      apply Hinv in H'. congruence.
  - intros key' id' [[_ <-]|[_ ?]]%lookup_insert_Some; eauto.
Qed.

Lemma canon_wf_ids_mono ids ids' bc cb :
  (∀ id, is_Some (ids !! id) → is_Some (ids' !! id)) → canon_wf ids bc cb → canon_wf ids' bc cb.
Proof. intros Hle [Hinv Hst]. split; eauto. Qed.

Lemma canon_key_inj ids bc cb key key' id :
  canon_wf ids bc cb → bc !! key = Some id → bc !! key' = Some id → key = key'.
Proof. intros [Hinv _] H1 H2. apply Hinv in H1, H2. congruence. Qed.

(** Under the invariant the guards of [apply_schema]'s index updates always
    hold, so the updates are plain deletions and insertions. *)
Lemma unbind_canonical_eq id s :
  canon_wf (by_id s) (by_canonical s) (canonical_by_id s) →
  unbind_canonical id s =
  match canonical_by_id s !! id with
  | Some key => set_by_canonical (delete key) (set_canonical_by_id (delete id) s)
  | None => s
  end.
Proof.
  intros [Hinv _]. unfold unbind_canonical. destruct (_ !! id) as [key|] eqn:E; [|done].
  rewrite bool_decide_eq_true_2; [done|]. simpl. by apply Hinv.
Qed.

Lemma bind_canonical_eq key id s :
  canon_wf (by_id s) (by_canonical s) (canonical_by_id s) →
  bind_canonical key id s =
  set_by_canonical <[ key := id ]> (set_canonical_by_id (λ m, <[ id := key ]>
    match by_canonical s !! key with
    | Some old_id => if (old_id =? id)%Z then m else delete old_id m
    | None => m
    end) s).
Proof.
  intros [Hinv _]. unfold bind_canonical. destruct (_ !! key) as [old|] eqn:E; [|done].
  destruct (old =? id)%Z eqn:Ho; simpl; [done|].
  rewrite bool_decide_eq_true_2; [done|]. by apply Hinv.
Qed.

Lemma unbind_canonical_wf id s :
  store_wf s → store_wf (unbind_canonical id s).
Proof.
  intros [Hh Hc Hid Hm Hn]. rewrite unbind_canonical_eq by done.
  destruct (canonical_by_id s !! id) as [key|] eqn:E; [|done].
  split; simpl; auto. by apply canon_wf_unbind.
Qed.

Lemma unbind_canonical_unbound id s :
  canon_wf (by_id s) (by_canonical s) (canonical_by_id s) →
  canonical_by_id (unbind_canonical id s) !! id = None.
Proof.
  intros Hc. rewrite unbind_canonical_eq by done.
  destruct (canonical_by_id s !! id) as [key|] eqn:E; simpl; [apply lookup_delete_eq|done].
Qed.

Lemma bind_canonical_wf key id s :
  store_wf s → is_Some (by_id s !! id) → canonical_by_id s !! id = None →
  store_wf (bind_canonical key id s).
Proof.
  intros [Hh Hc Hid Hm Hn] Hst Hu. rewrite bind_canonical_eq by done.
  split; simpl; auto. destruct (by_canonical s !! key) as [old|] eqn:E.
  - assert (canonical_by_id s !! old = Some key) as Ho by (by apply (canon_inverse _ _ _ Hc)).
    rewrite (proj2 (Z.eqb_neq _ _)) by congruence. rewrite <-(insert_delete_eq (by_canonical s)).
    apply canon_wf_bind; [by apply canon_wf_unbind|done| |apply lookup_delete_eq].
    by apply lookup_delete_None; right.
  - by apply canon_wf_bind.
Qed.

(** Neither index update touches anything else. *)
Lemma unbind_canonical_frame id s :
  subjects (unbind_canonical id s) = subjects s ∧ by_id (unbind_canonical id s) = by_id s ∧
  max_id (unbind_canonical id s) = max_id s ∧
  next_versions (unbind_canonical id s) = next_versions s.
Proof. unfold unbind_canonical. by repeat case_match. Qed.

Lemma bind_canonical_frame key id s :
  subjects (bind_canonical key id s) = subjects s ∧ by_id (bind_canonical key id s) = by_id s ∧
  max_id (bind_canonical key id s) = max_id s ∧
  next_versions (bind_canonical key id s) = next_versions s.
Proof. unfold bind_canonical. by repeat case_match. Qed.

(** ** Ids *)

Lemma set_max_id_wf n s :
  in_i32 n → store_wf s → store_wf (set_max_id (Z.max (max_id s) n) s).
Proof.
  intros Hi [Hh Hc Hid Hm Hn]. split; simpl; auto.
  - intros id' H'. specialize (Hid id' H'). lia.
  - unfold in_i32 in *. lia.
Qed.

Lemma insert_by_id_wf id reg s :
  (id ≤ max_id s)%Z → store_wf s → store_wf (set_by_id <[ id := reg ]> s).
Proof.
  intros Hle [Hh Hc Hid Hm Hn].
  assert (∀ id', is_Some (by_id s !! id') → is_Some (<[id := reg]> (by_id s) !! id')) as Hmono.
  { intros id' ?. destruct (decide (id = id')) as [->|].
    - rewrite lookup_insert_eq. eauto.
    - by rewrite lookup_insert_ne. }
  split; simpl; auto.
  - intros subject vs Hvs. eapply hist_wf_ids_mono; eauto.
  - by eapply canon_wf_ids_mono.
  - intros id' H'. destruct (decide (id = id')) as [->|]; [done|].
    rewrite lookup_insert_ne in H' by done. auto.
Qed.

(** ** Preservation of the invariant *)

Lemma with_defaults_wf compatibility mode : store_wf (with_defaults compatibility mode).
Proof.
  split; simpl.
  - by intros ?? ?%lookup_empty_Some.
  - split; intros ??; rewrite ?lookup_empty; [naive_solver|done].
  - intros id [? ?%lookup_empty_Some]. done.
  - done.
  - by intros ?? ?%lookup_empty_Some.
Qed.

Lemma set_compat_fields_wf g m s : store_wf s → store_wf (set_compat_fields g m s).
Proof. by intros []. Qed.

Lemma set_mode_fields_wf g m s : store_wf s → store_wf (set_mode_fields g m s).
Proof. by intros []. Qed.

Lemma preserve_id_high_water_wf s previous :
  store_wf s → store_wf previous → store_wf (preserve_id_high_water s previous).
Proof. intros Hs Hp. apply set_max_id_wf; [by destruct Hp|done]. Qed.

#[export] Hint Resolve with_defaults_wf set_compat_fields_wf set_mode_fields_wf
  preserve_id_high_water_wf observe_version_wf observe_next_version_wf : krabka.

Section with_format.
Context `{SchemaFormat}.

(** [apply_schema] up to the identity lookup: the marks raised, the id's old
    key forgotten, the schema stored. *)
Definition replay_stored (value : SchemaValue) (s : StoreState) : StoreState :=
  set_by_id <[ sv_id value :=
      mkRegisteredSchema (from_wire (sv_schema_type value)) (sv_schema value)
        (sv_references value) (sv_message_type value) (sv_extra value) ]>
    (unbind_canonical (sv_id value)
       (observe_version (sv_subject value) (sv_version value)
          (set_max_id (Z.max (max_id s) (sv_id value)) s))).

(** The identity [apply_schema] computes from the stored state, if any. *)
Definition replay_key (value : SchemaValue) (s : StoreState) : option string :=
  match (resolved ← resolve_closure (replay_stored value s) (sv_references value);
         format_parse (from_wire (sv_schema_type value)) (sv_schema value) resolved) with
  | Ok canonical => Some (dedup_key canonical (sv_references value) (sv_message_type value))
  | Err _ => None
  end.

Definition replay_bound (value : SchemaValue) (s : StoreState) : StoreState :=
  match replay_key value s with
  | Some key => bind_canonical key (sv_id value) (replay_stored value s)
  | None => replay_stored value s
  end.

Lemma apply_schema_unfold value s :
  apply_schema value s =
  set_subjects (λ m,
    <[ sv_subject value :=
         upsert_entry (sv_version value) (sv_id value) (sv_deleted value)
           (default [] (m !! sv_subject value)) ]> m) (replay_bound value s).
Proof.
  unfold apply_schema, replay_bound, replay_key, replay_stored.
  by destruct (mbind _ _).
Qed.

Lemma replay_stored_wf value s :
  value_i32 value → store_wf s → store_wf (replay_stored value s).
Proof.
  intros [Hv Hi] Hs. apply insert_by_id_wf.
  - rewrite (proj1 (proj2 (proj2 (unbind_canonical_frame _ _)))). simpl. lia.
  - by apply unbind_canonical_wf, observe_version_wf, set_max_id_wf.
Qed.

Lemma replay_stored_unbound value s :
  store_wf s → canonical_by_id (replay_stored value s) !! sv_id value = None.
Proof. intros Hs. apply unbind_canonical_unbound. by destruct Hs. Qed.

Lemma replay_stored_by_id value s :
  by_id (replay_stored value s) = <[ sv_id value :=
      mkRegisteredSchema (from_wire (sv_schema_type value)) (sv_schema value)
        (sv_references value) (sv_message_type value) (sv_extra value) ]> (by_id s).
Proof.
  unfold replay_stored. simpl. by rewrite (proj1 (proj2 (unbind_canonical_frame _ _))).
Qed.

Lemma replay_stored_subjects value s : subjects (replay_stored value s) = subjects s.
Proof. unfold replay_stored. simpl. by rewrite (proj1 (unbind_canonical_frame _ _)). Qed.

Lemma replay_stored_next value s :
  next_versions (replay_stored value s) =
  next_versions (observe_version (sv_subject value) (sv_version value) s).
Proof.
  unfold replay_stored. simpl.
  by rewrite (proj2 (proj2 (proj2 (unbind_canonical_frame _ _)))).
Qed.

Lemma replay_bound_frame value s :
  subjects (replay_bound value s) = subjects s ∧
  by_id (replay_bound value s) = by_id (replay_stored value s) ∧
  max_id (replay_bound value s) = Z.max (max_id s) (sv_id value) ∧
  next_versions (replay_bound value s) =
    next_versions (observe_version (sv_subject value) (sv_version value) s).
Proof.
  assert (max_id (replay_stored value s) = Z.max (max_id s) (sv_id value)) as Hm.
  { unfold replay_stored. simpl. by rewrite (proj1 (proj2 (proj2 (unbind_canonical_frame _ _)))). }
  unfold replay_bound. destruct (replay_key value s) as [key|].
  - destruct (bind_canonical_frame key (sv_id value) (replay_stored value s)) as (-> & -> & -> & ->).
    by rewrite replay_stored_subjects, replay_stored_next, Hm.
  - by rewrite replay_stored_subjects, replay_stored_next, Hm.
Qed.

Lemma replay_bound_wf value s :
  value_i32 value → store_wf s → store_wf (replay_bound value s).
Proof.
  intros Hv Hs. unfold replay_bound. destruct (replay_key value s) as [key|].
  - apply bind_canonical_wf; [by apply replay_stored_wf| |by apply replay_stored_unbound].
    rewrite replay_stored_by_id, lookup_insert_eq. eauto.
  - by apply replay_stored_wf.
Qed.

Lemma observe_version_ge subject version s :
  ∃ n, next_versions (observe_version subject version s) !! subject = Some n ∧
       (i32_saturating_add version 1 ≤ n)%Z.
Proof.
  unfold observe_version. rewrite lookup_observe_next_version, decide_True by done.
  destruct (next_versions s !! subject); eexists; (split; [done|]); lia.
Qed.

Lemma apply_schema_preserves value s :
  value_i32 value → store_wf s → store_wf (apply_schema value s).
Proof.
  intros Hv Hs. rewrite apply_schema_unfold.
  pose proof (replay_bound_wf value s Hv Hs) as Hb.
  destruct (replay_bound_frame value s) as (_ & Hid & _ & Hn).
  apply (set_subject_wf (sv_subject value)
    (upsert_entry (sv_version value) (sv_id value) (sv_deleted value)
       (default [] (subjects (replay_bound value s) !! sv_subject value)))) in Hb as Hw; [done|].
  destruct (observe_version_ge (sv_subject value) (sv_version value) s) as (n & Hnn & Hle).
  rewrite Hn, Hnn. apply upsert_entry_hist; [apply Hv| |done|].
  - rewrite Hid, replay_stored_by_id, lookup_insert_eq. eauto.
  - destruct (subjects (replay_bound value s) !! sv_subject value) as [vs|] eqn:E;
      simpl; [right|by left].
    rewrite <-Hnn, <-Hn. by apply (wf_hist _ Hb).
Qed.

(** ** Registration *)

(** The steps of a successful registration. *)
Lemma register_inv subject ty schema refs mt s r s' :
  register subject ty schema refs mt s = Ok (r, s') →
  ∃ resolved canonical,
    resolve_closure s refs = Ok resolved ∧
    format_parse ty schema resolved = Ok canonical ∧
    let key := dedup_key canonical refs mt in
    (find_under_subject_canonical s subject key true = Some r ∧ s' = s) ∨
    (find_under_subject_canonical s subject key true = None ∧
     ∃ id s1, allocate_id key (mkRegisteredSchema ty schema refs mt ∅) s = (id, s1) ∧
              append_version subject id s1 = (r, s')).
Proof.
  unfold register. intros Hr. bind_inv Hr. bind_inv Hr. exists a, a0.
  split_and!; [done..|]. simpl. destruct (find_under_subject_canonical _ _ _ _) eqn:E.
  - left. by injection Hr as <- <-.
  - right. split; [done|]. destruct (allocate_id _ _ _) as [id s1] eqn:Ea.
    exists id, s1. split; [done|]. congruence.
Qed.

Lemma max_id_fresh s id :
  store_wf s → (max_id s < id)%Z → by_id s !! id = None ∧ canonical_by_id s !! id = None.
Proof.
  intros [Hh Hc Hid Hm Hn] Hlt.
  assert (by_id s !! id = None) as Hno.
  { apply eq_None_not_Some. intros ?%Hid. lia. }
  split; [done|]. apply eq_None_not_Some. intros [key Hk].
  apply (canon_inverse _ _ _ Hc), (canon_stored _ _ _ Hc) in Hk as [? ?]. congruence.
Qed.

Lemma allocate_id_wf key reg s id s1 :
  store_wf s → (max_id s < i32_max)%Z → allocate_id key reg s = (id, s1) →
  store_wf s1 ∧ is_Some (by_id s1 !! id) ∧ by_canonical s1 !! key = Some id ∧
  subjects s1 = subjects s ∧ next_versions s1 = next_versions s ∧
  (∀ id' reg', by_id s !! id' = Some reg' → by_id s1 !! id' = Some reg').
Proof.
  intros Hs Hlt. unfold allocate_id. destruct (by_canonical s !! key) as [id0|] eqn:E.
  { intros [= <- <-]. split_and!; try done. by eapply (canon_stored _ _ _ (wf_canon _ Hs)). }
  pose proof (wf_max _ Hs) as Hm.
  rewrite i32_wrap_id by (unfold in_i32 in *; lia). intros [= <- <-].
  destruct (max_id_fresh s (max_id s + 1) Hs) as [Hno Hnc]; [lia|]. simpl.
  split_and!; try done; [ |rewrite lookup_insert_eq; eauto|apply lookup_insert_eq|].
  - pose proof (set_max_id_wf (max_id s + 1) s ltac:(unfold in_i32 in *; lia) Hs) as Hs1.
    rewrite Z.max_r in Hs1 by lia.
    apply (insert_by_id_wf (max_id s + 1) reg) in Hs1; [|simpl; lia].
    destruct Hs1 as [Hh Hc Hid Hm' Hn]. split; simpl in *; auto.
    apply canon_wf_bind; [done| |done..]. rewrite lookup_insert_eq. eauto.
  - intros id' reg' Hr'. rewrite lookup_insert_ne; [done|]. congruence.
Qed.

Lemma append_version_wf subject id s r s' :
  store_wf s → is_Some (by_id s !! id) → (next_version s subject < i32_max)%Z →
  append_version subject id s = (r, s') → store_wf s'.
Proof.
  intros Hs Hid Hlt [= <- <-]. set (next := next_version s subject) in *.
  pose proof (observe_version_wf subject next s Hs) as Ho.
  assert (in_i32 next) as Hi.
  { unfold next, next_version in *. destruct (next_versions s !! subject) eqn:E; [|done].
    by apply (wf_next _ Hs) in E. }
  apply (set_subject_wf subject (default [] (subjects s !! subject) ++ [mkVersionEntry next id false])
           _ Ho). simpl.
  destruct (observe_version_ge subject next s) as (n & Hn & Hle). simpl in Hn.
  rewrite Hn. rewrite <-(upsert_entry_above next id false).
  - apply upsert_entry_hist; [done..|].
    destruct (subjects s !! subject) as [vs|] eqn:E; [right|by left]. simpl.
    rewrite <-Hn. by apply (wf_hist _ Ho).
  - destruct (subjects s !! subject) as [vs|] eqn:E; [|constructor]. simpl.
    by apply (hist_sorted _ _ _ (wf_hist _ Hs _ _ E)).
  - intros e. destruct (subjects s !! subject) as [vs|] eqn:E; [|by intros ?%elem_of_nil].
    simpl. intros He. pose proof (wf_hist _ Hs _ _ E) as Hw.
    destruct (hist_wf_next_Some _ _ _ Hw) as [n0 Hn0]. rewrite Hn0 in Hw.
    unfold next, next_version in *. rewrite Hn0 in *. by eapply hist_below_next.
Qed.

Lemma register_preserves subject ty schema refs mt s r s' :
  store_wf s → (max_id s < i32_max)%Z → (next_version s subject < i32_max)%Z →
  register subject ty schema refs mt s = Ok (r, s') → store_wf s'.
Proof.
  intros Hs Hm Hn (? & ? & _ & _ & [[_ ->]|(_ & id & s1 & Ha & Hp)])%register_inv; [done|].
  destruct (allocate_id_wf _ _ _ _ _ Hs Hm Ha) as (Hs1 & Hid & _ & _ & Hnv & _).
  eapply append_version_wf; [done..| |done]. unfold next_version. by rewrite Hnv.
Qed.

(** The record the write path produces for a new registration. *)
Abbreviation registered_value subject ty schema refs mt r :=
  (schema_value subject (reg_version r) (reg_id r) ty schema refs mt false ∅).

(** The compatibility and mode settings, which no registration touches. *)
Definition settings (s : StoreState) :=
  (global_compat_ s, default_compatibility s, subject_compat_ s,
   global_mode_ s, default_mode s, subject_mode_ s).

Lemma StoreState_eq s s' :
  subjects s = subjects s' → by_id s = by_id s' → by_canonical s = by_canonical s' →
  canonical_by_id s = canonical_by_id s' → max_id s = max_id s' →
  next_versions s = next_versions s' → settings s = settings s' → s = s'.
Proof. destruct s, s'; unfold settings; simpl; intros; simplify_eq. done. Qed.

Lemma apply_schema_settings value s : settings (apply_schema value s) = settings s.
Proof.
  unfold apply_schema, bind_canonical, unbind_canonical. by repeat case_match.
Qed.

(** Storing a schema under an id changes no closure that does not reach a
    version bound to the id. *)
Lemma replay_closure value s refs :
  (∀ r, reachable s refs r → id_of s (ref_subject r) (ref_version r) ≠ Some (sv_id value)) →
  resolve_closure (replay_stored value s) refs = resolve_closure s refs.
Proof.
  intros Hno. symmetry. apply resolve_closure_same_reachable. intros r Hr%Hno.
  assert (∀ subject v, id_of (replay_stored value s) subject v = id_of s subject v) as Hid
    by (intros; unfold id_of; by rewrite replay_stored_subjects).
  unfold target. rewrite Hid. destruct (id_of s _ _) as [id|]; cbn [mbind option_bind]; [|done].
  by rewrite replay_stored_by_id, lookup_insert_ne by congruence.
Qed.

(** Replaying a record whose identity is already its id's (or is new) leaves
    the indexes binding the two. *)
Lemma replay_bound_indexes value s key :
  store_wf s → replay_key value s = Some key →
  by_canonical s !! key = Some (sv_id value) ∨
    (by_canonical s !! key = None ∧ canonical_by_id s !! sv_id value = None) →
  by_canonical (replay_bound value s) = <[ key := sv_id value ]> (by_canonical s) ∧
  canonical_by_id (replay_bound value s) = <[ sv_id value := key ]> (canonical_by_id s).
Proof.
  intros Hs Hk Hcase. unfold replay_bound. rewrite Hk. unfold bind_canonical, replay_stored.
  rewrite unbind_canonical_eq by apply Hs. simpl. destruct Hcase as [Hb|[Hb Hc]].
  - assert (canonical_by_id s !! sv_id value = Some key) as Hc
      by (by apply (canon_inverse _ _ _ (wf_canon _ Hs))).
    rewrite Hc. simpl. rewrite lookup_delete_eq. simpl. by rewrite !insert_delete_eq.
  - rewrite Hc. simpl. rewrite Hb. done.
Qed.

Lemma append_version_settings subject id s : settings (append_version subject id s).2 = settings s.
Proof. done. Qed.

Lemma allocate_id_settings key reg s : settings (allocate_id key reg s).2 = settings s.
Proof. unfold allocate_id. by case_match. Qed.

(** What an allocation leaves behind, against the state before it. *)
Lemma allocate_id_frame key reg s id s1 :
  store_wf s → (max_id s < i32_max)%Z → allocate_id key reg s = (id, s1) →
  max_id s1 = Z.max (max_id s) id ∧
  by_canonical s1 = <[ key := id ]> (by_canonical s) ∧
  canonical_by_id s1 = <[ id := key ]> (canonical_by_id s) ∧
  ((by_canonical s !! key = Some id ∧ by_id s1 = by_id s) ∨
   (by_canonical s !! key = None ∧ canonical_by_id s !! id = None ∧
    id = (max_id s + 1)%Z ∧ by_id s1 = <[ id := reg ]> (by_id s))).
Proof.
  intros Hs Hlt. pose proof (wf_max _ Hs) as Hm. pose proof (wf_canon _ Hs) as Hc.
  unfold allocate_id. destruct (by_canonical s !! key) as [id0|] eqn:E.
  - intros [= <- <-]. pose proof (canon_stored _ _ _ Hc _ _ E) as Hid%(wf_ids _ Hs).
    rewrite (insert_id (by_canonical s)) by done.
    rewrite (insert_id (canonical_by_id s)) by (by apply (canon_inverse _ _ _ Hc)).
    split_and!; [lia|done|done|auto].
  - rewrite i32_wrap_id by (unfold in_i32 in *; lia). intros [= <- <-]. simpl.
    destruct (max_id_fresh s (max_id s + 1) Hs) as [_ ?]; [lia|].
    split_and!; [lia|done|done|auto 6].
Qed.

Lemma find_under_subject_canonical_None s subject key id vs :
  by_canonical s !! key = Some id → subjects s !! subject = Some vs →
  find_under_subject_canonical s subject key true = None →
  ∀ e, e ∈ vs → ve_id e ≠ id.
Proof.
  unfold find_under_subject_canonical. intros -> -> Hf e He Heq. simpl in Hf.
  destruct (List.find _ vs) eqn:E; [done|].
  apply list_elem_of_In in He. eapply List.find_none in E; [|done]. simpl in E.
  rewrite Heq, Z.eqb_refl in E. done.
Qed.

Lemma append_version_history s subject :
  store_wf s → (next_version s subject < i32_max)%Z →
  let vs := default [] (subjects s !! subject) in
  StronglySorted Z.lt (ve_version <$> vs) ∧
  ∀ e, e ∈ vs → (ve_version e < next_version s subject)%Z.
Proof.
  intros Hs Hlt. simpl. destruct (subjects s !! subject) as [vs|] eqn:E; simpl.
  2: { split; [constructor|]. by intros e ?%elem_of_nil. }
  pose proof (wf_hist _ Hs _ _ E) as Hw. split; [by apply (hist_sorted _ _ _ Hw)|].
  destruct (hist_wf_next_Some _ _ _ Hw) as [n Hn]. rewrite Hn in Hw.
  unfold next_version in *. rewrite Hn in *. intros e He. by eapply hist_below_next.
Qed.

(** The write path's decision and the reader's replay agree, up to the text
    stored under an id that was already in use. *)
Lemma register_replay subject ty schema refs mt s r s' :
  store_wf s → (max_id s < i32_max)%Z → (next_version s subject < i32_max)%Z →
  register subject ty schema refs mt s = Ok (r, s') → s' ≠ s →
  (∀ rf, reachable s refs rf → id_of s (ref_subject rf) (ref_version rf) ≠ Some (reg_id r)) →
  apply_schema (registered_value subject ty schema refs mt r) s =
    set_by_id <[ reg_id r := mkRegisteredSchema ty schema refs mt ∅ ]> s'.
Proof.
  intros Hs Hm Hn Hr Hne Hno.
  apply register_inv in Hr as (resolved & canonical & Hcl & Hp & [[_ ->]|(_ & id & s1 & Ha & Hap)]);
    [done|].
  set (key := dedup_key canonical refs mt) in *.
  set (reg := mkRegisteredSchema ty schema refs mt ∅) in *.
  destruct (allocate_id_frame _ _ _ _ _ Hs Hm Ha) as (Hmax & Hbc & Hcb & Hcase).
  destruct (allocate_id_wf _ _ _ _ _ Hs Hm Ha) as (_ & Hstored & _ & Hsub & Hnv & _).
  pose proof (allocate_id_settings key reg s) as Hset. rewrite Ha in Hset. simpl in Hset.
  assert (next_version s1 subject = next_version s subject) as Hnext
    by (unfold next_version; by rewrite Hnv).
  injection Hap as <- <-. simpl in Hno.
  set (value := schema_value _ _ _ _ _ _ _ _ _).
  assert (by_id (replay_stored value s) = <[ id := reg ]> (by_id s)) as Hst.
  { rewrite replay_stored_by_id. simpl. by rewrite from_wire_wire_name. }
  assert (<[ id := reg ]> (by_id s1) = <[ id := reg ]> (by_id s)) as Hids.
  { destruct Hcase as [[_ ->]|(_ & _ & _ & ->)]; [done|]. by rewrite insert_insert_eq. }
  assert (replay_key value s = Some key) as Hkey.
  { unfold replay_key. rewrite replay_closure by done.
    simpl. rewrite from_wire_wire_name, Hcl. simpl. by rewrite Hp. }
  assert (by_canonical s !! key = Some (sv_id value) ∨
    (by_canonical s !! key = None ∧ canonical_by_id s !! sv_id value = None)) as Hidx
    by (simpl; tauto).
  destruct (replay_bound_indexes value s key Hs Hkey Hidx) as [Hb Hc].
  destruct (replay_bound_frame value s) as (Hf1 & Hf2 & Hf3 & Hf4).
  destruct (append_version_history s subject Hs Hn) as [Hsorted Hbelow].
  apply StoreState_eq; rewrite ?apply_schema_settings, ?apply_schema_unfold; simpl.
  - rewrite Hf1, Hsub, Hnext. by rewrite upsert_entry_above.
  - by rewrite Hf2, Hst, Hids.
  - by rewrite Hb, Hbc.
  - by rewrite Hc, Hcb.
  - by rewrite Hf3, Hmax.
  - rewrite Hf4. unfold observe_version, observe_next_version. simpl. by rewrite Hnext, Hnv.
  - done.
Qed.

(** A registration that hands out a new id is replayed exactly. *)
Lemma register_replay_fresh subject ty schema refs mt s r s' :
  store_wf s → (max_id s < i32_max)%Z → (next_version s subject < i32_max)%Z →
  register subject ty schema refs mt s = Ok (r, s') → by_id s !! reg_id r = None →
  apply_schema (registered_value subject ty schema refs mt r) s = s'.
Proof.
  intros Hs Hm Hn Hr Hfresh.
  pose proof Hr as (resolved & canonical & Hcl & Hp & Hcase)%register_inv.
  destruct Hcase as [[Hf ->]|(_ & id & s1 & Ha & Hap)].
  { unfold find_under_subject_canonical in Hf.
    apply bind_Some in Hf as (id & Hk & (vs & _ & (e & _ & [= <-])%bind_Some)%bind_Some).
    destruct (canon_stored _ _ _ (wf_canon _ Hs) _ _ Hk) as [reg Hreg]. simpl in Hfresh. congruence. }
  destruct (allocate_id_wf _ _ _ _ _ Hs Hm Ha) as (_ & Hstored & _).
  destruct (allocate_id_frame _ _ _ _ _ Hs Hm Ha) as (_ & _ & _ & Hcase).
  assert (by_id s1 = <[ reg_id r := mkRegisteredSchema ty schema refs mt ∅ ]> (by_id s)) as Hby.
  { injection Hap as <- <-. simpl in *.
    destruct Hcase as [[Hk _]|(_ & _ & _ & ->)]; [|done].
    destruct (canon_stored _ _ _ (wf_canon _ Hs) _ _ Hk) as [reg Hreg]. congruence. }
  rewrite (register_replay _ _ _ _ _ _ _ _ Hs Hm Hn Hr).
  - injection Hap as <- <-. simpl in *. apply StoreState_eq; simpl; try done.
    by rewrite Hby, insert_insert_eq.
  - intros ->. apply (f_equal (λ p, by_id p.2)) in Hap. simpl in Hap.
    by rewrite <-Hap, Hby, lookup_insert_eq in Hfresh.
  - intros rf Hrf Hid. destruct (resolve_closure_reachable _ _ _ _ Hcl Hrf) as [reg Ht].
    unfold target in Ht. rewrite Hid in Ht. simpl in Ht. congruence.
Qed.

(** A registration that adds a version keeps every stored schema and entry. *)
Lemma register_target subject id s1 r s' rf reg :
  append_version subject id s1 = (r, s') → target s1 rf = Some reg → target s' rf = Some reg.
Proof.
  intros [= <- <-]. unfold target, id_of. simpl.
  destruct (decide (subject = ref_subject rf)) as [->|Hne].
  - rewrite lookup_insert_eq. destruct (subjects s1 !! ref_subject rf) as [vs|]; simpl; [|done].
    unfold find_version. intros (i & (e & He & ->)%fmap_Some & Hreg)%bind_Some.
    rewrite find_app, He. done.
  - by rewrite lookup_insert_ne.
Qed.

Lemma append_version_fuel subject id s1 r s' :
  append_version subject id s1 = (r, s') → closure_fuel s1 ≤ closure_fuel s'.
Proof.
  intros [= <- <-]. apply closure_fuel_mono. intros subject' vs Hvs. simpl.
  destruct (decide (subject = subject')) as [->|Hne].
  - rewrite lookup_insert_eq, Hvs. eexists. split; [done|]. simpl. intros e ?. apply elem_of_app. auto.
  - rewrite lookup_insert_ne by done. eauto.
Qed.

(** Registering keeps every resolvable closure. *)
Lemma register_closure subject ty schema refs mt s r s' refs' out :
  store_wf s → (max_id s < i32_max)%Z →
  register subject ty schema refs mt s = Ok (r, s') →
  resolve_closure s refs' = Ok out → resolve_closure s' refs' = Ok out.
Proof.
  intros Hs Hm (? & ? & _ & _ & [[_ ->]|(_ & id & s1 & Ha & Hp)])%register_inv; [done|].
  destruct (allocate_id_wf _ _ _ _ _ Hs Hm Ha) as (_ & _ & _ & Hsub & _ & Hids).
  intros Hcl. apply (resolve_closure_extend s1);
    [intros rf reg; by eapply register_target|by eapply append_version_fuel|].
  apply (resolve_closure_extend s); [| |done].
  - intros rf reg. unfold target, id_of. rewrite Hsub.
    intros (i & Hi & ?)%bind_Some. apply bind_Some. eauto.
  - unfold closure_fuel, entry_keys. by rewrite Hsub.
Qed.

Lemma find_under_subject_canonical_Some s subject key r :
  find_under_subject_canonical s subject key true = Some r →
  by_canonical s !! key = Some (reg_id r) ∧
  ∃ vs e, subjects s !! subject = Some vs ∧ e ∈ vs ∧
          ve_version e = reg_version r ∧ ve_id e = reg_id r.
Proof.
  unfold find_under_subject_canonical.
  intros (id & Hk & (vs & Hvs & (e & He & [= <-])%bind_Some)%bind_Some)%bind_Some.
  apply List.find_some in He as [Hin Hb]. simpl. apply list_elem_of_In in Hin.
  split; [done|]. exists vs, e. split_and!; try done. lia.
Qed.

(** What a successful registration establishes. *)
Lemma register_post subject ty schema refs mt s r s' :
  store_wf s → (max_id s < i32_max)%Z →
  register subject ty schema refs mt s = Ok (r, s') →
  ∃ resolved canonical,
    resolve_closure s refs = Ok resolved ∧ resolve_closure s' refs = Ok resolved ∧
    format_parse ty schema resolved = Ok canonical ∧
    by_canonical s' !! dedup_key canonical refs mt = Some (reg_id r) ∧
    find_under_subject_canonical s' subject (dedup_key canonical refs mt) true = Some r.
Proof.
  intros Hs Hm Hr. pose proof Hr as (resolved & canonical & Hcl & Hp & Hcase)%register_inv.
  exists resolved, canonical. split_and!; [done|by eapply register_closure|done| |];
    destruct Hcase as [[Hf ->]|(Hf & id & s1 & Ha & Hap)].
  - by apply find_under_subject_canonical_Some in Hf as [? _].
  - destruct (allocate_id_wf _ _ _ _ _ Hs Hm Ha) as (_ & _ & Hk & _). by injection Hap as <- <-.
  - done.
  - destruct (allocate_id_frame _ _ _ _ _ Hs Hm Ha) as (_ & Hbc & _ & Hcase).
    destruct (allocate_id_wf _ _ _ _ _ Hs Hm Ha) as (_ & _ & Hk & Hsub & _).
    injection Hap as <- <-. unfold find_under_subject_canonical. simpl.
    rewrite Hk, lookup_insert_eq, Hsub. simpl. rewrite find_app.
    destruct (List.find _ _) as [e|] eqn:E; simpl; [|by rewrite Z.eqb_refl].
    exfalso. apply List.find_some in E as [He%list_elem_of_In Hb].
    destruct (subjects s !! subject) as [vs|] eqn:Hvs; simpl in He; [|by apply elem_of_nil in He].
    assert (ve_id e = id) as Heq by lia.
    destruct Hcase as [[Hkey _]|(_ & _ & -> & _)].
    + exact (find_under_subject_canonical_None _ _ _ _ _ Hkey Hvs Hf e He Heq).
    + pose proof (hist_stored _ _ _ (wf_hist _ Hs _ _ Hvs) e He) as Hst%(wf_ids _ Hs). lia.
Qed.

(** The version a registration adds is the one live entry of its id. *)
Lemma register_adds_live subject ty schema refs mt s r s' resolved canonical include_deleted :
  store_wf s → (max_id s < i32_max)%Z → register subject ty schema refs mt s = Ok (r, s') →
  resolve_closure s refs = Ok resolved → format_parse ty schema resolved = Ok canonical →
  find_under_subject_canonical s subject (dedup_key canonical refs mt) true = None →
  s' ≠ s ∧
  find_under_subject_canonical s' subject (dedup_key canonical refs mt) include_deleted = Some r.
Proof.
  intros Hs Hm Hr Hcl Hp Hf. pose proof Hr as (resolved' & canonical' & Hcl' & Hp' & Hcase)%register_inv.
  rewrite Hcl in Hcl'. injection Hcl' as <-. rewrite Hp in Hp'. injection Hp' as <-.
  destruct Hcase as [[Hf' _]|(_ & id & s1 & Ha & Hap)]; [congruence|].
  destruct (allocate_id_frame _ _ _ _ _ Hs Hm Ha) as (_ & Hbc & _ & Hcase).
  destruct (allocate_id_wf _ _ _ _ _ Hs Hm Ha) as (_ & _ & Hk & Hsub & _).
  injection Hap as <- <-.
  assert (∀ e, e ∈ default [] (subjects s !! subject) → ve_id e ≠ id) as Hnew.
  { intros e He Heq. destruct (subjects s !! subject) as [vs|] eqn:Hvs; simpl in He; [|by apply elem_of_nil in He].
    destruct Hcase as [[Hkey _]|(_ & _ & -> & _)].
    - exact (find_under_subject_canonical_None _ _ _ _ _ Hkey Hvs Hf e He Heq).
    - pose proof (hist_stored _ _ _ (wf_hist _ Hs _ _ Hvs) e He) as Hst%(wf_ids _ Hs). lia. }
  split.
  - intros Heq. apply (f_equal (λ x, subjects x !! subject)) in Heq. simpl in Heq.
    rewrite lookup_insert_eq, Hsub in Heq. rewrite <- Heq in Hnew. simpl in Hnew.
    apply (Hnew (mkVersionEntry (next_version s1 subject) id false)); [|done].
    apply elem_of_app. right. by left.
  - unfold find_under_subject_canonical. simpl. rewrite Hk, lookup_insert_eq, Hsub. simpl. rewrite find_app.
    destruct (List.find _ _) as [e|] eqn:E; simpl; [|by rewrite Z.eqb_refl, orb_true_r].
    exfalso. apply List.find_some in E as [He%list_elem_of_In Hb]. apply (Hnew e He).
    apply andb_true_iff in Hb as [Hb _]. lia.
Qed.

(** Registering again what is registered changes nothing. *)
Lemma register_again subject ty schema refs mt s r s' :
  store_wf s → (max_id s < i32_max)%Z →
  register subject ty schema refs mt s = Ok (r, s') →
  register subject ty schema refs mt s' = Ok (r, s').
Proof.
  intros Hs Hm (? & ? & _ & Hcl & Hp & _ & Hf)%register_post; [|done..].
  unfold register. rewrite Hcl. simpl. rewrite Hp. simpl. by rewrite Hf.
Qed.

(** The identity under which a schema is stored: its key in [by_canonical]. *)
Definition identity (s : StoreState) (ty : SchemaType) (schema : string)
    (refs : list SchemaReference) (mt : option string) : option string :=
  resolved ← result_ok (resolve_closure s refs);
  canonical ← result_ok (format_parse ty schema resolved);
  Some (dedup_key canonical refs mt).

Lemma identity_intro s ty schema refs mt resolved canonical :
  resolve_closure s refs = Ok resolved → format_parse ty schema resolved = Ok canonical →
  identity s ty schema refs mt = Some (dedup_key canonical refs mt).
Proof. unfold identity. intros ->. simpl. by intros ->. Qed.

(** Known identities keep their id. *)
Lemma register_keeps_key subject ty schema refs mt s r s' key id :
  store_wf s → (max_id s < i32_max)%Z →
  register subject ty schema refs mt s = Ok (r, s') →
  by_canonical s !! key = Some id → by_canonical s' !! key = Some id.
Proof.
  intros Hs Hm (? & canonical & _ & _ & [[_ ->]|(_ & i & s1 & Ha & Hap)])%register_inv Hk; [done|].
  destruct (allocate_id_frame _ _ _ _ _ Hs Hm Ha) as (_ & Hbc & _ & Hcase).
  injection Hap as <- <-. simpl. rewrite Hbc. apply lookup_insert_Some.
  destruct (decide (dedup_key canonical refs mt = key)) as [<-|]; [left|by right].
  destruct Hcase as [[? _]|[? _]]; split; congruence.
Qed.
End with_format.

(** ** Deletion *)

Lemma mark_deleted_versions (vs : list VersionEntry) : ve_version <$> (mark_deleted <$> vs) = ve_version <$> vs.
Proof. by rewrite <-list_fmap_compose. Qed.

Lemma mark_deleted_hist ids next vs : hist_wf ids next vs → hist_wf ids next (mark_deleted <$> vs).
Proof.
  intros [Hne Hs Hid Hi Hn]. split.
  - by intros ?%fmap_nil_inv.
  - by rewrite mark_deleted_versions.
  - intros e (x & -> & Hx)%list_elem_of_fmap. apply (Hid x Hx).
  - intros e (x & -> & Hx)%list_elem_of_fmap. apply (Hi x Hx).
  - intros e (x & -> & Hx)%list_elem_of_fmap. apply (Hn x Hx).
Qed.

Lemma soft_delete_subject_wf subject s :
  store_wf s → store_wf (soft_delete_subject subject s).2.
Proof.
  intros Hs. unfold soft_delete_subject.
  destruct (subjects s !! subject) as [[|e vs]|] eqn:E; [done| |done].
  apply (set_subject_wf subject); [done|]. apply mark_deleted_hist. by apply (wf_hist _ Hs).
Qed.

Lemma StronglySorted_sublist {A} (R : A → A → Prop) (l l' : list A) :
  sublist l l' → StronglySorted R l' → StronglySorted R l.
Proof.
  induction 1 as [|x l l' Hsub IH|x l l' Hsub IH]; intros Hs; [constructor| |];
    apply StronglySorted_inv in Hs as [Hs Hall]; [|auto].
  constructor; [auto|]. rewrite Forall_forall in *. intros y Hy. apply Hall.
  by eapply elem_of_submseteq, sublist_submseteq.
Qed.

Lemma filter_sublist {A} (f : A → bool) (l : list A) : sublist (List.filter f l) l.
Proof. induction l as [|x l IH]; simpl; [done|]. destruct (f x); by constructor. Qed.

Lemma sublist_fmap_mono {A B} (f : A → B) (l l' : list A) :
  sublist l l' → sublist (f <$> l) (f <$> l').
Proof. induction 1; simpl; by constructor. Qed.

Lemma filter_hist ids next (f : VersionEntry → bool) vs :
  hist_wf ids next vs → List.filter f vs ≠ [] → hist_wf ids next (List.filter f vs).
Proof.
  intros [Hne Hs Hid Hi Hn] Hnil.
  assert (∀ e, e ∈ List.filter f vs → e ∈ vs) as Hin.
  { intros e. intros He%list_elem_of_In%List.filter_In. apply list_elem_of_In, He. }
  split; [done| |auto..]. eapply StronglySorted_sublist; [|done].
  apply sublist_fmap_mono, filter_sublist.
Qed.

Lemma permanent_delete_version_wf subject version s :
  store_wf s → store_wf (permanent_delete_version subject version s).2.
Proof.
  intros Hs. pose proof (observe_version_wf subject version s Hs) as Ho.
  unfold permanent_delete_version. destruct (subjects _ !! subject) as [vs|] eqn:E; [|done].
  case_match eqn:Hlen; [done|]. simpl. destruct (List.filter _ vs) as [|e vs'] eqn:Hf.
  - by apply delete_subject_wf.
  - apply (set_subject_wf subject (e :: vs')); [done|]. rewrite <-Hf.
    apply filter_hist; [by apply (wf_hist _ Ho)|by rewrite Hf].
Qed.

(** Deleting a version removes exactly that version. *)
Lemma permanent_delete_subjects subject version s subject' :
  subjects (permanent_delete_version subject version s).2 !! subject' =
  if decide (subject = subject') then
    vs ← subjects s !! subject;
    match List.filter (λ v, negb (ve_version v =? version)%Z) vs with
    | [] => if decide (vs = []) then Some [] else None
    | vs' => Some vs'
    end
  else subjects s !! subject'.
Proof.
  unfold permanent_delete_version. simpl.
  destruct (subjects s !! subject) as [vs|] eqn:E; simpl.
  2: { by destruct (decide (subject = subject')) as [<-|]. }
  set (f := λ v, negb (ve_version v =? version)%Z).
  destruct (Nat.eqb _ _) eqn:Hlen; simpl.
  - apply Nat.eqb_eq in Hlen.
    pose proof (filter_length_id f vs Hlen) as Hf.
    destruct (decide (subject = subject')) as [<-|]; [|done]. rewrite E, Hf. by destruct vs.
  - destruct (decide (subject = subject')) as [<-|Hne].
    + destruct (List.filter f vs) as [|e vs'] eqn:Hf; simpl.
      * rewrite lookup_delete_eq. rewrite decide_False; [done|]. by intros ->.
      * by rewrite lookup_insert_eq.
    + destruct (List.filter f vs); simpl; by rewrite ?lookup_delete_ne, ?lookup_insert_ne.
Qed.

#[export] Hint Resolve soft_delete_subject_wf permanent_delete_version_wf : krabka.
