(* ===== verification/DedupKey.v ===== *)
(** * The identity key: [dedup_key] (store/mod.rs)

    What the key distinguishes. The key joins the canonical text, the sorted
    reference fingerprints and the message type with control characters; on
    parts that contain none of them it is injective up to the order of the
    references, and it does not tell an absent message type from an empty one
    when there are references. *)

From stdpp Require Import base gmap strings list pretty sorting.
From Stdlib Require Import ZArith Lia Ascii Permutation.
From S2P Require Import Prelude Json Types Store.

(** [c] does not occur in [s]. *)
Fixpoint char_free (c : ascii) (s : string) : bool :=
  match s with
  | EmptyString => true
  | String d s' => negb (Ascii.eqb c d) && char_free c s'
  end.

(** None of the separators [\u{0}], [\u{1}], [\u{2}] occurs in [s]. *)
Definition sep_free (s : string) : bool :=
  char_free (ascii_of_nat 0) s && char_free (ascii_of_nat 1) s && char_free (ascii_of_nat 2) s.

Definition ref_sep_free (r : SchemaReference) : bool :=
  sep_free (ref_name r) && sep_free (ref_subject r).

Lemma char_free_app c s1 s2 : char_free c (s1 +:+ s2) = char_free c s1 && char_free c s2.
Proof. induction s1 as [|d s1 IH]; simpl; [done|]. by rewrite IH, andb_assoc. Qed.

(** The first occurrence of a separator splits a string in one way. *)
Lemma split_unique c a a' x x' :
  char_free c a = true → char_free c a' = true →
  a +:+ String c x = a' +:+ String c x' → a = a' ∧ x = x'.
Proof.
  revert a'. induction a as [|d a IH]; intros [|d' a']; simpl.
  - by intros _ _ [= ->].
  - intros _ Hf [= <- _]. by rewrite Ascii.eqb_refl in Hf.
  - intros Hf _ [= -> _]. by rewrite Ascii.eqb_refl in Hf.
  - intros [_ Hf]%andb_true_iff [_ Hf']%andb_true_iff [= <- Heq].
    by destruct (IH a' Hf Hf' Heq) as [-> ->].
Qed.

Lemma pretty_N_char_free c n :
  c = ascii_of_nat 0 ∨ c = ascii_of_nat 1 ∨ c = ascii_of_nat 2 →
  Ascii.eqb c (pretty_N_char n) = false.
Proof. intros Hc. unfold pretty_N_char. repeat case_match; by destruct Hc as [->|[->| ->]]. Qed.

Lemma pretty_N_go_free c n s :
  c = ascii_of_nat 0 ∨ c = ascii_of_nat 1 ∨ c = ascii_of_nat 2 →
  char_free c s = true → char_free c (pretty_N_go n s) = true.
Proof.
  intros Hc. revert s. induction (N.lt_wf_0 n) as [n _ IH]; intros s Hs.
  assert (n = 0 ∨ 0 < n)%N as [->|?] by lia; [by rewrite pretty_N_go_0|].
  rewrite pretty_N_go_step by done. apply IH; [by apply N.div_lt|]. cbn [char_free].
  by rewrite pretty_N_char_free, Hs.
Qed.

Lemma pretty_Z_free c (z : Z) :
  c = ascii_of_nat 0 ∨ c = ascii_of_nat 1 ∨ c = ascii_of_nat 2 →
  char_free c (pretty z) = true.
Proof.
  intros Hc. destruct z as [|p|p]; unfold pretty, pretty_Z.
  - by destruct Hc as [->|[->| ->]].
  - by apply pretty_N_go_free.
  - rewrite char_free_app. apply andb_true_iff. split; [|by apply pretty_N_go_free].
    by destruct Hc as [->|[->| ->]].
Qed.

Lemma sep_free_elim s c :
  sep_free s = true → c = ascii_of_nat 0 ∨ c = ascii_of_nat 1 ∨ c = ascii_of_nat 2 →
  char_free c s = true.
Proof.
  unfold sep_free. intros [[? ?]%andb_true_iff ?]%andb_true_iff [->|[->| ->]]; done.
Qed.

(** ** Fingerprints *)

Lemma ref_fingerprint_inj r r' :
  ref_sep_free r = true → ref_sep_free r' = true →
  ref_fingerprint r = ref_fingerprint r' → r = r'.
Proof.
  unfold ref_sep_free, ref_fingerprint, sep. destruct r as [n s v], r' as [n' s' v']; simpl.
  intros [Hn Hs]%andb_true_iff [Hn' Hs']%andb_true_iff Heq.
  apply split_unique in Heq as [-> Heq]; [|by eauto using sep_free_elim..].
  apply split_unique in Heq as [-> Heq]; [|by eauto using sep_free_elim..].
  apply (inj pretty) in Heq. by subst.
Qed.

Lemma ref_fingerprint_free r c :
  ref_sep_free r = true → c = ascii_of_nat 0 ∨ c = ascii_of_nat 2 →
  char_free c (ref_fingerprint r) = true.
Proof.
  unfold ref_sep_free, ref_fingerprint, sep. intros [Hn Hs]%andb_true_iff Hc.
  rewrite !char_free_app, !andb_true_iff.
  split_and!; try (apply pretty_Z_free; tauto); try (apply sep_free_elim; [done|tauto]);
    by destruct Hc as [->| ->].
Qed.

Lemma ref_fingerprint_nonempty r : ref_fingerprint r ≠ "".
Proof. unfold ref_fingerprint, sep. by destruct (ref_name r). Qed.

(** ** Joining *)

Lemma str_join_cons sep s t l : str_join sep (s :: t :: l) = s +:+ sep +:+ str_join sep (t :: l).
Proof. done. Qed.

Lemma str_join_inj c (l l' : list string) :
  Forall (λ s, char_free c s = true ∧ s ≠ "") l →
  Forall (λ s, char_free c s = true ∧ s ≠ "") l' →
  str_join (String c "") l = str_join (String c "") l' → l = l'.
Proof.
  assert (∀ s, char_free c s = true → ∀ x y, s ≠ x +:+ String c y) as Hno.
  { intros s Hs x y ->. rewrite char_free_app in Hs. simpl in Hs.
    rewrite Ascii.eqb_refl in Hs. by rewrite andb_false_r in Hs. }
  intros Hl. revert l'. induction Hl as [|s l [Hs Hne] Hl IH]; intros l' Hl'.
  - destruct Hl' as [|s' l' [Hs' Hne'] Hl']; [done|]. destruct l'; simpl; [congruence|].
    by destruct s'.
  - destruct Hl' as [|s' l' [Hs' Hne'] Hl']; [destruct l; simpl; [congruence|by destruct s]|].
    destruct l as [|t l], l' as [|t' l']; rewrite ?str_join_cons.
    + simpl. by intros ->.
    + intros Heq. by apply Hno in Heq.
    + intros Heq. symmetry in Heq. by apply Hno in Heq.
    + intros [-> Heq]%split_unique; [|done..]. f_equal. by apply IH.
Qed.

Lemma str_join_free c d l :
  c ≠ d → Forall (λ s, char_free c s = true) l → char_free c (str_join (String d "") l) = true.
Proof.
  intros Hcd. induction 1 as [|s l Hs Hl IH]; [done|]. destruct l as [|t l]; [done|].
  rewrite str_join_cons, !char_free_app, Hs, IH. simpl.
  by rewrite (proj2 (Ascii.eqb_neq _ _)).
Qed.

Lemma fmap_perm_inj {A B} (f : A → B) (P : A → Prop) (l l' : list A) :
  (∀ x y, P x → P y → f x = f y → x = y) → Forall P l → Forall P l' →
  f <$> l ≡ₚ f <$> l' → l ≡ₚ l'.
Proof.
  intros Hinj Hl Hl' Hp. apply (Permutation_map_inv f (l1 := f <$> l) l') in Hp as (l3 & Heq & Hp).
  assert (Forall P l3) as H3 by (by rewrite <-Hp). rewrite Hp. clear Hp Hl'.
  enough (l = l3) as -> by done. revert l3 Heq H3.
  induction Hl as [|x l Hx Hl IH]; intros [|y l3]; simpl; try done.
  intros [= Hxy Heq] [Hy H3]%Forall_cons. f_equal; auto.
Qed.

(** Sorting strings is canonical: permutations sort to the same list. *)
Lemma sort_strings_perm l l' :
  l ≡ₚ l' → sort_by String.leb l = sort_by String.leb l'.
Proof.
  intros Hp.
  assert (AntiSymm eq (λ x y, String.leb x y = true)) by (intros ??; apply string_leb_antisym).
  apply (StronglySorted_unique (λ x y, String.leb x y = true) (sort_by String.leb l)).
  - apply sort_by_sorted; eauto using string_leb_total, string_leb_trans.
  - apply sort_by_sorted; eauto using string_leb_total, string_leb_trans.
  - by rewrite !sort_by_perm.
Qed.

(** The part of the key after the canonical text. *)
Definition key_tail (refs : list SchemaReference) (mt : option string) : string :=
  str_join (sep 2) (sort_by String.leb (ref_fingerprint <$> refs)) +:+ sep 0 +:+ default "" mt.

Lemma dedup_key_long c refs mt :
  (refs, mt) ≠ ([], None) →
  dedup_key c refs mt = c +:+ String (ascii_of_nat 0) (key_tail refs mt).
Proof. destruct refs, mt; done. Qed.

Lemma key_tail_inj refs mt refs' mt' :
  Forall (λ r, ref_sep_free r = true) refs → Forall (λ r, ref_sep_free r = true) refs' →
  key_tail refs mt = key_tail refs' mt' ↔ refs ≡ₚ refs' ∧ default "" mt = default "" mt'.
Proof.
  intros Hr Hr'. unfold key_tail.
  assert (∀ l, Forall (λ r, ref_sep_free r = true) l →
    Forall (λ s, char_free (ascii_of_nat 2) s = true ∧ s ≠ "")
      (sort_by String.leb (ref_fingerprint <$> l)) ∧
    char_free (ascii_of_nat 0)
      (str_join (sep 2) (sort_by String.leb (ref_fingerprint <$> l))) = true) as Hfree.
  { intros l Hl. rewrite Forall_forall in Hl. split.
    - rewrite sort_by_perm. apply Forall_fmap, Forall_forall. intros r Hin.
      split; [apply ref_fingerprint_free; auto|apply ref_fingerprint_nonempty].
    - apply str_join_free; [done|]. rewrite sort_by_perm. apply Forall_fmap, Forall_forall.
      intros r Hin. apply ref_fingerprint_free; auto. }
  destruct (Hfree _ Hr) as [H2 H0], (Hfree _ Hr') as [H2' H0']. split.
  - intros [Hj Hm]%split_unique; [|done..]. split; [|done].
    apply str_join_inj in Hj; [|done..].
    apply (fmap_perm_inj ref_fingerprint (λ r, ref_sep_free r = true));
      [apply ref_fingerprint_inj|done..|].
    rewrite <-(sort_by_perm String.leb (ref_fingerprint <$> refs)), Hj. by rewrite sort_by_perm.
  - intros [Hp ->]. f_equal. f_equal. apply sort_strings_perm. by rewrite Hp.
Qed.

Lemma sep_free_no_key c x refs mt :
  sep_free c = true → c ≠ x +:+ String (ascii_of_nat 0) (key_tail refs mt).
Proof.
  intros Hf ->. apply (sep_free_elim _ (ascii_of_nat 0)) in Hf; [|auto].
  rewrite char_free_app, andb_true_iff in Hf. by destruct Hf.
Qed.

Lemma forallb_Forall_true {A} (f : A → bool) l :
  forallb f l = true → Forall (λ x, f x = true) l.
Proof. rewrite forallb_forall, Forall_forall. setoid_rewrite list_elem_of_In. done. Qed.

(** Two schemas get one identity exactly when their canonical texts are
    equal, their references are the same up to order, and their message types
    agree, an absent one counting as the empty one when there are references.
    The separators must not occur in the texts, names and subjects. *)
Theorem dedup_key_identity c refs mt c' refs' mt' :
  sep_free c = true → sep_free c' = true →
  forallb ref_sep_free refs = true → forallb ref_sep_free refs' = true →
  dedup_key c refs mt = dedup_key c' refs' mt' ↔
  c = c' ∧ refs ≡ₚ refs' ∧ default "" mt = default "" mt' ∧
  (refs = [] → (mt = None ↔ mt' = None)).
Proof.
  intros Hc Hc' Hr%forallb_Forall_true Hr'%forallb_Forall_true.
  destruct (decide ((refs, mt) = ([], None))) as [[= -> ->]|H1],
           (decide ((refs', mt') = ([], None))) as [[= -> ->]|H2].
  - simpl. split; [intros ->; by split_and!|]. by intros [-> _].
  - rewrite (dedup_key_long c' refs') by done. split; [by intros ?%sep_free_no_key|].
    intros (_ & Hp & _ & Hmt). apply Permutation_nil in Hp as ->.
    by destruct H2; rewrite (proj1 (Hmt eq_refl)).
  - rewrite (dedup_key_long c refs) by done.
    split; [by intros Heq; symmetry in Heq; apply sep_free_no_key in Heq|].
    intros (_ & Hp & _ & Hmt). symmetry in Hp. apply Permutation_nil in Hp as ->.
    by destruct H1; rewrite (proj2 (Hmt eq_refl)).
  - rewrite !dedup_key_long by done. split.
    + intros Heq. apply split_unique in Heq as [-> Heq]; [|by eauto using sep_free_elim..].
      apply key_tail_inj in Heq as [Hp Hm]; [|done..].
      split_and!; [done..|]. intros ->. apply Permutation_nil in Hp as ->. destruct mt, mt'; done.
    + intros (-> & Hp & Hm & _). by rewrite (proj2 (key_tail_inj refs mt refs' mt' Hr Hr')).
Qed.

(** Reordered references share the identity; dropping one does not. *)
Lemma dedup_key_identity_witness :
  dedup_key "T" [mkSchemaReference "a" "s" 1; mkSchemaReference "b" "s" 2] None =
  dedup_key "T" [mkSchemaReference "b" "s" 2; mkSchemaReference "a" "s" 1] None ∧
  dedup_key "T" [mkSchemaReference "a" "s" 1] None ≠ dedup_key "T" [] None.
Proof.
  split.
  - apply dedup_key_identity; try reflexivity. split_and!; try done. apply perm_swap.
  - intros Heq. apply dedup_key_identity in Heq; try reflexivity.
    destruct Heq as (_ & Hp & _). symmetry in Hp. by apply Permutation_nil in Hp.
Defined.
