(* ===== verification/StoreSpec.v ===== *)
(** * What the registry state promises (store/mod.rs)

    The theorems about [StoreState] as a client sees it: reachability and the
    invariant, registration and its replay, identity and ids, deletion, and
    the queries. The lemmas behind them are in [Closure] and [StoreFacts]. *)

From stdpp Require Import base gmap strings list pretty sorting.
From Stdlib Require Import ZArith Lia Ascii.
From S2P Require Import Prelude Json Types Store Closure StoreFacts DedupKey.

(** A concrete format for the witnesses: the canonical form is the text, the
    empty text does not parse, every pair of schemas is compatible. *)
Definition echo_format : SchemaFormat := {|
  format_parse _ schema _ :=
    if String.eqb schema "" then Err (InvalidSchema "empty") else Ok schema;
  format_check _ _ _ _ _ := Ok tt;
  normalized_storage_form _ schema _ := Ok schema;
|}.

Section with_format.
Context `{SchemaFormat}.

(** ** The state machine of the store *)

(** One mutation of the live state or of a probe, as the callers make them. *)
Inductive store_step (s : StoreState) : StoreState → Prop :=
  | step_register subject ty schema refs mt r s' :
      (max_id s < i32_max)%Z → (next_version s subject < i32_max)%Z →
      register subject ty schema refs mt s = Ok (r, s') → store_step s s'
  | step_apply_schema value : value_i32 value → store_step s (apply_schema value s)
  | step_soft_delete subject : store_step s (soft_delete_subject subject s).2
  | step_permanent_delete subject v : store_step s (permanent_delete_version subject v s).2
  | step_observe_next subject n : in_i32 n → store_step s (observe_next_version subject n s)
  | step_set_global_compat l : store_step s (set_global_compat l s)
  | step_set_subject_compat subject l : store_step s (set_subject_compat subject l s)
  | step_clear_subject_compat subject : store_step s (clear_subject_compat subject s)
  | step_set_global_mode m : store_step s (set_global_mode m s)
  | step_set_subject_mode subject m : store_step s (set_subject_mode subject m s)
  | step_clear_subject_mode subject : store_step s (clear_subject_mode subject s)
  | step_clear_global_mode : store_step s (clear_global_mode s).

Lemma store_step_wf s s' : store_step s s' → store_wf s → store_wf s'.
Proof.
  destruct 1; intros; try (by apply set_compat_fields_wf); try (by apply set_mode_fields_wf);
    auto with krabka.
  - by eapply register_preserves.
  - by apply apply_schema_preserves.
Qed.

(** C2: every state the store can reach from its configured defaults, by any
    sequence of registrations, replayed records, deletions, high-water marks
    and setting changes, satisfies the invariant: histories are non-empty and
    strictly increasing in version, every entry's id is stored and at most
    [max_id], every version is below the subject's high-water mark, and the
    two identity indexes are inverse of each other. *)
Theorem store_reachable_wf compatibility mode s :
  rtc store_step (with_defaults compatibility mode) s → store_wf s.
Proof.
  intros Hr. pose proof (with_defaults_wf compatibility mode) as Hw. revert Hw.
  induction Hr; eauto using store_step_wf.
Qed.

(** ** Registration *)

(** C1: the write path's decision is what the reader replays. Let [register]
    on the probe add a version. Folding the record the writer produces for
    that decision into the same state gives exactly the probe's state when the
    id is new: the same ids, versions, histories, identity indexes and
    high-water marks. When the id was already in use (the identity was
    registered before, under this or another subject, perhaps in another
    text), the two agree on everything except that the replay stores the
    record's own text under the shared id; this needs that no version
    reachable from the schema's references is bound to that id itself. *)
Theorem register_refines_replay subject ty schema refs mt s r s' :
  store_wf s → (max_id s < i32_max)%Z → (next_version s subject < i32_max)%Z →
  register subject ty schema refs mt s = Ok (r, s') → s' ≠ s →
  let replayed :=
    apply_schema (schema_value subject (reg_version r) (reg_id r) ty schema refs mt false ∅) s in
  (by_id s !! reg_id r = None → replayed = s') ∧
  ((∀ rf, reachable s refs rf → id_of s (ref_subject rf) (ref_version rf) ≠ Some (reg_id r)) →
   replayed = set_by_id <[ reg_id r := mkRegisteredSchema ty schema refs mt ∅ ]> s').
Proof.
  intros Hs Hm Hn Hr Hne. split; [by apply register_replay_fresh|by apply register_replay].
Qed.

(** Registration is idempotent: a second registration of the same schema
    under the same subject returns the same id and version and changes
    nothing. *)
Theorem register_idempotent subject ty schema refs mt s r s' :
  store_wf s → (max_id s < i32_max)%Z →
  register subject ty schema refs mt s = Ok (r, s') →
  register subject ty schema refs mt s' = Ok (r, s').
Proof. apply register_again. Qed.

(** C6: one id per identity. Two registrations in a row, under any subjects,
    get the same id exactly when they are the same schema: their canonical
    texts are equal, their references are the same up to order, and their
    message types agree, an absent one counting as the empty one when there
    are references. The separators of the identity key must not occur in the
    texts, reference names and subjects. *)
Theorem register_id_identity subject1 ty1 schema1 refs1 mt1 subject2 ty2 schema2 refs2 mt2
    s r1 s1 r2 s2 res1 c1 res2 c2 :
  store_wf s → (max_id s < i32_max)%Z → (next_version s subject1 < i32_max)%Z →
  register subject1 ty1 schema1 refs1 mt1 s = Ok (r1, s1) →
  (max_id s1 < i32_max)%Z → (next_version s1 subject2 < i32_max)%Z →
  register subject2 ty2 schema2 refs2 mt2 s1 = Ok (r2, s2) →
  resolve_closure s refs1 = Ok res1 → format_parse ty1 schema1 res1 = Ok c1 →
  resolve_closure s1 refs2 = Ok res2 → format_parse ty2 schema2 res2 = Ok c2 →
  sep_free c1 = true → sep_free c2 = true →
  forallb ref_sep_free refs1 = true → forallb ref_sep_free refs2 = true →
  reg_id r1 = reg_id r2 ↔
  c1 = c2 ∧ refs1 ≡ₚ refs2 ∧ default "" mt1 = default "" mt2 ∧
  (refs1 = [] → (mt1 = None ↔ mt2 = None)).
Proof.
  intros Hs Hm Hn H1 Hm1 Hn1 H2 Hc1 Hp1 Hc2 Hp2 Hf1 Hf2 Hr1 Hr2.
  rewrite <-(dedup_key_identity c1 refs1 mt1 c2 refs2 mt2) by done.
  assert (store_wf s1) as Hs1 by (by eapply register_preserves).
  assert (store_wf s2) as Hs2 by (by eapply register_preserves).
  destruct (register_post _ _ _ _ _ _ _ _ Hs Hm H1) as (res1' & c1' & Hc1' & _ & Hp1' & Hk1 & _).
  destruct (register_post _ _ _ _ _ _ _ _ Hs1 Hm1 H2) as (res2' & c2' & Hc2' & _ & Hp2' & Hk2 & _).
  assert (c1' = c1) as -> by congruence. assert (c2' = c2) as -> by congruence.
  apply (register_keeps_key _ _ _ _ _ _ _ _ _ _ Hs1 Hm1 H2) in Hk1.
  split.
  - intros Heq. rewrite Heq in Hk1. eapply canon_key_inj; [apply (wf_canon _ Hs2)|done..].
  - intros Heq. rewrite Heq in Hk1. congruence.
Qed.

(** ** Replay *)

Lemma find_upsert_entry version id deleted vs (f : VersionEntry → bool) v :
  StronglySorted Z.lt (ve_version <$> vs) →
  List.find (λ e, (ve_version e =? v)%Z && f e) (upsert_entry version id deleted vs) =
  if (v =? version)%Z then
    if f (mkVersionEntry version id deleted) then Some (mkVersionEntry version id deleted) else None
  else List.find (λ e, (ve_version e =? v)%Z && f e) vs.
Proof.
  intros Hs. pose proof (upsert_entry_sorted version id deleted vs Hs) as Hs'.
  pose proof (elem_of_upsert_entry version id deleted vs) as Hin.
  set (g := λ e, (ve_version e =? v)%Z && f e).
  assert (∀ l x, StronglySorted Z.lt (ve_version <$> l) → x ∈ l → g x = true →
            List.find g l = Some x) as Huniq.
  { intros l x Hl Hx Hg. destruct (List.find g l) as [y|] eqn:E.
    - apply List.find_some in E as [Hy%list_elem_of_In Hgy]. f_equal.
      unfold g in *. eapply versions_unique; [done..|]. lia.
    - apply list_elem_of_In in Hx. eapply List.find_none in E; [|done]. congruence. }
  assert (∀ l, (∀ x, x ∈ l → g x = false) → List.find g l = None) as Hnone.
  { intros l Hl. destruct (List.find g l) as [y|] eqn:E; [|done].
    apply List.find_some in E as [Hy%list_elem_of_In Hgy]. apply Hl in Hy. congruence. }
  destruct (v =? version)%Z eqn:Hv.
  - destruct (f _) eqn:Hf.
    + apply Huniq; [done| |].
      * apply Hin; auto.
      * unfold g. simpl. rewrite Hf. lia.
    + apply Hnone. intros x [->|[_ Hx]]%Hin; unfold g; simpl; [rewrite Hf; lia|lia|done].
  - destruct (List.find g vs) as [y|] eqn:E.
    + apply List.find_some in E as [Hy%list_elem_of_In Hgy].
      apply Huniq; [done| |done]. apply Hin; [done|]. right. split; [done|]. unfold g in *. lia.
    + apply Hnone. intros x [->|[Hx _]]%Hin; [unfold g; simpl; lia| |done].
      apply list_elem_of_In in Hx. by eapply List.find_none in E.
Qed.

(** Replaying a [SCHEMA] record makes the store answer for its version
    with exactly the record's content, hidden when it is marked deleted, and
    leaves the binding of every other [(subject, version)] alone. *)
Theorem apply_schema_reads_back value s include_deleted :
  store_wf s →
  version (apply_schema value s) (sv_subject value) (Some (sv_version value)) include_deleted =
    (if include_deleted || negb (sv_deleted value) then
       Some (mkVersionedSchema (sv_id value) (sv_version value)
               (from_wire (sv_schema_type value)) (sv_schema value) (sv_references value)
               (sv_message_type value) (sv_extra value))
     else None) ∧
  ∀ subject v, (subject, v) ≠ (sv_subject value, sv_version value) →
    id_of (apply_schema value s) subject v = id_of s subject v.
Proof.
  intros Hs. destruct (replay_bound_frame value s) as (Hsub & Hid & _ & _).
  assert (∀ subject, StronglySorted Z.lt (ve_version <$> default [] (subjects s !! subject))) as Hso.
  { intros subject. destruct (subjects s !! subject) as [vs|] eqn:E; [|constructor].
    by apply (hist_sorted _ _ _ (wf_hist _ Hs _ _ E)). }
  rewrite apply_schema_unfold. unfold version, id_of. simpl. rewrite Hsub. split.
  - rewrite lookup_insert_eq. simpl. rewrite find_upsert_entry by done.
    rewrite Z.eqb_refl. unfold qualifies. simpl. case_match; [|done]. simpl.
    by rewrite Hid, replay_stored_by_id, lookup_insert_eq.
  - intros subject v Hne. destruct (decide (sv_subject value = subject)) as [Heq|]; cycle 1.
    { by rewrite lookup_insert_ne. }
    rewrite Heq, lookup_insert_eq. simpl.
    specialize (Hso (sv_subject value)). rewrite Heq in Hso.
    unfold find_version.
    pose proof (find_upsert_entry (sv_version value) (sv_id value) (sv_deleted value) _
      (λ _, true) v Hso) as Hf.
    rewrite (proj2 (Z.eqb_neq v (sv_version value))) in Hf by congruence.
    assert (∀ l : list VersionEntry, List.find (λ e, (ve_version e =? v)%Z && true) l =
              List.find (λ e, (ve_version e =? v)%Z) l) as Hext.
    { intros l. induction l as [|x l IH]; simpl; [done|]. by rewrite andb_true_r, IH. }
    rewrite !Hext in Hf. rewrite Hf. by destruct (subjects s !! subject).
Qed.
End with_format.

(** ** Deletion *)

Lemma find_none_iff {A} (f : A → bool) l : List.find f l = None ↔ ∀ x, x ∈ l → f x = false.
Proof.
  split.
  - intros E x Hx. apply list_elem_of_In in Hx. by eapply List.find_none in E.
  - intros Hl. destruct (List.find f l) as [y|] eqn:E; [|done].
    apply List.find_some in E as [Hy%list_elem_of_In Hgy]. apply Hl in Hy. congruence.
Qed.

Lemma find_filter_other v v' vs :
  v' ≠ v →
  find_version v' (List.filter (λ e, negb (ve_version e =? v)%Z) vs) = find_version v' vs.
Proof.
  intros Hne. unfold find_version. induction vs as [|e vs IH]; simpl; [done|].
  destruct (ve_version e =? v)%Z eqn:Ev; simpl; rewrite IH; [|done].
  rewrite (proj2 (Z.eqb_neq (ve_version e) v')); [done|]. lia.
Qed.

Lemma filter_nil_iff {A} (f : A → bool) l : List.filter f l = [] ↔ ∀ x, x ∈ l → f x = false.
Proof.
  induction l as [|y l IH]; simpl; [split; [|done]; by intros _ x ?%elem_of_nil|].
  destruct (f y) eqn:E; split; try done.
  - intros Hall. rewrite (Hall y) in E; [done|]. apply elem_of_cons. auto.
  - intros Hn x [->|Hx]%elem_of_cons; [done|]. by apply IH.
  - intros Hall. apply IH. intros x Hx. apply Hall, elem_of_cons. by right.
Qed.

Lemma permanent_delete_id_of subject v s subject' v' :
  id_of (permanent_delete_version subject v s).2 subject' v' =
  if decide ((subject', v') = (subject, v)) then None else id_of s subject' v'.
Proof.
  unfold id_of. rewrite permanent_delete_subjects.
  destruct (decide (subject = subject')) as [<-|Hne]; [|by rewrite decide_False by congruence].
  destruct (subjects s !! subject) as [vs|] eqn:E; simpl; [|by destruct (decide _)].
  set (vs' := List.filter _ vs).
  assert (ve_id <$> find_version v' vs' =
    if decide ((subject, v') = (subject, v)) then None else ve_id <$> find_version v' vs) as Hf.
  { destruct (decide (v' = v)) as [->|].
    - rewrite decide_True by done. unfold find_version.
      rewrite (proj2 (find_none_iff _ vs')); [done|]. unfold vs'.
      intros x [_ Hx]%list_elem_of_In%List.filter_In. by destruct (ve_version x =? v)%Z.
    - rewrite decide_False by congruence. unfold vs'. by rewrite find_filter_other. }
  rewrite <-Hf. destruct vs' as [|e vs'']; [|done]. by destruct (decide (vs = [])).
Qed.

Lemma permanent_delete_out subject v s :
  (permanent_delete_version subject v s).1 =
  match id_of s subject v with Some _ => Some v | None => None end.
Proof.
  unfold permanent_delete_version, id_of. simpl.
  destruct (subjects s !! subject) as [vs|]; simpl; [|done].
  unfold find_version. set (f := λ e, negb (ve_version e =? v)%Z).
  destruct (Nat.eqb _ _) eqn:Hlen; simpl.
  - apply Nat.eqb_eq, filter_length_id in Hlen.
    rewrite (proj2 (find_none_iff _ vs)); [done|].
    intros x Hx. rewrite <-Hlen in Hx. apply list_elem_of_In, List.filter_In in Hx as [_ Hx].
    unfold f in Hx. by destruct (ve_version x =? v)%Z.
  - destruct (List.find _ vs) eqn:E; simpl; [done|].
    rewrite Nat.eqb_neq in Hlen. exfalso. apply Hlen. f_equal.
    rewrite find_none_iff in E. clear Hlen. induction vs as [|x vs IH]; simpl; [done|].
    unfold f. rewrite (E x) by (apply elem_of_cons; auto). simpl. f_equal. apply IH.
    intros y Hy. apply E, elem_of_cons. auto.
Qed.

(** A registration returns a version of the history or the next one. *)
Lemma register_version `{SchemaFormat} subject ty schema refs mt s r s' :
  register subject ty schema refs mt s = Ok (r, s') →
  is_Some (id_of s subject (reg_version r)) ∨ reg_version r = next_version s subject.
Proof.
  intros (? & ? & _ & _ & [[Hf _]|(_ & id & s1 & Ha & Hap)])%register_inv; [left|right].
  - apply find_under_subject_canonical_Some in Hf as (_ & vs & e & Hvs & He & Hev & _).
    unfold id_of. rewrite Hvs. simpl. apply fmap_is_Some, not_eq_None_Some.
    unfold find_version. rewrite find_none_iff. intros Hall. specialize (Hall e He). lia.
  - injection Hap as <- <-. simpl. unfold allocate_id in Ha. case_match; by injection Ha as <- <-.
Qed.

(** A registration that changes the state hands out the next version. *)
Lemma register_new_version `{SchemaFormat} subject ty schema refs mt s r s' :
  register subject ty schema refs mt s = Ok (r, s') → s' ≠ s →
  reg_version r = next_version s subject.
Proof.
  intros (? & ? & _ & _ & [[_ ->]|(_ & id & s1 & Ha & Hap)])%register_inv; [done|].
  intros _. injection Hap as <- <-. simpl. unfold allocate_id in Ha. case_match; by injection Ha as <- <-.
Qed.

(** The version [v] of [subject] is below a recorded high-water mark. *)
Definition retired (subject : string) (v : Z) (s : StoreState) : Prop :=
  ∃ n, next_versions s !! subject = Some n ∧ (v < n)%Z.

Lemma retired_next subject v s : retired subject v s → (v < next_version s subject)%Z.
Proof. unfold next_version. by intros (n & -> & ?). Qed.

Lemma retired_same subject v s s' :
  next_versions s' = next_versions s → retired subject v s → retired subject v s'.
Proof. unfold retired. by intros ->. Qed.

Lemma retired_observe_next subject v subject' next s :
  retired subject v s → retired subject v (observe_next_version subject' next s).
Proof.
  intros (n & Hn & Hlt). destruct (observe_next_version_mono subject' next s subject n Hn) as (n' & ? & ?).
  exists n'. split; [done|lia].
Qed.

Lemma permanent_delete_retired subject v s :
  in_i32 v → (v < i32_max)%Z → retired subject v (permanent_delete_version subject v s).2.
Proof.
  intros Hv Hlt. destruct (observe_version_ge subject v s) as (n & Hn & Hle).
  apply (retired_same _ _ (observe_version subject v s)).
  - unfold permanent_delete_version. by repeat case_match.
  - exists n. split; [done|]. rewrite i32_saturating_succ_lt in Hle by done. lia.
Qed.

(** No operation of the store lowers a high-water mark. *)
Lemma store_step_retired `{SchemaFormat} subject v s s' :
  store_step s s' → retired subject v s → retired subject v s'.
Proof.
  destruct 1 as [sub ty schema refs mt r s' _ _ Hr|value|sub|sub v'| | | | | | | |];
    try (by apply retired_same); intros Hv.
  - apply register_inv in Hr as (? & ? & _ & _ & [[_ ->]|(_ & id & s1 & Ha & Hap)]); [done|].
    injection Hap as _ <-. eapply retired_same; [|apply retired_observe_next]; [done|].
    unfold allocate_id in Ha. case_match; by injection Ha as _ <-.
  - rewrite apply_schema_unfold. destruct (replay_bound_frame value s) as (_ & _ & _ & Hnv).
    eapply retired_same; [exact Hnv|]. by apply retired_observe_next.
  - eapply retired_same; [|exact Hv]. unfold soft_delete_subject. by repeat case_match.
  - apply (retired_same _ _ (observe_version sub v' s)); [|by apply retired_observe_next].
    unfold permanent_delete_version. by repeat case_match.
  - by apply retired_observe_next.
Qed.

(** C7: a permanent delete forgets exactly the version it names and reports it
    exactly when it was stored; and the number is retired for good: in every
    state the store reaches afterwards, by any registrations, replayed
    records, deletions and setting changes, the version is below the subject's
    high-water mark, and no registration that adds a version under the subject
    is given it. A registration answered with the deleted number can only be
    one that found a record of it replayed since. (At [i32::MAX] the mark is
    saturated.) *)
Theorem permanent_delete_spec `{SchemaFormat} subject v s :
  in_i32 v → (v < i32_max)%Z →
  let '(out, s') := permanent_delete_version subject v s in
  out = match id_of s subject v with Some _ => Some v | None => None end ∧
  (∀ subject' v', id_of s' subject' v' =
     if decide ((subject', v') = (subject, v)) then None else id_of s subject' v') ∧
  ∀ t, rtc store_step s' t →
    (v < next_version t subject)%Z ∧
    ∀ ty schema refs mt r t', register subject ty schema refs mt t = Ok (r, t') →
      (t' ≠ t → (v < reg_version r)%Z) ∧ (id_of t subject v = None → reg_version r ≠ v).
Proof.
  intros Hv Hlt. pose proof (permanent_delete_id_of subject v s) as Hids.
  pose proof (permanent_delete_retired subject v s Hv Hlt) as Hret.
  pose proof (permanent_delete_out subject v s) as Hout.
  destruct (permanent_delete_version subject v s) as [out s'] eqn:Hp. simpl in *.
  split_and!; [done..|]. intros t Hrt.
  assert (retired subject v t) as Hnext%retired_next
    by (clear -Hrt Hret; induction Hrt; eauto using store_step_retired).
  split; [done|]. intros ty schema refs mt r t' Hr. split.
  - intros Hne. by rewrite (register_new_version _ _ _ _ _ _ _ _ Hr Hne).
  - intros Hnone Heq. destruct (register_version _ _ _ _ _ _ _ _ Hr) as [[id Hid]|Heq'].
    + rewrite Heq in Hid. congruence.
    + lia.
Qed.

Lemma existsb_mark_deleted include_deleted (vs : list VersionEntry) :
  List.filter (qualifies include_deleted) (mark_deleted <$> vs) =
  if include_deleted then mark_deleted <$> vs else [].
Proof.
  induction vs as [|e vs IH]; [by destruct include_deleted|]. rewrite fmap_cons.
  destruct include_deleted; simpl in *; by rewrite IH.
Qed.

Lemma find_mark_deleted v (vs : list VersionEntry) :
  ve_id <$> find_version v (mark_deleted <$> vs) = ve_id <$> find_version v vs.
Proof.
  unfold find_version. induction vs as [|x l IH]; [done|]. simpl.
  by destruct (ve_version x =? v)%Z.
Qed.

(** A soft delete reports every version of the subject and hides them all
    from the default view while [deleted=true] still lists them; every stored
    [(subject, version)] stays resolvable as a reference, and the high-water
    marks stay. *)
Theorem soft_delete_subject_spec subject s vs :
  store_wf s → subjects s !! subject = Some vs →
  let '(out, s') := soft_delete_subject subject s in
  out = Some (ve_version <$> vs) ∧
  versions s' subject false = None ∧ versions s' subject true = out ∧
  (∀ refs, resolve_closure s' refs = resolve_closure s refs) ∧
  (∀ subject', next_version s' subject' = next_version s subject').
Proof.
  intros Hs Hvs. pose proof (hist_nonempty _ _ _ (wf_hist _ Hs _ _ Hvs)) as Hne.
  unfold soft_delete_subject. rewrite Hvs. destruct vs as [|e vs]; [done|].
  split_and!; [done| | | |done].
  - unfold versions. simpl. rewrite lookup_insert_eq. simpl. by rewrite existsb_mark_deleted.
  - unfold versions. simpl. rewrite lookup_insert_eq. simpl. rewrite existsb_mark_deleted.
    simpl. by rewrite mark_deleted_versions.
  - intros refs.
    assert (∀ subject' v', id_of (set_subjects <[subject := mark_deleted <$> e :: vs]> s) subject' v' =
              id_of s subject' v') as Hid.
    { intros subject' v'. unfold id_of. simpl. destruct (decide (subject = subject')) as [<-|].
      - rewrite lookup_insert_eq, Hvs. exact (find_mark_deleted v' (e :: vs)).
      - by rewrite lookup_insert_ne. }
    apply resolve_closure_same. intros r. unfold target. by rewrite Hid.
Qed.

(** ** Witnesses

    The theorems at concrete stores, with the [echo_format]. *)

Section witnesses.
#[local] Existing Instance echo_format.

Abbreviation demo_register subject ty schema s :=
  (@register echo_format subject ty schema [] None s).

Lemma default_store_wf : store_wf default_store.
Proof. apply with_defaults_wf. Qed.

Definition demo_store : StoreState :=
  match demo_register "orders" Avro "X" default_store with
  | Ok (_, s) => s
  | Err _ => default_store
  end.

Lemma demo_store_wf : store_wf demo_store.
Proof.
  eapply (register_preserves "orders" Avro "X" [] None default_store (mkRegistered 1 1));
    [apply default_store_wf|done|done|]. vm_compute. reflexivity.
Qed.

Lemma store_reachable_wf_witness : store_wf (soft_delete_subject "orders" demo_store).2.
Proof.
  apply (store_reachable_wf "BACKWARD" "READWRITE").
  eapply rtc_l; [|eapply rtc_l; [|apply rtc_refl]].
  - apply (step_register _ "orders" Avro "X" [] None (mkRegistered 1 1) demo_store);
      [done|done|]. vm_compute. reflexivity.
  - apply step_soft_delete.
Defined.

Lemma register_refines_replay_witness :
  apply_schema (schema_value "orders" 1 1 Avro "X" [] None false ∅) default_store = demo_store ∧
  by_id (apply_schema (schema_value "payments" 1 1 Json "X" [] None false ∅) demo_store) =
    {[ 1%Z := mkRegisteredSchema Json "X" [] None ∅ ]}.
Proof.
  split.
  - refine (proj1 (register_refines_replay "orders" Avro "X" [] None default_store (mkRegistered 1 1) demo_store _ _ _ _ _) _).
    + apply default_store_wf.
    + vm_compute. reflexivity.
    + vm_compute. reflexivity.
    + vm_compute. reflexivity.
    + intros Heq. apply (f_equal max_id) in Heq. vm_compute in Heq. discriminate.
    + vm_compute. reflexivity.
  - assert (∀ rf, reachable demo_store [] rf → False) as Hno
      by (induction 1 as [? Hin|]; [by apply elem_of_nil in Hin|done]).
    destruct (register_refines_replay "payments" Json "X" [] None demo_store (mkRegistered 1 1)
      (append_version "payments" 1 demo_store).2 demo_store_wf eq_refl eq_refl) as [_ Hp].
    + vm_compute. reflexivity.
    + intros Heq. apply (f_equal (λ s, next_versions s !! "payments")) in Heq.
      vm_compute in Heq. discriminate.
    + refine (eq_trans (f_equal by_id (Hp _)) _).
      * intros rf Hrf. by destruct (Hno rf Hrf).
      * vm_compute. reflexivity.
Defined.

Lemma register_idempotent_witness :
  demo_register "orders" Avro "X" demo_store = Ok (mkRegistered 1 1, demo_store).
Proof.
  apply (register_idempotent "orders" Avro "X" [] None default_store).
  - apply default_store_wf.
  - vm_compute. reflexivity.
  - vm_compute. reflexivity.
Defined.

Lemma register_id_identity_witness :
  1%Z = 1%Z ↔
  "X" = "X" ∧ @nil SchemaReference ≡ₚ [] ∧ default "" (@None string) = default "" None ∧
  (@nil SchemaReference = [] → (@None string = None ↔ @None string = None)).
Proof.
  refine (register_id_identity "orders" Avro "X" [] None "payments" Json "X" [] None
    default_store (mkRegistered 1 1) demo_store (mkRegistered 1 1) _ [] "X" [] "X"
    default_store_wf _ _ _ _ _ _ _ _ _ _ _ _ _ _);
    try (vm_compute; reflexivity).
Defined.

Lemma apply_schema_reads_back_witness :
  version (apply_schema (schema_value "orders" 3 9 Json "Y" [] None true ∅) demo_store)
    "orders" (Some 3%Z) false = None.
Proof.
  apply (apply_schema_reads_back (schema_value "orders" 3 9 Json "Y" [] None true ∅)
           demo_store false demo_store_wf).
Defined.

Lemma permanent_delete_spec_witness :
  let '(out, s') := permanent_delete_version "orders" 1 demo_store in
  out = Some 1%Z ∧
  (1 < next_version (observe_next_version "orders" 1 (soft_delete_subject "orders" s').2) "orders")%Z.
Proof.
  pose proof (permanent_delete_spec "orders" 1 demo_store) as Hp.
  destruct (permanent_delete_version "orders" 1 demo_store) as [out s'].
  destruct Hp as (-> & _ & Hn); [done|done|]. split; [reflexivity|].
  apply Hn. eapply rtc_l; [apply (step_soft_delete _ "orders")|].
  eapply rtc_l; [by apply (step_observe_next _ "orders" 1)|apply rtc_refl].
Defined.

Lemma soft_delete_subject_spec_witness :
  let '(out, s') := soft_delete_subject "orders" demo_store in
  out = Some [1%Z] ∧ versions s' "orders" false = None.
Proof.
  pose proof (soft_delete_subject_spec "orders" demo_store [mkVersionEntry 1 1 false]
    demo_store_wf eq_refl) as Hp.
  destruct (soft_delete_subject "orders" demo_store) as [out s'].
  destruct Hp as (-> & Hv & _). split; [reflexivity|exact Hv].
Defined.

(** ** Two behaviours of the identity at the edges *)

(** The identity does not include the schema type. A text that two
    formats accept with the same canonical form gets one id for both: after it
    is registered as Avro under one subject, registering it as JSON under
    another subject returns the same id, and replaying that second record
    turns the first subject's version into a JSON schema. *)
Theorem register_shares_id_across_types :
  ∃ r s',
    demo_register "payments" Json "X" demo_store = Ok (r, s') ∧ reg_id r = 1%Z ∧
    vs_ty <$> version demo_store "orders" (Some 1%Z) false = Some Avro ∧
    vs_ty <$> version
      (apply_schema (schema_value "payments" (reg_version r) (reg_id r) Json "X" [] None false ∅)
         demo_store) "orders" (Some 1%Z) false = Some Json.
Proof. eexists _, _. repeat split; vm_compute; reflexivity. Qed.

(** The subject at the last version number: replaying version [i32::MAX]. *)
Definition saturated_store : StoreState :=
  apply_schema (schema_value "orders" i32_max 1 Avro "X" [] None false ∅) default_store.

(** The version counter saturates. Once a subject holds version
    [i32::MAX], registering another schema under it is given that same
    version, and replaying the record replaces the schema the version held. *)
Theorem register_reuses_saturated_version :
  ∃ r s',
    demo_register "orders" Avro "Y" saturated_store = Ok (r, s') ∧
    reg_version r = i32_max ∧
    vs_schema <$> version saturated_store "orders" (Some i32_max) false = Some "X" ∧
    vs_schema <$> version
      (apply_schema (schema_value "orders" (reg_version r) (reg_id r) Avro "Y" [] None false ∅)
         saturated_store) "orders" (Some i32_max) false = Some "Y".
Proof. eexists _, _. repeat split; vm_compute; reflexivity. Qed.
End witnesses.
