(* ===== verification/StoreQueries.v ===== *)
(** * The queries of the registry state (store/mod.rs)

    [versions], [version], [schema_by_id], [schema_id_subject_versions],
    [all_schemas] and [referenced_by] against declarative descriptions of
    what they should return. *)

From stdpp Require Import base gmap strings list pretty sorting.
From Stdlib Require Import ZArith Lia.
From S2P Require Import Prelude Json Types Store Closure StoreFacts StoreSpec.

(** [e] is an entry of [subject] that a query with [include_deleted] sees. *)
Definition visible_entry (s : StoreState) (include_deleted : bool) (subject : string)
    (e : VersionEntry) : Prop :=
  ∃ vs, subjects s !! subject = Some vs ∧ e ∈ vs ∧ qualifies include_deleted e = true.

Definition entry_schema (e : VersionEntry) (reg : RegisteredSchema) : VersionedSchema :=
  mkVersionedSchema (ve_id e) (ve_version e) (rs_ty reg) (rs_schema reg)
    (rs_references reg) (rs_message_type reg) (rs_extra reg).

Lemma elem_of_filter_bool {A} (f : A → bool) l x :
  x ∈ List.filter f l ↔ x ∈ l ∧ f x = true.
Proof. rewrite !list_elem_of_In. apply List.filter_In. Qed.

(** ** One version *)

Lemma version_spec s subject v include_deleted x :
  store_wf s →
  version s subject (Some v) include_deleted = Some x ↔
  ∃ e reg, visible_entry s include_deleted subject e ∧ ve_version e = v ∧
           by_id s !! ve_id e = Some reg ∧ x = entry_schema e reg.
Proof.
  intros Hs. unfold version. split.
  - intros (vs & Hvs & (e & He & (reg & Hr & [= <-])%bind_Some)%bind_Some)%bind_Some.
    apply List.find_some in He as [Hin%list_elem_of_In Hq].
    exists e, reg. split_and!; [|lia|done|done]. exists vs. split_and!; [done..|].
    by destruct (qualifies include_deleted e), (ve_version e =? v)%Z.
  - intros (e & reg & (vs & Hvs & He & Hq) & <- & Hr & ->). rewrite Hvs. simpl.
    destruct (List.find _ vs) as [e'|] eqn:Hf.
    + apply List.find_some in Hf as [Hin%list_elem_of_In Hq'].
      assert (e' = e) as ->; [|simpl; by rewrite Hr].
      eapply versions_unique; [apply (hist_sorted _ _ _ (wf_hist _ Hs _ _ Hvs))|done..|]. lia.
    + rewrite find_none_iff in Hf. specialize (Hf e He). rewrite Hq, Z.eqb_refl in Hf. done.
Qed.

Lemma versions_list s subject include_deleted vs :
  subjects s !! subject = Some vs →
  versions s subject include_deleted =
  match ve_version <$> List.filter (qualifies include_deleted) vs with
  | [] => None | out => Some out end.
Proof. unfold versions. by intros ->. Qed.

(** The version list is what can be asked for by number. *)
Lemma elem_of_versions s subject include_deleted l v :
  store_wf s → versions s subject include_deleted = Some l →
  v ∈ l ↔ is_Some (version s subject (Some v) include_deleted).
Proof.
  intros Hs. destruct (subjects s !! subject) as [vs|] eqn:Hvs.
  2: { unfold versions. by rewrite Hvs. }
  rewrite (versions_list _ _ _ _ Hvs). intros Hl.
  assert (l = ve_version <$> List.filter (qualifies include_deleted) vs) as ->
    by (destruct (_ <$> _); congruence). clear Hl.
  rewrite list_elem_of_fmap. split.
  - intros (e & -> & [He Hq]%elem_of_filter_bool).
    destruct (hist_stored _ _ _ (wf_hist _ Hs _ _ Hvs) e He) as [reg Hr].
    exists (entry_schema e reg). apply version_spec; [done|].
    exists e, reg. split_and!; try done. by exists vs.
  - intros [x (e & reg & (vs' & Hvs' & He & Hq) & <- & Hr & ->)%version_spec]; [|done].
    exists e. split; [done|]. apply elem_of_filter_bool. split; [congruence|done].
Qed.

(** [rfind] is the last element that satisfies the predicate. *)
Lemma rfind_last {A} (f : A → bool) l : rfind f l = last (List.filter f l).
Proof.
  unfold rfind. induction l as [|x l IH] using rev_ind; [done|].
  rewrite reverse_app, List.filter_app. simpl. destruct (f x).
  - by rewrite last_snoc.
  - by rewrite app_nil_r.
Qed.

Lemma last_max (l : list Z) m :
  StronglySorted Z.lt l → last l = Some m → ∀ x, x ∈ l → (x ≤ m)%Z.
Proof.
  intros Hs. revert m. induction Hs as [|y l Hs IH Hall]; intros m; [done|].
  intros Hl x [->|Hx]%elem_of_cons.
  - destruct l as [|z l]; [simpl in Hl; by injection Hl as <-|].
    rewrite last_cons_cons in Hl. apply last_Some_elem_of in Hl.
    rewrite Forall_forall in Hall. specialize (Hall m Hl). simpl in Hall. lia.
  - destruct l as [|z l]; [by apply elem_of_nil in Hx|].
    rewrite last_cons_cons in Hl. by apply IH.
Qed.

Lemma latest_version_facts s subject include_deleted :
  store_wf s →
  match version s subject None include_deleted with
  | Some x =>
      ∃ l, versions s subject include_deleted = Some l ∧ StronglySorted Z.lt l ∧
        vs_version x ∈ l ∧ (∀ v, v ∈ l → (v ≤ vs_version x)%Z) ∧
        version s subject (Some (vs_version x)) include_deleted = Some x
  | None => versions s subject include_deleted = None
  end.
Proof.
  intros Hs. destruct (subjects s !! subject) as [vs|] eqn:Hvs.
  2: { unfold version, versions. by rewrite Hvs. }
  rewrite (versions_list _ _ _ _ Hvs). unfold version at 1. rewrite Hvs. simpl. rewrite rfind_last.
  pose proof (wf_hist _ Hs _ _ Hvs) as Hw.
  set (out := List.filter (qualifies include_deleted) vs).
  assert (StronglySorted Z.lt (ve_version <$> out)) as Hsort.
  { eapply StronglySorted_sublist; [|apply (hist_sorted _ _ _ Hw)].
    apply sublist_fmap_mono, filter_sublist. }
  destruct (last out) as [e|] eqn:Hl; simpl.
  2: { apply last_None in Hl. by rewrite Hl. }
  assert (e ∈ vs ∧ qualifies include_deleted e = true) as [He Hq].
  { apply elem_of_filter_bool. fold out. by apply last_Some_elem_of. }
  destruct (hist_stored _ _ _ Hw e He) as [reg Hr]. rewrite Hr. simpl.
  exists (ve_version <$> out).
  assert (last (ve_version <$> out) = Some (ve_version e)) as Hlast by (by rewrite fmap_last, Hl).
  split_and!.
  - destruct (ve_version <$> out) eqn:E; [done|done].
  - done.
  - by apply last_Some_elem_of.
  - by apply last_max.
  - apply version_spec; [done|]. exists e, reg. split_and!; try done. by exists vs.
Qed.

(** ** By id *)

Lemma elem_of_subject_versions s id include_deleted subject v :
  (subject, v) ∈ schema_id_subject_versions s id include_deleted ↔
  ∃ e, visible_entry s include_deleted subject e ∧ ve_version e = v ∧ ve_id e = id.
Proof.
  unfold schema_id_subject_versions. rewrite elem_of_flat_map. split.
  - intros ([subject' vs] & Hin%elem_of_btree_iter & (e & [= -> ->] & He)%list_elem_of_fmap).
    apply elem_of_filter_bool in He as [He Hq]. simpl in *. exists e.
    split_and!; [|done|lia]. exists vs. split_and!; [done..|].
    by destruct (qualifies include_deleted e), (ve_id e =? id)%Z.
  - intros (e & (vs & Hvs & He & Hq) & <- & <-). exists (subject, vs).
    split; [by apply elem_of_btree_iter|]. apply list_elem_of_fmap. exists e. split; [done|].
    apply elem_of_filter_bool. split; [done|]. by rewrite Z.eqb_refl, Hq.
Qed.

Lemma existsb_visible s id include_deleted :
  existsb (λ v, (ve_id v =? id)%Z && qualifies include_deleted v)
    (concat (btree_values (subjects s))) = true ↔
  ∃ subject e, visible_entry s include_deleted subject e ∧ ve_id e = id.
Proof.
  rewrite existsb_exists. split.
  - intros (e & Hin & Hq). apply in_concat in Hin as (vs & Hvs & He).
    apply list_elem_of_In, elem_of_btree_values in Hvs as [subject Hvs].
    exists subject, e. split; [|lia]. exists vs. split_and!; [done|by apply list_elem_of_In|].
    by destruct (qualifies include_deleted e), (ve_id e =? id)%Z.
  - intros (subject & e & (vs & Hvs & He & Hq) & <-). exists e. split.
    + apply in_concat. exists vs. split; [|by apply list_elem_of_In].
      apply list_elem_of_In, elem_of_btree_values. eauto.
    + by rewrite Z.eqb_refl, Hq.
Qed.

(** An id resolves to a schema exactly when some visible version is bound
    to it, and it then gives that version's type, text, references and message
    type; [schema_id_subject_versions] lists exactly those versions. *)
Lemma schema_by_id_facts s id include_deleted :
  store_wf s →
  (is_Some (schema_by_id s id include_deleted) ↔
     schema_id_subject_versions s id include_deleted ≠ []) ∧
  ∀ subject v, (subject, v) ∈ schema_id_subject_versions s id include_deleted ↔
    ∃ x, version s subject (Some v) include_deleted = Some x ∧ vs_id x = id ∧
         schema_by_id s id include_deleted =
           Some (vs_ty x, vs_schema x, vs_references x, vs_message_type x).
Proof.
  intros Hs.
  assert (∀ subject e, visible_entry s include_deleted subject e → is_Some (by_id s !! ve_id e)) as Hst.
  { intros subject e (vs & Hvs & He & _). by apply (hist_stored _ _ _ (wf_hist _ Hs _ _ Hvs)). }
  assert (∀ subject e reg, visible_entry s include_deleted subject e → by_id s !! ve_id e = Some reg →
    schema_by_id s (ve_id e) include_deleted =
      Some (rs_ty reg, rs_schema reg, rs_references reg, rs_message_type reg)) as Hfound.
  { intros subject e reg Hv Hr. unfold schema_by_id. rewrite Hr. simpl.
    rewrite (proj2 (existsb_visible s (ve_id e) include_deleted)) by eauto. done. }
  split.
  - split.
    + unfold schema_by_id. intros [x (reg & Hr & Hx)%bind_Some]. case_match eqn:He; [|done].
      apply existsb_visible in He as (subject & e & Hv & <-).
      intros Hnil. assert ((subject, ve_version e) ∈
        schema_id_subject_versions s (ve_id e) include_deleted) as Hin
        by (apply elem_of_subject_versions; eauto).
      rewrite Hnil in Hin. by apply elem_of_nil in Hin.
    + destruct (schema_id_subject_versions _ _ _) as [|[subject v] l] eqn:E; [done|]. intros _.
      assert ((subject, v) ∈ schema_id_subject_versions s id include_deleted) as Hin
        by (rewrite E; apply elem_of_cons; auto).
      apply elem_of_subject_versions in Hin as (e & Hv & _ & <-).
      destruct (Hst _ _ Hv) as [reg Hr]. rewrite (Hfound _ _ _ Hv Hr). eauto.
  - intros subject v. rewrite elem_of_subject_versions. split.
    + intros (e & Hv & <- & <-). destruct (Hst _ _ Hv) as [reg Hr].
      exists (entry_schema e reg). split_and!; [|done|by eapply Hfound].
      apply version_spec; eauto 6.
    + intros (x & (e & reg & Hv & <- & Hr & ->)%version_spec & <- & _); [|done]. eauto.
Qed.

(** ** Listings *)

(** Strictly before in the order of [GET /schemas]: by subject, then version. *)
Definition listed_lt (a b : ListedSchema) : Prop :=
  listed_leb a b = true ∧ (ls_subject a, ls_version a) ≠ (ls_subject b, ls_version b).

Lemma listed_leb_iff a b :
  listed_leb a b = true ↔
  String.leb (ls_subject a) (ls_subject b) = true ∧
  (ls_subject a = ls_subject b → (ls_version a ≤ ls_version b)%Z).
Proof.
  unfold listed_leb, String.leb.
  destruct (String.compare (ls_subject a) (ls_subject b)) eqn:E; split; try done.
  - intros Hle. split; [done|]. lia.
  - intros [_ Hle]. apply String.compare_eq_iff in E. specialize (Hle E). lia.
  - intros _. split; [done|]. intros Heq. rewrite Heq in E.
    pose proof (String.compare_antisym (ls_subject b) (ls_subject b)) as Ha.
    by rewrite E in Ha.
  - by intros [? _].
Qed.

Lemma listed_leb_total a b : listed_leb a b = true ∨ listed_leb b a = true.
Proof.
  rewrite !listed_leb_iff. destruct (decide (ls_subject a = ls_subject b)) as [->|Hne].
  - destruct (Z.le_ge_cases (ls_version a) (ls_version b)); [left|right];
      (split; [|done]); destruct (string_leb_total (ls_subject b) (ls_subject b)); done.
  - destruct (string_leb_total (ls_subject a) (ls_subject b)); [left|right]; naive_solver.
Qed.

Lemma listed_leb_trans a b c :
  listed_leb a b = true → listed_leb b c = true → listed_leb a c = true.
Proof.
  rewrite !listed_leb_iff. intros [H1 H1'] [H2 H2']. split; [by eapply string_leb_trans|].
  intros Heq. rewrite Heq in *. assert (ls_subject c = ls_subject b) as Hcb
    by (by apply string_leb_antisym).
  rewrite Hcb in *. specialize (H1' eq_refl). specialize (H2' eq_refl). lia.
Qed.

(** One listed row. *)
Definition listed (subject : string) (e : VersionEntry) (reg : RegisteredSchema) : ListedSchema :=
  mkListedSchema subject (ve_version e) (ve_id e) (rs_ty reg) (rs_schema reg)
    (rs_references reg) (rs_message_type reg).

Lemma elem_of_all_schemas s include_deleted x :
  x ∈ all_schemas s include_deleted ↔
  ∃ subject e reg, visible_entry s include_deleted subject e ∧
    by_id s !! ve_id e = Some reg ∧ x = listed subject e reg.
Proof.
  unfold all_schemas. rewrite elem_of_sort_by, elem_of_flat_map. split.
  - intros ([subject vs] & Hvs%elem_of_btree_iter & (e & He & Hx)%list_elem_of_omap). simpl in *.
    case_match eqn:Hq; [|done]. apply bind_Some in Hx as (reg & Hr & [= <-]).
    exists subject, e, reg. split_and!; [|done..]. by exists vs.
  - intros (subject & e & reg & (vs & Hvs & He & Hq) & Hr & ->). exists (subject, vs).
    split; [by apply elem_of_btree_iter|]. apply list_elem_of_omap. exists e. split; [done|].
    simpl. by rewrite Hq, Hr.
Qed.

(** The rows of one subject, before the sort. *)
Definition subject_rows (s : StoreState) (include_deleted : bool)
    (p : string * list VersionEntry) : list ListedSchema :=
  omap (λ v,
    if qualifies include_deleted v then reg ← by_id s !! ve_id v; Some (listed p.1 v reg)
    else None) p.2.

Lemma elem_of_subject_rows s include_deleted p x :
  x ∈ subject_rows s include_deleted p →
  ls_subject x = p.1 ∧ ls_version x ∈ ve_version <$> p.2.
Proof.
  unfold subject_rows. intros (e & He & Hx)%list_elem_of_omap. case_match; [|done].
  apply bind_Some in Hx as (reg & _ & [= <-]). simpl. split; [done|].
  apply list_elem_of_fmap. eauto.
Qed.

Lemma subject_rows_sorted s include_deleted p :
  StronglySorted Z.lt (ve_version <$> p.2) →
  StronglySorted listed_lt (subject_rows s include_deleted p).
Proof.
  destruct p as [subject vs]. simpl.
  assert (∀ v, ve_version v = ve_version v) as _ by done.
  induction vs as [|e vs IH]; intros Hs; [constructor|].
  rewrite fmap_cons in Hs. apply StronglySorted_inv in Hs as [Hs Hall].
  unfold subject_rows. simpl.
  assert (StronglySorted listed_lt (subject_rows s include_deleted (subject, vs))) as IH' by auto.
  unfold subject_rows in IH'. simpl in IH'.
  destruct (qualifies include_deleted e); [|done].
  destruct (by_id s !! ve_id e) as [reg|]; simpl; [|done].
  constructor; [done|]. apply Forall_forall. intros x Hx.
  apply (elem_of_subject_rows s include_deleted (subject, vs)) in Hx as [Hsub Hv]. simpl in *.
  rewrite Forall_forall in Hall. specialize (Hall _ Hv). simpl in Hall.
  unfold listed_lt. rewrite listed_leb_iff. simpl. rewrite Hsub. split; [split|].
  - destruct (string_leb_total subject subject); done.
  - lia.
  - intros [= Heq]. lia.
Qed.

Lemma StronglySorted_app {A} (R : A → A → Prop) l1 l2 :
  StronglySorted R l1 → StronglySorted R l2 → (∀ x y, x ∈ l1 → y ∈ l2 → R x y) →
  StronglySorted R (l1 ++ l2).
Proof.
  induction 1 as [|x l Hs IH Hall]; intros H2 Hx; simpl; [done|].
  constructor; [apply IH; [done|]; intros; apply Hx; [apply elem_of_cons; auto|done]|].
  apply Forall_app. split; [done|]. apply Forall_forall. intros y Hy.
  apply Hx; [apply elem_of_cons; auto|done].
Qed.

Lemma btree_iter_keys_NoDup {A} (m : gmap string A) : NoDup (btree_iter m).*1.
Proof.
  unfold btree_iter. rewrite (fmap_Permutation fst _ _ (sort_by_perm pair_leb (map_to_list m))).
  apply NoDup_fst_map_to_list.
Qed.

Lemma flat_rows_sorted s include_deleted l :
  StronglySorted (λ p q, pair_leb p q = true) l → NoDup l.*1 →
  (∀ p, p ∈ l → StronglySorted Z.lt (ve_version <$> p.2)) →
  StronglySorted listed_lt (flat_map (subject_rows s include_deleted) l).
Proof.
  induction 1 as [|p l Hs IH Hall]; intros Hnd Hv; simpl; [constructor|].
  rewrite fmap_cons in Hnd. apply NoDup_cons in Hnd as [Hp Hnd].
  apply StronglySorted_app.
  - apply subject_rows_sorted, Hv, elem_of_cons. auto.
  - apply IH; [done|]. intros q Hq. apply Hv, elem_of_cons. auto.
  - intros x y [Hx _]%elem_of_subject_rows (q & Hq & [Hy _]%elem_of_subject_rows)%elem_of_flat_map.
    rewrite Forall_forall in Hall. specialize (Hall q Hq).
    assert (p.1 ≠ q.1). { intros Heq. apply Hp. rewrite Heq. apply list_elem_of_fmap. eauto. }
    unfold listed_lt. rewrite listed_leb_iff, Hx, Hy. split; [split; [done|]|]; congruence.
Qed.

(** [GET /schemas] lists every visible version of every subject once,
    with the version's own content, in strictly increasing order of subject
    and version. *)
Lemma all_schemas_facts s include_deleted :
  store_wf s →
  StronglySorted listed_lt (all_schemas s include_deleted) ∧
  ∀ x, x ∈ all_schemas s include_deleted ↔
    ∃ v, version s (ls_subject x) (Some (ls_version x)) include_deleted = Some v ∧
      x = mkListedSchema (ls_subject x) (vs_version v) (vs_id v) (vs_ty v) (vs_schema v)
            (vs_references v) (vs_message_type v).
Proof.
  intros Hs. split.
  - unfold all_schemas. change (flat_map _ _) with
      (flat_map (subject_rows s include_deleted) (btree_iter (subjects s))).
    assert (StronglySorted listed_lt
      (flat_map (subject_rows s include_deleted) (btree_iter (subjects s)))) as Hsort.
    { apply flat_rows_sorted; [apply btree_iter_sorted|apply btree_iter_keys_NoDup|].
      intros [subject vs] Hp%elem_of_btree_iter. simpl.
      apply (hist_sorted _ _ _ (wf_hist _ Hs _ _ Hp)). }
    rewrite sort_by_sorted_id; [done|].
    induction Hsort as [|x l Hl IH Hall]; constructor; [done|].
    eapply Forall_impl; [done|]. by intros y [? _].
  - intros x. rewrite elem_of_all_schemas. split.
    + intros (subject & e & reg & Hv & Hr & ->). exists (entry_schema e reg). split; [|done].
      apply version_spec; eauto 6.
    + intros (v & (e & reg & Hv & He & Hr & ->)%version_spec & Hx); [|done].
      exists (ls_subject x), e, reg. split_and!; done.
Qed.

(** ** Reverse references *)

Lemma references_target_iff subject v reg :
  references_target subject v reg = true ↔
  ∃ r, r ∈ rs_references reg ∧ ref_subject r = subject ∧ ref_version r = v.
Proof.
  unfold references_target. rewrite existsb_exists. setoid_rewrite <-list_elem_of_In.
  setoid_rewrite andb_true_iff. setoid_rewrite String.eqb_eq. setoid_rewrite Z.eqb_eq. done.
Qed.

Section referenced_by.
Context (s : StoreState) (subject : string) (v : Z) (include_deleted : bool).

(** [e] is a visible entry whose schema refers to [(subject, v)]. *)
Definition refers (e : VersionEntry) : Prop :=
  qualifies include_deleted e = true ∧
  ∃ reg, by_id s !! ve_id e = Some reg ∧ references_target subject v reg = true.

Abbreviation visit_entry := (λ ids entry,
  if ve_deleted entry && negb include_deleted then ids
  else match by_id s !! ve_id entry with
       | Some reg =>
           if references_target subject v reg then push_unique (ve_id entry) ids else ids
       | None => ids
       end).

Lemma visit_entry_spec ids e id :
  id ∈ visit_entry ids e ↔ id ∈ ids ∨ (refers e ∧ ve_id e = id).
Proof.
  unfold refers, qualifies. simpl.
  destruct (ve_deleted e), include_deleted; simpl;
    try (destruct (by_id s !! ve_id e) as [reg|] eqn:Hr;
         [destruct (references_target subject v reg) eqn:Ht; [rewrite elem_of_push_unique|]|]);
    (split; [intuition (subst; eauto 6)
            |intros [?|[[? (reg' & ? & ?)] ?]]; simplify_eq; auto; congruence]).
Qed.

Lemma visit_entry_NoDup ids e : NoDup ids → NoDup (visit_entry ids e).
Proof. intros. simpl. repeat case_match; auto using NoDup_push_unique. Qed.

Lemma visit_all_spec vss ids id :
  id ∈ foldl (λ ids vs, foldl visit_entry ids vs) ids vss ↔
  id ∈ ids ∨ ∃ vs e, vs ∈ vss ∧ e ∈ vs ∧ refers e ∧ ve_id e = id.
Proof.
  revert ids. induction vss as [|vs vss IH]; intros ids; simpl.
  { split; [auto|]. intros [?|(? & ? & ?%elem_of_nil & _)]; done. }
  rewrite IH. assert (∀ ids, id ∈ foldl visit_entry ids vs ↔
    id ∈ ids ∨ ∃ e, e ∈ vs ∧ refers e ∧ ve_id e = id) as Hvs.
  { clear. induction vs as [|e vs IH]; intros ids; simpl.
    - split; [auto|]. intros [?|(? & ?%elem_of_nil & _)]; done.
    - rewrite IH, visit_entry_spec. setoid_rewrite elem_of_cons. naive_solver. }
  rewrite Hvs. setoid_rewrite elem_of_cons. naive_solver.
Qed.

Lemma visit_all_NoDup vss ids :
  NoDup ids → NoDup (foldl (λ ids vs, foldl visit_entry ids vs) ids vss).
Proof.
  revert ids. induction vss as [|vs vss IH]; intros ids Hnd; simpl; [done|]. apply IH. clear IH.
  revert ids Hnd. induction vs as [|e vs IH]; intros ids Hnd; simpl; [done|].
  apply IH. by apply visit_entry_NoDup.
Qed.

(** [referenced_by] returns, in strictly increasing order, exactly the
    ids of the visible versions whose own reference list names
    [(subject, version)]: the delete guard misses no referrer. *)
Theorem referenced_by_spec :
  StronglySorted Z.lt (referenced_by s subject v include_deleted) ∧
  ∀ id, id ∈ referenced_by s subject v include_deleted ↔
    ∃ subject' e reg r, visible_entry s include_deleted subject' e ∧ ve_id e = id ∧
      by_id s !! id = Some reg ∧ r ∈ rs_references reg ∧
      ref_subject r = subject ∧ ref_version r = v.
Proof.
  unfold referenced_by. set (l := foldl _ _ _). split.
  - assert (NoDup (sort_by Z.leb l)) as Hnd.
    { rewrite sort_by_perm. apply visit_all_NoDup. constructor. }
    pose proof (sort_by_sorted Z.leb ltac:(lia) ltac:(lia) l) as Hs. revert Hnd.
    induction Hs as [|x l' Hs IH Hall]; [constructor|]. intros [Hx Hnd]%NoDup_cons.
    constructor; [auto|]. rewrite Forall_forall in *. intros y Hy. specialize (Hall y Hy). simpl in Hall.
    assert (x ≠ y) by (by intros ->). lia.
  - intros id. rewrite elem_of_sort_by. unfold l. rewrite visit_all_spec. split.
    + intros [?%elem_of_nil|(vs & e & [subject' Hvs]%elem_of_btree_values & He & (Hq & reg & Hr & Ht) & <-)];
        [done|].
      apply references_target_iff in Ht as (r & ? & ? & ?).
      exists subject', e, reg, r. split_and!; try done. by exists vs.
    + intros (subject' & e & reg & r & (vs & Hvs & He & Hq) & <- & Hr & Hin & Hsub & Hver). right.
      exists vs, e. split_and!; [apply elem_of_btree_values; eauto|done| |done].
      split; [done|]. exists reg. split; [done|]. apply references_target_iff. eauto.
Qed.
End referenced_by.

(** C8: the queries over the visible versions. The latest version is the greatest one, found
    exactly when the strictly increasing version list is not empty, and asking for it
    by number gives the same schema; an id resolves exactly when a visible version is bound
    to it, to that version's content, and [schema_id_subject_versions] lists exactly
    those versions; [GET /schemas] lists every visible version once, with its own
    content, in strictly increasing order of subject and version. *)
Theorem queries_spec s subject id include_deleted :
  store_wf s →
  match version s subject None include_deleted with
  | Some x =>
      ∃ l, versions s subject include_deleted = Some l ∧ StronglySorted Z.lt l ∧
        vs_version x ∈ l ∧ (∀ v, v ∈ l → (v ≤ vs_version x)%Z) ∧
        version s subject (Some (vs_version x)) include_deleted = Some x
  | None => versions s subject include_deleted = None
  end ∧
  ((is_Some (schema_by_id s id include_deleted) ↔ schema_id_subject_versions s id include_deleted ≠ []) ∧
   ∀ subject v, (subject, v) ∈ schema_id_subject_versions s id include_deleted ↔
     ∃ x, version s subject (Some v) include_deleted = Some x ∧ vs_id x = id ∧
          schema_by_id s id include_deleted =
            Some (vs_ty x, vs_schema x, vs_references x, vs_message_type x)) ∧
  StronglySorted listed_lt (all_schemas s include_deleted) ∧
  ∀ x, x ∈ all_schemas s include_deleted ↔
    ∃ v, version s (ls_subject x) (Some (ls_version x)) include_deleted = Some v ∧
      x = mkListedSchema (ls_subject x) (vs_version v) (vs_id v) (vs_ty v) (vs_schema v)
            (vs_references v) (vs_message_type v).
Proof.
  intros Hs. split; [by apply latest_version_facts|]. split; [by apply schema_by_id_facts|].
  by apply all_schemas_facts.
Qed.

(** ** Witnesses *)

Lemma queries_spec_witness :
  StronglySorted listed_lt (all_schemas demo_store false) ∧ is_Some (schema_by_id demo_store 1 false).
Proof.
  destruct (queries_spec demo_store "orders" 1 false demo_store_wf) as (_ & [Hid _] & Hsorted & _).
  split; [exact Hsorted|]. apply Hid. vm_compute. discriminate.
Defined.
