(* ===== verification/Record.v ===== *)
(** * The records of the [_schemas] topic (kafkastore/record.rs)

    Keys, values, [SchemaRecord::decode] and the encoders. The text level of
    serde_json (printing and parsing JSON) is the parameter [SerdeJson]; what
    the derived [Serialize] and [Deserialize] of the source's structs do with
    the parsed content is written out: fields in declaration order, renamed,
    skipped when absent; unknown fields ignored (or collected by [flatten]),
    repeated fields refused, numbers range-checked. Bytes are [string]s. *)

From stdpp Require Import base gmap strings list pretty sorting countable.
From Stdlib Require Import ZArith Lia SpecFloat.
From S2P Require Import Prelude Json Types Store.

(** ** serde_json *)

Class SerdeJson := {
  json_print : json → string;
  json_parse : string → option json;
}.

(** A value whose text determines it: no float. *)
Fixpoint json_plain (v : json) : bool :=
  match v with
  | JNumber (PosInt n) => (0 <=? n)%Z && (n <? 2 ^ 64)%Z
  | JNumber (NegInt n) => (- 2 ^ 63 <=? n)%Z && (n <? 0)%Z
  | JNumber (Float _) => false
  | JArray l => forallb json_plain l
  | JObject l => forallb (λ kv, json_plain kv.2) l
  | _ => true
  end.

(** Printing and parsing back gives the value (fields in printed order). *)
Class SerdeJsonLaws `{SerdeJson} := {
  json_parse_print : ∀ v, json_plain v = true → json_parse (json_print v) = Some v;
}.

(** ** Derived [Deserialize] *)

(** The value of a field that must occur at most once: [None] is the
    "duplicate field" error, [Some None] an absent field. *)
Definition field (k : string) (l : list (string * json)) : option (option json) :=
  match List.filter (λ kv, String.eqb kv.1 k) l with
  | [] => Some None
  | [(_, v)] => Some (Some v)
  | _ => None
  end.

(** A struct is read from an object, or from an array of exactly its fields. *)
Definition struct_fields (names : list string) (v : json) : option (list (string * json)) :=
  match v with
  | JObject l => Some l
  | JArray vs => if Nat.eqb (length vs) (length names) then Some (zip names vs) else None
  | _ => None
  end.

Definition required (k : string) (l : list (string * json)) : option json :=
  f ← field k l; f.

Definition de_string (v : json) : option string := as_str v.

Definition de_int (lo hi : Z) (v : json) : option Z :=
  match v with
  | JNumber (PosInt n) | JNumber (NegInt n) =>
      if ((lo <=? n) && (n <=? hi))%Z then Some n else None
  | _ => None
  end.
Definition de_i32 : json → option Z := de_int i32_min i32_max.
Definition de_u8 : json → option Z := de_int 0 255.
Definition de_bool (v : json) : option bool := as_bool v.

(** An [Option<String>] field: absent and [null] are [None]. *)
Definition de_opt_string (f : option json) : option (option string) :=
  match f with
  | None | Some JNull => Some None
  | Some v => Some <$> de_string v
  end.

(** A [Vec<T>] field with [#[serde(default)]]. *)
Definition de_default_vec {A} (de : json → option A) (f : option json) : option (list A) :=
  match f with
  | None => Some []
  | Some (JArray l) => mapM de l
  | Some _ => None
  end.

(** ** Derived [Serialize] *)

Definition ser_int (n : Z) : json := JNumber (if (n <? 0)%Z then NegInt n else PosInt n).

Definition ser_opt_string (s : option string) : json :=
  match s with Some s => JString s | None => JNull end.

(** ** Keys and values *)

Record SchemaKey := mkSchemaKey {
  sk_keytype : string; sk_subject : string; sk_version : Z; sk_magic : Z }.
Record ConfigKey := mkConfigKey {
  ck_keytype : string; ck_subject : option string; ck_magic : Z }.
Record ConfigValue := mkConfigValue { compatibility_level : string }.
Record ModeKey := mkModeKey {
  mk_keytype : string; mk_subject : option string; mk_magic : Z }.
Record ModeValue := mkModeValue { mv_mode : string }.
Record DeleteSubjectKey := mkDeleteSubjectKey {
  dk_keytype : string; dk_subject : string; dk_magic : Z }.
Record DeleteSubjectValue := mkDeleteSubjectValue { dv_subject : string; dv_version : Z }.
Record VersionHighWaterKey := mkVersionHighWaterKey {
  vk_keytype : string; vk_subject : string; vk_magic : Z }.
Record VersionHighWaterValue := mkVersionHighWaterValue { vv_next_version : Z }.

Definition SchemaKey_new (subject : string) (version : Z) : SchemaKey :=
  mkSchemaKey "SCHEMA" subject version 1.

Definition ser_SchemaKey (k : SchemaKey) : json :=
  JObject [("keytype", JString (sk_keytype k)); ("subject", JString (sk_subject k));
           ("version", ser_int (sk_version k)); ("magic", ser_int (sk_magic k))].
Definition de_SchemaKey (v : json) : option SchemaKey :=
  l ← struct_fields ["keytype"; "subject"; "version"; "magic"] v;
  keytype ← required "keytype" l ≫= de_string;
  subject ← required "subject" l ≫= de_string;
  version ← required "version" l ≫= de_i32;
  magic ← required "magic" l ≫= de_u8;
  Some (mkSchemaKey keytype subject version magic).

(** [ConfigKey] and [ModeKey] have the same fields; both are read this way. *)
Definition ser_opt_key (keytype : string) (subject : option string) (magic : Z) : json :=
  JObject [("keytype", JString keytype); ("subject", ser_opt_string subject);
           ("magic", ser_int magic)].
Definition de_opt_key (v : json) : option (string * option string * Z) :=
  l ← struct_fields ["keytype"; "subject"; "magic"] v;
  keytype ← required "keytype" l ≫= de_string;
  subject ← field "subject" l ≫= de_opt_string;
  magic ← required "magic" l ≫= de_u8;
  Some (keytype, subject, magic).

Definition ser_ConfigKey (k : ConfigKey) : json :=
  ser_opt_key (ck_keytype k) (ck_subject k) (ck_magic k).
Definition de_ConfigKey (v : json) : option ConfigKey :=
  '(keytype, subject, magic) ← de_opt_key v; Some (mkConfigKey keytype subject magic).
Definition ser_ModeKey (k : ModeKey) : json :=
  ser_opt_key (mk_keytype k) (mk_subject k) (mk_magic k).
Definition de_ModeKey (v : json) : option ModeKey :=
  '(keytype, subject, magic) ← de_opt_key v; Some (mkModeKey keytype subject magic).

(** [DeleteSubjectKey] and [VersionHighWaterKey]: a mandatory subject. *)
Definition ser_subject_key (keytype subject : string) (magic : Z) : json :=
  JObject [("keytype", JString keytype); ("subject", JString subject); ("magic", ser_int magic)].
Definition de_subject_key (v : json) : option (string * string * Z) :=
  l ← struct_fields ["keytype"; "subject"; "magic"] v;
  keytype ← required "keytype" l ≫= de_string;
  subject ← required "subject" l ≫= de_string;
  magic ← required "magic" l ≫= de_u8;
  Some (keytype, subject, magic).

Definition ser_DeleteSubjectKey (k : DeleteSubjectKey) : json :=
  ser_subject_key (dk_keytype k) (dk_subject k) (dk_magic k).
Definition de_DeleteSubjectKey (v : json) : option DeleteSubjectKey :=
  '(keytype, subject, magic) ← de_subject_key v; Some (mkDeleteSubjectKey keytype subject magic).
Definition ser_VersionHighWaterKey (k : VersionHighWaterKey) : json :=
  ser_subject_key (vk_keytype k) (vk_subject k) (vk_magic k).
Definition de_VersionHighWaterKey (v : json) : option VersionHighWaterKey :=
  '(keytype, subject, magic) ← de_subject_key v; Some (mkVersionHighWaterKey keytype subject magic).

Definition ser_ConfigValue (v : ConfigValue) : json :=
  JObject [("compatibilityLevel", JString (compatibility_level v))].
Definition de_ConfigValue (v : json) : option ConfigValue :=
  l ← struct_fields ["compatibilityLevel"] v;
  mkConfigValue <$> (required "compatibilityLevel" l ≫= de_string).
Definition ser_ModeValue (v : ModeValue) : json := JObject [("mode", JString (mv_mode v))].
Definition de_ModeValue (v : json) : option ModeValue :=
  l ← struct_fields ["mode"] v; mkModeValue <$> (required "mode" l ≫= de_string).
Definition ser_DeleteSubjectValue (v : DeleteSubjectValue) : json :=
  JObject [("subject", JString (dv_subject v)); ("version", ser_int (dv_version v))].
Definition de_DeleteSubjectValue (v : json) : option DeleteSubjectValue :=
  l ← struct_fields ["subject"; "version"] v;
  subject ← required "subject" l ≫= de_string;
  version ← required "version" l ≫= de_i32;
  Some (mkDeleteSubjectValue subject version).
Definition ser_VersionHighWaterValue (v : VersionHighWaterValue) : json :=
  JObject [("nextVersion", ser_int (vv_next_version v))].
Definition de_VersionHighWaterValue (v : json) : option VersionHighWaterValue :=
  l ← struct_fields ["nextVersion"] v;
  mkVersionHighWaterValue <$> (required "nextVersion" l ≫= de_i32).

Definition ser_SchemaReference (r : SchemaReference) : json :=
  JObject [("name", JString (ref_name r)); ("subject", JString (ref_subject r));
           ("version", ser_int (ref_version r))].
Definition de_SchemaReference (v : json) : option SchemaReference :=
  l ← struct_fields ["name"; "subject"; "version"] v;
  name ← required "name" l ≫= de_string;
  subject ← required "subject" l ≫= de_string;
  version ← required "version" l ≫= de_i32;
  Some (mkSchemaReference name subject version).

(** ** [SchemaValue], with its flattened [extra] map *)

Definition schema_value_fields : list string :=
  ["subject"; "version"; "id"; "schemaType"; "messageType"; "references"; "schema"; "deleted"].

Definition opt_field (k : string) (s : option string) : list (string * json) :=
  match s with Some s => [(k, JString s)] | None => [] end.

Definition ser_SchemaValue (v : SchemaValue) : json :=
  JObject (
    [("subject", JString (sv_subject v)); ("version", ser_int (sv_version v));
     ("id", ser_int (sv_id v))] ++
    opt_field "schemaType" (sv_schema_type v) ++
    opt_field "messageType" (sv_message_type v) ++
    (match sv_references v with
     | [] => []
     | refs => [("references", JArray (ser_SchemaReference <$> refs))]
     end) ++
    [("schema", JString (sv_schema v)); ("deleted", JBool (sv_deleted v))] ++
    btree_iter (sv_extra v)).

(** The entries no declared field takes, as [Value]s, collected into a map. *)
Definition flatten_extra (l : list (string * json)) : gmap string json :=
  foldl (λ m kv, <[ kv.1 := json_normalize kv.2 ]> m) ∅
    (List.filter (λ kv, negb (existsb (String.eqb kv.1) schema_value_fields)) l).

Definition de_SchemaValue (v : json) : option SchemaValue :=
  match v with
  | JObject l =>
    subject ← required "subject" l ≫= de_string;
    version ← required "version" l ≫= de_i32;
    id ← required "id" l ≫= de_i32;
    schema_type ← field "schemaType" l ≫= de_opt_string;
    message_type ← field "messageType" l ≫= de_opt_string;
    references ← field "references" l ≫= de_default_vec de_SchemaReference;
    schema ← required "schema" l ≫= de_string;
    deleted ← (f ← field "deleted" l; match f with None => Some false | Some b => de_bool b end);
    Some (mkSchemaValue subject version id schema_type message_type references schema deleted
            (flatten_extra l))
  | _ => None
  end.

(** ** Decoding *)

Inductive SchemaRecord :=
  | RSchema (k : SchemaKey) (v : SchemaValue)
  | RConfig (k : ConfigKey) (v : option ConfigValue)
  | RMode (k : ModeKey) (v : option ModeValue)
  | RDeleteSubject (k : DeleteSubjectKey) (v : DeleteSubjectValue)
  | RVersionHighWater (k : VersionHighWaterKey) (v : VersionHighWaterValue)
  | RTombstone (k : SchemaKey)
  | RNoop
  | RUnknown (keytype : string)
  | RUndecodable (keytype : option string).

Section with_serde.
Context `{SerdeJson}.

Definition from_slice {A} (de : json → option A) (bytes : string) : option A :=
  json_parse bytes ≫= de.

(** [serde_json::from_slice::<Value>]. *)
Definition from_slice_value (bytes : string) : option json :=
  json_normalize <$> json_parse bytes.

Definition to_vec (v : json) : string := json_print v.

(** The arms of [decode] for a key type whose value may not be null-ignored. *)
Definition decode_kv {K V} (keytype : string) (de_k : json → option K) (de_v : json → option V)
    (mk : K → V → SchemaRecord) (tomb : K → SchemaRecord)
    (key : string) (value : option string) : SchemaRecord :=
  match from_slice de_k key with
  | Some k =>
      match value with
      | Some v =>
          match from_slice de_v v with
          | Some val => mk k val
          | None => RUndecodable (Some keytype)
          end
      | None => tomb k
      end
  | None => RUndecodable (Some keytype)
  end.

Definition decode (key : string) (value : option string) : SchemaRecord :=
  match from_slice_value key with
  | None => RUndecodable None
  | Some kv =>
    match json_get kv "keytype" ≫= as_str with
    | None => RUndecodable None
    | Some keytype =>
      if String.eqb keytype "SCHEMA" then
        decode_kv "SCHEMA" de_SchemaKey de_SchemaValue RSchema RTombstone key value
      else if String.eqb keytype "CONFIG" then
        decode_kv "CONFIG" de_ConfigKey de_ConfigValue
          (λ k v, RConfig k (Some v)) (λ k, RConfig k None) key value
      else if String.eqb keytype "MODE" then
        decode_kv "MODE" de_ModeKey de_ModeValue
          (λ k v, RMode k (Some v)) (λ k, RMode k None) key value
      else if String.eqb keytype "DELETE_SUBJECT" then
        decode_kv "DELETE_SUBJECT" de_DeleteSubjectKey de_DeleteSubjectValue
          RDeleteSubject (λ _, RNoop) key value
      else if String.eqb keytype "NOOP" then
        match from_slice de_VersionHighWaterKey key,
              value ≫= from_slice de_VersionHighWaterValue with
        | Some k, Some v => RVersionHighWater k v
        | _, _ => RNoop
        end
      else if String.eqb keytype "CLEAR_SUBJECTS" || String.eqb keytype "CLEAR_SUBJECT" then RNoop
      else RUnknown keytype
    end
  end.

(** ** Encoding *)

Definition encode_config (subject : option string) (level : string) : string * string :=
  (to_vec (ser_ConfigKey (mkConfigKey "CONFIG" subject 0)),
   to_vec (ser_ConfigValue (mkConfigValue level))).

Definition schema_kv (subject : string) (version id : Z) (ty : SchemaType) (schema : string)
    (references : list SchemaReference) (message_type : option string) (deleted : bool)
    (extra : option (gmap string json)) : string * string :=
  (to_vec (ser_SchemaKey (SchemaKey_new subject version)),
   to_vec (ser_SchemaValue
     (schema_value subject version id ty schema references message_type deleted (default ∅ extra)))).

Definition encode_schema (subject : string) (version id : Z) (ty : SchemaType) (schema : string)
    (references : list SchemaReference) : string * string :=
  schema_kv subject version id ty schema references None false None.

Definition encode_schema_with_message_type (subject : string) (version id : Z)
    (ty : SchemaType) (schema : string) (references : list SchemaReference)
    (message_type : option string) : string * string :=
  schema_kv subject version id ty schema references message_type false None.

Definition encode_schema_deleted (subject : string) (version id : Z) (ty : SchemaType)
    (schema : string) (references : list SchemaReference) : string * string :=
  schema_kv subject version id ty schema references None true None.

Definition encode_schema_deleted_with_message_type (subject : string) (version id : Z)
    (ty : SchemaType) (schema : string) (references : list SchemaReference)
    (metadata : option string * gmap string json) : string * string :=
  schema_kv subject version id ty schema references metadata.1 true (Some metadata.2).

Definition encode_tombstone (subject : string) (version : Z) : string :=
  to_vec (ser_SchemaKey (SchemaKey_new subject version)).

Definition encode_version_high_water (subject : string) (next_version : Z) : string * string :=
  (to_vec (ser_VersionHighWaterKey (mkVersionHighWaterKey "NOOP" subject 0)),
   to_vec (ser_VersionHighWaterValue (mkVersionHighWaterValue next_version))).

Definition encode_mode (subject : option string) (mode : string) : string * string :=
  (to_vec (ser_ModeKey (mkModeKey "MODE" subject 0)), to_vec (ser_ModeValue (mkModeValue mode))).

Definition mode_key (subject : option string) : string :=
  to_vec (ser_ModeKey (mkModeKey "MODE" subject 0)).

Definition config_key (subject : option string) : string :=
  to_vec (ser_ConfigKey (mkConfigKey "CONFIG" subject 0)).

Definition encode_delete_subject (subject : string) (version : Z) : string * string :=
  (to_vec (ser_DeleteSubjectKey (mkDeleteSubjectKey "DELETE_SUBJECT" subject 0)),
   to_vec (ser_DeleteSubjectValue (mkDeleteSubjectValue subject version))).
End with_serde.
