(* ===== verification/RecordFacts.v ===== *)
(** * Correctness of the record codec (kafkastore/record.rs)

    Every encoder is read back by [decode] as the record it stands for, and
    the keys identify what they name: the compaction contract of [_schemas]. *)

From Stdlib Require Import ZArith Lia Ascii.
From stdpp Require Import countable.
From stdpp Require Import base gmap strings list pretty sorting.
From S2P Require Import Prelude Json Types Store StoreSpec StoreQueries Record.

#[local] Arguments ser_int : simpl never.
#[local] Arguments de_i32 : simpl never.
#[local] Arguments de_u8 : simpl never.
#[local] Arguments mapM : simpl never.
#[local] Arguments ser_SchemaReference : simpl never.

(** Encoded numbers are read back at their width. *)
Lemma de_i32_ser n : in_i32 n → de_i32 (ser_int n) = Some n.
Proof.
  unfold in_i32, de_i32, ser_int, de_int, i32_min, i32_max. intros Hn.
  destruct (n <? 0)%Z; case_match eqn:E; try done; lia.
Qed.

Lemma ser_int_plain n : in_i32 n → json_plain (ser_int n) = true.
Proof.
  unfold in_i32, ser_int, i32_min, i32_max. intros Hn.
  destruct (n <? 0)%Z eqn:E; cbn [json_plain]; rewrite andb_true_iff, !Z.leb_le, !Z.ltb_lt; lia.
Qed.

Lemma ser_int_inj n n' : ser_int n = ser_int n' → n = n'.
Proof. unfold ser_int. destruct (n <? 0)%Z, (n' <? 0)%Z; by intros [= ->]. Qed.

Lemma de_u8_ser n : (0 ≤ n ≤ 255)%Z → de_u8 (ser_int n) = Some n.
Proof.
  unfold de_u8, de_int, ser_int. intros Hn. rewrite (proj2 (Z.ltb_ge _ _)) by lia.
  case_match eqn:E; [done|]. lia.
Qed.

#[local] Opaque ser_int.

Lemma ser_opt_string_plain s : json_plain (ser_opt_string s) = true.
Proof. by destruct s. Qed.

#[export] Hint Rewrite de_i32_ser using done : krabka.

(** What [extra] may hold so that the flattened record reads back: keys that
    are not fields of the struct, values that are well-formed and float-free. *)
Definition extra_ok (extra : gmap string json) : Prop :=
  ∀ k v, extra !! k = Some v →
    k ∉ schema_value_fields ∧ json_wf v ∧ json_plain v = true.

Definition value_ok (v : SchemaValue) : Prop :=
  in_i32 (sv_version v) ∧ in_i32 (sv_id v) ∧
  Forall (λ r, in_i32 (ref_version r)) (sv_references v) ∧ extra_ok (sv_extra v).

(** ** Flattening *)

Lemma existsb_eqb k l : existsb (String.eqb k) l = true ↔ k ∈ l.
Proof.
  rewrite existsb_exists. setoid_rewrite <-list_elem_of_In. setoid_rewrite String.eqb_eq.
  split; [by intros (? & ? & <-)|eauto].
Qed.

Lemma extra_entries extra k v :
  extra_ok extra → (k, v) ∈ btree_iter extra →
  existsb (String.eqb k) schema_value_fields = false ∧ json_normalize v = v ∧ json_plain v = true.
Proof.
  intros Hok Hin%elem_of_btree_iter%Hok. destruct Hin as (Hk & Hw & Hp).
  split_and!; [|by apply json_normalize_wf|done].
  apply not_true_iff_false. by rewrite existsb_eqb.
Qed.

Lemma filter_extra_kept extra :
  extra_ok extra →
  List.filter (λ kv, negb (existsb (String.eqb kv.1) schema_value_fields)) (btree_iter extra) =
  btree_iter extra.
Proof.
  intros Hok. apply filter_all. intros [k v] Hin. cbn [fst].
  by rewrite (proj1 (extra_entries extra k v Hok Hin)).
Qed.

Lemma foldl_insert_lookup (l : list (string * json)) (m : gmap string json) k :
  NoDup l.*1 →
  foldl (λ m kv, <[ kv.1 := json_normalize kv.2 ]> m) m l !! k =
  match assoc_get k l with Some v => Some (json_normalize v) | None => m !! k end.
Proof.
  revert m. induction l as [|[k' v'] l IH]; intros m Hnd; simpl; [done|].
  simpl in Hnd. apply NoDup_cons in Hnd as [Hk' Hnd]. rewrite IH by done.
  destruct (String.eqb k k') eqn:E.
  - apply String.eqb_eq in E as ->.
    assert (assoc_get k' l = None) as ->; [|by rewrite lookup_insert_eq].
    clear -Hk'. induction l as [|[k2 v2] l IH]; simpl in *; [done|].
    apply not_elem_of_cons in Hk' as [Hne Hk']. apply String.eqb_neq in Hne. rewrite Hne. auto.
  - apply String.eqb_neq in E. rewrite lookup_insert_ne by done. done.
Qed.

Lemma assoc_get_btree {A} (m : gmap string A) k : assoc_get k (btree_iter m) = m !! k.
Proof.
  assert (∀ l : list (string * A), NoDup l.*1 → ∀ v, assoc_get k l = Some v ↔ (k, v) ∈ l) as Hl.
  { intros l. induction l as [|[k' v'] l IH]; intros Hnd v; simpl.
    - split; [done|]. by intros ?%elem_of_nil.
    - simpl in Hnd. apply NoDup_cons in Hnd as [Hk' Hnd]. rewrite elem_of_cons.
      destruct (String.eqb k k') eqn:E.
      + apply String.eqb_eq in E as ->. split; [intros [= ->]; auto|].
        intros [[= ->]|Hin]; [done|]. destruct Hk'. apply list_elem_of_fmap. by exists (k', v).
      + apply String.eqb_neq in E. rewrite IH by done. split; [auto|].
        intros [[= -> ->]|]; done. }
  apply option_eq. intros v. rewrite Hl by apply btree_iter_keys_NoDup. apply elem_of_btree_iter.
Qed.

Lemma flatten_extra_btree prefix extra :
  extra_ok extra → forallb (λ kv, existsb (String.eqb kv.1) schema_value_fields) prefix = true →
  flatten_extra (prefix ++ btree_iter extra) = extra.
Proof.
  intros Hok Hpre. unfold flatten_extra. rewrite List.filter_app.
  assert (List.filter (λ kv, negb (existsb (String.eqb kv.1) schema_value_fields)) prefix = []) as ->.
  { apply filter_nil_iff. intros kv Hkv. apply negb_false_iff.
    rewrite forallb_forall in Hpre. apply Hpre. by apply list_elem_of_In. }
  rewrite filter_extra_kept by done. simpl. apply map_eq. intros k.
  rewrite foldl_insert_lookup by apply btree_iter_keys_NoDup.
  rewrite assoc_get_btree. destruct (extra !! k) as [v|] eqn:E; [|by rewrite lookup_empty].
  apply elem_of_btree_iter in E. f_equal. by eapply extra_entries.
Qed.

(** A declared field is not among the extra entries. *)
Lemma field_extra k prefix extra :
  extra_ok extra → k ∈ schema_value_fields →
  field k (prefix ++ btree_iter extra) = field k prefix.
Proof.
  intros Hok Hk. unfold field. rewrite List.filter_app.
  assert (List.filter (λ kv, String.eqb kv.1 k) (btree_iter extra) = []) as ->; [|by rewrite app_nil_r].
  destruct (List.filter _ (btree_iter extra)) as [|[k' v'] l] eqn:E; [done|]. exfalso.
  assert ((k', v') ∈ List.filter (λ kv : string * json, String.eqb kv.1 k) (btree_iter extra)) as Hin
    by (rewrite E; apply elem_of_cons; auto).
  apply elem_of_filter_bool in Hin as [Hin Heq]. simpl in Heq. apply String.eqb_eq in Heq as ->.
  apply elem_of_btree_iter, Hok in Hin as [? _]. done.
Qed.

(** ** The derived pairs *)

Lemma de_ser_SchemaReference r :
  in_i32 (ref_version r) → de_SchemaReference (ser_SchemaReference r) = Some r.
Proof.
  intros Hr. unfold de_SchemaReference, ser_SchemaReference, required. simpl.
  rewrite de_i32_ser by done. by destruct r.
Qed.

Lemma de_ser_references refs :
  Forall (λ r, in_i32 (ref_version r)) refs →
  mapM de_SchemaReference (ser_SchemaReference <$> refs) = Some refs.
Proof.
  intros Hr. apply mapM_Some, Forall2_fmap_l.
  induction Hr as [|r refs Hr _ IH]; constructor; [by apply de_ser_SchemaReference|done].
Qed.

Lemma de_ser_SchemaKey k :
  in_i32 (sk_version k) → (0 ≤ sk_magic k ≤ 255)%Z → de_SchemaKey (ser_SchemaKey k) = Some k.
Proof.
  intros Hv Hm. unfold de_SchemaKey, ser_SchemaKey, required. simpl.
  rewrite de_i32_ser by done. simpl. rewrite de_u8_ser by done. by destruct k.
Qed.

(** The declared part of a serialised [SchemaValue]. *)
Definition ser_declared (v : SchemaValue) : list (string * json) :=
  [("subject", JString (sv_subject v)); ("version", ser_int (sv_version v));
   ("id", ser_int (sv_id v))] ++
  opt_field "schemaType" (sv_schema_type v) ++
  opt_field "messageType" (sv_message_type v) ++
  (match sv_references v with
   | [] => []
   | refs => [("references", JArray (ser_SchemaReference <$> refs))]
   end) ++
  [("schema", JString (sv_schema v)); ("deleted", JBool (sv_deleted v))].

Lemma ser_SchemaValue_split v :
  ser_SchemaValue v = JObject (ser_declared v ++ btree_iter (sv_extra v)).
Proof. unfold ser_SchemaValue, ser_declared. by rewrite <-!app_assoc. Qed.

Lemma de_ser_SchemaValue v : value_ok v → de_SchemaValue (ser_SchemaValue v) = Some v.
Proof.
  intros (Hv & Hi & Hr & He). rewrite ser_SchemaValue_split. unfold de_SchemaValue, required.
  rewrite !field_extra by (done || (apply existsb_eqb; reflexivity)).
  rewrite flatten_extra_btree; [|done|by destruct v as [? ? ? [] [] [] ? ? ?]].
  destruct v as [subject version id st mt refs schema deleted extra].
  unfold ser_declared. simpl in *.
  destruct st, mt, refs as [|r refs]; simpl; rewrite !de_i32_ser by done; simpl; try done;
    change (ser_SchemaReference r :: list_fmap _ _ ser_SchemaReference refs)
      with (ser_SchemaReference <$> r :: refs);
    by rewrite de_ser_references.
Qed.

(** ** Plain texts *)

Lemma ser_SchemaKey_plain k :
  in_i32 (sk_version k) → (0 ≤ sk_magic k ≤ 255)%Z → json_plain (ser_SchemaKey k) = true.
Proof.
  intros Hv Hm. simpl. rewrite !ser_int_plain; [done| |done].
  unfold in_i32, i32_min, i32_max. lia.
Qed.

Lemma ser_SchemaValue_plain v : value_ok v → json_plain (ser_SchemaValue v) = true.
Proof.
  intros (Hv & Hi & Hr & He). rewrite ser_SchemaValue_split. cbn [json_plain].
  rewrite forallb_app. apply andb_true_iff. split.
  - destruct v as [subject version id st mt refs schema deleted extra]. unfold ser_declared.
    assert (forallb json_plain (ser_SchemaReference <$> refs) = true) as Hrefs.
    { simpl in Hr. apply forallb_forall. intros x Hx%list_elem_of_In.
      apply list_elem_of_fmap in Hx as (r & -> & Hin). rewrite Forall_forall in Hr.
      unfold ser_SchemaReference. simpl.
      rewrite ser_int_plain; [done|exact (Hr r Hin)]. }
    simpl in *. rewrite !ser_int_plain by done. simpl.
    destruct st, mt, refs; simpl in *; by rewrite ?Hrefs.
  - apply forallb_forall. intros [k x] Hin%list_elem_of_In. cbn [snd]. by eapply extra_entries.
Qed.

(** ** Round trips *)

Section roundtrip.
Context `{SerdeJsonLaws}.

Lemma from_slice_print {A} (de : json → option A) v :
  json_plain v = true → from_slice de (to_vec v) = de v.
Proof. intros Hp. unfold from_slice, to_vec. by rewrite json_parse_print. Qed.

Lemma from_slice_value_print v :
  json_plain v = true → from_slice_value (to_vec v) = Some (json_normalize v).
Proof. intros Hp. unfold from_slice_value, to_vec. by rewrite json_parse_print. Qed.

Lemma schema_key_roundtrip subject version :
  in_i32 version →
  from_slice_value (to_vec (ser_SchemaKey (SchemaKey_new subject version))) =
    Some (json_normalize (ser_SchemaKey (SchemaKey_new subject version))) ∧
  from_slice de_SchemaKey (to_vec (ser_SchemaKey (SchemaKey_new subject version))) =
    Some (SchemaKey_new subject version).
Proof.
  intros Hv.
  assert (json_plain (ser_SchemaKey (SchemaKey_new subject version)) = true)
    by (by apply ser_SchemaKey_plain).
  rewrite from_slice_value_print, from_slice_print by done. split; [done|].
  by apply de_ser_SchemaKey.
Qed.

Lemma decode_schema_kv_facts subject version id ty schema refs mt deleted extra :
  value_ok (schema_value subject version id ty schema refs mt deleted (default ∅ extra)) →
  let '(key, value) := schema_kv subject version id ty schema refs mt deleted extra in
  decode key (Some value) =
    RSchema (SchemaKey_new subject version)
      (schema_value subject version id ty schema refs mt deleted (default ∅ extra)).
Proof.
  intros Hok. unfold schema_kv, decode.
  destruct (schema_key_roundtrip subject version) as [-> Hk]; [apply Hok|]. simpl.
  unfold decode_kv. rewrite Hk. simpl.
  by rewrite from_slice_print, de_ser_SchemaValue by (done || by apply ser_SchemaValue_plain).
Qed.

Lemma decode_tombstone_facts subject version id ty schema refs mt deleted extra :
  in_i32 version →
  encode_tombstone subject version =
    (schema_kv subject version id ty schema refs mt deleted extra).1 ∧
  decode (encode_tombstone subject version) None = RTombstone (SchemaKey_new subject version).
Proof.
  intros Hv. split; [done|]. unfold encode_tombstone, decode.
  destruct (schema_key_roundtrip subject version Hv) as [-> Hk]. simpl.
  unfold decode_kv. by rewrite Hk.
Qed.

Lemma opt_key_roundtrip keytype subject :
  de_opt_key (ser_opt_key keytype subject 0) = Some (keytype, subject, 0%Z).
Proof. by destruct subject. Qed.

Lemma decode_opt_key keytype subject v (k : json) :
  k = ser_opt_key keytype subject 0 → keytype = "CONFIG" ∨ keytype = "MODE" →
  decode (to_vec k) v =
  if String.eqb keytype "CONFIG" then
    decode_kv "CONFIG" de_ConfigKey de_ConfigValue
      (λ k v, RConfig k (Some v)) (λ k, RConfig k None) (to_vec k) v
  else decode_kv "MODE" de_ModeKey de_ModeValue
      (λ k v, RMode k (Some v)) (λ k, RMode k None) (to_vec k) v.
Proof.
  intros -> Hk. unfold decode. rewrite from_slice_value_print.
  - by destruct Hk as [-> | ->].
  - by destruct subject.
Qed.

Lemma decode_markers_facts subject osubject level mode version :
  in_i32 version →
  decode (encode_config osubject level).1 (Some (encode_config osubject level).2) =
    RConfig (mkConfigKey "CONFIG" osubject 0) (Some (mkConfigValue level)) ∧
  decode (config_key osubject) None = RConfig (mkConfigKey "CONFIG" osubject 0) None ∧
  decode (encode_mode osubject mode).1 (Some (encode_mode osubject mode).2) =
    RMode (mkModeKey "MODE" osubject 0) (Some (mkModeValue mode)) ∧
  decode (mode_key osubject) None = RMode (mkModeKey "MODE" osubject 0) None ∧
  decode (encode_delete_subject subject version).1 (Some (encode_delete_subject subject version).2) =
    RDeleteSubject (mkDeleteSubjectKey "DELETE_SUBJECT" subject 0)
      (mkDeleteSubjectValue subject version) ∧
  decode (encode_version_high_water subject version).1
      (Some (encode_version_high_water subject version).2) =
    RVersionHighWater (mkVersionHighWaterKey "NOOP" subject 0) (mkVersionHighWaterValue version).
Proof.
  intros Hv.
  assert (json_plain (ser_DeleteSubjectValue (mkDeleteSubjectValue subject version)) = true) as Hd.
  { simpl. by rewrite ser_int_plain. }
  assert (json_plain (ser_VersionHighWaterValue (mkVersionHighWaterValue version)) = true) as Hw.
  { simpl. by rewrite ser_int_plain. }
  unfold encode_config, encode_mode, config_key, mode_key, encode_delete_subject,
    encode_version_high_water. cbn [fst snd]. split_and!.
  - erewrite (decode_opt_key "CONFIG") by (done || by left). simpl. unfold decode_kv.
    rewrite !from_slice_print by (done || by destruct osubject).
    unfold de_ConfigKey, ser_ConfigKey. by rewrite opt_key_roundtrip.
  - erewrite (decode_opt_key "CONFIG") by (done || by left). simpl. unfold decode_kv.
    rewrite !from_slice_print by (done || by destruct osubject).
    unfold de_ConfigKey, ser_ConfigKey. by rewrite opt_key_roundtrip.
  - erewrite (decode_opt_key "MODE") by (done || by right). simpl. unfold decode_kv.
    rewrite !from_slice_print by (done || by destruct osubject).
    unfold de_ModeKey, ser_ModeKey. by rewrite opt_key_roundtrip.
  - erewrite (decode_opt_key "MODE") by (done || by right). simpl. unfold decode_kv.
    rewrite !from_slice_print by (done || by destruct osubject).
    unfold de_ModeKey, ser_ModeKey. by rewrite opt_key_roundtrip.
  - unfold decode. rewrite from_slice_value_print by done. simpl. unfold decode_kv.
    rewrite !from_slice_print by done. unfold de_DeleteSubjectValue, required. simpl.
    by rewrite de_i32_ser.
  - unfold decode. rewrite from_slice_value_print by done. simpl.
    rewrite !from_slice_print by done. unfold de_VersionHighWaterValue, required. simpl.
    by rewrite de_i32_ser.
Qed.

(** C11: what is written to the topic is read back. A [SCHEMA] record decodes
    to its key [(subject, version)] and exactly the value that was encoded,
    references, message type, deleted flag and preserved foreign metadata
    included; a permanent delete's tombstone has the very key of the [SCHEMA] record
    it retires, so that log compaction drops it, and decodes as the deletion of
    that version; the compatibility and mode records and their tombstones, the
    soft delete marker and the version high-water marker decode to what they
    encode. *)
Theorem records_round_trip subject version id ty schema refs mt deleted extra osubject level mode :
  value_ok (schema_value subject version id ty schema refs mt deleted (default ∅ extra)) →
  let '(key, value) := schema_kv subject version id ty schema refs mt deleted extra in
  decode key (Some value) =
    RSchema (SchemaKey_new subject version)
      (schema_value subject version id ty schema refs mt deleted (default ∅ extra)) ∧
  encode_tombstone subject version = key ∧
  decode (encode_tombstone subject version) None = RTombstone (SchemaKey_new subject version) ∧
  decode (encode_config osubject level).1 (Some (encode_config osubject level).2) =
    RConfig (mkConfigKey "CONFIG" osubject 0) (Some (mkConfigValue level)) ∧
  decode (config_key osubject) None = RConfig (mkConfigKey "CONFIG" osubject 0) None ∧
  decode (encode_mode osubject mode).1 (Some (encode_mode osubject mode).2) =
    RMode (mkModeKey "MODE" osubject 0) (Some (mkModeValue mode)) ∧
  decode (mode_key osubject) None = RMode (mkModeKey "MODE" osubject 0) None ∧
  decode (encode_delete_subject subject version).1 (Some (encode_delete_subject subject version).2) =
    RDeleteSubject (mkDeleteSubjectKey "DELETE_SUBJECT" subject 0)
      (mkDeleteSubjectValue subject version) ∧
  decode (encode_version_high_water subject version).1
      (Some (encode_version_high_water subject version).2) =
    RVersionHighWater (mkVersionHighWaterKey "NOOP" subject 0) (mkVersionHighWaterValue version).
Proof.
  intros Hok. pose proof (decode_schema_kv_facts _ _ _ _ _ _ _ _ _ Hok) as Hs.
  assert (Hv : in_i32 version) by apply Hok.
  pose proof (decode_tombstone_facts subject version id ty schema refs mt deleted extra Hv) as [Ht1 Ht2].
  pose proof (decode_markers_facts subject osubject level mode version Hv) as Hm.
  destruct (schema_kv _ _ _ _ _ _ _ _ _) as [key value]. auto.
Qed.

Lemma to_vec_inj v v' :
  json_plain v = true → json_plain v' = true → to_vec v = to_vec v' → v = v'.
Proof.
  unfold to_vec. intros Hv Hv' Heq. apply json_parse_print in Hv, Hv'. rewrite Heq in Hv. congruence.
Qed.

(** Record keys identify what they name, which is what log compaction
    keeps apart: two [SCHEMA] keys are equal exactly for the same subject and
    version, two [CONFIG] or [MODE] keys exactly for the same subject, and a
    [SCHEMA], a [CONFIG], a [MODE], a [DELETE_SUBJECT] and a high-water key
    are never equal to one another. *)
Theorem record_keys_injective subject version subject' version' o o' d w :
  in_i32 version → in_i32 version' →
  (encode_tombstone subject version = encode_tombstone subject' version' ↔
     subject = subject' ∧ version = version') ∧
  (config_key o = config_key o' ↔ o = o') ∧ (mode_key o = mode_key o' ↔ o = o') ∧
  NoDup [encode_tombstone subject version; config_key o; mode_key o';
         (encode_delete_subject d version).1; (encode_version_high_water w version).1].
Proof.
  intros Hv Hv'.
  assert (∀ s v, in_i32 v → json_plain (ser_SchemaKey (SchemaKey_new s v)) = true) as Hsk.
  { intros s v Hi. by apply ser_SchemaKey_plain. }
  assert (∀ kt o, json_plain (ser_opt_key kt o 0) = true) as Hok by (by intros ? []).
  split_and!.
  - split; [|by intros [-> ->]]. intros Heq. apply to_vec_inj in Heq; [|by apply Hsk..].
    unfold ser_SchemaKey, SchemaKey_new in Heq. cbn [sk_keytype sk_subject sk_version sk_magic] in Heq.
    assert (ser_int version = ser_int version') as ->%ser_int_inj by congruence.
    split; [congruence|done].
  - split; [|by intros ->]. intros Heq. apply to_vec_inj in Heq; [|apply Hok..].
    injection Heq as Ho. destruct o, o'; simpl in Ho; congruence.
  - split; [|by intros ->]. intros Heq. apply to_vec_inj in Heq; [|apply Hok..].
    injection Heq as Ho. destruct o, o'; simpl in Ho; congruence.
  - apply (NoDup_fmap_1 (λ b, from_slice_value b ≫= λ v, json_get v "keytype")). simpl.
    unfold encode_tombstone, config_key, mode_key.
    rewrite !from_slice_value_print by (done || (by apply Hsk) || apply Hok). simpl.
    apply (bool_decide_unpack _). vm_compute. done.
Qed.
End roundtrip.

(** ** A concrete serde for the witnesses

    The content as a tree of leaves, printed as the bits of its code: a text
    format of its own, with the round trip the registry relies on. *)

Abbreviation leaf := (bool + (Z + Z) + string)%type.

Fixpoint tree_of_json (v : json) : gen_tree leaf :=
  match v with
  | JNull => GenNode 0 []
  | JBool b => GenLeaf (inl (inl b))
  | JNumber (PosInt n) => GenLeaf (inl (inr (inl n)))
  | JNumber (NegInt n) => GenLeaf (inl (inr (inr n)))
  | JNumber (Float _) => GenNode 0 []
  | JString s => GenLeaf (inr s)
  | JArray l => GenNode 1 (map tree_of_json l)
  | JObject l => GenNode 2 (map (λ kv, GenNode 3 [GenLeaf (inr kv.1); tree_of_json kv.2]) l)
  end.

Fixpoint json_of_tree (t : gen_tree leaf) : json :=
  match t with
  | GenLeaf (inl (inl b)) => JBool b
  | GenLeaf (inl (inr (inl n))) => JNumber (PosInt n)
  | GenLeaf (inl (inr (inr n))) => JNumber (NegInt n)
  | GenLeaf (inr s) => JString s
  | GenNode 1 l => JArray (map json_of_tree l)
  | GenNode 2 l =>
      JObject (flat_map (λ t, match json_of_tree t with JObject l => l | _ => [] end) l)
  | GenNode 3 [GenLeaf (inr k); t] => JObject [(k, json_of_tree t)]
  | _ => JNull
  end.

Lemma json_of_tree_of_json v : json_plain v = true → json_of_tree (tree_of_json v) = v.
Proof.
  induction v as [| |n| |l IH|l IH] using json_rect'; simpl; try done.
  - by destruct n.
  - intros Hp. f_equal. induction IH as [|x l Hx _ IHl]; simpl in *; [done|].
    apply andb_true_iff in Hp as [Hpx Hp]. by rewrite Hx, IHl.
  - intros Hp. f_equal. induction IH as [|[k x] l Hx _ IHl]; simpl in *; [done|].
    apply andb_true_iff in Hp as [Hpx Hp]. by rewrite Hx, IHl.
Qed.

Fixpoint bits_of (p : positive) : string :=
  match p with
  | xH => EmptyString
  | xO p => String "0"%char (bits_of p)
  | xI p => String "1"%char (bits_of p)
  end.

Fixpoint of_bits (s : string) : option positive :=
  match s with
  | EmptyString => Some xH
  | String c s' =>
      p ← of_bits s';
      if Ascii.eqb c "0"%char then Some (xO p) else if Ascii.eqb c "1"%char then Some (xI p) else None
  end.

Lemma of_bits_of p : of_bits (bits_of p) = Some p.
Proof. induction p as [p IH|p IH|]; simpl; rewrite ?IH; done. Qed.

Definition tree_serde : SerdeJson := {|
  json_print v := bits_of (countable.encode (tree_of_json v));
  json_parse s := p ← of_bits s; json_of_tree <$> countable.decode p;
|}.

Definition tree_serde_laws : @SerdeJsonLaws tree_serde.
Proof.
  constructor. intros v Hp. simpl. rewrite of_bits_of. simpl. rewrite decode_encode. simpl.
  by rewrite json_of_tree_of_json.
Qed.

Section witnesses.
#[local] Existing Instance tree_serde.
#[local] Existing Instance tree_serde_laws.

Lemma value_ok_example : value_ok (schema_value "s" 1 7 Json "T" [mkSchemaReference "n" "r" 2]
  (Some "M") true {[ "ruleSet" := JNull ]}).
Proof.
  split_and!; try done.
  - repeat constructor; done.
  - intros k v Hk. cbn [sv_extra schema_value] in Hk.
    apply lookup_singleton_Some in Hk as [<- <-]. split_and!; [|done|done].
    intros Hin%existsb_eqb. done.
Qed.

Lemma records_round_trip_witness :
  let '(key, value) := schema_kv "s" 1 7 Json "T" [mkSchemaReference "n" "r" 2] (Some "M") true
    (Some {[ "ruleSet" := JNull ]}) in
  decode key (Some value) = RSchema (SchemaKey_new "s" 1)
    (schema_value "s" 1 7 Json "T" [mkSchemaReference "n" "r" 2] (Some "M") true
       {[ "ruleSet" := JNull ]}).
Proof.
  exact (proj1 (records_round_trip "s" 1 7 Json "T" [mkSchemaReference "n" "r" 2] (Some "M") true
    (Some {[ "ruleSet" := JNull ]}) (Some "s") "FULL" "READONLY" value_ok_example)).
Defined.

Lemma record_keys_injective_witness :
  encode_tombstone "s" 1 = encode_tombstone "s" 1 ∧ config_key None ≠ config_key (Some "s").
Proof.
  destruct (record_keys_injective "s" 1 "s" 1 None (Some "s") "d" "w") as (H1 & H2 & _); [done..|].
  split; [by apply H1|]. intros Heq. apply H2 in Heq. discriminate.
Defined.
End witnesses.
