(* ===== verification/Matching.v ===== *)
(** * Matching the branches of combinators (format/json/diff.rs)

    [maximum_matching] pairs the branches of two combinators by augmenting
    paths: [augment] tries the candidates of a branch, evicting an owner that
    can move elsewhere. Here the edges are given as lists of candidates; the
    JSON Schema diff supplies them. The theorem is that the count is the size
    of a largest matching. *)

From stdpp Require Import base gmap list sets fin_sets.
From Stdlib Require Import Lia.
From S2P Require Import Prelude.

Lemma Forall2_in_l {A B} {P : A → B → Prop} {l k x} :
  Forall2 P l k → x ∈ l → ∃ y, y ∈ k ∧ P x y.
Proof.
  induction 1 as [|a b l k Hab _ IH]; [by intros ?%not_elem_of_nil|].
  intros [->|Hx]%elem_of_cons; [exists b; split; [by left|done]|].
  destruct (IH Hx) as (y & ? & ?). exists y. split; [by right|done].
Qed.

(** Distinct numbers below a bound. *)
Lemma NoDup_below (l : list nat) n : NoDup l → (∀ x, x ∈ l → x < n) → length l ≤ n.
Proof.
  intros Hnd Hlt. rewrite <- (length_seq n 0). apply submseteq_length, NoDup_submseteq; [done|].
  intros x Hx%Hlt. apply elem_of_seq. lia.
Qed.

Section matching.
Context (edges : list (list nat)).

(** The loop over [edges[index]]; [recur] is the recursive call. [None] is out
    of fuel, or an index out of range. *)
Fixpoint try_candidates
    (recur : nat → list bool → list (option nat) → option (bool * list bool * list (option nat)))
    (index : nat) (candidates : list nat) (seen : list bool) (matched : list (option nat))
    : option (bool * list bool * list (option nat)) :=
  match candidates with
  | [] => Some (false, seen, matched)
  | candidate :: rest =>
      match seen !! candidate with
      | None => None
      | Some true => try_candidates recur index rest seen matched
      | Some false =>
          let seen := <[ candidate := true ]> seen in
          match matched !! candidate with
          | None => None
          | Some None => Some (true, seen, <[ candidate := Some index ]> matched)
          | Some (Some owner) =>
              '(moved, seen', matched') ← recur owner seen matched;
              if moved : bool then Some (true, seen', <[ candidate := Some index ]> matched')
              else try_candidates recur index rest seen' matched'
          end
      end
  end.

Fixpoint augment (fuel : nat) (index : nat) (seen : list bool) (matched : list (option nat))
    : option (bool * list bool * list (option nat)) :=
  match fuel with
  | O => None
  | S fuel' =>
      match edges !! index with
      | None => None
      | Some candidates => try_candidates (augment fuel') index candidates seen matched
      end
  end.

(** The filter over the branches: how many of [indices] found a partner. Each
    call has a fresh [seen]; a call nests at most once per candidate. *)
Fixpoint count_matched (width : nat) (indices : list nat) (matched : list (option nat))
    : option (nat * list (option nat)) :=
  match indices with
  | [] => Some (0, matched)
  | index :: rest =>
      '(found, _, matched') ← augment (S (S width)) index (replicate width false) matched;
      '(count, matched'') ← count_matched width rest matched';
      Some ((if found : bool then S count else count), matched'')
  end.

Definition matching_size (width : nat) : option nat :=
  fst <$> count_matched width (seq 0 (length edges)) (replicate width None).

(** ** Reference *)

Definition edge (index candidate : nat) : Prop :=
  ∃ candidates, edges !! index = Some candidates ∧ candidate ∈ candidates.

(** Pairs along edges, no branch used twice. *)
Record matching (m : list (nat * nat)) : Prop := {
  m_edges : ∀ i c, (i, c) ∈ m → edge i c;
  m_left : NoDup m.*1;
  m_right : NoDup m.*2;
}.

(** ** Augmenting paths *)

Definition owner (matched : list (option nat)) (c i : nat) : Prop := matched !! c = Some (Some i).

(** Candidates leading from [index] to a free one, each edge's target owned by
    the next index, through unseen candidates only. *)
Inductive path (matched : list (option nat)) (seen : list bool) : nat → list nat → Prop :=
  | path_free i c : edge i c → seen !! c = Some false → matched !! c = Some None →
      path matched seen i [c]
  | path_step i c o cs : edge i c → seen !! c = Some false → owner matched c o →
      c ∉ cs → path matched seen o cs → path matched seen i (c :: cs).

(** Each candidate of the path goes to the index before it. *)
Fixpoint flip (matched : list (option nat)) (i : nat) (cs : list nat) : list (option nat) :=
  match cs with
  | [] => matched
  | c :: cs' =>
      match matched !! c with
      | Some (Some o) => <[ c := Some i ]> (flip matched o cs')
      | _ => <[ c := Some i ]> matched
      end
  end.

Definition sees (seen : list bool) (c : nat) : Prop := seen !! c = Some true.

#[local] Instance sees_dec seen c : Decision (sees seen c) := ltac:(unfold sees; apply _).

(** A failed search saw everything it could reach, all of it owned. *)
Record exhausted (matched : list (option nat)) (seen seen' : list bool) : Prop := {
  ex_grow : ∀ c, sees seen c → sees seen' c;
  ex_new : ∀ c, sees seen' c → ¬ sees seen c → ∃ o, owner matched c o ∧ ∀ c', edge o c' → sees seen' c';
  ex_length : length seen' = length seen;
}.

Definition searched (i : nat) (seen : list bool) (matched : list (option nat))
    (r : option (bool * list bool * list (option nat))) : Prop :=
  match r with
  | None => False
  | Some (true, _, matched') => ∃ cs, path matched seen i cs ∧ matched' = flip matched i cs
  | Some (false, seen', matched') =>
      matched' = matched ∧ exhausted matched seen seen' ∧ ∀ c, edge i c → sees seen' c
  end.

Context (width : nat).

(** The search stays in range. *)
Record ranged (seen : list bool) (matched : list (option nat)) : Prop := {
  rg_seen : length seen = width;
  rg_matched : length matched = width;
  rg_edges : ∀ i c, edge i c → c < width;
  rg_owners : ∀ c o, owner matched c o → o < length edges;
}.

Definition unseen (seen : list bool) : nat := length (filter (λ b, b = false) seen).

Lemma unseen_mark seen c :
  seen !! c = Some false → unseen seen = S (unseen (<[ c := true ]> seen)).
Proof.
  intros Hc. unfold unseen.
  pose proof (take_drop_middle _ _ _ Hc) as Hsplit.
  rewrite insert_take_drop by (by eapply lookup_lt_Some). rewrite <- Hsplit at 1.
  rewrite !filter_app, filter_cons_True, filter_cons_False, !length_app by done. simpl. lia.
Qed.

Lemma sees_mark seen c x :
  c < length seen → sees (<[ c := true ]> seen) x ↔ x = c ∨ sees seen x.
Proof.
  intros Hc. unfold sees. destruct (decide (x = c)) as [->|].
  - rewrite list_lookup_insert_eq by done. naive_solver.
  - rewrite list_lookup_insert_ne by done. naive_solver.
Qed.

Lemma exhausted_refl matched seen : exhausted matched seen seen.
Proof. by split. Qed.

Lemma exhausted_trans matched s1 s2 s3 :
  exhausted matched s1 s2 → exhausted matched s2 s3 → exhausted matched s1 s3.
Proof.
  intros [G1 N1 L1] [G2 N2 L2]. split; [auto| |congruence].
  intros c H3 H1. destruct (decide (sees s2 c)) as [H2|H2]; [|by apply N2].
  destruct (N1 c H2 H1) as (o & ? & ?). exists o. auto.
Qed.

Lemma unseen_exhausted matched seen seen' :
  exhausted matched seen seen' → unseen seen' ≤ unseen seen.
Proof.
  intros [G _ L]. unfold sees, unseen in *. revert seen' G L.
  induction seen as [|b seen IH]; intros [|b' seen'] G L; try done.
  assert (length (filter (λ b, b = false) seen') ≤ length (filter (λ b, b = false) seen)).
  { apply IH; [|by injection L]. intros c. apply (G (S c)). }
  destruct b, b'; rewrite ?filter_cons; simpl; try lia.
  specialize (G 0 eq_refl). done.
Qed.

(** A path through candidates unseen later was one before. *)
Lemma path_weaken matched seen seen' i cs :
  (∀ c, seen' !! c = Some false → seen !! c = Some false) →
  path matched seen' i cs → path matched seen i cs.
Proof. intros Hs. induction 1; econstructor; eauto. Qed.

Lemma path_unseen matched seen i cs c : path matched seen i cs → c ∈ cs → seen !! c = Some false.
Proof.
  induction 1; intros Hc; [by apply list_elem_of_singleton in Hc as ->|].
  apply elem_of_cons in Hc as [->|Hc]; auto.
Qed.

Lemma exhausted_unseen matched seen seen' c :
  exhausted matched seen seen' → seen' !! c = Some false → seen !! c = Some false.
Proof.
  intros [G _ L] Hc. pose proof (lookup_lt_Some _ _ _ Hc).
  destruct (lookup_lt_is_Some_2 seen c) as [b Hb]; [lia|].
  destruct b; [|done]. apply G in Hb. unfold sees in Hb. congruence.
Qed.

(** The loop, given the recursive calls. *)
Lemma try_candidates_searched recur fuel i cands : ∀ seen matched,
  (∀ o seen', ranged seen' matched → o < length edges → unseen seen' < fuel →
     searched o seen' matched (recur o seen' matched)) →
  (∀ c, c ∈ cands → edge i c) →
  (∀ c, edge i c → c ∈ cands ∨ sees seen c) →
  ranged seen matched → unseen seen ≤ fuel →
  searched i seen matched (try_candidates recur i cands seen matched).
Proof.
  induction cands as [|c cands IH]; intros seen matched Hrec Hc Hall Hr Hu; cbn [try_candidates].
  { split_and!; [done|apply exhausted_refl|]. intros c Hi. destruct (Hall c Hi) as [H|]; [|done].
    by apply not_elem_of_nil in H. }
  pose proof (Hc c (list_elem_of_here _ _)) as Hic.
  pose proof (rg_edges _ _ Hr _ _ Hic) as Hlt.
  destruct (lookup_lt_is_Some_2 seen c) as [b Hb]; [by rewrite (rg_seen _ _ Hr)|]. rewrite Hb.
  assert (Hnext : ∀ seen', exhausted matched seen seen' → sees seen' c →
    searched i seen matched (try_candidates recur i cands seen' matched)).
  { intros seen' Hex Hs. assert (Hr' : ranged seen' matched).
    { destruct Hr. split; try done. by rewrite (ex_length _ _ _ Hex). }
    assert (searched i seen' matched (try_candidates recur i cands seen' matched)) as Hw.
    { apply IH; auto using list_elem_of_further.
      - intros c' Hc'. destruct (Hall c' Hc') as [[->|]%elem_of_cons|Hs']; auto.
        right. by apply (ex_grow _ _ _ Hex).
      - pose proof (unseen_exhausted _ _ _ Hex). lia. }
    destruct (try_candidates recur i cands seen' matched) as [[[[] s2] m2]|]; cbn in *; [|..].
    - destruct Hw as (cs & Hp & ->). exists cs. split; [|done].
      eapply path_weaken; [|done]. intros ?. by eapply exhausted_unseen.
    - destruct Hw as (-> & Hex2 & Hs2). split_and!; auto. by eapply exhausted_trans.
    - done. }
  destruct b; [by apply Hnext; [apply exhausted_refl|]|].
  destruct (lookup_lt_is_Some_2 matched c) as [own Hown]; [by rewrite (rg_matched _ _ Hr)|]. rewrite Hown.
  destruct own as [o|]; [|exists [c]; cbn; rewrite Hown; split; [by constructor|done]].
  assert (Hr1 : ranged (<[ c := true ]> seen) matched).
  { destruct Hr. split; try done. by rewrite length_insert. }
  pose proof (unseen_mark _ _ Hb) as Hmark.
  assert (searched o (<[ c := true ]> seen) matched (recur o (<[ c := true ]> seen) matched)) as Hs.
  { apply Hrec; [done|by eapply (rg_owners _ _ Hr)|lia]. }
  destruct (recur o _ matched) as [[[[] s1] m1]|]; cbn in *; [|..|done].
  - destruct Hs as (cs & Hp & ->). exists (c :: cs). cbn. rewrite Hown. split; [|done].
    apply (path_step _ _ _ _ o); auto.
    + intros Hin. apply (path_unseen _ _ _ _ _ Hp) in Hin.
      rewrite list_lookup_insert_eq in Hin by (rewrite (rg_seen _ _ Hr); lia). done.
    + eapply path_weaken; [|done]. intros x Hx. apply list_lookup_insert_Some in Hx. naive_solver.
  - destruct Hs as (-> & Hex & Hsee). apply Hnext.
    + destruct Hex as [G N L]. assert (Hm := sees_mark seen c).
      rewrite (rg_seen _ _ Hr) in Hm. split; [|..|by rewrite L, length_insert].
      * intros x Hx. apply G, Hm; auto.
      * intros x Hx Hnx. destruct (decide (x = c)) as [->|]; [by exists o|].
        apply N; [done|]. rewrite Hm by done. tauto.
    + apply (ex_grow _ _ _ Hex). apply sees_mark; [by rewrite (rg_seen _ _ Hr)|by left].
Qed.

Lemma augment_searched fuel : ∀ i seen matched,
  ranged seen matched → i < length edges → unseen seen < fuel →
  searched i seen matched (augment fuel i seen matched).
Proof.
  induction fuel as [|fuel IH]; intros i seen matched Hr Hi Hu; [lia|]. cbn.
  destruct (lookup_lt_is_Some_2 edges i Hi) as [cands Hc]. rewrite Hc.
  apply (try_candidates_searched _ fuel); auto with lia.
  - intros c Hin. by exists cands.
  - intros c (cands' & Hc' & Hin). left. congruence.
Qed.

(** ** Flipping a path *)

Definition injective (matched : list (option nat)) : Prop :=
  ∀ c c' i, owner matched c i → owner matched c' i → c = c'.

Lemma length_flip matched i cs : length (flip matched i cs) = length matched.
Proof.
  revert i. induction cs as [|c cs IH]; intros i; cbn; [done|].
  destruct (matched !! c) as [[o|]|]; by rewrite length_insert.
Qed.

Record flipped (matched : list (option nat)) (i : nat) (cs : list nat) (m' : list (option nat)) : Prop := {
  fl_out : ∀ x, x ∉ cs → m' !! x = matched !! x;
  fl_edge : ∀ x, x ∈ cs → ∃ j, owner m' x j ∧ edge j x;
  fl_from : ∀ x j, x ∈ cs → owner m' x j → j = i ∨ ∃ y, y ∈ cs ∧ owner matched y j;
  fl_head : ∃ x, x ∈ cs ∧ owner m' x i;
  fl_moved : ∀ y j, y ∈ cs → owner matched y j → ∃ x, x ∈ cs ∧ owner m' x j;
  fl_inj : injective matched → (∀ y, y ∈ cs → ¬ owner matched y i) →
    ∀ x y j, x ∈ cs → y ∈ cs → owner m' x j → owner m' y j → x = y;
}.

Lemma owner_insert matched c i x j :
  c < length matched →
  owner (<[ c := Some i ]> matched) x j ↔ (x = c ∧ j = i) ∨ (x ≠ c ∧ owner matched x j).
Proof.
  intros Hc. unfold owner. destruct (decide (x = c)) as [->|].
  - rewrite list_lookup_insert_eq by done. naive_solver.
  - rewrite list_lookup_insert_ne by done. naive_solver.
Qed.

Lemma path_flipped matched seen i cs :
  path matched seen i cs → flipped matched i cs (flip matched i cs).
Proof.
  induction 1 as [i c He Hs Hm|i c o cs He Hs Ho Hn Hp IH]; cbn.
  - rewrite Hm. pose proof (owner_insert matched c i) as Hoi. pose proof (lookup_lt_Some _ _ _ Hm) as Hlt.
    split; setoid_rewrite list_elem_of_singleton.
    + intros x Hx. by rewrite list_lookup_insert_ne.
    + intros x ->. exists i. split; [|done]. apply Hoi; auto.
    + intros x j -> Hj. apply Hoi in Hj; [|done]. naive_solver.
    + exists c. split; [done|]. apply Hoi; auto.
    + intros y j -> Hj. unfold owner in Hj. congruence.
    + intros _ _ x y j -> ->. done.
  - unfold owner in Ho. rewrite Ho.
    pose proof (owner_insert (flip matched o cs) c i) as Hoi.
    rewrite length_flip in Hoi. pose proof (lookup_lt_Some _ _ _ Ho) as Hlt.
    destruct IH as [O1 O2 O3 (h & O4a & O4b) O5 O6]. split; setoid_rewrite elem_of_cons.
    + intros x Hx. rewrite list_lookup_insert_ne by naive_solver. apply O1. tauto.
    + intros x [->|Hx]; [exists i; split; [apply Hoi; auto|done]|].
      destruct (O2 x Hx) as (j & Hj & ?). exists j. split; [|done]. apply Hoi; [done|].
      right. split; [by intros ->|done].
    + intros x j Hx Hj. apply Hoi in Hj; [|done]. destruct Hj as [[-> ->]|[Hne Hj]]; [by left|].
      destruct Hx as [->|Hx]; [done|]. right.
      destruct (O3 x j Hx Hj) as [->|(y & ? & ?)]; [by exists c; auto|exists y; auto].
    + exists c. split; [by left|]. apply Hoi; auto.
    + intros y j [->|Hy] Hj.
      * unfold owner in Hj. rewrite Ho in Hj. injection Hj as <-. exists h. split; [by right|].
        apply Hoi; [done|]. right. split; [by intros ->|done].
      * destruct (O5 y j Hy Hj) as (x & Hx & ?). exists x. split; [by right|].
        apply Hoi; [done|]. right. split; [by intros ->|done].
    + intros Hinj Hfresh x y j Hx Hy Hxj Hyj. apply Hoi in Hxj, Hyj; [|done..].
      assert (Hown : ∀ z, z ∈ cs → z ≠ c → owner (flip matched o cs) z i → False).
      { intros z Hz _ Hzi. destruct (O3 z i Hz Hzi) as [->|(w & Hw & Hwi)].
        - by apply (Hfresh c); [left|].
        - by apply (Hfresh w); [right|]. }
      destruct Hxj as [[-> ->]|[Hxc Hxj]], Hyj as [[-> Hji]|[Hyc Hyj]]; [done|..].
      * destruct Hy as [->|Hy]; [done|]. by destruct (Hown y).
      * subst j. destruct Hx as [->|Hx]; [done|]. by destruct (Hown x).
      * destruct Hx as [->|Hx]; [done|]. destruct Hy as [->|Hy]; [done|].
        apply (O6 Hinj) with j; auto. intros z Hz Hzo. rewrite (Hinj z c o Hzo Ho) in Hz. done.
Qed.

(** ** The invariant of the outer loop *)

(** After [k] branches: the owned ones are [owned]; the others, [failed], only
    have edges into [frozen], whose candidates are owned by branches that only
    have edges into [frozen]. *)
Record progress (k : nat) (matched : list (option nat)) (owned failed : list nat) (frozen : gset nat) : Prop := {
  pg_length : length matched = width;
  pg_inj : injective matched;
  pg_edge : ∀ c i, owner matched c i → edge i c;
  pg_owned : ∀ i, i ∈ owned ↔ ∃ c, owner matched c i;
  pg_nodup : NoDup (owned ++ failed);
  pg_split : ∀ i, i ∈ owned ++ failed ↔ i < k;
  pg_failed : ∀ i c, i ∈ failed → edge i c → c ∈ frozen;
  pg_frozen : ∀ c, c ∈ frozen → ∃ o, owner matched c o ∧ ∀ c', edge o c' → c' ∈ frozen;
}.

Lemma path_avoids_frozen matched seen i cs (frozen : gset nat) :
  (∀ c, c ∈ frozen → ∃ o, owner matched c o ∧ ∀ c', edge o c' → c' ∈ frozen) →
  path matched seen i cs → ∀ c, c ∈ cs → c ∉ frozen.
Proof.
  intros Hfr Hp.
  assert (Hhead : ∀ i cs, path matched seen i cs → (∀ c, edge i c → c ∈ frozen) → False).
  { clear i cs Hp. intros i cs. induction 1 as [i c He _ Hm|i c o cs He _ Ho _ _ IH]; intros Hall.
    - destruct (Hfr c (Hall c He)) as (o & Ho & _). unfold owner in Ho. congruence.
    - destruct (Hfr c (Hall c He)) as (o' & Ho' & Hc'). apply IH.
      unfold owner in Ho, Ho'. rewrite Ho in Ho'. by injection Ho' as ->. }
  induction Hp as [i c He _ Hm|i c o cs He Hs Ho Hn Hp IH]; intros x Hx Hf.
  - apply list_elem_of_singleton in Hx as ->. destruct (Hfr c Hf) as (o & Ho & _). unfold owner in Ho. congruence.
  - apply elem_of_cons in Hx as [->|Hx]; [|by apply (IH x)].
    destruct (Hfr c Hf) as (o' & Ho' & Hc'). apply (Hhead o cs Hp).
    unfold owner in Ho, Ho'. rewrite Ho in Ho'. by injection Ho' as ->.
Qed.

Lemma progress_success k matched owned failed frozen seen cs :
  progress k matched owned failed frozen → path matched seen k cs →
  progress (S k) (flip matched k cs) (k :: owned) failed frozen.
Proof.
  intros [Hlen Hinj Hed How Hnd Hsp Hfa Hfr] Hp.
  destruct (path_flipped _ _ _ _ Hp) as [O1 O2 O3 (h & O4a & O4b) O5 O6].
  assert (Hfresh : ∀ c, ¬ owner matched c k).
  { intros c Hc. assert (k ∈ owned ++ failed) as Hk%Hsp; [|lia].
    apply elem_of_app. left. apply How. by exists c. }
  assert (Hout : ∀ x j, x ∉ cs → owner (flip matched k cs) x j ↔ owner matched x j)
    by (intros x j Hx; unfold owner; by rewrite O1).
  split.
  - by rewrite length_flip.
  - intros x y j Hx Hy.
    destruct (decide (x ∈ cs)) as [Hxc|Hxc], (decide (y ∈ cs)) as [Hyc|Hyc];
      [by apply O6 with j|..|rewrite Hout in Hx, Hy by done; by apply Hinj with j].
    + rewrite Hout in Hy by done. destruct (O3 x j Hxc Hx) as [->|(z & Hz & Hzj)];
        [by destruct (Hfresh y)|]. by rewrite (Hinj y z j) in Hyc.
    + rewrite Hout in Hx by done. destruct (O3 y j Hyc Hy) as [->|(z & Hz & Hzj)];
        [by destruct (Hfresh x)|]. by rewrite (Hinj x z j) in Hxc.
  - intros c j Hc. destruct (decide (c ∈ cs)) as [Hin|Hin]; [|rewrite Hout in Hc by done; auto].
    destruct (O2 c Hin) as (j' & Hj' & ?). unfold owner in *. congruence.
  - intros j. rewrite elem_of_cons, How. split.
    + intros [->|(c & Hc)]; [by exists h|]. destruct (decide (c ∈ cs)) as [Hin|Hin].
      * destruct (O5 c j Hin Hc) as (x & ? & ?). by exists x.
      * exists c. by apply Hout.
    + intros (c & Hc). destruct (decide (c ∈ cs)) as [Hin|Hin].
      * destruct (O3 c j Hin Hc) as [->|(y & ? & ?)]; [by left|right; by exists y].
      * right. exists c. by apply Hout.
  - cbn. apply NoDup_cons. split; [|done]. intros Hk%Hsp. lia.
  - intros j. cbn. rewrite elem_of_cons, Hsp. lia.
  - done.
  - intros c Hc. destruct (Hfr c Hc) as (o & Ho & Hc'). exists o. split; [|done].
    apply Hout; [|done]. intros Hin. by apply (path_avoids_frozen _ _ _ _ frozen Hfr Hp c).
Qed.

Lemma progress_failure k matched owned failed frozen seen' :
  progress k matched owned failed frozen →
  exhausted matched (replicate width false) seen' → (∀ c, edge k c → sees seen' c) →
  (∀ i c, edge i c → c < width) →
  progress (S k) matched owned (k :: failed)
    (frozen ∪ filter (λ c, sees seen' c) (set_seq 0 width)).
Proof.
  intros [Hlen Hinj Hed How Hnd Hsp Hfa Hfr] [_ Hnew _] Hk Hrange.
  assert (Hin : ∀ i c, edge i c → sees seen' c → c ∈ frozen ∪ filter (λ c, sees seen' c) (set_seq 0 width)).
  { intros i c Hi Hs. apply elem_of_union_r, elem_of_filter. split; [done|].
    apply elem_of_set_seq. specialize (Hrange i c Hi). lia. }
  split; auto.
  - apply NoDup_app. rewrite NoDup_app in Hnd. destruct Hnd as (Ho & Hd & Hf).
    split_and!; [done| |].
    + intros x Hx [->|Hx']%elem_of_cons; [|by apply (Hd x)].
      assert (k ∈ owned ++ failed) as Hk'%Hsp by (apply elem_of_app; by left). lia.
    + apply NoDup_cons. split; [|done]. intros Hx.
      assert (k ∈ owned ++ failed) as Hk'%Hsp by (apply elem_of_app; by right). lia.
  - intros i. specialize (Hsp i). rewrite elem_of_app in *. rewrite elem_of_cons.
    rewrite Nat.lt_succ_r, Nat.le_lteq, <- Hsp. tauto.
  - intros i c [->|Hi]%elem_of_cons Hc; [by eapply Hin; eauto|].
    apply elem_of_union_l. by eapply Hfa.
  - intros c [Hc|Hc]%elem_of_union.
    + destruct (Hfr c Hc) as (o & ? & ?). exists o. split; [done|]. intros. apply elem_of_union_l. auto.
    + apply elem_of_filter in Hc as [Hc _]. destruct (Hnew c Hc) as (o & ? & Hc').
      { unfold sees. intros []%lookup_replicate. done. }
      exists o. split; [done|]. intros c' He. eapply Hin; eauto.
Qed.

Lemma unseen_fresh n : unseen (replicate n false) = n.
Proof. unfold unseen. induction n; simpl; [done|]. by rewrite IHn. Qed.

Lemma count_matched_progress n : ∀ k matched owned failed frozen,
  (∀ i c, edge i c → c < width) → k + n = length edges →
  progress k matched owned failed frozen →
  ∃ count matched' owned' failed' frozen',
    count_matched width (seq k n) matched = Some (count, matched') ∧
    length owned' = length owned + count ∧
    progress (k + n) matched' owned' failed' frozen'.
Proof.
  induction n as [|n IH]; intros k matched owned failed frozen Hrange Hk Hp; cbn [seq count_matched].
  { exists 0, matched, owned, failed, frozen. rewrite !Nat.add_0_r. auto. }
  assert (Hr : ranged (replicate width false) matched).
  { split; [by rewrite length_replicate|apply (pg_length _ _ _ _ _ Hp)|done|].
    intros c o Ho. assert (o ∈ owned ++ failed) as Ho'%(pg_split _ _ _ _ _ Hp); [|lia].
    apply elem_of_app. left. apply (pg_owned _ _ _ _ _ Hp). by exists c. }
  pose proof (augment_searched (S (S width)) k (replicate width false) matched Hr
                ltac:(lia) ltac:(rewrite unseen_fresh; lia)) as Hs.
  destruct (augment (S (S width)) k _ matched) as [[[[] s1] m1]|]; cbn in *; [|..|done].
  - destruct Hs as (cs & Hpath & ->).
    destruct (IH (S k) _ _ _ _ Hrange ltac:(lia) (progress_success _ _ _ _ _ _ _ Hp Hpath))
      as (cnt & m' & o' & f' & fr' & -> & Hl & Hp').
    exists (S cnt), m', o', f', fr'. cbn in *. rewrite <- (Nat.add_succ_comm k n). split_and!; [done|lia|done].
  - destruct Hs as (-> & Hex & Hsee).
    destruct (IH (S k) _ _ _ _ Hrange ltac:(lia) (progress_failure _ _ _ _ _ _ Hp Hex Hsee Hrange))
      as (cnt & m' & o' & f' & fr' & -> & Hl & Hp').
    exists cnt, m', o', f', fr'. cbn in *. rewrite <- (Nat.add_succ_comm k n). auto.
Qed.

(** The owned branches are matched. *)
Lemma progress_matching k matched owned failed frozen :
  progress k matched owned failed frozen → ∃ m, matching m ∧ length m = length owned.
Proof.
  intros [_ _ Hed How Hnd _ _ _]. apply NoDup_app in Hnd as (Hnd & _ & _).
  assert (∃ m, m.*1 = owned ∧ ∀ i c, (i, c) ∈ m → owner matched c i) as (m & Hm1 & Hm).
  { assert (Hex : ∀ i, i ∈ owned → ∃ c, owner matched c i) by (intros i; apply How).
    clear -Hex. induction owned as [|i l IH]; [exists []; split; [done|]; by intros ?? ?%not_elem_of_nil|].
    destruct IH as (m & <- & Hm); [intros; apply Hex; by right|].
    destruct (Hex i (list_elem_of_here _ _)) as [c Hc]. exists ((i, c) :: m). split; [done|].
    intros i' c' [[= -> ->]|Hin]%elem_of_cons; auto. }
  exists m. split; [split|by rewrite <- Hm1, length_fmap].
  - auto.
  - by rewrite Hm1.
  - assert (Hnd' : NoDup m) by (rewrite <- Hm1 in Hnd; by eapply NoDup_fmap_1).
    apply NoDup_fmap_2_strong; [|done]. intros [i c] [i' c'] H1 H2 E. cbn in E. subst c'.
    apply Hm in H1, H2. unfold owner in *. congruence.
Qed.

(** A matching uses at most [frozen] for the branches that only lead there. *)
Lemma progress_bound matched owned failed frozen m :
  progress (length edges) matched owned failed frozen → matching m → length m ≤ length owned.
Proof.
  intros [_ Hinj Hed How Hnd Hsp Hfa Hfr] [Hme Hml Hmr].
  assert (∃ os, length os = size frozen ∧ NoDup os ∧ (∀ o, o ∈ os → o ∈ owned) ∧
    ∀ o c, o ∈ os → edge o c → c ∈ frozen) as (os & Hos & Hnos & Hoo & Hoe).
  { assert (∃ os, length os = length (elements frozen) ∧
      Forall2 (λ o c, owner matched c o ∧ ∀ c', edge o c' → c' ∈ frozen) os (elements frozen))
      as (os & Hl & Hall).
    { assert (Hex : ∀ c, c ∈ elements frozen → ∃ o, owner matched c o ∧ ∀ c', edge o c' → c' ∈ frozen)
        by (intros c Hc%elem_of_elements; auto).
      revert Hex. generalize (elements frozen) as cs. induction cs as [|c cs IH]; intros Hex.
      - exists []. split; [done|constructor].
      - destruct (Hex c (list_elem_of_here _ _)) as [o Ho].
        destruct IH as (os & Hl & Hall); [intros; apply Hex; by right|].
        exists (o :: os). cbn. split; [by rewrite Hl|by constructor]. }
    exists os. split_and!; [done| | |].
    - assert (Hnd2 : NoDup (elements frozen)) by apply NoDup_elements. clear -Hall Hnd2 Hinj.
      induction Hall as [|o c os cs [Ho _] Hall IH]; [constructor|].
      apply NoDup_cons in Hnd2 as [Hc Hnd2]. apply NoDup_cons. split; [|auto].
      intros Hin. destruct (Forall2_in_l Hall Hin) as (c' & Hc' & Ho' & _).
      by rewrite (Hinj c c' o Ho Ho') in Hc.
    - intros o Hin. destruct (Forall2_in_l Hall Hin) as (c & _ & Ho & _).
      apply How. by exists c.
    - intros o c Hin. destruct (Forall2_in_l Hall Hin) as (c' & _ & _ & Hc'). auto. }
  set (inside := λ p : nat * nat, p.1 ∈ os ++ failed).
  assert (Hsplit : length m = length (filter inside m) + length (filter (λ p, ¬ inside p) m)).
  { rewrite <- length_app. apply Permutation_length. symmetry. apply (filter_app_complement inside). }
  assert (H1 : length (filter inside m) ≤ size frozen).
  { rewrite <- (length_fmap snd). unfold size, set_size. apply submseteq_length, NoDup_submseteq.
    - eapply sublist_NoDup; [apply Hmr|]. apply fmap_sublist, sublist_filter.
    - intros c ([i c'] & -> & [Hi Hin]%list_elem_of_filter)%list_elem_of_fmap. apply elem_of_elements.
      apply elem_of_app in Hi as [Hi|Hi]; [eapply Hoe|eapply Hfa]; eauto. }
  assert (Hnd' := Hnd). apply NoDup_app in Hnd' as (_ & Hdis & Hnf).
  assert (H2 : length (filter (λ p, ¬ inside p) m) + (length os + length failed) ≤ length edges).
  { rewrite <- (length_fmap fst), <- !length_app. apply NoDup_below.
    - apply NoDup_app. split; [eapply sublist_NoDup; [apply Hml|]; apply fmap_sublist, sublist_filter|].
      split; [|apply NoDup_app; split_and!; [done| |done]; intros x Hx%Hoo; by apply Hdis].
      intros i ([i' c] & -> & [Hi Hin]%list_elem_of_filter)%list_elem_of_fmap. done.
    - intros i [Hi|[Hi|Hi]%elem_of_app]%elem_of_app.
      + apply list_elem_of_fmap in Hi as ([i' c] & -> & [_ Hin]%list_elem_of_filter).
        destruct (Hme _ _ Hin) as (cands & Hc & _). by eapply lookup_lt_Some.
      + apply Hsp, elem_of_app. left. auto.
      + apply Hsp, elem_of_app. auto. }
  assert (H3 : length edges ≤ length owned + length failed).
  { rewrite <- length_app, <- (length_seq (length edges) 0). apply submseteq_length, NoDup_submseteq.
    - apply NoDup_seq.
    - intros i Hi%elem_of_seq. apply Hsp. lia. }
  lia.
Qed.
End matching.

(** The count is the size of a largest matching. *)
Lemma matching_size_spec edges width :
  (∀ i c, edge edges i c → c < width) →
  ∃ k, matching_size edges width = Some k ∧
    (∃ m, matching edges m ∧ length m = k) ∧ ∀ m, matching edges m → length m ≤ k.
Proof.
  intros Hrange.
  assert (Hp : progress edges width 0 (replicate width None) [] [] ∅).
  { split; cbn; try (by intros ?? ?%not_elem_of_nil); try (intros ? ?; set_solver).
    - by rewrite length_replicate.
    - intros c c' i [? ?]%lookup_replicate. done.
    - intros c i [? ?]%lookup_replicate. done.
    - intros i. split; [by intros ?%not_elem_of_nil|]. intros [c [? ?]%lookup_replicate]. done.
    - constructor.
    - intros i. split; [by intros ?%not_elem_of_nil|lia]. }
  destruct (count_matched_progress edges width (length edges) 0 _ _ _ _ Hrange eq_refl Hp)
    as (k & matched & owned & failed & frozen & Hc & Hl & Hp').
  exists k. unfold matching_size. rewrite Hc. cbn in *. split_and!; [done| |].
  - destruct (progress_matching _ _ _ _ _ _ _ Hp') as (m & ? & ?). exists m. split; [done|lia].
  - intros m Hm. pose proof (progress_bound _ _ _ _ _ _ _ Hp' Hm). lia.
Qed.
