(* ===== verification/JsonDiff.v ===== *)
(** * The structural diff of JSON Schemas (format/json/diff.rs, compat.rs, mod.rs)

    The differences between two documents, each a [serde_json::Value], and which
    of them are backward compatible. The functions are translated one by one;
    each returns what the source pushes to [out], in order. The functions that
    compare sub-schemas take the recursive call as [recur], and [compare_schema]
    ties the knot with fuel: the recursion of the source is not structural, it
    follows [$ref]s, and it need not end. [None] is out of fuel.

    The guard [ctx.visited] is extended on entering a [$ref] and restored on
    leaving it, so it is passed down only. Regular expressions (the crate regex)
    and JSON pointers (serde_json) are parameters. *)

From stdpp Require Import base gmap strings list pretty sorting.
From Stdlib Require Import ZArith Lia SpecFloat.
From S2P Require Import Prelude Text Float Json Types Record Matching.

Inductive Kind :=
  | TypeNarrowed
  | TypeExtended
  | TypeChanged
  | PropertyAddedToOpenContentModel
  | PropertyRemovedFromOpenContentModel
  | PropertyAddedToClosedContentModel
  | PropertyRemovedFromClosedContentModel
  | PropertyAddedCoveredByPartiallyOpenContentModel
  | PropertyAddedNotCoveredByPartiallyOpenContentModel
  | PropertyRemovedCoveredByPartiallyOpenContentModel
  | PropertyRemovedNotCoveredByPartiallyOpenContentModel
  | PropertyWithEmptySchemaAddedToOpenContentModel
  | RequiredAttributeAdded
  | RequiredAttributeRemoved
  | RequiredAttributeWithDefaultAdded
  | RequiredPropertyWithDefaultAddedToClosedContentModel
  | AdditionalPropertiesRemoved
  | AdditionalPropertiesAdded
  | AdditionalPropertiesNarrowed
  | AdditionalPropertiesExtended
  | EnumArrayNarrowed
  | EnumArrayExtended
  | EnumArrayChanged
  | MaximumAdded
  | MaximumRemoved
  | MaximumDecreased
  | MaximumIncreased
  | MinimumAdded
  | MinimumRemoved
  | MinimumDecreased
  | MinimumIncreased
  | ExclusiveMaximumAdded
  | ExclusiveMaximumRemoved
  | ExclusiveMaximumDecreased
  | ExclusiveMaximumIncreased
  | ExclusiveMinimumAdded
  | ExclusiveMinimumRemoved
  | ExclusiveMinimumDecreased
  | ExclusiveMinimumIncreased
  | MultipleOfAdded
  | MultipleOfRemoved
  | MultipleOfReduced
  | MultipleOfExpanded
  | MultipleOfChanged
  | MaxLengthAdded
  | MaxLengthRemoved
  | MaxLengthDecreased
  | MaxLengthIncreased
  | MinLengthAdded
  | MinLengthRemoved
  | MinLengthDecreased
  | MinLengthIncreased
  | PatternAdded
  | PatternRemoved
  | PatternChanged
  | MaxItemsAdded
  | MaxItemsRemoved
  | MaxItemsDecreased
  | MaxItemsIncreased
  | MinItemsAdded
  | MinItemsRemoved
  | MinItemsDecreased
  | MinItemsIncreased
  | AdditionalItemsRemoved
  | AdditionalItemsAdded
  | AdditionalItemsNarrowed
  | AdditionalItemsExtended
  | UniqueItemsAdded
  | UniqueItemsRemoved
  | MaxPropertiesAdded
  | MaxPropertiesRemoved
  | MaxPropertiesDecreased
  | MaxPropertiesIncreased
  | MinPropertiesAdded
  | MinPropertiesRemoved
  | MinPropertiesDecreased
  | MinPropertiesIncreased
  | CombinedTypeChanged
  | CombinedTypeExtended
  | ProductTypeExtended
  | ProductTypeNarrowed
  | SumTypeExtended
  | SumTypeNarrowed
  | NotTypeExtended
  | NotTypeNarrowed
  | CombinedTypeSubschemasChanged
  | DependencyArrayAdded
  | DependencyArrayRemoved
  | DependencyArrayExtended
  | DependencyArrayNarrowed
  | DependencyArrayChanged
  | DependencySchemaAdded
  | DependencySchemaRemoved
  | ConditionalChanged.

#[global] Instance Kind_eq_dec : EqDecision Kind.
Proof. solve_decision. Defined.

(** The derived [Debug]. *)
Definition kind_debug (kind : Kind) : string :=
  match kind with
  | TypeNarrowed => "TypeNarrowed"
  | TypeExtended => "TypeExtended"
  | TypeChanged => "TypeChanged"
  | PropertyAddedToOpenContentModel => "PropertyAddedToOpenContentModel"
  | PropertyRemovedFromOpenContentModel => "PropertyRemovedFromOpenContentModel"
  | PropertyAddedToClosedContentModel => "PropertyAddedToClosedContentModel"
  | PropertyRemovedFromClosedContentModel => "PropertyRemovedFromClosedContentModel"
  | PropertyAddedCoveredByPartiallyOpenContentModel => "PropertyAddedCoveredByPartiallyOpenContentModel"
  | PropertyAddedNotCoveredByPartiallyOpenContentModel => "PropertyAddedNotCoveredByPartiallyOpenContentModel"
  | PropertyRemovedCoveredByPartiallyOpenContentModel => "PropertyRemovedCoveredByPartiallyOpenContentModel"
  | PropertyRemovedNotCoveredByPartiallyOpenContentModel => "PropertyRemovedNotCoveredByPartiallyOpenContentModel"
  | PropertyWithEmptySchemaAddedToOpenContentModel => "PropertyWithEmptySchemaAddedToOpenContentModel"
  | RequiredAttributeAdded => "RequiredAttributeAdded"
  | RequiredAttributeRemoved => "RequiredAttributeRemoved"
  | RequiredAttributeWithDefaultAdded => "RequiredAttributeWithDefaultAdded"
  | RequiredPropertyWithDefaultAddedToClosedContentModel => "RequiredPropertyWithDefaultAddedToClosedContentModel"
  | AdditionalPropertiesRemoved => "AdditionalPropertiesRemoved"
  | AdditionalPropertiesAdded => "AdditionalPropertiesAdded"
  | AdditionalPropertiesNarrowed => "AdditionalPropertiesNarrowed"
  | AdditionalPropertiesExtended => "AdditionalPropertiesExtended"
  | EnumArrayNarrowed => "EnumArrayNarrowed"
  | EnumArrayExtended => "EnumArrayExtended"
  | EnumArrayChanged => "EnumArrayChanged"
  | MaximumAdded => "MaximumAdded"
  | MaximumRemoved => "MaximumRemoved"
  | MaximumDecreased => "MaximumDecreased"
  | MaximumIncreased => "MaximumIncreased"
  | MinimumAdded => "MinimumAdded"
  | MinimumRemoved => "MinimumRemoved"
  | MinimumDecreased => "MinimumDecreased"
  | MinimumIncreased => "MinimumIncreased"
  | ExclusiveMaximumAdded => "ExclusiveMaximumAdded"
  | ExclusiveMaximumRemoved => "ExclusiveMaximumRemoved"
  | ExclusiveMaximumDecreased => "ExclusiveMaximumDecreased"
  | ExclusiveMaximumIncreased => "ExclusiveMaximumIncreased"
  | ExclusiveMinimumAdded => "ExclusiveMinimumAdded"
  | ExclusiveMinimumRemoved => "ExclusiveMinimumRemoved"
  | ExclusiveMinimumDecreased => "ExclusiveMinimumDecreased"
  | ExclusiveMinimumIncreased => "ExclusiveMinimumIncreased"
  | MultipleOfAdded => "MultipleOfAdded"
  | MultipleOfRemoved => "MultipleOfRemoved"
  | MultipleOfReduced => "MultipleOfReduced"
  | MultipleOfExpanded => "MultipleOfExpanded"
  | MultipleOfChanged => "MultipleOfChanged"
  | MaxLengthAdded => "MaxLengthAdded"
  | MaxLengthRemoved => "MaxLengthRemoved"
  | MaxLengthDecreased => "MaxLengthDecreased"
  | MaxLengthIncreased => "MaxLengthIncreased"
  | MinLengthAdded => "MinLengthAdded"
  | MinLengthRemoved => "MinLengthRemoved"
  | MinLengthDecreased => "MinLengthDecreased"
  | MinLengthIncreased => "MinLengthIncreased"
  | PatternAdded => "PatternAdded"
  | PatternRemoved => "PatternRemoved"
  | PatternChanged => "PatternChanged"
  | MaxItemsAdded => "MaxItemsAdded"
  | MaxItemsRemoved => "MaxItemsRemoved"
  | MaxItemsDecreased => "MaxItemsDecreased"
  | MaxItemsIncreased => "MaxItemsIncreased"
  | MinItemsAdded => "MinItemsAdded"
  | MinItemsRemoved => "MinItemsRemoved"
  | MinItemsDecreased => "MinItemsDecreased"
  | MinItemsIncreased => "MinItemsIncreased"
  | AdditionalItemsRemoved => "AdditionalItemsRemoved"
  | AdditionalItemsAdded => "AdditionalItemsAdded"
  | AdditionalItemsNarrowed => "AdditionalItemsNarrowed"
  | AdditionalItemsExtended => "AdditionalItemsExtended"
  | UniqueItemsAdded => "UniqueItemsAdded"
  | UniqueItemsRemoved => "UniqueItemsRemoved"
  | MaxPropertiesAdded => "MaxPropertiesAdded"
  | MaxPropertiesRemoved => "MaxPropertiesRemoved"
  | MaxPropertiesDecreased => "MaxPropertiesDecreased"
  | MaxPropertiesIncreased => "MaxPropertiesIncreased"
  | MinPropertiesAdded => "MinPropertiesAdded"
  | MinPropertiesRemoved => "MinPropertiesRemoved"
  | MinPropertiesDecreased => "MinPropertiesDecreased"
  | MinPropertiesIncreased => "MinPropertiesIncreased"
  | CombinedTypeChanged => "CombinedTypeChanged"
  | CombinedTypeExtended => "CombinedTypeExtended"
  | ProductTypeExtended => "ProductTypeExtended"
  | ProductTypeNarrowed => "ProductTypeNarrowed"
  | SumTypeExtended => "SumTypeExtended"
  | SumTypeNarrowed => "SumTypeNarrowed"
  | NotTypeExtended => "NotTypeExtended"
  | NotTypeNarrowed => "NotTypeNarrowed"
  | CombinedTypeSubschemasChanged => "CombinedTypeSubschemasChanged"
  | DependencyArrayAdded => "DependencyArrayAdded"
  | DependencyArrayRemoved => "DependencyArrayRemoved"
  | DependencyArrayExtended => "DependencyArrayExtended"
  | DependencyArrayNarrowed => "DependencyArrayNarrowed"
  | DependencyArrayChanged => "DependencyArrayChanged"
  | DependencySchemaAdded => "DependencySchemaAdded"
  | DependencySchemaRemoved => "DependencySchemaRemoved"
  | ConditionalChanged => "ConditionalChanged"
  end.

Record Difference := mkDifference { df_kind : Kind; df_path : string }.

(** ** Which differences are compatible (compat.rs) *)

Definition is_backward_compatible (kind : Kind) : bool :=
  match kind with
  | TypeExtended | PropertyRemovedFromOpenContentModel | PropertyAddedToClosedContentModel
  | PropertyAddedCoveredByPartiallyOpenContentModel
  | PropertyAddedNotCoveredByPartiallyOpenContentModel
  | PropertyRemovedCoveredByPartiallyOpenContentModel
  | PropertyWithEmptySchemaAddedToOpenContentModel | RequiredAttributeRemoved
  | RequiredAttributeWithDefaultAdded | RequiredPropertyWithDefaultAddedToClosedContentModel
  | AdditionalPropertiesAdded | AdditionalPropertiesExtended | EnumArrayExtended
  | MaximumRemoved | MaximumIncreased | MinimumRemoved | MinimumDecreased
  | ExclusiveMaximumRemoved | ExclusiveMaximumIncreased | ExclusiveMinimumRemoved
  | ExclusiveMinimumDecreased | MultipleOfRemoved | MultipleOfReduced | MaxLengthRemoved
  | MaxLengthIncreased | MinLengthRemoved | MinLengthDecreased | PatternRemoved
  | MaxItemsRemoved | MaxItemsIncreased | MinItemsRemoved | MinItemsDecreased
  | AdditionalItemsAdded | AdditionalItemsExtended | UniqueItemsRemoved | MaxPropertiesRemoved
  | MaxPropertiesIncreased | MinPropertiesRemoved | MinPropertiesDecreased
  | CombinedTypeExtended | ProductTypeNarrowed | SumTypeExtended | NotTypeNarrowed
  | DependencyArrayRemoved | DependencyArrayNarrowed | DependencySchemaRemoved => true
  | _ => false
  end.

Definition messages (diffs : list Difference) : list string :=
  (λ d, kind_debug (df_kind d) +:+ " at " +:+ df_path d) <$> diffs.

(** ** Values *)

(** [Regex::new(pattern).ok()], as the test of [is_match]. *)
Class Regex := regex_new : string → option (string → bool).

(** [Value::pointer]. *)
Class JsonPointer := json_pointer : json → string → option json.

(** [Value::as_f64]. *)
Definition as_f64 (v : json) : option spec_float :=
  match v with
  | JNumber (PosInt n) | JNumber (NegInt n) => Some (f64_of_Z n)
  | JNumber (Float f) => Some f
  | _ => None
  end.

(** [PartialEq] of numbers and values: floats compare as floats. *)
Definition number_eqb (a b : number) : bool :=
  match a, b with
  | PosInt n, PosInt m | NegInt n, NegInt m => (n =? m)%Z
  | Float f, Float g => SFeqb f g
  | _, _ => false
  end.

Fixpoint json_eqb (v w : json) : bool :=
  match v, w with
  | JNull, JNull => true
  | JBool b, JBool b' => Bool.eqb b b'
  | JNumber n, JNumber n' => number_eqb n n'
  | JString s, JString s' => String.eqb s s'
  | JArray l, JArray l' =>
      (fix go l l' :=
        match l, l' with
        | [], [] => true
        | x :: l, y :: l' => json_eqb x y && go l l'
        | _, _ => false
        end) l l'
  | JObject l, JObject l' =>
      (fix go l l' :=
        match l, l' with
        | [], [] => true
        | (k, x) :: l, (k', y) :: l' => String.eqb k k' && json_eqb x y && go l l'
        | _, _ => false
        end) l l'
  | _, _ => false
  end.

Definition list_eqb (l l' : list json) : bool := json_eqb (JArray l) (JArray l').

(** [slice::join] of strings. *)
Fixpoint join_with (sep : string) (l : list string) : string :=
  match l with
  | [] => ""
  | [x] => x
  | x :: l' => x +:+ sep +:+ join_with sep l'
  end.

(** [canonicalize] (mod.rs): keys sorted, no white space; scalars and keys as
    serde_json prints them. *)
Fixpoint canonicalize `{SerdeJson} (v : json) : string :=
  match v with
  | JObject l =>
      let entries := sort_by pair_leb (map (λ kv, (kv.1, canonicalize kv.2)) l) in
      "{" +:+ join_with "," (map (λ kv, json_print (JString kv.1) +:+ ":" +:+ kv.2) entries) +:+ "}"
  | JArray l => "[" +:+ join_with "," (map canonicalize l) +:+ "]"
  | other => json_print other
  end.

(** The strings of an array, and the elements of a [BTreeSet<String>] in order. *)
Definition strings_of (l : list json) : gset string := list_to_set (omap as_str l).
Definition btree_elements (s : gset string) : list string := sort_by String.leb (elements s).

Definition is_some {A} (o : option A) : bool := match o with Some _ => true | None => false end.

(** ** The comparisons that do not recurse *)

Definition d (kind : Kind) (path : string) : list Difference := [mkDifference kind path].

Definition types_of (schema : json) : gset string :=
  match json_get schema "type" with
  | Some (JString s) => {[ s ]}
  | Some (JArray a) => strings_of a
  | _ => ∅
  end.

Definition compare_type (path : string) (orig upd : json) : list Difference :=
  let ot := types_of orig in
  let ut := types_of upd in
  if bool_decide (ot = ut) then []
  else if bool_decide (ot = {[ "integer" ]}) && bool_decide (ut = {[ "number" ]}) then d TypeExtended path
  else if (bool_decide (ot = {[ "number" ]}) && bool_decide (ut = {[ "integer" ]}))
          || (bool_decide (ot = ∅) && negb (bool_decide (ut = ∅))) then d TypeNarrowed path
  else if bool_decide (ut = ∅) && negb (bool_decide (ot = ∅)) then d TypeExtended path
  else if bool_decide (ut ⊆ ot) then d TypeNarrowed path
  else if bool_decide (ot ⊆ ut) then d TypeExtended path
  else d TypeChanged path.

Inductive ContentModel := Open | Partial | Closed | CSchema (v : json).

Definition content_model (schema : json) : ContentModel :=
  let otherwise :=
    match json_get schema "patternProperties" with
    | Some v => if is_object v then Partial else Open
    | None => Open
    end in
  match json_get schema "additionalProperties" with
  | Some (JBool false) => Closed
  | Some (JBool true) => Open
  | Some value => if is_object value then CSchema value else otherwise
  | None => otherwise
  end.

Definition is_open (m : ContentModel) : bool := match m with Open => true | _ => false end.

Definition covering_schemas `{Regex} (schema : json) (property : string) : list json :=
  (match content_model schema with CSchema value => [value] | _ => [] end) ++
  match json_get schema "patternProperties" ≫= as_object with
  | Some patterns =>
      omap (λ pv, match regex_new pv.1 with
                  | Some is_match => if is_match property then Some pv.2 else None
                  | None => None
                  end) patterns
  | None => []
  end.

Definition props (schema : json) : option (list (string * json)) :=
  json_get schema "properties" ≫= as_object.

Definition required_set (schema : json) : gset string :=
  match json_get schema "required" ≫= as_array with
  | Some a => strings_of a
  | None => ∅
  end.

Definition compare_required (path : string) (orig upd : json) : list Difference :=
  let orq := required_set orig in
  let urq := required_set upd in
  let op := default [] (props orig) in
  let up := default [] (props upd) in
  let added :=
    List.filter (λ name, is_some (assoc_get name op) && is_some (assoc_get name up))
      (btree_elements (urq ∖ orq)) in
  flat_map (λ name,
      d (if is_some (assoc_get name up ≫= λ v, json_get v "default")
         then RequiredAttributeWithDefaultAdded else RequiredAttributeAdded)
        (path +:+ "/required/" +:+ name)) added ++
  flat_map (λ name, d RequiredAttributeRemoved (path +:+ "/required/" +:+ name))
    (btree_elements (orq ∖ urq)).

Definition enum_set `{SerdeJson} (schema : json) : option (gset string) :=
  match json_get schema "enum" ≫= as_array with
  | Some arr => Some (list_to_set (map canonicalize arr))
  | None => (λ c, {[ canonicalize c ]}) <$> json_get schema "const"
  end.

Definition compare_enum `{SerdeJson} (path : string) (orig upd : json) : list Difference :=
  match enum_set orig, enum_set upd with
  | Some os, Some us =>
      if bool_decide (os = us) then []
      else if bool_decide (us ⊆ os) then d EnumArrayNarrowed path
      else if bool_decide (os ⊆ us) then d EnumArrayExtended path
      else d EnumArrayChanged path
  | None, Some _ => d EnumArrayNarrowed path
  | Some _, None => d EnumArrayExtended path
  | None, None => []
  end.

Definition num (s : json) (k : string) : option spec_float := json_get s k ≫= as_f64.

(** [compare_bound] for the four kinds of a keyword. *)
Definition compare_bound (path : string) (orig upd : json) (key : string)
    (added removed decreased increased : Kind) : list Difference :=
  match num orig key, num upd key with
  | None, Some _ => d added path
  | Some _, None => d removed path
  | Some o, Some u =>
      if f64_differ o u then (if SFltb u o then d decreased path else d increased path) else []
  | None, None => []
  end.

Definition divisible (larger smaller : spec_float) : bool :=
  let quotient := f64_div larger smaller in
  SFleb (SFabs (f64_sub quotient (f64_round quotient)))
        (f64_mul EPSILON (f64_max (SFabs quotient) (f64_of_Z 1))).

Definition compare_multiple_of (path : string) (orig upd : json) : list Difference :=
  match num orig "multipleOf", num upd "multipleOf" with
  | None, Some _ => d MultipleOfAdded path
  | Some _, None => d MultipleOfRemoved path
  | Some o, Some u =>
      if f64_differ o u then
        d (if divisible o u then MultipleOfReduced
           else if divisible u o then MultipleOfExpanded
           else MultipleOfChanged) path
      else []
  | None, None => []
  end.

Definition compare_numeric (path : string) (orig upd : json) : list Difference :=
  compare_bound path orig upd "maximum" MaximumAdded MaximumRemoved MaximumDecreased MaximumIncreased ++
  compare_bound path orig upd "minimum" MinimumAdded MinimumRemoved MinimumDecreased MinimumIncreased ++
  compare_bound path orig upd "exclusiveMaximum" ExclusiveMaximumAdded ExclusiveMaximumRemoved
    ExclusiveMaximumDecreased ExclusiveMaximumIncreased ++
  compare_bound path orig upd "exclusiveMinimum" ExclusiveMinimumAdded ExclusiveMinimumRemoved
    ExclusiveMinimumDecreased ExclusiveMinimumIncreased ++
  compare_multiple_of path orig upd.

Definition compare_pattern (path : string) (orig upd : json) : list Difference :=
  match json_get orig "pattern" ≫= as_str, json_get upd "pattern" ≫= as_str with
  | None, Some _ => d PatternAdded path
  | Some _, None => d PatternRemoved path
  | Some o, Some u => if String.eqb o u then [] else d PatternChanged path
  | None, None => []
  end.

Definition compare_string_constraints (path : string) (orig upd : json) : list Difference :=
  compare_bound path orig upd "maxLength" MaxLengthAdded MaxLengthRemoved MaxLengthDecreased MaxLengthIncreased ++
  compare_bound path orig upd "minLength" MinLengthAdded MinLengthRemoved MinLengthDecreased MinLengthIncreased ++
  compare_pattern path orig upd.

Definition compare_object_size (path : string) (orig upd : json) : list Difference :=
  compare_bound path orig upd "maxProperties" MaxPropertiesAdded MaxPropertiesRemoved
    MaxPropertiesDecreased MaxPropertiesIncreased ++
  compare_bound path orig upd "minProperties" MinPropertiesAdded MinPropertiesRemoved
    MinPropertiesDecreased MinPropertiesIncreased.

Definition compare_unique_items (path : string) (orig upd : json) : list Difference :=
  match default false (json_get orig "uniqueItems" ≫= as_bool),
        default false (json_get upd "uniqueItems" ≫= as_bool) with
  | false, true => d UniqueItemsAdded path
  | true, false => d UniqueItemsRemoved path
  | _, _ => []
  end.

Definition dependency_kind (value : json) (added : bool) : Kind :=
  if is_array value then (if added then DependencyArrayAdded else DependencyArrayRemoved)
  else (if added then DependencySchemaAdded else DependencySchemaRemoved).

(** ** The comparisons that recurse *)

(** Outputs in sequence; out of fuel once one part is. *)
Definition andthen (a b : option (list Difference)) : option (list Difference) :=
  x ← a; y ← b; Some (x ++ y).

Fixpoint collect {A} (f : A → option (list Difference)) (l : list A) : option (list Difference) :=
  match l with
  | [] => Some []
  | x :: l' => andthen (f x) (collect f l')
  end.

(** [Ctx], less the guard. *)
Record Ctx := mkCtx {
  orig_root : json;
  upd_root : json;
  orig_refs : list (string * json);
  upd_refs : list (string * json);
}.

Definition Visited : Type := gset (string * string).

Definition is_empty_object (v : json) : bool := match v with JObject [] => true | _ => false end.

Section diff.
Context `{Regex, JsonPointer, SerdeJson}.

(** A pass of [compare_schema]: path, original, update, guard. *)
Definition Compare : Type := string → json → json → Visited → option (list Difference).

Section step.
Context (recur : Compare) (ctx : Ctx).

(** A property only the original has. *)
Definition removed_property (path : string) (upd : json) (visited : Visited) (p : string * json)
    : option (list Difference) :=
  let property_path := path +:+ "/properties/" +:+ p.1 in
  let covering := covering_schemas upd p.1 in
  match content_model upd with
  | Open => Some (d PropertyRemovedFromOpenContentModel property_path)
  | Closed => Some (d PropertyRemovedFromClosedContentModel property_path)
  | Partial | CSchema _ =>
      match covering with
      | [] => Some (d PropertyRemovedNotCoveredByPartiallyOpenContentModel property_path)
      | _ =>
          andthen (Some (d PropertyRemovedCoveredByPartiallyOpenContentModel property_path))
            (collect (λ allowed, recur property_path p.2 allowed visited) covering)
      end
  end.

(** A property only the update has. *)
Definition added_property (path : string) (orig upd : json) (visited : Visited) (p : string * json)
    : option (list Difference) :=
  let property_path := path +:+ "/properties/" +:+ p.1 in
  let required := bool_decide (p.1 ∈ required_set upd) in
  let has_default := is_some (json_get p.2 "default") in
  if required && has_default && negb (is_open (content_model orig)) then
    Some (d RequiredPropertyWithDefaultAddedToClosedContentModel property_path)
  else
    andthen
      (Some (if required && negb has_default then d RequiredAttributeAdded property_path else []))
      (match content_model orig with
       | Open =>
           Some (if is_empty_object p.2 then d PropertyWithEmptySchemaAddedToOpenContentModel property_path
                 else d PropertyAddedToOpenContentModel property_path)
       | Closed => Some (d PropertyAddedToClosedContentModel property_path)
       | Partial | CSchema _ =>
           match covering_schemas orig p.1 with
           | [] => Some (d PropertyAddedNotCoveredByPartiallyOpenContentModel property_path)
           | covering =>
               andthen (Some (d PropertyAddedCoveredByPartiallyOpenContentModel property_path))
                 (collect (λ allowed, recur property_path allowed p.2 visited) covering)
           end
       end).

Definition compare_properties (path : string) (orig upd : json) (visited : Visited)
    : option (list Difference) :=
  let op := default [] (props orig) in
  let up := default [] (props upd) in
  andthen
    (collect (λ p, if is_some (assoc_get p.1 up) then Some [] else removed_property path upd visited p) op)
    (collect (λ p,
       match assoc_get p.1 op with
       | None => added_property path orig upd visited p
       | Some oschema => recur (path +:+ "/properties/" +:+ p.1) oschema p.2 visited
       end) up).

(** [additionalProperties] and [additionalItems] have one shape. *)
Definition compare_additional (key sub_path path : string) (removed added narrowed extended : Kind)
    (orig upd : json) (visited : Visited) : option (list Difference) :=
  let oa := json_get orig key in
  let ua := json_get upd key in
  let is_false v := match v with Some (JBool false) => true | _ => false end in
  let not_boolean v := match v with Some v => negb (is_boolean v) | None => false end in
  if is_false oa && negb (is_false ua) then Some (d added path)
  else if negb (is_false oa) && is_false ua then Some (d removed path)
  else if negb (is_some oa) && not_boolean ua then Some (d narrowed path)
  else if negb (is_some ua) && not_boolean oa then Some (d extended path)
  else
    match oa, ua with
    | Some oa, Some ua =>
        if negb (is_boolean oa) && negb (is_boolean ua) then recur (path +:+ sub_path) oa ua visited
        else Some []
    | _, _ => Some []
    end.

Definition compare_additional_properties (path : string) (orig upd : json) (visited : Visited)
    : option (list Difference) :=
  compare_additional "additionalProperties" "/additionalProperties" path
    AdditionalPropertiesRemoved AdditionalPropertiesAdded
    AdditionalPropertiesNarrowed AdditionalPropertiesExtended orig upd visited.

Definition compare_items (path : string) (orig upd : json) (visited : Visited)
    : option (list Difference) :=
  match json_get orig "items", json_get upd "items" with
  | Some oi, Some ui =>
      if is_object oi && is_object ui then recur (path +:+ "/items") oi ui visited
      else
        match oi, ui with
        | JArray oi, JArray ui =>
            andthen
              (collect (λ x : nat * (json * json),
                 recur (path +:+ "/items/" +:+ pretty x.1) x.2.1 x.2.2 visited)
                 (imap pair (zip oi ui)))
              (Some (if (length oi <? length ui)%nat then d AdditionalItemsRemoved (path +:+ "/items")
                     else if (length ui <? length oi)%nat then d AdditionalItemsAdded (path +:+ "/items")
                     else []))
        | _, _ => Some (d TypeChanged (path +:+ "/items"))
        end
  | _, _ => Some []
  end.

Definition compare_array_constraints (path : string) (orig upd : json) (visited : Visited)
    : option (list Difference) :=
  andthen (compare_items path orig upd visited)
  (andthen
    (Some (compare_bound path orig upd "maxItems" MaxItemsAdded MaxItemsRemoved MaxItemsDecreased MaxItemsIncreased ++
           compare_bound path orig upd "minItems" MinItemsAdded MinItemsRemoved MinItemsDecreased MinItemsIncreased))
  (andthen
    (compare_additional "additionalItems" "/additionalItems" path
       AdditionalItemsRemoved AdditionalItemsAdded AdditionalItemsNarrowed AdditionalItemsExtended
       orig upd visited)
    (Some (compare_unique_items path orig upd)))).

(** *** Combinators *)

Definition branches (schema : json) (keyword : string) : option (list json) :=
  json_get schema keyword ≫= as_array.

(** A fresh guard: [Ctx::new]. *)
Definition branch_compatible (orig upd : json) : option bool :=
  diffs ← recur "#" orig upd ∅;
  Some (forallb (λ x, is_backward_compatible (df_kind x)) diffs).

(** The candidates of one branch, by index. *)
Fixpoint branch_edges (old : json) (upd : list json) (index : nat) : option (list nat) :=
  match upd with
  | [] => Some []
  | new :: upd' =>
      compatible ← branch_compatible old new;
      rest ← branch_edges old upd' (S index);
      Some (if compatible : bool then index :: rest else rest)
  end.

Definition maximum_matching (orig upd : list json) : option nat :=
  edges ← mapM (λ old, branch_edges old upd 0) orig;
  matching_size edges (length upd).

Fixpoint any_branch (f : json → option bool) (l : list json) : option bool :=
  match l with
  | [] => Some false
  | x :: l' => b ← f x; if b : bool then Some true else any_branch f l'
  end.

Fixpoint all_branches (f : json → option bool) (l : list json) : option bool :=
  match l with
  | [] => Some true
  | x :: l' => b ← f x; if b : bool then all_branches f l' else Some false
  end.

(** Both sides have the keyword: pair the branches up. *)
Definition compare_branches (path : string) (old new : list json) (extended narrowed : Kind)
    : option (list Difference) :=
  if list_eqb old new then Some []
  else
    matched ← maximum_matching old new;
    Some (if (matched <? length old `min` length new)%nat then d CombinedTypeSubschemasChanged path
          else if (length old <? length new)%nat then d extended path
          else if (length new <? length old)%nat then d narrowed path
          else []).

Definition compare_all_of (path : string) (orig upd : json) : option (list Difference) :=
  match branches orig "allOf", branches upd "allOf" with
  | Some old, Some new =>
      compare_branches (path +:+ "/allOf") old new ProductTypeExtended ProductTypeNarrowed
  | Some _, None | None, Some _ => Some (d CombinedTypeChanged path)
  | None, None => Some []
  end.

Definition sum_of (schema : json) : option (string * list json) :=
  match branches schema "anyOf" with
  | Some value => Some ("anyOf", value)
  | None => (λ value, ("oneOf", value)) <$> branches schema "oneOf"
  end.

Definition compare_sum (path : string) (orig upd : json) : option (list Difference) :=
  match sum_of orig, sum_of upd with
  | Some (old_kind, old), Some (new_kind, new) =>
      if negb (String.eqb old_kind new_kind) then
        Some (d (if String.eqb new_kind "anyOf" then CombinedTypeExtended else CombinedTypeChanged) path)
      else compare_branches (path +:+ "/" +:+ old_kind) old new SumTypeExtended SumTypeNarrowed
  | None, Some (kind, new) =>
      b ← any_branch (λ branch, branch_compatible orig branch) new;
      Some (d (if b : bool then SumTypeExtended else CombinedTypeChanged) (path +:+ "/" +:+ kind))
  | Some (kind, old), None =>
      b ← all_branches (λ branch, branch_compatible branch upd) old;
      Some (d (if b : bool then SumTypeNarrowed else CombinedTypeChanged) (path +:+ "/" +:+ kind))
  | None, None => Some []
  end.

Definition compare_not (path : string) (orig upd : json) : option (list Difference) :=
  match json_get orig "not", json_get upd "not" with
  | Some old, Some new =>
      if json_eqb old new then Some []
      else
        b ← branch_compatible new old;
        Some (d (if b : bool then NotTypeNarrowed else NotTypeExtended) (path +:+ "/not"))
  | Some _, None | None, Some _ => Some (d CombinedTypeChanged path)
  | None, None => Some []
  end.

Definition compare_combinators (path : string) (orig upd : json) : option (list Difference) :=
  andthen (compare_all_of path orig upd) (andthen (compare_sum path orig upd) (compare_not path orig upd)).

(** *** [$ref] *)

Definition ref_of (schema : json) : option string := json_get schema "$ref" ≫= as_str.

Definition resolve_ref (schema root : json) (refs : list (string * json)) : option json :=
  ref_str ← ref_of schema;
  match strip_prefix "#" ref_str with
  | Some ptr => if String.eqb ptr "" then Some root else json_pointer root ptr
  | None => snd <$> List.find (λ r, String.eqb r.1 ref_str) refs
  end.

(** [None]: neither side is a [$ref], the comparison goes on. *)
Definition compare_refs (path : string) (orig upd : json) (visited : Visited)
    : option (option (list Difference)) :=
  match ref_of orig, ref_of upd with
  | None, None => None
  | o_ref, u_ref =>
      let key := (default "" o_ref, default "" u_ref) in
      if bool_decide (key ∈ visited) then Some (Some [])
      else
        let visited := {[ key ]} ∪ visited in
        let o_resolved := resolve_ref orig (orig_root ctx) (orig_refs ctx) in
        let u_resolved := resolve_ref upd (upd_root ctx) (upd_refs ctx) in
        Some
          (match o_resolved, u_resolved with
           | Some ores, Some ures => recur (path +:+ "/$ref") ores ures visited
           | Some ores, None => recur path ores upd visited
           | None, Some ures => recur path orig ures visited
           | None, None => Some []
           end)
  end.

(** *** Dependencies and conditionals *)

Definition compare_dependency (path : string) (new : list (string * json)) (visited : Visited)
    (p : string * json) : option (list Difference) :=
  let dependency_path := path +:+ "/dependencies/" +:+ p.1 in
  match assoc_get p.1 new with
  | None => Some (d (dependency_kind p.2 false) dependency_path)
  | Some update =>
      match as_array p.2, as_array update with
      | Some old, Some new =>
          let old := strings_of old in
          let new := strings_of new in
          Some (if bool_decide (old ⊆ new) && negb (bool_decide (new = old)) then
                  d DependencyArrayExtended dependency_path
                else if bool_decide (new ⊆ old) && negb (bool_decide (new = old)) then
                  d DependencyArrayNarrowed dependency_path
                else if negb (bool_decide (new = old)) then d DependencyArrayChanged dependency_path
                else [])
      | o, u =>
          if negb (is_some o) && negb (is_some u) && is_object p.2 && is_object update then
            recur dependency_path p.2 update visited
          else Some (if json_eqb p.2 update then [] else d DependencyArrayChanged dependency_path)
      end
  end.

Definition compare_dependencies (path : string) (orig upd : json) (visited : Visited)
    : option (list Difference) :=
  let old := default [] (json_get orig "dependencies" ≫= as_object) in
  let new := default [] (json_get upd "dependencies" ≫= as_object) in
  andthen (collect (compare_dependency path new visited) old)
    (Some (flat_map (λ p,
       if is_some (assoc_get p.1 old) then []
       else d (dependency_kind p.2 true) (path +:+ "/dependencies/" +:+ p.1)) new)).

Definition compare_conditional (path : string) (orig upd : json) (visited : Visited) (kw : string)
    : option (list Difference) :=
  match json_get orig kw, json_get upd kw with
  | Some ov, Some uv =>
      if String.eqb (canonicalize ov) (canonicalize uv) then Some []
      else andthen (Some (d ConditionalChanged (path +:+ "/" +:+ kw)))
             (recur (path +:+ "/" +:+ kw) ov uv visited)
  | None, Some _ | Some _, None => Some (d ConditionalChanged (path +:+ "/" +:+ kw))
  | None, None => Some []
  end.

(** The early return on schemas without the keywords is the empty case of the loop. *)
Definition compare_conditionals (path : string) (orig upd : json) (visited : Visited)
    : option (list Difference) :=
  collect (compare_conditional path orig upd visited) ["if"; "then"; "else"].

(** *** [compare_schema] *)

Definition compare_step (path : string) (orig upd : json) (visited : Visited)
    : option (list Difference) :=
  match compare_refs path orig upd visited with
  | Some r => r
  | None =>
      andthen (Some (compare_type path orig upd ++ compare_enum path orig upd))
      (andthen (compare_properties path orig upd visited)
      (andthen (Some (compare_required path orig upd))
      (andthen (compare_additional_properties path orig upd visited)
      (andthen (Some (compare_numeric path orig upd ++ compare_string_constraints path orig upd))
      (andthen (compare_array_constraints path orig upd visited)
      (andthen (Some (compare_object_size path orig upd))
      (andthen (compare_combinators path orig upd)
      (andthen (compare_dependencies path orig upd visited)
               (compare_conditionals path orig upd visited)))))))))
  end.
End step.

Fixpoint compare_schema (fuel : nat) (ctx : Ctx) : Compare :=
  match fuel with
  | O => λ _ _ _ _, None
  | S fuel' => compare_step (compare_schema fuel' ctx) ctx
  end.

Definition compare_with_refs (fuel : nat) (original update : json)
    (original_refs update_refs : list (string * json)) : option (list Difference) :=
  compare_schema fuel (mkCtx original update original_refs update_refs) "#" original update ∅.

(** ** The format (mod.rs) *)

Record JsonSchema := mkJsonSchema { js_value : json; js_refs : list (string * json) }.

Definition parse (json_text : string → result string json) (schema : string) (refs : list ResolvedReference)
    : result SrError JsonSchema :=
  match json_text schema with
  | Err e => Err (InvalidSchema ("JSON Schema: " +:+ e))
  | Ok value =>
      if negb (is_object value) && negb (is_boolean value) then
        Err (InvalidSchema "JSON Schema must be an object or boolean")
      else
        Ok (mkJsonSchema value
              (omap (λ r, match json_text (res_schema r) with
                          | Ok v => Some (res_name r, v)
                          | Err _ => None
                          end) refs))
  end.

Definition canonical_form (s : JsonSchema) : string := canonicalize (js_value s).

(** [check]; [None] is a diff that does not end within the fuel. *)
Definition check (json_text : string → result string json) (fuel : nat)
    (reader writer : string) (reader_refs writer_refs : list ResolvedReference)
    : option (result (list string) unit) :=
  match parse json_text reader reader_refs with
  | Err e => Some (Err ["reader: " +:+ error_message e])
  | Ok reader_s =>
      match parse json_text writer writer_refs with
      | Err e => Some (Err ["writer: " +:+ error_message e])
      | Ok writer_s =>
          diffs ← compare_with_refs fuel (js_value writer_s) (js_value reader_s)
                    (js_refs writer_s) (js_refs reader_s);
          let incompatible := List.filter (λ x, negb (is_backward_compatible (df_kind x))) diffs in
          Some (match incompatible with [] => Ok () | _ => Err (messages incompatible) end)
      end
  end.
End diff.
