(* ===== verification/JsonFacts.v ===== *)
(** * Properties of the JSON Schema diff

    The result does not depend on the fuel; the diff ends on documents without
    [$ref]s or without combinators, and does not end on some with both; a schema
    has no difference to itself; the verdicts on types and values are sound; the
    branch matching is maximum. *)

From stdpp Require Import base gmap strings list pretty sorting.
From Stdlib Require Import ZArith Lia SpecFloat.
From S2P Require Import Prelude Text Float Json Types Record Matching JsonDiff.

(** ** Sub-values *)

Inductive subvalue (w : json) : json → Prop :=
  | sub_refl : subvalue w w
  | sub_array x l : x ∈ l → subvalue w x → subvalue w (JArray l)
  | sub_object k x l : (k, x) ∈ l → subvalue w x → subvalue w (JObject l).

Lemma subvalue_trans u v w : subvalue u v → subvalue v w → subvalue u w.
Proof. intros Hu. induction 1; [done|by eapply sub_array|by eapply sub_object]. Qed.

Lemma json_size_pos v : (0 < json_size v)%nat.
Proof. destruct v; simpl; lia. Qed.

Lemma sum_list_with_elem {A} (f : A → nat) x l : x ∈ l → (f x ≤ sum_list_with f l)%nat.
Proof. induction 1; simpl; lia. Qed.

Lemma subvalue_size w v : subvalue w v → (json_size w ≤ json_size v)%nat.
Proof.
  induction 1 as [|x l Hx _ IH|k x l Hx _ IH]; [done|..]; simpl.
  - pose proof (sum_list_with_elem json_size x l Hx). lia.
  - pose proof (sum_list_with_elem (λ kv, json_size kv.2) (k, x) l Hx). simpl in *. lia.
Qed.

(** A proper part of a value. *)
Definition below (w v : json) : Prop := subvalue w v ∧ (json_size w < json_size v)%nat.

Lemma below_array x l : x ∈ l → below x (JArray l).
Proof.
  intros Hx. split; [eapply sub_array; [done|constructor]|].
  pose proof (sum_list_with_elem json_size x l Hx). simpl. lia.
Qed.

Lemma below_object k x l : (k, x) ∈ l → below x (JObject l).
Proof.
  intros Hx. split; [eapply sub_object; [done|constructor]|].
  pose proof (sum_list_with_elem (λ kv, json_size kv.2) (k, x) l Hx). simpl in *. lia.
Qed.

Lemma below_trans u v w : below u v → below v w → below u w.
Proof. intros [? ?] [? ?]. split; [by eapply subvalue_trans|lia]. Qed.

Lemma assoc_get_elem {A} k (l : list (string * A)) v : assoc_get k l = Some v → (k, v) ∈ l.
Proof.
  induction l as [|[k' v'] l IH]; simpl; [done|].
  destruct (String.eqb_spec k k') as [->|]; [intros [= ->]; by left|]. right. auto.
Qed.

Lemma json_get_below v k w : json_get v k = Some w → below w v.
Proof. destruct v; simpl; try done. intros Hw%assoc_get_elem. by eapply below_object. Qed.

Lemma get_object_below v k l p : json_get v k ≫= as_object = Some l → p ∈ l → below p.2 v.
Proof.
  destruct (json_get v k) as [w|] eqn:Hw; simpl; [|done]. destruct w; simpl; try done.
  intros [= ->] Hp. destruct p as [key x]. apply json_get_below in Hw.
  eapply below_trans; [|done]. by eapply below_object.
Qed.

Lemma get_array_below v k l x : json_get v k ≫= as_array = Some l → x ∈ l → below x v.
Proof.
  destruct (json_get v k) as [w|] eqn:Hw; simpl; [|done]. destruct w; simpl; try done.
  intros [= ->] Hx. apply json_get_below in Hw. eapply below_trans; [|done]. by eapply below_array.
Qed.

Lemma props_below v p : p ∈ default [] (props v) → below p.2 v.
Proof.
  unfold props. destruct (_ ≫= as_object) as [l|] eqn:E; simpl; [|by intros ?%not_elem_of_nil].
  by apply get_object_below with (k := "properties").
Qed.

Lemma covering_below `{Regex} v name w : w ∈ covering_schemas v name → below w v.
Proof.
  unfold covering_schemas. intros [Hw|Hw]%elem_of_app.
  - destruct (content_model v) as [| | |a] eqn:E; try by apply not_elem_of_nil in Hw.
    apply list_elem_of_singleton in Hw as ->. apply json_get_below with "additionalProperties".
    unfold content_model in E. repeat case_match; congruence.
  - destruct (json_get v "patternProperties" ≫= as_object) as [l|] eqn:E;
      [|by apply not_elem_of_nil in Hw].
    apply list_elem_of_omap in Hw as ([k x] & Hin & Hx). repeat case_match; simplify_eq/=.
    by apply (get_object_below v "patternProperties" l (k, w)).
Qed.

#[local] Hint Resolve json_get_below get_object_below get_array_below props_below covering_below : below.

(** ** The result does not depend on the fuel *)

Definition less {A} (a b : option A) : Prop := ∀ x, a = Some x → b = Some x.

Lemma less_refl {A} (a : option A) : less a a.
Proof. by intros x. Qed.

Lemma bind_less {A B} (a a' : option A) (f f' : A → option B) :
  less a a' → (∀ x, less (f x) (f' x)) → less (a ≫= f) (a' ≫= f').
Proof.
  intros Ha Hf y. destruct a as [x|]; simpl; [|done]. rewrite (Ha x eq_refl). simpl. apply Hf.
Qed.

Lemma andthen_less a a' b b' : less a a' → less b b' → less (andthen a b) (andthen a' b').
Proof. intros. apply bind_less; [done|]. intros x. apply bind_less; [done|]. intros y. apply less_refl. Qed.

Lemma collect_less {A} (f g : A → option (list Difference)) l :
  (∀ x, less (f x) (g x)) → less (collect f l) (collect g l).
Proof. intros Hf. induction l; simpl; [apply less_refl|by apply andthen_less]. Qed.

Create HintDb less.
Ltac less_tac := repeat first
  [ apply less_refl | solve [auto 2 with less nocore] | apply andthen_less | apply bind_less; [|intros ?] | apply collect_less; intros ?
  | match goal with H : ∀ _ _ _ _, less _ _ |- _ => apply H end | case_match ].

Section mono.
Context `{Regex, JsonPointer, SerdeJson}.
Context (r r' : Compare) (Hr : ∀ p o u v, less (r p o u v) (r' p o u v)).

Lemma branch_edges_less old upd i : less (branch_edges r old upd i) (branch_edges r' old upd i).
Proof.
  revert i. induction upd as [|x upd IH]; intros i; simpl; [apply less_refl|].
  unfold branch_compatible. less_tac.
Qed.

Lemma maximum_matching_less orig upd :
  less (maximum_matching r orig upd) (maximum_matching r' orig upd).
Proof.
  unfold maximum_matching. apply bind_less; [|intros; apply less_refl].
  induction orig as [|x l IH]; simpl; [apply less_refl|].
  apply bind_less; [apply branch_edges_less|]. intros y. apply bind_less; [apply IH|].
  intros; apply less_refl.
Qed.

#[local] Hint Resolve maximum_matching_less : less.

Lemma any_branch_less f f' l : (∀ x, less (f x) (f' x)) → less (any_branch f l) (any_branch f' l).
Proof. intros Hf. induction l; simpl; less_tac. Qed.

Lemma all_branches_less f f' l : (∀ x, less (f x) (f' x)) → less (all_branches f l) (all_branches f' l).
Proof. intros Hf. induction l; simpl; less_tac. Qed.

Lemma branch_compatible_less o u : less (branch_compatible r o u) (branch_compatible r' o u).
Proof. unfold branch_compatible. less_tac. Qed.
#[local] Hint Resolve any_branch_less all_branches_less branch_compatible_less : less.

Lemma combinators_less path o u : less (compare_combinators r path o u) (compare_combinators r' path o u).
Proof.
  unfold compare_combinators, compare_all_of, compare_sum, compare_not, compare_branches.
  less_tac.
Qed.
#[local] Hint Resolve combinators_less : less.

Lemma properties_less path o u v :
  less (compare_properties r path o u v) (compare_properties r' path o u v).
Proof. unfold compare_properties, removed_property, added_property. less_tac. Qed.

Lemma additional_less key sub path k1 k2 k3 k4 o u v :
  less (compare_additional r key sub path k1 k2 k3 k4 o u v)
       (compare_additional r' key sub path k1 k2 k3 k4 o u v).
Proof. unfold compare_additional. less_tac. Qed.
#[local] Hint Resolve properties_less additional_less : less.

Lemma array_less path o u v :
  less (compare_array_constraints r path o u v) (compare_array_constraints r' path o u v).
Proof. unfold compare_array_constraints, compare_items. less_tac. Qed.

Lemma dependencies_less path o u v :
  less (compare_dependencies r path o u v) (compare_dependencies r' path o u v).
Proof. unfold compare_dependencies, compare_dependency. less_tac. Qed.

Lemma conditionals_less path o u v :
  less (compare_conditionals r path o u v) (compare_conditionals r' path o u v).
Proof. unfold compare_conditionals, compare_conditional. less_tac. Qed.
#[local] Hint Resolve array_less dependencies_less conditionals_less : less.

Lemma refs_less ctx path o u v :
  match compare_refs r ctx path o u v, compare_refs r' ctx path o u v with
  | Some a, Some b => less a b
  | None, None => True
  | _, _ => False
  end.
Proof.
  unfold compare_refs. destruct (ref_of o), (ref_of u); [..|done]; case_bool_decide;
    try apply less_refl; less_tac.
Qed.

Lemma compare_step_less ctx path o u v :
  less (compare_step r ctx path o u v) (compare_step r' ctx path o u v).
Proof.
  unfold compare_step, compare_additional_properties. pose proof (refs_less ctx path o u v) as Hrefs.
  destruct (compare_refs r ctx path o u v), (compare_refs r' ctx path o u v); [done..|].
  less_tac.
Qed.
End mono.

(** More fuel gives the same result. *)
Lemma compare_schema_less `{Regex, JsonPointer, SerdeJson} fuel fuel' ctx path o u v :
  (fuel ≤ fuel')%nat → less (compare_schema fuel ctx path o u v) (compare_schema fuel' ctx path o u v).
Proof.
  revert fuel' path o u v. induction fuel as [|fuel IH]; intros [|fuel'] path o u v Hle; try done; [lia|].
  apply compare_step_less. intros. apply IH. lia.
Qed.

(** ** Termination of one pass, given the recursive calls *)

Lemma andthen_some a b : is_Some a → is_Some b → is_Some (andthen a b).
Proof. intros [x ->] [y ->]. by eexists. Qed.

Lemma collect_some {A} (f : A → option (list Difference)) l :
  (∀ x, x ∈ l → is_Some (f x)) → is_Some (collect f l).
Proof.
  induction l as [|x l IH]; intros Hf; simpl; [by eexists|].
  apply andthen_some; [apply Hf; by left|apply IH]. intros; apply Hf. by right.
Qed.

Lemma some_is_some {A} (x : A) : is_Some (Some x).
Proof. by eexists. Qed.

Create HintDb total.
#[local] Hint Resolve some_is_some : total.
#[local] Hint Resolve json_get_below get_object_below get_array_below props_below covering_below : total.

Ltac total_tac := repeat first
  [ solve [eauto 4 with total] | apply andthen_some | apply collect_some; intros ? ? | case_match ].

Section total.
Context `{Regex, JsonPointer, SerdeJson}.
Context (r : Compare) (o u : json) (v : Visited).
Context (Hr : ∀ p o' u', below o' o → below u' u → is_Some (r p o' u' v)).

Lemma properties_total path : is_Some (compare_properties r path o u v).
Proof.
  unfold compare_properties. apply andthen_some; apply collect_some; intros p Hp.
  - case_match; [by eexists|]. unfold removed_property.
    destruct (content_model u); try by eexists.
    all: destruct (covering_schemas u p.1) as [|c cs] eqn:E; [by eexists|].
    all: apply andthen_some; [by eexists|]; apply collect_some; intros x Hx; rewrite <- E in Hx.
    all: eauto with total.
  - destruct (assoc_get p.1 _) as [os|] eqn:E.
    { apply Hr; [|eauto with total]. by apply (props_below o (p.1, os)), assoc_get_elem. }
    unfold added_property. case_match; [by eexists|]. apply andthen_some; [by eexists|].
    destruct (content_model o); try by eexists.
    all: destruct (covering_schemas o p.1) as [|c cs] eqn:Ec; [by eexists|].
    all: apply andthen_some; [by eexists|]; apply collect_some; intros x Hx; rewrite <- Ec in Hx.
    all: eauto with total.
Qed.

Lemma additional_total key sub path k1 k2 k3 k4 :
  is_Some (compare_additional r key sub path k1 k2 k3 k4 o u v).
Proof. unfold compare_additional. total_tac. Qed.

Lemma array_total path : is_Some (compare_array_constraints r path o u v).
Proof.
  unfold compare_array_constraints. repeat apply andthen_some; try apply some_is_some;
    [|apply additional_total].
  unfold compare_items. destruct (json_get o "items") as [oi|] eqn:Eo; [|by eexists].
  destruct (json_get u "items") as [ui|] eqn:Eu; [|by eexists].
  destruct (is_object oi && is_object ui); [eauto with total|].
  apply json_get_below in Eo, Eu.
  destruct oi as [| | | |oi|], ui as [| | | |ui|]; try by eexists.
  apply andthen_some; [|by eexists]. apply collect_some. intros [i [x y]] Hin.
  apply elem_of_lookup_imap in Hin as (j & [x' y'] & [= -> <- <-] & Hz).
  apply list_elem_of_lookup_2 in Hz. simpl.
  apply Hr; (eapply below_trans; [|done]); apply below_array.
  - by eapply elem_of_zip_l.
  - by eapply elem_of_zip_r.
Qed.

Lemma dependencies_total path : is_Some (compare_dependencies r path o u v).
Proof.
  unfold compare_dependencies. apply andthen_some; [|by eexists]. apply collect_some. intros p Hp.
  destruct (json_get o "dependencies" ≫= as_object) as [old|] eqn:Eo; simpl in *;
    [|by apply not_elem_of_nil in Hp].
  destruct (json_get u "dependencies" ≫= as_object) as [new|] eqn:Eu; simpl in *; [|by eexists].
  unfold compare_dependency. destruct (assoc_get p.1 new) as [w|] eqn:Ew; [|by eexists].
  apply assoc_get_elem in Ew.
  destruct (as_array p.2), (as_array w); try by eexists.
  all: case_match; [|by eexists]; apply Hr; eauto with total.
  all: by apply (get_object_below u "dependencies" new (p.1, w)).
Qed.

Lemma conditionals_total path : is_Some (compare_conditionals r path o u v).
Proof.
  unfold compare_conditionals. apply collect_some. intros kw _. unfold compare_conditional. total_tac.
Qed.

(** The branches of combinators are compared afresh. *)
Context (Hb : ∀ o' u', subvalue o' o ∧ subvalue u' u ∨ subvalue o' u ∧ subvalue u' o →
  (json_size o' + json_size u' < json_size o + json_size u)%nat → is_Some (r "#" o' u' ∅)).

Lemma branch_compatible_total o' u' :
  is_Some (r "#" o' u' ∅) → is_Some (branch_compatible r o' u').
Proof. intros [l E]. unfold branch_compatible. rewrite E. by eexists. Qed.

Lemma branch_edges_total old l : ∀ i,
  (∀ x, x ∈ l → is_Some (branch_compatible r old x)) →
  ∃ es, branch_edges r old l i = Some es ∧ ∀ c, c ∈ es → (c < i + length l)%nat.
Proof.
  induction l as [|x l IH]; intros i Hl; simpl.
  { exists []. split; [done|]. by intros c ?%not_elem_of_nil. }
  destruct (Hl x (list_elem_of_here _ _)) as [b ->]. simpl.
  destruct (IH (S i)) as (es & -> & Hes); [intros; apply Hl; by right|]. simpl.
  destruct b; eexists; (split; [done|]); intros c Hc; [apply elem_of_cons in Hc as [->|Hc]; [lia|]|];
    apply Hes in Hc; lia.
Qed.

Lemma maximum_matching_total old new :
  (∀ x y, x ∈ old → y ∈ new → is_Some (branch_compatible r x y)) →
  is_Some (maximum_matching r old new).
Proof.
  intros Hc. unfold maximum_matching.
  assert (∃ edges, mapM (λ x, branch_edges r x new 0) old = Some edges ∧
    ∀ es c, es ∈ edges → c ∈ es → (c < length new)%nat) as (edges & -> & Hr0).
  { induction old as [|x old IH]; simpl.
    - exists []. split; [done|]. by intros ? ? ?%not_elem_of_nil.
    - destruct (branch_edges_total x new 0) as (es & -> & Hes); [intros; apply Hc; [by left|done]|].
      destruct IH as (edges & -> & IH); [intros; apply Hc; [by right|done]|]. simpl.
      exists (es :: edges). split; [done|].
      intros es' c [->|Hin]%elem_of_cons Hc'; [by apply Hes|by eapply IH]. }
  simpl. destruct (matching_size_spec edges (length new)) as (k & -> & _); [|by eexists].
  intros i c (es & Hi & Hc'). apply (Hr0 es); [by eapply list_elem_of_lookup_2|done].
Qed.

Lemma branches_below w kw l x : branches w kw = Some l → x ∈ l → below x w.
Proof. apply get_array_below. Qed.

Lemma compare_branches_total path kwo kwu old new k1 k2 :
  branches o kwo = Some old → branches u kwu = Some new →
  is_Some (compare_branches r path old new k1 k2).
Proof.
  intros Eo Eu. unfold compare_branches. case_match; [by eexists|].
  destruct (maximum_matching_total old new) as [k ->]; [|by eexists].
  intros x y Hx Hy. apply branch_compatible_total.
  pose proof (branches_below _ _ _ _ Eo Hx) as [? ?]. pose proof (branches_below _ _ _ _ Eu Hy) as [? ?].
  apply Hb; [tauto|lia].
Qed.

Lemma sum_of_branches w kind l : sum_of w = Some (kind, l) → branches w kind = Some l.
Proof.
  unfold sum_of. destruct (branches w "anyOf") eqn:E; [by intros [= <- <-]|].
  destruct (branches w "oneOf") eqn:E'; [|done]. by intros [= <- <-].
Qed.

Lemma combinators_total path : is_Some (compare_combinators r path o u).
Proof.
  unfold compare_combinators. repeat apply andthen_some.
  - unfold compare_all_of. destruct (branches o "allOf") eqn:Eo, (branches u "allOf") eqn:Eu;
      try by eexists. by eapply compare_branches_total.
  - unfold compare_sum. destruct (sum_of o) as [[ko lo]|] eqn:Eo, (sum_of u) as [[ku lu]|] eqn:Eu;
      [..|by eexists].
    + case_match; [by eexists|]. by eapply compare_branches_total; apply sum_of_branches.
    + apply sum_of_branches in Eo.
      assert (is_Some (all_branches (λ branch, branch_compatible r branch u) lo)) as [b ->]; [|by eexists].
      assert (Hl : ∀ x, x ∈ lo → is_Some (branch_compatible r x u)).
      { intros x Hx. apply branch_compatible_total. pose proof (branches_below _ _ _ _ Eo Hx) as [? ?].
        apply Hb; [left; split; [done|constructor]|lia]. }
      clear Eo. induction lo as [|x lo IH]; simpl; [by eexists|].
      destruct (Hl x (list_elem_of_here _ _)) as [[] ->]; simpl; [|by eexists].
      apply IH. intros; apply Hl. by right.
    + apply sum_of_branches in Eu.
      assert (is_Some (any_branch (λ branch, branch_compatible r o branch) lu)) as [b ->]; [|by eexists].
      assert (Hl : ∀ x, x ∈ lu → is_Some (branch_compatible r o x)).
      { intros x Hx. apply branch_compatible_total. pose proof (branches_below _ _ _ _ Eu Hx) as [? ?].
        apply Hb; [left; split; [constructor|done]|lia]. }
      clear Eu. induction lu as [|x lu IH]; simpl; [by eexists|].
      destruct (Hl x (list_elem_of_here _ _)) as [[] ->]; simpl; [by eexists|].
      apply IH. intros; apply Hl. by right.
  - unfold compare_not. destruct (json_get o "not") as [x|] eqn:Eo, (json_get u "not") as [y|] eqn:Eu;
      try by eexists.
    case_match; [by eexists|]. apply json_get_below in Eo as [? ?], Eu as [? ?].
    destruct (branch_compatible_total y x) as [b ->]; [|by eexists]. apply Hb; [tauto|lia].
Qed.
End total.

(** ** Termination of the diff *)

(** [p] holds of every part of a value. *)
Fixpoint everywhere (p : json → bool) (v : json) : bool :=
  p v &&
  match v with
  | JArray l => forallb (everywhere p) l
  | JObject l => forallb (λ kv, everywhere p kv.2) l
  | _ => true
  end.

Lemma everywhere_here p v : everywhere p v = true → p v = true.
Proof. destruct v; simpl; intros [? _]%andb_prop; done. Qed.

Lemma everywhere_sub p v w : subvalue w v → everywhere p v = true → everywhere p w = true.
Proof.
  induction 1 as [|x l Hx _ IH|k x l Hx _ IH]; simpl; [done|..]; intros [_ Hall]%andb_prop; apply IH.
  - rewrite forallb_forall in Hall. by apply Hall, list_elem_of_In.
  - rewrite forallb_forall in Hall. by apply (Hall (k, x)), list_elem_of_In.
Qed.

(** No [$ref] in any part. *)
Definition ref_free (v : json) : bool := everywhere (λ v, negb (is_some (ref_of v))) v.

(** No combinator in any part. *)
Definition no_combinator (v : json) : bool :=
  negb (is_some (branches v "allOf")) && negb (is_some (sum_of v)) && negb (is_some (json_get v "not")).
Definition combinator_free (v : json) : bool := everywhere no_combinator v.

(** Every string a part refers to. *)
Fixpoint ref_strings (v : json) : gset string :=
  (match ref_of v with Some s => {[ s ]} | None => ∅ end) ∪
  match v with
  | JArray l => ⋃ (map ref_strings l)
  | JObject l => ⋃ (map (λ kv, ref_strings kv.2) l)
  | _ => ∅
  end.

Lemma ref_strings_sub v w : subvalue w v → ref_strings w ⊆ ref_strings v.
Proof.
  induction 1 as [|x l Hx _ IH|k x l Hx _ IH]; [done|..]; etrans; try done; simpl;
    intros s Hs; apply elem_of_union_r, elem_of_union_list.
  - exists (ref_strings x). split; [|done]. apply list_elem_of_fmap. eauto.
  - exists (ref_strings x). split; [|done]. apply list_elem_of_fmap. by exists (k, x).
Qed.

Lemma ref_strings_here v s : ref_of v = Some s → s ∈ ref_strings v.
Proof. intros E. destruct v; simpl in *; try done. rewrite E. set_solver. Qed.

(** [Value::pointer] returns a part of the value. *)
Class JsonPointerLaws `{JsonPointer} :=
  json_pointer_sub : ∀ v p w, json_pointer v p = Some w → subvalue w v.

Section terminates.
Context `{Regex, JsonPointer, !JsonPointerLaws, SerdeJson}.

Lemma compare_step_total r ctx path o u v :
  (∀ p o' u', below o' o → below u' u → is_Some (r p o' u' v)) →
  is_Some (compare_combinators r path o u) → ref_of o = None → ref_of u = None →
  is_Some (compare_step r ctx path o u v).
Proof.
  intros Hr Hc Eo Eu. unfold compare_step, compare_refs. rewrite Eo, Eu.
  repeat (apply andthen_some; [first [apply some_is_some|done|
    by apply properties_total|by apply additional_total|by apply array_total|by apply dependencies_total]|]).
  by apply conditionals_total.
Qed.

Lemma ref_free_none v : ref_free v = true → ref_of v = None.
Proof. intros Hv%everywhere_here. by destruct (ref_of v). Qed.

(** Without [$ref]s the documents shrink. *)
Lemma ref_free_total fuel : ∀ ctx path o u v,
  ref_free o = true → ref_free u = true → (json_size o + json_size u < fuel)%nat →
  is_Some (compare_schema fuel ctx path o u v).
Proof.
  induction fuel as [|fuel IH]; intros ctx path o u v Ho Hu Hf; [lia|].
  assert (Hsub : ∀ w w', subvalue w w' → ref_free w' = true → ref_free w = true)
    by (intros w w' Hw; by apply everywhere_sub).
  apply compare_step_total; [| |by apply ref_free_none..].
  - intros p o' u' [? ?] [? ?]. apply IH; [by eapply Hsub..|lia].
  - apply combinators_total. intros o' u' [[? ?]|[? ?]] ?; (apply IH; [by eapply Hsub..|lia]).
Qed.

Definition documents (root : json) (refs : list (string * json)) : list json := root :: refs.*2.

Definition in_documents (root : json) (refs : list (string * json)) (v : json) : Prop :=
  ∃ doc, doc ∈ documents root refs ∧ subvalue v doc.

Lemma resolve_ref_in schema root refs w :
  resolve_ref schema root refs = Some w → in_documents root refs w.
Proof.
  unfold resolve_ref. destruct (ref_of schema) as [s|]; [|done]. cbn [mbind option_bind].
  destruct (strip_prefix "#" s) as [ptr|].
  - intros Hw. exists root. split; [by left|].
    destruct (String.eqb ptr ""); [injection Hw as ->; constructor|by eapply json_pointer_sub].
  - destruct (find _ refs) as [[n x]|] eqn:Ef; simpl; [|done]. intros [= <-].
    apply find_some in Ef as [Hin _]. exists x. split; [|constructor]. right.
    apply list_elem_of_fmap. exists (n, x). split; [done|]. by apply list_elem_of_In.
Qed.

(** The references the guard can hold, and the size of the documents. *)
Definition side_refs (root : json) (refs : list (string * json)) : gset string :=
  {[ "" ]} ∪ ⋃ (map ref_strings (documents root refs)).
Definition side_size (root : json) (refs : list (string * json)) : nat :=
  sum_list_with json_size (documents root refs).

Definition guard_keys (ctx : Ctx) : Visited :=
  gset_cprod (side_refs (orig_root ctx) (orig_refs ctx)) (side_refs (upd_root ctx) (upd_refs ctx)).
Definition context_size (ctx : Ctx) : nat :=
  (side_size (orig_root ctx) (orig_refs ctx) + side_size (upd_root ctx) (upd_refs ctx))%nat.

(** Each [$ref] followed adds to the guard; between two of them the schemas shrink. *)
Definition diff_measure (ctx : Ctx) (v : Visited) (o u : json) : nat :=
  (size (guard_keys ctx ∖ v) * S (context_size ctx) + json_size o + json_size u)%nat.

Lemma in_documents_refs root refs v s :
  in_documents root refs v → ref_of v = Some s → s ∈ side_refs root refs.
Proof.
  intros (doc & Hd & Hs) Hr. unfold side_refs. apply elem_of_union_r, elem_of_union_list.
  exists (ref_strings doc). split; [apply list_elem_of_fmap; eauto|].
  by apply (ref_strings_sub _ _ Hs), ref_strings_here.
Qed.

Lemma in_documents_size root refs v : in_documents root refs v → (json_size v ≤ side_size root refs)%nat.
Proof.
  intros (doc & Hd & Hs%subvalue_size). pose proof (sum_list_with_elem json_size doc _ Hd).
  unfold side_size. lia.
Qed.

Lemma in_documents_sub root refs v w : in_documents root refs v → subvalue w v → in_documents root refs w.
Proof. intros (doc & ? & ?) ?. exists doc. split; [done|]. by eapply subvalue_trans. Qed.

Lemma in_documents_everywhere p root refs v :
  (∀ doc, doc ∈ documents root refs → everywhere p doc = true) →
  in_documents root refs v → p v = true.
Proof. intros Hp (doc & Hd & Hs). eapply everywhere_here, everywhere_sub; [done|auto]. Qed.

Lemma no_combinator_step r path o u :
  no_combinator o = true → no_combinator u = true → is_Some (compare_combinators r path o u).
Proof.
  unfold no_combinator, compare_combinators, compare_all_of, compare_sum, compare_not.
  destruct (branches o "allOf"), (sum_of o), (json_get o "not"); try done.
  destruct (branches u "allOf"), (sum_of u), (json_get u "not"); done.
Qed.

(** Following a [$ref] uses up one key of the guard. *)
Lemma guard_step ctx v key :
  key ∈ guard_keys ctx → key ∉ v →
  size (guard_keys ctx ∖ v) = S (size (guard_keys ctx ∖ ({[ key ]} ∪ v))).
Proof.
  intros Hk Hv. replace (guard_keys ctx ∖ v) with ({[ key ]} ∪ guard_keys ctx ∖ ({[ key ]} ∪ v)).
  - rewrite size_union by set_solver. by rewrite size_singleton.
  - apply set_eq. intros x. rewrite elem_of_union, !elem_of_difference, elem_of_union, elem_of_singleton.
    destruct (decide (x = key)) as [Heq|]; [rewrite Heq|]; tauto.
Qed.

Lemma combinator_free_total fuel : ∀ ctx path o u v,
  (∀ doc, doc ∈ documents (orig_root ctx) (orig_refs ctx) → combinator_free doc = true) →
  (∀ doc, doc ∈ documents (upd_root ctx) (upd_refs ctx) → combinator_free doc = true) →
  in_documents (orig_root ctx) (orig_refs ctx) o → in_documents (upd_root ctx) (upd_refs ctx) u →
  (diff_measure ctx v o u < fuel)%nat → is_Some (compare_schema fuel ctx path o u v).
Proof.
  induction fuel as [|fuel IH]; intros ctx path o u v Co Cu Ho Hu Hf; [lia|]. cbn [compare_schema].
  destruct (compare_refs (compare_schema fuel ctx) ctx path o u v) as [res|] eqn:Href.
  - unfold compare_step. rewrite Href.
    assert (Hkey : ∀ key, key = (default "" (ref_of o), default "" (ref_of u)) → key ∈ guard_keys ctx).
    { intros key ->. apply elem_of_gset_cprod. cbn.
      split; [destruct (ref_of o) eqn:E|destruct (ref_of u) eqn:E]; simpl;
        first [by eapply in_documents_refs|unfold side_refs; by apply elem_of_union_l, elem_of_singleton]. }
    unfold compare_refs in Href.
    assert (Hgo : (if bool_decide ((default "" (ref_of o), default "" (ref_of u)) ∈ v) then Some (Some [])
      else Some
        match resolve_ref o (orig_root ctx) (orig_refs ctx), resolve_ref u (upd_root ctx) (upd_refs ctx) with
        | Some ores, Some ures => compare_schema fuel ctx (path +:+ "/$ref") ores ures
            ({[ (default "" (ref_of o), default "" (ref_of u)) ]} ∪ v)
        | Some ores, None => compare_schema fuel ctx path ores u
            ({[ (default "" (ref_of o), default "" (ref_of u)) ]} ∪ v)
        | None, Some ures => compare_schema fuel ctx path o ures
            ({[ (default "" (ref_of o), default "" (ref_of u)) ]} ∪ v)
        | None, None => Some []
        end) = Some res) by (destruct (ref_of o), (ref_of u); done).
    clear Href. case_bool_decide as Hv; injection Hgo as <-; [by eexists|].
    pose proof (guard_step ctx v _ (Hkey _ eq_refl) Hv) as Hg.
    assert (Hnext : ∀ p o' u', in_documents (orig_root ctx) (orig_refs ctx) o' →
      in_documents (upd_root ctx) (upd_refs ctx) u' →
      is_Some (compare_schema fuel ctx p o' u' ({[ (default "" (ref_of o), default "" (ref_of u)) ]} ∪ v))).
    { intros p o' u' Ho' Hu'. apply IH; try done. unfold diff_measure in *. rewrite Hg in Hf.
      apply in_documents_size in Ho', Hu'. unfold context_size in *. nia. }
    destruct (resolve_ref o _ _) as [ores|] eqn:Eo, (resolve_ref u _ _) as [ures|] eqn:Eu;
      try apply resolve_ref_in in Eo; try apply resolve_ref_in in Eu; auto with total.
  - assert (ref_of o = None ∧ ref_of u = None) as [Eo Eu].
    { unfold compare_refs in Href. destruct (ref_of o), (ref_of u); try done; by case_bool_decide. }
    apply compare_step_total; try done.
    + intros p o' u' [? ?] [? ?]. apply IH; try done; [by eapply in_documents_sub..|].
      unfold diff_measure in *. lia.
    + apply no_combinator_step; [exact (in_documents_everywhere _ _ _ _ Co Ho)|exact (in_documents_everywhere _ _ _ _ Cu Hu)].
Qed.
End terminates.

(** ** A schema has no difference to itself *)

(** What serde_json guarantees of a value: numbers are numbers, keys are
    distinct; and [items], where present, is a schema object or a list. *)
Definition regular_here (v : json) : bool :=
  match v with
  | JNumber (Float S754_nan) => false
  | JObject l => bool_decide (NoDup l.*1)
  | _ => true
  end &&
  match json_get v "items" with
  | Some w => is_object w || is_array w
  | None => true
  end.
Definition regular (v : json) : bool := everywhere regular_here v.

Lemma collect_nil {A} (f : A → option (list Difference)) l :
  (∀ x, x ∈ l → f x = Some []) → collect f l = Some [].
Proof.
  induction l as [|x l IH]; intros Hf; simpl; [done|].
  rewrite (Hf x (list_elem_of_here _ _)), IH; [done|]. intros; apply Hf. by right.
Qed.

Lemma SFeqb_refl f : f ≠ S754_nan → SFeqb f f = true.
Proof.
  unfold SFeqb. destruct f as [|[]| |[] m e]; try done; intros _; simpl;
    rewrite Z.compare_refl; change (Pos.compare_cont Eq m m) with (Pos.compare m m);
    by rewrite Pos.compare_refl.
Qed.

Lemma json_eqb_refl v : regular v = true → json_eqb v v = true.
Proof.
  unfold regular. induction v as [|b|n|s|l IH|l IH] using json_rect'; intros Hv; pose proof Hv as Hh;
    apply everywhere_here in Hh; simpl.
  - done.
  - by destruct b.
  - destruct n as [n|n|f]; simpl; [apply Z.eqb_refl..|].
    apply SFeqb_refl. intros ->. done.
  - apply String.eqb_refl.
  - simpl in Hv. clear Hh.
    induction IH as [|x l Hx _ IHl]; [done|]. simpl in Hv. apply andb_prop in Hv as [Hvx Hv].
    by rewrite (Hx Hvx), IHl.
  - simpl in Hv. apply andb_prop in Hv as [_ Hv]. clear Hh.
    induction IH as [|[k x] l Hx _ IHl]; [done|]. simpl in Hv. apply andb_prop in Hv as [Hvx Hv].
    rewrite String.eqb_refl. simpl in Hx. by rewrite (Hx Hvx), IHl.
Qed.

Lemma assoc_get_nodup {A} k (x : A) l : NoDup l.*1 → (k, x) ∈ l → assoc_get k l = Some x.
Proof.
  induction l as [|[k' x'] l IH]; intros Hnd Hin; [by apply not_elem_of_nil in Hin|]. simpl.
  apply NoDup_cons in Hnd as [Hk Hnd]. apply elem_of_cons in Hin as [[= -> ->]|Hin].
  - by rewrite String.eqb_refl.
  - destruct (String.eqb_spec k k') as [->|]; [|auto].
    destruct Hk. apply list_elem_of_fmap. by exists (k', x).
Qed.

Section self.
Context `{Regex, JsonPointer, SerdeJson}.
Context (r : Compare) (v : json) (vis : Visited).
Context (Hv : regular v = true) (Hr : ∀ p w, below w v → r p w w vis = Some []).

Lemma object_keys k l : json_get v k ≫= as_object = Some l → NoDup l.*1.
Proof.
  destruct (json_get v k) as [w|] eqn:E; [|done]. simpl. destruct w; try done. intros [= ->].
  apply json_get_below in E as [E _]. apply (everywhere_sub regular_here _ _ E), everywhere_here in Hv.
  unfold regular_here in Hv. apply andb_prop in Hv as [Hk _]. by apply bool_decide_eq_true in Hk.
Qed.

Lemma compare_bound_self path key k1 k2 k3 k4 : compare_bound path v v key k1 k2 k3 k4 = [].
Proof. unfold compare_bound. destruct (num v key); [|done]. by rewrite f64_differ_refl. Qed.

Lemma compare_flat_self path :
  compare_type path v v = [] ∧ compare_enum path v v = [] ∧ compare_required path v v = [] ∧
  compare_numeric path v v = [] ∧ compare_string_constraints path v v = [] ∧
  compare_object_size path v v = [] ∧ compare_unique_items path v v = [].
Proof.
  split_and!.
  - unfold compare_type. by rewrite bool_decide_eq_true_2.
  - unfold compare_enum. destruct (enum_set v); [|done]. by rewrite bool_decide_eq_true_2.
  - unfold compare_required. rewrite difference_diag_L. done.
  - unfold compare_numeric. rewrite !compare_bound_self. unfold compare_multiple_of.
    destruct (num v "multipleOf"); [|done]. by rewrite f64_differ_refl.
  - unfold compare_string_constraints. rewrite !compare_bound_self. unfold compare_pattern.
    destruct (_ ≫= as_str); [|done]. by rewrite String.eqb_refl.
  - unfold compare_object_size. by rewrite !compare_bound_self.
  - unfold compare_unique_items. by destruct (default _ _).
Qed.

Lemma properties_self path : compare_properties r path v v vis = Some [].
Proof.
  unfold compare_properties. destruct (props v) as [l|] eqn:E; [|done]. simpl.
  assert (Hget : ∀ p, p ∈ l → assoc_get p.1 l = Some p.2).
  { intros [k x] Hp. apply assoc_get_nodup; [|done]. by eapply object_keys. }
  rewrite !collect_nil; [done| |].
  - intros p Hp. rewrite (Hget p Hp). apply Hr. by eapply get_object_below.
  - intros p Hp. by rewrite (Hget p Hp).
Qed.

Lemma additional_self key sub path k1 k2 k3 k4 :
  compare_additional r key sub path k1 k2 k3 k4 v v vis = Some [].
Proof.
  unfold compare_additional. destruct (json_get v key) as [w|] eqn:E; [|done]. apply json_get_below in E.
  destruct w as [|[]| | | |]; simpl; try done; by apply Hr.
Qed.

Lemma items_self path : compare_items r path v v vis = Some [].
Proof.
  unfold compare_items. pose proof (everywhere_here _ _ Hv) as Hh. unfold regular_here in Hh.
  apply andb_prop in Hh as [_ Hi]. destruct (json_get v "items") as [w|] eqn:E; [|done].
  apply json_get_below in E. destruct w as [| | | |l|l]; simpl in *; try done; [|by apply Hr].
  rewrite collect_nil; [by rewrite Nat.ltb_irrefl|].
  intros [i [x y]] Hin. apply elem_of_lookup_imap in Hin as (j & [x' y'] & [= -> <- <-] & Hz).
  rewrite lookup_zip_with in Hz. destruct (l !! j) as [z|] eqn:Ez; simpl in Hz; [|done].
  injection Hz as <- <-. simpl. apply Hr. eapply below_trans; [|done].
  by eapply below_array, list_elem_of_lookup_2.
Qed.

Lemma dependencies_self path : compare_dependencies r path v v vis = Some [].
Proof.
  unfold compare_dependencies.
  destruct (json_get v "dependencies" ≫= as_object) as [l|] eqn:E; [|done]. simpl.
  assert (Hget : ∀ p, p ∈ l → assoc_get p.1 l = Some p.2).
  { intros [k x] Hp. apply assoc_get_nodup; [|done]. by eapply object_keys. }
  rewrite collect_nil.
  - simpl. rewrite flat_map_nil; [done|]. intros p Hp. by rewrite (Hget p Hp).
  - intros p Hp. unfold compare_dependency. rewrite (Hget p Hp).
    pose proof (get_object_below _ _ _ _ E Hp) as Hb.
    destruct (as_array p.2) as [a|].
    + rewrite (bool_decide_eq_true_2 (strings_of a = strings_of a)) by done. by rewrite !andb_false_r.
    + simpl. destruct (is_object p.2); simpl; [by apply Hr|].
      rewrite json_eqb_refl; [done|]. by apply (everywhere_sub _ v); [apply Hb|].
Qed.

Lemma conditionals_self path : compare_conditionals r path v v vis = Some [].
Proof.
  apply collect_nil. intros kw _. unfold compare_conditional.
  destruct (json_get v kw); [|done]. by rewrite String.eqb_refl.
Qed.

Lemma combinators_self path : compare_combinators r path v v = Some [].
Proof.
  assert (Hbr : ∀ kw l, branches v kw = Some l → list_eqb l l = true).
  { unfold branches. intros kw l. destruct (json_get v kw) as [w|] eqn:E; [|done]. simpl.
    destruct w as [| | | |a|]; try done. intros [= ->]. apply json_get_below in E as [E _].
    apply json_eqb_refl. by apply (everywhere_sub _ v). }
  unfold compare_combinators, compare_all_of, compare_sum, compare_not, compare_branches.
  destruct (branches v "allOf") as [l|] eqn:E; [rewrite (Hbr _ _ E)|]; simpl.
  all: destruct (sum_of v) as [[k s]|] eqn:Es;
    [rewrite String.eqb_refl; simpl; rewrite (Hbr _ _ (sum_of_branches _ _ _ Es))|]; simpl.
  all: destruct (json_get v "not") as [w|] eqn:En; [|done].
  all: apply json_get_below in En as [En _].
  all: rewrite json_eqb_refl; [done|]; by apply (everywhere_sub _ v).
Qed.

Lemma compare_step_self ctx path : ref_of v = None → compare_step r ctx path v v vis = Some [].
Proof.
  intros E. unfold compare_step, compare_refs, compare_additional_properties. rewrite E.
  destruct (compare_flat_self path) as (-> & -> & -> & -> & -> & -> & Hu).
  unfold compare_array_constraints.
  rewrite properties_self, !additional_self, items_self, combinators_self, dependencies_self,
    conditionals_self, !compare_bound_self, Hu. done.
Qed.
End self.

Section theorems.
Context `{Regex, JsonPointer, SerdeJson}.

(** The context that compares a document with itself. *)
Definition self_ctx (root : json) (refs : list (string * json)) : Ctx := mkCtx root root refs refs.

Lemma self_total `{!JsonPointerLaws} root refs fuel : ∀ path w vis,
  (∀ doc, doc ∈ documents root refs → regular doc = true) → in_documents root refs w →
  (diff_measure (self_ctx root refs) vis w w < fuel)%nat →
  compare_schema fuel (self_ctx root refs) path w w vis = Some [].
Proof.
  induction fuel as [|fuel IH]; intros path w vis Hreg Hw Hf; [lia|]. cbn [compare_schema].
  destruct (ref_of w) as [s|] eqn:Er.
  - unfold compare_step, compare_refs. rewrite Er. cbn [default from_option id].
    case_bool_decide as Hv; [done|]. unfold self_ctx in *. cbn [orig_root upd_root orig_refs upd_refs].
    destruct (resolve_ref w root refs) as [x|] eqn:Ex; [|done].
    apply resolve_ref_in in Ex. apply IH; [done..|]. unfold diff_measure in *.
    rewrite (guard_step _ vis (s, s)) in Hf; [|apply elem_of_gset_cprod; split; exact (in_documents_refs _ _ _ _ Hw Er)|done].
    pose proof (in_documents_size _ _ _ Ex) as Hs.
    unfold context_size, side_size in *. cbn [orig_root upd_root orig_refs upd_refs] in *. nia.
  - apply compare_step_self; [| |done].
    + destruct Hw as (doc & ? & ?). by apply (everywhere_sub _ doc); [|apply Hreg].
    + intros p x [? ?]. apply IH; [done|by eapply in_documents_sub|]. unfold diff_measure in *. lia.
Qed.

(** ** The branch matching *)

Lemma branch_edges_spec r old upd i es :
  branch_edges r old upd i = Some es →
  ∀ c, c ∈ es ↔ (i ≤ c)%nat ∧ ∃ new, upd !! (c - i)%nat = Some new ∧ branch_compatible r old new = Some true.
Proof.
  revert i es. induction upd as [|x upd IH]; intros i es; cbn [branch_edges].
  { intros [= <-] c. split; [by intros ?%not_elem_of_nil|]. by intros (_ & ? & ? & _). }
  destruct (branch_compatible r old x) as [b|] eqn:Eb; cbn [mbind option_bind]; [|done].
  destruct (branch_edges r old upd (S i)) as [rest|] eqn:Er; cbn [mbind option_bind]; [|done].
  intros [= <-] c. specialize (IH _ _ Er c).
  assert (Hc : c ∈ (if b then i :: rest else rest) ↔ (c = i ∧ b = true) ∨ c ∈ rest).
  { destruct b; [rewrite elem_of_cons|]; naive_solver. }
  rewrite Hc, IH. clear Hc IH Er. destruct (decide (c = i)) as [->|Hne].
  - rewrite Nat.sub_diag. simpl. split.
    + intros [[_ ->]|[? _]]; [eauto|lia].
    + intros (_ & new & [= <-] & Hn). left. split; [done|]. congruence.
  - split.
    + intros [[? _]|(? & new & Hl & ?)]; [done|]. split; [lia|]. exists new.
      replace (c - i)%nat with (S (c - S i)) by lia. done.
    + intros (? & new & Hl & ?). right. split; [lia|]. exists new.
      replace (c - i)%nat with (S (c - S i)) in Hl by lia. done.
Qed.

(** Branches of the original and of the update paired by index, no branch twice,
    each pair compatible. *)
Record pairing (r : Compare) (orig upd : list json) (m : list (nat * nat)) : Prop := {
  pr_compatible : ∀ i c, (i, c) ∈ m → ∃ old new, orig !! i = Some old ∧ upd !! c = Some new ∧
    branch_compatible r old new = Some true;
  pr_left : NoDup m.*1;
  pr_right : NoDup m.*2;
}.

Lemma maximum_matching_facts r orig upd :
  (∀ old new, old ∈ orig → new ∈ upd → is_Some (branch_compatible r old new)) →
  ∃ k, maximum_matching r orig upd = Some k ∧
    (∃ m, pairing r orig upd m ∧ length m = k) ∧ ∀ m, pairing r orig upd m → (length m ≤ k)%nat.
Proof.
  intros Hc. unfold maximum_matching.
  assert (∃ edges, mapM (λ old, branch_edges r old upd 0) orig = Some edges) as [edges Hedges].
  { clear -Hc. induction orig as [|x l IH]; simpl; [by eexists|].
    destruct (branch_edges_total r x upd 0) as (es & -> & _); [intros; apply Hc; [by left|done]|].
    destruct IH as [edges ->]; [intros; apply Hc; [by right|done]|]. by eexists. }
  rewrite Hedges. cbn [mbind option_bind]. apply mapM_Some in Hedges.
  assert (Hedge : ∀ i c, edge edges i c ↔ ∃ old new, orig !! i = Some old ∧ upd !! c = Some new ∧
    branch_compatible r old new = Some true).
  { intros i c. split.
    - intros (es & Hi & Hin). destruct (Forall2_lookup_r _ _ _ _ _ Hedges Hi) as (old & Ho & He).
      destruct (proj1 (branch_edges_spec _ _ _ _ _ He c) Hin) as (_ & new & Hn & Hb).
      rewrite Nat.sub_0_r in Hn. by exists old, new.
    - intros (old & new & Ho & Hn & Hb). destruct (Forall2_lookup_l _ _ _ _ _ Hedges Ho) as (es & Hi & He).
      exists es. split; [done|]. apply (branch_edges_spec _ _ _ _ _ He). split; [lia|].
      exists new. by rewrite Nat.sub_0_r. }
  destruct (matching_size_spec edges (length upd)) as (k & Hk & (m & [M1 M2 M3] & Hl) & Hmax).
  { intros i c (old & new & _ & Hn & _)%Hedge. by eapply lookup_lt_Some. }
  exists k. split_and!; [done| |].
  - exists m. split; [|done]. split; [|done..]. intros i c Hin. apply Hedge. auto.
  - intros m' [P1 P2 P3]. apply Hmax. split; [|done..]. intros i c Hin. apply Hedge. auto.
Qed.
End theorems.
