(* ===== verification/JsonSpec.v ===== *)
(** * What the JSON Schema check decides

    The claims about [check]: it ends, a schema is compatible with itself, an
    accepted reader relaxes every keyword the diff looks at, to any depth of
    schemas without [$ref]; and the documents on which it does not end. *)

From stdpp Require Import base gmap strings list pretty sorting.
From Stdlib Require Import Ascii ZArith Lia SpecFloat.
From S2P Require Import Prelude Text Float Json Types Record Matching JsonDiff JsonFacts.

(** ** What a keyword admits *)

(** An [f64] without fraction. *)
Definition is_integral (f : spec_float) : bool :=
  match f with
  | S754_zero _ => true
  | S754_finite _ m e => (0 <=? e)%Z || (Z.pos m mod 2 ^ (- e) =? 0)%Z
  | _ => false
  end.

(** The instances of a JSON Schema type. *)
Definition instance_of (ty : string) (v : json) : bool :=
  match v with
  | JNull => String.eqb ty "null"
  | JBool _ => String.eqb ty "boolean"
  | JString _ => String.eqb ty "string"
  | JArray _ => String.eqb ty "array"
  | JObject _ => String.eqb ty "object"
  | JNumber n =>
      String.eqb ty "number" ||
      (String.eqb ty "integer" && match n with Float f => is_integral f | _ => true end)
  end.

(** The instances that [type], a name or a list of names, lets through. *)
Definition type_admits (schema v : json) : Prop :=
  match json_get schema "type" with
  | Some (JString ty) => instance_of ty v = true
  | Some (JArray l) => (∃ ty, JString ty ∈ l ∧ instance_of ty v = true) ∨ ∀ ty, JString ty ∉ l
  | _ => True
  end.

(** The instances that [enum], or else [const], lets through. *)
Definition enum_admits `{SerdeJson} (schema v : json) : Prop :=
  match json_get schema "enum" with
  | Some (JArray l) => ∃ w, w ∈ l ∧ canonicalize w = canonicalize v
  | _ =>
      match json_get schema "const" with
      | Some w => canonicalize w = canonicalize v
      | None => True
      end
  end.

(** A limit the update drops, or keeps within [f64::EPSILON], or moves outwards. *)
Definition upper_relaxed (o u : option spec_float) : Prop :=
  match o, u with
  | _, None => True
  | None, Some _ => False
  | Some o, Some u => f64_differ o u = false ∨ SFltb u o = false
  end.
Definition lower_relaxed (o u : option spec_float) : Prop :=
  match o, u with
  | _, None => True
  | None, Some _ => False
  | Some o, Some u => f64_differ o u = false ∨ SFltb u o = true
  end.

Definition upper_keywords : list string :=
  ["maximum"; "exclusiveMaximum"; "maxLength"; "maxItems"; "maxProperties"].
Definition lower_keywords : list string :=
  ["minimum"; "exclusiveMinimum"; "minLength"; "minItems"; "minProperties"].

(** A quotient that is whole, to a relative [f64::EPSILON]. *)
Definition nearly_whole (q : spec_float) : Prop :=
  SFleb (SFabs (f64_sub q (f64_round q))) (f64_mul EPSILON (f64_max (SFabs q) (f64_of_Z 1))) = true.

(** ** The parts of a schema *)

(** The entry of an object-valued keyword, and the value of a list-valued one. *)
Definition entry_of (schema : json) (key name : string) : option json :=
  match json_get schema key with Some (JObject l) => assoc_get name l | _ => None end.
Definition list_of (schema : json) (key : string) : option (list json) :=
  match json_get schema key with Some (JArray l) => Some l | _ => None end.

Definition requires (schema : json) (name : string) : Prop :=
  ∃ l, list_of schema "required" = Some l ∧ JString name ∈ l.

(** Nothing beyond [properties], or anything at all. *)
Definition shut (schema : json) : Prop := json_get schema "additionalProperties" = Some (JBool false).
Definition wide_open (schema : json) : Prop :=
  match json_get schema "additionalProperties" with
  | Some (JBool b) => b = true
  | Some (JObject _) => False
  | _ => match json_get schema "patternProperties" with Some (JObject _) => False | _ => True end
  end.

(** [s] constrains the undeclared property [name]. *)
Definition covers `{Regex} (schema : json) (name : string) (s : json) : Prop :=
  (json_get schema "additionalProperties" = Some s ∧ is_object s = true) ∨
  ∃ l p is_match, json_get schema "patternProperties" = Some (JObject l) ∧ (p, s) ∈ l ∧
    regex_new p = Some is_match ∧ is_match name = true.

(** [anyOf], or else [oneOf], with its branches. *)
Definition union_of (schema : json) : option (string * list json) :=
  match list_of schema "anyOf" with
  | Some l => Some ("anyOf", l)
  | None => match list_of schema "oneOf" with Some l => Some ("oneOf", l) | None => None end
  end.

(** Pairs of branches in [R], by index, no branch twice. *)
Record matched (R : json → json → Prop) (old new : list json) (m : list (nat * nat)) : Prop := {
  mt_related : ∀ i c, (i, c) ∈ m → ∃ x y, old !! i = Some x ∧ new !! c = Some y ∧ R x y;
  mt_old : NoDup m.*1;
  mt_new : NoDup m.*2;
}.

(** The rule of each dependency: a list of names shrinks, a schema is in [R],
    any other value is kept. *)
Definition dependency_relaxed (R : json → json → Prop) (old new : json) : Prop :=
  match old, new with
  | JArray l, JArray l' => ∀ s, JString s ∈ l' → JString s ∈ l
  | JObject _, JObject _ => R old new
  | _, _ => json_eqb old new = true
  end.

(** ** What the update may change *)

Section relaxed.
Context `{Regex, SerdeJson}.

(** Every keyword of the update [u] admits what the original's admits; [R] is
    the relation of the schemas below. *)
Record relaxed (R : json → json → Prop) (o u : json) : Prop := {
  rx_type : ∀ v, type_admits o v → type_admits u v;
  rx_enum : ∀ v, enum_admits o v → enum_admits u v;
  rx_upper : ∀ key, key ∈ upper_keywords → upper_relaxed (json_get o key ≫= as_f64) (json_get u key ≫= as_f64);
  rx_lower : ∀ key, key ∈ lower_keywords → lower_relaxed (json_get o key ≫= as_f64) (json_get u key ≫= as_f64);
  rx_multiple : ∀ m, json_get u "multipleOf" ≫= as_f64 = Some m →
    ∃ m', json_get o "multipleOf" ≫= as_f64 = Some m' ∧
      (f64_differ m' m = false ∨ nearly_whole (f64_div m' m));
  rx_pattern : ∀ p, json_get u "pattern" = Some (JString p) → json_get o "pattern" = Some (JString p);
  rx_unique : json_get u "uniqueItems" = Some (JBool true) → json_get o "uniqueItems" = Some (JBool true);
  (** properties *)
  rx_required : ∀ name op up, requires u name → ¬ requires o name →
    entry_of o "properties" name = Some op → entry_of u "properties" name = Some up →
    is_Some (json_get up "default");
  rx_property : ∀ name op up,
    entry_of o "properties" name = Some op → entry_of u "properties" name = Some up → R op up;
  rx_removed : ∀ name op,
    entry_of o "properties" name = Some op → entry_of u "properties" name = None →
    wide_open u ∨
    (¬ shut u ∧ (∃ s, covers u name s) ∧ ∀ s, covers u name s → R op s);
  rx_added : ∀ name up,
    entry_of o "properties" name = None → entry_of u "properties" name = Some up →
    (requires u name → is_Some (json_get up "default")) ∧
    (wide_open o → up = JObject []) ∧
    (¬ wide_open o → ¬ shut o → ¬ requires u name → ∀ s, covers o name s → R s up);
  rx_additional : ∀ key, key ∈ ["additionalProperties"; "additionalItems"] →
    match json_get o key, json_get u key with
    | _, None => True
    | None, Some y => y = JBool true
    | Some x, Some y =>
        (y = JBool false → x = JBool false) ∧ (is_boolean x = false → is_boolean y = false → R x y)
    end;
  (** items *)
  rx_items : ∀ x y, json_get o "items" = Some x → json_get u "items" = Some y →
    match x, y with
    | JObject _, JObject _ => R x y
    | JArray l, JArray l' =>
        (length l' ≤ length l)%nat ∧ ∀ i a b, l !! i = Some a → l' !! i = Some b → R a b
    | _, _ => False
    end;
  (** combinators *)
  rx_all_of :
    match list_of o "allOf", list_of u "allOf" with
    | None, None => True
    | Some old, Some new =>
        list_eqb old new = true ∨ ∃ m, matched R old new m ∧ length m = length new
    | _, _ => False
    end;
  rx_union :
    match union_of o, union_of u with
    | None, None => True
    | None, Some (_, new) => ∃ y, y ∈ new ∧ R o y
    | Some (kind, old), Some (kind', new) =>
        if String.eqb kind kind'
        then list_eqb old new = true ∨ ∃ m, matched R old new m ∧ length m = length old
        else kind' = "anyOf"
    | Some _, None => False
    end;
  rx_not :
    match json_get o "not", json_get u "not" with
    | None, None => True
    | Some x, Some y => json_eqb x y = true ∨ R y x
    | _, _ => False
    end;
  (** dependencies and conditionals *)
  rx_dependency : ∀ name y, entry_of u "dependencies" name = Some y →
    ∃ x, entry_of o "dependencies" name = Some x ∧ dependency_relaxed R x y;
  rx_conditional : ∀ key, key ∈ ["if"; "then"; "else"] →
    canonicalize <$> json_get o key = canonicalize <$> json_get u key;
}.

Definition no_ref (schema : json) : Prop := ∀ s, json_get schema "$ref" ≠ Some (JString s).

(** [relaxed] to a depth, through schemas without [$ref]. *)
Fixpoint relaxes (depth : nat) (o u : json) : Prop :=
  match depth with
  | O => True
  | S depth => no_ref o → no_ref u → relaxed (relaxes depth) o u
  end.
End relaxed.

(** ** Accepted outputs *)

Definition accepted (l : list Difference) : Prop :=
  ∀ x, x ∈ l → is_backward_compatible (df_kind x) = true.

Lemma accepted_app l l' : accepted (l ++ l') ↔ accepted l ∧ accepted l'.
Proof. unfold accepted. setoid_rewrite elem_of_app. naive_solver. Qed.

Lemma accepted_d kind path : accepted (d kind path) ↔ is_backward_compatible kind = true.
Proof.
  unfold accepted, d. split; [intros Ha; apply (Ha (mkDifference kind path)); by left|].
  intros Hk x Hx%list_elem_of_singleton. by subst.
Qed.

Lemma accepted_flat_map {A} (f : A → list Difference) l :
  accepted (flat_map f l) ↔ ∀ x, x ∈ l → accepted (f x).
Proof.
  induction l as [|x l IH]; simpl.
  - split; [by intros _ x ?%not_elem_of_nil|]. by intros _ x ?%not_elem_of_nil.
  - rewrite accepted_app, IH. setoid_rewrite elem_of_cons. naive_solver.
Qed.

Lemma andthen_accepted a b x :
  andthen a b = Some x → accepted x → ∃ y z, a = Some y ∧ b = Some z ∧ accepted y ∧ accepted z.
Proof.
  unfold andthen. destruct a as [y|]; simpl; [|done]. destruct b as [z|]; simpl; [|done].
  intros [= <-] [? ?]%accepted_app. eauto 6.
Qed.

Lemma collect_accepted {A} (f : A → option (list Difference)) l out x :
  collect f l = Some out → accepted out → x ∈ l → ∃ y, f x = Some y ∧ accepted y.
Proof.
  revert out. induction l as [|a l IH]; intros out Hc Ha Hx; [by apply not_elem_of_nil in Hx|].
  cbn [collect] in Hc. destruct (andthen_accepted _ _ _ Hc Ha) as (y & z & Hy & Hz & ? & ?).
  apply elem_of_cons in Hx as [->|Hx]; eauto.
Qed.

Ltac accepted_tac := repeat first
  [ rewrite accepted_d | rewrite bool_decide_eq_true | case_bool_decide | case_match ];
  intros; simplify_eq/=.

(** ** Each keyword *)

Lemma strings_of_elem l s : s ∈ strings_of l ↔ JString s ∈ l.
Proof.
  unfold strings_of. rewrite elem_of_list_to_set, list_elem_of_omap. split.
  - intros ([] & Hin & Hs); simplify_eq/=. done.
  - intros Hin. by exists (JString s).
Qed.

Lemma list_of_array schema key : json_get schema key ≫= as_array = list_of schema key.
Proof. unfold list_of. by destruct (json_get schema key) as [[]|]. Qed.

Lemma entry_of_object schema key name :
  assoc_get name (default [] (json_get schema key ≫= as_object)) = entry_of schema key name.
Proof. unfold entry_of. by destruct (json_get schema key) as [[]|]. Qed.

Lemma requires_spec schema name : requires schema name ↔ name ∈ required_set schema.
Proof.
  unfold requires, required_set. rewrite list_of_array. destruct (list_of schema "required") as [l|].
  - rewrite strings_of_elem. naive_solver.
  - split; [naive_solver|]. by intros ?%not_elem_of_empty.
Qed.

Lemma ref_of_none schema : no_ref schema → ref_of schema = None.
Proof.
  unfold no_ref, ref_of. destruct (json_get schema "$ref") as [[]|]; try done.
  intros Hn. by destruct (Hn s).
Qed.

(** The content models by their keywords. *)
Lemma content_model_spec schema :
  match content_model schema with
  | Open => wide_open schema ∧ ¬ shut schema
  | Closed => shut schema ∧ ¬ wide_open schema
  | Partial | CSchema _ => ¬ wide_open schema ∧ ¬ shut schema
  end.
Proof.
  unfold content_model, wide_open, shut.
  destruct (json_get schema "additionalProperties") as [[|[]| | | |]|];
    destruct (json_get schema "patternProperties") as [[]|]; simpl; naive_solver.
Qed.

Lemma covering_spec `{Regex} schema name s :
  ¬ wide_open schema → ¬ shut schema → s ∈ covering_schemas schema name ↔ covers schema name s.
Proof.
  intros Hw Hs. unfold covering_schemas. rewrite elem_of_app. unfold covers.
  assert (Hp : s ∈ match json_get schema "patternProperties" ≫= as_object with
      | Some patterns => omap (λ pv : string * json, match regex_new pv.1 with
          | Some is_match => if is_match name then Some pv.2 else None | None => None end) patterns
      | None => [] end ↔
    ∃ l p is_match, json_get schema "patternProperties" = Some (JObject l) ∧ (p, s) ∈ l ∧
      regex_new p = Some is_match ∧ is_match name = true).
  { destruct (json_get schema "patternProperties") as [[| | | | |l]|]; cbn [mbind option_bind as_object];
      try (split; [by intros ?%not_elem_of_nil|by intros (? & ? & ? & ? & _)]).
    rewrite list_elem_of_omap. split.
    - intros ([p x] & Hin & Hm). simpl in Hm. destruct (regex_new p) as [f|] eqn:Er; [|done].
      destruct (f name) eqn:Ef; [|done]. injection Hm as ->. by exists l, p, f.
    - intros (l' & p & f & [= <-] & Hin & Er & Ef). exists (p, s). simpl. by rewrite Er, Ef. }
  rewrite Hp. apply or_iff_compat_r. revert Hw Hs. unfold content_model, wide_open, shut.
  destruct (json_get schema "additionalProperties") as [[|[]| | | |]|];
    destruct (json_get schema "patternProperties") as [[]|]; simpl; intros Hw Hs;
    rewrite ?list_elem_of_singleton, ?elem_of_nil; try tauto; naive_solver.
Qed.

(** Exactly which type changes are accepted. *)
Lemma type_verdict path o u :
  accepted (compare_type path o u) →
  types_of o = types_of u ∨ (types_of o = {[ "integer" ]} ∧ types_of u = {[ "number" ]}) ∨
  types_of u = ∅ ∨ (types_of o ≠ ∅ ∧ types_of o ⊆ types_of u).
Proof.
  unfold compare_type. generalize (types_of o) (types_of u). intros ot ut.
  repeat (case_bool_decide; cbn [andb orb negb]; try tauto); rewrite accepted_d; try done; tauto.
Qed.

Lemma type_admits_spec schema v :
  type_admits schema v ↔ types_of schema = ∅ ∨ ∃ ty, ty ∈ types_of schema ∧ instance_of ty v = true.
Proof.
  unfold type_admits, types_of. destruct (json_get schema "type") as [[| | |ty|l|]|]; try tauto.
  - setoid_rewrite elem_of_singleton. split; [intros Hi; right; by exists ty|].
    intros [Hn|(? & -> & Hi)]; [set_solver|done].
  - setoid_rewrite strings_of_elem. split.
    + intros [Hl|Hl]; [by right|]. left. apply set_eq. intros ty. rewrite strings_of_elem. set_solver.
    + intros [Hl|Hl]; [|by left]. right. intros ty Hty%strings_of_elem. rewrite Hl in Hty. set_solver.
Qed.

Lemma type_relaxed path o u v :
  accepted (compare_type path o u) → type_admits o v → type_admits u v.
Proof.
  rewrite !type_admits_spec.
  intros [->|[[-> ->]|[->|[Hne Hsub]]]]%type_verdict; [done|..].
  - intros [Hv|(ty & ->%elem_of_singleton & Hi)]; [set_solver|]. right. exists "number".
    split; [set_solver|]. by destruct v.
  - by left.
  - intros [Hv|(ty & Hty & Hi)]; [done|]. right. exists ty. split; [set_solver|done].
Qed.

Lemma enum_admits_spec `{SerdeJson} schema v :
  enum_admits schema v ↔ match enum_set schema with None => True | Some s => canonicalize v ∈ s end.
Proof.
  unfold enum_admits, enum_set.
  assert (Hconst : match json_get schema "const" with Some w => canonicalize w = canonicalize v | None => True end
    ↔ match (λ c, {[ canonicalize c ]} : gset string) <$> json_get schema "const" with
      | None => True | Some s => canonicalize v ∈ s end).
  { destruct (json_get schema "const"); simpl; [|done]. rewrite elem_of_singleton. done. }
  destruct (json_get schema "enum") as [[| | | |l|]|]; cbn [mbind option_bind as_array]; try exact Hconst.
  rewrite elem_of_list_to_set, list_elem_of_fmap. naive_solver.
Qed.

Lemma enum_relaxed `{SerdeJson} path o u v :
  accepted (compare_enum path o u) → enum_admits o v → enum_admits u v.
Proof.
  rewrite !enum_admits_spec. unfold compare_enum. destruct (enum_set o) as [os|], (enum_set u) as [us|]; simpl; try done.
  - repeat case_bool_decide; rewrite ?accepted_d; simpl; try done; [by subst|set_solver].
  - by rewrite accepted_d.
Qed.

Lemma upper_bound_relaxed path o u key k1 k2 k3 k4 :
  is_backward_compatible k1 = false → is_backward_compatible k3 = false →
  accepted (compare_bound path o u key k1 k2 k3 k4) → upper_relaxed (num o key) (num u key).
Proof.
  intros K1 K3. unfold compare_bound, upper_relaxed. destruct (num o key) as [x|], (num u key) as [y|]; try done.
  - destruct (f64_differ x y); [|by left]. destruct (SFltb y x); [|by right].
    rewrite accepted_d. congruence.
  - rewrite accepted_d. congruence.
Qed.

Lemma lower_bound_relaxed path o u key k1 k2 k3 k4 :
  is_backward_compatible k1 = false → is_backward_compatible k4 = false →
  accepted (compare_bound path o u key k1 k2 k3 k4) → lower_relaxed (num o key) (num u key).
Proof.
  intros K1 K4. unfold compare_bound, lower_relaxed. destruct (num o key) as [x|], (num u key) as [y|]; try done.
  - destruct (f64_differ x y); [|by left]. destruct (SFltb y x); [by right|].
    rewrite accepted_d. congruence.
  - rewrite accepted_d. congruence.
Qed.

Lemma multiple_of_relaxed path o u m :
  accepted (compare_multiple_of path o u) → num u "multipleOf" = Some m →
  ∃ m', num o "multipleOf" = Some m' ∧ (f64_differ m' m = false ∨ nearly_whole (f64_div m' m)).
Proof.
  unfold compare_multiple_of. intros Ha Em. rewrite Em in Ha. destruct (num o "multipleOf") as [m'|]; [|by apply accepted_d in Ha].
  exists m'. split; [done|]. destruct (f64_differ m' m); [|by left]. right.
  apply accepted_d in Ha. destruct (divisible m' m) eqn:Ed; [exact Ed|]. by destruct (divisible m m').
Qed.

Lemma required_relaxed path o u name op up :
  accepted (compare_required path o u) → requires u name → ¬ requires o name →
  entry_of o "properties" name = Some op → entry_of u "properties" name = Some up →
  is_Some (json_get up "default").
Proof.
  rewrite !requires_spec, <- !entry_of_object. unfold compare_required. fold (props o) (props u).
  intros [Ha _]%accepted_app Hu Ho Eo Eu.
  rewrite accepted_flat_map in Ha. specialize (Ha name). rewrite Eu in Ha. cbn [mbind option_bind] in Ha.
  destruct (json_get up "default"); [by eexists|]. simpl in Ha.
  assert (accepted (d RequiredAttributeAdded (path +:+ "/required/" +:+ name))) as Hd%accepted_d; [|done].
  apply Ha. apply list_elem_of_In, filter_In. rewrite Eo, Eu. split; [|done].
  apply list_elem_of_In. unfold btree_elements. rewrite elem_of_sort_by, elem_of_elements. set_solver.
Qed.

Lemma pattern_relaxed path o u p :
  accepted (compare_pattern path o u) → json_get u "pattern" = Some (JString p) →
  json_get o "pattern" = Some (JString p).
Proof.
  unfold compare_pattern. intros Ha Eu. rewrite Eu in Ha. cbn [mbind option_bind as_str] in Ha.
  destruct (json_get o "pattern") as [[| | |q| |]|]; cbn [mbind option_bind as_str] in Ha; try by apply accepted_d in Ha.
  destruct (String.eqb q p) eqn:Eq; [apply String.eqb_eq in Eq; congruence|]. by apply accepted_d in Ha.
Qed.

Lemma unique_relaxed path o u :
  accepted (compare_unique_items path o u) → json_get u "uniqueItems" = Some (JBool true) →
  json_get o "uniqueItems" = Some (JBool true).
Proof.
  unfold compare_unique_items. intros Ha Eu. rewrite Eu in Ha. cbn in Ha.
  destruct (json_get o "uniqueItems") as [[|[]| | | |]|]; cbn in Ha; try done; by apply accepted_d in Ha.
Qed.

(** ** One pass *)

Section step.
Context `{Regex, JsonPointer, SerdeJson}.

(** Each recursive comparison relaxes: [r] is a pass on smaller fuel, [R] the
    relation of the depth below. *)
Context (r : Compare) (R : json → json → Prop).
Context (Hr : ∀ path o u v out, r path o u v = Some out → accepted out → R o u).

Lemma branch_related o u : branch_compatible r o u = Some true → R o u.
Proof.
  unfold branch_compatible. destruct (r "#" o u ∅) as [out|] eqn:E; cbn [mbind option_bind]; [|done].
  intros [= Hall]. apply (Hr _ _ _ _ _ E). intros x Hx.
  rewrite forallb_forall in Hall. by apply Hall, list_elem_of_In.
Qed.

Lemma branch_edges_some old new i es :
  branch_edges r old new i = Some es → ∀ x, x ∈ new → is_Some (branch_compatible r old x).
Proof.
  revert i es. induction new as [|y new IH]; intros i es; cbn [branch_edges]; [by intros _ x ?%not_elem_of_nil|].
  destruct (branch_compatible r old y) as [b|] eqn:Eb; cbn [mbind option_bind]; [|done].
  destruct (branch_edges r old new (S i)) as [es'|] eqn:Ee; cbn [mbind option_bind]; [|done].
  intros _ x [->|Hx]%elem_of_cons; [by rewrite Eb|by eapply IH].
Qed.

(** The matching the code counts, as pairs in [R]. *)
Lemma matching_related old new k :
  maximum_matching r old new = Some k → ∃ m, matched R old new m ∧ length m = k.
Proof.
  intros Hk. destruct (maximum_matching_facts r old new) as (k' & Hk' & (m & [P1 P2 P3] & Hl) & _).
  - intros x y Hx Hy. unfold maximum_matching in Hk.
    destruct (mapM _ old) as [edges|] eqn:Em; cbn [mbind option_bind] in Hk; [|done].
    apply mapM_Some in Em. apply list_elem_of_lookup in Hx as [i Hi].
    destruct (Forall2_lookup_l _ _ _ _ _ Em Hi) as (es & _ & He). by eapply branch_edges_some.
  - exists m. rewrite Hk in Hk'. injection Hk' as ->. split; [|done]. split; [|done..].
    intros i c Hin. destruct (P1 _ _ Hin) as (x & y & ? & ? & ?). exists x, y. eauto using branch_related.
Qed.

(** [n] is the side whose branches must all be paired. *)
Lemma branches_relaxed path old new extended narrowed out n :
  compare_branches r path old new extended narrowed = Some out → accepted out →
  (n = length new ∧ is_backward_compatible extended = false) ∨
  (n = length old ∧ is_backward_compatible narrowed = false) →
  list_eqb old new = true ∨ ∃ m, matched R old new m ∧ length m = n.
Proof.
  unfold compare_branches. destruct (list_eqb old new); [by left|].
  destruct (maximum_matching r old new) as [k|] eqn:Ek; cbn [mbind option_bind]; [|done].
  intros [= <-] Ha Hn. right.
  destruct (matching_related _ _ _ Ek) as (m & Hm & Hl). exists m. split; [done|].
  assert (Hlen : (length m ≤ length old ∧ length m ≤ length new)%nat).
  { destruct Hm as [M1 M2 M3]. rewrite <- (length_fmap fst m) at 1. rewrite <- (length_fmap snd m) at 1. 
    rewrite <- (length_seq (length old) 0) at 1. rewrite <- (length_seq (length new) 0) at 1.
    split; apply submseteq_length, NoDup_submseteq; try done; intros i ([i' c'] & -> & Hin)%list_elem_of_fmap;
      destruct (M1 _ _ Hin) as (x & y & Hx%lookup_lt_Some & Hy%lookup_lt_Some & _); apply elem_of_seq; simpl; lia. }
  destruct (Nat.ltb_spec k (length old `min` length new)); [by apply accepted_d in Ha|].
  destruct (Nat.ltb_spec (length old) (length new)).
  - apply accepted_d in Ha. destruct Hn as [[-> Hk]|[-> _]]; [congruence|lia].
  - destruct (Nat.ltb_spec (length new) (length old)); [apply accepted_d in Ha|]; destruct Hn as [[-> _]|[-> Hk]]; try congruence; lia.
Qed.

Lemma all_of_relaxed path o u out :
  compare_all_of r path o u = Some out → accepted out →
  match list_of o "allOf", list_of u "allOf" with
  | None, None => True
  | Some old, Some new => list_eqb old new = true ∨ ∃ m, matched R old new m ∧ length m = length new
  | _, _ => False
  end.
Proof.
  unfold compare_all_of, branches. rewrite !list_of_array.
  destruct (list_of o "allOf") as [old|], (list_of u "allOf") as [new|]; [|by intros [= <-] ?%accepted_d..|done].
  intros Hc Ha. eapply branches_relaxed; [exact Hc|exact Ha|]. by left.
Qed.

Lemma any_branch_true f l : any_branch f l = Some true → ∃ y, y ∈ l ∧ f y = Some true.
Proof.
  induction l as [|x l IH]; cbn [any_branch]; [done|].
  destruct (f x) as [[]|] eqn:E; cbn [mbind option_bind]; [intros _; exists x; split; [by left|done]| |done].
  intros (y & ? & ?)%IH. exists y. split; [by right|done].
Qed.

Lemma sum_of_union schema : sum_of schema = union_of schema.
Proof.
  unfold sum_of, union_of, branches. rewrite !list_of_array.
  destruct (list_of schema "anyOf"); [done|]. by destruct (list_of schema "oneOf").
Qed.

Lemma union_relaxed path o u out :
  compare_sum r path o u = Some out → accepted out →
  match union_of o, union_of u with
  | None, None => True
  | None, Some (_, new) => ∃ y, y ∈ new ∧ R o y
  | Some (kind, old), Some (kind', new) =>
      if String.eqb kind kind'
      then list_eqb old new = true ∨ ∃ m, matched R old new m ∧ length m = length old
      else kind' = "anyOf"
  | Some _, None => False
  end.
Proof.
  unfold compare_sum. rewrite (sum_of_union o), (sum_of_union u).
  destruct (union_of o) as [[kind old]|], (union_of u) as [[kind' new]|]; [| | |done].
  - destruct (String.eqb kind kind'); cbn [negb].
    + intros Hc Ha. eapply branches_relaxed; [exact Hc|exact Ha|]. by right.
    + intros [= <-] Ha%accepted_d. destruct (String.eqb kind' "anyOf") eqn:E; [by apply String.eqb_eq|done].
  - destruct (all_branches _ old) as [[]|]; cbn [mbind option_bind]; [..|done]; by intros [= <-] ?%accepted_d.
  - destruct (any_branch _ new) as [[]|] eqn:E; cbn [mbind option_bind]; [..|done].
    + intros _ _. apply any_branch_true in E as (y & ? & ?). exists y. split; [done|by apply branch_related].
    + by intros [= <-] ?%accepted_d.
Qed.

Lemma not_relaxed path o u out :
  compare_not r path o u = Some out → accepted out →
  match json_get o "not", json_get u "not" with
  | None, None => True
  | Some x, Some y => json_eqb x y = true ∨ R y x
  | _, _ => False
  end.
Proof.
  unfold compare_not.
  destruct (json_get o "not") as [x|], (json_get u "not") as [y|]; [|by intros [= <-] ?%accepted_d..|done].
  destruct (json_eqb x y); [by left|].
  destruct (branch_compatible r y x) as [[]|] eqn:E; cbn [mbind option_bind]; [..|done].
  - intros _ _. right. by apply branch_related.
  - by intros [= <-] ?%accepted_d.
Qed.

Lemma dependencies_relaxed path o u v out name y :
  compare_dependencies r path o u v = Some out → accepted out →
  entry_of u "dependencies" name = Some y →
  ∃ x, entry_of o "dependencies" name = Some x ∧ dependency_relaxed R x y.
Proof.
  unfold compare_dependencies. rewrite <- !entry_of_object.
  generalize (default [] (json_get o "dependencies" ≫= as_object)). intros old.
  generalize (default [] (json_get u "dependencies" ≫= as_object)). intros new.
  intros Hc Ha Ey. destruct (andthen_accepted _ _ _ Hc Ha) as (l1 & ? & Hl1 & [= <-] & A1 & A2).
  rewrite accepted_flat_map in A2. specialize (A2 _ (assoc_get_elem _ _ _ Ey)). cbn [fst snd] in A2.
  destruct (assoc_get name old) as [x|] eqn:Ex; [|cbn [is_some] in A2; apply accepted_d in A2; unfold dependency_kind in A2; by destruct (is_array y)].
  exists x. split; [done|].
  destruct (collect_accepted _ _ _ _ Hl1 A1 (assoc_get_elem _ _ _ Ex)) as (out' & Hd & Ad).
  unfold compare_dependency in Hd. cbn [fst snd] in Hd. rewrite Ey in Hd.
  assert (Hkept : ∀ b, Some (if b : bool then [] else d DependencyArrayChanged
    (path +:+ "/dependencies/" +:+ name)) = Some out' → b = true).
  { intros [] [= <-]; [done|]. by apply accepted_d in Ad. }
  destruct x as [| | | |l|l], y as [| | | |l'|l']; cbn [as_array is_some negb andb is_object] in Hd;
    unfold dependency_relaxed; try (match goal with |- ?b = true => exact (Hkept b Hd) end).
  - injection Hd as <-. intros s. rewrite <- !strings_of_elem.
    repeat (case_bool_decide; cbn [andb negb] in Ad); try by apply accepted_d in Ad. all: set_solver.
  - by eapply Hr.
Qed.

Lemma conditional_relaxed path o u v out key :
  compare_conditionals r path o u v = Some out → accepted out → key ∈ ["if"; "then"; "else"] →
  canonicalize <$> json_get o key = canonicalize <$> json_get u key.
Proof.
  unfold compare_conditionals. intros Hc Ha Hk.
  destruct (collect_accepted _ _ _ _ Hc Ha Hk) as (out' & Hd & Ad). unfold compare_conditional in Hd.
  destruct (json_get o key) as [x|], (json_get u key) as [y|]; simpl; [| | |done].
  - destruct (String.eqb _ _) eqn:E; [apply String.eqb_eq in E; congruence|].
    destruct (andthen_accepted _ _ _ Hd Ad) as (? & ? & [= <-] & _ & Hx%accepted_d & _). done.
  - injection Hd as <-. by apply accepted_d in Ad.
  - injection Hd as <-. by apply accepted_d in Ad.
Qed.

Lemma additional_relaxed key sub path k1 k2 k3 k4 o u v out :
  is_backward_compatible k1 = false → is_backward_compatible k3 = false →
  compare_additional r key sub path k1 k2 k3 k4 o u v = Some out → accepted out →
  match json_get o key, json_get u key with
  | _, None => True
  | None, Some y => y = JBool true
  | Some x, Some y =>
      (y = JBool false → x = JBool false) ∧ (is_boolean x = false → is_boolean y = false → R x y)
  end.
Proof.
  intros K1 K3. unfold compare_additional. intros Hc Ha.
  destruct (json_get u key) as [y|]; [|by destruct (json_get o key)].
  destruct (json_get o key) as [[|[]| | | |]|], y as [|[]| | | |];
    cbn [is_some is_boolean negb andb] in Hc |- *; (try done); (try (split; [done|intros; by eapply Hr]));
    (try done); injection Hc as <-; apply accepted_d in Ha; congruence.
Qed.

Lemma items_relaxed path o u v out x y :
  compare_items r path o u v = Some out → accepted out →
  json_get o "items" = Some x → json_get u "items" = Some y →
  match x, y with
  | JObject _, JObject _ => R x y
  | JArray l, JArray l' =>
      (length l' ≤ length l)%nat ∧ ∀ i a b, l !! i = Some a → l' !! i = Some b → R a b
  | _, _ => False
  end.
Proof.
  unfold compare_items. intros Hc Ha Ex Ey. rewrite Ex, Ey in Hc.
  destruct x as [| | | |l|l], y as [| | | |l'|l']; cbn [is_object andb] in Hc;
    try (injection Hc as <-; by apply accepted_d in Ha); [|by eapply Hr].
  destruct (andthen_accepted _ _ _ Hc Ha) as (out1 & ? & Ho1 & [= <-] & A1 & A2). split.
  - destruct (Nat.ltb_spec (length l) (length l')); [by apply accepted_d in A2|lia].
  - intros i a b Ea Eb.
    destruct (collect_accepted _ _ _ (i, (a, b)) Ho1 A1) as (out' & Hout & Aout); [|by eapply Hr].
    apply list_elem_of_lookup. exists i. rewrite list_lookup_imap.
    rewrite lookup_zip_with, Ea, Eb. done.
Qed.

(** *** Properties *)

Lemma removed_relaxed path o u v out name op :
  compare_properties r path o u v = Some out → accepted out →
  entry_of o "properties" name = Some op → entry_of u "properties" name = None →
  wide_open u ∨ (¬ shut u ∧ (∃ s, covers u name s) ∧ ∀ s, covers u name s → R op s).
Proof.
  rewrite <- !entry_of_object. unfold compare_properties. fold (props o) (props u). intros Hc Ha Eo Eu.
  destruct (andthen_accepted _ _ _ Hc Ha) as (out1 & _ & Ho1 & _ & A1 & _).
  destruct (collect_accepted _ _ _ _ Ho1 A1 (assoc_get_elem _ _ _ Eo)) as (out' & Hout & Aout).
  cbn [fst snd] in Hout. rewrite Eu in Hout. cbn [is_some] in Hout.
  unfold removed_property in Hout. cbn [fst snd] in Hout. pose proof (content_model_spec u) as Hm.
  assert (Hcov : ∀ dif, ¬ wide_open u → ¬ shut u → is_backward_compatible (df_kind dif) = false →
    match covering_schemas u name with
    | [] => Some [dif]
    | _ => andthen (Some (d PropertyRemovedCoveredByPartiallyOpenContentModel (path +:+ "/properties/" +:+ name)))
             (collect (λ allowed, r (path +:+ "/properties/" +:+ name) op allowed v) (covering_schemas u name))
    end = Some out' → ¬ shut u ∧ (∃ s, covers u name s) ∧ ∀ s, covers u name s → R op s).
  { intros dif Hw Hs Hk Hd. split; [done|]. setoid_rewrite <- (covering_spec u name); [|done..].
    destruct (covering_schemas u name) as [|s l] eqn:Ec.
    { injection Hd as <-. rewrite Aout in Hk by (by left). done. }
    split; [exists s; by left|].
    destruct (andthen_accepted _ _ _ Hd Aout) as (_ & out2 & _ & Ho2 & _ & A2).
    intros t Ht. destruct (collect_accepted _ _ _ _ Ho2 A2 Ht) as (out3 & Ho3 & A3). by eapply Hr. }
  destruct (content_model u) as [| | |w].
  - left. tauto.
  - right. eapply Hcov; [tauto..| |exact Hout]. done.
  - injection Hout as <-. by apply accepted_d in Aout.
  - right. eapply Hcov; [tauto..| |exact Hout]. done.
Qed.

Lemma added_relaxed path o u v out name up :
  compare_properties r path o u v = Some out → accepted out →
  entry_of o "properties" name = None → entry_of u "properties" name = Some up →
  (requires u name → is_Some (json_get up "default")) ∧
  (wide_open o → up = JObject []) ∧
  (¬ wide_open o → ¬ shut o → ¬ requires u name → ∀ s, covers o name s → R s up).
Proof.
  rewrite <- !entry_of_object. rewrite requires_spec. unfold compare_properties. fold (props o) (props u). intros Hc Ha Eo Eu.
  destruct (andthen_accepted _ _ _ Hc Ha) as (_ & out2 & _ & Ho2 & _ & A2).
  destruct (collect_accepted _ _ _ _ Ho2 A2 (assoc_get_elem _ _ _ Eu)) as (out' & Hout & Aout).
  cbn [fst snd] in Hout. rewrite Eo in Hout. unfold added_property in Hout. cbn [fst snd] in Hout.
  pose proof (content_model_spec o) as Hm.
  destruct (bool_decide (name ∈ required_set u) && is_some (json_get up "default") && negb (is_open (content_model o))) eqn:Eb.
  { apply andb_true_iff in Eb as [[Hq%bool_decide_eq_true Hd]%andb_true_iff Hop].
    split_and!; [intros _; destruct (json_get up "default"); [by eexists|done]| |done].
    intros Hw. destruct (content_model o); try done; tauto. }
  clear Eb. destruct (andthen_accepted _ _ _ Hout Aout) as (? & out3 & [= <-] & Ho3 & A1 & A3).
  split_and!.
  - intros Hq. rewrite bool_decide_eq_true_2 in A1 by done.
    destruct (json_get up "default"); [by eexists|]. by apply accepted_d in A1.
  - intros Hw. destruct (content_model o); try tauto. injection Ho3 as <-.
    destruct up as [| | | | |[|]]; try done; by apply accepted_d in A3.
  - intros Hw Hs Hq s Hcov%(covering_spec o name); [|done..].
    assert (Hall : match covering_schemas o name with
      | [] => Some (d PropertyAddedNotCoveredByPartiallyOpenContentModel (path +:+ "/properties/" +:+ name))
      | covering => andthen (Some (d PropertyAddedCoveredByPartiallyOpenContentModel (path +:+ "/properties/" +:+ name)))
          (collect (λ allowed, r (path +:+ "/properties/" +:+ name) allowed up v) covering)
      end = Some out3) by (destruct (content_model o); [tauto|done|tauto|done]).
    destruct (covering_schemas o name) as [|t l] eqn:Ec; [by apply not_elem_of_nil in Hcov|].
    destruct (andthen_accepted _ _ _ Hall A3) as (_ & out4 & _ & Ho4 & _ & A4).
    destruct (collect_accepted _ _ _ _ Ho4 A4 Hcov) as (out5 & Ho5 & A5). by eapply Hr.
Qed.

Lemma property_relaxed path o u v out name op up :
  compare_properties r path o u v = Some out → accepted out →
  entry_of o "properties" name = Some op → entry_of u "properties" name = Some up → R op up.
Proof.
  rewrite <- !entry_of_object. unfold compare_properties. fold (props o) (props u). intros Hc Ha Eo Eu.
  destruct (andthen_accepted _ _ _ Hc Ha) as (_ & out2 & _ & Ho2 & _ & A2).
  destruct (collect_accepted _ _ _ _ Ho2 A2 (assoc_get_elem _ _ _ Eu)) as (out' & Hout & Aout).
  cbn [fst snd] in Hout. rewrite Eo in Hout. by eapply Hr.
Qed.

(** *** The whole pass *)

Lemma compare_step_relaxed ctx path o u v out :
  compare_step r ctx path o u v = Some out → accepted out → no_ref o → no_ref u → relaxed R o u.
Proof.
  intros Hc Ha Eo%ref_of_none Eu%ref_of_none. unfold compare_step, compare_refs in Hc. rewrite Eo, Eu in Hc.
  destruct (andthen_accepted _ _ _ Hc Ha) as (? & r1 & [= <-] & Hx1 & [At Ae]%accepted_app & A1).
  destruct (andthen_accepted _ _ _ Hx1 A1) as (o1 & r2 & Hp & Hx2 & Ap & A2).
  destruct (andthen_accepted _ _ _ Hx2 A2) as (? & r3 & [= <-] & Hx3 & Ar & A3).
  destruct (andthen_accepted _ _ _ Hx3 A3) as (o2 & r4 & Had & Hx4 & Aad & A4).
  destruct (andthen_accepted _ _ _ Hx4 A4) as (? & r5 & [= <-] & Hx5 & [An As]%accepted_app & A5).
  destruct (andthen_accepted _ _ _ Hx5 A5) as (? & r6 & Harr & Hx6 & Aarr & A6).
  destruct (andthen_accepted _ _ _ Hx6 A6) as (? & r7 & [= <-] & Hx7 & Asz & A7).
  destruct (andthen_accepted _ _ _ Hx7 A7) as (oc & r8 & Hcomb & Hx8 & Acomb & A8).
  destruct (andthen_accepted _ _ _ Hx8 A8) as (od & oi & Hdep & Hcond & Adep & Acond).
  unfold compare_combinators in Hcomb.
  destruct (andthen_accepted _ _ _ Hcomb Acomb) as (oc1 & r9 & Hall & Hx9 & Aall & A9).
  destruct (andthen_accepted _ _ _ Hx9 A9) as (oc2 & oc3 & Hsum & Hnot & Asum & Anot).
  unfold compare_array_constraints in Harr.
  destruct (andthen_accepted _ _ _ Harr Aarr) as (o3 & ? & Hit & Harr2 & Ait & Aarr2).
  destruct (andthen_accepted _ _ _ Harr2 Aarr2) as (? & ? & [= <-] & Harr3 & [Ai1 Ai2]%accepted_app & Aarr3).
  destruct (andthen_accepted _ _ _ Harr3 Aarr3) as (o4 & ? & Hai & [= <-] & Aai & Auq).
  unfold compare_numeric, compare_string_constraints, compare_object_size in *.
  repeat rewrite accepted_app in An; repeat rewrite accepted_app in As; repeat rewrite accepted_app in Asz.
  destruct An as (Amax & Amin & Aemax & Aemin & Amul), As as (Aml & Anl & Apat), Asz as [Amp Anp].
  split.
  - intros w. by eapply type_relaxed.
  - intros w. by eapply enum_relaxed.
  - unfold upper_keywords. intros key Hk. repeat apply elem_of_cons in Hk as [->|Hk];
      [eapply upper_bound_relaxed; [| |eassumption]; done..|by apply not_elem_of_nil in Hk].
  - unfold lower_keywords. intros key Hk. repeat apply elem_of_cons in Hk as [->|Hk];
      [eapply lower_bound_relaxed; [| |eassumption]; done..|by apply not_elem_of_nil in Hk].
  - intros m. by eapply multiple_of_relaxed.
  - intros p. by eapply pattern_relaxed.
  - by eapply unique_relaxed.
  - intros name op up. by eapply required_relaxed.
  - intros name op up. by eapply property_relaxed.
  - intros name op. by eapply removed_relaxed.
  - intros name up. by eapply added_relaxed.
  - intros key Hk. repeat apply elem_of_cons in Hk as [->|Hk]; [| |by apply not_elem_of_nil in Hk].
    + by eapply additional_relaxed; [| |exact Had|].
    + by eapply additional_relaxed; [| |exact Hai|].
  - intros x1 y1. by eapply items_relaxed.
  - by eapply all_of_relaxed.
  - by eapply union_relaxed.
  - by eapply not_relaxed.
  - intros name y. by eapply dependencies_relaxed.
  - intros key. by eapply conditional_relaxed.
Qed.
End step.

Section check_facts.
Context `{Regex, JsonPointer, SerdeJson}.

Lemma compare_schema_relaxes depth ctx : ∀ fuel path o u v out,
  compare_schema fuel ctx path o u v = Some out → accepted out → relaxes depth o u.
Proof.
  induction depth as [|depth IH]; [done|]. intros [|fuel] path o u v out Hc Ha Eo Eu; [done|].
  by eapply compare_step_relaxed; [intros; eapply IH| | | |].
Qed.

(** ** The check *)

Lemma check_ok json_text fuel reader writer rr wr rs ws :
  parse json_text reader rr = Ok rs → parse json_text writer wr = Ok ws →
  check json_text fuel reader writer rr wr = Some (Ok ()) ↔
  ∃ out, compare_with_refs fuel (js_value ws) (js_value rs) (js_refs ws) (js_refs rs) = Some out ∧ accepted out.
Proof.
  intros Er Ew. unfold check. rewrite Er, Ew.
  destruct (compare_with_refs _ _ _ _ _) as [out|]; simpl; [|by split; [|intros (? & ? & _)]].
  destruct (List.filter _ out) as [|x l] eqn:Ef.
  - split; [|done]. intros _. exists out. split; [done|]. intros x Hx.
    destruct (is_backward_compatible (df_kind x)) eqn:Ek; [done|].
    assert (In x (List.filter (λ x, negb (is_backward_compatible (df_kind x))) out)) as Hin;
      [|by rewrite Ef in Hin].
    apply filter_In. rewrite Ek. split; [by apply list_elem_of_In|done].
  - split; [done|]. intros (out' & [= <-] & Ha).
    assert (In x (List.filter (λ x, negb (is_backward_compatible (df_kind x))) out)) as Hin
      by (rewrite Ef; by left).
    apply filter_In in Hin as [Hin Hk]. apply list_elem_of_In, Ha in Hin. by rewrite Hin in Hk.
Qed.

(** Enough fuel for the diff of two parsed schemas. *)
Definition check_fuel (ws rs : JsonSchema) : nat :=
  S (diff_measure (mkCtx (js_value ws) (js_value rs) (js_refs ws) (js_refs rs)) ∅ (js_value ws) (js_value rs)).

Definition schema_documents (s : JsonSchema) : list json := documents (js_value s) (js_refs s).
End check_facts.


(** C28: the JSON Schema check ends, with one answer, on all documents without
    [$ref]s and on all documents without combinators: from [check_fuel] on, more
    fuel changes nothing. *)
Theorem json_check_terminates `{Regex, JsonPointer, !JsonPointerLaws, SerdeJson}
    json_text reader writer rr wr rs ws :
  parse json_text reader rr = Ok rs → parse json_text writer wr = Ok ws →
  (∀ doc, doc ∈ schema_documents ws ++ schema_documents rs → ref_free doc = true) ∨
  (∀ doc, doc ∈ schema_documents ws ++ schema_documents rs → combinator_free doc = true) →
  ∃ answer, ∀ fuel, (check_fuel ws rs ≤ fuel)%nat →
    check json_text fuel reader writer rr wr = Some answer.
Proof.
  intros Er Ew Hfree.
  set (ctx := mkCtx (js_value ws) (js_value rs) (js_refs ws) (js_refs rs)).
  assert (is_Some (compare_schema (check_fuel ws rs) ctx "#" (js_value ws) (js_value rs) ∅)) as [out Hout].
  { setoid_rewrite elem_of_app in Hfree. destruct Hfree as [Hf|Hf].
    - apply ref_free_total; [apply Hf; left; by left|apply Hf; right; by left|].
      unfold check_fuel, diff_measure. lia.
    - apply combinator_free_total.
      + intros doc Hd. apply Hf. by left.
      + intros doc Hd. apply Hf. by right.
      + exists (js_value ws). split; [by left|constructor].
      + exists (js_value rs). split; [by left|constructor].
      + unfold check_fuel, ctx. lia. }
  eexists. intros fuel Hfuel. unfold check. rewrite Er, Ew. unfold compare_with_refs. fold ctx.
  rewrite (compare_schema_less _ _ _ _ _ _ _ Hfuel _ Hout). done.
Qed.

(** A JSON Schema is compatible with itself: when its documents are values
    serde_json can hold and every [items] is an object or a list, the check of the schema
    against itself ends, whatever [$ref]s and combinators it has, and accepts. *)
Theorem json_check_self `{Regex, JsonPointer, !JsonPointerLaws, SerdeJson}
    json_text schema refs s fuel :
  parse json_text schema refs = Ok s →
  (∀ doc, doc ∈ schema_documents s → regular doc = true) → (check_fuel s s ≤ fuel)%nat →
  check json_text fuel schema schema refs refs = Some (Ok ()).
Proof.
  intros Es Hreg Hfuel. apply (check_ok _ _ _ _ _ _ _ _ Es Es). exists [].
  split; [|by intros x ?%not_elem_of_nil].
  apply self_total; [done|exists (js_value s); split; [by left|constructor]|].
  unfold check_fuel, self_ctx in *. lia.
Qed.

(** C29: the branches of two combinators are matched as well as they can be: when
    the comparisons of the branches end, [maximum_matching] returns the size of
    a largest set of pairs of compatible branches in which no branch occurs twice. *)
Theorem maximum_matching_spec `{Regex, JsonPointer, SerdeJson} r orig upd :
  (∀ old new, old ∈ orig → new ∈ upd → is_Some (branch_compatible r old new)) →
  ∃ k, maximum_matching r orig upd = Some k ∧
    (∃ m, pairing r orig upd m ∧ length m = k) ∧ ∀ m, pairing r orig upd m → (length m ≤ k)%nat.
Proof. apply maximum_matching_facts. Qed.

(** ** Documents on which the diff does not end *)

Definition obj (l : list (string * json)) : json := JObject l.
Definition tref (s : string) : json := obj [("$ref", JString s)].

(** A tree: itself, or a leaf of some type. *)
Definition tree_schema (leaf : string) : json :=
  obj [("anyOf", JArray [tref "#"; obj [("type", JString leaf)]])].

(** The diff of two versions of a recursive union does not end, with any fuel:
    the branches are compared with a fresh guard, so a [$ref] to the document is
    followed again each time its union is reached. *)
Theorem json_diff_diverges `{Regex, JsonPointer, SerdeJson} fuel :
  compare_with_refs fuel (tree_schema "string") (tree_schema "integer") [] [] = None.
Proof.
  unfold compare_with_refs.
  set (ctx := mkCtx (tree_schema "string") (tree_schema "integer") [] []).
  enough (Hall : ∀ path v, compare_schema fuel ctx path (tree_schema "string") (tree_schema "integer") v = None)
    by apply Hall.
  induction fuel as [fuel IH] using lt_wf_ind. intros path v.
  destruct fuel as [|[|fuel]]; [done|done|].
  assert (Hb : branch_compatible (compare_schema (S fuel) ctx) (tref "#") (tref "#") = None).
  { unfold branch_compatible. cbn [compare_schema]. unfold compare_step, compare_refs. cbn.
    rewrite bool_decide_eq_false_2 by set_solver. rewrite IH by lia. done. }
  assert (Hc : compare_combinators (compare_schema (S fuel) ctx) path
    (tree_schema "string") (tree_schema "integer") = None).
  { revert Hb. generalize (compare_schema (S fuel) ctx). intros r Hb. unfold compare_combinators, compare_sum, compare_branches, maximum_matching.
    cbn -[branch_compatible]. by rewrite Hb. }
  assert (Hnone : ∀ a, andthen a None = None) by (by intros [a|]).
  assert (Hunion : ∀ r : Compare, compare_combinators r path (tree_schema "string") (tree_schema "integer") = None →
    compare_step r ctx path (tree_schema "string") (tree_schema "integer") v = None).
  { intros r Hcomb. unfold compare_step.
    change (compare_refs r ctx path (tree_schema "string") (tree_schema "integer") v)
      with (@None (option (list Difference))). cbv beta iota.
    rewrite Hcomb. cbn [andthen mbind option_bind]. by rewrite !Hnone. }
  by apply Hunion.
Qed.

(** ** JSON pointers as RFC 6901 has them *)

Fixpoint unescape (s : string) : string :=
  match s with
  | String "~"%char (String "1"%char s') => String "/"%char (unescape s')
  | String "~"%char (String "0"%char s') => String "~"%char (unescape s')
  | String c s' => String c (unescape s')
  | EmptyString => EmptyString
  end.

Definition token_index (s : string) : option nat :=
  match s with
  | String "0"%char EmptyString => Some 0%nat
  | String "0"%char _ => None
  | _ => Z.to_nat <$> digits s
  end.

Definition pointer_step (token : string) (target : json) : option json :=
  match target with
  | JObject l => assoc_get (unescape token) l
  | JArray l => token_index token ≫= λ i, l !! i
  | _ => None
  end.

Definition rfc6901 : JsonPointer := λ v p,
  match split_char "/"%char p with
  | "" :: tokens => foldl (λ target token, target ≫= pointer_step token) (Some v) tokens
  | _ => None
  end.

Lemma pointer_step_sub token v w : pointer_step token v = Some w → subvalue w v.
Proof.
  destruct v as [| | | |l|l]; simpl; try done.
  - destruct (token_index token) as [i|]; simpl; [|done]. intros Hi%list_elem_of_lookup_2.
    by apply (below_array w l).
  - intros Hg%assoc_get_elem. by apply (below_object (unescape token) w l).
Qed.

Lemma rfc6901_laws : @JsonPointerLaws rfc6901.
Proof.
  intros v p w. unfold json_pointer, rfc6901. destruct (split_char "/"%char p) as [|t tokens]; [done|].
  assert (Hfold : ∀ ts target, foldl (λ target token, target ≫= pointer_step token) target ts = Some w →
    ∃ x, target = Some x ∧ subvalue w x).
  { clear. induction ts as [|t ts IH]; intros target Hf; simpl in *; [exists w; split; [done|constructor]|].
    apply IH in Hf as (x & Hx & Hs). destruct target as [y|]; [|done]. exists y. split; [done|].
    eapply subvalue_trans; [done|]. by eapply pointer_step_sub. }
  destruct t as [|c t']; [|done]. intros Hf. destruct (Hfold _ _ Hf) as (x & [= <-] & ?). done.
Qed.

(** ** Inputs that satisfy the hypotheses *)

Section witnesses.
#[local] Existing Instance rfc6901.
#[local] Existing Instance rfc6901_laws.
#[local] Instance no_regex : Regex := λ _, None.
(** Scalars by name only: the texts below have no numbers in enums. *)
#[local] Instance name_serde : SerdeJson :=
  {| json_print v := match v with JString s => s | _ => "?" end; json_parse _ := None |}.

Definition limit (n : Z) : json := obj [("maximum", JNumber (PosInt n))].
Definition person (ty : string) (n : Z) : json :=
  obj [("properties", obj [("age", limit n)]); ("type", JString ty)].

(** A recursive list, as a [$ref] into its own definitions. *)
Definition linked (ty : string) : json :=
  obj [("$ref", JString "#/$defs/cell");
       ("$defs", obj [("cell", obj [("properties",
          obj [("head", obj [("type", JString ty)]); ("tail", tref "#/$defs/cell")])])])].

Definition texts (s : string) : result string json :=
  match s with
  | "w" => Ok (person "integer" 5)
  | "r" => Ok (person "number" 7)
  | "lw" => Ok (linked "integer")
  | "lr" => Ok (linked "number")
  | "tree" => Ok (tree_schema "string")
  | _ => Err "no such text"
  end.


Lemma json_check_terminates_witness :
  ∃ answer, ∀ fuel,
    (check_fuel (mkJsonSchema (linked "integer") []) (mkJsonSchema (linked "number") []) ≤ fuel)%nat →
    check texts fuel "lr" "lw" [] [] = Some answer.
Proof.
  apply (json_check_terminates texts "lr" "lw" [] []); [reflexivity..|]. right.
  intros doc [->|[->|[]%not_elem_of_nil]%elem_of_cons]%elem_of_cons; vm_compute; reflexivity.
Defined.

Lemma json_check_self_witness :
  check texts (check_fuel (mkJsonSchema (tree_schema "string") []) (mkJsonSchema (tree_schema "string") []))
    "tree" "tree" [] [] = Some (Ok ()).
Proof.
  apply (json_check_self texts "tree" [] (mkJsonSchema (tree_schema "string") []));
    [reflexivity| |done].
  intros doc [->|[]%not_elem_of_nil]%elem_of_cons. vm_compute. reflexivity.
Defined.

(** The branches of the source's own test. *)
Definition old_branches : list json := [obj [("type", JString "integer")]; obj [("type", JString "string")]].
Definition new_branches : list json := [obj [("type", JString "string")]; obj [("type", JString "number")]].
Definition branch_compare : Compare := compare_schema 5 (mkCtx (obj []) (obj []) [] []).

Lemma maximum_matching_spec_witness :
  maximum_matching branch_compare old_branches new_branches = Some 2%nat ∧
  ∀ m, pairing branch_compare old_branches new_branches m → (length m ≤ 2)%nat.
Proof.
  assert (Hk : maximum_matching branch_compare old_branches new_branches = Some 2%nat)
    by (vm_compute; reflexivity).
  destruct (maximum_matching_spec branch_compare old_branches new_branches) as (k & Hk' & _ & Hmax).
  - intros old new Ho Hn.
    repeat apply elem_of_cons in Ho as [->|Ho]; [..|by apply not_elem_of_nil in Ho];
    repeat apply elem_of_cons in Hn as [->|Hn]; first [by apply not_elem_of_nil in Hn|vm_compute; eexists; reflexivity].
  - rewrite Hk in Hk'. injection Hk' as <-. split; done.
Defined.

(** [items: true] on both sides is reported as a type change: the one restriction
    of [regular] that comes from the diff. *)
Example boolean_items_differ :
  compare_with_refs 5 (obj [("items", JBool true)]) (obj [("items", JBool true)]) [] []
  = Some (d TypeChanged "#/items").
Proof. vm_compute. reflexivity. Qed.

(** A closing of the content from [true] to a schema is not seen, from an absent keyword it is. *)
Example open_to_schema_unseen :
  let narrow := obj [("additionalProperties", obj [("type", JString "string")])] in
  compare_with_refs 5 (obj [("additionalProperties", JBool true)]) narrow [] [] = Some [] ∧
  compare_with_refs 5 (obj []) narrow [] [] = Some (d AdditionalPropertiesNarrowed "#").
Proof. split; vm_compute; reflexivity. Qed.

(** When [oneOf] becomes [anyOf] the branches are not compared. *)
Example kind_change_unseen :
  compare_with_refs 5 (obj [("oneOf", JArray [obj [("type", JString "string")]])])
    (obj [("anyOf", JArray [obj [("type", JString "integer")]])]) [] [] = Some (d CombinedTypeExtended "#") ∧
  is_backward_compatible CombinedTypeExtended = true.
Proof. split; vm_compute; reflexivity. Qed.

(** A newly required name that neither side declares as a property is not seen. *)
Example undeclared_required_unseen :
  compare_with_refs 5 (obj []) (obj [("required", JArray [JString "id"])]) [] [] = Some [].
Proof. vm_compute. reflexivity. Qed.

(** Limits closer than [f64::EPSILON] count as equal whatever their size. *)
Example small_limits_equal :
  compare_with_refs 5
    (obj [("maximum", JNumber (Float (f64_div (f64_of_Z 1) (f64_of_Z (10 ^ 16)))))])
    (obj [("maximum", JNumber (Float (f64_div (f64_of_Z 1) (f64_of_Z (10 ^ 20)))))]) [] [] = Some [].
Proof. vm_compute. reflexivity. Qed.
End witnesses.
