(* ===== verification/Descriptor.v ===== *)
(** * Protobuf descriptors

    The messages of descriptor.proto as prost_types has them, with the fields the
    registry and its client read. *)

From stdpp Require Import base strings list.
From Stdlib Require Import ZArith.
From S2P Require Import Prelude.

#[local] Open Scope Z_scope.

Inductive FieldType :=
  | TDouble | TFloat | TInt64 | TUint64 | TInt32 | TFixed64 | TFixed32 | TBool | TString
  | TGroup | TMessage | TBytes | TUint32 | TEnum | TSfixed32 | TSfixed64 | TSint32 | TSint64.

Inductive Label := LOptional | LRequired | LRepeated.

Record FieldDescriptorProto := mkField {
  f_name : option string;
  f_number_opt : option Z;
  f_label_opt : option Label;
  f_type_opt : option FieldType;
  f_type_name : option string;
  f_oneof_index : option Z;
  f_proto3_optional : option bool;
}.

(** The accessors: an unset field reads as its default. *)
Definition f_number (f : FieldDescriptorProto) : Z := default 0 (f_number_opt f).
Definition f_label (f : FieldDescriptorProto) : Label := default LOptional (f_label_opt f).
Definition f_type (f : FieldDescriptorProto) : FieldType := default TDouble (f_type_opt f).

Record EnumDescriptorProto := mkEnum {
  e_name_opt : option string;
  e_value : list (option Z * option string);
}.
Definition e_name (e : EnumDescriptorProto) : string := default "" (e_name_opt e).

Record ReservedRange := mkRange { rr_start : option Z; rr_end : option Z }.

Inductive DescriptorProto := mkMessage {
  m_name_opt : option string;
  m_field : list FieldDescriptorProto;
  m_nested_type : list DescriptorProto;
  m_enum_type : list EnumDescriptorProto;
  m_oneof_decl : list (option string);
  m_map_entry : option bool;
  m_reserved_range : list ReservedRange;
  m_reserved_name : list string;
}.
Definition m_name (m : DescriptorProto) : string := default "" (m_name_opt m).

Record MethodDescriptorProto := mkMethod {
  md_name : option string;
  md_input_type : option string;
  md_output_type : option string;
  md_client_streaming : option bool;
  md_server_streaming : option bool;
}.

Record ServiceDescriptorProto := mkService {
  s_name : option string;
  s_method : list MethodDescriptorProto;
}.

Record FileDescriptorProto := mkFile {
  file_name : option string;
  file_package : option string;
  file_dependency : list string;
  file_message_type : list DescriptorProto;
  file_enum_type : list EnumDescriptorProto;
  file_service : list ServiceDescriptorProto;
  file_syntax : option string;
}.

#[global] Instance FieldType_eq_dec : EqDecision FieldType.
Proof. solve_decision. Defined.
#[global] Instance Label_eq_dec : EqDecision Label.
Proof. solve_decision. Defined.

(** [MessageOptions::map_entry]. *)
Definition is_map_entry (m : DescriptorProto) : bool := bool_decide (m_map_entry m = Some true).
