(* ===== verification/ProtoText.v ===== *)
(** * The normalised text of a Protobuf file (schema-serde: format/protobuf.rs)

    [normalize] prints the descriptor of a file as the text the registry stores
    and the client registers. *)

From stdpp Require Import base strings list pretty.
From Stdlib Require Import Ascii ZArith Lia.
From S2P Require Import Prelude Text Descriptor.

#[local] Open Scope Z_scope.

Definition newline : string := of_bytes [10%nat].
Definition in_quotes (s : string) : string := of_bytes [34%nat] +:+ s +:+ of_bytes [34%nat].

(** The texts one after the other. *)
Fixpoint str_concat (l : list string) : string :=
  match l with [] => "" | s :: l' => s +:+ str_concat l' end.

(** ["  ".repeat(depth)]. *)
Definition indent (depth : nat) : string := str_concat (replicate depth "  ").

(** [s.trim_start_matches('.')]. *)
Fixpoint trim_dots (s : string) : string :=
  match s with String c s' => if Ascii.eqb c "." then trim_dots s' else s | EmptyString => s end.

Definition proto_ref_name (name package : string) : string :=
  match (if String.eqb package "" then None else strip_prefix ("." +:+ package +:+ ".") name) with
  | Some local => local
  | None => trim_dots name
  end.

Definition scalar_name (t : FieldType) : string :=
  match t with
  | TDouble => "double" | TFloat => "float" | TInt64 => "int64" | TUint64 => "uint64"
  | TInt32 => "int32" | TFixed64 => "fixed64" | TFixed32 => "fixed32" | TBool => "bool"
  | TString => "string" | TBytes => "bytes" | TUint32 => "uint32" | TSfixed32 => "sfixed32"
  | TSfixed64 => "sfixed64" | TSint32 => "sint32" | TSint64 => "sint64"
  | TGroup | TMessage | TEnum => "unknown"
  end.

Definition proto_type_name (field : FieldDescriptorProto) (package : string) : string :=
  match f_type_name field with
  | Some name => if String.eqb name "" then scalar_name (f_type field) else proto_ref_name name package
  | None => scalar_name (f_type field)
  end.

(** The nested type that makes a field a map. *)
Definition map_entry (parent : DescriptorProto) (parent_name : string) (field : FieldDescriptorProto)
    : option DescriptorProto :=
  type_name ← f_type_name field;
  let field_type := trim_dots type_name in
  List.find (λ nested,
    match m_name_opt nested with
    | Some name => String.eqb field_type name || String.eqb field_type (parent_name +:+ "." +:+ name)
    | None => false
    end && is_map_entry nested) (m_nested_type parent).

Definition is_optional (field : FieldDescriptorProto) : bool := default false (f_proto3_optional field).

Definition field_label_text (field : FieldDescriptorProto) (is_map : bool) (syntax : string) : string :=
  if bool_decide (is_Some (f_oneof_index field)) && negb (is_optional field) then ""
  else if is_optional field then "optional "
  else if is_map then ""
  else
    match f_label field with
    | LRepeated => "repeated "
    | LRequired => if String.eqb syntax "proto2" then "required " else ""
    | LOptional => if String.eqb syntax "proto2" then "optional " else ""
    end.

Definition write_field (field : FieldDescriptorProto) (parent : DescriptorProto) (parent_name : string)
    (depth : nat) (package syntax : string) : string :=
  let entry := map_entry parent parent_name field in
  let entry_type (i : nat) (e : DescriptorProto) :=
    match m_field e !! i with Some f => proto_type_name f package | None => "unknown" end in
  let ty :=
    match entry with
    | Some e => "map<" +:+ entry_type 0%nat e +:+ ", " +:+ entry_type 1%nat e +:+ ">"
    | None => proto_type_name field package
    end in
  indent depth +:+ field_label_text field (bool_decide (is_Some entry)) syntax +:+ ty +:+ " " +:+
  default "unknown" (f_name field) +:+ " = " +:+ pretty (f_number field) +:+ ";" +:+ newline.

Definition write_enum (enumeration : EnumDescriptorProto) (depth : nat) : string :=
  indent depth +:+ "enum " +:+ default "Unknown" (e_name_opt enumeration) +:+ " {" +:+ newline +:+
  str_concat ((λ v : option Z * option string,
    indent depth +:+ "  " +:+ default "UNKNOWN" v.2 +:+ " = " +:+ pretty (default 0 v.1) +:+ ";" +:+ newline)
    <$> e_value enumeration) +:+
  indent depth +:+ "}" +:+ newline.

(** The arithmetic is on [i32]. *)
Definition write_range (range : ReservedRange) (depth : nat) : string :=
  let start := default 0 (rr_start range) in
  let last := i32_wrap (default (i32_wrap (start + 1)) (rr_end range) - 1) in
  indent depth +:+ "reserved " +:+
  (if start =? last then pretty start else pretty start +:+ " to " +:+ pretty last) +:+ ";" +:+ newline.

Definition write_reserved (message : DescriptorProto) (depth : nat) : string :=
  str_concat ((λ range, write_range range depth) <$> m_reserved_range message) +:+
  (match m_reserved_name message with
   | [] => ""
   | names => indent depth +:+ "reserved " +:+ str_join ", " (in_quotes <$> names) +:+ ";" +:+ newline
   end).

(** One declared oneof: the synthetic one of a [proto3 optional] field is printed
    as the field alone. *)
Definition write_oneof (message : DescriptorProto) (full_name : string) (depth : nat) (package syntax : string)
    (index : nat) (oneof : option string) : string :=
  let fields := List.filter (λ f, bool_decide (f_oneof_index f = Some (Z.of_nat index))) (m_field message) in
  let block :=
    indent (S depth) +:+ "oneof " +:+ default "unknown" oneof +:+ " {" +:+ newline +:+
    str_concat ((λ f, write_field f message full_name (S (S depth)) package syntax) <$> fields) +:+
    indent (S depth) +:+ "}" +:+ newline in
  match fields with
  | [f] => if is_optional f then write_field f message full_name (S depth) package syntax else block
  | _ => block
  end.

Fixpoint write_message (message : DescriptorProto) (depth : nat) (package parent_name syntax : string) : string :=
  let name := default "Unknown" (m_name_opt message) in
  let full_name := if String.eqb parent_name "" then name else parent_name +:+ "." +:+ name in
  indent depth +:+ "message " +:+ name +:+ " {" +:+ newline +:+
  write_reserved message (S depth) +:+
  str_concat ((λ e, write_enum e (S depth)) <$> m_enum_type message) +:+
  str_concat ((λ f, write_field f message full_name (S depth) package syntax) <$>
    List.filter (λ f, negb (bool_decide (is_Some (f_oneof_index f)))) (m_field message)) +:+
  str_concat (imap (write_oneof message full_name depth package syntax) (m_oneof_decl message)) +:+
  str_concat (map (λ m : DescriptorProto, if is_map_entry m then "" else write_message m (S depth) package full_name syntax)
    (m_nested_type message)) +:+
  indent depth +:+ "}" +:+ newline.

Definition write_method (package : string) (m : MethodDescriptorProto) : string :=
  let stream (o : option bool) := if default false o then "stream " else "" in
  let ref (o : option string) := proto_ref_name (default "Unknown" o) package in
  "  rpc " +:+ default "Unknown" (md_name m) +:+ " (" +:+ stream (md_client_streaming m) +:+ ref (md_input_type m) +:+
  ") returns (" +:+ stream (md_server_streaming m) +:+ ref (md_output_type m) +:+ ");" +:+ newline.

Definition write_service (package : string) (service : ServiceDescriptorProto) : string :=
  "service " +:+ default "Unknown" (s_name service) +:+ " {" +:+ newline +:+
  str_concat (write_method package <$> s_method service) +:+ "}" +:+ newline.

Definition normalize (file : FileDescriptorProto) : string :=
  let syntax := default "proto3" (file_syntax file) in
  let package := default "" (file_package file) in
  "syntax = " +:+ in_quotes syntax +:+ ";" +:+ newline +:+
  (if String.eqb package "" then "" else "package " +:+ package +:+ ";" +:+ newline) +:+
  str_concat ((λ dep, newline +:+ "import " +:+ in_quotes dep +:+ ";" +:+ newline) <$> file_dependency file) +:+
  str_concat ((λ e, newline +:+ write_enum e 0) <$> file_enum_type file) +:+
  str_concat ((λ m, newline +:+ write_message m 0 package package syntax) <$> file_message_type file) +:+
  str_concat ((λ s, newline +:+ write_service package s) <$> file_service file).

(** A file with one field, as protoc describes proto2 sources: its syntax is not set. *)
Definition one_field (label : Label) (syntax : option string) : FileDescriptorProto :=
  mkFile (Some "a.proto") None []
    [mkMessage (Some "A") [mkField (Some "x") (Some 1) (Some label) (Some TInt32) None None None] [] [] [] None [] []]
    [] [] syntax.

(** The text of such a file is that of a proto3 file, and a required field loses its label. *)
Example required_label_lost : normalize (one_field LRequired None) = normalize (one_field LOptional (Some "proto3")).
Proof. reflexivity. Qed.
