(* ===== verification/ProtoDiff.v ===== *)
(** * The structural diff of Protobuf files (format/protobuf/diff.rs, compat.rs, mod.rs)

    The differences between two files, and which of them are backward compatible. A
    [BTreeMap] collected from a list keeps the last binding of a key and is walked
    in key order. The recursion into nested messages is structural in the
    original: a message is paired with its comparison before the messages are
    sorted by name. protox's parser and prost-reflect's linker are parameters. *)

From stdpp Require Import base gmap strings list pretty sorting.
From Stdlib Require Import Ascii ZArith Lia.
From S2P Require Import Prelude Text Types Descriptor ProtoText.

#[local] Open Scope Z_scope.

(** ** Differences *)

Inductive Kind :=
  | FieldAdded
  | FieldRemoved
  | FieldScalarKindChanged (compatible_group : bool)
  | FieldKindChanged
  | FieldNamedTypeChanged
  | FieldNumericLabelChanged
  | FieldStringOrBytesLabelChanged
  | RequiredFieldAdded
  | RequiredFieldRemoved
  | MessageRemoved
  | MessageAdded
  | OneofFieldMovedIn
  | OneofFieldMovedOut
  | OneofFieldAdded
  | OneofFieldRemoved
  | OneofAdded
  | OneofRemoved
  | ReservedNumberAdded
  | ReservedNameAdded
  | EnumConstAdded
  | EnumConstRemoved
  | EnumAdded
  | EnumRemoved
  | PackageChanged.

Record Difference := mkDifference { df_kind : Kind; df_path : string }.

Definition d (kind : Kind) (path : string) : list Difference := [mkDifference kind path].

(** [compat::is_backward_compatible]. *)
Definition is_backward_compatible (kind : Kind) : bool :=
  match kind with
  | FieldAdded | FieldRemoved | OneofFieldAdded | MessageAdded | OneofFieldMovedOut
  | OneofAdded | OneofRemoved | ReservedNumberAdded | ReservedNameAdded
  | EnumConstAdded | EnumConstRemoved | EnumAdded | EnumRemoved
  | PackageChanged | FieldStringOrBytesLabelChanged => true
  | FieldScalarKindChanged compatible_group => compatible_group
  | FieldKindChanged | FieldNamedTypeChanged | FieldNumericLabelChanged
  | RequiredFieldAdded | RequiredFieldRemoved | OneofFieldRemoved | OneofFieldMovedIn
  | MessageRemoved => false
  end.

(** The derived [Debug]. *)
Definition kind_debug (kind : Kind) : string :=
  match kind with
  | FieldAdded => "FieldAdded"
  | FieldRemoved => "FieldRemoved"
  | FieldScalarKindChanged b =>
      "FieldScalarKindChanged { compatible_group: " +:+ (if b then "true" else "false") +:+ " }"
  | FieldKindChanged => "FieldKindChanged"
  | FieldNamedTypeChanged => "FieldNamedTypeChanged"
  | FieldNumericLabelChanged => "FieldNumericLabelChanged"
  | FieldStringOrBytesLabelChanged => "FieldStringOrBytesLabelChanged"
  | RequiredFieldAdded => "RequiredFieldAdded"
  | RequiredFieldRemoved => "RequiredFieldRemoved"
  | MessageRemoved => "MessageRemoved"
  | MessageAdded => "MessageAdded"
  | OneofFieldMovedIn => "OneofFieldMovedIn"
  | OneofFieldMovedOut => "OneofFieldMovedOut"
  | OneofFieldAdded => "OneofFieldAdded"
  | OneofFieldRemoved => "OneofFieldRemoved"
  | OneofAdded => "OneofAdded"
  | OneofRemoved => "OneofRemoved"
  | ReservedNumberAdded => "ReservedNumberAdded"
  | ReservedNameAdded => "ReservedNameAdded"
  | EnumConstAdded => "EnumConstAdded"
  | EnumConstRemoved => "EnumConstRemoved"
  | EnumAdded => "EnumAdded"
  | EnumRemoved => "EnumRemoved"
  | PackageChanged => "PackageChanged"
  end.

Definition messages (diffs : list Difference) : list string :=
  (λ x, kind_debug (df_kind x) +:+ " at " +:+ df_path x) <$> diffs.

(** ** Kinds of fields *)

Inductive FieldKind := Scalar (t : FieldType) | KEnum | KMessage.

#[global] Instance FieldKind_eq_dec : EqDecision FieldKind.
Proof. solve_decision. Defined.

Record Resolver := mkResolver {
  orig_enums : gset string;
  upd_enums : gset string;
  orig_proto2 : bool;
  upd_proto2 : bool;
}.

(** [tn.rsplit('.').next()]. *)
Definition leaf_of (type_name : string) : string :=
  match rsplit_once "."%char type_name with Some (_, leaf) => leaf | None => type_name end.

Definition kind (enum_names : gset string) (f : FieldDescriptorProto) : FieldKind :=
  match f_type_name f with
  | Some tn => if bool_decide (leaf_of tn ∈ enum_names) then KEnum else KMessage
  | None => Scalar (f_type f)
  end.

Fixpoint collect_enum_names_in_message (m : DescriptorProto) : gset string :=
  list_to_set (e_name <$> m_enum_type m) ∪ ⋃ (map collect_enum_names_in_message (m_nested_type m)).

Definition collect_enum_names (file : FileDescriptorProto) : gset string :=
  list_to_set (e_name <$> file_enum_type file) ∪
  ⋃ (map collect_enum_names_in_message (file_message_type file)).

Definition kind_group (k : FieldKind) : option Z :=
  match k with
  | KEnum => Some 1
  | KMessage => None
  | Scalar t =>
      match t with
      | TInt32 | TInt64 | TUint32 | TUint64 | TBool => Some 1
      | TSint32 | TSint64 => Some 2
      | TString | TBytes => Some 3
      | TFixed32 | TSfixed32 => Some 4
      | TFixed64 | TSfixed64 => Some 5
      | TFloat => Some 6
      | TDouble => Some 7
      | TGroup | TMessage | TEnum => None
      end
  end.

Definition join (prefix name : string) : string :=
  if String.eqb prefix "" then name else prefix +:+ "." +:+ name.

(** ** Maps and sets in key order *)

Definition map_of {K A} `{Countable K} (l : list (K * A)) : gmap K A := list_to_map (reverse l).

Definition number_leb {A} (p q : Z * A) : bool := p.1 <=? q.1.
Definition number_iter {A} (m : gmap Z A) : list (Z * A) := sort_by number_leb (map_to_list m).

Definition sorted_strings (s : gset string) : list string := sort_by String.leb (elements s).
Definition sorted_numbers (s : gset Z) : list Z := sort_by Z.leb (elements s).

Definition has {K A} `{Countable K} (m : gmap K A) (k : K) : bool :=
  match m !! k with Some _ => true | None => false end.

(** ** The comparisons *)

Definition real_oneof (f : FieldDescriptorProto) : bool :=
  match f_oneof_index f with Some _ => negb (bool_decide (f_proto3_optional f = Some true)) | None => false end.

Definition explicit_label (f : FieldDescriptorProto) (proto2 : bool) : bool :=
  proto2 || bool_decide (f_proto3_optional f = Some true) || bool_decide (f_label f = LRepeated).

Definition compare_field_types (path : string) (ok uk : FieldKind) (o_type_name u_type_name : option string)
    : list Difference :=
  if bool_decide (ok = uk) then
    match ok with
    | KMessage | KEnum => if bool_decide (o_type_name = u_type_name) then [] else d FieldNamedTypeChanged path
    | Scalar _ => []
    end
  else
    match kind_group ok, kind_group uk with
    | Some go, Some gu => d (FieldScalarKindChanged (go =? gu)) path
    | _, _ => d FieldKindChanged path
    end.

Definition oneof_has_surviving_plain_member (orig upd : DescriptorProto) (field : FieldDescriptorProto) : bool :=
  match f_oneof_index field with
  | None => false
  | Some index =>
      existsb (λ member,
        bool_decide (f_oneof_index member = Some index) &&
        existsb (λ candidate,
          bool_decide (f_number_opt candidate = f_number_opt member) && negb (real_oneof candidate))
          (m_field upd)) (m_field orig)
  end.

Definition moved_existing_member_count (orig upd : DescriptorProto) (field : FieldDescriptorProto) : nat :=
  match f_oneof_index field with
  | None => 0%nat
  | Some idx =>
      length (List.filter (λ f,
          existsb (λ old, bool_decide (f_number_opt old = f_number_opt f) && negb (real_oneof old)) (m_field orig))
        (List.filter (λ f,
          bool_decide (f_oneof_index f = Some idx) && negb (bool_decide (f_proto3_optional f = Some true)))
          (m_field upd)))
  end.

Definition is_string_kind (k : FieldKind) : bool :=
  match k with Scalar TString | Scalar TBytes => true | _ => false end.

Definition compare_field (path : string) (old new : FieldDescriptorProto) (orig_msg upd_msg : DescriptorProto)
    (r : Resolver) : list Difference :=
  let orig_kind := kind (orig_enums r) old in
  let upd_kind := kind (upd_enums r) new in
  (if negb (real_oneof old) && real_oneof new then
     if (2 <=? moved_existing_member_count orig_msg upd_msg new)%nat then d OneofFieldMovedIn path else []
   else if real_oneof old && negb (real_oneof new) then d OneofFieldMovedOut path
   else []) ++
  (if negb (bool_decide (f_label old = f_label new)) && explicit_label old (orig_proto2 r)
      && explicit_label new (upd_proto2 r) && bool_decide (orig_kind = upd_kind) then
     d (if is_string_kind orig_kind then FieldStringOrBytesLabelChanged else FieldNumericLabelChanged) path
   else []) ++
  compare_field_types path orig_kind upd_kind (f_type_name old) (f_type_name new).

Definition compare_oneofs (prefix : string) (orig upd : list string) : list Difference :=
  let orig_names : gset string := list_to_set orig in
  let upd_names : gset string := list_to_set upd in
  flat_map (λ name, d OneofRemoved (join prefix name)) (sorted_strings (orig_names ∖ upd_names)) ++
  flat_map (λ name, d OneofAdded (join prefix name)) (sorted_strings (upd_names ∖ orig_names)).

Definition find_map_entry (containing : DescriptorProto) (field : FieldDescriptorProto) : option DescriptorProto :=
  if bool_decide (f_type field = TMessage) then
    type_name ← f_type_name field;
    List.find (λ nt, bool_decide (m_name_opt nt = Some (leaf_of type_name))
                     && bool_decide (m_map_entry nt = Some true)) (m_nested_type containing)
  else None.

Definition fields_by_number (m : DescriptorProto) : gmap Z FieldDescriptorProto :=
  map_of ((λ f, (f_number f, f)) <$> m_field m).

Definition compare_map_entries (path : string) (orig_entry upd_entry : DescriptorProto) (r : Resolver)
    : list Difference :=
  flat_map (λ num,
    match fields_by_number orig_entry !! num, fields_by_number upd_entry !! num with
    | Some old, Some new =>
        compare_field_types (path +:+ "." +:+ (if num =? 1 then "key" else "value"))
          (kind (orig_enums r) old) (kind (upd_enums r) new) (f_type_name old) (f_type_name new)
    | _, _ => []
    end) [1; 2].

Definition range_numbers (ranges : list ReservedRange) : gset Z :=
  ⋃ (map (λ rg, let start := default 0 (rr_start rg) in
                list_to_set (seqZ start (default 0 (rr_end rg) - start))) ranges).

Definition compare_reserved (path : string) (orig upd : list ReservedRange) : list Difference :=
  flat_map (λ num, d ReservedNumberAdded (path +:+ ".reserved#" +:+ pretty num))
    (sorted_numbers (range_numbers upd ∖ range_numbers orig)).

Definition compare_reserved_names (path : string) (orig upd : list string) : list Difference :=
  flat_map (λ name, d ReservedNameAdded (path +:+ ".reserved_name#" +:+ name))
    (sorted_strings (list_to_set upd ∖ list_to_set orig)).

Definition enum_values (e : EnumDescriptorProto) : gmap Z string :=
  map_of ((λ v, (default 0 v.1, default "" v.2)) <$> e_value e).

Definition compare_enum_values (path : string) (orig upd : EnumDescriptorProto) : list Difference :=
  let orig_vals := enum_values orig in
  let upd_vals := enum_values upd in
  flat_map (λ p, if has upd_vals p.1 then [] else d EnumConstRemoved (path +:+ ".#" +:+ pretty p.1))
    (number_iter orig_vals) ++
  flat_map (λ p, if has orig_vals p.1 then [] else d EnumConstAdded (path +:+ ".#" +:+ pretty p.1))
    (number_iter upd_vals).

Definition compare_enums (prefix : string) (orig upd : list EnumDescriptorProto) : list Difference :=
  let orig_by := map_of ((λ e, (e_name e, e)) <$> orig) in
  let upd_by := map_of ((λ e, (e_name e, e)) <$> upd) in
  flat_map (λ p,
    match upd_by !! p.1 with
    | None => d EnumRemoved (join prefix p.1)
    | Some ue => compare_enum_values (join prefix p.1) p.2 ue
    end) (btree_iter orig_by) ++
  flat_map (λ p, if has orig_by p.1 then [] else d EnumAdded (join prefix p.1)) (btree_iter upd_by).

(** The fields of two messages. *)
Definition compare_fields (path : string) (orig upd : DescriptorProto) (r : Resolver) : list Difference :=
  let orig_f := fields_by_number orig in
  let upd_f := fields_by_number upd in
  flat_map (λ p : Z * FieldDescriptorProto,
    let old := p.2 in
    let fpath := path +:+ ".#" +:+ pretty p.1 in
    match upd_f !! p.1 with
    | None =>
        d (if real_oneof old && negb (oneof_has_surviving_plain_member orig upd old) then OneofFieldRemoved
           else if bool_decide (f_label old = LRequired) then RequiredFieldRemoved
           else FieldRemoved) fpath
    | Some new =>
        match find_map_entry orig old, find_map_entry upd new with
        | Some oe, Some ue => compare_map_entries fpath oe ue r
        | _, _ => compare_field fpath old new orig upd r
        end
    end) (number_iter orig_f) ++
  flat_map (λ p : Z * FieldDescriptorProto,
    if has orig_f p.1 then []
    else d (if real_oneof p.2 then OneofFieldAdded
            else if bool_decide (f_label p.2 = LRequired) then RequiredFieldAdded
            else FieldAdded) (path +:+ ".#" +:+ pretty p.1)) (number_iter upd_f).

Definition real_oneof_names (m : DescriptorProto) : list string :=
  List.filter (λ name, negb (starts_with "_" name)) (default "" <$> m_oneof_decl m).

(** A message of the original with the comparison of that message. *)
Definition Compared : Type := string → DescriptorProto → list Difference.

(** [compare_messages]; the original's messages come with their comparison. *)
Definition compare_messages (prefix : string) (orig : list (DescriptorProto * Compared))
    (upd : list DescriptorProto) : list Difference :=
  let orig_by := map_of ((λ m, (m_name m.1, m.2)) <$> orig) in
  let upd_by := map_of ((λ m, (m_name m, m)) <$> upd) in
  flat_map (λ p : string * Compared,
    match upd_by !! p.1 with
    | None => d MessageRemoved (join prefix p.1)
    | Some um => p.2 (join prefix p.1) um
    end) (btree_iter orig_by) ++
  flat_map (λ p, if has orig_by p.1 then [] else d MessageAdded (join prefix p.1)) (btree_iter upd_by).

Fixpoint compare_message (r : Resolver) (orig : DescriptorProto) : Compared := λ path upd,
  compare_fields path orig upd r ++
  compare_oneofs path (real_oneof_names orig) (real_oneof_names upd) ++
  compare_reserved path (m_reserved_range orig) (m_reserved_range upd) ++
  compare_reserved_names path (m_reserved_name orig) (m_reserved_name upd) ++
  compare_messages path
    (List.filter (λ m, negb (is_map_entry m.1)) (map (λ m, (m, compare_message r m)) (m_nested_type orig)))
    (List.filter (λ m, negb (is_map_entry m)) (m_nested_type upd)) ++
  compare_enums path (m_enum_type orig) (m_enum_type upd).

Definition resolver (original update : FileDescriptorProto) : Resolver := {|
  orig_enums := collect_enum_names original;
  upd_enums := collect_enum_names update;
  orig_proto2 := negb (bool_decide (file_syntax original = Some "proto3"));
  upd_proto2 := negb (bool_decide (file_syntax update = Some "proto3"));
|}.

Definition compare (original update : FileDescriptorProto) : list Difference :=
  let r := resolver original update in
  (if bool_decide (file_package original = file_package update) then [] else d PackageChanged "package") ++
  compare_messages "" ((λ m, (m, compare_message r m)) <$> file_message_type original)
    (file_message_type update) ++
  compare_enums "" (file_enum_type original) (file_enum_type update).

(** ** The format (mod.rs) *)

(** protox_parse, prost-reflect's linking and the encoding of a descriptor. *)
Class ProtoLib := {
  protox_parse : string → string → result string FileDescriptorProto;
  link_files : list FileDescriptorProto → result string unit;
  encode_hex : FileDescriptorProto → string;
}.

Record ProtobufSchema := mkProtobufSchema { ps_descriptor : FileDescriptorProto; ps_normalised : string }.

Section format.
Context `{ProtoLib}.

Definition is_protobuf (r : ResolvedReference) : bool := bool_decide (res_ty r = Protobuf).

(** The loop over the references to link. *)
Fixpoint parse_references (refs : list ResolvedReference) : result SrError (list FileDescriptorProto) :=
  match refs with
  | [] => Ok []
  | r :: refs' =>
      match protox_parse (res_name r) (res_schema r) with
      | Err e => Err (InvalidSchema ("Protobuf reference " +:+ res_name r +:+ ": " +:+ e))
      | Ok dep => rest ← parse_references refs'; Ok (dep :: rest)
      end
  end.

Definition parse (schema : string) (refs : list ResolvedReference) : result SrError ProtobufSchema :=
  match protox_parse "schema.proto" schema with
  | Err e => Err (InvalidSchema ("Protobuf: " +:+ e))
  | Ok descriptor =>
      _ ← (match file_dependency descriptor, refs with
           | [], [] => Ok ()
           | _, _ =>
               files ← parse_references (List.filter is_protobuf refs);
               match link_files (files ++ [descriptor]) with
               | Err e => Err (InvalidSchema ("Protobuf link: " +:+ e))
               | Ok _ => Ok ()
               end
           end);
      Ok (mkProtobufSchema descriptor (normalize descriptor))
  end.

(** The identity of a file does not depend on its name. *)
Definition canonical_form (s : ProtobufSchema) : string :=
  encode_hex (let f := ps_descriptor s in
              mkFile None (file_package f) (file_dependency f) (file_message_type f)
                (file_enum_type f) (file_service f) (file_syntax f)).

(** One reference of the writer against the reader's of the same name. *)
Definition compare_reference (reader_refs writer_refs : list ResolvedReference)
    (writer_ref : ResolvedReference) : result (list string) (list Difference) :=
  match List.find (λ r, is_protobuf r && String.eqb (res_name r) (res_name writer_ref)) reader_refs with
  | None => Ok []
  | Some reader_ref =>
      if String.eqb (res_schema writer_ref) (res_schema reader_ref) then Ok []
      else
        let others name := List.filter (λ r : ResolvedReference, negb (String.eqb (res_name r) name)) in
        match parse (res_schema writer_ref) (others (res_name writer_ref) writer_refs) with
        | Err e => Err ["writer reference: " +:+ error_message e]
        | Ok w =>
            match parse (res_schema reader_ref) (others (res_name reader_ref) reader_refs) with
            | Err e => Err ["reader reference: " +:+ error_message e]
            | Ok r => Ok (compare (ps_descriptor w) (ps_descriptor r))
            end
        end
  end.

Fixpoint compare_references (reader_refs writer_refs todo : list ResolvedReference)
    : result (list string) (list Difference) :=
  match todo with
  | [] => Ok []
  | x :: todo' =>
      a ← compare_reference reader_refs writer_refs x;
      b ← compare_references reader_refs writer_refs todo';
      Ok (a ++ b)
  end.

Definition check (reader writer : string)
    (reader_refs writer_refs : list ResolvedReference) : result (list string) unit :=
  match parse reader reader_refs with
  | Err e => Err ["reader: " +:+ error_message e]
  | Ok reader_d =>
      match parse writer writer_refs with
      | Err e => Err ["writer: " +:+ error_message e]
      | Ok writer_d =>
          more ← compare_references reader_refs writer_refs (List.filter is_protobuf writer_refs);
          let diffs := compare (ps_descriptor writer_d) (ps_descriptor reader_d) ++ more in
          match List.filter (λ x, negb (is_backward_compatible (df_kind x))) diffs with
          | [] => Ok ()
          | incompatible => Err (messages incompatible)
          end
      end
  end.
End format.
