(* ===== verification/ProtoFacts.v ===== *)
(** * Correctness of the Protobuf check (format/protobuf)

    What the check promises a reader: the messages of the writer are there under
    the same paths, a field number both declare carries values the reader decodes
    as the writer meant them (by the encoding rules of Protobuf, stated here on the
    wire), and no required field is lost or new; and a schema is compatible with
    itself. *)

From stdpp Require Import base gmap strings list pretty sorting.
From Stdlib Require Import Ascii ZArith Lia.
From S2P Require Import Prelude Text Types Descriptor ProtoText ProtoDiff.

#[local] Open Scope Z_scope.

(** ** The wire encoding of scalar values *)

(** A field's payload: the wire type and its content. *)
Inductive payload := Varint (n : Z) | I64 (n : Z) | I32 (n : Z) | Len (bytes : string).

(** The value of a scalar field. *)
Inductive value := VInt (z : Z) | VFloat (bits : Z) | VDouble (bits : Z) | VText (bytes : string).

Definition signed (w z : Z) : Z := (z + 2 ^ (w - 1)) mod 2 ^ w - 2 ^ (w - 1).
Definition zigzag (z : Z) : Z := if z <? 0 then - 2 * z - 1 else 2 * z.
Definition unzigzag (n : Z) : Z := if Z.even n then n / 2 else - ((n + 1) / 2).

(** The integers a kind can hold; an enum is an [int32]. *)
Definition int_range (k : FieldKind) : option (Z * Z) :=
  match k with
  | Scalar (TInt32 | TSint32 | TSfixed32) | KEnum => Some (- 2 ^ 31, 2 ^ 31)
  | Scalar (TInt64 | TSint64 | TSfixed64) => Some (- 2 ^ 63, 2 ^ 63)
  | Scalar (TUint32 | TFixed32) => Some (0, 2 ^ 32)
  | Scalar (TUint64 | TFixed64) => Some (0, 2 ^ 64)
  | Scalar TBool => Some (0, 2)
  | _ => None
  end.

Definition holds (k : FieldKind) (v : value) : bool :=
  match v with
  | VInt z => match int_range k with Some (lo, hi) => (lo <=? z) && (z <? hi) | None => false end
  | VFloat b => bool_decide (k = Scalar TFloat) && (0 <=? b) && (b <? 2 ^ 32)
  | VDouble b => bool_decide (k = Scalar TDouble) && (0 <=? b) && (b <? 2 ^ 64)
  | VText _ => bool_decide (k = Scalar TString ∨ k = Scalar TBytes)
  end.

(** What a writer of kind [k] puts on the wire. *)
Definition encode (k : FieldKind) (v : value) : option payload :=
  match k, v with
  | Scalar (TInt32 | TInt64 | TUint32 | TUint64 | TBool), VInt z | KEnum, VInt z => Some (Varint (z mod 2 ^ 64))
  | Scalar (TSint32 | TSint64), VInt z => Some (Varint (zigzag z))
  | Scalar (TFixed32 | TSfixed32), VInt z => Some (I32 (z mod 2 ^ 32))
  | Scalar (TFixed64 | TSfixed64), VInt z => Some (I64 (z mod 2 ^ 64))
  | Scalar TFloat, VFloat b => Some (I32 b)
  | Scalar TDouble, VDouble b => Some (I64 b)
  | Scalar (TString | TBytes), VText s => Some (Len s)
  | _, _ => None
  end.

(** What a reader of kind [k] takes from the wire. *)
Definition decode (k : FieldKind) (p : payload) : option value :=
  match k, p with
  | Scalar TInt32, Varint n | KEnum, Varint n => Some (VInt (signed 32 n))
  | Scalar TInt64, Varint n => Some (VInt (signed 64 n))
  | Scalar TUint32, Varint n => Some (VInt (n mod 2 ^ 32))
  | Scalar TUint64, Varint n => Some (VInt (n mod 2 ^ 64))
  | Scalar TBool, Varint n => Some (VInt (if n =? 0 then 0 else 1))
  | Scalar TSint32, Varint n => Some (VInt (unzigzag (n mod 2 ^ 32)))
  | Scalar TSint64, Varint n => Some (VInt (unzigzag n))
  | Scalar TFixed32, I32 n | Scalar TFixed64, I64 n => Some (VInt n)
  | Scalar TSfixed32, I32 n => Some (VInt (signed 32 n))
  | Scalar TSfixed64, I64 n => Some (VInt (signed 64 n))
  | Scalar TFloat, I32 n => Some (VFloat n)
  | Scalar TDouble, I64 n => Some (VDouble n)
  | Scalar (TString | TBytes), Len s => Some (VText s)
  | _, _ => None
  end.

(** A reader of kind [uk] gets every value both kinds hold as a writer of kind
    [ok] wrote it. *)
Definition reads (ok uk : FieldKind) : Prop :=
  ∀ v, holds ok v = true → holds uk v = true → encode ok v ≫= decode uk = Some v.

(** *** The occurrences of a field

    A repeated field of numbers may be written packed, the values of several
    occurrences in one length-delimited chunk. A reader whose field is repeated
    accepts both forms; a reader whose field is singular skips a packed chunk,
    whose wire type is not its own, and takes the last occurrence. *)

Inductive chunk := One (p : payload) | Packed (ps : list payload).

Definition packable (k : FieldKind) : bool :=
  match k with
  | Scalar (TString | TBytes | TGroup | TMessage | TEnum) | KMessage => false
  | Scalar _ | KEnum => true
  end.

Definition repeated (l : Label) : bool := match l with LRepeated => true | _ => false end.

Definition encode_field (l : Label) (packed : bool) (k : FieldKind) (vs : list value) : option (list chunk) :=
  ps ← mapM (encode k) vs;
  Some (if repeated l && packed && packable k then [Packed ps] else One <$> ps).

Definition decode_field (l : Label) (k : FieldKind) (cs : list chunk) : list value :=
  let vs := flat_map (λ c, match c with
                           | One p => option_list (decode k p)
                           | Packed ps => if repeated l && packable k then omap (decode k) ps else []
                           end) cs in
  if repeated l then vs else option_list (last vs).

(** Whatever a writer puts into a field (any number of values in a repeated
    one, at most one else, packed or not), the reader gets all of it in a repeated
    field and the last value in a singular one. *)
Definition field_reads (lo : Label) (ok : FieldKind) (lu : Label) (uk : FieldKind) : Prop :=
  ∀ packed vs, Forall (λ v, holds ok v = true ∧ holds uk v = true) vs →
    (repeated lo = false → (length vs ≤ 1)%nat) →
    ∃ cs, encode_field lo packed ok vs = Some cs ∧
      decode_field lu uk cs = if repeated lu then vs else option_list (last vs).

Lemma encoded_values ok uk vs :
  reads ok uk → Forall (λ v, holds ok v = true ∧ holds uk v = true) vs →
  ∃ ps, mapM (encode ok) vs = Some ps ∧ omap (decode uk) ps = vs.
Proof.
  intros Hr. induction 1 as [|v vs [Ho Hu] _ (ps & Hps & Hd)]; [by exists []|].
  specialize (Hr v Ho Hu). apply bind_Some in Hr as (p & Hp & Hv).
  exists (p :: ps). cbn. rewrite Hp, Hps. cbn. by rewrite Hv, Hd.
Qed.

Lemma flat_map_one k (f : list payload → list value) ps : flat_map (λ c, match c with
    | One p => option_list (decode k p)
    | Packed ps => f ps
    end) (One <$> ps) = omap (decode k) ps.
Proof. induction ps as [|p ps IH]; [done|]. cbn. rewrite IH. by destruct (decode k p). Qed.

Lemma field_reads_intro lo ok lu uk :
  reads ok uk → packable ok = packable uk →
  (repeated lo = true → repeated lu = true ∨ packable ok = false) → field_reads lo ok lu uk.
Proof.
  intros Hr Hp Hl packed vs Hvs Hlen. destruct (encoded_values ok uk vs Hr Hvs) as (ps & Hps & Hd).
  unfold encode_field. rewrite Hps. cbn [mbind option_bind]. eexists. split; [done|].
  unfold decode_field.
  destruct (repeated lo) eqn:Elo; cbn [andb]; [|by rewrite flat_map_one, Hd].
  destruct (packed && packable ok) eqn:Epk; [|by rewrite flat_map_one, Hd].
  apply andb_true_iff in Epk as [_ Epk]. destruct (Hl eq_refl) as [Elu|?]; [|congruence].
  cbn [flat_map]. rewrite Elu, <-Hp, Epk. cbn [andb]. by rewrite app_nil_r.
Qed.

Lemma signed_mod w m z :
  0 < w <= m → - 2 ^ (w - 1) <= z < 2 ^ (w - 1) → signed w (z mod 2 ^ m) = z.
Proof.
  intros Hw Hz. unfold signed.
  assert (2 ^ w = 2 * 2 ^ (w - 1)) as E2.
  { replace w with (Z.succ (w - 1)) at 1 by lia. rewrite Z.pow_succ_r; lia. }
  assert (2 ^ m = 2 ^ (m - w) * 2 ^ w) as Em by (rewrite <- Z.pow_add_r by lia; f_equal; lia).
  assert (0 < 2 ^ (w - 1)) by (apply Z.pow_pos_nonneg; lia).
  assert (0 < 2 ^ (m - w)) by (apply Z.pow_pos_nonneg; lia).
  assert ((z mod 2 ^ m + 2 ^ (w - 1)) mod 2 ^ w = (z + 2 ^ (w - 1)) mod 2 ^ w) as ->.
  { rewrite <- (Z.add_mod_idemp_l z), (Znumtheory.Zmod_div_mod (2 ^ w) (2 ^ m) z) by
      (lia || (exists (2 ^ (m - w)); lia)).
    by rewrite Z.add_mod_idemp_l by lia. }
  rewrite Z.mod_small; lia.
Qed.

Lemma mod_mod_le z w m : 0 <= w <= m → 0 <= z < 2 ^ w → (z mod 2 ^ m) mod 2 ^ w = z.
Proof.
  intros Hw Hz. assert (2 ^ w <= 2 ^ m) by (apply Z.pow_le_mono_r; lia).
  rewrite (Z.mod_small z (2 ^ m)) by lia. apply Z.mod_small. lia.
Qed.

Lemma proto_unzigzag_zigzag z : unzigzag (zigzag z) = z.
Proof.
  unfold unzigzag, zigzag. destruct (z <? 0) eqn:E.
  - replace (- 2 * z - 1) with (1 + 2 * (- z - 1)) by lia. rewrite Z.even_add_mul_2. simpl.
    replace (1 + 2 * (- z - 1) + 1) with (- z * 2) by lia. rewrite Z.div_mul; lia.
  - rewrite Z.even_mul. simpl. replace (2 * z) with (z * 2) by lia. apply Z.div_mul. lia.
Qed.

Lemma zigzag_bound w z : 0 < w → - 2 ^ (w - 1) <= z < 2 ^ (w - 1) → 0 <= zigzag z < 2 ^ w.
Proof.
  intros Hw Hz. assert (2 ^ w = 2 * 2 ^ (w - 1)).
  { replace w with (Z.succ (w - 1)) at 1 by lia. rewrite Z.pow_succ_r; lia. }
  unfold zigzag. destruct (z <? 0) eqn:E; lia.
Qed.

(** Decoding undoes encoding, for the integers both kinds hold. *)
Local Ltac decode_int :=
  repeat match goal with H : (_ && _) = true |- _ => apply andb_true_iff in H as [? ?] end;
  rewrite ?Z.leb_le, ?Z.ltb_lt in *; cbn [mbind option_bind decode]; do 2 f_equal;
  first
    [ apply (signed_mod 32); lia
    | apply (signed_mod 64); lia
    | apply mod_mod_le; lia
    | apply Z.mod_small; lia
    | rewrite (Z.mod_small (zigzag _)) by (apply (zigzag_bound 32); lia); apply proto_unzigzag_zigzag
    | apply proto_unzigzag_zigzag
    | match goal with |- (if ?z mod _ =? 0 then _ else _) = _ => assert (z = 0 ∨ z = 1) as [-> | ->] by lia; reflexivity end ].

(** Kinds of one group read each other's values. *)
Lemma group_reads ok uk g : kind_group ok = Some g → kind_group uk = Some g → reads ok uk.
Proof.
  intros Ho Hu v Hov Huv.
  destruct ok as [[]| |]; simplify_eq/=; destruct uk as [[]| |]; simplify_eq/=;
    destruct v as [z|b|b|bs]; cbn in Hov, Huv; try done; decode_int.
Qed.

Lemma same_kind_reads k : reads k k.
Proof.
  destruct (kind_group k) as [g|] eqn:E; [by eapply group_reads|].
  intros v Hv _. destruct k as [[]| |]; simplify_eq/=; destruct v; cbn in Hv; done.
Qed.

(** ** Membership in the comparisons *)

Definition accepted (l : list Difference) : Prop :=
  ∀ x, x ∈ l → is_backward_compatible (df_kind x) = true.

Lemma proto_accepted_app l l' : accepted (l ++ l') ↔ accepted l ∧ accepted l'.
Proof. unfold accepted. setoid_rewrite elem_of_app. naive_solver. Qed.

Lemma proto_accepted_d k path : accepted (d k path) ↔ is_backward_compatible k = true.
Proof.
  unfold accepted, d. setoid_rewrite list_elem_of_singleton. split.
  - intros Ha. by specialize (Ha _ eq_refl).
  - by intros Hk x ->.
Qed.

Lemma proto_accepted_flat_map {A} (f : A → list Difference) l :
  accepted (flat_map f l) ↔ ∀ x, x ∈ l → accepted (f x).
Proof. unfold accepted. setoid_rewrite elem_of_flat_map. naive_solver. Qed.

Lemma elem_of_number_iter {A} (m : gmap Z A) n x : (n, x) ∈ number_iter m ↔ m !! n = Some x.
Proof. unfold number_iter. by rewrite elem_of_sort_by, elem_of_map_to_list. Qed.

Lemma sorted_strings_diff_self X : sorted_strings (X ∖ X) = [].
Proof. unfold sorted_strings. by rewrite difference_diag_L, elements_empty. Qed.

Lemma sorted_numbers_diff_self X : sorted_numbers (X ∖ X) = [].
Proof. unfold sorted_numbers. by rewrite difference_diag_L, elements_empty. Qed.

(** Messages by name: the last of each name. *)
Definition by_name (l : list DescriptorProto) : gmap string DescriptorProto :=
  map_of ((λ m, (m_name m, m)) <$> l).

Lemma map_of_fmap {A B} (name : A → string) (g : A → B) l :
  map_of ((λ x, (name x, g x)) <$> l) = g <$> map_of ((λ x, (name x, x)) <$> l).
Proof.
  unfold map_of. rewrite <- list_to_map_fmap, fmap_reverse, <- list_fmap_compose. done.
Qed.

Lemma map_of_elem {K A} `{Countable K} (l : list (K * A)) k x : map_of l !! k = Some x → (k, x) ∈ l.
Proof. unfold map_of. intros Hx%elem_of_list_to_map_2. by apply elem_of_reverse. Qed.

Lemma filter_pair {A B} (f : A → bool) (g : A → B) l :
  List.filter (λ m : A * B, f m.1) (map (λ m, (m, g m)) l) = (λ m, (m, g m)) <$> List.filter f l.
Proof. induction l as [|x l IH]; simpl; [done|]. destruct (f x); simpl; by rewrite IH. Qed.

Lemma accepted_messages cmp prefix orig upd :
  accepted (compare_messages prefix ((λ m, (m, cmp m)) <$> orig) upd) →
  ∀ name mo, by_name orig !! name = Some mo →
  ∃ mu, by_name upd !! name = Some mu ∧ accepted (cmp mo (join prefix name) mu).
Proof.
  unfold compare_messages. rewrite proto_accepted_app, proto_accepted_flat_map. intros [Ha _] name mo Hmo.
  rewrite <- list_fmap_compose in Ha.
  specialize (Ha (name, cmp mo)). cbn [fst snd] in Ha. rewrite elem_of_btree_iter in Ha.
  unfold compose in Ha. cbn [fst snd] in Ha. rewrite (map_of_fmap m_name cmp) in Ha.
  fold (by_name orig) (by_name upd) in Ha.
  rewrite lookup_fmap, Hmo in Ha. specialize (Ha eq_refl).
  destruct (by_name upd !! name) as [mu|] eqn:Hmu; [by exists mu|]. by apply proto_accepted_d in Ha.
Qed.

Lemma messages_self cmp prefix l :
  (∀ m path, m ∈ l → cmp m path m = []) →
  compare_messages prefix ((λ m, (m, cmp m)) <$> l) l = [].
Proof.
  intros Hl. unfold compare_messages. rewrite <- list_fmap_compose. unfold compose. cbn [fst snd].
  rewrite (map_of_fmap m_name cmp). fold (by_name l). apply both_nil; apply flat_map_nil.
  - intros [name c] Hc%elem_of_btree_iter. rewrite lookup_fmap in Hc. cbn [fst snd].
    destruct (by_name l !! name) as [m|] eqn:E; simplify_eq/=. apply Hl.
    apply map_of_elem in E. apply list_elem_of_fmap in E as (? & ? & ?). by simplify_eq.
  - intros [name m] Hm%elem_of_btree_iter. cbn [fst snd]. unfold has. by rewrite lookup_fmap, Hm.
Qed.

(** ** A file compared with itself *)

Lemma field_types_self path k tn : compare_field_types path k k tn tn = [].
Proof. unfold compare_field_types. rewrite !bool_decide_true by done. by destruct k. Qed.

Definition same_enums (r : Resolver) : Prop := orig_enums r = upd_enums r.

Lemma field_self path f m r : same_enums r → compare_field path f f m m r = [].
Proof.
  intros Hr. unfold compare_field. rewrite Hr, field_types_self, (bool_decide_true (f_label f = _)) by done.
  by destruct (real_oneof f).
Qed.

Lemma map_entries_self path e r : same_enums r → compare_map_entries path e e r = [].
Proof.
  intros Hr. unfold compare_map_entries. apply flat_map_nil. intros num _.
  destruct (_ !! num); [|done]. by rewrite Hr, field_types_self.
Qed.

Lemma fields_self path m r : same_enums r → compare_fields path m m r = [].
Proof.
  intros Hr. unfold compare_fields. apply both_nil; apply flat_map_nil; intros [n f] Hf%elem_of_number_iter;
    cbn [fst snd]; unfold has; rewrite Hf; [|done].
  destruct (find_map_entry m f); auto using field_self, map_entries_self.
Qed.

Lemma enum_values_self path e : compare_enum_values path e e = [].
Proof.
  unfold compare_enum_values. apply both_nil; apply flat_map_nil; intros [n v] Hv%elem_of_number_iter;
    cbn [fst snd]; unfold has; by rewrite Hv.
Qed.

Lemma enums_self prefix l : compare_enums prefix l l = [].
Proof.
  unfold compare_enums. apply both_nil; apply flat_map_nil; intros [n e] He%elem_of_btree_iter;
    cbn [fst snd]; unfold has; rewrite He; [|done]. apply enum_values_self.
Qed.

(** Induction on messages and the messages nested in them. *)
Lemma message_ind (P : DescriptorProto → Prop) :
  (∀ m, (∀ m', m' ∈ m_nested_type m → P m') → P m) → ∀ m, P m.
Proof.
  intros Hstep. fix IH 1. intros m. apply Hstep. destruct m as [? ? nested ? ? ? ? ?]. simpl.
  induction nested as [|m0 nested IHn]; intros m' Hm'; [by destruct (not_elem_of_nil m' Hm')|].
  apply elem_of_cons in Hm' as [E|Hm'].
  - rewrite E. apply IH.
  - by apply IHn.
Qed.

Lemma compare_message_eq r orig path upd :
  compare_message r orig path upd =
  compare_fields path orig upd r ++
  compare_oneofs path (real_oneof_names orig) (real_oneof_names upd) ++
  compare_reserved path (m_reserved_range orig) (m_reserved_range upd) ++
  compare_reserved_names path (m_reserved_name orig) (m_reserved_name upd) ++
  compare_messages path
    ((λ m, (m, compare_message r m)) <$> List.filter (λ m, negb (is_map_entry m)) (m_nested_type orig))
    (List.filter (λ m, negb (is_map_entry m)) (m_nested_type upd)) ++
  compare_enums path (m_enum_type orig) (m_enum_type upd).
Proof.
  rewrite <- (filter_pair (λ m, negb (is_map_entry m)) (compare_message r)). by destruct orig.
Qed.

Lemma message_self r m : same_enums r → ∀ path, compare_message r m path m = [].
Proof.
  intros Hr. induction m as [m IH] using message_ind. intros path. rewrite compare_message_eq.
  apply both_nil; [by apply fields_self|].
  apply both_nil; [unfold compare_oneofs; by rewrite sorted_strings_diff_self|].
  apply both_nil; [unfold compare_reserved; by rewrite sorted_numbers_diff_self|].
  apply both_nil; [unfold compare_reserved_names; by rewrite sorted_strings_diff_self|].
  apply both_nil; [|apply enums_self].
  apply messages_self. intros m' p' Hm'%list_elem_of_In%filter_In. apply IH, list_elem_of_In, Hm'.
Qed.

Lemma compare_self f : compare f f = [].
Proof.
  unfold compare. rewrite bool_decide_true by done. simpl. apply both_nil; [|apply enums_self].
  apply messages_self. intros m path _. by apply message_self.
Qed.

(** ** What an accepted update keeps *)

(** What the values of a kind are. *)
Inductive carrier := Integers | Floats | Doubles | Texts | Submessages.

Definition carries (k : FieldKind) : option carrier :=
  match k with
  | KMessage => Some Submessages
  | KEnum => Some Integers
  | Scalar TFloat => Some Floats
  | Scalar TDouble => Some Doubles
  | Scalar (TString | TBytes) => Some Texts
  | Scalar (TGroup | TMessage | TEnum) => None
  | Scalar _ => Some Integers
  end.

Lemma group_packable ok uk g : kind_group ok = Some g → kind_group uk = Some g → packable ok = packable uk.
Proof. destruct ok as [[]| |]; intros; simplify_eq/=; destruct uk as [[]| |]; by simplify_eq/=. Qed.

(** The type of a field may change as long as values stay of one sort and read
    back; a named type keeps its name. *)
Definition type_compatible (ok uk : FieldKind) (o_name u_name : option string) : Prop :=
  carries ok = carries uk ∧ reads ok uk ∧ packable ok = packable uk ∧
  (ok = uk → ok = KMessage ∨ ok = KEnum → o_name = u_name).

(** The file says whether the field is optional, required or repeated: always
    in proto2, in proto3 with [optional] or [repeated]. *)
Definition states_label (proto2 : bool) (f : FieldDescriptorProto) : Prop :=
  proto2 = true ∨ f_proto3_optional f = Some true ∨ f_label f = LRepeated.

(** Where both files state the label and the kind is the same, the label is
    kept, except on text; and there, or where a repeated field stays repeated, the
    reader gets the values the writer put into the field. *)
Definition label_compatible (r : Resolver) (fo fu : FieldDescriptorProto) : Prop :=
  let ok := kind (orig_enums r) fo in
  let uk := kind (upd_enums r) fu in
  let stated := states_label (orig_proto2 r) fo ∧ states_label (upd_proto2 r) fu ∧ ok = uk in
  (stated → ok ≠ Scalar TString → ok ≠ Scalar TBytes → f_label fo = f_label fu) ∧
  (stated ∨ (f_label fo = LRepeated → f_label fu = LRepeated) →
   field_reads (f_label fo) ok (f_label fu) uk).

Definition field_compatible (r : Resolver) (mo mu : DescriptorProto) (fo fu : FieldDescriptorProto) : Prop :=
  match find_map_entry mo fo, find_map_entry mu fu with
  | Some oe, Some ue =>
      ∀ n f g, n = 1 ∨ n = 2 → fields_by_number oe !! n = Some f → fields_by_number ue !! n = Some g →
      type_compatible (kind (orig_enums r) f) (kind (upd_enums r) g) (f_type_name f) (f_type_name g)
  | _, _ =>
      type_compatible (kind (orig_enums r) fo) (kind (upd_enums r) fu) (f_type_name fo) (f_type_name fu) ∧
      label_compatible r fo fu ∧
      (real_oneof fo = false → real_oneof fu = true → (moved_existing_member_count mo mu fu ≤ 1)%nat)
  end.

Definition message_compatible (r : Resolver) (mo mu : DescriptorProto) : Prop :=
  (∀ n fo fu, fields_by_number mo !! n = Some fo → fields_by_number mu !! n = Some fu →
     field_compatible r mo mu fo fu) ∧
  (∀ n fo, fields_by_number mo !! n = Some fo → f_label fo = LRequired → is_Some (fields_by_number mu !! n)) ∧
  (∀ n fu, fields_by_number mu !! n = Some fu → f_label fu = LRequired → real_oneof fu = false →
     is_Some (fields_by_number mo !! n)).

(** A message by the names that lead to it; map entries are no messages of their own. *)
Fixpoint find_message (msgs : list DescriptorProto) (path : list string) : option DescriptorProto :=
  match path with
  | [] => None
  | [name] => by_name msgs !! name
  | name :: rest =>
      m ← by_name msgs !! name;
      find_message (List.filter (λ m, negb (is_map_entry m)) (m_nested_type m)) rest
  end.

Definition file_compatible (o u : FileDescriptorProto) : Prop :=
  ∀ path mo, find_message (file_message_type o) path = Some mo →
  ∃ mu, find_message (file_message_type u) path = Some mu ∧
    message_compatible (mkResolver (collect_enum_names o) (collect_enum_names u)
      (negb (bool_decide (file_syntax o = Some "proto3")))
      (negb (bool_decide (file_syntax u = Some "proto3")))) mo mu.

Lemma group_carries ok uk g : kind_group ok = Some g → kind_group uk = Some g → carries ok = carries uk.
Proof. destruct ok as [[]| |]; intros; simplify_eq/=; destruct uk as [[]| |]; by simplify_eq/=. Qed.

Lemma accepted_field_types path ok uk tn un :
  accepted (compare_field_types path ok uk tn un) → type_compatible ok uk tn un.
Proof.
  unfold compare_field_types. case_bool_decide as Ek; [subst uk|].
  - intros Ha. split_and!; [done|apply same_kind_reads|done|]. intros _ Hk.
    assert (accepted (if bool_decide (tn = un) then [] else d FieldNamedTypeChanged path)) as Ha'
      by (by destruct Hk; subst).
    case_bool_decide; [done|]. by apply proto_accepted_d in Ha'.
  - destruct (kind_group ok) as [go|] eqn:Eo; [|by intros Ha%proto_accepted_d].
    destruct (kind_group uk) as [gu|] eqn:Eu; [|by intros Ha%proto_accepted_d].
    intros Ha%proto_accepted_d. simpl in Ha. apply Z.eqb_eq in Ha as ->.
    repeat split; [by eapply group_carries|by eapply group_reads|by eapply group_packable|done].
Qed.

Lemma explicit_label_stated f proto2 : explicit_label f proto2 = true ↔ states_label proto2 f.
Proof.
  unfold explicit_label, states_label. rewrite !orb_true_iff, !bool_decide_eq_true. tauto.
Qed.

Lemma accepted_label path r fo fu :
  let ok := kind (orig_enums r) fo in
  accepted (if negb (bool_decide (f_label fo = f_label fu)) && explicit_label fo (orig_proto2 r)
      && explicit_label fu (upd_proto2 r) && bool_decide (ok = kind (upd_enums r) fu) then
     d (if is_string_kind ok then FieldStringOrBytesLabelChanged else FieldNumericLabelChanged) path
   else []) →
  type_compatible ok (kind (upd_enums r) fu) (f_type_name fo) (f_type_name fu) → label_compatible r fo fu.
Proof.
  cbv zeta. intros Ha (_ & Hr & Hpk & _).
  assert (states_label (orig_proto2 r) fo ∧ states_label (upd_proto2 r) fu ∧
      kind (orig_enums r) fo = kind (upd_enums r) fu →
    kind (orig_enums r) fo ≠ Scalar TString → kind (orig_enums r) fo ≠ Scalar TBytes →
    f_label fo = f_label fu) as Hlabel.
  { intros (Ho%explicit_label_stated & Hu%explicit_label_stated & Hk) Hs Hb.
    destruct (decide (f_label fo = f_label fu)) as [|Hne]; [done|].
    rewrite (bool_decide_false _ Hne), Ho, Hu, (bool_decide_true _ Hk) in Ha. cbn [negb andb] in Ha.
    replace (is_string_kind (kind (orig_enums r) fo)) with false in Ha;
      [by apply proto_accepted_d in Ha|]. by destruct (kind (orig_enums r) fo) as [[]| |]. }
  split; [done|]. intros Hor. apply field_reads_intro; [done..|]. intros Hrep.
  destruct Hor as [Hst|Hkeep].
  - destruct (packable (kind (orig_enums r) fo)) eqn:Hp; [left|by right].
    rewrite <-Hlabel; [done..| |]; intros Heq; by rewrite Heq in Hp.
  - left. destruct (f_label fo); try done. by rewrite Hkeep.
Qed.

Lemma accepted_field path r mo mu fo fu :
  accepted (compare_field path fo fu mo mu r) →
  type_compatible (kind (orig_enums r) fo) (kind (upd_enums r) fu) (f_type_name fo) (f_type_name fu) ∧
  label_compatible r fo fu ∧
  (real_oneof fo = false → real_oneof fu = true → (moved_existing_member_count mo mu fu ≤ 1)%nat).
Proof.
  unfold compare_field. rewrite !proto_accepted_app. intros (Hm & Hl & Ht).
  apply accepted_field_types in Ht. split; [done|]. split; [by eapply accepted_label|].
  intros Eo Eu. rewrite Eo, Eu in Hm. cbn [negb andb] in Hm.
  destruct (2 <=? _)%nat eqn:E; [by apply proto_accepted_d in Hm|]. apply Nat.leb_gt in E. lia.
Qed.

Lemma accepted_map_entries path r oe ue n f g :
  accepted (compare_map_entries path oe ue r) → n = 1 ∨ n = 2 →
  fields_by_number oe !! n = Some f → fields_by_number ue !! n = Some g →
  type_compatible (kind (orig_enums r) f) (kind (upd_enums r) g) (f_type_name f) (f_type_name g).
Proof.
  unfold compare_map_entries. rewrite proto_accepted_flat_map. intros Ha Hn Ef Eg.
  specialize (Ha n). rewrite Ef, Eg in Ha. eapply accepted_field_types, Ha.
  rewrite !elem_of_cons. naive_solver.
Qed.

Lemma accepted_fields path r mo mu : accepted (compare_fields path mo mu r) → message_compatible r mo mu.
Proof.
  unfold compare_fields. rewrite proto_accepted_app, !proto_accepted_flat_map. intros [Ho Hu]. split; [|split].
  - intros n fo fu Efo Efu. specialize (Ho (n, fo)). rewrite elem_of_number_iter in Ho.
    specialize (Ho Efo). cbn [fst snd] in Ho. rewrite Efu in Ho. unfold field_compatible.
    destruct (find_map_entry mo fo), (find_map_entry mu fu); eauto using accepted_field, accepted_map_entries.
  - intros n fo Efo Hreq. specialize (Ho (n, fo)). rewrite elem_of_number_iter in Ho.
    specialize (Ho Efo). cbn [fst snd] in Ho. destruct (_ !! n) as [fu|]; [done|].
    apply proto_accepted_d in Ho. rewrite (bool_decide_true _ Hreq) in Ho. by destruct (real_oneof fo && _).
  - intros n fu Efu Hreq Hone. specialize (Hu (n, fu)). rewrite elem_of_number_iter in Hu.
    specialize (Hu Efu). cbn [fst snd] in Hu. unfold has in Hu. destruct (_ !! n) as [fo|]; [done|].
    apply proto_accepted_d in Hu. by rewrite Hone, (bool_decide_true _ Hreq) in Hu.
Qed.

Lemma accepted_message r path prefix orig upd mo :
  accepted (compare_messages prefix ((λ m, (m, compare_message r m)) <$> orig) upd) →
  find_message orig path = Some mo →
  ∃ mu, find_message upd path = Some mu ∧ message_compatible r mo mu.
Proof.
  revert prefix orig upd. induction path as [|name path IH]; [done|]. intros prefix orig upd Ha Hf.
  pose proof (accepted_messages _ _ _ _ Ha name) as Hm.
  destruct (by_name orig !! name) as [m|] eqn:Em.
  2: { destruct path; simpl in Hf; by rewrite Em in Hf. }
  destruct (Hm _ eq_refl) as (mu & Emu & Hc). rewrite compare_message_eq in Hc.
  rewrite !proto_accepted_app in Hc. destruct Hc as (Hfields & _ & _ & _ & Hnested & _).
  destruct path as [|name' path]; simpl in *.
  - rewrite Em in Hf. simplify_eq. eauto using accepted_fields.
  - rewrite Em in Hf. rewrite Emu. eapply IH; [exact Hnested|exact Hf].
Qed.

Lemma accepted_file o u : accepted (compare o u) → file_compatible o u.
Proof.
  unfold compare. rewrite !proto_accepted_app. intros (_ & Hm & _) path mo Hf. by eapply accepted_message.
Qed.

(** ** The check *)

Section check.
Context `{ProtoLib}.

Lemma compare_references_elem rr wr todo more x :
  compare_references rr wr todo = Ok more → x ∈ todo →
  ∃ l, compare_reference rr wr x = Ok l ∧ ∀ y, y ∈ l → y ∈ more.
Proof.
  revert more. induction todo as [|x' todo IH]; intros more Hm Hx; [by apply not_elem_of_nil in Hx|].
  simpl in Hm. destruct (compare_reference rr wr x') as [a|e] eqn:Ea; [|by simplify_eq/=].
  destruct (compare_references rr wr todo) as [b|e] eqn:Eb; [|by simplify_eq/=]. simplify_eq/=.
  apply elem_of_cons in Hx as [->|Hx].
  - exists a. split; [done|]. intros y Hy. apply elem_of_app. by left.
  - destruct (IH _ eq_refl Hx) as (l & El & Hl). exists l. split; [done|].
    intros y Hy. apply elem_of_app. right. by apply Hl.
Qed.

Lemma proto_check_ok reader writer rr wr r w :
  parse reader rr = Ok r → parse writer wr = Ok w →
  check reader writer rr wr = Ok () ↔
  accepted (compare (ps_descriptor w) (ps_descriptor r)) ∧
  ∃ more, compare_references rr wr (List.filter is_protobuf wr) = Ok more ∧ accepted more.
Proof.
  intros Er Ew. unfold check. rewrite Er, Ew.
  destruct (compare_references _ _ _) as [more|e]; [|split; naive_solver]. cbn [mbind result_bind].
  set (diffs := _ ++ more).
  assert (List.filter (λ x, negb (is_backward_compatible (df_kind x))) diffs = [] ↔ accepted diffs) as Hd.
  { split.
    - intros En x Hx. destruct (is_backward_compatible (df_kind x)) eqn:Ek; [done|].
      assert (In x (List.filter (λ x, negb (is_backward_compatible (df_kind x))) diffs)) as Hin.
      { apply filter_In. split; [by apply list_elem_of_In|]. by rewrite Ek. }
      by rewrite En in Hin.
    - intros Ha. destruct (List.filter _ _) as [|x l] eqn:El; [done|].
      assert (In x (x :: l)) as Hin by (by left). rewrite <- El in Hin. apply filter_In in Hin as [Hin Hk].
      by rewrite Ha in Hk by (by apply list_elem_of_In). }
  unfold diffs in Hd. rewrite proto_accepted_app in Hd. fold diffs in Hd.
  destruct (List.filter _ _) as [|x l].
  - split; [|done]. intros _. destruct (proj1 Hd eq_refl). eauto.
  - split; [done|]. intros (Ha & more' & Em & Ha'). simplify_eq. discriminate (proj2 Hd (conj Ha Ha')).
Qed.

(** A reference of the writer and the reader's of the same name, where their
    texts differ. *)
Definition changed_reference (rr wr : list ResolvedReference) (x y : ResolvedReference) : Prop :=
  x ∈ wr ∧ is_protobuf x = true ∧
  List.find (λ r, is_protobuf r && String.eqb (res_name r) (res_name x)) rr = Some y ∧
  String.eqb (res_schema x) (res_schema y) = false.

(** The references but one, which is what that one is parsed with. *)
Definition other_refs (name : string) (refs : list ResolvedReference) : list ResolvedReference :=
  List.filter (λ r, negb (String.eqb (res_name r) name)) refs.

Lemma accepted_reference rr wr x y l :
  compare_reference rr wr x = Ok l → changed_reference rr wr x y → accepted l →
  ∃ w r, parse (res_schema x) (other_refs (res_name x) wr) = Ok w ∧
    parse (res_schema y) (other_refs (res_name y) rr) = Ok r ∧
    file_compatible (ps_descriptor w) (ps_descriptor r).
Proof.
  unfold compare_reference. intros Hc (_ & _ & Hf & Hs) Ha. rewrite Hf, Hs in Hc.
  destruct (parse (res_schema x) _) as [w|e] eqn:Ew; [|done].
  destruct (parse (res_schema y) _) as [r|e] eqn:Er; [|done]. simplify_eq.
  exists w, r. eauto using accepted_file.
Qed.

(** Every name of a duplicate-free list of references is found where it is. *)
Lemma find_reference refs x :
  NoDup (res_name <$> refs) → x ∈ refs → is_protobuf x = true →
  List.find (λ r, is_protobuf r && String.eqb (res_name r) (res_name x)) refs = Some x.
Proof.
  induction refs as [|y refs IH]; intros Hn Hx Hp; [by apply not_elem_of_nil in Hx|].
  rewrite fmap_cons, NoDup_cons in Hn. destruct Hn as [Hy Hn].
  apply elem_of_cons in Hx as [->|Hx]; simpl.
  - by rewrite Hp, String.eqb_refl.
  - destruct (String.eqb (res_name y) (res_name x)) eqn:E.
    + apply String.eqb_eq in E. destruct Hy. rewrite E. by apply list_elem_of_fmap_2.
    + rewrite andb_false_r. by apply IH.
Qed.

Lemma compare_references_self refs todo :
  NoDup (res_name <$> refs) → (∀ x, x ∈ todo → x ∈ refs ∧ is_protobuf x = true) →
  compare_references refs refs todo = Ok [].
Proof.
  intros Hn. induction todo as [|x todo IH]; intros Hall; [done|]. simpl.
  destruct (Hall x) as [Hx Hp]; [by left|].
  unfold compare_reference. rewrite (find_reference _ _ Hn Hx Hp), String.eqb_refl. simpl.
  rewrite IH; [done|]. intros y Hy. apply Hall. by right.
Qed.
End check.

(** What a reader with the text [reader] can do with the data of [writer]: in the
    schema itself, and in every reference whose text changed, the messages and fields
    of the writer are kept as [file_compatible] says. A group and a message of one
    name are not told apart ([group_is_message]). *)
Definition reads_schema `{ProtoLib} (reader : string) (rr : list ResolvedReference) (writer : string)
    (wr : list ResolvedReference) : Prop :=
  ∃ r w, parse reader rr = Ok r ∧ parse writer wr = Ok w ∧
    file_compatible (ps_descriptor w) (ps_descriptor r) ∧
    ∀ x y, changed_reference rr wr x y →
    ∃ w' r', parse (res_schema x) (other_refs (res_name x) wr) = Ok w' ∧
      parse (res_schema y) (other_refs (res_name y) rr) = Ok r' ∧
      file_compatible (ps_descriptor w') (ps_descriptor r').

Lemma protobuf_check_reads `{ProtoLib} reader writer rr wr :
  check reader writer rr wr = Ok () → reads_schema reader rr writer wr.
Proof.
  intros Hc. pose proof Hc as Hc'. unfold check in Hc'.
  destruct (parse reader rr) as [r|] eqn:Er; [|done].
  destruct (parse writer wr) as [w|] eqn:Ew; [|done]. exists r, w. do 2 (split; [done|]).
  destruct (proj1 (proto_check_ok _ _ _ _ _ _ Er Ew) Hc) as (Ha & more & Em & Hmore).
  split; [by apply accepted_file|]. intros x y Hxy.
  destruct (compare_references_elem _ _ _ _ x Em) as (l & El & Hl).
  { apply list_elem_of_In, filter_In. rewrite <- list_elem_of_In. split; apply Hxy. }
  eapply accepted_reference; [done..|]. intros z Hz. by apply Hmore, Hl.
Qed.

(** A reader the Protobuf check accepts keeps, in the schema itself and in every
    changed reference, every message of the writer under its path; a field number
    both declare holds values of one sort, named types keep their names, every
    scalar value both types hold is decoded from the wire as the writer encoded it,
    and so are the values of a field, packed or not, where the labels are stated or a
    repeated field stays repeated; no required field is removed and none is new. *)
Theorem protobuf_check_wire_safe `{ProtoLib} reader writer rr wr :
  check reader writer rr wr = Ok () → reads_schema reader rr writer wr.
Proof. apply protobuf_check_reads. Qed.

(** A Protobuf schema that parses is compatible with itself, with any
    references of different names. *)
Theorem protobuf_check_self `{ProtoLib} schema refs s :
  parse schema refs = Ok s → NoDup (res_name <$> refs) → check schema schema refs refs = Ok ().
Proof.
  intros Es Hn. apply (proto_check_ok _ _ _ _ _ _ Es Es). rewrite compare_self.
  assert (accepted []) as Hnil by (by intros x ?%not_elem_of_nil). split; [done|]. exists []. split; [|done].
  apply compare_references_self; [done|]. intros x. rewrite list_elem_of_In, filter_In, <- list_elem_of_In. done.
Qed.

(** ** Examples *)

Definition plain_field (n : Z) (t : FieldType) : FieldDescriptorProto :=
  mkField (Some ("f" +:+ pretty n)) (Some n) (Some LOptional) (Some t) None None None.
Definition named_field (n : Z) (t : option FieldType) (name : string) : FieldDescriptorProto :=
  mkField (Some ("f" +:+ pretty n)) (Some n) (Some LOptional) t (Some name) None None.
Definition message (name : string) (fields : list FieldDescriptorProto) (nested : list DescriptorProto) :=
  mkMessage (Some name) fields nested [] [] None [] [].
Definition file (messages : list DescriptorProto) : FileDescriptorProto := mkFile None None [] messages [] [] (Some "proto2").

Definition order_v1 : FileDescriptorProto :=
  file [message "Order" [plain_field 1 TInt32; plain_field 2 TString; named_field 3 None "Line"]
          [message "Line" [plain_field 1 TUint32] []]].
Definition order_v2 : FileDescriptorProto :=
  file [message "Order" [plain_field 1 TInt64; named_field 3 None "Line"; plain_field 4 TBool]
          [message "Line" [plain_field 1 TUint64] []]].

(** A library with these two texts and a linker that accepts. *)
#[local] Instance sample_lib : ProtoLib := {|
  protox_parse _ text :=
    if String.eqb text "v1" then Ok order_v1 else if String.eqb text "v2" then Ok order_v2 else Err "syntax";
  link_files _ := Ok ();
  encode_hex _ := "";
|}.

Definition sample_refs (text : string) : list ResolvedReference := [mkResolvedReference "line.proto" Protobuf text].

(** A field moves from [int32] to [int64] in the message, in a nested message and in
    a reference. *)
Lemma protobuf_check_wire_safe_witness :
  check "v2" "v1" (sample_refs "v2") (sample_refs "v1") = Ok () ∧ file_compatible order_v1 order_v2.
Proof.
  split; [by vm_compute|].
  destruct (protobuf_check_wire_safe "v2" "v1" (sample_refs "v2") (sample_refs "v1")) as (r & w & Hr & Hw & Hf & _);
    [by vm_compute|].
  vm_compute in Hr. injection Hr as <-. vm_compute in Hw. injection Hw as <-. exact Hf.
Defined.

Lemma protobuf_check_self_witness : check "v1" "v1" (sample_refs "v2") (sample_refs "v2") = Ok ().
Proof.
  apply (protobuf_check_self "v1" (sample_refs "v2") (mkProtobufSchema order_v1 (normalize order_v1))); [by vm_compute|].
  apply NoDup_singleton.
Defined.

(** The other direction is accepted too, and a change of encoding is not. *)
Example check_narrowing : check "v1" "v2" [] [] = Ok ().
Proof. by vm_compute. Qed.

Example zigzag_rejected :
  compare_field_types "Order.#1" (Scalar TInt32) (Scalar TSint32) None None =
  [mkDifference (FieldScalarKindChanged false) "Order.#1"].
Proof. reflexivity. Qed.

(** A group and a message of one name are one kind to the diff, though their
    wire types differ. *)
Example group_is_message :
  compare (file [message "M" [named_field 1 (Some TGroup) "G"] []])
          (file [message "M" [named_field 1 None "G"] []]) = [].
Proof. by vm_compute. Qed.
