(* ===== verification/AvroFormat.v ===== *)
(** * The Avro format (format/avro.rs)

    The registry's own part of the Avro check: logical types are erased and the
    reader's aliases and enum defaults are applied before apache-avro's resolution is
    asked. apache-avro itself, and serde_json's text, are parameters. *)

From stdpp Require Import base gmap strings list.
From Stdlib Require Import ZArith Lia.
From S2P Require Import Prelude Text Float Json Types Record Matching JsonDiff.

(** [Schema::parse_str], [Schema::parse_list] and [SchemaCompatibility::can_read]
    (writer first); [serde_json::from_str] with its error text. *)
Inductive Compatibility := Full | Partial.

Class AvroLib := {
  avro_schema : Type;
  parse_str : string → result string avro_schema;
  parse_list : list string → result string (list avro_schema);
  can_read : avro_schema → avro_schema → result string Compatibility;
}.

Class JsonText := json_text : string → result string json.

(** ** Erasure of logical types *)

Definition assoc_remove {A} (k : string) (l : list (string * A)) : list (string * A) :=
  List.filter (λ kv, negb (String.eqb k kv.1)) l.

Definition erase_annotations {A} (l : list (string * A)) : list (string * A) :=
  match assoc_get "logicalType" l with
  | Some _ => assoc_remove "scale" (assoc_remove "precision" (assoc_remove "logicalType" l))
  | None => l
  end.

Fixpoint erase_logical_types (value : json) : json :=
  match value with
  | JObject l => JObject (erase_annotations (map (λ kv, (kv.1, erase_logical_types kv.2)) l))
  | JArray l => JArray (map erase_logical_types l)
  | _ => value
  end.

(** ** The reader's rules *)

(** [get_mut(k)] and an assignment through it. *)
Fixpoint assoc_set {A} (k : string) (v : A) (l : list (string * A)) : list (string * A) :=
  match l with
  | [] => []
  | (k', v') :: l' => if String.eqb k k' then (k', v) :: l' else (k', v') :: assoc_set k v l'
  end.

Definition get_str (k : string) (l : list (string * json)) : option string :=
  v ← assoc_get k l; as_str v.
Definition get_array (k : string) (l : list (string * json)) : option (list json) :=
  v ← assoc_get k l; as_array v.

Definition is_str (s : string) (v : json) : bool := bool_decide (as_str v = Some s).

(** The writer takes the reader's name when the reader lists it as an alias. *)
Definition apply_alias (reader writer : list (string * json)) : list (string * json) :=
  match get_str "name" reader, get_str "name" writer with
  | Some reader_name, Some writer_name =>
      if negb (String.eqb reader_name writer_name) &&
         match get_array "aliases" reader with Some aliases => existsb (is_str writer_name) aliases | None => false end
      then assoc_insert "name" (JString reader_name) writer
      else writer
  | _, _ => writer
  end.

Definition push_symbol (symbols : list json) (symbol : json) : list json :=
  if existsb (json_eqb symbol) symbols then symbols else symbols ++ [symbol].

(** A reader enum with a default takes the writer's symbols. *)
Definition apply_enum_default (reader writer : list (string * json)) : list (string * json) :=
  if bool_decide (get_str "type" reader = Some "enum") && bool_decide (get_str "type" writer = Some "enum") then
    match get_str "default" reader, get_array "symbols" writer, get_array "symbols" reader with
    | Some default, Some writer_symbols, Some reader_symbols =>
        if existsb (is_str default) reader_symbols
        then assoc_set "symbols" (JArray (foldl push_symbol reader_symbols writer_symbols)) reader
        else reader
    | _, _, _ => reader
    end
  else reader.

(** Values are processed in pairs: the new reader and the new writer. *)
Definition Rules : Type := json → json → json * json.

Section rules.
Variable rules : Rules.

Fixpoint apply_zip (readers writers : list json) : list json * list json :=
  match readers, writers with
  | r :: readers', w :: writers' =>
      let '(r', w') := rules r w in
      let '(rs, ws) := apply_zip readers' writers' in
      (r' :: rs, w' :: ws)
  | _, _ => (readers, writers)
  end.

(** The types of one field of the reader and one of the writer. *)
Definition apply_types (reader_field writer_field : json) : json * json :=
  match reader_field, writer_field with
  | JObject r, JObject w =>
      match assoc_get "type" r, assoc_get "type" w with
      | Some reader_type, Some writer_type =>
          let '(reader_type', writer_type') := rules reader_type writer_type in
          (JObject (assoc_set "type" reader_type' r), JObject (assoc_set "type" writer_type' w))
      | _, _ => (reader_field, writer_field)
      end
  | _, _ => (reader_field, writer_field)
  end.

Definition field_name (field : json) : option string := v ← json_get field "name"; as_str v.

(** The first field of the writer with the name. *)
Fixpoint apply_field (name : string) (reader_field : json) (writer_fields : list json) : json * list json :=
  match writer_fields with
  | [] => (reader_field, [])
  | w :: rest =>
      if bool_decide (field_name w = Some name)
      then let '(r', w') := apply_types reader_field w in (r', w' :: rest)
      else let '(r', rest') := apply_field name reader_field rest in (r', w :: rest')
  end.

Fixpoint apply_fields (reader_fields writer_fields : list json) : list json * list json :=
  match reader_fields with
  | [] => ([], writer_fields)
  | r :: reader_fields' =>
      let '(r', writer_fields') :=
        match field_name r with
        | Some name => apply_field name r writer_fields
        | None => (r, writer_fields)
        end in
      let '(rs, ws) := apply_fields reader_fields' writer_fields' in
      (r' :: rs, ws)
  end.

Definition rules_step (reader writer : json) : json * json :=
  match reader, writer with
  | JObject r, JObject w =>
      let w1 := apply_alias r w in
      let r1 := apply_enum_default r w1 in
      match get_array "fields" r1, get_array "fields" w1 with
      | Some reader_fields, Some writer_fields =>
          let '(rs, ws) := apply_fields reader_fields writer_fields in
          (JObject (assoc_set "fields" (JArray rs) r1), JObject (assoc_set "fields" (JArray ws) w1))
      | _, _ => (JObject r1, JObject w1)
      end
  | JArray readers, JArray writers =>
      let '(rs, ws) := apply_zip readers writers in (JArray rs, JArray ws)
  | _, _ => (reader, writer)
  end.
End rules.

(** Each level of the recursion goes to a part of the reader, so its size is
    fuel enough ([apply_rules_fuel]). *)
Fixpoint apply_rules (fuel : nat) : Rules :=
  match fuel with
  | O => λ reader writer, (reader, writer)
  | S fuel' => rules_step (apply_rules fuel')
  end.

Definition apply_reader_rules (reader writer : json) : json * json := apply_rules (json_size reader) reader writer.

(** ** Parsing and the check *)

Section avro.
Context `{AvroLib, SerdeJson, JsonText}.

Record AvroSchema := mkAvroSchema { av_parsed : avro_schema; av_identity : string }.

Definition avro_error (e : string) : SrError := InvalidSchema ("Avro: " +:+ e).

Definition parse (schema : string) (refs : list ResolvedReference) : result SrError AvroSchema :=
  match json_text schema with
  | Err e => Err (avro_error e)
  | Ok value =>
      let identity := json_print value in
      match refs with
      | [] =>
          match parse_str schema with
          | Ok parsed => Ok (mkAvroSchema parsed identity)
          | Err e => Err (avro_error e)
          end
      | _ =>
          match parse_list ((res_schema <$> refs) ++ [schema]) with
          | Err e => Err (avro_error e)
          | Ok parsed =>
              match last parsed with
              | Some p => Ok (mkAvroSchema p identity)
              | None => Err (avro_error "empty parse_list")
              end
          end
      end
  end.

Definition canonical_form (s : AvroSchema) : string := av_identity s.

Definition check (reader writer : string) (reader_refs writer_refs : list ResolvedReference)
    : result (list string) unit :=
  match json_text reader with
  | Err e => Err ["reader: Avro: " +:+ e]
  | Ok reader_value =>
  match json_text writer with
  | Err e => Err ["writer: Avro: " +:+ e]
  | Ok writer_value =>
      let '(reader_value, writer_value) :=
        apply_reader_rules (erase_logical_types reader_value) (erase_logical_types writer_value) in
      match parse (json_print reader_value) reader_refs with
      | Err e => Err ["reader: " +:+ error_message e]
      | Ok reader_schema =>
      match parse (json_print writer_value) writer_refs with
      | Err e => Err ["writer: " +:+ error_message e]
      | Ok writer_schema =>
          match can_read (av_parsed writer_schema) (av_parsed reader_schema) with
          | Ok Full => Ok ()
          | Ok Partial => Err ["reader resolves only part of what the writer can produce"]
          | Err e => Err [e]
          end
      end end
  end end.
End avro.
