(* ===== verification/AvroFacts.v ===== *)
(** * Properties of the Avro preparation (format/avro.rs)

    The recursion of the reader's rules ends within the reader's size; erasure
    removes every logical type and nothing else; an enum default lets the reader take
    every symbol of the writer and an alias its name; a schema is prepared against
    itself unchanged, so the registry accepts what apache-avro accepts. *)

From stdpp Require Import base gmap strings list.
From Stdlib Require Import ZArith Lia.
From S2P Require Import Prelude Text Float Json Types Record Matching JsonDiff JsonFacts AvroFormat.

(** ** Association lists *)

Lemma assoc_get_set {A} k k' (v : A) l :
  assoc_get k (assoc_set k' v l) =
  if String.eqb k k' then (match assoc_get k l with Some _ => Some v | None => None end) else assoc_get k l.
Proof.
  induction l as [|[k0 v0] l IH]; simpl; [by destruct (String.eqb k k')|].
  destruct (String.eqb_spec k' k0) as [<-|Hk0]; simpl.
  - by destruct (String.eqb_spec k k').
  - rewrite IH. destruct (String.eqb_spec k k0) as [<-|]; [|done].
    by destruct (String.eqb_spec k k'); [subst|].
Qed.

Lemma assoc_set_same {A} k (v : A) l : assoc_get k l = Some v → assoc_set k v l = l.
Proof.
  induction l as [|[k0 v0] l IH]; simpl; [done|]. destruct (String.eqb_spec k k0).
  - by intros [= ->].
  - intros Hv. by rewrite IH.
Qed.

Lemma assoc_get_insert {A} k k' (v : A) l :
  assoc_get k (assoc_insert k' v l) = if String.eqb k k' then Some v else assoc_get k l.
Proof.
  induction l as [|[k0 v0] l IH]; simpl; [done|].
  destruct (String.compare k' k0) eqn:E; simpl; [|done|].
  - apply String.compare_eq_iff in E as ->. by destruct (String.eqb k k0).
  - rewrite IH. destruct (String.eqb_spec k k0) as [->|]; [|done].
    destruct (String.eqb_spec k0 k') as [->|]; [|done].
    pose proof (String.compare_antisym k' k') as Ha. by rewrite E in Ha.
Qed.

Lemma assoc_get_remove {A} k k' (l : list (string * A)) :
  assoc_get k (assoc_remove k' l) = if String.eqb k' k then None else assoc_get k l.
Proof.
  unfold assoc_remove. induction l as [|[k0 v0] l IH]; simpl; [by destruct (String.eqb k' k)|].
  destruct (String.eqb_spec k' k0) as [->|Hne]; simpl.
  - rewrite IH. destruct (String.eqb_spec k0 k) as [->|]; [done|].
    by destruct (String.eqb_spec k k0) as [->|].
  - rewrite IH. destruct (String.eqb_spec k k0) as [->|]; [|done].
    by destruct (String.eqb_spec k' k0).
Qed.

(** ** The recursion ends *)

Section step.
Context (f g : Rules).

Lemma apply_types_ext r w :
  (∀ x y, below x r → f x y = g x y) → apply_types f r w = apply_types g r w.
Proof.
  intros Hfg. destruct r as [| | | | |r]; try done. destruct w as [| | | | |w]; try done. simpl.
  destruct (assoc_get "type" r) as [rt|] eqn:E; [|done]. destruct (assoc_get "type" w); [|done].
  rewrite Hfg; [done|]. apply assoc_get_elem in E. by eapply below_object.
Qed.

Lemma apply_field_ext name r ws :
  (∀ x y, below x r → f x y = g x y) → apply_field f name r ws = apply_field g name r ws.
Proof.
  intros Hfg. induction ws as [|w ws IH]; simpl; [done|]. by rewrite IH, (apply_types_ext r w Hfg).
Qed.

Lemma apply_fields_ext rs ws :
  (∀ r x y, r ∈ rs → below x r → f x y = g x y) → apply_fields f rs ws = apply_fields g rs ws.
Proof.
  revert ws. induction rs as [|r rs IH]; intros ws Hfg; simpl; [done|].
  assert (∀ name, apply_field f name r ws = apply_field g name r ws) as Hr.
  { intros name. apply apply_field_ext. intros x y. apply Hfg. by left. }
  assert (∀ ws', apply_fields f rs ws' = apply_fields g rs ws') as Hrs.
  { intros ws'. apply IH. intros r' x y Hr'. apply Hfg. by right. }
  destruct (field_name r) as [name|]; [|by rewrite Hrs].
  rewrite Hr. destruct (apply_field g name r ws). by rewrite Hrs.
Qed.

Lemma apply_zip_ext rs ws : (∀ r y, r ∈ rs → f r y = g r y) → apply_zip f rs ws = apply_zip g rs ws.
Proof.
  revert ws. induction rs as [|r rs IH]; intros [|w ws] Hfg; simpl; try done.
  rewrite (Hfg r w) by (by left). rewrite IH; [done|]. intros r' y Hr'. apply Hfg. by right.
Qed.

(** Only the reader's symbols change before the fields are visited. *)
Lemma enum_default_other k r w : k ≠ "symbols" → assoc_get k (apply_enum_default r w) = assoc_get k r.
Proof.
  intros Hk. unfold apply_enum_default. destruct (_ && _); [|done].
  destruct (get_str "default" r), (get_array "symbols" w), (get_array "symbols" r); try done.
  destruct (existsb _ _); [|done]. rewrite assoc_get_set. by destruct (String.eqb_spec k "symbols").
Qed.

Lemma alias_other k r w : k ≠ "name" → assoc_get k (apply_alias r w) = assoc_get k w.
Proof.
  intros Hk. unfold apply_alias. destruct (get_str "name" r), (get_str "name" w); try done.
  destruct (_ && _); [|done]. rewrite assoc_get_insert. by destruct (String.eqb_spec k "name").
Qed.

Lemma rules_step_ext r w : (∀ x y, below x r → f x y = g x y) → rules_step f r w = rules_step g r w.
Proof.
  intros Hfg. destruct r as [| | | |rs|r], w as [| | | |ws|w]; try done; simpl.
  - rewrite (apply_zip_ext rs ws); [done|]. intros x y Hx. by apply Hfg, below_array.
  - set (w1 := apply_alias r w). set (r1 := apply_enum_default r w1).
    destruct (get_array "fields" r1) as [rs|] eqn:Ers; [|done].
    destruct (get_array "fields" w1) as [ws|]; [|done].
    rewrite (apply_fields_ext rs ws); [done|]. intros r' x y Hr' Hx. apply Hfg.
    eapply below_trans; [done|]. apply (get_array_below (JObject r) "fields" rs); [|done].
    unfold get_array, r1 in Ers. by rewrite enum_default_other in Ers.
Qed.
End step.

(** The recursion of [apply_reader_rules] ends: any fuel from the size of the
    reader on gives its result. *)
Lemma apply_rules_fuel n m r w :
  (json_size r ≤ n)%nat → (json_size r ≤ m)%nat → apply_rules n r w = apply_rules m r w.
Proof.
  revert m r w. induction n as [|n IH]; intros m r w Hn Hm; pose proof (json_size_pos r); [lia|].
  destruct m as [|m]; [lia|]. simpl. apply rules_step_ext. intros x y [_ Hx]. apply IH; lia.
Qed.

(** ** Erasure of logical types *)

Definition annotation_free (v : json) : bool :=
  everywhere (λ v, match json_get v "logicalType" with Some _ => false | None => true end) v.

Lemma erase_annotations_free {A} (l : list (string * A)) : assoc_get "logicalType" (erase_annotations l) = None.
Proof.
  unfold erase_annotations. destruct (assoc_get "logicalType" l) eqn:E; [|done].
  by rewrite !assoc_get_remove.
Qed.

Lemma erase_annotations_sub {A} (l : list (string * A)) kv : kv ∈ erase_annotations l → kv ∈ l.
Proof.
  unfold erase_annotations, assoc_remove. destruct (assoc_get _ l); [|done].
  rewrite !list_elem_of_In, !filter_In. tauto.
Qed.

Lemma assoc_get_map {A B} (f : A → B) k l : assoc_get k (map (λ kv, (kv.1, f kv.2)) l) = f <$> assoc_get k l.
Proof. induction l as [|[k0 v0] l IH]; simpl; [done|]. by destruct (String.eqb k k0). Qed.

Lemma erase_free v : annotation_free (erase_logical_types v) = true.
Proof.
  unfold annotation_free. induction v as [|b|n|s|l IH|l IH] using json_rect'; simpl; try done.
  - apply forallb_forall. intros x Hx%in_map_iff. destruct Hx as (y & <- & Hy).
    rewrite Forall_forall in IH. by apply IH, list_elem_of_In.
  - rewrite erase_annotations_free. apply forallb_forall. intros kv Hkv.
    apply list_elem_of_In, erase_annotations_sub, list_elem_of_In, in_map_iff in Hkv as (y & <- & Hy).
    rewrite Forall_forall in IH. by apply IH, list_elem_of_In.
Qed.

Lemma map_id_in {A} (f : A → A) l : (∀ x, In x l → f x = x) → map f l = l.
Proof. intros Hf. rewrite <- (List.map_id l) at 2. by apply map_ext_in. Qed.

Lemma erase_id v : annotation_free v = true → erase_logical_types v = v.
Proof.
  unfold annotation_free. induction v as [|b|n|s|l IH|l IH] using json_rect'; simpl; try done;
    rewrite Forall_forall in IH; intros Hv.
  - f_equal. apply map_id_in. intros x Hx. apply IH; [by apply list_elem_of_In|].
    rewrite forallb_forall in Hv. by apply Hv.
  - apply andb_prop in Hv as [Hl Hv]. f_equal. rewrite map_id_in.
    + unfold erase_annotations. by destruct (assoc_get "logicalType" l).
    + intros [k x] Hx. f_equal. apply (IH (k, x)); [by apply list_elem_of_In|].
      rewrite forallb_forall in Hv. by apply (Hv (k, x)).
Qed.

(** ** Aliases and enum defaults *)

Lemma existsb_is_str s l : existsb (is_str s) l = true ↔ JString s ∈ l.
Proof.
  unfold is_str. rewrite existsb_exists, list_elem_of_In. split.
  - intros (x & Hx & Hs%bool_decide_eq_true). destruct x; by simplify_eq/=.
  - intros Hx. exists (JString s). split; [done|]. by apply bool_decide_eq_true.
Qed.

Lemma push_symbol_incl x l : x ∈ l → ∀ s, x ∈ push_symbol l s.
Proof. intros Hx s. unfold push_symbol. destruct (existsb _ _); [done|]. apply elem_of_app. by left. Qed.

Lemma push_symbol_new s l : JString s ∈ push_symbol l (JString s).
Proof.
  unfold push_symbol. destruct (existsb _ l) eqn:E; [|apply elem_of_app; right; by apply list_elem_of_here].
  apply existsb_exists in E as (x & Hx%list_elem_of_In & He). destruct x; simplify_eq/=.
  by apply String.eqb_eq in He as ->.
Qed.

Lemma push_symbols_incl x ws l : x ∈ l → x ∈ foldl push_symbol l ws.
Proof. revert l. induction ws as [|w ws IH]; intros l Hx; simpl; [done|]. by apply IH, push_symbol_incl. Qed.

Lemma push_symbols_new s ws l : JString s ∈ ws → JString s ∈ foldl push_symbol l ws.
Proof.
  revert l. induction ws as [|w ws IH]; intros l Hs; [by apply not_elem_of_nil in Hs|]. simpl.
  apply elem_of_cons in Hs as [<-|Hs]; [apply push_symbols_incl, push_symbol_new|by apply IH].
Qed.

Lemma push_symbols_old x ws l : x ∈ foldl push_symbol l ws → x ∈ l ∨ x ∈ ws.
Proof.
  revert l. induction ws as [|w ws IH]; intros l Hx; simpl in *; [by left|].
  apply IH in Hx as [Hx|Hx]; [|right; by right]. unfold push_symbol in Hx.
  destruct (existsb _ _); [by left|]. apply elem_of_app in Hx as [Hx|Hx%list_elem_of_singleton]; [by left|].
  right. rewrite Hx. by left.
Qed.

Lemma push_symbols_prefix ws l : l `prefix_of` foldl push_symbol l ws.
Proof.
  revert l. induction ws as [|w ws IH]; intros l; simpl; [done|].
  etransitivity; [|apply IH]. unfold push_symbol. destruct (existsb _ _); [done|]. by eexists.
Qed.

(** What the rules do to the keys of two named types. *)
Lemma rules_keys r w k :
  k ≠ "fields" →
  json_get (apply_reader_rules (JObject r) (JObject w)).1 k = assoc_get k (apply_enum_default r (apply_alias r w)) ∧
  json_get (apply_reader_rules (JObject r) (JObject w)).2 k = assoc_get k (apply_alias r w).
Proof.
  intros Hk. unfold apply_reader_rules. cbn [json_size apply_rules rules_step].
  set (w1 := apply_alias r w). set (r1 := apply_enum_default r w1).
  destruct (get_array "fields" r1) as [rs|]; [|done]. destruct (get_array "fields" w1) as [ws|]; [|done].
  destruct (apply_fields _ rs ws) as [rs' ws']. simpl. rewrite !assoc_get_set.
  by destruct (String.eqb_spec k "fields").
Qed.

(** The reader lists the writer's name among its aliases. *)
Definition aliased (r w : list (string * json)) (name : string) : Prop :=
  ∃ writer_name aliases, get_str "name" r = Some name ∧ get_str "name" w = Some writer_name ∧
    name ≠ writer_name ∧ get_array "aliases" r = Some aliases ∧ JString writer_name ∈ aliases.

(** Both are enums and the reader has a default among its symbols. *)
Definition enum_defaulted (r w : list (string * json)) (reader_symbols writer_symbols : list json) : Prop :=
  get_str "type" r = Some "enum" ∧ get_str "type" w = Some "enum" ∧
  get_array "symbols" r = Some reader_symbols ∧ get_array "symbols" w = Some writer_symbols ∧
  ∃ default, get_str "default" r = Some default ∧ JString default ∈ reader_symbols.

Lemma get_array_assoc k l a : get_array k l = Some a → assoc_get k l = Some (JArray a).
Proof.
  unfold get_array. destruct (assoc_get k l) as [v|]; [|done]. destruct v; simpl; try done. by intros [= ->].
Qed.

Lemma apply_alias_name r w name :
  aliased r w name → assoc_get "name" (apply_alias r w) = Some (JString name).
Proof.
  intros (wn & aliases & Er & Ew & Hne & Ea & Hin). unfold apply_alias. rewrite Er, Ew, Ea.
  apply String.eqb_neq in Hne. apply existsb_is_str in Hin. rewrite Hne, Hin. simpl.
  by rewrite assoc_get_insert.
Qed.

Lemma apply_alias_none r w : (∀ name, ¬ aliased r w name) → apply_alias r w = w.
Proof.
  intros Hno. unfold apply_alias. destruct (get_str "name" r) as [rn|] eqn:Er; [|done].
  destruct (get_str "name" w) as [wn|] eqn:Ew; [|done].
  destruct (String.eqb_spec rn wn) as [|Hne]; [done|]. simpl.
  destruct (get_array "aliases" r) as [aliases|] eqn:Ea; [|done].
  destruct (existsb _ _) eqn:Ex; [|done]. apply existsb_is_str in Ex. destruct (Hno rn). by exists wn, aliases.
Qed.

Lemma apply_enum_default_symbols r w rs ws :
  enum_defaulted r w rs ws →
  assoc_get "symbols" (apply_enum_default r w) = Some (JArray (foldl push_symbol rs ws)).
Proof.
  intros (Tr & Tw & Sr & Sw & dflt & Ed & Hd). unfold apply_enum_default.
  rewrite (bool_decide_true _ Tr), (bool_decide_true _ Tw). simpl. rewrite Ed, Sr, Sw.
  apply existsb_is_str in Hd. rewrite Hd, assoc_get_set. by rewrite (get_array_assoc _ _ _ Sr).
Qed.

Lemma apply_enum_default_none r w : (∀ rs ws, ¬ enum_defaulted r w rs ws) → apply_enum_default r w = r.
Proof.
  intros Hno. unfold apply_enum_default. destruct (_ && _) eqn:Et; [|done].
  apply andb_prop in Et as [Tr%bool_decide_eq_true Tw%bool_decide_eq_true].
  destruct (get_str "default" r) as [dflt|] eqn:Ed; [|done].
  destruct (get_array "symbols" w) as [ws|] eqn:Sw; [|done].
  destruct (get_array "symbols" r) as [rs|] eqn:Sr; [|done].
  destruct (existsb _ rs) eqn:Ex; [|done]. apply existsb_is_str in Ex. destruct (Hno rs ws).
  repeat split; eauto.
Qed.

(** Renaming the writer does not change what makes an enum defaulted. *)
Lemma enum_defaulted_alias r w rs ws : enum_defaulted r (apply_alias r w) rs ws ↔ enum_defaulted r w rs ws.
Proof. unfold enum_defaulted, get_str, get_array. by rewrite !alias_other by done. Qed.

Lemma reader_rules_facts r w :
  let '(r', w') := apply_reader_rules (JObject r) (JObject w) in
  (∀ name, aliased r w name → json_get w' "name" = Some (JString name)) ∧
  ((∀ name, ¬ aliased r w name) → json_get w' "name" = assoc_get "name" w) ∧
  (∀ rs ws, enum_defaulted r w rs ws → ∃ symbols, json_get r' "symbols" = Some (JArray symbols) ∧
     rs `prefix_of` symbols ∧ (∀ s, JString s ∈ ws → JString s ∈ symbols) ∧
     (∀ x, x ∈ symbols → x ∈ rs ∨ x ∈ ws)) ∧
  ((∀ rs ws, ¬ enum_defaulted r w rs ws) → json_get r' "symbols" = assoc_get "symbols" r) ∧
  (∀ k, k ≠ "fields" → k ≠ "symbols" → json_get r' k = assoc_get k r) ∧
  (∀ k, k ≠ "fields" → k ≠ "name" → json_get w' k = assoc_get k w).
Proof.
  pose proof (rules_keys r w) as Hk.
  destruct (apply_reader_rules _ _) as [r' w']. cbn [fst snd] in Hk. split_and!.
  - intros name Ha. destruct (Hk "name") as [_ ->]; [done|]. by apply apply_alias_name.
  - intros Hno. destruct (Hk "name") as [_ ->]; [done|]. by rewrite apply_alias_none.
  - intros rs ws He. exists (foldl push_symbol rs ws). destruct (Hk "symbols") as [-> _]; [done|].
    rewrite (apply_enum_default_symbols r _ rs ws) by (by apply enum_defaulted_alias).
    split_and!; eauto using push_symbols_prefix, push_symbols_new, push_symbols_old.
  - intros Hno. destruct (Hk "symbols") as [-> _]; [done|].
    rewrite apply_enum_default_none; [done|]. intros rs ws. rewrite enum_defaulted_alias. apply Hno.
  - intros k Hf Hs. destruct (Hk k Hf) as [-> _]. by apply enum_default_other.
  - intros k Hf Hn. destruct (Hk k Hf) as [_ ->]. by apply alias_other.
Qed.

(** ** A schema against itself *)

(** The fields of every record have different names and the symbols of every enum
    are strings, as Avro asks. *)
Definition avro_regular_here (v : json) : bool :=
  match json_get v "fields" ≫= as_array with Some l => bool_decide (NoDup (omap field_name l)) | None => true end &&
  match json_get v "symbols" ≫= as_array with
  | Some l => forallb (λ x, match as_str x with Some _ => true | None => false end) l
  | None => true
  end.
Definition avro_regular (v : json) : bool := everywhere avro_regular_here v.

Section self.
Context (f : Rules) (v : json) (Hf : ∀ x, below x v → f x x = (x, x)).

Lemma zip_self l : (∀ x, x ∈ l → below x v) → apply_zip f l l = (l, l).
Proof.
  induction l as [|x l IH]; intros Hl; simpl; [done|].
  rewrite Hf by (apply Hl; by left). rewrite IH; [done|]. intros y Hy. apply Hl. by right.
Qed.

Lemma types_self x : below x v → apply_types f x x = (x, x).
Proof.
  intros Hx. destruct x as [| | | | |l]; try done. simpl. destruct (assoc_get "type" l) as [t|] eqn:E; [|done].
  rewrite Hf; [by rewrite (assoc_set_same _ _ _ E)|].
  eapply below_trans; [|done]. apply assoc_get_elem in E. by eapply below_object.
Qed.

Lemma field_self_at name x pre rest :
  below x v → field_name x = Some name → name ∉ omap field_name pre →
  apply_field f name x (pre ++ x :: rest) = (x, pre ++ x :: rest).
Proof.
  intros Hx Hn. induction pre as [|y pre IH]; intros Hp; simpl.
  - rewrite (bool_decide_true _ Hn). by rewrite types_self.
  - simpl in Hp. destruct (field_name y) as [yn|] eqn:Ey.
    + rewrite elem_of_cons in Hp. rewrite bool_decide_false by naive_solver. rewrite IH; naive_solver.
    + rewrite bool_decide_false by done. by rewrite IH.
Qed.

Lemma record_fields_self pre l :
  (∀ x, x ∈ l → below x v) → NoDup (omap field_name (pre ++ l)) → apply_fields f l (pre ++ l) = (l, pre ++ l).
Proof.
  revert pre. induction l as [|x l IH]; intros pre Hl Hn; simpl; [done|].
  assert (apply_fields f l (pre ++ x :: l) = (l, pre ++ x :: l)) as Hrest.
  { rewrite (cons_middle x pre l), app_assoc in *. apply IH; [intros y Hy; apply Hl; by right|done]. }
  destruct (field_name x) as [name|] eqn:En; [|by rewrite Hrest].
  rewrite field_self_at; [by rewrite Hrest|apply Hl; by left|done|].
  rewrite omap_app in Hn. simpl in Hn. rewrite En in Hn.
  apply NoDup_app in Hn as (_ & Hn & _). intros Hin. apply (Hn _ Hin). by left.
Qed.

End self.

Lemma push_symbols_self l0 l :
  (∀ x, x ∈ l → x ∈ l0 ∧ ∃ s, x = JString s) → foldl push_symbol l0 l = l0.
Proof.
  induction l as [|x l IH]; intros Hl; simpl; [done|].
  destruct (Hl x) as [Hx [s ->]]; [by left|].
  assert (push_symbol l0 (JString s) = l0) as ->.
  { unfold push_symbol. assert (existsb (json_eqb (JString s)) l0 = true) as ->; [|done].
    apply existsb_exists. exists (JString s). split; [by apply list_elem_of_In|]. apply String.eqb_refl. }
  apply IH. intros y Hy. apply Hl. by right.
Qed.

Lemma rules_step_self f v :
  avro_regular v = true → (∀ x, below x v → f x x = (x, x)) → rules_step f v v = (v, v).
Proof.
  intros Hv Hf. pose proof (everywhere_here _ _ Hv) as Hh. unfold avro_regular_here in Hh. apply andb_prop in Hh as [Hn Hs].
  destruct v as [| | | |l|l]; try done; cbn [rules_step].
  - rewrite (zip_self f (JArray l)); [done..|]. intros x Hx. by apply below_array.
  - assert (apply_alias l l = l) as ->.
    { apply apply_alias_none. intros name (wn & al & Er & Ew & Hne & _). congruence. }
    assert (apply_enum_default l l = l) as ->.
    { unfold apply_enum_default. destruct (_ && _); [|done].
      destruct (get_str "default" l); [|done]. destruct (get_array "symbols" l) as [ss|] eqn:Es; [|done].
      destruct (existsb _ _); [|done]. rewrite push_symbols_self; [by apply assoc_set_same, get_array_assoc|].
      intros x Hx. split; [done|]. change (json_get _ _ ≫= as_array) with (get_array "symbols" l) in Hs. rewrite Es in Hs.
      rewrite forallb_forall in Hs. specialize (Hs x). rewrite <- list_elem_of_In in Hs. specialize (Hs Hx).
      destruct x; try done. eauto. }
    destruct (get_array "fields" l) as [fs|] eqn:Ef; [|done].
    assert (apply_fields f fs fs = (fs, fs)) as ->;
      [|by rewrite (assoc_set_same _ _ _ (get_array_assoc _ _ _ Ef))].
    apply (record_fields_self f (JObject l) Hf []).
    + intros x Hx. by apply (get_array_below (JObject l) "fields" fs).
    + change (json_get _ _ ≫= as_array) with (get_array "fields" l) in Hn. rewrite Ef in Hn.
      by apply bool_decide_eq_true in Hn.
Qed.

Lemma apply_rules_self n v : avro_regular v = true → apply_rules n v v = (v, v).
Proof.
  revert v. induction n as [|n IH]; intros v Hv; [done|]. simpl. apply rules_step_self; [done|].
  intros x [Hx _]. apply IH. by apply (everywhere_sub _ v).
Qed.

(** ** The claims *)

(** C30: the reader's rules on two named types: the writer takes the reader's name
    exactly when its own is among the reader's aliases; a reader enum with a
    default keeps its symbols, in place, and gets every symbol of the writer and
    no other; without a default the symbols stay; and nothing else changes but the
    fields. *)
Theorem reader_rules_spec r w :
  let '(r', w') := apply_reader_rules (JObject r) (JObject w) in
  (∀ name, aliased r w name → json_get w' "name" = Some (JString name)) ∧
  ((∀ name, ¬ aliased r w name) → json_get w' "name" = assoc_get "name" w) ∧
  (∀ rs ws, enum_defaulted r w rs ws → ∃ symbols, json_get r' "symbols" = Some (JArray symbols) ∧
     rs `prefix_of` symbols ∧ (∀ s, JString s ∈ ws → JString s ∈ symbols) ∧
     (∀ x, x ∈ symbols → x ∈ rs ∨ x ∈ ws)) ∧
  ((∀ rs ws, ¬ enum_defaulted r w rs ws) → json_get r' "symbols" = assoc_get "symbols" r) ∧
  (∀ k, k ≠ "fields" → k ≠ "symbols" → json_get r' k = assoc_get k r) ∧
  (∀ k, k ≠ "fields" → k ≠ "name" → json_get w' k = assoc_get k w).
Proof. apply reader_rules_facts. Qed.

(** The Avro check of a schema against itself is apache-avro's verdict on
    the schema without its logical types: the preparation changes neither side
    (when record fields have different names and enum symbols are strings), erases every
    logical type, and is the identity on a schema that has none. *)
Theorem avro_check_self `{AvroLib, SerdeJson, JsonText} schema refs v s :
  json_text schema = Ok v → avro_regular (erase_logical_types v) = true →
  parse (json_print (erase_logical_types v)) refs = Ok s →
  check schema schema refs refs =
    match can_read (av_parsed s) (av_parsed s) with
    | Ok Full => Ok ()
    | Ok Partial => Err ["reader resolves only part of what the writer can produce"]
    | Err e => Err [e]
    end ∧
  annotation_free (erase_logical_types v) = true ∧ (annotation_free v = true → erase_logical_types v = v).
Proof.
  intros Ev Hr Es. split; [|by auto using erase_free, erase_id]. unfold check. rewrite Ev.
  unfold apply_reader_rules. rewrite apply_rules_self by done. by rewrite Es.
Qed.

(** ** Examples *)

Definition suit (symbols : list string) (rest : list (string * json)) : json :=
  JObject (collect_map ([("type", JString "enum"); ("name", JString "Suit");
                         ("symbols", JArray (JString <$> symbols))] ++ rest)).

(** A reader enum with a default takes the writer's new symbol. *)
Example enum_default_taken :
  (apply_reader_rules (suit ["A"; "B"] [("default", JString "A")]) (suit ["A"; "C"] [])).1 =
  suit ["A"; "B"; "C"] [("default", JString "A")].
Proof. by vm_compute. Qed.

(** The rules do not look into the items of an array. *)
Example enum_default_in_array :
  let items s := JObject [("items", s); ("type", JString "array")] in
  (apply_reader_rules (items (suit ["A"] [("default", JString "A")])) (items (suit ["A"; "C"] []))).1 =
  items (suit ["A"] [("default", JString "A")]).
Proof. by vm_compute. Qed.

(** A library whose schemas are their texts, equal schemas reading each other. *)
#[local] Instance sample_avro : AvroLib := {|
  avro_schema := string;
  parse_str s := Ok s;
  parse_list l := Ok l;
  can_read w r := if String.eqb w r then Ok Full else Ok Partial;
|}.
#[local] Instance sample_serde : SerdeJson := {| json_print _ := "printed"; json_parse _ := None |}.
#[local] Instance sample_text : JsonText := λ _,
  Ok (JObject [("logicalType", JString "date"); ("type", JString "int")]).

Lemma avro_check_self_witness : check "date" "date" [] [] = Ok ().
Proof.
  apply (avro_check_self "date" [] (JObject [("logicalType", JString "date"); ("type", JString "int")])
           (@mkAvroSchema sample_avro "printed" "printed")); by vm_compute.
Defined.
