(* ===== verification/Formats.v ===== *)
(** * The format dispatcher (format/mod.rs)

    [parse], [normalized_storage_form] and [check] over the three formats, and the
    instance of [SchemaFormat] they make, against which the store, the engine and the
    facade are proved. *)

From stdpp Require Import base gmap strings list.
From Stdlib Require Import ZArith Lia.
From S2P Require Import Prelude Text Float Json Types Record Matching JsonDiff Descriptor ProtoText ProtoDiff AvroFormat ProtoFacts.

Section formats.
Context `{AvroLib, SerdeJson, JsonText, ProtoLib, Regex, JsonPointer}.

(** [Box<dyn ParsedSchema>]. *)
Inductive ParsedSchema :=
  | ParsedAvro (s : AvroSchema)
  | ParsedJson (s : JsonSchema)
  | ParsedProtobuf (s : ProtobufSchema).

Definition canonical_form (p : ParsedSchema) : string :=
  match p with
  | ParsedAvro s => AvroFormat.canonical_form s
  | ParsedJson s => JsonDiff.canonical_form s
  | ParsedProtobuf s => ProtoDiff.canonical_form s
  end.

Definition parse (ty : SchemaType) (schema : string) (refs : list ResolvedReference)
    : result SrError ParsedSchema :=
  match ty with
  | Avro => p ← AvroFormat.parse schema refs; Ok (ParsedAvro p)
  | Json => p ← JsonDiff.parse json_text schema refs; Ok (ParsedJson p)
  | Protobuf => p ← ProtoDiff.parse schema refs; Ok (ParsedProtobuf p)
  end.

Definition normalized_storage_form (ty : SchemaType) (schema : string) (refs : list ResolvedReference)
    : result SrError string :=
  match ty with
  | Avro | Json => _ ← parse ty schema refs; Ok schema
  | Protobuf => p ← ProtoDiff.parse schema refs; Ok (ps_normalised p)
  end.

(** [None] is a JSON Schema diff that does not end within the fuel. *)
Definition check (fuel : nat) (ty : SchemaType) (reader writer : string)
    (reader_refs writer_refs : list ResolvedReference) : option (result (list string) unit) :=
  match ty with
  | Avro => Some (AvroFormat.check reader writer reader_refs writer_refs)
  | Protobuf => Some (ProtoDiff.check reader writer reader_refs writer_refs)
  | Json => JsonDiff.check json_text fuel reader writer reader_refs writer_refs
  end.

(** The interface as implemented. The code has no answer where the diff does not
    end; [unfinished] is any answer there. *)
Definition formats (fuel : nat) (unfinished : result (list string) unit) : SchemaFormat := {|
  format_parse ty schema refs := p ← parse ty schema refs; Ok (canonical_form p);
  format_check ty reader writer reader_refs writer_refs :=
    default unfinished (check fuel ty reader writer reader_refs writer_refs);
  Types.normalized_storage_form := normalized_storage_form;
|}.

(** ** Errors *)

(** Every parse error is [InvalidSchema]. *)
Definition invalid (e : SrError) : Prop := ∃ m, e = InvalidSchema m.

Lemma avro_parse_error schema refs e : AvroFormat.parse schema refs = Err e → invalid e.
Proof.
  unfold AvroFormat.parse, avro_error, invalid. repeat case_match; intros; simplify_eq; eauto.
Qed.

Lemma json_parse_error schema refs e : JsonDiff.parse json_text schema refs = Err e → invalid e.
Proof. unfold JsonDiff.parse, invalid. repeat case_match; intros; simplify_eq; eauto. Qed.

Lemma parse_references_error refs e : parse_references refs = Err e → invalid e.
Proof.
  unfold invalid. induction refs as [|r refs IH]; simpl; [done|].
  destruct (protox_parse _ _); [|intros; simplify_eq; eauto].
  destruct (parse_references refs); simpl; intros; simplify_eq; eauto.
Qed.

Lemma protobuf_parse_error schema refs e : ProtoDiff.parse schema refs = Err e → invalid e.
Proof.
  unfold ProtoDiff.parse. destruct (protox_parse _ _) as [f|m]; [|intros; simplify_eq; unfold invalid; eauto].
  assert (∀ l, (files ← parse_references l;
            match link_files (files ++ [f]) with
            | Ok _ => Ok ()
            | Err e => Err (InvalidSchema ("Protobuf link: " +:+ e))
            end) = Err e → invalid e) as Hlink.
  { intros l. destruct (parse_references l) as [files|e'] eqn:E; simpl.
    - unfold invalid. destruct (link_files _); intros; simplify_eq; eauto.
    - intros [= <-]. by eapply parse_references_error. }
  match goal with |- (?r ≫= _) = _ → _ => destruct r eqn:E end; simpl; [done|].
  intros [= ->]. destruct (file_dependency f), refs; try done; eauto.
Qed.

Lemma parse_invalid ty schema refs e : parse ty schema refs = Err e → invalid e.
Proof.
  destruct ty; simpl.
  - destruct (AvroFormat.parse schema refs) eqn:E; simpl; intros; simplify_eq. by eapply avro_parse_error.
  - destruct (ProtoDiff.parse schema refs) eqn:E; simpl; intros; simplify_eq. by eapply protobuf_parse_error.
  - destruct (JsonDiff.parse _ schema refs) eqn:E; simpl; intros; simplify_eq. by eapply json_parse_error.
Qed.

Lemma normalized_invalid ty schema refs e : normalized_storage_form ty schema refs = Err e → invalid e.
Proof.
  destruct ty; unfold normalized_storage_form; cbn [mbind result_bind].
  - destruct (parse Avro schema refs) eqn:E; simpl; intros; simplify_eq. by eapply parse_invalid.
  - destruct (ProtoDiff.parse schema refs) eqn:E; simpl; intros; simplify_eq. by eapply protobuf_parse_error.
  - destruct (parse Json schema refs) eqn:E; simpl; intros; simplify_eq. by eapply parse_invalid.
Qed.

(** A refused check gives a reason. *)
Lemma avro_check_reason reader writer rr wr : AvroFormat.check reader writer rr wr ≠ Err [].
Proof. unfold AvroFormat.check. repeat case_match; done. Qed.

Lemma json_check_reason fuel reader writer rr wr :
  JsonDiff.check json_text fuel reader writer rr wr ≠ Some (Err []).
Proof.
  unfold JsonDiff.check. repeat case_match; try done.
  destruct (compare_with_refs _ _ _ _ _) as [diffs|]; [|done]. simpl.
  by destruct (List.filter _ diffs).
Qed.

Lemma compare_references_reason rr wr todo : compare_references rr wr todo ≠ Err [].
Proof.
  induction todo as [|x todo IH]; simpl; [done|].
  assert (compare_reference rr wr x ≠ Err []) as Hx by (unfold compare_reference; repeat case_match; done).
  destruct (compare_reference rr wr x); simpl; [|done].
  destruct (compare_references rr wr todo); simpl; done.
Qed.

Lemma protobuf_check_reason reader writer rr wr : ProtoDiff.check reader writer rr wr ≠ Err [].
Proof.
  unfold ProtoDiff.check. repeat case_match; try done.
  pose proof (compare_references_reason rr wr (List.filter is_protobuf wr)) as Hr.
  destruct (compare_references _ _ _); simpl; [by destruct (List.filter _ _)|]. by intros [= ->].
Qed.

Lemma check_reason fuel ty reader writer rr wr : check fuel ty reader writer rr wr ≠ Some (Err []).
Proof.
  destruct ty; simpl.
  - intros [= E]. by apply avro_check_reason in E.
  - intros [= E]. by apply protobuf_check_reason in E.
  - apply json_check_reason.
Qed.
End formats.

(** C31: the errors of the formats: whatever the type, a schema that does not
    parse or normalise is refused as [InvalidSchema] (code 42201, status 422); storing an
    Avro or JSON schema keeps its text; and a refused check names at least one reason. *)
Theorem format_errors `{AvroLib, SerdeJson, JsonText, ProtoLib, Regex, JsonPointer}
    fuel ty schema refs reader writer rr wr :
  (∀ e, parse ty schema refs = Err e → error_code e = 42201%Z ∧ http_status e = 422%Z) ∧
  (∀ e, normalized_storage_form ty schema refs = Err e ↔
     parse ty schema refs = Err e) ∧
  (ty ≠ Protobuf → ∀ text, normalized_storage_form ty schema refs = Ok text → text = schema) ∧
  check fuel ty reader writer rr wr ≠ Some (Err []).
Proof.
  split_and!; [| | |apply check_reason].
  - intros e [m ->]%parse_invalid. done.
  - intros e. destruct ty; unfold normalized_storage_form; [|simpl|].
    + destruct (parse Avro schema refs); simpl; split; intros; by simplify_eq.
    + destruct (ProtoDiff.parse schema refs); simpl; split; intros; by simplify_eq.
    + destruct (parse Json schema refs); simpl; split; intros; by simplify_eq.
  - intros Hty text. unfold normalized_storage_form.
    destruct ty; [|done|]; destruct (parse _ schema refs); simpl; intros; by simplify_eq.
Qed.
