(* ===== verification/Compat.v ===== *)
(** * The compatibility engine (compat/mod.rs)

    Levels, the version set a level looks at, and the two entry points:
    enforcement on registration and the [/compatibility] query. The directional
    check itself belongs to the formats and is the interface [SchemaFormat]. *)

From stdpp Require Import base gmap strings list pretty sorting.
From Stdlib Require Import ZArith Lia.
From S2P Require Import Prelude Json Types Store Closure StoreFacts StoreSpec StoreQueries.

Inductive CompatibilityLevel :=
  | LNone | Backward | BackwardTransitive | Forward | ForwardTransitive | Full | FullTransitive.

Inductive Direction := NewReadsOld | OldReadsNew.

Record Verdict := mkVerdict { is_compatible : bool; messages : list string }.

#[global] Instance CompatibilityLevel_eq_dec : EqDecision CompatibilityLevel.
Proof. solve_decision. Defined.

Definition try_parse (s : string) : option CompatibilityLevel :=
  if String.eqb s "NONE" then Some LNone
  else if String.eqb s "BACKWARD" then Some Backward
  else if String.eqb s "BACKWARD_TRANSITIVE" then Some BackwardTransitive
  else if String.eqb s "FORWARD" then Some Forward
  else if String.eqb s "FORWARD_TRANSITIVE" then Some ForwardTransitive
  else if String.eqb s "FULL" then Some Full
  else if String.eqb s "FULL_TRANSITIVE" then Some FullTransitive
  else None.

Definition level_parse (s : string) : CompatibilityLevel := default Backward (try_parse s).

Definition is_transitive (l : CompatibilityLevel) : bool :=
  match l with BackwardTransitive | ForwardTransitive | FullTransitive => true | _ => false end.

Definition directions (l : CompatibilityLevel) : list Direction :=
  match l with
  | LNone => []
  | Backward | BackwardTransitive => [NewReadsOld]
  | Forward | ForwardTransitive => [OldReadsNew]
  | Full | FullTransitive => [NewReadsOld; OldReadsNew]
  end.

Definition effective_level (snap : StoreState) (subject : string) : CompatibilityLevel :=
  level_parse
    (match subject_compat snap subject with
     | Some s => s
     | None => global_compat snap
     end).

Section with_format.
Context `{SchemaFormat}.

(** The messages one directional check adds. *)
Definition direction_messages (ty : SchemaType) (candidate : string)
    (candidate_refs : list ResolvedReference) (existing : string)
    (existing_refs : list ResolvedReference) (dir : Direction) : list string :=
  let '(reader, writer, reader_refs, writer_refs) :=
    match dir with
    | NewReadsOld => (candidate, existing, candidate_refs, existing_refs)
    | OldReadsNew => (existing, candidate, existing_refs, candidate_refs)
    end in
  match format_check ty reader writer reader_refs writer_refs with
  | Ok _ => []
  | Err msgs => msgs
  end.

Definition check_pair (ty : SchemaType) (candidate : string)
    (candidate_refs : list ResolvedReference) (existing : string)
    (existing_refs : list ResolvedReference) (dirs : list Direction) (out : list string)
    : list string :=
  foldl (λ out dir,
    out ++ direction_messages ty candidate candidate_refs existing existing_refs dir) out dirs.

(** [versions[versions.len() - 1..]]. *)
Definition last_only {A} (l : list A) : list A := drop (length l - 1) l.

Definition closure_or_empty (snap : StoreState) (refs : list SchemaReference)
    : list ResolvedReference :=
  match resolve_closure snap refs with Ok out => out | Err _ => [] end.

Definition check_registration (snap : StoreState) (subject : string) (ty : SchemaType)
    (candidate : string) (candidate_refs : list ResolvedReference) : result SrError unit :=
  let level := effective_level snap subject in
  let dirs := directions level in
  match dirs with
  | [] => Ok tt
  | _ =>
    match versions_schemas snap subject with
    | [] => Ok tt
    | versions =>
      let targets := if is_transitive level then versions else last_only versions in
      let msgs := foldl (λ msgs '(_, vschema, v_refs),
        check_pair ty candidate candidate_refs vschema (closure_or_empty snap v_refs) dirs msgs)
        [] targets in
      match msgs with
      | [] => Ok tt
      | _ => Err (Incompatible msgs)
      end
    end
  end.

Definition check_against_version (snap : StoreState) (subject : string) (ty : SchemaType)
    (candidate : string) (candidate_refs : list ResolvedReference) (v : option Z)
    : result SrError Verdict :=
  match versions snap subject false with
  | None => Err (SubjectNotFound subject)
  | Some _ =>
    existing ← ok_or (version snap subject v false) VersionNotFound;
    let dirs := directions (effective_level snap subject) in
    match dirs with
    | [] => Ok (mkVerdict true [])
    | _ =>
      let msgs := check_pair ty candidate candidate_refs (vs_schema existing)
        (closure_or_empty snap (vs_references existing)) dirs [] in
      Ok (mkVerdict (match msgs with [] => true | _ => false end) msgs)
    end
  end.

(** ** What enforcement decides *)

(** The check of one direction raises no message. *)
Definition reads_ok (ty : SchemaType) (candidate : string) (candidate_refs : list ResolvedReference)
    (existing : string) (existing_refs : list ResolvedReference) (dir : Direction) : Prop :=
  direction_messages ty candidate candidate_refs existing existing_refs dir = [].

Lemma check_pair_app ty c crefs e erefs dirs out :
  check_pair ty c crefs e erefs dirs out = out ++ check_pair ty c crefs e erefs dirs [].
Proof.
  unfold check_pair. revert out. induction dirs as [|d dirs IH]; intros out; simpl.
  - by rewrite app_nil_r.
  - rewrite IH, (IH (direction_messages _ _ _ _ _ d)). by rewrite app_assoc.
Qed.

Lemma check_pair_nil ty c crefs e erefs dirs :
  check_pair ty c crefs e erefs dirs [] = [] ↔ ∀ d, d ∈ dirs → reads_ok ty c crefs e erefs d.
Proof.
  induction dirs as [|d dirs IH]; simpl; [split; [|done]; by intros _ d ?%elem_of_nil|].
  change (foldl _ ([] ++ ?m) dirs) with (check_pair ty c crefs e erefs dirs m).
  unfold check_pair at 1. simpl. fold (check_pair ty c crefs e erefs dirs
    (direction_messages ty c crefs e erefs d)).
  rewrite check_pair_app, app_nil, IH. unfold reads_ok. setoid_rewrite elem_of_cons.
  split; [|by auto]. intros [Hd Hds] d' [->|Hd']; auto.
Qed.

Lemma foldl_messages_nil {A} (f : A → list string) l :
  foldl (λ msgs x, msgs ++ f x) [] l = [] ↔ ∀ x, x ∈ l → f x = [].
Proof.
  enough (∀ acc, foldl (λ msgs x, msgs ++ f x) acc l = [] ↔ acc = [] ∧ ∀ x, x ∈ l → f x = []) as Hg
    by (rewrite Hg; tauto).
  induction l as [|y l IH]; intros acc; simpl.
  - split; [|tauto]. intros ->. split; [done|]. by intros x ?%elem_of_nil.
  - rewrite IH, app_nil. setoid_rewrite elem_of_cons. split.
    + intros [[-> Hy] Hl]. split; [done|]. intros x [->|?]; auto.
    + intros [-> Hl]. auto.
Qed.

(** The versions a level looks at: all live ones when transitive, else the
    last. *)
Definition checked_versions (snap : StoreState) (subject : string)
    : list (SchemaType * string * list SchemaReference) :=
  if is_transitive (effective_level snap subject) then versions_schemas snap subject
  else last_only (versions_schemas snap subject).

Definition pair_messages (snap : StoreState) (subject : string) (ty : SchemaType)
    (candidate : string) (crefs : list ResolvedReference)
    (t : SchemaType * string * list SchemaReference) : list string :=
  check_pair ty candidate crefs t.1.2 (closure_or_empty snap t.2)
    (directions (effective_level snap subject)) [].

Lemma check_registration_messages snap subject ty candidate crefs :
  check_registration snap subject ty candidate crefs =
  match foldl (λ msgs t, msgs ++ pair_messages snap subject ty candidate crefs t) []
          (checked_versions snap subject) with
  | [] => Ok tt
  | msgs => Err (Incompatible msgs)
  end.
Proof.
  unfold check_registration, checked_versions, pair_messages.
  set (level := effective_level snap subject).
  assert (∀ dirs l acc,
    foldl (λ msgs '(_, vschema, v_refs),
      check_pair ty candidate crefs vschema (closure_or_empty snap v_refs) dirs msgs) acc l =
    foldl (λ (msgs : list string) (t : SchemaType * string * list SchemaReference),
      msgs ++ check_pair ty candidate crefs t.1.2 (closure_or_empty snap t.2) dirs []) acc l) as Heq.
  { intros dirs l. induction l as [|[[vty vs] vr] l IH]; intros acc; simpl; [done|].
    by rewrite check_pair_app, IH. }
  assert (∀ l acc, foldl (λ (msgs : list string) (t : SchemaType * string * list SchemaReference),
      msgs ++ check_pair ty candidate crefs t.1.2 (closure_or_empty snap t.2) [] []) acc l = acc) as Hno.
  { intros l. induction l as [|t l IH]; intros acc; simpl; [done|]. by rewrite app_nil_r. }
  destruct (directions level) as [|d dirs] eqn:Hd; [by rewrite Hno|].
  destruct (versions_schemas snap subject) as [|v vs] eqn:Hv.
  { by destruct (is_transitive level). }
  rewrite Heq. by destruct (foldl _ _ _).
Qed.

Lemma check_registration_facts snap subject ty candidate crefs :
  (check_registration snap subject ty candidate crefs = Ok tt ↔
     ∀ vty vschema vrefs dir,
       (vty, vschema, vrefs) ∈ checked_versions snap subject →
       dir ∈ directions (effective_level snap subject) →
       reads_ok ty candidate crefs vschema (closure_or_empty snap vrefs) dir) ∧
  (∀ e, check_registration snap subject ty candidate crefs = Err e →
     ∃ msgs, e = Incompatible msgs ∧ msgs ≠ []).
Proof.
  rewrite check_registration_messages. set (msgs := foldl _ _ _).
  assert (msgs = [] ↔ ∀ t, t ∈ checked_versions snap subject →
            pair_messages snap subject ty candidate crefs t = []) as Hm
    by apply foldl_messages_nil.
  split.
  - transitivity (msgs = []); [by destruct msgs|]. rewrite Hm. unfold pair_messages. split.
    + intros Hall vty vs vr dir Hin Hd. specialize (Hall _ Hin). by eapply check_pair_nil in Hall.
    + intros Hall [[vty vs] vr] Hin. apply check_pair_nil. intros d Hd. by eapply Hall.
  - destruct msgs as [|m ms] eqn:E; [done|]. intros e [= <-]. by exists (m :: ms).
Qed.

(** The verdict on one existing version. *)
Lemma verdict_spec snap subject ty candidate crefs v x :
  is_Some (versions snap subject false) → version snap subject v false = Some x →
  is_compatible <$> result_ok (check_against_version snap subject ty candidate crefs v) = Some true ↔
  ∀ dir, dir ∈ directions (effective_level snap subject) →
    reads_ok ty candidate crefs (vs_schema x) (closure_or_empty snap (vs_references x)) dir.
Proof.
  intros [l Hl] Hx. unfold check_against_version. rewrite Hl, Hx. simpl.
  rewrite <-check_pair_nil. destruct (directions _) as [|d dirs]; [done|].
  by destruct (check_pair ty candidate crefs (vs_schema x)
    (closure_or_empty snap (vs_references x)) (d :: dirs) []).
Qed.

Definition schema_triple (x : VersionedSchema) : SchemaType * string * list SchemaReference :=
  (vs_ty x, vs_schema x, vs_references x).

(** The schemas compatibility looks at are those of the live versions. *)
Lemma elem_of_versions_schemas snap subject t :
  store_wf snap →
  t ∈ versions_schemas snap subject ↔
  ∃ v x, version snap subject (Some v) false = Some x ∧ t = schema_triple x.
Proof.
  intros Hs. unfold versions_schemas. split.
  - destruct (subjects snap !! subject) as [vs|] eqn:Hvs; [|by intros ?%elem_of_nil].
    intros (e & [He Hd]%elem_of_filter_bool & (reg & Hr & ->)%fmap_Some)%list_elem_of_omap.
    exists (ve_version e), (entry_schema e reg). split; [|done].
    apply version_spec; [done|]. exists e, reg. split_and!; try done. exists vs. auto.
  - intros (v & x & (e & reg & (vs & Hvs & He & Hq) & <- & Hr & ->)%version_spec & ->); [|done].
    rewrite Hvs. apply list_elem_of_omap. exists e. split; [by apply elem_of_filter_bool|].
    by rewrite Hr.
Qed.

Lemma last_only_last {A} (l : list A) : last_only l = option_list (last l).
Proof.
  unfold last_only. destruct l as [|x l] using rev_ind; [done|].
  rewrite last_snoc, length_app. simpl. rewrite Nat.add_sub, drop_app_length. done.
Qed.

Lemma last_versions_schemas snap subject x :
  store_wf snap → version snap subject None false = Some x →
  last_only (versions_schemas snap subject) = [schema_triple x].
Proof.
  intros Hs. unfold version, versions_schemas.
  intros (vs & Hvs & (e & He & (reg & Hr & [= <-])%bind_Some)%bind_Some)%bind_Some.
  rewrite Hvs. rewrite rfind_last in He. change (λ e, negb (ve_deleted e)) with (qualifies false).
  rewrite last_only_last.
  destruct (List.filter (qualifies false) vs) as [|e' l] using rev_ind; [done|].
  rewrite last_snoc in He. injection He as ->.
  rewrite omap_app. simpl. rewrite Hr. simpl. by rewrite last_snoc.
Qed.

(** ** What the levels promise

    The levels by their configured names, independently of how the code parses
    and tabulates them. *)

(** The level in force for a subject: its own, or the global one. *)
Definition configured_level (snap : StoreState) (subject : string) : string :=
  default (global_compat snap) (subject_compat snap subject).

(** The new schema must read data written with an existing one. A name that is
    no level counts as BACKWARD. *)
Definition asks_backward (name : string) : Prop :=
  name ∉ ["NONE"; "FORWARD"; "FORWARD_TRANSITIVE"].

(** An existing schema must read data written with the new one. *)
Definition asks_forward (name : string) : Prop :=
  name ∈ ["FORWARD"; "FORWARD_TRANSITIVE"; "FULL"; "FULL_TRANSITIVE"].

(** Every live version counts, not only the latest. *)
Definition asks_every (name : string) : Prop :=
  name ∈ ["BACKWARD_TRANSITIVE"; "FORWARD_TRANSITIVE"; "FULL_TRANSITIVE"].

(** The comparisons a registration under [subject] must pass: the existing
    version, and whether the new schema is the reader. *)
Inductive asked (snap : StoreState) (subject : string) : VersionedSchema → bool → Prop :=
  | asked_latest x (new_reads : bool) :
      version snap subject None false = Some x →
      (if new_reads then asks_backward (configured_level snap subject)
       else asks_forward (configured_level snap subject)) →
      asked snap subject x new_reads
  | asked_live v x (new_reads : bool) :
      asks_every (configured_level snap subject) →
      version snap subject (Some v) false = Some x →
      (if new_reads then asks_backward (configured_level snap subject)
       else asks_forward (configured_level snap subject)) →
      asked snap subject x new_reads.

(** The format's check of the candidate against [x] raises [msg]. *)
Definition objects (snap : StoreState) (ty : SchemaType) (candidate : string)
    (crefs : list ResolvedReference) (x : VersionedSchema) (new_reads : bool) (msg : string) : Prop :=
  let xrefs := match resolve_closure snap (vs_references x) with Ok out => out | Err _ => [] end in
  ∃ msgs, msg ∈ msgs ∧
    (if new_reads then format_check ty candidate (vs_schema x) crefs xrefs
     else format_check ty (vs_schema x) candidate xrefs crefs) = Err msgs.

Lemma level_parse_backward name :
  NewReadsOld ∈ directions (level_parse name) ↔ asks_backward name.
Proof.
  unfold asks_backward, level_parse, try_parse. rewrite !not_elem_of_cons.
  repeat match goal with |- context [String.eqb name ?x] => destruct (String.eqb_spec name x) as [->|] end;
    simpl; rewrite ?elem_of_cons, ?elem_of_nil; naive_solver.
Qed.

Lemma level_parse_forward name :
  OldReadsNew ∈ directions (level_parse name) ↔ asks_forward name.
Proof.
  unfold asks_forward, level_parse, try_parse. rewrite !elem_of_cons.
  repeat match goal with |- context [String.eqb name ?x] => destruct (String.eqb_spec name x) as [->|] end;
    simpl; rewrite ?elem_of_cons, ?elem_of_nil; naive_solver.
Qed.

Lemma level_parse_every name : is_transitive (level_parse name) = true ↔ asks_every name.
Proof.
  unfold asks_every, level_parse, try_parse. rewrite !elem_of_cons, elem_of_nil.
  repeat match goal with |- context [String.eqb name ?x] => destruct (String.eqb_spec name x) as [->|] end;
    simpl; naive_solver.
Qed.

Lemma effective_level_configured snap subject :
  effective_level snap subject = level_parse (configured_level snap subject).
Proof. unfold effective_level, configured_level. by destruct (subject_compat snap subject). Qed.

Lemma asked_direction snap subject (new_reads : bool) :
  (if new_reads then NewReadsOld else OldReadsNew) ∈ directions (effective_level snap subject) ↔
  (if new_reads then asks_backward (configured_level snap subject)
   else asks_forward (configured_level snap subject)).
Proof.
  rewrite effective_level_configured. destruct new_reads; [apply level_parse_backward|apply level_parse_forward].
Qed.

(** The versions the code walks are the ones asked about. *)
Lemma elem_of_checked_versions snap subject t :
  store_wf snap →
  t ∈ checked_versions snap subject ↔
  ∃ x, t = schema_triple x ∧
    (version snap subject None false = Some x ∨
     asks_every (configured_level snap subject) ∧ ∃ v, version snap subject (Some v) false = Some x).
Proof.
  intros Hs. pose proof (latest_version_facts snap subject false Hs) as Hlat.
  unfold checked_versions. rewrite effective_level_configured.
  setoid_rewrite <-level_parse_every.
  destruct (is_transitive _) eqn:Et.
  - rewrite elem_of_versions_schemas by done. split.
    + intros (v & x & Hx & ->). eauto 8.
    + intros (x & -> & [Hx|(_ & v & Hx)]); [|eauto]. rewrite Hx in Hlat.
      destruct Hlat as (l & _ & _ & _ & _ & Hx'). eauto.
  - split.
    + intros Hin. assert (t ∈ versions_schemas snap subject) as Ht
        by (unfold last_only in Hin; rewrite <-(take_drop (length (versions_schemas snap subject) - 1)
            (versions_schemas snap subject)), elem_of_app; by right).
      apply elem_of_versions_schemas in Ht as (v & y & Hy & _); [|done].
      destruct (version snap subject None false) as [x|] eqn:Hx.
      * rewrite (last_versions_schemas _ _ x) in Hin by done.
        apply list_elem_of_singleton in Hin as ->. eauto.
      * exfalso. apply version_spec in Hy as (e & reg & (vs & Hvs & He & Hq) & _); [|done].
        rewrite (versions_list _ _ _ _ Hvs) in Hlat.
        destruct (List.filter (qualifies false) vs) as [|e' l] eqn:Ef; [|done].
        assert (e ∈ List.filter (qualifies false) vs) as Hin' by (by apply elem_of_filter_bool).
        rewrite Ef in Hin'. by apply elem_of_nil in Hin'.
    + intros (x & -> & [Hx|[? _]]); [|done]. rewrite (last_versions_schemas _ _ x) by done.
      by apply list_elem_of_singleton.
Qed.

Lemma elem_of_foldl_messages {A} (f : A → list string) l msg :
  msg ∈ foldl (λ msgs x, msgs ++ f x) [] l ↔ ∃ x, x ∈ l ∧ msg ∈ f x.
Proof.
  enough (∀ acc, msg ∈ foldl (λ msgs x, msgs ++ f x) acc l ↔
            msg ∈ acc ∨ ∃ x, x ∈ l ∧ msg ∈ f x) as Hg by (rewrite Hg, elem_of_nil; tauto).
  induction l as [|y l IH]; intros acc; simpl.
  - split; [by left|]. intros [?|(x & ?%elem_of_nil & _)]; done.
  - rewrite IH, elem_of_app. setoid_rewrite elem_of_cons. naive_solver.
Qed.

(** The messages of an enforcement are the objections of the comparisons
    asked for. *)
Lemma elem_of_registration_messages snap subject ty candidate crefs msg :
  store_wf snap →
  msg ∈ foldl (λ msgs t, msgs ++ pair_messages snap subject ty candidate crefs t) []
          (checked_versions snap subject) ↔
  ∃ x new_reads, asked snap subject x new_reads ∧ objects snap ty candidate crefs x new_reads msg.
Proof.
  intros Hs. rewrite elem_of_foldl_messages. setoid_rewrite elem_of_checked_versions; [|done].
  assert (∀ x, msg ∈ pair_messages snap subject ty candidate crefs (schema_triple x) ↔
    ∃ new_reads : bool, (if new_reads then NewReadsOld else OldReadsNew) ∈
        directions (effective_level snap subject) ∧
      objects snap ty candidate crefs x new_reads msg) as Hpair.
  { intros x. unfold pair_messages, check_pair. rewrite elem_of_foldl_messages.
    unfold objects, closure_or_empty, direction_messages. simpl. split.
    - intros (d & Hd & Hin). exists (match d with NewReadsOld => true | OldReadsNew => false end).
      destruct d; (split; [done|]); case_match; eauto; by apply elem_of_nil in Hin.
    - intros (nr & Hd & msgs & Hin & Hc). eexists. split; [exact Hd|]. destruct nr; by rewrite Hc. }
  split.
  - intros (t & (x & -> & Hx) & (nr & Hd%asked_direction & Ho)%Hpair). exists x, nr. split; [|done].
    destruct Hx as [?|(? & v & ?)]; [by apply asked_latest|by eapply asked_live].
  - intros (x & nr & Ha & Ho). exists (schema_triple x). split; [|apply Hpair; exists nr; split; [|done]].
    + exists x. destruct Ha; eauto 6.
    + apply asked_direction. by destruct Ha.
Qed.

(** An accepted candidate passed every comparison asked for. *)
Lemma check_registration_passed snap subject ty candidate crefs x new_reads msg :
  store_wf snap → check_registration snap subject ty candidate crefs = Ok tt →
  asked snap subject x new_reads → ¬ objects snap ty candidate crefs x new_reads msg.
Proof.
  intros Hs. rewrite check_registration_messages.
  pose proof (elem_of_registration_messages snap subject ty candidate crefs msg Hs) as Hm.
  destruct (foldl _ _ _) as [|m ms]; [|done]. intros _ Ha Ho. apply (elem_of_nil msg), Hm. eauto.
Qed.

(** C9: enforcement accepts a candidate exactly when no comparison the
    configured level asks for raises an objection, and refuses it with
    [Incompatible] and exactly the objections raised. The level is the
    subject's, or else the global one, by name: BACKWARD and FULL ask that the
    candidate reads the latest live version, FORWARD and FULL that the latest
    live version reads the candidate, the _TRANSITIVE levels ask the same of
    every live version, NONE asks nothing, and any other name counts as
    BACKWARD. *)
Theorem check_registration_spec snap subject ty candidate crefs :
  store_wf snap →
  (check_registration snap subject ty candidate crefs = Ok tt ↔
     ∀ x new_reads msg, asked snap subject x new_reads →
       ¬ objects snap ty candidate crefs x new_reads msg) ∧
  (∀ e, check_registration snap subject ty candidate crefs = Err e →
     ∃ msgs, e = Incompatible msgs ∧ msgs ≠ [] ∧
       ∀ msg, msg ∈ msgs ↔ ∃ x new_reads, asked snap subject x new_reads ∧
                             objects snap ty candidate crefs x new_reads msg).
Proof.
  intros Hs. rewrite check_registration_messages.
  pose proof (λ msg, elem_of_registration_messages snap subject ty candidate crefs msg Hs) as Hm.
  destruct (foldl _ _ _) as [|m ms] eqn:E; split.
  - split; [|done]. intros _ x nr msg Ha Ho. apply (elem_of_nil msg), Hm. by exists x, nr.
  - done.
  - split; [done|]. intros Hall. destruct (Hm m) as [(x & nr & Ha & Ho) _]; [apply elem_of_cons; auto|].
    by destruct (Hall x nr m Ha).
  - intros e [= <-]. by exists (m :: ms).
Qed.

(** C10: the [/compatibility] query and enforcement agree. Unless the
    configured level is one of the _TRANSITIVE ones, asking about the latest
    version gives the verdict of a registration: compatible exactly when
    registration would accept the candidate. Under a _TRANSITIVE level
    registration accepts exactly when the query answers compatible for every
    live version. *)
Theorem query_agrees_with_enforcement snap subject ty candidate crefs vs :
  store_wf snap → versions snap subject false = Some vs →
  (¬ asks_every (configured_level snap subject) →
   check_registration snap subject ty candidate crefs = Ok tt ↔
     is_compatible <$> result_ok
       (check_against_version snap subject ty candidate crefs None) = Some true) ∧
  (asks_every (configured_level snap subject) →
   check_registration snap subject ty candidate crefs = Ok tt ↔
     ∀ v, v ∈ vs →
       is_compatible <$> result_ok
         (check_against_version snap subject ty candidate crefs (Some v)) = Some true).
Proof.
  intros Hs Hv. rewrite (proj1 (check_registration_facts _ _ _ _ _)). unfold checked_versions.
  rewrite <-level_parse_every, <-effective_level_configured.
  destruct (is_transitive (effective_level snap subject)) eqn:Ht; (split; [intros ?; try done|]; try done).
  - intros _. split.
    + intros Hall v Hin. destruct (elem_of_versions snap subject false vs v Hs Hv) as [(x & Hx) _]; [done|].
      rewrite verdict_spec by eauto. intros dir Hd. eapply Hall; [|done].
      apply elem_of_versions_schemas; [done|]. by exists v, x.
    + intros Hall vty vschema vrefs dir Hin Hd.
      apply elem_of_versions_schemas in Hin as (v & x & Hx & [= -> -> ->]); [|done].
      eapply verdict_spec; [by eexists|done| |done]. apply Hall.
      by eapply elem_of_versions.
  - pose proof (latest_version_facts snap subject false Hs) as Hlat.
    destruct (version snap subject None false) as [x|] eqn:Hx; [|congruence].
    rewrite verdict_spec by eauto. rewrite (last_versions_schemas _ _ x) by done.
    setoid_rewrite list_elem_of_singleton. split.
    + intros Hall dir Hd. by eapply (Hall _ _ _ dir eq_refl).
    + intros Hall vty vschema vrefs dir [= -> -> ->] Hd. by apply Hall.
Qed.
End with_format.

(** ** Witnesses *)

(** A format that refuses every text but its own. *)
Definition strict_format : SchemaFormat := {|
  format_parse _ schema _ := Ok schema;
  format_check _ reader writer _ _ :=
    if String.eqb reader writer then Ok tt else Err ["changed"];
  normalized_storage_form _ schema _ := Ok schema;
|}.

Lemma check_registration_spec_witness :
  @check_registration strict_format demo_store "orders" Avro "X" [] = Ok tt ∧
  @check_registration strict_format demo_store "orders" Avro "Y" [] = Err (Incompatible ["changed"]) ∧
  ∃ x, asked demo_store "orders" x true ∧ @objects strict_format demo_store Avro "Y" [] x true "changed".
Proof.
  destruct (@check_registration_spec strict_format demo_store "orders" Avro "X" [] demo_store_wf)
    as [[_ Hok] _].
  destruct (@check_registration_spec strict_format demo_store "orders" Avro "Y" [] demo_store_wf)
    as [_ Herr].
  assert (∀ x (nr : bool), asked demo_store "orders" x nr → nr = true ∧ vs_schema x = "X") as Hasked.
  { intros x nr [y nr' Hx Ha|v y nr' Ha Hx Hd].
    - vm_compute in Hx. injection Hx as <-. split; [|done]. destruct nr'; [done|].
      vm_compute in Ha. set_solver.
    - vm_compute in Ha. set_solver. }
  split_and!.
  - apply Hok. intros x nr msg [-> Hx]%Hasked (msgs & _ & Hc). rewrite Hx in Hc. done.
  - reflexivity.
  - destruct (Herr _ eq_refl) as (msgs & [= <-] & _ & Hm).
    destruct (Hm "changed") as [(x & nr & Ha & Ho) _]; [set_solver|].
    exists x. pose proof (Hasked x nr Ha) as [-> _]. done.
Defined.

Lemma query_agrees_with_enforcement_witness :
  @check_registration echo_format demo_store "orders" Avro "Y" [] = Ok tt ↔
  is_compatible <$> result_ok
    (@check_against_version echo_format demo_store "orders" Avro "Y" [] None) = Some true.
Proof.
  refine (proj1 (@query_agrees_with_enforcement echo_format demo_store "orders" Avro "Y" [] [1%Z]
           demo_store_wf eq_refl) _).
  unfold asks_every. vm_compute (configured_level _ _). set_solver.
Defined.
