(* ===== verification/Reader.v ===== *)
(** * The log reader (kafkastore/reader.rs)

    The barrier tracker, the fold of decoded records into the state, the
    rebuild of a replaced or truncated log, and the reader loop as a step
    function on [Reader], one step per answer of the broker. The broker's
    answers, the addresses and the sleeps are the environment's: events. *)

From stdpp Require Import base gmap strings list pretty sorting.
From Stdlib Require Import ZArith Lia.
From S2P Require Import Prelude Json Types Store Record.

(** The uuid crate: tokens, their text, and its parser. *)
Class UuidLib := {
  Uuid : Type;
  Uuid_eq_dec :: EqDecision Uuid;
  Uuid_countable :: Countable Uuid;
  uuid_to_string : Uuid → string;
  uuid_parse : string → option Uuid;
}.

(** ** Barriers *)

Inductive BarrierPoll := Pending | Seen | Invalidated.

Section barriers.
Context `{UuidLib}.

Record Barriers := mkBarriers {
  pending : gset Uuid;
  seen : gset Uuid;
  invalidated : gset Uuid;
}.

Definition no_barriers : Barriers := mkBarriers ∅ ∅ ∅.

(** [token] is the fresh [Uuid::new_v4()]. *)
Definition reserve (token : Uuid) (b : Barriers) : Barriers :=
  mkBarriers ({[ token ]} ∪ pending b) (seen b) (invalidated b).

Definition observe (token : Uuid) (b : Barriers) : Barriers :=
  if bool_decide (token ∈ pending b)
  then mkBarriers (pending b) ({[ token ]} ∪ seen b) (invalidated b) else b.

Definition poll (token : Uuid) (b : Barriers) : BarrierPoll * Barriers :=
  if bool_decide (token ∈ invalidated b) then
    (Invalidated, mkBarriers (pending b) (seen b) (invalidated b ∖ {[ token ]}))
  else if bool_decide (token ∈ seen b) then
    (Seen, mkBarriers (pending b ∖ {[ token ]}) (seen b ∖ {[ token ]}) (invalidated b))
  else (Pending, b).

Definition cancel (token : Uuid) (b : Barriers) : Barriers :=
  mkBarriers (pending b ∖ {[ token ]}) (seen b ∖ {[ token ]}) (invalidated b ∖ {[ token ]}).

Definition invalidate_all (b : Barriers) : Barriers :=
  mkBarriers ∅ ∅ (invalidated b ∪ pending b).
End barriers.

(** ** Fetch errors *)

Inductive ClientError :=
  | EServer (error_code : Z)
  | EConnect
  | EDisconnected
  | ETimeout
  | EIo
  | EOther.

Inductive FetchErrorAction := Reconnect | RetrySameConnection | ResetToLogStart | RefreshTopic.

#[global] Instance FetchErrorAction_eq_dec : EqDecision FetchErrorAction.
Proof. solve_decision. Defined.

Definition fetch_error_action (e : ClientError) : FetchErrorAction :=
  match e with
  | EServer code =>
      if (code =? 1)%Z then ResetToLogStart
      else if (code =? 3)%Z || (code =? 6)%Z || (code =? 100)%Z then RefreshTopic
      else RetrySameConnection
  | EConnect | EDisconnected | ETimeout | EIo => Reconnect
  | EOther => RetrySameConnection
  end.

(** [topic_route]'s choice of the topic id: an old broker reports none. *)
Definition route_topic_id (metadata_topic_id current_topic_id : Z) : Z :=
  if (metadata_topic_id =? 0)%Z then current_topic_id else metadata_topic_id.

(** ** Applying records *)

(** A record as fetched: its offset, key and value. *)
Record LogRecord := mkLogRecord {
  lr_offset : Z;
  lr_key : option string;
  lr_value : option string;
}.

Section with_libs.
Context `{SchemaFormat} `{SerdeJson} `{UuidLib}.

(** [v.get(k)?.as_str()]. *)
Definition get_str (v : json) (k : string) : option string :=
  match json_get v k with Some x => as_str x | None => None end.

Definition barrier_token (key : string) (value : option string) : option Uuid :=
  k ← from_slice_value key;
  keytype ← get_str k "keytype";
  if String.eqb keytype "NOOP" then
    match get_str k "barrier" with
    | Some token => uuid_parse token
    | None =>
        bytes ← value;
        v ← from_slice_value bytes;
        token ← get_str v "barrier";
        uuid_parse token
    end
  else None.

Definition apply_record (rec : SchemaRecord) (s : StoreState) : StoreState :=
  match rec with
  | RSchema _ v => apply_schema v s
  | RTombstone k => (permanent_delete_version (sk_subject k) (sk_version k) s).2
  | RDeleteSubject k _ => (soft_delete_subject (dk_subject k) s).2
  | RVersionHighWater k v => observe_next_version (vk_subject k) (vv_next_version v) s
  | RMode k (Some v) =>
      match mk_subject k with
      | Some subj => set_subject_mode subj (mv_mode v) s
      | None => set_global_mode (mv_mode v) s
      end
  | RMode k None =>
      match mk_subject k with
      | Some subj => clear_subject_mode subj s
      | None => clear_global_mode s
      end
  | RConfig k (Some v) =>
      match ck_subject k with
      | Some subj => set_subject_compat subj (compatibility_level v) s
      | None => set_global_compat (compatibility_level v) s
      end
  | RConfig k None =>
      match ck_subject k with
      | Some subj => clear_subject_compat subj s
      | None => s
      end
  | RNoop | RUnknown _ | RUndecodable _ => s
  end.

(** ** The reader's state *)

Record Reader := mkReader {
  rd_live : StoreState;
  rd_defaults : StoreState;
  rd_barriers : Barriers;
  rd_version : N;
  rd_next : Z;
  rd_topic_id : Z;
  rd_rebuild : option (StoreState * Z);
  rd_observed : list Uuid;
  rd_consecutive : N;
  rd_failures : N;
  rd_unknown : N;
  rd_undecodable : N;
  rd_connected : bool;
}.

(** [spawn]'s initial state. *)
Definition reader_init (topic_id : Z) (initial_state : StoreState) : Reader :=
  mkReader initial_state initial_state no_barriers 0 0 topic_id None [] 0 0 0 0 false.

Definition begin_rebuild (live defaults : StoreState) (previous : option (StoreState * Z))
    (start_offset end_offset : Z) (preserve : bool) : StoreState * option (StoreState * Z) :=
  let snapshot :=
    if preserve then
      let s := preserve_id_high_water defaults live in
      match previous with
      | Some (p, _) => preserve_id_high_water s p
      | None => s
      end
    else defaults in
  if (end_offset <=? start_offset)%Z then (snapshot, None)
  else (live, Some (snapshot, end_offset)).

Definition complete_rebuild (live : StoreState) (rebuild : option (StoreState * Z)) (next : Z)
    : StoreState * option (StoreState * Z) :=
  match rebuild with
  | Some (s, end_offset) => if (end_offset <=? next)%Z then (s, None) else (live, rebuild)
  | None => (live, None)
  end.

(** [account_unsupported]: the counters of records that were skipped. *)
Definition account_unsupported (rec : SchemaRecord) (r : Reader) : Reader :=
  let '(u, d) :=
    match rec with
    | RUnknown _ => (rd_unknown r + 1, rd_undecodable r)
    | RUndecodable _ => (rd_unknown r, rd_undecodable r + 1)
    | _ => (rd_unknown r, rd_undecodable r)
    end%N in
  mkReader (rd_live r) (rd_defaults r) (rd_barriers r) (rd_version r) (rd_next r) (rd_topic_id r)
    (rd_rebuild r) (rd_observed r) (rd_consecutive r) (rd_failures r) u d (rd_connected r).

(** One record of a fetched batch. *)
Definition fetch_record (r : Reader) (lr : LogRecord) : Reader :=
  if (lr_offset lr <? rd_next r)%Z then r
  else
    let key := default "" (lr_key lr) in
    let observed :=
      match barrier_token key (lr_value lr) with
      | Some token => rd_observed r ++ [token]
      | None => rd_observed r
      end in
    let rec := decode key (lr_value lr) in
    let r1 := account_unsupported rec r in
    let '(live, rebuild) :=
      match rd_rebuild r1 with
      | Some (s, e) => (rd_live r1, Some (apply_record rec s, e))
      | None => (apply_record rec (rd_live r1), None)
      end in
    mkReader live (rd_defaults r1) (rd_barriers r1) (rd_version r1) (rd_next r1) (rd_topic_id r1)
      rebuild observed (rd_consecutive r1) (rd_failures r1) (rd_unknown r1) (rd_undecodable r1)
      (rd_connected r1).

(** A fetch answer: the records, then the cursor and what it publishes. *)
Definition fetch_ok (records : list LogRecord) (next_offset : option Z) (r : Reader) : Reader :=
  let r1 := foldl fetch_record
    (mkReader (rd_live r) (rd_defaults r) (rd_barriers r) (rd_version r) (rd_next r)
       (rd_topic_id r) (rd_rebuild r) (rd_observed r) 0 (rd_failures r) (rd_unknown r)
       (rd_undecodable r) (rd_connected r)) records in
  match next_offset with
  | None => r1
  | Some cursor =>
      let next := Z.max (rd_next r1) cursor in
      let '(live, rebuild) := complete_rebuild (rd_live r1) (rd_rebuild r1) next in
      let '(barriers, observed, version) :=
        match rebuild with
        | None =>
            (foldl (λ b token, observe token b) (rd_barriers r1) (rd_observed r1), [],
             rd_version r1 + 1)
        | Some _ => (rd_barriers r1, rd_observed r1, rd_version r1)
        end%N in
      mkReader live (rd_defaults r1) barriers version next (rd_topic_id r1) rebuild observed
        (rd_consecutive r1) (rd_failures r1) (rd_unknown r1) (rd_undecodable r1) (rd_connected r1)
  end.

(** Field updates of the error paths. *)
Definition count_failure (r : Reader) : Reader :=
  mkReader (rd_live r) (rd_defaults r) (rd_barriers r) (rd_version r) (rd_next r) (rd_topic_id r)
    (rd_rebuild r) (rd_observed r) (rd_consecutive r + 1) (rd_failures r + 1) (rd_unknown r)
    (rd_undecodable r) (rd_connected r).
Definition set_connected (c : bool) (r : Reader) : Reader :=
  mkReader (rd_live r) (rd_defaults r) (rd_barriers r) (rd_version r) (rd_next r) (rd_topic_id r)
    (rd_rebuild r) (rd_observed r) (rd_consecutive r) (rd_failures r) (rd_unknown r)
    (rd_undecodable r) c.
Definition set_topic_id (t : Z) (r : Reader) : Reader :=
  mkReader (rd_live r) (rd_defaults r) (rd_barriers r) (rd_version r) (rd_next r) t
    (rd_rebuild r) (rd_observed r) (rd_consecutive r) (rd_failures r) (rd_unknown r)
    (rd_undecodable r) (rd_connected r).
Definition set_rebuild (start : Z) (p : StoreState * option (StoreState * Z)) (r : Reader)
    : Reader :=
  mkReader p.1 (rd_defaults r) (rd_barriers r) (rd_version r) start (rd_topic_id r)
    p.2 (rd_observed r) (rd_consecutive r) (rd_failures r) (rd_unknown r)
    (rd_undecodable r) (rd_connected r).

(** The topic was replaced: every waiter is told, nothing observed counts. *)
Definition invalidate_barriers (r : Reader) : Reader :=
  mkReader (rd_live r) (rd_defaults r) (invalidate_all (rd_barriers r)) (rd_version r + 1)
    (rd_next r) (rd_topic_id r) (rd_rebuild r) [] (rd_consecutive r) (rd_failures r)
    (rd_unknown r) (rd_undecodable r) (rd_connected r).

(** The outer loop with a connection to the leader; [bounds] is the answer of
    [log_bounds], asked only when the topic was replaced. *)
Definition connect_ok (resolved : Z) (bounds : option (Z * Z)) (r : Reader) : Reader :=
  if negb (rd_topic_id r =? 0)%Z && negb (resolved =? rd_topic_id r)%Z then
    let r1 := invalidate_barriers r in
    match bounds with
    | Some (start, end_offset) =>
        set_connected true (set_topic_id resolved
          (set_rebuild start
             (begin_rebuild (rd_live r1) (rd_defaults r1) None start end_offset false) r1))
    | None => count_failure r1
    end
  else set_connected true (set_topic_id resolved r).

(** A failed fetch; [bounds] is asked only for a reset to the log start. *)
Definition fetch_err (e : ClientError) (bounds : option (Z * Z)) (r : Reader) : Reader :=
  let action := fetch_error_action e in
  let r1 := count_failure r in
  let finish r :=
    match action with
    | Reconnect | RefreshTopic => set_connected false r
    | _ => r
    end in
  match action with
  | ResetToLogStart =>
      match bounds with
      | Some (start, end_offset) =>
          finish (set_rebuild start
            (begin_rebuild (rd_live r1) (rd_defaults r1) (rd_rebuild r1) start end_offset true) r1)
      | None => set_connected false (count_failure r1)
      end
  | _ => finish r1
  end.

Inductive ReaderEvent :=
  | ConnectOk (resolved : Z) (bounds : option (Z * Z))
  | ConnectErr
  | FetchOk (records : list LogRecord) (next_offset : option Z)
  | FetchErr (e : ClientError) (bounds : option (Z * Z)).

(** One turn of the loop. [None]: the event does not fit the loop's place. *)
Definition reader_step (ev : ReaderEvent) (r : Reader) : option Reader :=
  match ev, rd_connected r with
  | ConnectOk resolved bounds, false => Some (connect_ok resolved bounds r)
  | ConnectErr, false => Some (count_failure r)
  | FetchOk records next_offset, true => Some (fetch_ok records next_offset r)
  | FetchErr e bounds, true => Some (fetch_err e bounds r)
  | _, _ => None
  end.

(** What the waiters of the write path do to the shared tracker. *)
Inductive WaiterEvent :=
  | WReserve (token : Uuid)
  | WPoll (token : Uuid)
  | WCancel (token : Uuid).

Definition set_barriers (b : Barriers) (r : Reader) : Reader :=
  mkReader (rd_live r) (rd_defaults r) b (rd_version r) (rd_next r) (rd_topic_id r)
    (rd_rebuild r) (rd_observed r) (rd_consecutive r) (rd_failures r) (rd_unknown r)
    (rd_undecodable r) (rd_connected r).

Definition waiter_step (ev : WaiterEvent) (r : Reader) : Reader :=
  set_barriers
    (match ev with
     | WReserve token => reserve token (rd_barriers r)
     | WPoll token => (poll token (rd_barriers r)).2
     | WCancel token => cancel token (rd_barriers r)
     end) r.
End with_libs.
