(* ===== verification/ReaderFacts.v ===== *)
(** * Correctness of the log reader (kafkastore/reader.rs)

    Whatever bytes the topic holds, the live state stays well formed; when the
    broker serves one log per topic, the live state is the replay of a prefix
    of it, and a waiter is released only once that prefix covers its barrier. *)

From stdpp Require Import base gmap strings list pretty sorting.
From Stdlib Require Import ZArith Lia.
From S2P Require Import Prelude Json Types Store Closure StoreFacts StoreSpec StoreQueries Record RecordFacts Reader.

(** ** Decoded numbers are in range *)

Definition record_i32 (rec : SchemaRecord) : Prop :=
  match rec with
  | RSchema _ v => value_i32 v
  | RTombstone k => in_i32 (sk_version k)
  | RVersionHighWater _ v => in_i32 (vv_next_version v)
  | _ => True
  end.

Lemma de_i32_range v n : de_i32 v = Some n → in_i32 n.
Proof.
  unfold de_i32, de_int, in_i32. intros Hd. repeat case_match; simplify_eq; lia.
Qed.

Ltac de_inv :=
  repeat match goal with
    | Hb : mbind _ _ = Some _ |- _ => apply bind_Some in Hb as (? & ? & Hb)
    | Hb : fmap _ _ = Some _ |- _ => apply fmap_Some in Hb as (? & Hb & ?)
    end.

Lemma de_SchemaKey_i32 v k : de_SchemaKey v = Some k → in_i32 (sk_version k).
Proof.
  unfold de_SchemaKey. intros Hd. de_inv. simplify_eq/=. eauto using de_i32_range.
Qed.

Lemma de_SchemaValue_i32 v x : de_SchemaValue v = Some x → value_i32 x.
Proof.
  unfold de_SchemaValue. destruct v; try done. intros Hd. de_inv. simplify_eq/=.
  split; simpl; eauto using de_i32_range.
Qed.

Lemma de_VersionHighWaterValue_i32 v x :
  de_VersionHighWaterValue v = Some x → in_i32 (vv_next_version x).
Proof.
  unfold de_VersionHighWaterValue. intros Hd. de_inv. simplify_eq/=. eauto using de_i32_range.
Qed.

Section with_libs.
Context `{SchemaFormat} `{SerdeJson} `{UuidLib}.

Lemma decode_i32 key value : record_i32 (decode key value).
Proof.
  assert (∀ A (de : json → option A) b x, from_slice de b = Some x → ∃ v, de v = Some x) as Hfs.
  { unfold from_slice. intros A de b x (v & _ & Hv)%bind_Some. eauto. }
  unfold decode, decode_kv.
  repeat case_match; simplify_eq; try done; simpl.
  all: repeat match goal with
    | E : from_slice _ _ = Some _ |- _ => apply Hfs in E as [? E]
    | E : (_ ≫= _) = Some _ |- _ => apply bind_Some in E as (? & ? & E)
    end; eauto using de_SchemaKey_i32, de_SchemaValue_i32, de_VersionHighWaterValue_i32.
Qed.

Lemma apply_record_wf rec s : record_i32 rec → store_wf s → store_wf (apply_record rec s).
Proof.
  destruct rec as [k v|k [v|]|k [v|]|k v|k v|k| | |]; simpl; intros Hi Hs;
    try (by apply apply_schema_preserves); auto with krabka;
    repeat case_match; auto; try (by apply set_compat_fields_wf); by apply set_mode_fields_wf.
Qed.

(** The fold of a list of fetched records. *)
Definition apply_log (s : StoreState) (l : list LogRecord) : StoreState :=
  foldl (λ s lr, apply_record (decode (default "" (lr_key lr)) (lr_value lr)) s) s l.

(** Replay is safe on any topic content. Folding any sequence of byte
    records (foreign, undecodable or hostile ones included) into a well-formed
    state gives a well-formed state. *)
Theorem replay_wf s l : store_wf s → store_wf (apply_log s l).
Proof.
  unfold apply_log. revert s. induction l as [|lr l IH]; intros s Hs; simpl; [done|].
  apply IH, apply_record_wf; [apply decode_i32|done].
Qed.

(** ** Barriers *)

(** A waiter's protocol. A token that is not reserved is never released; a
    cancelled one stays pending whatever is observed later; a reserved token
    is released by its own observation, once; and a replaced topic releases
    every waiter with [Invalidated], whatever had been observed. *)
Theorem barrier_protocol (b : Barriers) (t : Uuid) (others : list Uuid) :
  let observed b ts := foldl (λ b t, observe t b) b ts in
  (t ∉ pending b → t ∉ seen b → t ∉ invalidated b →
     (poll t (observed b others)).1 = Pending) ∧
  (poll t (observed (cancel t b) others)).1 = Pending ∧
  (t ∉ invalidated b → (poll t (observe t (reserve t b))).1 = Seen ∧
     (poll t (poll t (observe t (reserve t b))).2).1 = Pending) ∧
  (poll t (invalidate_all (observed (reserve t b) others))).1 = Invalidated.
Proof.
  simpl.
  assert (∀ b ts, pending (foldl (λ b t, observe t b) b ts) = pending b ∧
                  invalidated (foldl (λ b t, observe t b) b ts) = invalidated b ∧
                  (t ∉ pending b → t ∉ seen b → t ∉ seen (foldl (λ b t, observe t b) b ts))) as Hobs.
  { intros b' ts. revert b'. induction ts as [|u ts IH]; intros b'; simpl; [done|].
    destruct (IH (observe u b')) as (Hp & Hi & Hs). rewrite Hp, Hi.
    assert (pending (observe u b') = pending b' ∧ invalidated (observe u b') = invalidated b') as [-> ->]
      by (unfold observe; by case_bool_decide).
    split_and!; [done..|]. intros Hnp Hns. apply Hs.
    - unfold observe. by case_bool_decide.
    - unfold observe. case_bool_decide as Hu; simpl; [|done].
      rewrite elem_of_union, elem_of_singleton. intros [->|]; done. }
  assert (∀ b, t ∉ seen b → t ∉ invalidated b → (poll t b).1 = Pending) as Hpoll.
  { intros b' Hs Hi. unfold poll. rewrite bool_decide_eq_false_2 by done.
    by rewrite bool_decide_eq_false_2. }
  split_and!.
  - intros Hp Hs Hi. destruct (Hobs b others) as (_ & Hi' & Hs').
    apply Hpoll; [by apply Hs'|by rewrite Hi'].
  - destruct (Hobs (cancel t b) others) as (_ & Hi & Hs).
    apply Hpoll; [apply Hs|rewrite Hi]; simpl; rewrite elem_of_difference, elem_of_singleton; tauto.
  - intros Hi. unfold observe, reserve. simpl.
    rewrite bool_decide_eq_true_2 by (rewrite elem_of_union, elem_of_singleton; auto).
    unfold poll at 1 3. simpl. rewrite bool_decide_eq_false_2 by done.
    rewrite bool_decide_eq_true_2 by (rewrite elem_of_union, elem_of_singleton; auto). simpl.
    split; [done|]. apply Hpoll; simpl; [|done].
    rewrite elem_of_difference, elem_of_singleton. tauto.
  - destruct (Hobs (reserve t b) others) as (Hp & _ & _). unfold poll, invalidate_all. simpl.
    rewrite Hp, bool_decide_eq_true_2; [done|]. simpl.
    rewrite !elem_of_union, elem_of_singleton. auto.
Qed.

(** ** One log per topic *)

Section one_log.
(** The committed records of each topic incarnation, in offset order. *)
Context (logs : Z → list LogRecord).
Context (logs_sorted : ∀ t, StronglySorted (λ a b, (lr_offset a < lr_offset b)%Z) (logs t)).
Context (logs_nonneg : ∀ t lr, lr ∈ logs t → (0 ≤ lr_offset lr)%Z).

(** The records before [n], and those from [m] on. *)
Definition below (n : Z) (l : list LogRecord) : list LogRecord :=
  List.filter (λ lr, (lr_offset lr <? n)%Z) l.
Definition between (m n : Z) (l : list LogRecord) : list LogRecord :=
  List.filter (λ lr, (m <=? lr_offset lr)%Z && (lr_offset lr <? n)%Z) l.

Lemma below_split m n l :
  StronglySorted (λ a b, (lr_offset a < lr_offset b)%Z) l → (m ≤ n)%Z →
  below n l = below m l ++ between m n l.
Proof.
  intros Hs Hmn. induction Hs as [|x l Hs IH Hall]; [done|].
  unfold below, between in *. simpl. destruct (lr_offset x <? m)%Z eqn:E.
  - rewrite (proj2 (Z.ltb_lt _ _)) by lia. rewrite (proj2 (Z.leb_gt _ _)) by lia. simpl.
    by rewrite IH.
  - rewrite (proj2 (Z.leb_le _ _)) by lia. simpl.
    assert (List.filter (λ lr, (lr_offset lr <? m)%Z) l = []) as Hnil.
    { apply filter_nil_iff. intros y Hy. rewrite Forall_forall in Hall.
      specialize (Hall y Hy). simpl in Hall. lia. }
    rewrite Hnil in *. simpl in *. destruct (lr_offset x <? n)%Z; by rewrite IH.
Qed.

Lemma below_start n l : (∀ lr, lr ∈ l → (n ≤ lr_offset lr)%Z) → below n l = [].
Proof. intros Hl. apply filter_nil_iff. intros x Hx. specialize (Hl x Hx). lia. Qed.

(** The end up to which the pending work of the reader reaches. *)
Definition horizon (r : Reader) : Z :=
  match rd_rebuild r with Some (_, e) => Z.max (rd_next r) e | None => rd_next r end.

(** What the environment promises: a fetch from [next] that moves the cursor
    returns the log's records up to it (older ones may precede them, as a
    batch starts where it starts); log bounds are true, and a log's end does
    not move back. *)
Definition event_ok (r : Reader) (ev : ReaderEvent) : Prop :=
  match ev with
  | ConnectOk resolved bounds =>
      resolved ≠ 0%Z ∧
      ∀ start e, bounds = Some (start, e) → ∀ lr, lr ∈ logs resolved → (start ≤ lr_offset lr)%Z
  | ConnectErr => True
  | FetchOk records next_offset =>
      List.filter (λ lr, negb (lr_offset lr <? rd_next r)%Z) records =
      match next_offset with
      | Some cursor => between (rd_next r) (Z.max (rd_next r) cursor) (logs (rd_topic_id r))
      | None => []
      end
  | FetchErr e bounds =>
      ∀ start e, bounds = Some (start, e) → (horizon r ≤ e)%Z ∧
        ∀ lr, lr ∈ logs (rd_topic_id r) → (start ≤ lr_offset lr)%Z
  end.

(** A step of the reader task or of a waiter. *)
Inductive rstep (r : Reader) : Reader → Prop :=
  | rstep_reader ev r' : event_ok r ev → reader_step ev r = Some r' → rstep r r'
  | rstep_waiter ev : rstep r (waiter_step ev r).

(** The state a reader builds up to [n]: the replay of the log below [n] over
    the defaults, the id high-water mark possibly kept from before. *)
Definition replayed (r : Reader) (n : Z) (s : StoreState) : Prop :=
  ∃ m, s = apply_log (set_max_id m (rd_defaults r)) (below n (logs (rd_topic_id r))).

(** [token]'s barrier record is in the log before [n]. *)
Definition ordered_below (r : Reader) (token : Uuid) (n : Z) : Prop :=
  ∃ lr, lr ∈ logs (rd_topic_id r) ∧ (lr_offset lr < n)%Z ∧
        barrier_token (default "" (lr_key lr)) (lr_value lr) = Some token.

Definition current (r : Reader) : StoreState :=
  match rd_rebuild r with Some (s, _) => s | None => rd_live r end.

Record reader_inv (r : Reader) : Prop := {
  inv_topic : rd_topic_id r ≠ 0%Z;
  inv_current : replayed r (rd_next r) (current r);
  inv_seen : ∀ t, t ∈ seen (rd_barriers r) →
    ∃ n, (n ≤ horizon r)%Z ∧ replayed r n (rd_live r) ∧ ordered_below r t n;
  inv_observed : ∀ t, t ∈ rd_observed r → ordered_below r t (horizon r);
}.

Lemma ordered_below_mono r t n n' : (n ≤ n')%Z → ordered_below r t n → ordered_below r t n'.
Proof. intros Hle (lr & Hin & Hlt & Ht). exists lr. split_and!; [done|lia|done]. Qed.

(** *** The batch *)

Lemma apply_log_app s l1 l2 : apply_log s (l1 ++ l2) = apply_log (apply_log s l1) l2.
Proof. apply foldl_app. Qed.

(** Folding a batch only looks at the records from [next] on. *)
Lemma foldl_fetch_record records r :
  let l := List.filter (λ lr, negb (lr_offset lr <? rd_next r)%Z) records in
  let r' := foldl fetch_record r records in
  (rd_next r', rd_topic_id r', rd_defaults r', rd_barriers r', rd_version r', rd_connected r') =
  (rd_next r, rd_topic_id r, rd_defaults r, rd_barriers r, rd_version r, rd_connected r) ∧
  current r' = apply_log (current r) l ∧
  (snd <$> rd_rebuild r') = (snd <$> rd_rebuild r) ∧
  (is_Some (rd_rebuild r) → rd_live r' = rd_live r) ∧
  (∀ t, t ∈ rd_observed r' → t ∈ rd_observed r ∨
     ∃ lr, lr ∈ l ∧ barrier_token (default "" (lr_key lr)) (lr_value lr) = Some t).
Proof.
  simpl. revert r. induction records as [|lr records IH]; intros r; simpl; [by auto 8|].
  destruct (IH (fetch_record r lr)) as (Hf & Hc & Hr & Hl & Ho). clear IH.
  unfold fetch_record in *. destruct (lr_offset lr <? rd_next r)%Z eqn:E; simpl.
  { split_and!; done. }
  set (rec := decode _ _) in *.
  assert (rd_rebuild (account_unsupported rec r) = rd_rebuild r ∧
    rd_live (account_unsupported rec r) = rd_live r ∧
    (rd_next (account_unsupported rec r), rd_topic_id (account_unsupported rec r),
     rd_defaults (account_unsupported rec r), rd_barriers (account_unsupported rec r),
     rd_version (account_unsupported rec r), rd_connected (account_unsupported rec r)) =
    (rd_next r, rd_topic_id r, rd_defaults r, rd_barriers r, rd_version r, rd_connected r))
    as (Har & Hal & [= Ha1 Ha2 Ha3 Ha4 Ha5 Ha6]) by (by destruct rec).
  rewrite Har, Hal, ?Ha1, ?Ha2, ?Ha3, ?Ha4, ?Ha5, ?Ha6 in *.
  destruct (rd_rebuild r) as [[s e]|] eqn:Hreb; simpl in *;
    (split_and!; [done| | | |]);
    try done; try (by intros [? ?]).
  - rewrite Hc. unfold current. simpl. by rewrite Hreb.
  - intros _. by rewrite Hl.
  - intros t [Ht|(lr' & Hin & Ht)]%Ho; [|right; exists lr'; split; [apply elem_of_cons; auto|done]].
    destruct (barrier_token _ _) as [u|] eqn:Eu; [|auto].
    apply elem_of_app in Ht as [Ht| ->%list_elem_of_singleton]; [auto|].
    right. exists lr. split; [apply elem_of_cons; auto|done].
  - rewrite Hc. unfold current. simpl. by rewrite Hreb.
  - intros t [Ht|(lr' & Hin & Ht)]%Ho; [|right; exists lr'; split; [apply elem_of_cons; auto|done]].
    destruct (barrier_token _ _) as [u|] eqn:Eu; [|auto].
    apply elem_of_app in Ht as [Ht| ->%list_elem_of_singleton]; [auto|].
    right. exists lr. split; [apply elem_of_cons; auto|done].
Qed.

Lemma seen_foldl_observe ts b t :
  t ∈ seen (foldl (λ b t, observe t b) b ts) → t ∈ seen b ∨ t ∈ ts.
Proof.
  revert b. induction ts as [|u ts IH]; intros b; simpl; [auto|].
  intros [Ht|Ht]%IH; [|right; apply elem_of_cons; auto].
  unfold observe in Ht. case_bool_decide; [|auto]. simpl in Ht.
  apply elem_of_union in Ht as [->%elem_of_singleton|]; [right; apply elem_of_cons; auto|auto].
Qed.

Lemma horizon_next r : (rd_next r ≤ horizon r)%Z.
Proof. unfold horizon. destruct (rd_rebuild r) as [[? ?]|]; lia. Qed.

(** The reader after the records of a batch, before the cursor moves. *)
Definition batch (records : list LogRecord) (r : Reader) : Reader :=
  foldl fetch_record
    (mkReader (rd_live r) (rd_defaults r) (rd_barriers r) (rd_version r) (rd_next r)
       (rd_topic_id r) (rd_rebuild r) (rd_observed r) 0 (rd_failures r) (rd_unknown r)
       (rd_undecodable r) (rd_connected r)) records.

Lemma batch_inv records r next' :
  reader_inv r → (rd_next r ≤ next')%Z →
  List.filter (λ lr, negb (lr_offset lr <? rd_next r)%Z) records =
    between (rd_next r) next' (logs (rd_topic_id r)) →
  let r1 := batch records r in
  rd_next r1 = rd_next r ∧ rd_topic_id r1 = rd_topic_id r ∧ rd_defaults r1 = rd_defaults r ∧
  rd_barriers r1 = rd_barriers r ∧ (snd <$> rd_rebuild r1) = (snd <$> rd_rebuild r) ∧
  replayed r next' (current r1) ∧ (is_Some (rd_rebuild r) → rd_live r1 = rd_live r) ∧
  (∀ t, t ∈ rd_observed r1 → ordered_below r t (Z.max next' (horizon r))).
Proof.
  intros Hinv Hle Hrec. simpl. unfold batch. set (r0 := mkReader _ _ _ _ _ _ _ _ _ _ _ _ _).
  destruct (foldl_fetch_record records r0) as ([= ? ? ? ? ? ?] & Hc & Hr & Hl & Ho).
  change (rd_next r0) with (rd_next r) in *. rewrite Hrec in *. split_and!; [done..| |done|].
  - destruct (inv_current _ Hinv) as [m Hm]. exists m. rewrite Hc.
    change (current r0) with (current r). by rewrite Hm, <-apply_log_app, <-below_split.
  - intros t [Ht|(lr & Hin & Ht)]%Ho.
    + eapply ordered_below_mono; [|by apply (inv_observed _ Hinv)]. lia.
    + apply elem_of_filter_bool in Hin as [Hin Hb]. exists lr. split_and!; [done|lia|done].
Qed.

Lemma complete_rebuild_cases live rebuild next :
  (complete_rebuild live rebuild next = (match rebuild with Some (s, _) => s | None => live end, None) ∧
   (∀ s e, rebuild = Some (s, e) → (e ≤ next)%Z)) ∨
  (∃ s e, rebuild = Some (s, e) ∧ (next < e)%Z ∧
          complete_rebuild live rebuild next = (live, Some (s, e))).
Proof.
  destruct rebuild as [[s e]|]; simpl; [|by left].
  destruct (e <=? next)%Z eqn:E; [left|right].
  - split; [done|]. intros ? ? [= <- <-]. lia.
  - exists s, e. split_and!; [done|lia|done].
Qed.

(** The invariant looks at these parts only; losing observations and seen
    tokens keeps it. *)
Lemma reader_inv_ext r r' :
  rd_topic_id r' = rd_topic_id r → rd_defaults r' = rd_defaults r → rd_next r' = rd_next r →
  current r' = current r → rd_live r' = rd_live r →
  (snd <$> rd_rebuild r') = (snd <$> rd_rebuild r) →
  seen (rd_barriers r') ⊆ seen (rd_barriers r) →
  (∀ t, t ∈ rd_observed r' → t ∈ rd_observed r) →
  reader_inv r → reader_inv r'.
Proof.
  intros Ht Hd Hn Hc Hl Hr Hs Ho [Htop Hcur Hseen Hobs].
  assert (horizon r' = horizon r) as Hh.
  { unfold horizon. rewrite Hn.
    destruct (rd_rebuild r) as [[]|], (rd_rebuild r') as [[]|]; simpl in Hr; congruence. }
  split; unfold replayed, ordered_below in *; rewrite ?Ht, ?Hd, ?Hn, ?Hc, ?Hl, ?Hh; auto.
Qed.

Lemma fetch_idle_inv records r :
  reader_inv r → event_ok r (FetchOk records None) → reader_inv (fetch_ok records None r).
Proof.
  intros Hinv Hev. unfold fetch_ok. set (r0 := mkReader _ _ _ _ _ _ _ _ _ _ _ _ _).
  destruct (foldl_fetch_record records r0) as ([= Hn Ht Hd Hb _ _] & Hc & Hr & Hl & Ho).
  simpl in Hev. change (rd_next r0) with (rd_next r) in *. rewrite Hev in *.
  apply (reader_inv_ext r); try done.
  - change (rd_live r) with (rd_live r0). unfold current in Hc.
    destruct (rd_rebuild r0) as [[]|] eqn:E; [apply Hl; eauto|].
    destruct (rd_rebuild (foldl fetch_record r0 records)) as [[]|]; [done|]. exact Hc.
  - by rewrite Hb.
  - intros t [Ht'|(lr & Hin%elem_of_nil & _)]%Ho; done.
Qed.

Lemma fetch_move_inv records cursor r :
  reader_inv r → event_ok r (FetchOk records (Some cursor)) →
  reader_inv (fetch_ok records (Some cursor) r).
Proof.
  intros Hinv Hrec. unfold fetch_ok. fold (batch records r). simpl in Hrec.
  set (next' := Z.max (rd_next r) cursor) in *.
  destruct (batch_inv records r next' Hinv ltac:(lia) Hrec)
    as (Hn & Ht & Hd & Hb & Hreb & Hcur & Hlive & Hobs).
  set (r1 := batch records r) in *.
  assert (horizon r = match rd_rebuild r1 with Some (_, e) => Z.max (rd_next r) e | None => rd_next r end)
    as Hh by (unfold horizon; destruct (rd_rebuild r) as [[]|], (rd_rebuild r1) as [[]|];
              simpl in Hreb; congruence).
  rewrite Hn. fold next'. destruct (complete_rebuild_cases (rd_live r1) (rd_rebuild r1) next')
    as [[-> Hend]|(s & e & Hs & Hlt & ->)].
  - assert (Z.max next' (horizon r) = next') as Hmax.
    { rewrite Hh. destruct (rd_rebuild r1) as [[s e]|]; [|lia]. specialize (Hend s e eq_refl). lia. }
    rewrite Hmax in Hobs. split; simpl; unfold replayed, ordered_below, horizon; simpl.
    + rewrite Ht. apply Hinv.
    + rewrite Ht, Hd. exact Hcur.
    + intros t Hin. exists next'. split; [done|]. rewrite Ht, Hd. split; [exact Hcur|].
      rewrite Hb in Hin. apply seen_foldl_observe in Hin as [Hin|Hin]; [|by apply Hobs].
      destruct (inv_seen _ Hinv t Hin) as (n & Hle' & _ & Hord).
      eapply ordered_below_mono; [|done]. lia.
    + by intros t ?%elem_of_nil.
  - assert (Z.max next' (horizon r) = Z.max next' e) as Hmax by (rewrite Hh, Hs; lia).
    rewrite Hmax in Hobs.
    assert (is_Some (rd_rebuild r)) as Hsome
      by (rewrite Hs in Hreb; destruct (rd_rebuild r) as [[]|]; [eauto|done]).
    split; simpl; unfold replayed, ordered_below, horizon; simpl.
    + rewrite Ht. apply Hinv.
    + rewrite Ht, Hd. unfold current in *. rewrite Hs in Hcur. exact Hcur.
    + rewrite Hb. intros t Hin. rewrite Hlive, Ht, Hd by done.
      destruct (inv_seen _ Hinv t Hin) as (n & Hle' & Hrep & Hord). exists n. split; [lia|]. auto.
    + intros t Hin. rewrite Ht. by apply Hobs.
Qed.

(** *** Rebuilds *)

Lemma begin_rebuild_snapshot live defaults previous start e preserve :
  ∃ m, begin_rebuild live defaults previous start e preserve =
    if (e <=? start)%Z then (set_max_id m defaults, None)
    else (live, Some (set_max_id m defaults, e)).
Proof.
  unfold begin_rebuild. destruct preserve.
  - destruct previous as [[p ?]|]; eexists; reflexivity.
  - exists (max_id defaults). by destruct defaults.
Qed.

(** The state right after a rebuild starts at the log's first offset. *)
Lemma rebuild_current r start e previous preserve :
  (∀ lr, lr ∈ logs (rd_topic_id r) → (start ≤ lr_offset lr)%Z) →
  let r' := set_rebuild start
    (begin_rebuild (rd_live r) (rd_defaults r) previous start e preserve) r in
  replayed r' (rd_next r') (current r') ∧ horizon r' = Z.max start e ∧
  ((start < e)%Z → rd_live r' = rd_live r).
Proof.
  intros Hstart. simpl.
  destruct (begin_rebuild_snapshot (rd_live r) (rd_defaults r) previous start e preserve) as [m ->].
  destruct (e <=? start)%Z eqn:E; unfold replayed, current, horizon; simpl; split_and!;
    try lia; try done; exists m; by rewrite below_start.
Qed.

Lemma connect_ok_inv resolved bounds r :
  reader_inv r → event_ok r (ConnectOk resolved bounds) → reader_inv (connect_ok resolved bounds r).
Proof.
  intros Hinv [Hres Hb]. unfold connect_ok.
  destruct (negb (rd_topic_id r =? 0)%Z && negb (resolved =? rd_topic_id r)%Z) eqn:Hch.
  - destruct bounds as [[start e]|].
    + specialize (Hb start e eq_refl). set (r1 := set_topic_id resolved (invalidate_barriers r)).
      destruct (rebuild_current r1 start e None false Hb) as (Hcur & Hh & _).
      split; [done|exact Hcur| |]; simpl; [by intros t ?%elem_of_empty|by intros t ?%elem_of_nil].
    + apply (reader_inv_ext r); try done; simpl; by intros t ?%elem_of_nil.
  - assert (resolved = rd_topic_id r) as ->.
    { pose proof (inv_topic _ Hinv). apply andb_false_iff in Hch as [Hch|Hch];
        apply negb_false_iff, Z.eqb_eq in Hch; done. }
    by apply (reader_inv_ext r).
Qed.

Lemma fetch_reset_inv start e r :
  reader_inv r → (horizon r ≤ e)%Z →
  (∀ lr, lr ∈ logs (rd_topic_id r) → (start ≤ lr_offset lr)%Z) →
  reader_inv (set_rebuild start
    (begin_rebuild (rd_live r) (rd_defaults r) (rd_rebuild r) start e true) r).
Proof.
  intros Hinv He Hstart.
  destruct (rebuild_current r start e (rd_rebuild r) true Hstart) as (Hcur & Hh & Hlive).
  split; [apply Hinv|exact Hcur| |].
  - intros t Hin. destruct (inv_seen _ Hinv t Hin) as (n & Hle & Hrep & lr & Hl & Hlt & Ht).
    destruct (decide (start < e)%Z) as [Hse|Hse].
    + exists n. rewrite Hh, Hlive by done. split_and!; [lia|exact Hrep|by exists lr].
    + specialize (Hstart lr Hl). lia.
  - intros t Hin. rewrite Hh. apply (ordered_below_mono _ _ (horizon r)); [lia|].
    by apply (inv_observed _ Hinv).
Qed.

Lemma fetch_err_inv err bounds r :
  reader_inv r → event_ok r (FetchErr err bounds) → reader_inv (fetch_err err bounds r).
Proof.
  intros Hinv Hev. simpl in Hev.
  assert (reader_inv (count_failure r)) as Hc by (by apply (reader_inv_ext r)).
  assert (∀ c r, reader_inv r → reader_inv (set_connected c r)) as Hset
    by (intros c r' ?; by apply (reader_inv_ext r')).
  unfold fetch_err. destruct (fetch_error_action err); auto.
  destruct bounds as [[start e]|].
  - destruct (Hev start e eq_refl) as [He Hstart]. by apply fetch_reset_inv.
  - apply Hset. by apply (reader_inv_ext r).
Qed.

Lemma waiter_step_inv ev r : reader_inv r → reader_inv (waiter_step ev r).
Proof.
  intros Hinv. apply (reader_inv_ext r); try done. simpl.
  destruct ev as [t|t|t]; simpl; [done| |set_solver].
  unfold poll. repeat case_bool_decide; simpl; set_solver.
Qed.

Lemma rstep_inv r r' : rstep r r' → reader_inv r → reader_inv r'.
Proof.
  destruct 1 as [ev r' Hev Hs|ev]; intros Hinv; [|by apply waiter_step_inv].
  unfold reader_step in Hs. destruct ev as [resolved bounds| |records [c|]|e bounds];
    destruct (rd_connected r); simplify_eq/=.
  - by apply connect_ok_inv.
  - by apply (reader_inv_ext r).
  - by apply fetch_move_inv.
  - by apply fetch_idle_inv.
  - by apply fetch_err_inv.
Qed.

Lemma reader_init_inv topic_id defaults :
  topic_id ≠ 0%Z → reader_inv (reader_init topic_id defaults).
Proof.
  intros Ht. split; simpl; [done| |by intros t ?%elem_of_empty|by intros t ?%elem_of_nil].
  exists (max_id defaults). unfold current. simpl.
  rewrite below_start by apply logs_nonneg. by destruct defaults.
Qed.

(** C12: read-your-writes. Along any run of the reader and its waiters, against
    a broker that serves one committed log per topic: when a waiter's poll
    answers [Seen], the live state is the replay of a prefix of the topic's
    log that contains the waiter's barrier record, so every record ordered
    before the barrier is applied; and whenever no rebuild is pending, the
    live state is the replay of everything below the fetch position. *)
Theorem read_your_writes topic_id defaults r :
  topic_id ≠ 0%Z → rtc rstep (reader_init topic_id defaults) r →
  (rd_rebuild r = None → replayed r (rd_next r) (rd_live r)) ∧
  ∀ t, (poll t (rd_barriers r)).1 = Seen →
    ∃ n, replayed r n (rd_live r) ∧ ordered_below r t n.
Proof.
  intros Htop Hrun.
  assert (reader_inv r) as Hinv.
  { pose proof (reader_init_inv topic_id defaults Htop) as Hi. revert Hi.
    induction Hrun; eauto using rstep_inv. }
  split.
  - intros Hnone. pose proof (inv_current _ Hinv) as Hc. unfold current in Hc. by rewrite Hnone in Hc.
  - intros t Hp. unfold poll in Hp. case_bool_decide; [done|]. case_bool_decide as Hs; [|done].
    destruct (inv_seen _ Hinv t Hs) as (n & _ & ? & ?). eauto.
Qed.
End one_log.
End with_libs.

(** ** Witnesses *)

(** Tokens as their own text. *)
Definition string_uuid : UuidLib := {|
  Uuid := string;
  uuid_to_string s := s;
  uuid_parse s := Some s;
|}.

Section witnesses.
#[local] Existing Instance echo_format.
#[local] Existing Instance tree_serde.
#[local] Existing Instance string_uuid.

Definition barrier_record : LogRecord :=
  mkLogRecord 0 (Some (json_print (JObject [("keytype", JString "NOOP"); ("barrier", JString "t")])))
    (Some "").

Definition demo_token : @Uuid string_uuid := "t".

Definition one_barrier_log (topic : Z) : list LogRecord := [barrier_record].

Lemma replay_wf_witness : store_wf (apply_log default_store [barrier_record]).
Proof. apply replay_wf. apply default_store_wf. Defined.

Definition demo_reader : Reader :=
  fetch_ok [barrier_record] (Some 1%Z)
    (connect_ok 1 None (waiter_step (WReserve demo_token) (reader_init 1 default_store))).

Lemma read_your_writes_witness :
  ∃ n, replayed one_barrier_log demo_reader n (rd_live demo_reader) ∧
       ordered_below one_barrier_log demo_reader demo_token n.
Proof.
  refine (proj2 (read_your_writes one_barrier_log _ _ 1 default_store demo_reader _ _) demo_token _).
  - intros t. repeat constructor.
  - intros t lr ->%list_elem_of_singleton. simpl. lia.
  - lia.
  - eapply rtc_l; [apply (rstep_waiter _ _ (WReserve demo_token))|].
    eapply rtc_l; [apply (rstep_reader _ _ (ConnectOk 1 None)); [split; [lia|done]|reflexivity]|].
    eapply rtc_l; [|apply rtc_refl].
    apply (rstep_reader _ _ (FetchOk [barrier_record] (Some 1%Z))); [vm_compute; reflexivity|vm_compute; reflexivity].
  - vm_compute. reflexivity.
Defined.
End witnesses.
