(* ===== verification/Broker.v ===== *)
(** * The reader's connections (kafkastore/reader.rs, election/client.rs)

    How the reader finds the leader of the schemas topic's partition, asks for the
    bounds of its log, and holds and closes connections around its loop; and how the election
    finds its coordinator. The network is a state that every call may change. *)

From stdpp Require Import base gmap strings list relations.
From Stdlib Require Import ZArith Lia Ascii.
From S2P Require Import Prelude Text Json Types Store Record Reader.

#[local] Open Scope Z_scope.

(** ** Answers of the broker *)

Record PartitionMetadata := mkPartitionMetadata {
  pm_index : Z;
  pm_error_code : Z;
  pm_leader_id : Z;
}.

Record TopicMetadata := mkTopicMetadata {
  tm_name : option string;
  tm_error_code : Z;
  tm_topic_id : Z;
  tm_partitions : list PartitionMetadata;
}.

Record BrokerMetadata := mkBrokerMetadata {
  bm_node_id : Z;
  bm_host : string;
  bm_port : Z;
}.

Record MetadataResponse := mkMetadata {
  md_topics : list TopicMetadata;
  md_brokers : list BrokerMetadata;
}.

Record OffsetPartition := mkOffsetPartition {
  op_index : Z;
  op_error_code : Z;
  op_offset : Z;
}.

(** A [ListOffsets] answer: the partitions of each topic. *)
Definition OffsetsResponse : Type := list (string * list OffsetPartition).

(** A fetch answer: the records, and the cursor if it moved. *)
Definition Progress : Type := list LogRecord * option Z.

(** ** The network *)

(** The calls of krabka-client-core and the resolver; [Env] is whatever they
    change. *)
Class Network (Env Addr Conn : Type) := {
  resolve_bootstrap : string → Env → option (list Addr) * Env;
  resolve_host : string → Z → Env → option (list Addr) * Env;
  connect : Addr → Env → result ClientError Conn * Env;
  send_metadata : Conn → string → Env → result ClientError MetadataResponse * Env;
  send_list_offsets : Conn → string → Z → Env → result ClientError OffsetsResponse * Env;
  fetch_partition : Conn → string → Z → Z → Env → result ClientError Progress * Env;
  close : Conn → Env → Env;
}.

Section broker.
Context {Env Addr Conn : Type} `{Network Env Addr Conn}.

(** ** Routing *)

(** The first address of the leader; an unusable port or name is an invalid
    configuration. *)
Definition resolve_leader_addr (host : string) (port : Z) (env : Env) : result ClientError Addr * Env :=
  if (0 <=? port) && (port <=? 65535) then
    let '(addrs, env') := resolve_host host port env in
    (ok_or (addrs ≫= head) EOther, env')
  else (Err EOther, env).

(** What an answer says about partition 0: the topic's id and the broker that leads it,
    if it is listed with a port. *)
Definition route_of (topic : string) (current_topic_id : Z) (md : MetadataResponse)
    : result ClientError (Z * option BrokerMetadata) :=
  topic_metadata ← ok_or (List.find (λ t, bool_decide (tm_name t = Some topic)) (md_topics md)) (EServer 3);
  if negb (tm_error_code topic_metadata =? 0) then Err (EServer (tm_error_code topic_metadata))
  else
    partition ← ok_or (List.find (λ p, pm_index p =? 0) (tm_partitions topic_metadata)) (EServer 3);
    if negb (pm_error_code partition =? 0) then Err (EServer (pm_error_code partition))
    else
      Ok (route_topic_id (tm_topic_id topic_metadata) current_topic_id,
          List.find (λ b, (bm_node_id b =? pm_leader_id partition) && (0 <? bm_port b)) (md_brokers md)).

Definition topic_route (conn : Conn) (topic : string) (current_topic_id : Z) (env : Env)
    : result ClientError (Z * option Addr) * Env :=
  match send_metadata conn topic env with
  | (Err e, env1) => (Err e, env1)
  | (Ok md, env1) =>
      match route_of topic current_topic_id md with
      | Err e => (Err e, env1)
      | Ok (topic_id, None) => (Ok (topic_id, None), env1)
      | Ok (topic_id, Some leader) =>
          match resolve_leader_addr (bm_host leader) (bm_port leader) env1 with
          | (Err e, env2) => (Err e, env2)
          | (Ok addr, env2) => (Ok (topic_id, Some addr), env2)
          end
      end
  end.

(** One address of a bootstrap host. *)
Definition try_addr (topic : string) (current_topic_id : Z) (addr : Addr) (env : Env)
    : result ClientError (Conn * Z) * Env :=
  match connect addr env with
  | (Err e, env1) => (Err e, env1)
  | (Ok conn, env1) =>
      match topic_route conn topic current_topic_id env1 with
      | (Ok (topic_id, None), env2) => (Ok (conn, topic_id), env2)
      | (Ok (topic_id, Some leader_addr), env2) =>
          match connect leader_addr (close conn env2) with
          | (Ok leader, env3) => (Ok (leader, topic_id), env3)
          | (Err e, env3) => (Err e, env3)
          end
      | (Err e, env2) => (Err e, close conn env2)
      end
  end.

(** The first address that works; otherwise the last error. *)
Fixpoint try_addrs (topic : string) (current_topic_id : Z) (addrs : list Addr) (last_error : ClientError) (env : Env)
    : result ClientError (Conn * Z) * Env :=
  match addrs with
  | [] => (Err last_error, env)
  | addr :: rest =>
      match try_addr topic current_topic_id addr env with
      | (Ok found, env') => (Ok found, env')
      | (Err e, env') => try_addrs topic current_topic_id rest e env'
      end
  end.

Fixpoint try_hosts (topic : string) (current_topic_id : Z) (hosts : list string) (last_error : ClientError) (env : Env)
    : result ClientError (Conn * Z) * Env :=
  match hosts with
  | [] => (Err last_error, env)
  | host :: rest =>
      match resolve_bootstrap host env with
      | (None, env') => try_hosts topic current_topic_id rest last_error env'
      | (Some addrs, env') =>
          match try_addrs topic current_topic_id addrs last_error env' with
          | (Ok found, env'') => (Ok found, env'')
          | (Err e, env'') => try_hosts topic current_topic_id rest e env''
          end
      end
  end.

Definition connect_topic_leader (bootstrap topic : string) (current_topic_id : Z) (env : Env)
    : result ClientError (Conn * Z) * Env :=
  try_hosts topic current_topic_id (trim <$> split_char ","%char bootstrap) EDisconnected env.

(** ** The bounds of the log *)

Definition offset_of (topic : string) (response : OffsetsResponse) : result ClientError Z :=
  partition ← ok_or ('(_, partitions) ← List.find (λ e, String.eqb e.1 topic) response;
                     List.find (λ p, op_index p =? 0) partitions) (EServer 3);
  if negb (op_error_code partition =? 0) then Err (EServer (op_error_code partition))
  else Ok (op_offset partition).

Definition log_offset (conn : Conn) (topic : string) (timestamp : Z) (env : Env) : result ClientError Z * Env :=
  match send_list_offsets conn topic timestamp env with
  | (Err e, env') => (Err e, env')
  | (Ok response, env') => (offset_of topic response, env')
  end.

(** The earliest offset, then the end. *)
Definition log_bounds (conn : Conn) (topic : string) (env : Env) : result ClientError (Z * Z) * Env :=
  match log_offset conn topic (-2) env with
  | (Err e, env1) => (Err e, env1)
  | (Ok start, env1) =>
      match log_offset conn topic (-1) env1 with
      | (Err e, env2) => (Err e, env2)
      | (Ok end_offset, env2) => (Ok (start, end_offset), env2)
      end
  end.

(** ** The loop of the reader task *)

Section loop.
Context `{SchemaFormat} `{SerdeJson} `{UuidLib} (bootstrap topic : string).

(** The task between two turns: the connection it fetches on, if any, the reader's
    state and the network. *)
Record Task := mkTask {
  tk_conn : option Conn;
  tk_reader : Reader;
  tk_env : Env;
}.

(** A turn of the outer loop: connect, and for a replaced topic ask for the bounds. *)
Definition connect_turn (r : Reader) (env : Env) : ReaderEvent * Task :=
  match connect_topic_leader bootstrap topic (rd_topic_id r) env with
  | (Err _, env1) => (ConnectErr, mkTask None (count_failure r) env1)
  | (Ok (conn, resolved), env1) =>
      if negb (rd_topic_id r =? 0) && negb (resolved =? rd_topic_id r) then
        match log_bounds conn topic env1 with
        | (Ok bounds, env2) =>
            (ConnectOk resolved (Some bounds), mkTask (Some conn) (connect_ok resolved (Some bounds) r) env2)
        | (Err _, env2) => (ConnectOk resolved None, mkTask None (connect_ok resolved None r) (close conn env2))
        end
      else (ConnectOk resolved None, mkTask (Some conn) (connect_ok resolved None r) env1)
  end.

(** A turn of the inner loop: one fetch from the cursor. *)
Definition fetch_turn (conn : Conn) (r : Reader) (env : Env) : ReaderEvent * Task :=
  match fetch_partition conn topic (rd_topic_id r) (rd_next r) env with
  | (Ok (records, next_offset), env1) =>
      (FetchOk records next_offset, mkTask (Some conn) (fetch_ok records next_offset r) env1)
  | (Err e, env1) =>
      match fetch_error_action e with
      | ResetToLogStart =>
          match log_bounds conn topic env1 with
          | (Ok bounds, env2) => (FetchErr e (Some bounds), mkTask (Some conn) (fetch_err e (Some bounds) r) env2)
          | (Err _, env2) => (FetchErr e None, mkTask None (fetch_err e None r) (close conn env2))
          end
      | Reconnect | RefreshTopic => (FetchErr e None, mkTask None (fetch_err e None r) (close conn env1))
      | RetrySameConnection => (FetchErr e None, mkTask (Some conn) (fetch_err e None r) env1)
      end
  end.

Definition reader_turn (t : Task) : ReaderEvent * Task :=
  match tk_conn t with
  | None => connect_turn (tk_reader t) (tk_env t)
  | Some conn => fetch_turn conn (tk_reader t) (tk_env t)
  end.

(** Where a turn notices the cancellation: the select around a fetch, or the back-off of a turn
    that failed. *)
Inductive StopPlace := AtFetch | AtBackoff.

(** The network after a task that is cancelled in its next turn has returned; [None]: the turn does
    not come by the place. The select closes the connection; a back-off after a failed fetch returns as
    it is, with the connection only closed if the log bounds could not be had. *)
Definition reader_stop (place : StopPlace) (t : Task) : option Env :=
  match place, tk_conn t with
  | AtFetch, Some conn => Some (close conn (tk_env t))
  | AtFetch, None => None
  | AtBackoff, Some conn =>
      match fetch_partition conn topic (rd_topic_id (tk_reader t)) (rd_next (tk_reader t)) (tk_env t) with
      | (Ok _, _) => None
      | (Err e, env1) =>
          match fetch_error_action e with
          | ResetToLogStart =>
              match log_bounds conn topic env1 with
              | (Ok _, env2) => Some env2
              | (Err _, env2) => Some (close conn env2)
              end
          | _ => Some env1
          end
      end
  | AtBackoff, None =>
      let t' := (connect_turn (tk_reader t) (tk_env t)).2 in
      match tk_conn t' with Some _ => None | None => Some (tk_env t') end
  end.
End loop.
End broker.

(** Failures are logged at the first and then at every power of two. *)
Definition is_power_of_two (n : N) : bool := (N.land n (n - 1) =? 0)%N && (0 <? n)%N.
Definition should_log_failure (consecutive : N) : bool := (consecutive =? 1)%N || is_power_of_two consecutive.

(** ** The election's coordinator *)

(** The broker a [FindCoordinator] answer names: its first coordinator, or the fields of
    the older protocol versions. *)
Definition coordinator_of (group_id : string) (coordinators : list (string * Z)) (host : string) (port : Z)
    : result string (string * Z) :=
  match head coordinators with
  | Some (h, p) => if negb (String.eqb h "") then Ok (h, p)
                   else if negb (String.eqb host "") then Ok (host, port)
                   else Err ("no coordinator for group " +:+ group_id)
  | None => if negb (String.eqb host "") then Ok (host, port)
            else Err ("no coordinator for group " +:+ group_id)
  end.
