(* ===== verification/BrokerFacts.v ===== *)
(** * The reader's connections: correctness (kafkastore/reader.rs)

    The loop of the reader task holds one connection while it fetches and none otherwise, to
    the leader that a broker named, and each of its turns is a step of the reader's step
    relation, so what is proved of that relation holds of the task. *)

From stdpp Require Import base gmap strings list relations sorting.
From Stdlib Require Import ZArith Lia Ascii.
From S2P Require Import Prelude Text Json Types Store StoreFacts StoreSpec Record RecordFacts Reader ReaderFacts Broker.

#[local] Open Scope Z_scope.

(** The connections that are open: a connect that succeeds opens a new one, a close ends
    one, nothing else changes them. *)
Class Tracked (Env Addr Conn : Type) `{Network Env Addr Conn} `{Countable Conn} := {
  opened : Env → gset Conn;
  resolve_bootstrap_opened host env : opened (resolve_bootstrap host env).2 = opened env;
  resolve_host_opened host port env : opened (resolve_host host port env).2 = opened env;
  connect_opened addr env :
    match connect addr env with
    | (Ok c, env') => c ∉ opened env ∧ opened env' = {[ c ]} ∪ opened env
    | (Err _, env') => opened env' = opened env
    end;
  send_metadata_opened c topic env : opened (send_metadata c topic env).2 = opened env;
  send_list_offsets_opened c topic t env : opened (send_list_offsets c topic t env).2 = opened env;
  fetch_partition_opened c topic id next env : opened (fetch_partition c topic id next env).2 = opened env;
  close_opened c env : opened (close c env) = opened env ∖ {[ c ]};
}.

Section facts.
Context {Env Addr Conn : Type} `{Tracked Env Addr Conn}.

(** ** What a metadata answer says *)

Lemma find_elem {A} (f : A → bool) l x : List.find f l = Some x → x ∈ l ∧ f x = true.
Proof. intros [Hin Hf]%find_some. split; [by apply list_elem_of_In|done]. Qed.

Lemma find_none_elem {A} (f : A → bool) l x : List.find f l = None → x ∈ l → f x = false.
Proof. intros Hn Hx. apply (find_none f l Hn). by apply list_elem_of_In. Qed.

(** The topic and its partition 0 are listed without an error, and the leader is the listed
    broker of that id with a usable port, if there is one. *)
Lemma route_of_spec topic current_id md id leader :
  route_of topic current_id md = Ok (id, leader) →
  ∃ t p, t ∈ md_topics md ∧ tm_name t = Some topic ∧ tm_error_code t = 0 ∧
    p ∈ tm_partitions t ∧ pm_index p = 0 ∧ pm_error_code p = 0 ∧
    id = route_topic_id (tm_topic_id t) current_id ∧
    match leader with
    | Some b => b ∈ md_brokers md ∧ bm_node_id b = pm_leader_id p ∧ 0 < bm_port b
    | None => ∀ b, b ∈ md_brokers md → bm_node_id b = pm_leader_id p → bm_port b ≤ 0
    end.
Proof.
  unfold route_of. destruct (List.find _ (md_topics md)) as [t|] eqn:Ht; [|done]. cbn.
  destruct (tm_error_code t =? 0) eqn:Et; [|done]. cbn.
  destruct (List.find _ (tm_partitions t)) as [p|] eqn:Hp; [|done]. cbn.
  destruct (pm_error_code p =? 0) eqn:Ep; [|done]. cbn. intros [= <- <-].
  apply find_elem in Ht as [Ht Hname%bool_decide_eq_true]. apply find_elem in Hp as [Hp Hi%Z.eqb_eq].
  exists t, p. split_and!; try done; [by apply Z.eqb_eq|by apply Z.eqb_eq|].
  destruct (List.find _ (md_brokers md)) as [b|] eqn:Hb.
  - apply find_elem in Hb as [Hb [Hn Hport]%andb_true_iff]. split_and!; [done|by apply Z.eqb_eq|by apply Z.ltb_lt].
  - intros b Hin Hn. pose proof (find_none_elem _ _ _ Hb Hin) as Hf.
    apply andb_false_iff in Hf as [Hf%Z.eqb_neq|Hf%Z.ltb_ge]; [by destruct Hf|done].
Qed.

Lemma route_topic_id_nonzero t current_id : current_id ≠ 0 → route_topic_id t current_id ≠ 0.
Proof. unfold route_topic_id. intros Hc. destruct (t =? 0) eqn:E; [done|]. by apply Z.eqb_neq. Qed.

(** ** Finding the leader *)

(** [c] is a connection to the leader a broker named for the topic, or to that broker
    itself when it listed no leader. *)
Definition led (topic : string) (id : Z) (c : Conn) : Prop :=
  ∃ boot current_id env md env', send_metadata boot topic env = (Ok md, env') ∧
    (route_of topic current_id md = Ok (id, None) ∧ c = boot ∨
     ∃ leader addr env1 env2 env3, route_of topic current_id md = Ok (id, Some leader) ∧
       resolve_leader_addr (bm_host leader) (bm_port leader) env' = (Ok addr, env1) ∧
       connect addr env2 = (Ok c, env3)).

(** What an attempt to connect leaves: one more open connection, which leads to the
    topic, or none. *)
Definition gained (topic : string) (current_id : Z) (env : Env) (r : result ClientError (Conn * Z)) (env' : Env) : Prop :=
  match r with
  | Ok (c, id) => c ∉ opened env ∧ opened env' = {[ c ]} ∪ opened env ∧ led topic id c ∧
                  (current_id ≠ 0 → id ≠ 0)
  | Err _ => opened env' = opened env
  end.

Lemma topic_route_opened conn topic current_id env :
  opened (topic_route conn topic current_id env).2 = opened env.
Proof.
  unfold topic_route. pose proof (send_metadata_opened conn topic env) as Hm.
  destruct (send_metadata conn topic env) as [[md|e] env1]; [|done]. cbn in Hm.
  destruct (route_of topic current_id md) as [[id [leader|]]|e]; [|done..].
  unfold resolve_leader_addr. destruct (_ && _); [|done].
  pose proof (resolve_host_opened (bm_host leader) (bm_port leader) env1) as Hr.
  destruct (resolve_host _ _ env1) as [addrs env2]. cbn in Hr. rewrite <-Hm, <-Hr.
  by destruct (addrs ≫= head).
Qed.

(** A route is one the broker answered. *)
Lemma topic_route_ok conn topic current_id env id addr env' :
  topic_route conn topic current_id env = (Ok (id, addr), env') →
  ∃ md env1, send_metadata conn topic env = (Ok md, env1) ∧
    match addr with
    | None => route_of topic current_id md = Ok (id, None)
    | Some a => ∃ leader, route_of topic current_id md = Ok (id, Some leader) ∧
        resolve_leader_addr (bm_host leader) (bm_port leader) env1 = (Ok a, env')
    end.
Proof.
  unfold topic_route. destruct (send_metadata conn topic env) as [[md|e] env1]; [|done].
  destruct (route_of topic current_id md) as [[id' [leader|]]|e] eqn:Hr; [|by intros [= <- <- <-]; eauto|done].
  destruct (resolve_leader_addr _ _ env1) as [[a|e] env2] eqn:Ha; [|done]. intros [= <- <- <-].
  exists md, env1. split; [done|]. by exists leader.
Qed.

Lemma route_id_nonzero topic current_id md id leader :
  route_of topic current_id md = Ok (id, leader) → current_id ≠ 0 → id ≠ 0.
Proof. intros (t & p & _ & _ & _ & _ & _ & _ & -> & _)%route_of_spec. apply route_topic_id_nonzero. Qed.

Lemma try_addr_gained topic current_id addr env :
  gained topic current_id env (try_addr topic current_id addr env).1 (try_addr topic current_id addr env).2.
Proof.
  unfold try_addr. pose proof (connect_opened addr env) as Hc.
  destruct (connect addr env) as [[conn|e] env1]; [|done]. destruct Hc as [Hnew Hop].
  pose proof (topic_route_opened conn topic current_id env1) as Ht.
  destruct (topic_route conn topic current_id env1) as [[[id [leader_addr|]]|e] env2] eqn:Hr; cbn in Ht.
  - destruct (topic_route_ok _ _ _ _ _ _ _ Hr) as (md & env0 & Hmd & leader & Hroute & Hres).
    assert (opened (close conn env2) = opened env) as Hclosed by (rewrite close_opened, Ht, Hop; set_solver).
    pose proof (connect_opened leader_addr (close conn env2)) as Hl.
    destruct (connect leader_addr (close conn env2)) as [[c|e] env3] eqn:Hcon; cbn; [|by rewrite Hl].
    rewrite Hclosed in Hl. destruct Hl as [Hn Ho]. split_and!; [done|done| |by eapply route_id_nonzero].
    exists conn, current_id, env1, md, env0. split; [done|]. right.
    exists leader, leader_addr, env2, (close conn env2), env3. done.
  - destruct (topic_route_ok _ _ _ _ _ _ _ Hr) as (md & env0 & Hmd & Hroute). cbn. rewrite Ht.
    split_and!; [done|done| |by eapply route_id_nonzero].
    exists conn, current_id, env1, md, env0. auto.
  - cbn. rewrite close_opened, Ht, Hop. set_solver.
Qed.

Lemma gained_after topic current_id env env1 r env' :
  opened env1 = opened env → gained topic current_id env1 r env' → gained topic current_id env r env'.
Proof. intros He. unfold gained. destruct r as [[c id]|e]; by rewrite He. Qed.

Lemma try_addrs_gained topic current_id addrs : ∀ last_error env,
  gained topic current_id env (try_addrs topic current_id addrs last_error env).1
    (try_addrs topic current_id addrs last_error env).2.
Proof.
  induction addrs as [|addr rest IH]; intros last_error env; [done|]. cbn.
  pose proof (try_addr_gained topic current_id addr env) as Ha.
  destruct (try_addr topic current_id addr env) as [[found|e] env']; [done|].
  by apply (gained_after _ _ _ env'); [apply Ha|].
Qed.

Lemma try_hosts_gained topic current_id hosts : ∀ last_error env,
  gained topic current_id env (try_hosts topic current_id hosts last_error env).1
    (try_hosts topic current_id hosts last_error env).2.
Proof.
  induction hosts as [|host rest IH]; intros last_error env; [done|]. cbn.
  pose proof (resolve_bootstrap_opened host env) as Hr.
  destruct (resolve_bootstrap host env) as [[addrs|] env']; cbn in Hr; [|by apply (gained_after _ _ _ env')].
  pose proof (try_addrs_gained topic current_id addrs last_error env') as Ha.
  destruct (try_addrs topic current_id addrs last_error env') as [[found|e] env''].
  - by apply (gained_after _ _ _ env').
  - apply (gained_after _ _ _ env''); [|done]. by rewrite <-Hr.
Qed.

Lemma log_offset_opened conn topic t env : opened (log_offset conn topic t env).2 = opened env.
Proof.
  unfold log_offset. pose proof (send_list_offsets_opened conn topic t env) as Hs.
  by destruct (send_list_offsets conn topic t env) as [[response|e] env'].
Qed.

Lemma log_bounds_opened conn topic env : opened (log_bounds conn topic env).2 = opened env.
Proof.
  unfold log_bounds. pose proof (log_offset_opened conn topic (-2) env) as Hstart.
  destruct (log_offset conn topic (-2) env) as [[start|e] env1]; [|done]. cbn in Hstart.
  pose proof (log_offset_opened conn topic (-1) env1) as Hend.
  destruct (log_offset conn topic (-1) env1) as [[last|e] env2]; cbn in *; by rewrite Hend.
Qed.

(** ** The loop *)

Section loop.
Context `{SchemaFormat} `{SerdeJson} `{UuidLib} (bootstrap topic : string).
(** The committed records of each topic incarnation, as for the reader's step relation. *)
Context (logs : Z → list LogRecord).
Context (logs_sorted : ∀ t, StronglySorted (λ a b, (lr_offset a < lr_offset b)%Z) (logs t)).
Context (logs_nonneg : ∀ t lr, lr ∈ logs t → (0 ≤ lr_offset lr)%Z).

(** A turn of the task on a truthful answer of the broker, or a waiter's call in
    between. *)
Inductive loop_step (t : Task) : Task → Prop :=
  | loop_turn : event_ok logs (tk_reader t) (reader_turn bootstrap topic t).1 →
      loop_step t (reader_turn bootstrap topic t).2
  | loop_waiter ev : loop_step t (mkTask (tk_conn t) (waiter_step ev (tk_reader t)) (tk_env t)).

(** The connection the task holds is the only one it has open, and it leads to the topic. *)
Record holds (base : gset Conn) (t : Task) : Prop := {
  holds_opened : opened (tk_env t) = match tk_conn t with Some c => {[ c ]} ∪ base | None => base end;
  holds_fresh : ∀ c, tk_conn t = Some c → c ∉ base;
  holds_connected : rd_connected (tk_reader t) = bool_decide (is_Some (tk_conn t));
  holds_topic : rd_topic_id (tk_reader t) ≠ 0;
  holds_led : ∀ c, tk_conn t = Some c → led topic (rd_topic_id (tk_reader t)) c;
}.

Lemma holds_none base r env :
  opened env = base → rd_connected r = false → rd_topic_id r ≠ 0 → holds base (mkTask None r env).
Proof. intros Ho Hc Ht. by split. Qed.

Lemma holds_some base c r env :
  opened env = {[ c ]} ∪ base → c ∉ base → rd_connected r = true → rd_topic_id r ≠ 0 →
  led topic (rd_topic_id r) c → holds base (mkTask (Some c) r env).
Proof. intros Ho Hn Hc Ht Hl. by split; cbn; try (intros ? [= <-]). Qed.

Lemma connect_turn_holds base r env :
  opened env = base → rd_connected r = false → rd_topic_id r ≠ 0 →
  reader_step (connect_turn bootstrap topic r env).1 r = Some (tk_reader (connect_turn bootstrap topic r env).2) ∧
  holds base (connect_turn bootstrap topic r env).2.
Proof.
  intros <- Hc Ht. unfold connect_turn, connect_topic_leader.
  pose proof (try_hosts_gained topic (rd_topic_id r) (trim <$> split_char ","%char bootstrap) EDisconnected env) as Hg.
  destruct (try_hosts _ _ _ _ env) as [[[conn resolved]|e] env1]; cbn in Hg;
    [|cbn; rewrite Hc; split; [done|by apply holds_none]].
  destruct Hg as (Hn & Ho & Hl & Hid). specialize (Hid Ht). rewrite (proj2 (Z.eqb_neq _ _) Ht). cbn [negb andb].
  destruct (resolved =? rd_topic_id r) eqn:Hsame; cbn [negb].
  - cbn. rewrite Hc. unfold connect_ok. rewrite Hsame, andb_false_r. split; [done|]. by apply holds_some.
  - pose proof (log_bounds_opened conn topic env1) as Hb.
    destruct (log_bounds conn topic env1) as [[[start e]|e] env2]; cbn in Hb; cbn -[connect_ok];
      rewrite Hc; (split; [done|]); unfold connect_ok; rewrite Hsame, (proj2 (Z.eqb_neq _ _) Ht); cbn [negb andb].
    + apply holds_some; try done. by rewrite Hb.
    + apply holds_none; [|done|done]. rewrite close_opened, Hb, Ho. set_solver.
Qed.

(** A failed fetch keeps the connection exactly when its action does. *)
Lemma fetch_err_connected e bounds r : rd_connected r = true →
  rd_connected (fetch_err e bounds r) =
    match fetch_error_action e with
    | Reconnect | RefreshTopic => false
    | ResetToLogStart => bool_decide (is_Some bounds)
    | RetrySameConnection => true
    end.
Proof. intros Hc. unfold fetch_err. by destruct (fetch_error_action e), bounds as [[]|]. Qed.

Lemma fetch_err_topic e bounds r : rd_topic_id (fetch_err e bounds r) = rd_topic_id r.
Proof. unfold fetch_err. by destruct (fetch_error_action e), bounds as [[]|]. Qed.

(** A fetch answer changes neither the topic nor the connection. *)
Lemma fetch_ok_keeps records next_offset r :
  rd_topic_id (fetch_ok records next_offset r) = rd_topic_id r ∧
  rd_connected (fetch_ok records next_offset r) = rd_connected r.
Proof.
  unfold fetch_ok. set (r0 := mkReader _ _ _ _ _ _ _ _ 0 _ _ _ _).
  destruct (foldl_fetch_record records r0) as ([= _ Ht _ _ _ Hc] & _). rewrite <-Ht, <-Hc.
  destruct next_offset as [cursor|]; [|done]. cbn zeta. destruct (complete_rebuild _ _ _) as [live [rb|]]; by cbn.
Qed.

Lemma fetch_turn_holds base c r env :
  holds base (mkTask (Some c) r env) →
  reader_step (fetch_turn topic c r env).1 r = Some (tk_reader (fetch_turn topic c r env).2) ∧
  holds base (fetch_turn topic c r env).2.
Proof.
  intros [Ho Hn Hc Ht Hl]. cbn in *. specialize (Hn c eq_refl). specialize (Hl c eq_refl).
  unfold fetch_turn. pose proof (fetch_partition_opened c topic (rd_topic_id r) (rd_next r) env) as Hf.
  destruct (fetch_partition _ _ _ _ env) as [[[records next_offset]|e] env1]; cbn in Hf.
  { destruct (fetch_ok_keeps records next_offset r) as [Kt Kc]. cbn. rewrite Hc. split; [done|].
    apply holds_some; by rewrite ?Kt, ?Kc, ?Hf. }
  assert (opened (close c env1) = base) as Hclose by (rewrite close_opened, Hf, Ho; set_solver).
  pose proof (log_bounds_opened c topic env1) as Hb.
  destruct (fetch_error_action e) eqn:Ha; [| |destruct (log_bounds c topic env1) as [[bounds|e'] env2]; cbn in Hb|];
    cbn -[fetch_err]; rewrite Hc; (split; [done|]).
  - apply holds_none; rewrite ?fetch_err_connected, ?Ha, ?fetch_err_topic by done; done.
  - apply holds_some; rewrite ?fetch_err_connected, ?Ha, ?fetch_err_topic by done; by rewrite ?Hf.
  - apply holds_some; rewrite ?fetch_err_connected, ?Ha, ?fetch_err_topic by done; by rewrite ?Hb, ?Hf.
  - apply holds_none; rewrite ?fetch_err_connected, ?Ha, ?fetch_err_topic by done; try done.
    rewrite close_opened, Hb, Hf, Ho. set_solver.
  - apply holds_none; rewrite ?fetch_err_connected, ?Ha, ?fetch_err_topic by done; done.
Qed.

Lemma reader_turn_holds base t : holds base t →
  reader_step (reader_turn bootstrap topic t).1 (tk_reader t) = Some (tk_reader (reader_turn bootstrap topic t).2) ∧
  holds base (reader_turn bootstrap topic t).2.
Proof.
  intros Ht. destruct t as [[c|] r env]; [by apply fetch_turn_holds|].
  destruct Ht as [Ho _ Hc Hid _]. by apply connect_turn_holds.
Qed.

(** What a cancelled task leaves open: nothing, or after a failed fetch at most the connection it
    held. *)
Lemma reader_stop_holds base t place env' :
  holds base t → reader_stop bootstrap topic place t = Some env' →
  opened env' = base ∨
  place = AtBackoff ∧ ∃ c, tk_conn t = Some c ∧ c ∉ base ∧ opened env' = {[ c ]} ∪ base.
Proof.
  intros Hh Hstop. pose proof (reader_turn_holds _ _ Hh) as [_ Hnext]. destruct Hh as [Ho Hn _ _ _].
  destruct t as [[c|] r env]; cbn in *.
  - specialize (Hn c eq_refl). destruct place; cbn in Hstop.
    { injection Hstop as <-. left. rewrite close_opened, Ho. set_solver. }
    pose proof (fetch_partition_opened c topic (rd_topic_id r) (rd_next r) env) as Hf.
    destruct (fetch_partition _ _ _ _ env) as [[]env1]; [done|]. cbn in Hf. rewrite Ho in Hf.
    destruct (fetch_error_action e); [injection Hstop as <-; right; by eauto..| |injection Hstop as <-; right; by eauto].
    pose proof (log_bounds_opened c topic env1) as Hb.
    destruct (log_bounds c topic env1) as [[] env2]; injection Hstop as <-; cbn in Hb; rewrite Hf in Hb; [right; by eauto|].
    left. rewrite close_opened, Hb. set_solver.
  - destruct place; cbn in Hstop; [done|].
    destruct (connect_turn bootstrap topic r env) as [ev [[c|] r' env1]]; cbn in *; [done|].
    injection Hstop as <-. left. apply (holds_opened _ _ Hnext).
Qed.

(** C38: the reader task is the reader the theorems are about, and it does not pile up connections.
    In every run of the task and its waiters, whatever fails: the task has exactly one connection
    open while it fetches and none while it is between connections, to the leader of the topic's partition
    that a broker named (or to that broker, when it listed no leader). Cancelled around a
    fetch or between connections it leaves none open; cancelled in the back-off of a failed
    fetch it leaves at most the one it held, which it does not close itself. It never
    forgets the topic it reads. Every turn is a step of the
    reader's step relation, so when the broker answers truthfully the state is the replay of the
    log below the cursor, and what the waiters are told is so. *)
Theorem reader_task_spec topic_id defaults env t :
  topic_id ≠ 0 → rtc loop_step (mkTask None (reader_init topic_id defaults) env) t →
  holds (opened env) t ∧
  (∀ c, tk_conn t = Some c → is_Some (reader_stop bootstrap topic AtFetch t)) ∧
  (∀ place env', reader_stop bootstrap topic place t = Some env' →
     opened env' = opened env ∨
     place = AtBackoff ∧ ∃ c, tk_conn t = Some c ∧ c ∉ opened env ∧ opened env' = {[ c ]} ∪ opened env) ∧
  reader_step (reader_turn bootstrap topic t).1 (tk_reader t) = Some (tk_reader (reader_turn bootstrap topic t).2) ∧
  rtc (rstep logs) (reader_init topic_id defaults) (tk_reader t) ∧
  reader_inv logs (tk_reader t).
Proof.
  intros Hid Hrun.
  assert (holds (opened env) t ∧ rtc (rstep logs) (reader_init topic_id defaults) (tk_reader t)) as [Hh Hr].
  { assert (holds (opened env) (mkTask None (reader_init topic_id defaults) env)) as Hstart by (by apply holds_none).
    remember (mkTask None (reader_init topic_id defaults) env) as t0 eqn:Et0.
    assert (reader_init topic_id defaults = tk_reader t0) as -> by by subst. clear Et0.
    induction Hrun as [t|t t1 t2 Hs Hrun IH]; [by split|]. destruct Hs as [Hok|ev].
    - destruct (reader_turn_holds _ _ Hstart) as [Hstep Hnext]. destruct (IH Hnext) as [Hh Hr].
      split; [done|]. eapply rtc_l; [by eapply rstep_reader|done].
    - destruct (IH ltac:(by destruct Hstart; split)) as [Hh Hr]. split; [done|].
      eapply rtc_l; [apply (rstep_waiter logs (tk_reader t) ev)|done]. }
  split_and!; [done| | |by eapply reader_turn_holds|done|].
  - intros c Hc. unfold reader_stop. by rewrite Hc.
  - intros place env'. by apply reader_stop_holds.
  - pose proof (reader_init_inv logs logs_nonneg topic_id defaults Hid) as Hi. revert Hi. clear Hh Hrun.
    induction Hr; eauto using rstep_inv.
Qed.
End loop.
End facts.

(** ** Witness *)

Section witness.
#[local] Existing Instance echo_format.
#[local] Existing Instance tree_serde.
#[local] Existing Instance string_uuid.

(** A network of open connections. The first bootstrap host does not resolve; the second knows the
    topic, which was created again as 9, and its leader at another address. *)
#[local] Instance demo_network : Network (gset nat) nat nat := {|
  resolve_bootstrap host env := (if String.eqb host "b2:9092" then Some [7%nat] else None, env);
  resolve_host _ _ env := (Some [8%nat], env);
  connect _ env := (Ok (fresh env), {[ fresh env ]} ∪ env);
  send_metadata _ topic env :=
    (Ok (mkMetadata [mkTopicMetadata (Some topic) 0 9 [mkPartitionMetadata 0 0 1]] [mkBrokerMetadata 1 "leader" 9092]), env);
  send_list_offsets _ topic timestamp env :=
    (Ok [(topic, [mkOffsetPartition 0 0 (if timestamp =? -2 then 0 else 1)])], env);
  fetch_partition _ _ _ next env := (Ok (if next =? 0 then ([barrier_record], Some 1) else ([], None)), env);
  close c env := env ∖ {[ c ]};
|}.

#[local] Instance demo_tracked : Tracked (gset nat) nat nat.
Proof. refine {| opened := λ env, env |}; try done. intros addr env. cbn. split; [apply is_fresh|done]. Defined.

Definition demo_start : Task (Env := gset nat) (Conn := nat) := mkTask None (reader_init 5 default_store) ∅.
Definition demo_task : Task (Env := gset nat) (Conn := nat) :=
  (reader_turn "b1:9092,b2:9092" "_schemas" (reader_turn "b1:9092,b2:9092" "_schemas" demo_start).2).2.

(** The task connects to the leader, finds the topic replaced, and replays its log. *)
Lemma reader_task_spec_witness :
  holds "_schemas" ∅ demo_task ∧ (opened <$> reader_stop "b1:9092,b2:9092" "_schemas" AtFetch demo_task) = Some ∅ ∧
  (is_Some (tk_conn demo_task) ∧ rd_topic_id (tk_reader demo_task) = 9 ∧ rd_next (tk_reader demo_task) = 1).
Proof.
  split; [|split; [vm_compute; reflexivity|vm_compute; by eauto]].
  edestruct (reader_task_spec "b1:9092,b2:9092" "_schemas" one_barrier_log) with (topic_id := 5)
    (defaults := default_store) (env := ∅ : gset nat) (t := demo_task) as (Hh & _); [..|exact Hh].
  - repeat constructor.
  - intros t lr ->%list_elem_of_singleton. cbn. lia.
  - lia.
  - eapply rtc_l; [apply loop_turn|eapply rtc_l; [apply loop_turn|apply rtc_refl]].
    + vm_compute. split; [done|]. intros ? ? [= <- <-] lr Hlr. destruct lr as [o k v].
      apply list_elem_of_singleton in Hlr. by injection Hlr as -> _ _.
    + vm_compute. reflexivity.
Defined.
End witness.
