(* ===== verification/KafkaStore.v ===== *)
(** * The Kafka-backed store (kafkastore/mod.rs, kafkastore/writer.rs)

    The facade that decides on a snapshot, produces a record and waits for
    the reader. The world of one node is the committed log, how much of it the
    node's reader has applied, the election watch, and a script of what the
    environment does at each interaction: records other nodes append, reader
    progress, election changes, and the outcome of the call. Taking the read
    lock is such an interaction too: between two reads of the store the reader
    task may have advanced. Every operation
    is a function of the world: its result and the world it leaves, also when
    it fails half-way. Timeouts and broker errors are outcomes; an error may
    leave the record committed ([rp_landed]). *)

From stdpp Require Import base gmap strings list pretty.
From Stdlib Require Import ZArith Lia Ascii.
From S2P Require Import Prelude Json Types Store Record Compat Reader.

(** A record of the topic: key and value ([None] is a tombstone). *)
Abbreviation kv := (string * option string)%type.

(** election/mod.rs: what the election watch publishes. *)
Record PrimaryState := mkPrimaryState {
  ps_is_primary : bool;
  ps_primary_url : option string;
  ps_generation_id : option Z;
  ps_member_id : option string;
}.

Record ConsumerGroupMetadata := mkGroup {
  cg_group_id : string;
  cg_generation_id : Z;
  cg_member_id : string;
}.

Inductive Outcome :=
  | OOk
  | OTimeout
  | OError (m : string)
  | OInvalidated
  | OClosed.

Section kafkastore.
Context `{SchemaFormat} `{SerdeJson} `{UuidLib}.

(** What the environment does at one interaction. *)
Record Reply := mkReply {
  rp_foreign : list kv;
  rp_progress : nat;
  rp_primary : option PrimaryState;
  rp_outcome : Outcome;
  rp_landed : bool;
  rp_token : Uuid;
}.

Record World := mkWorld {
  w_defaults : StoreState;
  w_log : list kv;
  w_applied : nat;
  w_primary : option PrimaryState;
  w_election_group : string;
  w_fenced : option Z;
  w_written : list kv;
  w_script : list Reply;
}.

(** The live state: what the reader has applied of the log. *)
Definition apply_kv (s : StoreState) (r : kv) : StoreState :=
  apply_record (decode r.1 r.2) s.
Definition live (w : World) : StoreState :=
  foldl apply_kv (w_defaults w) (take (w_applied w) (w_log w)).

(** ** The effect of a call *)

Definition M (A : Type) : Type := World → result SrError A * World.

#[local] Instance M_ret : MRet M := λ A a w, (Ok a, w).
#[local] Instance M_bind : MBind M := λ A B k m w,
  match m w with
  | (Ok a, w') => k a w'
  | (Err e, w') => (Err e, w')
  end.

Definition throw {A} (e : SrError) : M A := λ w, (Err e, w).
Definition lift {A} (r : result SrError A) : M A := λ w, (r, w).
Definition asks {A} (f : World → A) : M A := λ w, (Ok (f w), w).
Definition modify (f : World → World) : M unit := λ w, (Ok tt, f w).
Definition get_primary : M (option PrimaryState) := asks w_primary.

(** The environment's turn; an exhausted script is an environment that no
    longer answers. *)
Definition interact (w : World) : option Reply * World :=
  match w_script w with
  | [] => (None, w)
  | r :: rest =>
      let log := w_log w ++ rp_foreign r in
      (Some r,
       mkWorld (w_defaults w) log (Nat.min (length log) (w_applied w + rp_progress r))
         (match rp_primary r, w_primary w with Some p, Some _ => Some p | _, _ => w_primary w end)
         (w_election_group w) (w_fenced w) (w_written w) rest)
  end.

(** [self.store.read()]: the state at the time the lock is taken. *)
Definition read_store : M StoreState := λ w,
  let w' := (interact w).2 in (Ok (live w'), w').

(** [backend_error] over the deadline of [writer_before]. *)
Definition outcome_error (o : Outcome) : option SrError :=
  match o with
  | OOk => None
  | OTimeout | OClosed => Some OperationTimedOut
  | OError m => Some (Backend m)
  | OInvalidated => Some (Backend "schema topic was replaced before applying the write")
  end.

(** A call that only succeeds or fails. *)
Definition await : M Reply := λ w,
  match interact w with
  | (None, w') => (Err OperationTimedOut, w')
  | (Some r, w') =>
      match outcome_error (rp_outcome r) with
      | None => (Ok r, w')
      | Some e => (Err e, w')
      end
  end.

Definition append_log (r : kv) (w : World) : World :=
  mkWorld (w_defaults w) (w_log w ++ [r]) (w_applied w) (w_primary w) (w_election_group w)
    (w_fenced w) (w_written w) (w_script w).

Definition note_written (r : kv) (w : World) : World :=
  mkWorld (w_defaults w) (w_log w) (w_applied w) (w_primary w) (w_election_group w)
    (w_fenced w) (w_written w ++ [r]) (w_script w).

(** A send that commits the record when it succeeds, and may have committed it
    when it fails. *)
Definition commit (r : kv) : M unit := λ w,
  match interact w with
  | (None, w') => (Err OperationTimedOut, w')
  | (Some rp, w') =>
      match outcome_error (rp_outcome rp) with
      | None => (Ok tt, append_log r w')
      | Some e => (Err e, if rp_landed rp then append_log r w' else w')
      end
  end.

(** ** The writer (kafkastore/writer.rs) *)

Definition quote : string := String (ascii_of_nat 34) "".

Definition barrier_key (token : Uuid) : string :=
  "{" +:+ quote +:+ "keytype" +:+ quote +:+ ":" +:+ quote +:+ "NOOP" +:+ quote +:+ "," +:+
  quote +:+ "magic" +:+ quote +:+ ":0," +:+ quote +:+ "barrier" +:+ quote +:+ ":" +:+
  quote +:+ uuid_to_string token +:+ quote +:+ "}".

Definition produce_unfenced (r : kv) : M unit := commit r.

(** A transaction: begin, send, an empty offset commit that checks the
    election generation, commit. A failure before the commit aborts, and the
    record never becomes visible. *)
Definition abort_on_error {A} (m : M A) : M A := λ w,
  match m w with
  | (Ok a, w') => (Ok a, w')
  | (Err e, w') => (Err e, (interact w').2)
  end.

Definition produce_fenced (r : kv) (group : ConsumerGroupMetadata) : M unit :=
  _ ← await;
  _ ← abort_on_error (_ ← await; await);
  commit r.

Definition set_fenced (g : Z) (w : World) : World :=
  mkWorld (w_defaults w) (w_log w) (w_applied w) (w_primary w) (w_election_group w)
    (Some g) (w_written w) (w_script w).

Definition fence (group : ConsumerGroupMetadata) : M unit :=
  fenced ← asks w_fenced;
  if bool_decide (fenced = Some (cg_generation_id group)) then mret tt
  else _ ← await; modify (set_fenced (cg_generation_id group)).

(** [SchemaWriter::produce] and [produce_tombstone]. *)
Definition produce (key : string) (value : option string)
    (group : option ConsumerGroupMetadata) : M unit :=
  _ ← modify (note_written (key, value));
  match group with
  | Some group => produce_fenced (key, value) group
  | None => produce_unfenced (key, value)
  end.

(** ** Barriers *)

(** [order_barrier]: a fresh token, its marker at the end of the log. The
    result is the token with the log position just after the marker. *)
Definition order_barrier : M (Uuid * nat) := λ w,
  match interact w with
  | (None, w') => (Err OperationTimedOut, w')
  | (Some rp, w') =>
      let marker := (barrier_key (rp_token rp), Some "{}") in
      match outcome_error (rp_outcome rp) with
      | None => (Ok (rp_token rp, S (length (w_log w'))), append_log marker w')
      | Some e => (Err e, if rp_landed rp then append_log marker w' else w')
      end
  end.

Definition apply_up_to (n : nat) (w : World) : World :=
  mkWorld (w_defaults w) (w_log w) (Nat.max (w_applied w) n) (w_primary w)
    (w_election_group w) (w_fenced w) (w_written w) (w_script w).

(** [finish]: the marker's tombstone; a failure is only logged, a timeout is
    reported. *)
Definition finish_barrier (token : Uuid) : M unit := λ w,
  match interact w with
  | (None, w') => (Err OperationTimedOut, w')
  | (Some rp, w') =>
      let w'' := if rp_landed rp then append_log (barrier_key token, None) w' else w' in
      match rp_outcome rp with
      | OTimeout => (Err OperationTimedOut, w'')
      | _ => (Ok tt, w'')
      end
  end.

(** [await_barrier]: released once the reader has applied the marker. *)
Definition await_barrier (barrier : Uuid * nat) : M unit :=
  _ ← await; _ ← modify (apply_up_to barrier.2); finish_barrier barrier.1.

Definition await_applied : M unit := barrier ← order_barrier; await_barrier barrier.

(** ** The gate and the election *)

Definition write_guard : M unit := _ ← await; mret tt.

Definition prepare_write : M (option ConsumerGroupMetadata) :=
  primary ← get_primary;
  match primary with
  | None => barrier ← order_barrier; _ ← await_barrier barrier; mret None
  | Some before =>
    match ps_generation_id before, ps_member_id before with
    | Some generation_id, Some member_id =>
      if negb (ps_is_primary before) then
        throw (UnknownLeader "node is not the elected primary")
      else
        group_id ← asks w_election_group;
        let group := mkGroup group_id generation_id member_id in
        _ ← fence group;
        barrier ← order_barrier;
        _ ← await_barrier barrier;
        after ← get_primary;
        match after with
        | Some after =>
          if negb (ps_is_primary after) || negb (bool_decide (ps_generation_id after = Some generation_id))
             || negb (bool_decide (ps_member_id after = Some member_id))
          then throw (UnknownLeader "primary election changed while synchronizing the schema store")
          else mret (Some group)
        | None => throw (UnknownLeader "primary election changed while synchronizing the schema store")
        end
    | _, _ => throw (UnknownLeader "node is not the elected primary")
    end
  end.

Definition ensure_writable (subject : string) : M unit :=
  s ← read_store;
  if String.eqb (effective_mode s subject) "READONLY" then throw (OperationNotPermitted subject)
  else mret tt.

(** The two steps every write starts with. *)
Definition begin_write : M (option ConsumerGroupMetadata) := _ ← write_guard; prepare_write.

(** The two steps every write ends with. *)
Definition publish (r : kv) (primary : option ConsumerGroupMetadata) : M unit :=
  _ ← produce r.1 r.2 primary; await_applied.

(** ** Registration *)

Record RegisterSchema := mkRegisterSchema {
  rq_subject : string;
  rq_ty : SchemaType;
  rq_schema : string;
  rq_references : list SchemaReference;
  rq_message_type : option string;
  rq_import_id : option Z;
  rq_import_version : option Z;
}.

(** The [IMPORT] branch of [register]. *)
Definition register_import (req : RegisterSchema) (schema : string)
    (resolved : list ResolvedReference) (primary : option ConsumerGroupMetadata) : M Registered :=
  match rq_import_id req, rq_import_version req with
  | Some id, Some version =>
      _ ← lift (format_parse (rq_ty req) schema resolved);
      s ← read_store;
      conflicts ← lift (schema_id_conflicts s id (rq_ty req) schema (rq_references req)
                          (rq_message_type req));
      if (conflicts : bool) then throw (SchemaIdConflict id)
      else
        let '(key, value) := encode_schema_with_message_type (rq_subject req) version id
          (rq_ty req) schema (rq_references req) (rq_message_type req) in
        _ ← publish (key, Some value) primary;
        mret (mkRegistered id version)
  | _, _ => throw (InvalidSchema "IMPORT mode requires explicit id and version")
  end.

(** The assigning branch: deduplicate, enforce, decide on a probe, persist. *)
Definition register_assign (req : RegisterSchema) (schema : string)
    (resolved : list ResolvedReference) (primary : option ConsumerGroupMetadata) : M Registered :=
  s ← read_store;
  match find_under_subject s (rq_subject req) (rq_ty req) schema (rq_references req)
          (rq_message_type req) false with
  | Some existing => mret existing
  | None =>
      s ← read_store;
      _ ← lift (check_registration s (rq_subject req) (rq_ty req) schema resolved);
      probe ← read_store;
      '(reg, _) ← lift (Store.register (rq_subject req) (rq_ty req) schema (rq_references req)
                          (rq_message_type req) probe);
      let '(key, value) := encode_schema_with_message_type (rq_subject req) (reg_version reg)
        (reg_id reg) (rq_ty req) schema (rq_references req) (rq_message_type req) in
      _ ← publish (key, Some value) primary;
      mret reg
  end.

Definition register (req : RegisterSchema) : M Registered :=
  primary ← begin_write;
  s ← read_store;
  let mode := effective_mode s (rq_subject req) in
  if String.eqb mode "READONLY" then throw (OperationNotPermitted (rq_subject req))
  else
    s ← read_store;
    resolved ← lift (resolve_closure s (rq_references req));
    schema ← lift (normalized_storage_form (rq_ty req) (rq_schema req) resolved);
    if String.eqb mode "IMPORT" then register_import req schema resolved primary
    else register_assign req schema resolved primary.

(** ** Compatibility and mode *)

Definition set_compat (subject : option string) (level : string) : M unit :=
  primary ← begin_write;
  s ← read_store;
  let mode := match subject with Some sj => effective_mode s sj | None => global_mode s end in
  if String.eqb mode "READONLY" then throw (OperationNotPermitted (default "global" subject))
  else
    let '(key, value) := encode_config subject level in
    publish (key, Some value) primary.

Definition delete_subject_compat (subject : string) : M (option string) :=
  primary ← begin_write;
  s ← read_store;
  match subject_compat s subject with
  | None => mret None
  | Some level =>
      _ ← publish (config_key (Some subject), None) primary;
      mret (Some level)
  end.

Definition valid_modes : list string := ["READWRITE"; "READONLY"; "IMPORT"].

Definition set_global_mode (mode : string) : M unit :=
  if negb (existsb (String.eqb mode) valid_modes) then throw (InvalidMode mode)
  else
    primary ← begin_write;
    s ← read_store;
    if String.eqb mode "IMPORT" && negb (bool_decide (list_subjects s true = []))
    then throw (OperationNotPermitted "registry not empty")
    else
      let '(key, value) := encode_mode None mode in
      publish (key, Some value) primary.

Definition set_subject_mode (subject mode : string) : M unit :=
  if negb (existsb (String.eqb mode) valid_modes) then throw (InvalidMode mode)
  else
    primary ← begin_write;
    s ← read_store;
    if String.eqb mode "IMPORT" && bool_decide (is_Some (versions s subject true))
    then throw (OperationNotPermitted subject)
    else
      let '(key, value) := encode_mode (Some subject) mode in
      publish (key, Some value) primary.

Definition clear_subject_mode (subject : string) : M unit :=
  primary ← begin_write;
  publish (mode_key (Some subject), None) primary.

(** ** Deletion *)

Definition version_label (subject : string) (v : Z) : string := subject +:+ ":" +:+ pretty v.

(** The reference protection of the delete paths: a live referrer blocks. *)
Definition not_referenced (subject : string) (v : Z) : M unit :=
  s ← read_store;
  match referenced_by s subject v false with
  | [] => mret tt
  | _ => throw (ReferencedByOthers (version_label subject v))
  end.

Fixpoint none_referenced (subject : string) (vs : list Z) : M unit :=
  match vs with
  | [] => mret tt
  | v :: vs => _ ← not_referenced subject v; none_referenced subject vs
  end.

Definition soft_delete_version (subject : string) (v : Z) : M Z :=
  primary ← begin_write;
  _ ← ensure_writable subject;
  s ← read_store;
  _ ← lift (ok_or (versions s subject true) (SubjectNotFound subject));
  found ← lift (ok_or (version s subject (Some v) true) VersionNotFound);
  _ ← not_referenced subject v;
  let '(key, value) := encode_schema_deleted_with_message_type subject (vs_version found)
    (vs_id found) (vs_ty found) (vs_schema found) (vs_references found)
    (vs_message_type found, vs_extra found) in
  _ ← publish (key, Some value) primary;
  mret (vs_version found).

(** The checks of a permanent version delete, on one snapshot. *)
Definition permanent_delete_checks (s : StoreState) (subject : string) (v : Z)
    : result SrError unit :=
  _ ← ok_or (versions s subject true) (SubjectNotFound subject);
  _ ← ok_or (version s subject (Some v) true) VersionNotFound;
  match version s subject (Some v) false with
  | Some _ => Err (VersionNotSoftDeleted subject v)
  | None => Ok tt
  end.

Definition permanent_delete_version (subject : string) (v : Z) : M Z :=
  primary ← begin_write;
  _ ← ensure_writable subject;
  s ← read_store;
  _ ← lift (permanent_delete_checks s subject v);
  _ ← not_referenced subject v;
  s ← read_store;
  let '(key, value) := encode_version_high_water subject (next_version s subject) in
  _ ← produce key (Some value) primary;
  _ ← publish (encode_tombstone subject v, None) primary;
  mret v.

(** The live versions a subject delete reports, or why there are none. *)
Definition soft_delete_checks (s : StoreState) (subject : string) : result SrError (list Z) :=
  match versions s subject false with
  | Some vs => Ok vs
  | None =>
      match versions s subject true with
      | Some _ => Err (SubjectSoftDeleted subject)
      | None => Err (SubjectNotFound subject)
      end
  end.

Definition soft_delete_subject (subject : string) : M (list Z) :=
  primary ← begin_write;
  _ ← ensure_writable subject;
  s ← read_store;
  vs ← lift (soft_delete_checks s subject);
  _ ← none_referenced subject vs;
  let max := match vs with [] => 0%Z | v :: vs => foldl Z.max v vs end in
  let '(key, value) := encode_delete_subject subject max in
  _ ← publish (key, Some value) primary;
  mret vs.

(** [produce_tombstone] of each key in turn. *)
Fixpoint produce_tombstones (keys : list string) (primary : option ConsumerGroupMetadata)
    : M unit :=
  match keys with
  | [] => mret tt
  | key :: keys => _ ← produce key None primary; produce_tombstones keys primary
  end.

Definition permanent_subject_checks (s : StoreState) (subject : string)
    : result SrError (list Z) :=
  all ← ok_or (versions s subject true) (SubjectNotFound subject);
  match versions s subject false with
  | Some _ => Err (SubjectNotSoftDeleted subject)
  | None => Ok all
  end.

(** A produce that succeeded has an offset, so the final wait always happens. *)
Definition permanent_delete_subject (subject : string) : M (list Z) :=
  primary ← begin_write;
  _ ← ensure_writable subject;
  s ← read_store;
  all ← lift (permanent_subject_checks s subject);
  s ← read_store;
  let next := next_version s subject in
  _ ← none_referenced subject all;
  let '(key, value) := encode_version_high_water subject next in
  _ ← produce key (Some value) primary;
  _ ← produce_tombstones ((encode_tombstone subject <$> all) ++
        [config_key (Some subject); mode_key (Some subject)]) primary;
  _ ← await_applied;
  mret all.
End kafkastore.
