(* ===== verification/KafkaFacts.v ===== *)
(** * Correctness of the Kafka-backed store (kafkastore/mod.rs)

    A small Hoare logic for the facade's effect, the abstract specification of
    each write as a function of the registry state, and the refinement: with a
    fenced log, every operation either has its specified effect, visible to
    the next reader, or none. *)

From stdpp Require Import base gmap strings list pretty.
From Stdlib Require Import ZArith Lia.
From S2P Require Import Prelude Json Types Store Closure StoreFacts StoreSpec StoreQueries.
From S2P Require Import Record RecordFacts Compat Reader ReaderFacts KafkaStore.

#[local] Existing Instance M_ret.
#[local] Existing Instance M_bind.

(** What serde_json does with the texts the writer builds by hand: the marker
    key and its empty value. *)
Class MarkerLaws `{SerdeJson} `{UuidLib} := {
  marker_parse : ∀ t : Uuid, json_parse (barrier_key t) =
    Some (JObject [("keytype", JString "NOOP"); ("magic", JNumber (PosInt 0));
                   ("barrier", JString (uuid_to_string t))]);
  empty_parse : json_parse "{}" = Some (JObject []);
}.

Section facts.
Context `{SchemaFormat} `{SerdeJsonLaws} `{UuidLib} `{!MarkerLaws}.

(** ** Hoare triples *)

Definition hoare {A} (P : World → Prop) (m : M A) (Q : A → World → Prop)
    (E : SrError → World → Prop) : Prop :=
  ∀ w, P w → match m w with (Ok a, w') => Q a w' | (Err e, w') => E e w' end.

Lemma hoare_bind {A B} P (m : M A) (k : A → M B) R Q E :
  hoare P m R E → (∀ a, hoare (R a) (k a) Q E) → hoare P (m ≫= k) Q E.
Proof.
  intros Hm Hk w Hw. specialize (Hm w Hw). unfold mbind, M_bind.
  destruct (m w) as [[a|e] w']; [by apply Hk|done].
Qed.

Lemma hoare_conseq {A} P P' (m : M A) Q Q' (E E' : SrError → World → Prop) :
  hoare P' m Q' E' → (∀ w, P w → P' w) → (∀ a w, Q' a w → Q a w) → (∀ e w, E' e w → E e w) →
  hoare P m Q E.
Proof.
  intros Hm HP HQ HE w Hw. specialize (Hm w (HP w Hw)). destruct (m w) as [[a|e] w']; auto.
Qed.

Lemma hoare_ret {A} (P : World → Prop) (a : A) (Q : A → World → Prop) E :
  (∀ w, P w → Q a w) → hoare P (mret a) Q E.
Proof. intros Hq w Hw. by apply Hq. Qed.

Lemma hoare_throw {A} (P : World → Prop) e (Q : A → World → Prop) (E : SrError → World → Prop) :
  (∀ w, P w → E e w) → hoare P (throw e) Q E.
Proof. intros He w Hw. by apply He. Qed.

Lemma hoare_lift {A} (P : World → Prop) r (Q : A → World → Prop) (E : SrError → World → Prop) :
  (∀ a w, r = Ok a → P w → Q a w) → (∀ e w, r = Err e → P w → E e w) → hoare P (lift r) Q E.
Proof. intros Hq He w Hw. unfold lift. destruct r; auto. Qed.

(** ** Records that change nothing *)

Definition noop_kv (r : kv) : Prop := ∀ s, apply_kv s r = s.

Lemma marker_noop t v : noop_kv (barrier_key t, v).
Proof.
  intros s. unfold apply_kv, decode, from_slice_value. simpl. rewrite marker_parse. simpl.
  unfold from_slice at 1. rewrite marker_parse. simpl. done.
Qed.

Lemma foldl_noop l s : Forall noop_kv l → foldl apply_kv s l = s.
Proof. induction 1 as [|r l Hr _ IH]; simpl; [done|]. by rewrite Hr. Qed.

(** The replay of the whole log: the state of a reader that has caught up. *)
Definition full (w : World) : StoreState := foldl apply_kv (w_defaults w) (w_log w).

(** The fenced environment: other nodes append nothing but markers. *)
Definition quiet (w : World) : Prop := Forall (λ rp, Forall noop_kv (rp_foreign rp)) (w_script w).

(** The world stands at state [s]: the log replays to it. *)
Record at_state (s : StoreState) (w : World) : Prop := {
  at_quiet : quiet w;
  at_full : full w = s;
  at_applied : w_applied w ≤ length (w_log w);
}.

(** What the reader has not applied yet changes nothing. *)
Definition settled (w : World) : Prop := Forall noop_kv (drop (w_applied w) (w_log w)).

Lemma settled_live s w : at_state s w → settled w → live w = s.
Proof.
  intros [_ Hf _] Hs. rewrite <-Hf. unfold live, full.
  rewrite <-(take_drop (w_applied w) (w_log w)) at 2. rewrite foldl_app. by rewrite (foldl_noop (drop _ _)).
Qed.

(** Everything from position [n] on is a marker. *)
Definition quiet_from (n : nat) (w : World) : Prop := Forall noop_kv (drop n (w_log w)).

Lemma Forall_drop_mono (P : kv → Prop) n m l :
  n ≤ m → Forall P (drop n l) → Forall P (drop m l).
Proof.
  intros Hle Hf. replace m with (n + (m - n)) by lia. rewrite <-drop_drop. by apply Forall_drop.
Qed.

Lemma Forall_drop_app (P : kv → Prop) n l k :
  Forall P (drop n l) → Forall P k → Forall P (drop n (l ++ k)).
Proof.
  intros Hl Hk. rewrite drop_app. apply Forall_app. split; [done|]. by apply Forall_drop.
Qed.

(** ** The environment's turn *)

Lemma interact_spec s w rp w' :
  interact w = (rp, w') → at_state s w →
  at_state s w' ∧ w_written w' = w_written w ∧
  (∀ n, quiet_from n w → quiet_from n w') ∧ (settled w → settled w') ∧
  length (w_log w) ≤ length (w_log w').
Proof.
  unfold interact. intros Hi [Hq Hf Ha]. unfold quiet in Hq.
  destruct (w_script w) as [|r rest] eqn:Hs.
  { injection Hi as <- <-. split_and!; try done. split; [|done..]. unfold quiet. by rewrite Hs. }
  injection Hi as <- <-. apply Forall_cons in Hq as [Hr Hq].
  assert (∀ n, quiet_from n w → Forall noop_kv (drop n (w_log w ++ rp_foreign r))) as Hqf.
  { intros n Hn. by apply Forall_drop_app. }
  split_and!; simpl; try done.
  - split; simpl; [done| |lia]. unfold full. simpl. rewrite foldl_app, foldl_noop by done. exact Hf.
  - intros Hset. unfold settled. simpl.
    destruct (decide (w_applied w + rp_progress r ≤ length (w_log w ++ rp_foreign r))).
    + rewrite Nat.min_r by done. apply (Forall_drop_mono _ (w_applied w)); [lia|]. by apply Hqf.
    + rewrite Nat.min_l by lia. by rewrite drop_all.
  - rewrite length_app. lia.
Qed.

Definition transient (e : SrError) : Prop :=
  match e with Backend _ | OperationTimedOut | UnknownLeader _ => True | _ => False end.

Lemma outcome_error_transient o e : outcome_error o = Some e → transient e.
Proof. destruct o; simpl; intros; simplify_eq; done. Qed.

(** The condition carried through the calls that only wait. *)
Definition steady (s : StoreState) (P : World → Prop) (w : World) : Prop := at_state s w ∧ P w.

(** A predicate the environment's turn keeps. *)
Definition env_stable (P : World → Prop) : Prop :=
  ∀ s w rp w', interact w = (rp, w') → at_state s w → P w → P w'.

Lemma env_stable_settled : env_stable settled.
Proof. intros s w rp w' Hi Hs. by apply (interact_spec s w rp w' Hi Hs). Qed.

Lemma env_stable_quiet_from n : env_stable (quiet_from n).
Proof. intros s w rp w' Hi Hs. by apply (interact_spec s w rp w' Hi Hs). Qed.

Lemma env_stable_True : env_stable (λ _, True).
Proof. by intros s w rp w'. Qed.

Lemma hoare_await s P :
  env_stable P → hoare (steady s P) await (λ _, steady s P) (λ e w, transient e ∧ steady s P w).
Proof.
  intros Hst w [Hs Hp]. unfold await. destruct (interact w) as [rp w'] eqn:Hi.
  assert (steady s P w') as Hw' by (split; [by apply (interact_spec s w rp w' Hi Hs)|by eapply Hst]).
  destruct rp as [r|]; [|done]. destruct (outcome_error _) eqn:Ho; [|done].
  split; [by eapply outcome_error_transient|done].
Qed.

Lemma hoare_read_store s :
  hoare (steady s settled) read_store (λ s', λ w, s' = s ∧ steady s settled w) (λ _ _, False).
Proof.
  intros w [Hs Hset]. unfold read_store. destruct (interact w) as [rp w'] eqn:Hi. simpl.
  destruct (interact_spec s w rp w' Hi Hs) as (Hs' & _ & _ & Hset' & _).
  split; [by apply settled_live; [|apply Hset']|]. split; auto.
Qed.

Lemma at_state_append s r w : at_state s w → at_state (apply_kv s r) (append_log r w).
Proof.
  intros [Hq Hf Ha]. split; simpl; [done| |rewrite length_app; lia].
  unfold full in *. simpl. rewrite foldl_app. simpl. by rewrite Hf.
Qed.

Lemma at_state_append_noop s r w : noop_kv r → at_state s w → at_state s (append_log r w).
Proof. intros Hr Hs. rewrite <-(Hr s). by apply at_state_append. Qed.

(** ** Barriers *)

Lemma hoare_order_barrier s :
  hoare (steady s (λ _, True)) order_barrier
    (λ b, steady s (λ w, quiet_from b.2 w ∧ b.2 ≤ length (w_log w)))
    (λ e w, transient e ∧ at_state s w).
Proof.
  intros w [Hs _]. unfold order_barrier. destruct (interact w) as [rp w'] eqn:Hi.
  destruct (interact_spec s w rp w' Hi Hs) as (Hs' & _).
  destruct rp as [r|]; [|done].
  assert (at_state s (append_log (barrier_key (rp_token r), Some "{}") w')) as Ha
    by (apply at_state_append_noop; [apply marker_noop|done]).
  destruct (outcome_error _) eqn:Ho.
  - split; [by eapply outcome_error_transient|]. by destruct (rp_landed r).
  - split; [done|]. simpl. unfold quiet_from. simpl. rewrite length_app. simpl. split; [|lia].
    rewrite drop_ge; [constructor|]. rewrite length_app. simpl. lia.
Qed.

Lemma at_state_apply_up_to s n w :
  at_state s w → n ≤ length (w_log w) → at_state s (apply_up_to n w).
Proof. intros [Hq Hf Ha] Hn. split; simpl; [done|done|lia]. Qed.

(** A finished wait leaves nothing unapplied but markers. *)
Lemma hoare_finish_barrier s t :
  hoare (steady s settled) (finish_barrier t) (λ _, steady s settled)
    (λ e w, transient e ∧ at_state s w).
Proof.
  intros w [Hs Hset]. unfold finish_barrier. destruct (interact w) as [rp w'] eqn:Hi.
  destruct (interact_spec s w rp w' Hi Hs) as (Hs' & _ & _ & Hset' & _). specialize (Hset' Hset).
  destruct rp as [r|]; [|done].
  set (w'' := if rp_landed r then _ else _).
  assert (at_state s w'' ∧ settled w'') as [Hs2 Hset2].
  { unfold w''. destruct (rp_landed r); [|done]. split.
    - apply at_state_append_noop; [apply marker_noop|done].
    - unfold settled. simpl. apply Forall_drop_app; [done|]. repeat constructor. apply marker_noop. }
  destruct (rp_outcome r); by (split; [|]).
Qed.

Lemma hoare_await_barrier s b :
  hoare (steady s (λ w, quiet_from b.2 w ∧ b.2 ≤ length (w_log w))) (await_barrier b)
    (λ _, steady s settled) (λ e w, transient e ∧ at_state s w).
Proof.
  assert (env_stable (λ w, quiet_from b.2 w ∧ b.2 ≤ length (w_log w))) as Hst.
  { intros s' w rp w' Hi Hs [Hq Hl]. destruct (interact_spec s' w rp w' Hi Hs) as (_ & _ & Hqf & _ & Hlen).
    split; [auto|lia]. }
  eapply hoare_bind; [eapply hoare_conseq; [apply (hoare_await s _ Hst)|done|done|]|].
  { intros e w [? [? _]]. done. }
  intros rp. simpl. eapply (hoare_bind _ _ _ (λ _, steady s settled)); [|intros; apply hoare_finish_barrier].
  intros w [Hs [Hq Hl]]. simpl. split; [by apply at_state_apply_up_to|].
  unfold settled. simpl. eapply Forall_drop_mono; [|exact Hq]. lia.
Qed.

Lemma hoare_await_applied s :
  hoare (at_state s) await_applied (λ _, steady s settled) (λ e w, transient e ∧ at_state s w).
Proof.
  eapply hoare_bind; [|intros b; apply hoare_await_barrier].
  eapply hoare_conseq; [apply hoare_order_barrier|by split|done|done].
Qed.

(** ** Preparing a write *)

Lemma hoare_fence s g :
  hoare (at_state s) (fence g) (λ _, at_state s) (λ e w, transient e ∧ at_state s w).
Proof.
  unfold fence. eapply (hoare_bind _ _ _ (λ _, at_state s)); [by intros w Hw|].
  intros fenced. case_bool_decide; [by apply hoare_ret|].
  eapply (hoare_bind _ _ _ (λ _, at_state s)).
  - eapply hoare_conseq; [apply (hoare_await s _ env_stable_True)|by split|by intros _ w []|].
    by intros e w [? []].
  - intros _ w [Hq Hf Ha]. by split.
Qed.

Lemma hoare_asks {A} (P : World → Prop) (f : World → A) E : hoare P (asks f) (λ _, P) E.
Proof. by intros w Hw. Qed.

(** A prepared write starts from a reader that has caught up. *)
Lemma hoare_prepare_write s :
  hoare (at_state s) prepare_write (λ _, steady s settled) (λ e w, transient e ∧ at_state s w).
Proof.
  assert (hoare (at_state s) (b ← order_barrier; await_barrier b) (λ _, steady s settled)
            (λ e w, transient e ∧ at_state s w)) as Hbarrier by apply hoare_await_applied.
  assert (∀ A (k : M A) Q,
    hoare (steady s settled) k Q (λ e w, transient e ∧ at_state s w) →
    hoare (at_state s) (b ← order_barrier; _ ← await_barrier b; k) Q
      (λ e w, transient e ∧ at_state s w)) as Hthen.
  { intros A k Q Hk. eapply hoare_bind.
    - eapply hoare_conseq; [apply hoare_order_barrier|by split|intros a w Ha; exact Ha|done].
    - intros b. eapply hoare_bind; [apply hoare_await_barrier|]. intros u. exact Hk. }
  unfold prepare_write. eapply hoare_bind; [apply hoare_asks|]. intros [before|].
  2: { apply Hthen. by apply hoare_ret. }
  destruct (ps_generation_id before) as [g|]; [|by apply hoare_throw].
  destruct (ps_member_id before) as [m|]; [|by apply hoare_throw].
  destruct (negb (ps_is_primary before)); [by apply hoare_throw|].
  eapply hoare_bind; [apply hoare_asks|]. intros group_id.
  eapply hoare_bind; [apply hoare_fence|]. intros ?. apply Hthen.
  eapply hoare_bind; [apply hoare_asks|]. intros [after|]; [|apply hoare_throw; intros w [? ?]; by split].
  case_match; [apply hoare_throw; intros w [? ?]; by split|by apply hoare_ret].
Qed.

Lemma hoare_begin_write s :
  hoare (at_state s) begin_write (λ _, steady s settled) (λ e w, transient e ∧ at_state s w).
Proof.
  eapply (hoare_bind _ _ _ (λ _, at_state s)); [|intros; apply hoare_prepare_write].
  eapply (hoare_bind _ _ _ (λ _, at_state s)); [|intros; by apply hoare_ret].
  eapply hoare_conseq; [apply (hoare_await s _ env_stable_True)|by split|by intros _ w []|].
  by intros e w [? []].
Qed.

(** ** Producing *)

Lemma hoare_commit s r :
  hoare (at_state s) (commit r) (λ _, at_state (apply_kv s r))
    (λ e w, transient e ∧ (at_state s w ∨ at_state (apply_kv s r) w)).
Proof.
  intros w Hs. unfold commit. destruct (interact w) as [rp w'] eqn:Hi.
  destruct (interact_spec s w rp w' Hi Hs) as (Hs' & _).
  destruct rp as [rp|]; [|by split; [|left]]. destruct (outcome_error _) eqn:Ho.
  - split; [by eapply outcome_error_transient|]. destruct (rp_landed rp); [|auto].
    right. by apply at_state_append.
  - by apply at_state_append.
Qed.

Lemma hoare_await_at s E' :
  (∀ e w, transient e → at_state s w → E' e w) →
  hoare (at_state s) await (λ _, at_state s) E'.
Proof.
  intros HE. eapply hoare_conseq; [apply (hoare_await s _ env_stable_True)|by split|by intros _ w []|].
  intros e w [? []]. auto.
Qed.

Lemma hoare_produce s key value group :
  hoare (at_state s) (produce key value group) (λ _, at_state (apply_kv s (key, value)))
    (λ e w, transient e ∧ (at_state s w ∨ at_state (apply_kv s (key, value)) w)).
Proof.
  unfold produce. eapply (hoare_bind _ _ _ (λ _, at_state s)); [by intros w [Hq Hf Ha]|].
  intros ?. destruct group as [g|]; [|apply hoare_commit].
  unfold produce_fenced. eapply hoare_bind; [apply hoare_await_at; auto|].
  intros ?. eapply (hoare_bind _ _ _ (λ _, at_state s)); [|intros; apply hoare_commit].
  intros w Hs. unfold abort_on_error.
  assert (hoare (at_state s) (_ ← await; await) (λ _, at_state s)
            (λ e w, transient e ∧ at_state s w)) as Hb.
  { eapply (hoare_bind _ _ _ (λ _, at_state s)); [|intros ?]; by apply hoare_await_at. }
  specialize (Hb w Hs).
  destruct ((_ ← await; await) w) as [[x|e] w']; [done|]. destruct Hb as [He Hw'].
  split; [done|]. left. destruct (interact w') as [rp w''] eqn:Hi.
  by apply (interact_spec s w' rp w'' Hi).
Qed.

Lemma hoare_publish s r group :
  hoare (at_state s) (publish r group) (λ _, steady (apply_kv s r) settled)
    (λ e w, transient e ∧ (at_state s w ∨ at_state (apply_kv s r) w)).
Proof.
  destruct r as [key value]. unfold publish.
  eapply hoare_bind; [apply hoare_produce|]. intros ?.
  eapply hoare_conseq; [apply hoare_await_applied|done|done|]. intros e w [? ?]. auto.
Qed.
End facts.
