(* ===== verification/KafkaSpec.v ===== *)
(** * The facade refines its specification (kafkastore/mod.rs)

    The specification of each write is a pure function of the registry state:
    the error it must give, or the answer and the next state. The theorems say
    that the facade, against a fenced log, implements it: a success answers
    what the specification answers and leaves the node's own live state at the
    specified next state; a refusal is the specified refusal and leaves the
    state alone; any other failure is transient (timeout, broker, election)
    and leaves the log before or after the write, never in between for a
    single-record write. *)

From stdpp Require Import base gmap strings list pretty.
From Stdlib Require Import ZArith Lia.
From S2P Require Import Prelude Text Json Types Store Closure StoreFacts StoreSpec StoreQueries.
From S2P Require Import Record RecordFacts Compat Reader ReaderFacts KafkaStore KafkaFacts.

#[local] Existing Instance M_ret.
#[local] Existing Instance M_bind.

Abbreviation spec A := (StoreState → result SrError (A * StoreState)).

(** ** The specifications *)

Section specs.
Context `{SchemaFormat}.

Definition spec_writable (subject : string) (s : StoreState) : result SrError unit :=
  if String.eqb (effective_mode s subject) "READONLY" then Err (OperationNotPermitted subject)
  else Ok tt.

Definition spec_not_referenced (subject : string) (v : Z) (s : StoreState) : result SrError unit :=
  match referenced_by s subject v false with
  | [] => Ok tt
  | _ => Err (ReferencedByOthers (version_label subject v))
  end.

Fixpoint spec_none_referenced (subject : string) (vs : list Z) (s : StoreState)
    : result SrError unit :=
  match vs with
  | [] => Ok tt
  | v :: vs => _ ← spec_not_referenced subject v s; spec_none_referenced subject vs s
  end.

Definition spec_import (req : RegisterSchema) (schema : string)
    (resolved : list ResolvedReference) : spec Registered := λ s,
  match rq_import_id req, rq_import_version req with
  | Some id, Some v =>
      _ ← format_parse (rq_ty req) schema resolved;
      conflicts ← schema_id_conflicts s id (rq_ty req) schema (rq_references req)
                    (rq_message_type req);
      if (conflicts : bool) then Err (SchemaIdConflict id)
      else Ok (mkRegistered id v,
               apply_schema (schema_value (rq_subject req) v id (rq_ty req) schema
                 (rq_references req) (rq_message_type req) false ∅) s)
  | _, _ => Err (InvalidSchema "IMPORT mode requires explicit id and version")
  end.

Definition spec_assign (req : RegisterSchema) (schema : string)
    (resolved : list ResolvedReference) : spec Registered := λ s,
  match find_under_subject s (rq_subject req) (rq_ty req) schema (rq_references req)
          (rq_message_type req) false with
  | Some existing => Ok (existing, s)
  | None =>
      _ ← check_registration s (rq_subject req) (rq_ty req) schema resolved;
      '(reg, _) ← Store.register (rq_subject req) (rq_ty req) schema (rq_references req)
                    (rq_message_type req) s;
      Ok (reg, apply_schema (schema_value (rq_subject req) (reg_version reg) (reg_id reg)
                 (rq_ty req) schema (rq_references req) (rq_message_type req) false ∅) s)
  end.

Definition spec_register (req : RegisterSchema) : spec Registered := λ s,
  let mode := effective_mode s (rq_subject req) in
  if String.eqb mode "READONLY" then Err (OperationNotPermitted (rq_subject req))
  else
    resolved ← resolve_closure s (rq_references req);
    schema ← normalized_storage_form (rq_ty req) (rq_schema req) resolved;
    if String.eqb mode "IMPORT" then spec_import req schema resolved s
    else spec_assign req schema resolved s.

Definition spec_set_compat (subject : option string) (level : string) : spec unit := λ s,
  let mode := match subject with Some sj => effective_mode s sj | None => global_mode s end in
  if String.eqb mode "READONLY" then Err (OperationNotPermitted (default "global" subject))
  else Ok (tt, match subject with
               | Some sj => set_subject_compat sj level s
               | None => set_global_compat level s
               end).

Definition spec_delete_subject_compat (subject : string) : spec (option string) := λ s,
  match subject_compat s subject with
  | None => Ok (None, s)
  | Some level => Ok (Some level, clear_subject_compat subject s)
  end.

Definition spec_set_global_mode (mode : string) : spec unit := λ s,
  if negb (existsb (String.eqb mode) valid_modes) then Err (InvalidMode mode)
  else if String.eqb mode "IMPORT" && negb (bool_decide (list_subjects s true = []))
  then Err (OperationNotPermitted "registry not empty")
  else Ok (tt, Store.set_global_mode mode s).

Definition spec_set_subject_mode (subject mode : string) : spec unit := λ s,
  if negb (existsb (String.eqb mode) valid_modes) then Err (InvalidMode mode)
  else if String.eqb mode "IMPORT" && bool_decide (is_Some (versions s subject true))
  then Err (OperationNotPermitted subject)
  else Ok (tt, Store.set_subject_mode subject mode s).

Definition spec_clear_subject_mode (subject : string) : spec unit := λ s,
  Ok (tt, Store.clear_subject_mode subject s).

Definition spec_soft_delete_version (subject : string) (v : Z) : spec Z := λ s,
  _ ← spec_writable subject s;
  _ ← ok_or (versions s subject true) (SubjectNotFound subject);
  found ← ok_or (version s subject (Some v) true) VersionNotFound;
  _ ← spec_not_referenced subject v s;
  Ok (vs_version found,
      apply_schema (schema_value subject (vs_version found) (vs_id found) (vs_ty found)
        (vs_schema found) (vs_references found) (vs_message_type found) true (vs_extra found)) s).

(** The high-water mark the delete paths persist first. *)
Definition keep_high_water (subject : string) (s : StoreState) : StoreState :=
  observe_next_version subject (next_version s subject) s.

Definition spec_permanent_delete_version (subject : string) (v : Z) : spec Z := λ s,
  _ ← spec_writable subject s;
  _ ← permanent_delete_checks s subject v;
  _ ← spec_not_referenced subject v s;
  Ok (v, (Store.permanent_delete_version subject v (keep_high_water subject s)).2).

Definition spec_soft_delete_subject (subject : string) : spec (list Z) := λ s,
  _ ← spec_writable subject s;
  vs ← soft_delete_checks s subject;
  _ ← spec_none_referenced subject vs s;
  Ok (vs, (Store.soft_delete_subject subject s).2).

(** The changes of a permanent subject delete, in the order of the records. *)
Definition subject_delete_ops (subject : string) (vs : list Z) (next : Z)
    : list (StoreState → StoreState) :=
  observe_next_version subject next ::
  ((λ v s, (Store.permanent_delete_version subject v s).2) <$> vs) ++
  [clear_subject_compat subject; Store.clear_subject_mode subject].

Definition run_ops (ops : list (StoreState → StoreState)) (s : StoreState) : StoreState :=
  foldl (λ s f, f s) s ops.

Definition spec_permanent_delete_subject (subject : string) : spec (list Z) := λ s,
  _ ← spec_writable subject s;
  all ← permanent_subject_checks s subject;
  _ ← spec_none_referenced subject all s;
  Ok (all, run_ops (subject_delete_ops subject all (next_version s subject)) s).
End specs.

Section facts.
Context `{SchemaFormat} `{SerdeJsonLaws} `{UuidLib} `{!MarkerLaws}.

(** [m] implements [f] from the states in [P]; [partial s s'] are the states a
    transient failure may leave. *)
Definition refines {A} (P : StoreState → Prop) (f : spec A)
    (partial : StoreState → StoreState → Prop) (m : M A) : Prop :=
  ∀ s w, P s → at_state s w →
  match m w with
  | (Ok a, w') => f s = Ok (a, live w') ∧ at_state (live w') w'
  | (Err e, w') =>
      (f s = Err e ∧ at_state s w') ∨
      (transient e ∧ ∃ s', at_state s' w' ∧ partial s s')
  end.

(** Before or after, for a write of one record. *)
Definition atomic {A} (f : spec A) (s s' : StoreState) : Prop :=
  s' = s ∨ ∃ a, f s = Ok (a, s').

(** The two postconditions of [refines], for one start state. *)
Definition done_ok {A} (r : result SrError (A * StoreState)) (a : A) (w : World) : Prop :=
  ∃ s', r = Ok (a, s') ∧ steady s' settled w.
Definition done_err {A} (r : result SrError (A * StoreState)) (s : StoreState)
    (partial : StoreState → Prop) (e : SrError) (w : World) : Prop :=
  (r = Err e ∧ at_state s w) ∨ (transient e ∧ ∃ s', at_state s' w ∧ partial s').

(** A triple per start state is a refinement. *)
Lemma refines_intro {A} P (f : spec A) partial (m : M A) :
  (∀ s, P s → hoare (at_state s) m (done_ok (f s)) (done_err (f s) s (partial s))) → refines P f partial m.
Proof.
  intros Hm s w HP Hw. specialize (Hm s HP w Hw). destruct (m w) as [[a|e] w']; [|exact Hm].
  destruct Hm as (s' & Hf & Hs' & Hset). by rewrite (settled_live s' w').
Qed.

(** Every write starts by catching up; the rest is proved from there. *)
Lemma hoare_begin {A} s (r : result SrError (A * StoreState)) (partial : StoreState → Prop)
    (k : option ConsumerGroupMetadata → M A) :
  partial s → (∀ g, hoare (steady s settled) (k g) (done_ok r) (done_err r s partial)) →
  hoare (at_state s) (g ← begin_write; k g) (done_ok r) (done_err r s partial).
Proof.
  intros Hp Hk. eapply hoare_bind; [|exact Hk]. eapply hoare_conseq; [apply hoare_begin_write|done|done|].
  intros e w' [He Hw']. right. split; [done|]. eauto.
Qed.

Lemma refines_begin {A} P (f : spec A) partial (k : option ConsumerGroupMetadata → M A) :
  (∀ s, partial s s) →
  (∀ s g, P s → hoare (steady s settled) (k g) (done_ok (f s)) (done_err (f s) s (partial s))) →
  refines P f partial (g ← begin_write; k g).
Proof. intros Hrefl Hk. apply refines_intro. intros s HP. apply hoare_begin; [done|]. intros g. by apply Hk. Qed.

(** Reading the store gives the state the world stands at. *)
Lemma hoare_read {A} s (k : StoreState → M A) Q E :
  hoare (steady s settled) (k s) Q E → hoare (steady s settled) (s' ← read_store; k s') Q E.
Proof.
  intros Hk. eapply hoare_bind.
  - eapply hoare_conseq; [apply hoare_read_store|done|intros s' w Hw; exact Hw|done].
  - intros s' w [-> Hw]. by apply Hk.
Qed.

(** A pure check: its error is the specified one. *)
Lemma hoare_check {A B} s (r : result SrError B) (k : B → M A) Q E :
  (∀ e w, r = Err e → at_state s w → E e w) →
  (∀ b, r = Ok b → hoare (steady s settled) (k b) Q E) →
  hoare (steady s settled) (b ← lift r; k b) Q E.
Proof.
  intros He Hk. eapply hoare_bind.
  - apply (hoare_lift _ _ (λ b w, r = Ok b ∧ steady s settled w)); [auto|].
    intros e w Hr [Hs _]. auto.
  - intros b w [Hr Hw]. by apply Hk.
Qed.

Lemma hoare_fail {A} s e (Q : A → World → Prop) (E : SrError → World → Prop) :
  (∀ w, at_state s w → E e w) → hoare (steady s settled) (throw e) Q E.
Proof. intros He. apply hoare_throw. intros w [Hs _]. auto. Qed.

(** The record that ends a write is read back as the specified change. *)
Lemma hoare_publish_as {A} s r group s' (a : A) (f : result SrError (A * StoreState))
    (partial : StoreState → Prop) :
  apply_kv s r = s' → f = Ok (a, s') → partial s → partial s' →
  hoare (steady s settled) (_ ← publish r group; mret a) (done_ok f) (done_err f s partial).
Proof.
  intros <- -> Hp Hp'. eapply hoare_bind.
  - eapply hoare_conseq; [apply hoare_publish|by intros w [? _]|intros x w Hw; exact Hw|].
    intros e w [He [Hw|Hw]]; right; eauto.
  - intros x. apply hoare_ret. intros w Hw. eexists. split; [done|exact Hw].
Qed.

Lemma hoare_publish_unit s r group s' (f : result SrError (unit * StoreState))
    (partial : StoreState → Prop) :
  apply_kv s r = s' → f = Ok (tt, s') → partial s → partial s' →
  hoare (steady s settled) (publish r group) (done_ok f) (done_err f s partial).
Proof.
  intros <- -> Hp Hp'. eapply hoare_conseq; [apply hoare_publish|by intros w [? _]| |].
  - intros [] w Hw. eexists. split; [done|exact Hw].
  - intros e w [He [Hw|Hw]]; right; eauto.
Qed.

(** ** What the records mean *)

Lemma apply_schema_kv s subject v id ty schema refs mt deleted extra :
  value_ok (schema_value subject v id ty schema refs mt deleted (default ∅ extra)) →
  let '(key, value) := schema_kv subject v id ty schema refs mt deleted extra in
  apply_kv s (key, Some value) =
    apply_schema (schema_value subject v id ty schema refs mt deleted (default ∅ extra)) s.
Proof.
  intros Hok. pose proof (decode_schema_kv_facts subject v id ty schema refs mt deleted extra Hok) as Hd.
  unfold schema_kv in *. unfold apply_kv. simpl in *. by rewrite Hd.
Qed.

Lemma apply_markers s subject osubject level mode v :
  in_i32 v →
  apply_kv s ((encode_config osubject level).1, Some (encode_config osubject level).2) =
    match osubject with
    | Some sj => set_subject_compat sj level s
    | None => set_global_compat level s
    end ∧
  apply_kv s (config_key (Some subject), None) = clear_subject_compat subject s ∧
  apply_kv s ((encode_mode osubject mode).1, Some (encode_mode osubject mode).2) =
    match osubject with
    | Some sj => Store.set_subject_mode sj mode s
    | None => Store.set_global_mode mode s
    end ∧
  apply_kv s (mode_key (Some subject), None) = Store.clear_subject_mode subject s ∧
  apply_kv s ((encode_delete_subject subject v).1, Some (encode_delete_subject subject v).2) =
    (Store.soft_delete_subject subject s).2 ∧
  apply_kv s ((encode_version_high_water subject v).1, Some (encode_version_high_water subject v).2) =
    observe_next_version subject v s ∧
  apply_kv s (encode_tombstone subject v, None) =
    (Store.permanent_delete_version subject v s).2.
Proof.
  intros Hv. pose proof (decode_markers_facts subject osubject level mode v Hv) as (Hd1 & _ & Hd3 & _ & Hd5 & Hd6).
  pose proof (decode_markers_facts subject (Some subject) level mode v Hv) as (_ & Hd2 & _ & Hd4 & _ & _).
  pose proof (decode_tombstone_facts subject v 0 Avro "" [] None false None Hv) as [_ Hd7].
  unfold apply_kv. cbn [fst snd]. rewrite Hd1, Hd2, Hd3, Hd4, Hd5, Hd6, Hd7. by destruct osubject.
Qed.

(** ** The operations *)

Definition any_state (s : StoreState) : Prop := True.

(** What the soft delete must read back: stored numbers in range, stored
    foreign metadata free of floats. *)
Definition stored_ok (s : StoreState) : Prop :=
  ∀ id reg, by_id s !! id = Some reg →
    in_i32 id ∧ Forall (λ r, in_i32 (ref_version r)) (rs_references reg) ∧ extra_ok (rs_extra reg).

(** The request's numbers are [i32]s. *)
Definition request_ok (req : RegisterSchema) : Prop :=
  Forall (λ r, in_i32 (ref_version r)) (rq_references req) ∧
  (∀ id, rq_import_id req = Some id → in_i32 id) ∧
  (∀ v, rq_import_version req = Some v → in_i32 v).

Definition ids_i32 (s : StoreState) : Prop := ∀ id, is_Some (by_id s !! id) → in_i32 id.

Lemma extra_ok_empty : extra_ok ∅.
Proof. intros k v Hk. by rewrite lookup_empty in Hk. Qed.

Lemma register_i32 subject ty schema refs mt s r s' :
  store_wf s → ids_i32 s → Store.register subject ty schema refs mt s = Ok (r, s') →
  in_i32 (reg_version r) ∧ in_i32 (reg_id r).
Proof.
  intros Hs Hi (? & ? & _ & _ & [[Hf _]|(_ & id & s1 & Ha & Hp)])%register_inv.
  - apply find_under_subject_canonical_Some in Hf as (_ & vs & e & Hvs & He & <- & <-).
    pose proof (wf_hist _ Hs _ _ Hvs) as Hw. split; [by apply (hist_i32 _ _ _ Hw)|].
    apply Hi. by apply (hist_stored _ _ _ Hw).
  - injection Hp as <- <-. simpl. unfold allocate_id in Ha. split.
    + assert (next_versions s1 = next_versions s) as Hn by (by case_match; injection Ha as <- <-).
      unfold next_version. rewrite Hn. destruct (next_versions s !! subject) as [n|] eqn:E; [|done].
      by apply (wf_next _ Hs) in E.
    + case_match eqn:E; injection Ha as <- <-; [|apply i32_wrap_range].
      apply Hi. by apply (canon_stored _ _ _ (wf_canon _ Hs)) in E.
Qed.

Lemma hoare_register_assign s g req schema resolved :
  store_wf s → ids_i32 s → request_ok req →
  hoare (steady s settled) (register_assign req schema resolved g)
    (done_ok (spec_assign req schema resolved s))
    (done_err (spec_assign req schema resolved s) s (atomic (spec_assign req schema resolved) s)).
Proof.
  intros Hs Hi (Hrefs & _ & _). unfold register_assign. apply hoare_read.
  unfold spec_assign at 1 2. destruct (find_under_subject _ _ _ _ _ _ _) as [r|] eqn:Hf.
  { apply hoare_ret. intros w Hw. by exists s. }
  apply hoare_read. apply hoare_check.
  { intros e w -> Hw. by left. }
  intros [] Hc. rewrite Hc. apply hoare_read. simpl. apply hoare_check.
  { intros e w -> Hw. by left. }
  intros [reg s1] Hreg. rewrite Hreg. simpl.
  destruct (register_i32 _ _ _ _ _ _ _ _ Hs Hi Hreg) as [Hv Hid].
  eapply hoare_publish_as; [|done|by left|].
  - apply (apply_schema_kv s (rq_subject req) (reg_version reg) (reg_id reg) (rq_ty req) schema
      (rq_references req) (rq_message_type req) false None). split_and!; [done..|apply extra_ok_empty].
  - right. exists reg. unfold spec_assign. rewrite Hf, Hc. simpl. by rewrite Hreg.
Qed.

Lemma hoare_register_import s g req schema resolved :
  request_ok req →
  hoare (steady s settled) (register_import req schema resolved g)
    (done_ok (spec_import req schema resolved s))
    (done_err (spec_import req schema resolved s) s (atomic (spec_import req schema resolved) s)).
Proof.
  intros (Hrefs & Hid & Hv). unfold register_import, spec_import at 1 2.
  destruct (rq_import_id req) as [id|] eqn:Eid; [|apply hoare_fail; by left].
  destruct (rq_import_version req) as [v|] eqn:Ev; [|apply hoare_fail; by left].
  apply hoare_check; [intros e w -> Hw; by left|]. intros c Hc. rewrite Hc.
  apply hoare_read. simpl. apply hoare_check; [intros e w -> Hw; by left|].
  intros conflicts Hconf. rewrite Hconf. simpl.
  destruct conflicts; [apply hoare_fail; by left|].
  eapply hoare_publish_as; [|done|by left|].
  - apply (apply_schema_kv s (rq_subject req) v id (rq_ty req) schema
      (rq_references req) (rq_message_type req) false None). split_and!; [by apply Hv|by apply Hid|done|apply extra_ok_empty].
  - right. eexists. unfold spec_import. rewrite Eid, Ev, Hc. simpl. rewrite Hconf. simpl. done.
Qed.

Lemma hoare_register req s :
  request_ok req → store_wf s → ids_i32 s →
  hoare (at_state s) (KafkaStore.register req) (done_ok (spec_register req s))
    (done_err (spec_register req s) s (atomic (spec_register req) s)).
Proof.
  intros Hreq Hs Hi. apply hoare_begin; [by left|]. intros g.
  apply hoare_read. unfold spec_register at 1 2.
  destruct (String.eqb (effective_mode s (rq_subject req)) "READONLY") eqn:Hro;
    [apply hoare_fail; by left|].
  apply hoare_read. apply hoare_check; [intros e w -> Hw; by left|]. intros resolved Hres.
  apply hoare_check; [intros e w Hn Hw; rewrite Hres; simpl; rewrite Hn; by left|].
  intros schema Hsch. rewrite Hres. simpl. rewrite Hsch. simpl.
  assert (spec_register req s = if String.eqb (effective_mode s (rq_subject req)) "IMPORT"
    then spec_import req schema resolved s else spec_assign req schema resolved s) as Heq.
  { unfold spec_register. rewrite Hro, Hres. simpl. by rewrite Hsch. }
  destruct (String.eqb (effective_mode s (rq_subject req)) "IMPORT") eqn:Him.
  - eapply hoare_conseq; [by apply hoare_register_import|done|done|].
    intros e w [Hl|(Ht & s' & Hw & Hat)]; [by left|right]. split; [done|]. exists s'. split; [done|].
    unfold atomic in *. by rewrite Heq.
  - eapply hoare_conseq; [by apply hoare_register_assign|done|done|].
    intros e w [Hl|(Ht & s' & Hw & Hat)]; [by left|right]. split; [done|]. exists s'. split; [done|].
    unfold atomic in *. by rewrite Heq.
Qed.

Lemma refines_register req :
  request_ok req →
  refines (λ s, store_wf s ∧ ids_i32 s) (spec_register req) (atomic (spec_register req))
    (KafkaStore.register req).
Proof. intros Hreq. apply refines_intro. intros s [Hs Hi]. by apply hoare_register. Qed.

(** ** Settings *)

Lemma in_i32_0 : in_i32 0.
Proof. done. Qed.

Lemma refines_set_compat subject level :
  refines any_state (spec_set_compat subject level) (atomic (spec_set_compat subject level))
    (set_compat subject level).
Proof.
  apply refines_begin; [by left|]. intros s g _. apply hoare_read. unfold spec_set_compat at 1 2.
  case_match eqn:Hro; [apply hoare_fail; by left|].
  destruct (apply_markers s "" subject level "" 0 in_i32_0) as (Ha & _).
  eapply hoare_publish_unit; [exact Ha|done|by left|].
  right. exists tt. unfold spec_set_compat. by rewrite Hro.
Qed.

Lemma refines_delete_subject_compat subject :
  refines any_state (spec_delete_subject_compat subject)
    (atomic (spec_delete_subject_compat subject)) (delete_subject_compat subject).
Proof.
  apply refines_begin; [by left|]. intros s g _. apply hoare_read.
  unfold spec_delete_subject_compat at 1 2. destruct (subject_compat s subject) as [l|] eqn:Hl.
  - destruct (apply_markers s subject None "" "" 0 in_i32_0) as (_ & Ha & _).
    eapply hoare_publish_as; [exact Ha|done|by left|].
    right. exists (Some l). unfold spec_delete_subject_compat. by rewrite Hl.
  - apply hoare_ret. intros w Hw. by exists s.
Qed.

Lemma refines_throw {A} P (f : spec A) partial e :
  (∀ s, f s = Err e) → refines P f partial (throw e).
Proof. intros Hf s w _ Hw. left. by rewrite Hf. Qed.

Lemma refines_set_global_mode mode :
  refines any_state (spec_set_global_mode mode) (atomic (spec_set_global_mode mode))
    (KafkaStore.set_global_mode mode).
Proof.
  unfold KafkaStore.set_global_mode.
  destruct (negb (existsb (String.eqb mode) valid_modes)) eqn:Hm.
  { apply refines_throw. intros s. unfold spec_set_global_mode. by rewrite Hm. }
  apply refines_begin; [by left|]. intros s g _. apply hoare_read.
  unfold spec_set_global_mode at 1 2. rewrite Hm.
  case_match eqn:Him; [apply hoare_fail; by left|].
  destruct (apply_markers s "" None "" mode 0 in_i32_0) as (_ & _ & Ha & _).
  eapply hoare_publish_unit; [exact Ha|done|by left|].
  right. exists tt. unfold spec_set_global_mode. by rewrite Hm, Him.
Qed.

Lemma refines_set_subject_mode subject mode :
  refines any_state (spec_set_subject_mode subject mode) (atomic (spec_set_subject_mode subject mode))
    (KafkaStore.set_subject_mode subject mode).
Proof.
  unfold KafkaStore.set_subject_mode.
  destruct (negb (existsb (String.eqb mode) valid_modes)) eqn:Hm.
  { apply refines_throw. intros s. unfold spec_set_subject_mode. by rewrite Hm. }
  apply refines_begin; [by left|]. intros s g _. apply hoare_read.
  unfold spec_set_subject_mode at 1 2. rewrite Hm.
  case_match eqn:Him; [apply hoare_fail; by left|].
  destruct (apply_markers s "" (Some subject) "" mode 0 in_i32_0) as (_ & _ & Ha & _).
  eapply hoare_publish_unit; [exact Ha|done|by left|].
  right. exists tt. unfold spec_set_subject_mode. by rewrite Hm, Him.
Qed.

Lemma refines_clear_subject_mode subject :
  refines any_state (spec_clear_subject_mode subject) (atomic (spec_clear_subject_mode subject))
    (KafkaStore.clear_subject_mode subject).
Proof.
  apply refines_begin; [by left|]. intros s g _.
  destruct (apply_markers s subject None "" "" 0 in_i32_0) as (_ & _ & _ & Ha & _).
  eapply hoare_publish_unit; [exact Ha|done|by left|]. right. by exists tt.
Qed.

(** ** Deletion *)

Lemma hoare_writable {A B} s subject (k : M A) (f : result SrError (B * StoreState)) Q partial :
  (spec_writable subject s = Ok tt → hoare (steady s settled) k Q (done_err f s partial)) →
  (∀ e, spec_writable subject s = Err e → f = Err e) →
  hoare (steady s settled) (_ ← ensure_writable subject; k) Q (done_err f s partial).
Proof.
  intros Hk Hf. unfold spec_writable in *. eapply (hoare_bind _ _ _ (λ _ w,
    String.eqb (effective_mode s subject) "READONLY" = false ∧ steady s settled w)).
  - apply hoare_read. destruct (String.eqb _ _).
    + apply hoare_fail. intros w Hw. left. auto.
    + apply hoare_ret. auto.
  - intros u w [Hro Hw]. rewrite Hro in Hk. by apply Hk.
Qed.

Lemma hoare_not_referenced {A B} s subject v (k : M A) (f : result SrError (B * StoreState)) Q partial :
  (spec_not_referenced subject v s = Ok tt → hoare (steady s settled) k Q (done_err f s partial)) →
  (∀ e, spec_not_referenced subject v s = Err e → f = Err e) →
  hoare (steady s settled) (_ ← not_referenced subject v; k) Q (done_err f s partial).
Proof.
  intros Hk Hf. unfold spec_not_referenced in *. eapply (hoare_bind _ _ _ (λ _ w,
    referenced_by s subject v false = [] ∧ steady s settled w)).
  - apply hoare_read. destruct (referenced_by s subject v false) eqn:E.
    + apply hoare_ret. auto.
    + apply hoare_fail. intros w Hw. left. auto.
  - intros u w [Hro Hw]. rewrite Hro in Hk. by apply Hk.
Qed.

Lemma hoare_none_referenced {A B} s subject vs (k : M A) (f : result SrError (B * StoreState)) Q partial :
  (spec_none_referenced subject vs s = Ok tt → hoare (steady s settled) k Q (done_err f s partial)) →
  (∀ e, spec_none_referenced subject vs s = Err e → f = Err e) →
  hoare (steady s settled) (_ ← none_referenced subject vs; k) Q (done_err f s partial).
Proof.
  intros Hk Hf. eapply (hoare_bind _ _ _ (λ _ w,
    spec_none_referenced subject vs s = Ok tt ∧ steady s settled w)).
  2: { intros u w [Hr Hw]. by apply Hk. }
  clear Hk. induction vs as [|v vs IH]; simpl; [by apply hoare_ret|].
  apply hoare_not_referenced; [|intros e He; apply Hf; simpl; by rewrite He].
  intros Hv. eapply hoare_conseq; [apply IH|done| |done].
  - intros e He. apply Hf. simpl. by rewrite Hv.
  - intros a w [Hr Hw]. by rewrite Hv.
Qed.

Lemma refines_soft_delete_version subject v :
  refines (λ s, store_wf s ∧ stored_ok s) (spec_soft_delete_version subject v)
    (atomic (spec_soft_delete_version subject v)) (soft_delete_version subject v).
Proof.
  apply refines_begin; [by left|]. intros s g [Hs Hst].
  apply hoare_writable; [intros Hw|intros e He; unfold spec_soft_delete_version; by rewrite He].
  apply hoare_read. unfold spec_soft_delete_version at 1 2. rewrite Hw. simpl.
  apply hoare_check; [intros e w -> ?; by left|]. intros l Hl. rewrite Hl. simpl.
  apply hoare_check; [intros e w -> ?; by left|]. intros found Hf. rewrite Hf. simpl.
  apply hoare_not_referenced; [intros Hr|by intros e ->]. rewrite Hr. simpl.
  destruct (version s subject (Some v) true) as [x|] eqn:Hx; simpl in Hf; [|done].
  injection Hf as ->.
  apply (version_spec s subject v true found Hs) in Hx as Hx'.
  destruct Hx' as (e & reg & (vs & Hvs & He & _) & Hve & Hreg & ->). simpl.
  destruct (Hst _ _ Hreg) as (Hid & Hrefs & Hex).
  eapply hoare_publish_as; [|done|by left|].
  - apply (apply_schema_kv s subject (ve_version e) (ve_id e) (rs_ty reg) (rs_schema reg)
      (rs_references reg) (rs_message_type reg) true (Some (rs_extra reg))).
    split_and!; [|done..]. by apply (hist_i32 _ _ _ (wf_hist _ Hs _ _ Hvs)).
  - right. exists (ve_version e). unfold spec_soft_delete_version.
    rewrite Hw. simpl. rewrite Hl. simpl. rewrite Hx. simpl. by rewrite Hr.
Qed.

Lemma versions_i32 s subject include_deleted vs :
  store_wf s → versions s subject include_deleted = Some vs → Forall in_i32 vs.
Proof.
  intros Hs Hv. apply Forall_forall. intros x Hx.
  apply (elem_of_versions s subject include_deleted vs x Hs Hv) in Hx as [y Hy].
  apply version_spec in Hy as (e & reg & (l & Hl & He & _) & <- & _); [|done].
  by apply (hist_i32 _ _ _ (wf_hist _ Hs _ _ Hl)).
Qed.

Lemma max_i32 (vs : list Z) :
  Forall in_i32 vs → in_i32 (match vs with [] => 0%Z | v :: vs => foldl Z.max v vs end).
Proof.
  destruct 1 as [|x vs Hx Hvs]; [done|]. revert x Hx.
  induction Hvs as [|y vs Hy _ IH]; intros x Hx; simpl; [done|].
  apply IH. unfold in_i32 in *. lia.
Qed.

Lemma refines_soft_delete_subject subject :
  refines store_wf (spec_soft_delete_subject subject)
    (atomic (spec_soft_delete_subject subject)) (KafkaStore.soft_delete_subject subject).
Proof.
  apply refines_begin; [by left|]. intros s g Hs.
  apply hoare_writable; [intros Hw|intros e He; unfold spec_soft_delete_subject; by rewrite He].
  apply hoare_read. unfold spec_soft_delete_subject at 1 2. rewrite Hw. simpl.
  apply hoare_check; [intros e w -> ?; by left|]. intros vs Hvs. rewrite Hvs. simpl.
  apply hoare_none_referenced; [intros Hr|by intros e ->]. rewrite Hr. simpl.
  assert (in_i32 (match vs with [] => 0%Z | v :: vs => foldl Z.max v vs end)) as Hmax.
  { unfold soft_delete_checks in Hvs. destruct (versions s subject false) as [vs'|] eqn:Hv;
      [|by destruct (versions s subject true)]. injection Hvs as ->.
    apply max_i32. by eapply versions_i32. }
  destruct (apply_markers s subject None "" "" _ Hmax) as (_ & _ & _ & _ & Ha & _).
  eapply hoare_publish_as; [exact Ha|done|by left|].
  right. exists vs. unfold spec_soft_delete_subject. rewrite Hw. simpl. rewrite Hvs. simpl. by rewrite Hr.
Qed.

(** A permanent version delete writes two records: the mark, then the
    tombstone. *)
Definition partial_version_delete (subject : string) (v : Z) (s s' : StoreState) : Prop :=
  s' = keep_high_water subject s ∨ atomic (spec_permanent_delete_version subject v) s s'.

Lemma next_version_i32 s subject : store_wf s → in_i32 (next_version s subject).
Proof.
  intros Hs. unfold next_version. destruct (next_versions s !! subject) as [n|] eqn:E; [|done].
  by apply (wf_next _ Hs) in E.
Qed.

Lemma refines_permanent_delete_version subject v :
  in_i32 v →
  refines store_wf (spec_permanent_delete_version subject v)
    (partial_version_delete subject v) (KafkaStore.permanent_delete_version subject v).
Proof.
  intros Hv. apply refines_begin; [by right; left|]. intros s g Hs.
  apply hoare_writable; [intros Hw|intros e He; unfold spec_permanent_delete_version; by rewrite He].
  apply hoare_read. unfold spec_permanent_delete_version at 1 2. rewrite Hw. simpl.
  apply hoare_check; [intros e w -> ?; by left|]. intros [] Hc. rewrite Hc. simpl.
  apply hoare_not_referenced; [intros Hr|by intros e ->]. rewrite Hr. simpl.
  apply hoare_read.
  destruct (apply_markers s subject None "" "" _ (next_version_i32 s subject Hs))
    as (_ & _ & _ & _ & _ & Hhw & _).
  destruct (apply_markers (keep_high_water subject s) subject None "" "" v Hv)
    as (_ & _ & _ & _ & _ & _ & Htomb).
  assert (partial_version_delete subject v s
    (Store.permanent_delete_version subject v (keep_high_water subject s)).2) as Hfin.
  { right. right. exists v. unfold spec_permanent_delete_version. rewrite Hw. simpl. rewrite Hc. simpl.
    by rewrite Hr. }
  eapply hoare_bind.
  - eapply hoare_conseq; [apply hoare_produce|by intros w [? _]|intros x w Hx; exact Hx|].
    intros e w [He [Hat|Hat]]; right; (split; [done|]).
    + exists s. split; [done|by right; left].
    + exists (keep_high_water subject s). split; [|by left].
      unfold keep_high_water. rewrite <-Hhw. exact Hat.
  - intros x. eapply hoare_bind.
    + eapply hoare_conseq;
        [apply (hoare_publish (keep_high_water subject s) (encode_tombstone subject v, None) g)
        | |intros y w Hy; exact Hy|].
      { intros w Hx. unfold keep_high_water. rewrite <-Hhw. exact Hx. }
      intros e w [He Hor]. right. split; [done|]. rewrite Htomb in Hor.
      destruct Hor as [Hat|Hat]; eexists; (split; [exact Hat|]); [by left|exact Hfin].
    + intros y. rewrite Htomb. apply hoare_ret. intros w Hd. eexists. by split.
Qed.

Lemma hoare_produce_tombstones s keys ops g :
  Forall2 (λ key f, ∀ s, apply_kv s (key, None) = f s) keys ops →
  hoare (at_state s) (produce_tombstones keys g) (λ _, at_state (run_ops ops s))
    (λ e w, transient e ∧ ∃ n, at_state (run_ops (take n ops) s) w).
Proof.
  intros Hops. revert s. induction Hops as [|key f keys ops Hk _ IH]; intros s; simpl.
  { by apply hoare_ret. }
  eapply hoare_bind.
  - eapply hoare_conseq; [apply hoare_produce|done|intros x w Hx; exact Hx|].
    intros e w [He [Hw|Hw]]; (split; [done|]); [by exists 0|]. exists 1. unfold run_ops. simpl.
    by rewrite <-Hk.
  - intros x. rewrite Hk. eapply hoare_conseq; [apply IH|done|done|].
    intros e w (He & n & Hw). split; [done|]. by exists (S n).
Qed.

(** A permanent subject delete may stop after any prefix of its records. *)
Definition partial_subject_delete (subject : string) (s s' : StoreState) : Prop :=
  s' = s ∨ ∃ vs n, versions s subject true = Some vs ∧
    s' = run_ops (take n (subject_delete_ops subject vs (next_version s subject))) s.

Lemma subject_tombstones_ops subject all :
  Forall in_i32 all →
  Forall2 (λ key f, ∀ s, apply_kv s (key, None) = f s)
    ((encode_tombstone subject <$> all) ++ [config_key (Some subject); mode_key (Some subject)])
    (((λ v s, (Store.permanent_delete_version subject v s).2) <$> all) ++
       [clear_subject_compat subject; Store.clear_subject_mode subject]).
Proof.
  intros Hall. apply Forall2_app.
  - induction Hall as [|v all Hv _ IH]; simpl; constructor; [|done].
    intros s. by destruct (apply_markers s subject None "" "" v Hv) as (_ & _ & _ & _ & _ & _ & ?).
  - repeat constructor; intros s;
      by destruct (apply_markers s subject None "" "" 0 in_i32_0) as (_ & ? & _ & ? & _).
Qed.

Lemma refines_permanent_delete_subject subject :
  refines store_wf (spec_permanent_delete_subject subject)
    (partial_subject_delete subject) (permanent_delete_subject subject).
Proof.
  apply refines_begin; [by left|]. intros s g Hs.
  apply hoare_writable; [intros Hw|intros e He; unfold spec_permanent_delete_subject; by rewrite He].
  apply hoare_read. unfold spec_permanent_delete_subject at 1 2. rewrite Hw. simpl.
  apply hoare_check; [intros e w -> ?; by left|]. intros all Hc. rewrite Hc. simpl.
  apply hoare_read.
  apply hoare_none_referenced; [intros Hr|by intros e ->]. rewrite Hr. simpl.
  destruct (apply_markers s subject None "" "" _ (next_version_i32 s subject Hs))
    as (_ & _ & _ & _ & _ & Hhw & _).
  assert (versions s subject true = Some all) as Hl.
  { unfold permanent_subject_checks in Hc.
    destruct (versions s subject true) as [l|]; simpl in Hc; [|done].
    destruct (versions s subject false); [done|]. by injection Hc as <-. }
  assert (Forall in_i32 all) as Hall by (by eapply versions_i32).
  set (ops := subject_delete_ops subject all (next_version s subject)).
  assert (∀ n, partial_subject_delete subject s (run_ops (take n ops) s)) as Hpart
    by (intros n; right; by exists all, n).
  eapply hoare_bind.
  - eapply hoare_conseq; [apply hoare_produce|by intros w [? _]|intros x w Hx; exact Hx|].
    intros e w [He [Hat|Hat]]; right; (split; [done|]).
    + exists s. split; [done|apply (Hpart 0)].
    + exists (observe_next_version subject (next_version s subject) s). split; [|apply (Hpart 1)].
      rewrite <-Hhw. exact Hat.
  - intros x. eapply hoare_bind.
    + eapply hoare_conseq;
        [apply (hoare_produce_tombstones (observe_next_version subject (next_version s subject) s)
           _ _ _ (subject_tombstones_ops subject all Hall))
        | |intros y w Hy; exact Hy|].
      { intros w Hx. rewrite <-Hhw. exact Hx. }
      intros e w (He & n & Hat). right. split; [done|]. eexists. split; [exact Hat|apply (Hpart (S n))].
    + intros y. eapply hoare_bind.
      * eapply hoare_conseq; [apply hoare_await_applied|done|intros z w Hz; exact Hz|].
        intros e w [He Hat]. right. split; [done|]. eexists. split; [exact Hat|].
        pose proof (Hpart (length ops)) as Hp. by rewrite take_ge in Hp.
      * intros z. apply hoare_ret. intros w Hd. eexists. by split.
Qed.

End facts.

(** ** The contracts of the deletes

    The same specifications with every guard read off the registry itself: the
    subject's history, the live schemas' reference lists and the mode
    settings. *)

Section contracts.
Context `{SchemaFormat}.

Definition history (s : StoreState) (subject : string) : list VersionEntry :=
  default [] (subjects s !! subject).

(** The subject's mode, or the global one, or the configured one, is READONLY. *)
Definition frozen (s : StoreState) (subject : string) : bool :=
  bool_decide (default (default (default_mode s) (global_mode_ s)) (subject_mode_ s !! subject) = "READONLY").

(** The stored schema of an entry names [(subject, v)] among its references. *)
Definition names_version (s : StoreState) (subject : string) (v : Z) (e : VersionEntry) : bool :=
  match by_id s !! ve_id e with
  | Some reg => existsb (λ r, bool_decide (ref_subject r = subject ∧ ref_version r = v)) (rs_references reg)
  | None => false
  end.

(** A live version of some subject references [(subject, v)]. *)
Definition held (s : StoreState) (subject : string) (v : Z) : bool :=
  existsb (λ p, existsb (λ e, negb (ve_deleted e) && names_version s subject v e) p.2)
    (map_to_list (subjects s)).

Definition version_entry (s : StoreState) (subject : string) (v : Z) : option VersionEntry :=
  List.find (λ e, bool_decide (ve_version e = v)) (history s subject).

Definition contract_soft_delete_version (subject : string) (v : Z) : spec Z := λ s,
  if frozen s subject then Err (OperationNotPermitted subject) else
  if bool_decide (history s subject = []) then Err (SubjectNotFound subject) else
  match version_entry s subject v with
  | None => Err VersionNotFound
  | Some e =>
    match by_id s !! ve_id e with
    | None => Err VersionNotFound
    | Some reg =>
      if held s subject v then Err (ReferencedByOthers (version_label subject v)) else
      Ok (v, apply_schema (schema_value subject v (ve_id e) (rs_ty reg) (rs_schema reg)
               (rs_references reg) (rs_message_type reg) true (rs_extra reg)) s)
    end
  end.

Definition contract_permanent_delete_version (subject : string) (v : Z) : spec Z := λ s,
  if frozen s subject then Err (OperationNotPermitted subject) else
  if bool_decide (history s subject = []) then Err (SubjectNotFound subject) else
  match version_entry s subject v with
  | None => Err VersionNotFound
  | Some e =>
      if negb (ve_deleted e) then Err (VersionNotSoftDeleted subject v) else
      if held s subject v then Err (ReferencedByOthers (version_label subject v)) else
      Ok (v, (Store.permanent_delete_version subject v (keep_high_water subject s)).2)
  end.

Definition contract_soft_delete_subject (subject : string) : spec (list Z) := λ s,
  if frozen s subject then Err (OperationNotPermitted subject) else
  if bool_decide (history s subject = []) then Err (SubjectNotFound subject) else
  let live := ve_version <$> List.filter (λ e, negb (ve_deleted e)) (history s subject) in
  if bool_decide (live = []) then Err (SubjectSoftDeleted subject) else
  match List.find (held s subject) live with
  | Some v => Err (ReferencedByOthers (version_label subject v))
  | None => Ok (live, (Store.soft_delete_subject subject s).2)
  end.

Definition contract_permanent_delete_subject (subject : string) : spec (list Z) := λ s,
  if frozen s subject then Err (OperationNotPermitted subject) else
  if bool_decide (history s subject = []) then Err (SubjectNotFound subject) else
  if existsb (λ e, negb (ve_deleted e)) (history s subject) then Err (SubjectNotSoftDeleted subject) else
  let all := ve_version <$> history s subject in
  match List.find (held s subject) all with
  | Some v => Err (ReferencedByOthers (version_label subject v))
  | None => Ok (all, run_ops (subject_delete_ops subject all (next_version s subject)) s)
  end.

(** *** The guards of the code decide them *)

Lemma eqb_bool_decide (a b : string) : String.eqb a b = bool_decide (a = b).
Proof. destruct (String.eqb_spec a b); [by rewrite bool_decide_eq_true_2|by rewrite bool_decide_eq_false_2]. Qed.

Lemma Z_eqb_bool_decide (a b : Z) : (a =? b)%Z = bool_decide (a = b).
Proof. destruct (Z.eqb_spec a b); [by rewrite bool_decide_eq_true_2|by rewrite bool_decide_eq_false_2]. Qed.

Lemma frozen_mode s subject : frozen s subject = String.eqb (effective_mode s subject) "READONLY".
Proof.
  unfold frozen, effective_mode, global_mode. rewrite eqb_bool_decide.
  by destruct (subject_mode_ s !! subject).
Qed.

Lemma held_iff s subject v :
  held s subject v = true ↔
  ∃ subject' e reg r, visible_entry s false subject' e ∧ by_id s !! ve_id e = Some reg ∧
    r ∈ rs_references reg ∧ ref_subject r = subject ∧ ref_version r = v.
Proof.
  unfold held, names_version. rewrite existsb_exists. split.
  - intros ([subject' vs] & Hp%list_elem_of_In%elem_of_map_to_list & He).
    apply existsb_exists in He as (e & He%list_elem_of_In & [Hl Hn]%andb_true_iff).
    destruct (by_id s !! ve_id e) as [reg|] eqn:Hreg; [|done].
    apply existsb_exists in Hn as (r & Hr%list_elem_of_In & [? ?]%bool_decide_eq_true).
    exists subject', e, reg, r. split_and!; try done. by exists vs.
  - intros (subject' & e & reg & r & (vs & Hvs & He & Hq) & Hreg & Hr & ? & ?).
    exists (subject', vs). split; [by apply list_elem_of_In, elem_of_map_to_list|].
    apply existsb_exists. exists e. split; [by apply list_elem_of_In|]. unfold qualifies in Hq. simpl in Hq.
    rewrite Hq, Hreg. simpl. apply existsb_exists. exists r.
    split; [by apply list_elem_of_In|by apply bool_decide_eq_true].
Qed.

Lemma held_referenced s subject v :
  spec_not_referenced subject v s =
  if held s subject v then Err (ReferencedByOthers (version_label subject v)) else Ok tt.
Proof.
  unfold spec_not_referenced. destruct (referenced_by_spec s subject v false) as [_ Hr].
  destruct (held s subject v) eqn:Hh.
  - apply held_iff in Hh as (subject' & e & reg & r & ? & ? & ? & ? & ?).
    destruct (referenced_by s subject v false) as [|id ids]; [|done].
    destruct (elem_of_nil (ve_id e)) as [Hno _]. destruct Hno. apply Hr. by exists subject', e, reg, r.
  - destruct (referenced_by s subject v false) as [|id ids]; [done|].
    destruct (proj1 (Hr id)) as (subject' & e & reg & r & ? & ? & Hreg & ? & ? & ?); [set_solver|].
    subst id. apply not_true_iff_false in Hh. destruct Hh. apply held_iff. by exists subject', e, reg, r.
Qed.

Lemma held_none_referenced s subject vs :
  spec_none_referenced subject vs s =
  match List.find (held s subject) vs with
  | Some v => Err (ReferencedByOthers (version_label subject v))
  | None => Ok tt
  end.
Proof.
  induction vs as [|v vs IH]; simpl; [done|]. rewrite held_referenced.
  by destruct (held s subject v).
Qed.

Lemma history_all s subject :
  versions s subject true =
  if bool_decide (history s subject = []) then None else Some (ve_version <$> history s subject).
Proof.
  unfold history. destruct (subjects s !! subject) as [vs|] eqn:Hvs; simpl.
  - rewrite (versions_list _ _ _ _ Hvs).
    assert (List.filter (qualifies true) vs = vs) as ->
      by (clear; induction vs as [|x vs IH]; simpl; [done|]; by rewrite IH).
    by destruct vs.
  - unfold versions. by rewrite Hvs.
Qed.

Lemma history_live s subject :
  versions s subject false =
  let live := ve_version <$> List.filter (λ e, negb (ve_deleted e)) (history s subject) in
  if bool_decide (live = []) then None else Some live.
Proof.
  unfold history. destruct (subjects s !! subject) as [vs|] eqn:Hvs; simpl.
  - rewrite (versions_list _ _ _ _ Hvs). change (λ e, negb (ve_deleted e)) with (qualifies false).
    by destruct (_ <$> _).
  - unfold versions. by rewrite Hvs.
Qed.

(** A version asked for by number, deleted or not, is the history's entry. *)
Lemma version_entry_all s subject v :
  version s subject (Some v) true =
  e ← version_entry s subject v; entry_schema e <$> by_id s !! ve_id e.
Proof.
  unfold version, version_entry, history.
  destruct (subjects s !! subject) as [vs|]; cbn [mbind option_bind default from_option]; unfold id; [|done].
  assert (List.find (λ e, (ve_version e =? v)%Z && qualifies true e) vs =
          List.find (λ e, bool_decide (ve_version e = v)) vs) as ->.
  { induction vs as [|e vs IH]; cbn [List.find]; [done|]. rewrite IH.
    by rewrite (Z_eqb_bool_decide (ve_version e) v), andb_true_r. }
  destruct (List.find _ vs) as [e|]; cbn [mbind option_bind]; [|done]. by destruct (by_id s !! ve_id e).
Qed.

Lemma version_entry_live s subject v e reg :
  store_wf s → version_entry s subject v = Some e → by_id s !! ve_id e = Some reg →
  version s subject (Some v) false = if ve_deleted e then None else Some (entry_schema e reg).
Proof.
  intros Hs He Hreg. unfold version_entry, history in He.
  destruct (subjects s !! subject) as [vs|] eqn:Hvs; simpl in He; [|done].
  apply List.find_some in He as [Hin%list_elem_of_In Hv%bool_decide_eq_true].
  destruct (ve_deleted e) eqn:Hd.
  - destruct (version s subject (Some v) false) as [x|] eqn:Hx; [|done].
    apply version_spec in Hx as (e' & reg' & (vs' & Hvs' & He' & Hq) & Hv' & _); [|done].
    rewrite Hvs in Hvs'. injection Hvs' as <-.
    assert (e' = e) as -> by (eapply versions_unique; [apply (hist_sorted _ _ _ (wf_hist _ Hs _ _ Hvs))|done..|congruence]).
    unfold qualifies in Hq. by rewrite Hd in Hq.
  - apply version_spec; [done|]. exists e, reg. split_and!; try done. exists vs. split_and!; try done.
    unfold qualifies. by rewrite Hd.
Qed.

Lemma version_entry_stored s subject v e :
  store_wf s → version_entry s subject v = Some e → is_Some (by_id s !! ve_id e) ∧ ve_version e = v.
Proof.
  intros Hs He. unfold version_entry, history in He.
  destruct (subjects s !! subject) as [vs|] eqn:Hvs; simpl in He; [|done].
  apply List.find_some in He as [Hin%list_elem_of_In Hv%bool_decide_eq_true].
  split; [by apply (hist_stored _ _ _ (wf_hist _ Hs _ _ Hvs))|done].
Qed.

(** *** The specifications are the contracts *)

Lemma soft_delete_version_contract subject v s :
  store_wf s → spec_soft_delete_version subject v s = contract_soft_delete_version subject v s.
Proof.
  intros Hs. unfold spec_soft_delete_version, contract_soft_delete_version, spec_writable.
  rewrite <-frozen_mode. destruct (frozen s subject); [done|]. cbn [mbind result_bind].
  rewrite history_all. case_bool_decide; [done|]. cbn [ok_or mbind result_bind].
  rewrite version_entry_all. destruct (version_entry s subject v) as [e|] eqn:He; [|done].
  destruct (version_entry_stored _ _ _ _ Hs He) as [[reg Hreg] Hv].
  cbn [mbind option_bind]. rewrite Hreg, held_referenced. unfold fmap, option_fmap, option_map, ok_or.
  cbn [mbind result_bind entry_schema vs_version]. by destruct (held s subject v); [|rewrite <-Hv].
Qed.

Lemma permanent_delete_version_contract subject v s :
  store_wf s → spec_permanent_delete_version subject v s = contract_permanent_delete_version subject v s.
Proof.
  intros Hs. unfold spec_permanent_delete_version, contract_permanent_delete_version, spec_writable,
    permanent_delete_checks.
  rewrite <-frozen_mode. destruct (frozen s subject); [done|]. cbn [mbind result_bind].
  rewrite history_all. case_bool_decide; [done|]. cbn [ok_or mbind result_bind].
  rewrite version_entry_all. destruct (version_entry s subject v) as [e|] eqn:He; [|done].
  destruct (version_entry_stored _ _ _ _ Hs He) as [[reg Hreg] _].
  rewrite (version_entry_live _ _ _ _ _ Hs He Hreg). cbn [mbind option_bind]. rewrite Hreg. cbn.
  destruct (ve_deleted e); [|done]. cbn. rewrite held_referenced. by destruct (held s subject v).
Qed.

Lemma soft_delete_subject_contract subject s :
  spec_soft_delete_subject subject s = contract_soft_delete_subject subject s.
Proof.
  unfold spec_soft_delete_subject, contract_soft_delete_subject, spec_writable, soft_delete_checks.
  rewrite <-frozen_mode. destruct (frozen s subject); [done|]. cbn [mbind result_bind].
  rewrite history_all, history_live. cbv zeta.
  destruct (decide (history s subject = [])) as [Hh|Hh].
  { by rewrite !bool_decide_eq_true_2 by (by rewrite Hh). }
  rewrite !(bool_decide_eq_false_2 (history s subject = [])) by done.
  case_bool_decide; [done|]. cbn [mbind result_bind]. rewrite held_none_referenced. by destruct (List.find _ _).
Qed.

Lemma permanent_delete_subject_contract subject s :
  spec_permanent_delete_subject subject s = contract_permanent_delete_subject subject s.
Proof.
  unfold spec_permanent_delete_subject, contract_permanent_delete_subject, spec_writable,
    permanent_subject_checks.
  rewrite <-frozen_mode. destruct (frozen s subject); [done|]. cbn [mbind result_bind].
  rewrite history_all, history_live. cbv zeta.
  destruct (decide (history s subject = [])) as [Hh|Hh].
  { by rewrite !bool_decide_eq_true_2 by (by rewrite Hh). }
  rewrite !(bool_decide_eq_false_2 (history s subject = [])) by done. cbn [ok_or mbind result_bind].
  assert (bool_decide (ve_version <$> List.filter (λ e, negb (ve_deleted e)) (history s subject) = []) =
    negb (existsb (λ e, negb (ve_deleted e)) (history s subject))) as ->.
  { clear. induction (history s subject) as [|e vs IH]; simpl; [done|].
    destruct (ve_deleted e); simpl; [exact IH|done]. }
  destruct (existsb _ _); [done|]. cbn. rewrite held_none_referenced. by destruct (List.find _ _).
Qed.

(** What a transient failure of a permanent delete may leave, by the contracts. *)
Definition partial_version_contract (subject : string) (v : Z) (s s' : StoreState) : Prop :=
  s' = s ∨ s' = keep_high_water subject s ∨ ∃ a, contract_permanent_delete_version subject v s = Ok (a, s').

Definition partial_subject_contract (subject : string) (s s' : StoreState) : Prop :=
  s' = s ∨ ∃ n, s' = run_ops (take n (subject_delete_ops subject (ve_version <$> history s subject)
                                       (next_version s subject))) s.

Lemma partial_version_contract_intro subject v s s' :
  store_wf s → partial_version_delete subject v s s' → partial_version_contract subject v s s'.
Proof.
  intros Hs [->|[->|(a & Ha)]]; [by right; left|by left|]. right. right. exists a.
  by rewrite <-permanent_delete_version_contract.
Qed.

Lemma partial_subject_contract_intro subject s s' :
  partial_subject_delete subject s s' → partial_subject_contract subject s s'.
Proof.
  intros [->|(vs & n & Hvs & ->)]; [by left|]. right. exists n. rewrite history_all in Hvs.
  case_bool_decide; [done|]. by injection Hvs as <-.
Qed.
End contracts.
