(* ===== verification/KafkaLive.v ===== *)
(** * The facade answers (kafkastore/mod.rs)

    The refinement of KafkaSpec.v allows every operation to fail transiently.
    Here is the other half: when the environment answers every call and this
    node stays primary, an operation finishes, within a stated number of
    calls, with exactly what its specification says. The two halves together
    are the correctness statements of the facade. *)

From stdpp Require Import base gmap strings list pretty.
From Stdlib Require Import ZArith Lia Ascii.
From S2P Require Import Prelude Text Json Types Store Closure StoreFacts StoreSpec StoreQueries.
From S2P Require Import Record RecordFacts Compat Reader ReaderFacts KafkaStore KafkaFacts KafkaSpec.

#[local] Existing Instance M_ret.
#[local] Existing Instance M_bind.

(** The formats report invalid schemas, never a failure of the backend. *)
Class FormatLaws `{SchemaFormat} := {
  parse_error : ∀ ty s refs e, format_parse ty s refs = Err e → ¬ transient e;
  normalize_error : ∀ ty s refs e, normalized_storage_form ty s refs = Err e → ¬ transient e;
}.

Section live.
Context `{SchemaFormat} `{SerdeJsonLaws} `{UuidLib} `{!MarkerLaws} `{!FormatLaws}.

(** ** A cooperative environment *)

Definition good (rp : Reply) : Prop := rp_outcome rp = OOk ∧ rp_primary rp = None.

(** No election is configured, or this node holds the primary role. *)
Definition leading (p : option PrimaryState) : Prop :=
  match p with
  | None => True
  | Some p => ps_is_primary p = true ∧ is_Some (ps_generation_id p) ∧ is_Some (ps_member_id p)
  end.

(** At least [n] more calls are answered, all of them well, and the node's
    role stays [p]. *)
Definition coop (p : option PrimaryState) (n : nat) (w : World) : Prop :=
  n ≤ length (w_script w) ∧ Forall good (w_script w) ∧ w_primary w = p ∧ leading p.

Lemma coop_mono p n n' w : n' ≤ n → coop p n w → coop p n' w.
Proof. intros Hle (Hn & Hrest). split; [lia|done]. Qed.

Lemma interact_coop p n w :
  coop p (S n) w → ∃ r, (interact w).1 = Some r ∧ good r ∧ coop p n (interact w).2.
Proof.
  intros (Hn & Hg & Hp & Hl). unfold interact. destruct (w_script w) as [|r rest]; [simpl in Hn; lia|].
  apply Forall_cons_1 in Hg as [Hr Hg]. exists r. split_and!; [done|done|].
  split_and!; [simpl in *; lia|done| |done]. simpl. destruct Hr as [_ Hr]. by rewrite Hr.
Qed.

(** [m] needs at most [k] answers from the worlds in [I], and does not fail
    transiently. *)
Definition answers {A} (p : option PrimaryState) (I : World → Prop) (k : nat) (m : M A) : Prop :=
  ∀ n w, I w → coop p (k + n) w →
    coop p n (m w).2 ∧ ∀ e, (m w).1 = Err e → ¬ transient e.

Section rules.
Context (p : option PrimaryState).

Lemma answers_weaken {A} (I I' : World → Prop) k k' (m : M A) :
  answers p I k m → (∀ w, I' w → I w) → k ≤ k' → answers p I' k' m.
Proof.
  intros Hm HI Hk n w Hw Hc. destruct (Hm (k' - k + n) w (HI w Hw)) as [Hc' He].
  { replace (k + (k' - k + n)) with (k' + n) by lia. done. }
  split; [|done]. eapply coop_mono; [|exact Hc']. lia.
Qed.

(** What holds between two steps is given by the Hoare logic. *)
Lemma answers_bind {A B} I J k1 k2 (m : M A) (f : A → M B) :
  answers p I k1 m → hoare I m J (λ _ _, True) → (∀ a, answers p (J a) k2 (f a)) →
  answers p I (k1 + k2) (m ≫= f).
Proof.
  intros Hm Hj Hf n w Hw Hc. specialize (Hj w Hw).
  destruct (Hm (k2 + n) w Hw) as [Hc' He]; [by rewrite Nat.add_assoc|].
  unfold mbind, M_bind. destruct (m w) as [[a|e] w']; simpl in *.
  - by apply (Hf a n w').
  - split; [|by intros e' [= <-]; apply He]. eapply coop_mono; [|exact Hc']. lia.
Qed.

Definition anywhere (w : World) : Prop := True.

Lemma hoare_anywhere {A} I (m : M A) : hoare I m (λ _, anywhere) (λ _ _, True).
Proof. intros w _. by destruct (m w) as [[a|e] w']. Qed.

Lemma answers_seq {A B} k1 k2 (m : M A) (f : A → M B) :
  answers p anywhere k1 m → (∀ a, answers p anywhere k2 (f a)) →
  answers p anywhere (k1 + k2) (m ≫= f).
Proof. intros Hm Hf. eapply answers_bind; [done|apply hoare_anywhere|done]. Qed.

Lemma answers_ret {A} I (a : A) : answers p I 0 (mret a).
Proof. by intros n w _ Hc. Qed.

Lemma answers_throw {A} I e : ¬ transient e → answers p I 0 (throw e : M A).
Proof. intros He n w _ Hc. split; [done|]. by intros e' [= <-]. Qed.

Lemma answers_lift {A} I (r : result SrError A) :
  (∀ e, r = Err e → ¬ transient e) → answers p I 0 (lift r).
Proof. intros He n w _ Hc. by split. Qed.

Lemma answers_read I : answers p I 1 read_store.
Proof.
  intros n w _ Hc. destruct (interact_coop p n w Hc) as (r & _ & _ & Hc'). by split.
Qed.

Lemma answers_asks {A} I (f : World → A) : answers p I 0 (asks f).
Proof. by intros n w _ Hc. Qed.

Lemma answers_await I : answers p I 1 await.
Proof.
  intros n w _ Hc. destruct (interact_coop p n w Hc) as (r & Hr & Hg & Hc'). unfold await.
  destruct (interact w) as [rp w']. simpl in *. subst rp. destruct Hg as [Ho _]. by rewrite Ho.
Qed.

Lemma answers_commit I r : answers p I 1 (commit r).
Proof.
  intros n w _ Hc. destruct (interact_coop p n w Hc) as (rp & Hr & Hg & Hc'). unfold commit.
  destruct (interact w) as [rp' w']. simpl in *. subst rp'. destruct Hg as [Ho _]. by rewrite Ho.
Qed.

Lemma answers_modify I f :
  (∀ w, w_script (f w) = w_script w ∧ w_primary (f w) = w_primary w) → answers p I 0 (modify f).
Proof.
  intros Hf n w _ (Hn & Hg & Hp & Hl). simpl. destruct (Hf w) as [Hs Hp']. split; [|done].
  unfold coop. by rewrite Hs, Hp'.
Qed.

Lemma answers_order_barrier I : answers p I 1 order_barrier.
Proof.
  intros n w _ Hc. destruct (interact_coop p n w Hc) as (rp & Hr & Hg & Hc'). unfold order_barrier.
  destruct (interact w) as [rp' w']. simpl in *. subst rp'. destruct Hg as [Ho _]. by rewrite Ho.
Qed.

Lemma answers_finish_barrier I t : answers p I 1 (finish_barrier t).
Proof.
  intros n w _ Hc. destruct (interact_coop p n w Hc) as (rp & Hr & Hg & Hc'). unfold finish_barrier.
  destruct (interact w) as [rp' w']. simpl in *. subst rp'. destruct Hg as [Ho _]. rewrite Ho.
  by destruct (rp_landed rp).
Qed.

Lemma answers_await_barrier b : answers p anywhere 2 (await_barrier b).
Proof.
  apply (answers_seq 1 1); [apply answers_await|]. intros ?.
  apply (answers_seq 0 1); [by apply answers_modify|]. intros ?. apply answers_finish_barrier.
Qed.

Lemma answers_await_applied : answers p anywhere 3 await_applied.
Proof. apply (answers_seq 1 2); [apply answers_order_barrier|]. intros b. apply answers_await_barrier. Qed.

(** The role read from the watch is [p]. *)
Lemma answers_primary {A} k (f : option PrimaryState → M A) :
  answers p anywhere k (f p) → answers p anywhere k (get_primary ≫= f).
Proof.
  intros Hf n w Hw Hc. pose proof Hc as (_ & _ & Hp & _).
  change ((get_primary ≫= f) w) with (f (w_primary w) w). rewrite Hp. by apply Hf.
Qed.

Lemma answers_fence g : answers p anywhere 1 (fence g).
Proof.
  apply (answers_seq 0 1); [apply answers_asks|]. intros fenced. case_bool_decide.
  - eapply answers_weaken; [apply answers_ret|done|lia].
  - apply (answers_seq 1 0); [apply answers_await|]. intros ?. by apply answers_modify.
Qed.

End rules.

Lemma answers_prepare_write p : leading p → answers p anywhere 4 prepare_write.
Proof.
  intros Hl. unfold prepare_write. apply answers_primary. destruct p as [st|].
  - destruct Hl as (Hprim & [g Hg] & [m Hm]). rewrite Hg, Hm, Hprim. cbn [negb].
    apply (answers_seq _ 0 4); [apply answers_asks|]. intros gid.
    apply (answers_seq _ 1 3); [apply answers_fence|]. intros ?.
    apply (answers_seq _ 1 2); [apply answers_order_barrier|]. intros b.
    apply (answers_seq _ 2 0); [apply answers_await_barrier|]. intros ?.
    apply answers_primary. rewrite Hprim, Hg, Hm. cbn [negb orb].
    rewrite !bool_decide_true by done. apply answers_ret.
  - apply (answers_weaken _ anywhere _ 3); [|done|lia].
    apply (answers_seq _ 1 2); [apply answers_order_barrier|]. intros b.
    apply (answers_seq _ 2 0); [apply answers_await_barrier|]. intros ?. apply answers_ret.
Qed.

Section rules.
Context (p : option PrimaryState).

Lemma answers_begin_write : leading p → answers p anywhere 5 begin_write.
Proof.
  intros Hl. apply (answers_seq _ 1 4); [|intros ?; by apply answers_prepare_write].
  apply (answers_seq _ 1 0); [apply answers_await|]. intros ?. apply answers_ret.
Qed.

Lemma answers_produce key value g : answers p anywhere 4 (produce key value g).
Proof.
  apply (answers_seq _ 0 4); [by apply answers_modify|]. intros ?. destruct g as [g|].
  - apply (answers_seq _ 1 3); [apply answers_await|]. intros ?.
    apply (answers_seq _ 2 1); [|intros ?; apply answers_commit].
    assert (answers p anywhere 2 (_ ← await; await)) as Hb.
    { apply (answers_seq _ 1 1); [apply answers_await|]. intros ?. apply answers_await. }
    intros n w Hw Hc. destruct (Hb n w Hw Hc) as [Hc' He]. unfold abort_on_error.
    assert (∃ x w', (_ ← await; await) w = (Ok x, w')) as (x & w' & Hok).
    { unfold mbind, M_bind.
      destruct (interact_coop p (S n) w Hc) as (r & Hr & [Ho _] & Hc2). unfold await.
      destruct (interact w) as [rp w1]. simpl in *. subst rp. rewrite Ho. simpl.
      destruct (interact_coop p n w1 Hc2) as (r' & Hr' & [Ho' _] & _).
      destruct (interact w1) as [rp w2]. simpl in *. subst rp. rewrite Ho'. eauto. }
    rewrite Hok in *. simpl in *. by split.
  - eapply answers_weaken; [apply answers_commit|done|lia].
Qed.

Lemma answers_publish r g : answers p anywhere 7 (publish r g).
Proof.
  apply (answers_seq _ 4 3); [apply answers_produce|]. intros ?. apply answers_await_applied.
Qed.
(** ** The operations *)

(** An early answer leaves calls unused. *)
Ltac refused := eapply answers_weaken; [by apply answers_throw; intros []|done|lia].
Ltac returned := eapply answers_weaken; [apply answers_ret|done|lia].

Lemma closure_error s refs e : resolve_closure s refs = Err e → ¬ transient e.
Proof.
  unfold resolve_closure. destruct (resolve_closure_total s refs) as [[acc|e'] Hr]; rewrite Hr; [done|].
  intros [= <-]. apply (resolve_into_fail _ _ refs) in Hr as (r & _ & _ & ->);
    [by intros []|apply reachable_here].
Qed.

Lemma register_error subject ty schema refs mt s e :
  Store.register subject ty schema refs mt s = Err e → ¬ transient e.
Proof.
  unfold Store.register. destruct (resolve_closure s refs) as [resolved|e'] eqn:Hr; simpl.
  2: { intros [= <-]. by eapply closure_error. }
  destruct (format_parse ty schema resolved) as [c|e'] eqn:Hp; simpl.
  2: { intros [= <-]. by eapply parse_error. }
  repeat case_match; done.
Qed.

Lemma conflicts_error s id ty schema refs mt e :
  schema_id_conflicts s id ty schema refs mt = Err e → ¬ transient e.
Proof.
  unfold schema_id_conflicts. destruct (by_id s !! id) as [reg|]; [|done].
  destruct (negb _); [done|]. intros He.
  destruct (resolve_closure s (rs_references reg)) as [r1|e1] eqn:H1'; simpl in He;
    [|injection He as <-; by eapply closure_error].
  destruct (format_parse (rs_ty reg) (rs_schema reg) r1) as [c1|e1] eqn:H2'; simpl in He;
    [|injection He as <-; by eapply parse_error].
  destruct (resolve_closure s refs) as [r2|e1] eqn:H3'; simpl in He;
    [|injection He as <-; by eapply closure_error].
  destruct (format_parse ty schema r2) as [c2|e1] eqn:H4'; simpl in He;
    [done|injection He as <-; by eapply parse_error].
Qed.

Lemma check_error s subject ty schema refs e :
  check_registration s subject ty schema refs = Err e → ¬ transient e.
Proof. unfold check_registration. repeat case_match; try done; intros [= <-]; by intros []. Qed.

Lemma answers_register req : leading p → answers p anywhere 20 (KafkaStore.register req).
Proof.
  intros Hl. apply (answers_weaken _ anywhere _ 17); [|done|lia].
  apply (answers_seq _ 5 12); [by apply answers_begin_write|]. intros g.
  apply (answers_seq _ 1 11); [apply answers_read|]. intros s.
  cbn zeta.
  destruct (String.eqb (effective_mode s (rq_subject req)) "READONLY"); [refused|].
  apply (answers_seq _ 1 10); [apply answers_read|]. intros s'.
  apply (answers_seq _ 0 10); [apply answers_lift, closure_error|]. intros resolved.
  apply (answers_seq _ 0 10); [apply answers_lift, normalize_error|]. intros schema.
  destruct (String.eqb (effective_mode s (rq_subject req)) "IMPORT").
  - unfold register_import. destruct (rq_import_id req) as [id|];
      [|refused].
    destruct (rq_import_version req) as [v|];
      [|refused].
    apply (answers_seq _ 0 10); [apply answers_lift, parse_error|]. intros ?.
    apply (answers_seq _ 1 9); [apply answers_read|]. intros s2.
    apply (answers_seq _ 0 9); [apply answers_lift, conflicts_error|]. intros [];
      [refused|].
    destruct (encode_schema_with_message_type _ _ _ _ _ _ _) as [k v'].
    apply (answers_seq _ 7 2); [apply answers_publish|]. intros ?.
    returned.
  - unfold register_assign. apply (answers_seq _ 1 9); [apply answers_read|]. intros s2.
    destruct (find_under_subject _ _ _ _ _ _ _);
      [returned|].
    apply (answers_seq _ 1 8); [apply answers_read|]. intros s3.
    apply (answers_seq _ 0 8); [apply answers_lift, check_error|]. intros ?.
    apply (answers_seq _ 1 7); [apply answers_read|]. intros s4.
    apply (answers_seq _ 0 7); [apply answers_lift, register_error|]. intros [reg s5].
    destruct (encode_schema_with_message_type _ _ _ _ _ _ _) as [k v'].
    apply (answers_seq _ 7 0); [apply answers_publish|]. intros ?. apply answers_ret.
Qed.

Lemma answers_setting (k : option ConsumerGroupMetadata → M unit) :
  leading p → (∀ g, answers p anywhere 8 (k g)) → answers p anywhere 13 (g ← begin_write; k g).
Proof. intros Hl Hk. apply (answers_seq _ 5 8); [by apply answers_begin_write|done]. Qed.

Lemma answers_set_compat subject level : leading p → answers p anywhere 20 (set_compat subject level).
Proof.
  intros Hl. apply (answers_weaken _ anywhere _ 13); [|done|lia].
  apply answers_setting; [done|]. intros g.
  apply (answers_seq _ 1 7); [apply answers_read|]. intros s. cbn zeta.
  destruct (String.eqb _ _); [refused|]. destruct (encode_config _ _) as [k v]. apply answers_publish.
Qed.

Lemma answers_delete_subject_compat subject :
  leading p → answers p anywhere 20 (delete_subject_compat subject).
Proof.
  intros Hl. apply (answers_weaken _ anywhere _ 13); [|done|lia].
  apply (answers_seq _ 5 8); [by apply answers_begin_write|]. intros g.
  apply (answers_seq _ 1 7); [apply answers_read|]. intros s.
  destruct (subject_compat s subject); [|returned].
  apply (answers_seq _ 7 0); [apply answers_publish|]. intros ?. apply answers_ret.
Qed.

Lemma answers_set_global_mode mode : leading p → answers p anywhere 20 (KafkaStore.set_global_mode mode).
Proof.
  intros Hl. apply (answers_weaken _ anywhere _ 13); [|done|lia]. unfold KafkaStore.set_global_mode.
  destruct (negb _); [refused|]. apply answers_setting; [done|]. intros g.
  apply (answers_seq _ 1 7); [apply answers_read|]. intros s.
  destruct (_ && _); [refused|]. destruct (encode_mode _ _) as [k v]. apply answers_publish.
Qed.

Lemma answers_set_subject_mode subject mode :
  leading p → answers p anywhere 20 (KafkaStore.set_subject_mode subject mode).
Proof.
  intros Hl. apply (answers_weaken _ anywhere _ 13); [|done|lia]. unfold KafkaStore.set_subject_mode.
  destruct (negb _); [refused|]. apply answers_setting; [done|]. intros g.
  apply (answers_seq _ 1 7); [apply answers_read|]. intros s.
  destruct (_ && _); [refused|]. destruct (encode_mode _ _) as [k v]. apply answers_publish.
Qed.

Lemma answers_clear_subject_mode subject :
  leading p → answers p anywhere 20 (KafkaStore.clear_subject_mode subject).
Proof.
  intros Hl. apply (answers_weaken _ anywhere _ 13); [|done|lia].
  apply answers_setting; [done|]. intros g.
  apply (answers_weaken _ anywhere _ 7); [apply answers_publish|done|lia].
Qed.

Lemma answers_ensure_writable subject : answers p anywhere 1 (ensure_writable subject).
Proof.
  apply (answers_seq _ 1 0); [apply answers_read|]. intros s.
  destruct (String.eqb _ _); [refused|returned].
Qed.

Lemma answers_not_referenced subject v : answers p anywhere 1 (not_referenced subject v).
Proof.
  apply (answers_seq _ 1 0); [apply answers_read|]. intros s.
  destruct (referenced_by _ _ _ _); [returned|refused].
Qed.

Lemma answers_none_referenced subject vs : answers p anywhere (length vs) (none_referenced subject vs).
Proof.
  induction vs as [|v vs IH]; [apply answers_ret|].
  apply (answers_seq _ 1 (length vs)); [apply answers_not_referenced|]. by intros ?.
Qed.

Lemma answers_produce_tombstones keys g :
  answers p anywhere (4 * length keys) (produce_tombstones keys g).
Proof.
  induction keys as [|k keys IH]; [apply answers_ret|].
  replace (4 * length (k :: keys)) with (4 + 4 * length keys) by (simpl; lia).
  apply (answers_seq _ 4); [apply answers_produce|]. by intros ?.
Qed.

Lemma ok_or_error {A} (o : option A) e0 e : ¬ transient e0 → ok_or o e0 = Err e → ¬ transient e.
Proof. destruct o; simpl; [done|]. by intros He [= <-]. Qed.

Lemma answers_soft_delete_version subject v :
  leading p → answers p anywhere 20 (soft_delete_version subject v).
Proof.
  intros Hl. apply (answers_weaken _ anywhere _ 15); [|done|lia].
  apply (answers_seq _ 5 10); [by apply answers_begin_write|]. intros g.
  apply (answers_seq _ 1 9); [apply answers_ensure_writable|]. intros ?.
  apply (answers_seq _ 1 8); [apply answers_read|]. intros s.
  apply (answers_seq _ 0 8); [apply answers_lift; intros e; apply ok_or_error; by intros []|]. intros ?.
  apply (answers_seq _ 0 8); [apply answers_lift; intros e; apply ok_or_error; by intros []|]. intros found.
  apply (answers_seq _ 1 7); [apply answers_not_referenced|]. intros ?.
  destruct (encode_schema_deleted_with_message_type _ _ _ _ _ _ _) as [k x].
  apply (answers_seq _ 7 0); [apply answers_publish|]. intros ?. apply answers_ret.
Qed.

Lemma answers_permanent_delete_version subject v :
  leading p → answers p anywhere 20 (KafkaStore.permanent_delete_version subject v).
Proof.
  intros Hl. apply (answers_seq _ 5 15); [by apply answers_begin_write|]. intros g.
  apply (answers_seq _ 1 14); [apply answers_ensure_writable|]. intros ?.
  apply (answers_seq _ 1 13); [apply answers_read|]. intros s.
  apply (answers_seq _ 0 13).
  { apply answers_lift. intros e. unfold permanent_delete_checks, ok_or.
    repeat case_match; simpl; try done; intros [= <-]; by intros []. }
  intros ?. apply (answers_seq _ 1 12); [apply answers_not_referenced|]. intros ?.
  apply (answers_seq _ 1 11); [apply answers_read|]. intros s'.
  destruct (encode_version_high_water _ _) as [k x].
  apply (answers_seq _ 4 7); [apply answers_produce|]. intros ?.
  apply (answers_seq _ 7 0); [apply answers_publish|]. intros ?. apply answers_ret.
Qed.

(** The subject deletes look at every version: after the barrier the reader
    has caught up, so the versions are those of the state [s]. *)
Lemma answers_after_read {A} s k (f : option ConsumerGroupMetadata → StoreState → M A) subject :
  leading p → (∀ g, answers p anywhere k (f g s)) →
  answers p (at_state s) (7 + k) (g ← begin_write; _ ← ensure_writable subject; s' ← read_store; f g s').
Proof.
  intros Hl Hf.
  apply (answers_bind _ _ (λ _, steady s settled) 5).
  { eapply answers_weaken; [by apply answers_begin_write|done|lia]. }
  { eapply hoare_conseq; [apply hoare_begin_write|done|done|done]. }
  intros g. apply (answers_bind _ _ (λ _, steady s settled) 1).
  { eapply answers_weaken; [by apply answers_ensure_writable|done|lia]. }
  { apply hoare_read. destruct (String.eqb _ _).
    - apply hoare_throw. done.
    - by apply hoare_ret. }
  intros ?. apply (answers_bind _ _ (λ s' _, s' = s) 1).
  { apply answers_read. }
  { eapply hoare_conseq; [apply hoare_read_store|done|by intros ? ? [-> _]|done]. }
  intros s' n w -> Hc. by apply (Hf g n w).
Qed.

Definition soft_bound (subject : string) (s : StoreState) : nat :=
  20 + length (default [] (versions s subject false)).

Lemma answers_check {A B} I k (r : result SrError A) (f : A → M B) :
  (∀ a, r = Ok a → answers p I k (f a)) → (∀ e, r = Err e → ¬ transient e) →
  answers p I k (lift r ≫= f).
Proof.
  intros Hf He n w Hw Hc. destruct r as [a|e].
  - by apply (Hf a).
  - split; [|by intros e' [= <-]; apply He]. eapply coop_mono; [|exact Hc]. lia.
Qed.

Lemma answers_soft_delete_subject s subject :
  leading p → answers p (at_state s) (soft_bound subject s) (KafkaStore.soft_delete_subject subject).
Proof.
  intros Hl. unfold soft_bound. set (l := length _).
  apply (answers_weaken _ (at_state s) _ (7 + (l + 7))); [|done|lia].
  apply answers_after_read; [done|]. intros g. apply answers_check.
  - intros vs Hvs. unfold soft_delete_checks in Hvs.
    assert (length vs = l) as <-.
    { unfold l. destruct (versions s subject false); [by injection Hvs as ->|].
      by destruct (versions s subject true). }
    apply answers_seq; [apply answers_none_referenced|]. intros ?.
    cbn zeta. destruct (encode_delete_subject _ _) as [k v].
    apply (answers_seq _ 7 0); [apply answers_publish|]. intros ?. apply answers_ret.
  - intros e. unfold soft_delete_checks. repeat case_match; try done; intros [= <-]; by intros [].
Qed.

Definition permanent_bound (subject : string) (s : StoreState) : nat :=
  24 + 5 * length (default [] (versions s subject true)).

Lemma answers_permanent_delete_subject s subject :
  leading p →
  answers p (at_state s) (permanent_bound subject s) (permanent_delete_subject subject).
Proof.
  intros Hl. unfold permanent_bound. set (l := length _).
  apply (answers_weaken _ (at_state s) _ (7 + (16 + 5 * l))); [|done|lia].
  apply answers_after_read; [done|]. intros g. apply answers_check.
  - intros all Hall. unfold permanent_subject_checks in Hall.
    assert (length all = l) as <-.
    { unfold l. destruct (versions s subject true); simpl in Hall; [|done].
      destruct (versions s subject false); [done|]. by injection Hall as ->. }
    replace (16 + 5 * length all) with (1 + (length all + (4 + (4 * length (
      (encode_tombstone subject <$> all) ++ [config_key (Some subject); mode_key (Some subject)]) + (3 + 0)))))
      by (rewrite length_app, length_fmap; simpl; lia).
    apply answers_seq; [apply answers_read|]. intros s'. cbn zeta.
    apply answers_seq; [apply answers_none_referenced|]. intros ?.
    destruct (encode_version_high_water _ _) as [k v].
    apply answers_seq; [apply answers_produce|]. intros ?.
    apply answers_seq; [apply answers_produce_tombstones|]. intros ?.
    apply answers_seq; [apply answers_await_applied|]. intros ?. apply answers_ret.
  - intros e. unfold permanent_subject_checks, ok_or.
    repeat case_match; simpl; try done; intros [= <-]; by intros [].
Qed.
End rules.

(** ** Total correctness *)

(** [m] implements [f]: it refines it, and where the environment answers
    [bound s] calls and this node leads (or no election is configured), it
    gives exactly the specified answer or refusal. *)
Definition implements {A} (P : StoreState → Prop) (bound : StoreState → nat) (f : spec A)
    (partial : StoreState → StoreState → Prop) (m : M A) : Prop :=
  refines P f partial m ∧
  ∀ s w p, P s → at_state s w → coop p (bound s) w →
  match m w with
  | (Ok a, w') => f s = Ok (a, live w') ∧ at_state (live w') w'
  | (Err e, w') => f s = Err e ∧ at_state s w'
  end.

Lemma implements_intro {A} P bound (f : spec A) partial (m : M A) :
  refines P f partial m → (∀ s p, leading p → answers p (at_state s) (bound s) m) →
  implements P bound f partial m.
Proof.
  intros Hr Ha. split; [done|]. intros s w p HP Hw Hc. pose proof Hc as (_ & _ & _ & Hl).
  destruct (Ha s p Hl 0 w Hw) as [_ He]; [by rewrite Nat.add_0_r|]. specialize (Hr s w HP Hw).
  destruct (m w) as [[a|e] w']; [done|]. destruct Hr as [Hr|[Ht _]]; [done|].
  by destruct (He e eq_refl Ht).
Qed.

(** For the operations whose number of calls does not depend on the state. *)
Lemma implements_const {A} P k (f : spec A) partial (m : M A) :
  refines P f partial m → (∀ p, leading p → answers p anywhere k m) →
  implements P (λ _, k) f partial m.
Proof.
  intros Hr Ha. apply implements_intro; [done|]. intros s p Hl.
  apply (answers_weaken _ anywhere _ k); [by apply Ha|done|lia].
Qed.

(** A specification may be replaced by one that agrees with it where it is used. *)
Lemma implements_as {A} P bound (f f' : spec A) (partial partial' : StoreState → StoreState → Prop) (m : M A) :
  (∀ s, P s → f s = f' s) → (∀ s s', P s → partial s s' → partial' s s') →
  implements P bound f partial m → implements P bound f' partial' m.
Proof.
  intros Hf Hp [Hr Ha]. split.
  - intros s w HP Hw. specialize (Hr s w HP Hw). rewrite <-Hf by done.
    destruct (m w) as [[a|e] w']; [done|]. destruct Hr as [Hr|(Ht & s' & Hs' & Hpart)]; [by left|].
    right. eauto.
  - intros s w p HP Hw Hc. specialize (Ha s w p HP Hw Hc). by rewrite <-Hf.
Qed.

(** C13: registration implements its specification. Against a fenced log, with the store well
    formed: a success answers the specified id and version and leaves the node's live state at
    the specified next state (the caller reads its write); a refusal (read-only mode, unresolved
    reference, unparseable schema, id conflict, incompatibility) is the specified one and writes
    nothing; a transient failure leaves the log as it was or with the specified write complete;
    and when the environment answers, there is no transient failure. *)
Theorem register_refines req :
  request_ok req →
  implements (λ s, store_wf s ∧ ids_i32 s) (λ _, 20) (spec_register req) (atomic (spec_register req))
    (KafkaStore.register req).
Proof.
  intros Hreq. apply implements_const; [by apply refines_register|]. intros p. apply answers_register.
Qed.

(** C14: the setting changes implement their specifications: setting a global or subject
    compatibility level, clearing a subject's level, setting and clearing modes. [READONLY]
    blocks a level change, [IMPORT] is refused on a registry or subject that has versions,
    unknown modes are refused without touching the log, a success is visible in the node's live
    state, and when the environment answers, so does the operation. *)
Theorem settings_refine subject osubject level mode :
  implements any_state (λ _, 20) (spec_set_compat osubject level)
    (atomic (spec_set_compat osubject level)) (set_compat osubject level) ∧
  implements any_state (λ _, 20) (spec_delete_subject_compat subject)
    (atomic (spec_delete_subject_compat subject)) (delete_subject_compat subject) ∧
  implements any_state (λ _, 20) (spec_set_global_mode mode) (atomic (spec_set_global_mode mode))
    (KafkaStore.set_global_mode mode) ∧
  implements any_state (λ _, 20) (spec_set_subject_mode subject mode)
    (atomic (spec_set_subject_mode subject mode)) (KafkaStore.set_subject_mode subject mode) ∧
  implements any_state (λ _, 20) (spec_clear_subject_mode subject)
    (atomic (spec_clear_subject_mode subject)) (KafkaStore.clear_subject_mode subject).
Proof.
  split_and!; apply implements_const; auto using refines_set_compat, refines_delete_subject_compat,
    refines_set_global_mode, refines_set_subject_mode, refines_clear_subject_mode,
    answers_set_compat, answers_delete_subject_compat, answers_set_global_mode,
    answers_set_subject_mode, answers_clear_subject_mode.
Qed.

(** C15: the delete operations implement their contracts, stated on the registry itself. A
    delete of a version or subject is refused when the effective mode is READONLY, when the
    subject has no history or no such version, when a permanent delete finds the version (or a
    version of the subject) not soft-deleted, when a soft delete finds the subject already
    soft-deleted, or when a live version of any subject references the target; otherwise its
    effect is the specified one and visible in the node's live state. A permanent delete
    persists the version high-water mark before any tombstone, so a failure in between never
    loses it. When the environment answers (a subject delete makes calls per version), so does
    the operation. *)
Theorem deletes_refine subject v :
  in_i32 v →
  implements (λ s, store_wf s ∧ stored_ok s) (λ _, 20) (contract_soft_delete_version subject v)
    (atomic (contract_soft_delete_version subject v)) (soft_delete_version subject v) ∧
  implements store_wf (λ _, 20) (contract_permanent_delete_version subject v)
    (partial_version_contract subject v) (KafkaStore.permanent_delete_version subject v) ∧
  implements store_wf (soft_bound subject) (contract_soft_delete_subject subject)
    (atomic (contract_soft_delete_subject subject)) (KafkaStore.soft_delete_subject subject) ∧
  implements store_wf (permanent_bound subject) (contract_permanent_delete_subject subject)
    (partial_subject_contract subject) (permanent_delete_subject subject).
Proof.
  intros Hv. split_and!.
  - eapply implements_as; [..|apply implements_const; auto using refines_soft_delete_version, answers_soft_delete_version].
    + intros s [Hs _]. by apply soft_delete_version_contract.
    + intros s s' [Hs _]. unfold atomic. by rewrite soft_delete_version_contract.
  - eapply implements_as; [..|apply implements_const;
      auto using refines_permanent_delete_version, answers_permanent_delete_version].
    + intros s. apply permanent_delete_version_contract.
    + intros s s'. apply partial_version_contract_intro.
  - eapply implements_as; [..|apply implements_intro; auto using refines_soft_delete_subject, answers_soft_delete_subject].
    + intros s _. apply soft_delete_subject_contract.
    + intros s s' _. unfold atomic. by rewrite soft_delete_subject_contract.
  - eapply implements_as; [..|apply implements_intro;
      auto using refines_permanent_delete_subject, answers_permanent_delete_subject].
    + intros s _. apply permanent_delete_subject_contract.
    + intros s s' _. apply partial_subject_contract_intro.
Qed.
End live.

(** ** A concrete environment for the witnesses *)

Fixpoint drop_last2 (s : string) : string :=
  match s with
  | String a s' =>
      match s' with String _ (String _ _) => String a (drop_last2 s') | _ => "" end
  | EmptyString => ""
  end.

Lemma drop_last2_app t a b : drop_last2 (t +:+ String a (String b "")) = t.
Proof.
  induction t as [|c t IH]; [done|]. destruct t as [|d t]; [done|].
  destruct t as [|e t]; [done|]. simpl in *. by rewrite IH.
Qed.

Definition marker_prefix : string :=
  "{" +:+ quote +:+ "keytype" +:+ quote +:+ ":" +:+ quote +:+ "NOOP" +:+ quote +:+ "," +:+
  quote +:+ "magic" +:+ quote +:+ ":0," +:+ quote +:+ "barrier" +:+ quote +:+ ":" +:+ quote.

(** The tree format, extended with the marker's text and the empty object. *)
Definition marker_serde : SerdeJson := {|
  json_print v := @json_print tree_serde v;
  json_parse s :=
    match strip_prefix marker_prefix s with
    | Some r => Some (JObject [("keytype", JString "NOOP"); ("magic", JNumber (PosInt 0));
                               ("barrier", JString (drop_last2 r))])
    | None => if String.eqb s "{}" then Some (JObject []) else @json_parse tree_serde s
    end;
|}.

Definition marker_serde_laws : @SerdeJsonLaws marker_serde.
Proof.
  constructor. intros v Hv. cbn [json_parse json_print marker_serde].
  change (@json_print tree_serde v) with (bits_of (countable.encode (tree_of_json v))).
  assert (∀ p, strip_prefix marker_prefix (bits_of p) = None ∧ String.eqb (bits_of p) "{}" = false) as Hb
    by (by intros []).
  destruct (Hb (countable.encode (tree_of_json v))) as [-> ->]. by apply tree_serde_laws.
Qed.

Definition marker_laws : @MarkerLaws marker_serde string_uuid.
Proof.
  constructor; [|done]. intros t. unfold barrier_key. cbn [json_parse marker_serde].
  change (_ +:+ _) with (marker_prefix +:+ ((t : string) +:+ quote +:+ "}")) at 1.
  rewrite strip_prefix_app.
  change (drop_last2 _) with (drop_last2 ((t : string) +:+ String (Ascii.ascii_of_nat 34) (String (Ascii.ascii_of_nat 125) ""))) at 1.
  by rewrite drop_last2_app.
Qed.

Section witnesses.
#[local] Existing Instance echo_format.
#[local] Existing Instance marker_serde.
#[local] Existing Instance marker_serde_laws.
#[local] Existing Instance string_uuid.
#[local] Existing Instance marker_laws.

Definition ok_reply : Reply := mkReply [] 0 None OOk true ("t" : @Uuid string_uuid).

(** A fresh registry whose environment answers every call. *)
Definition demo_world : World :=
  mkWorld default_store [] 0 None "schema-registry" None [] (repeat ok_reply 40).

Lemma demo_world_at : at_state default_store demo_world.
Proof. split; [|done|done]. repeat constructor. Qed.

Lemma ids_i32_default : ids_i32 default_store.
Proof. intros id Hid. vm_compute in Hid. by destruct Hid. Qed.

Definition demo_request : RegisterSchema := mkRegisterSchema "orders" Avro "X" [] None None None.


Definition echo_format_laws : @FormatLaws echo_format.
Proof.
  constructor; cbn [format_parse normalized_storage_form echo_format]; intros ty s refs e He;
    repeat case_match; simplify_eq; by intros [].
Defined.
#[local] Existing Instance echo_format_laws.

Lemma demo_world_coop n : n ≤ 40 → coop None n demo_world.
Proof.
  intros Hn. split_and!; [simpl; lia| |done|done]. cbn [w_script demo_world].
  apply Forall_forall. intros rp Hrp. apply list_elem_of_In, repeat_spec in Hrp. by subst.
Qed.

Lemma register_refines_witness :
  match KafkaStore.register demo_request demo_world with
  | (Ok a, w') => spec_register demo_request default_store = Ok (a, live w') ∧ a = mkRegistered 1 1
  | (Err e, w') => False
  end.
Proof.
  destruct (register_refines demo_request ltac:(by split; [constructor|split])) as [_ Hr].
  specialize (Hr default_store demo_world None (conj default_store_wf ids_i32_default) demo_world_at
    (demo_world_coop 20 ltac:(lia))).
  assert ((KafkaStore.register demo_request demo_world).1 = Ok (mkRegistered 1 1)) as Hok
    by (vm_compute; reflexivity).
  destruct (KafkaStore.register demo_request demo_world) as [[a|e] w']; simpl in Hok; [|discriminate].
  injection Hok as ->. destruct Hr as [Hr _]. split; [exact Hr|reflexivity].
Defined.

Lemma settings_refine_witness :
  match KafkaStore.set_global_mode "READONLY" demo_world with
  | (Ok a, w') => spec_set_global_mode "READONLY" default_store = Ok (a, live w') ∧
      global_mode (live w') = "READONLY"
  | (Err _, _) => False
  end.
Proof.
  destruct (settings_refine "orders" None "BACKWARD" "READONLY") as (_ & _ & [_ Hs] & _).
  specialize (Hs default_store demo_world None I demo_world_at (demo_world_coop 20 ltac:(lia))).
  assert ((KafkaStore.set_global_mode "READONLY" demo_world).1 = Ok tt ∧
    global_mode (live (KafkaStore.set_global_mode "READONLY" demo_world).2) = "READONLY") as [Hok Hm]
    by (vm_compute; split; reflexivity).
  destruct (KafkaStore.set_global_mode "READONLY" demo_world) as [[a|e] w']; simpl in Hok; [|discriminate].
  injection Hok as ->. destruct Hs as [Hs _]. split; [exact Hs|exact Hm].
Defined.

Lemma deletes_refine_witness :
  match KafkaStore.soft_delete_subject "orders" demo_world with
  | (Ok _, _) => False
  | (Err e, w') => e = SubjectNotFound "orders" ∧
      contract_soft_delete_subject "orders" default_store = Err e
  end.
Proof.
  destruct (deletes_refine "orders" 1 in_i32_0) as (_ & _ & [_ Hs] & _).
  specialize (Hs default_store demo_world None default_store_wf demo_world_at
    (demo_world_coop (soft_bound "orders" default_store) ltac:(vm_compute; repeat constructor))).
  assert ((KafkaStore.soft_delete_subject "orders" demo_world).1 = Err (SubjectNotFound "orders")) as He
    by (vm_compute; reflexivity).
  destruct (KafkaStore.soft_delete_subject "orders" demo_world) as [[a|e] w']; simpl in He; [discriminate|].
  injection He as ->. split; [reflexivity|]. destruct Hs as [Hs _]. exact Hs.
Defined.
End witnesses.
