(* ===== verification/Topic.v ===== *)
(** * Creating the schemas topic (kafkastore/topic.rs)

    The topic is created when it is absent, and polled until the broker shows it with one
    partition and compaction only, or the deadline has passed. What the admin client answers in a
    round and the time read then are its input; times are in milliseconds. *)

From stdpp Require Import base gmap strings list pretty.
From Stdlib Require Import ZArith Lia Ascii.
From S2P Require Import Prelude Text Types.

#[local] Open Scope Z_scope.

(** krabka-client-core's and the admin client's errors, with the variants told apart. *)
Inductive ClientError := CConnect | CDisconnected | CTimeout | CIo | COther.
Inductive AdminError :=
  | AConnect
  | ATransport (e : ClientError)
  | ABroker (code : Z) (name : string)
  | AOther.

Definition TOPIC_ALREADY_EXISTS : Z := 36.

Definition transient_topic_error (code : Z) : bool := existsb (Z.eqb code) [3; 5; 6; 100].

Definition retryable_admin_error (error : AdminError) : bool :=
  match error with
  | AConnect | ATransport (CConnect | CDisconnected | CTimeout | CIo) => true
  | ABroker code _ => transient_topic_error code
  | _ => false
  end.

Definition compact_only (policy : string) : bool :=
  match List.filter (λ value, negb (String.eqb value "")) (trim <$> split_char "," policy) with
  | [value] => String.eqb value "compact"
  | _ => false
  end.

Record TopicSpec := mkTopicSpec {
  sp_name : string;
  sp_partitions : Z;
  sp_replicas : Z;
  sp_configs : list (string * string);
}.

(** [schemas_topic_spec]; the timeout is passed on. *)
Definition schemas_topic_spec (schemas_topic : string) (rf : Z) : TopicSpec :=
  mkTopicSpec schemas_topic 1 rf [("cleanup.policy", "compact")].

Section ensure.
Context {Uuid : Type} (zero : Uuid).

Record TopicEntry := mkTopicEntry {
  te_name : string;
  te_error : option (Z * string);
  te_partition_count : Z;
  te_topic_id : option Uuid;
}.

(** One answer of [describe_configs]: what it holds for the resource, as the
    overrides that are set on the topic. *)
Definition Described : Type := option (result (Z * string) (gmap string string)).

Definition topic_config (described : Described) : result AdminError (gmap string string) :=
  match described with
  | Some (Ok config) => Ok config
  | Some (Err (code, name)) => Err (ABroker code name)
  | None => Ok ∅
  end.

(** A round of the loop: the answers, and the clock at its decision. *)
Record Round := mkRound {
  rd_metadata : result AdminError (list TopicEntry);
  rd_described : result AdminError Described;
  rd_now : Z;
}.

(** How the call ends: with the topic's id, or with the error it returns. *)
Inductive EnsureError :=
  | CreateFailed (code : Z) (name : string)
  | AdminFailed (e : AdminError)
  | NotFoundAfterCreate
  | MetadataFailed (code : Z) (name : string)
  | PartitionCount (observed : Z)
  | NotCompactOnly (observed : option string).

(** [None]: sleep 100 ms and go round again. *)
Definition topic_round (topic : string) (deadline : Z) (r : Round) : option (result EnsureError Uuid) :=
  let before := rd_now r <? deadline in
  match rd_metadata r with
  | Err error => if retryable_admin_error error && before then None else Some (Err (AdminFailed error))
  | Ok topics =>
      match List.find (λ entry, String.eqb (te_name entry) topic) topics with
      | None => if before then None else Some (Err NotFoundAfterCreate)
      | Some entry =>
          match te_error entry with
          | Some (code, name) =>
              if transient_topic_error code && before then None else Some (Err (MetadataFailed code name))
          | None =>
              if negb (te_partition_count entry =? 1) then Some (Err (PartitionCount (te_partition_count entry)))
              else
                match (d ← rd_described r; topic_config d) with
                | Err error => if retryable_admin_error error && before then None else Some (Err (AdminFailed error))
                | Ok config =>
                    let cleanup_policy := config !! "cleanup.policy" in
                    if match cleanup_policy with Some p => compact_only p | None => false end
                    then Some (Ok (default zero (te_topic_id entry)))
                    else Some (Err (NotCompactOnly cleanup_policy))
                end
          end
      end
  end.

(** The loop over the rounds of the environment; [None]: still waiting. *)
Fixpoint poll_topic (topic : string) (deadline : Z) (rounds : list Round) : option (result EnsureError Uuid) :=
  match rounds with
  | [] => None
  | r :: rounds' =>
      match topic_round topic deadline r with
      | Some answer => Some answer
      | None => poll_topic topic deadline rounds'
      end
  end.

(** [created]: the first outcome of [create_topics], if any, with its error. *)
Definition ensure_schemas_topic (topic : string) (timeout : Z) (created : result AdminError (option (option (Z * string))))
    (now : Z) (rounds : list Round) : option (result EnsureError Uuid) :=
  match created with
  | Err e => Some (Err (AdminFailed e))
  | Ok (Some (Some (code, name))) =>
      if code =? TOPIC_ALREADY_EXISTS then poll_topic topic (now + timeout) rounds
      else Some (Err (CreateFailed code name))
  | Ok _ => poll_topic topic (now + timeout) rounds
  end.

(** ** Facts *)

(** The rounds come at least 100 ms apart, the [k]-th not before [k] sleeps. *)
Definition paced (start : Z) (rounds : list Round) : Prop :=
  ∀ k r, rounds !! k = Some r → start + 100 * Z.of_nat k ≤ rd_now r.

(** Compaction is the one entry of a cleanup policy, blanks apart. *)
Definition only_compacted (policy : string) : Prop :=
  ∃ pre post, trim <$> split_char "," policy = pre ++ "compact" :: post ∧
    Forall (λ x, x = "") pre ∧ Forall (λ x, x = "") post.

(** What an accepted topic looked like. *)
Definition usable_topic (topic : string) (r : Round) (id : Uuid) : Prop :=
  ∃ topics entry config policy,
    rd_metadata r = Ok topics ∧ List.find (λ e, String.eqb (te_name e) topic) topics = Some entry ∧
    te_error entry = None ∧ te_partition_count entry = 1 ∧ id = default zero (te_topic_id entry) ∧
    rd_described r = Ok (Some (Ok config)) ∧
    config !! "cleanup.policy" = Some policy ∧ only_compacted policy.

(** Errors of a broker that is reached but not settled (unknown topic or partition, no leader, not the
    leader, unknown topic id), and errors of reaching it. *)
Definition unsettled (code : Z) : Prop := code ∈ [3; 5; 6; 100].
Definition may_pass (e : AdminError) : Prop :=
  match e with
  | AConnect => True
  | ATransport c => c ≠ COther
  | ABroker code _ => unsettled code
  | AOther => False
  end.

(** A round whose trouble may pass: the metadata or the configuration could not be had, or the topic is
    not there yet or not settled. *)
Inductive passing (topic : string) (r : Round) : Prop :=
  | passing_metadata e : rd_metadata r = Err e → may_pass e → passing topic r
  | passing_absent topics : rd_metadata r = Ok topics →
      Forall (λ e, te_name e ≠ topic) topics → passing topic r
  | passing_entry topics entry code name : rd_metadata r = Ok topics →
      List.find (λ e, String.eqb (te_name e) topic) topics = Some entry →
      te_error entry = Some (code, name) → unsettled code → passing topic r
  | passing_config topics entry e : rd_metadata r = Ok topics →
      List.find (λ e, String.eqb (te_name e) topic) topics = Some entry →
      te_error entry = None → te_partition_count entry = 1 →
      rd_described r = Err e ∨ (∃ code name, rd_described r = Ok (Some (Err (code, name))) ∧ e = ABroker code name) →
      may_pass e → passing topic r.

Lemma transient_spec code : transient_topic_error code = true ↔ unsettled code.
Proof.
  unfold transient_topic_error, unsettled. rewrite existsb_exists. setoid_rewrite list_elem_of_In.
  split; [by intros (x & Hx & ->%Z.eqb_eq)|]. intros Hc. exists code. by rewrite Z.eqb_refl.
Qed.

Lemma retryable_spec e : retryable_admin_error e = true ↔ may_pass e.
Proof.
  destruct e as [|[]|code name|]; [..|apply transient_spec|]; cbn; try done; split; try done; congruence.
Qed.

Lemma blanks_filtered l : List.filter (λ value, negb (String.eqb value "")) l = [] ↔ Forall (λ x, x = "") l.
Proof.
  induction l as [|x l IH]; [done|]. rewrite Forall_cons. cbn [List.filter].
  destruct (String.eqb_spec x ""); cbn [negb]; [by rewrite IH; tauto|]. split; [done|tauto].
Qed.

Lemma one_filtered l x : x ≠ "" →
  List.filter (λ value, negb (String.eqb value "")) l = [x] ↔
  ∃ pre post, l = pre ++ x :: post ∧ Forall (λ x, x = "") pre ∧ Forall (λ x, x = "") post.
Proof.
  intros Hx. split.
  - induction l as [|y l IH]; [done|]. cbn [List.filter]. destruct (String.eqb_spec y "") as [->|Hy]; cbn [negb].
    + intros (pre & post & -> & ? & ?)%IH. exists ("" :: pre), post. split_and!; [done|by constructor|done].
    + intros [= -> Hl%blanks_filtered]. by exists [], l.
  - intros (pre & post & -> & Hpre%blanks_filtered & Hpost%blanks_filtered).
    rewrite List.filter_app. cbn [List.filter]. rewrite Hpre, Hpost. by destruct (String.eqb_spec x "").
Qed.

Lemma compact_only_spec policy : compact_only policy = true ↔ only_compacted policy.
Proof.
  unfold only_compacted. rewrite <- one_filtered by done. unfold compact_only.
  destruct (List.filter _ _) as [|v [|]]; [done| |done].
  rewrite String.eqb_eq. split; [by intros ->|by intros [= ->]].
Qed.

Lemma find_absent topic topics :
  List.find (λ e, String.eqb (te_name e) topic) topics = None ↔ Forall (λ e, te_name e ≠ topic) topics.
Proof.
  induction topics as [|e topics IH]; cbn; [done|]. rewrite Forall_cons.
  destruct (String.eqb_spec (te_name e) topic); [split; [done|tauto]|]. rewrite IH. tauto.
Qed.

(** Whether a round goes round again. *)
Lemma retried b (before : bool) (answer : result EnsureError Uuid) :
  (if b && before then None else Some answer) = None ↔ b = true ∧ before = true.
Proof. by destruct b, before; cbn; split; intros; destruct_and?. Qed.

Lemma topic_round_retry topic deadline r :
  topic_round topic deadline r = None ↔ passing topic r ∧ rd_now r < deadline.
Proof.
  rewrite <- Z.ltb_lt. unfold topic_round. cbn zeta.
  destruct (rd_metadata r) as [topics|e] eqn:Em.
  2:{ rewrite retried, retryable_spec. split; intros [Hp Hb]; (split; [|done]); [by eapply passing_metadata|].
      destruct Hp as [e' ? ?| | |]; [by replace e with e' by congruence|congruence..]. }
  destruct (List.find _ topics) as [entry|] eqn:Hf.
  2:{ transitivity ((rd_now r <? deadline) = true); [by destruct (_ <? _)|]. split; [|tauto]. intros Hb. split; [|done].
      by eapply passing_absent; [|apply find_absent]. }
  assert (∀ topics', rd_metadata r = Ok topics' → Forall (λ e, te_name e ≠ topic) topics' → False) as Hin.
  { intros topics' Ht Hall%find_absent. congruence. }
  assert (∀ topics' entry', rd_metadata r = Ok topics' →
    List.find (λ e, String.eqb (te_name e) topic) topics' = Some entry' → entry' = entry) as Hentry by congruence.
  assert (passing topic r → (∃ code name, te_error entry = Some (code, name) ∧ unsettled code) ∨
    te_error entry = None ∧ te_partition_count entry = 1 ∧ ∃ e, may_pass e ∧
      (rd_described r = Err e ∨ ∃ code name, rd_described r = Ok (Some (Err (code, name))) ∧ e = ABroker code name)) as Hcases.
  { destruct 1 as [| |topics' entry' code name Ht Hf'|topics' entry' e Ht Hf']; [congruence|by edestruct Hin|..];
      rewrite <- (Hentry _ _ Ht Hf'); [left; eauto|right; eauto 6]. }
  destruct (te_error entry) as [[code name]|] eqn:Ee.
  { rewrite retried, transient_spec. split; intros [Hp Hb]; (split; [|done]); [by eapply passing_entry|].
    by destruct (Hcases Hp) as [(? & ? & [= <- <-] & ?)|[? _]]. }
  destruct (Z.eqb_spec (te_partition_count entry) 1) as [Hc|Hc]; cbn [negb].
  2:{ split; [done|]. intros [Hp _]. by destruct (Hcases Hp) as [(? & ? & ? & _)|(_ & ? & _)]. }
  assert (passing topic r → ∃ e, may_pass e ∧
      (rd_described r = Err e ∨ ∃ code name, rd_described r = Ok (Some (Err (code, name))) ∧ e = ABroker code name)) as Hconfig.
  { by intros [(? & ? & ? & _)|(_ & _ & ?)]%Hcases. } clear Hcases.
  destruct (rd_described r) as [[[config|[code name]]|]|e] eqn:Ed; cbn [mbind result_bind topic_config].
  - split; [by repeat case_match|]. by intros [(? & _ & [|(? & ? & ? & _)])%Hconfig _].
  - rewrite retried, retryable_spec. split; intros [Hp Hb]; (split; [|done]).
    + eapply passing_config; [done..|right; by eexists _, _|done].
    + by destruct (Hconfig Hp) as (? & ? & [|(? & ? & [= <- <-] & ->)]).
  - split; [by repeat case_match|]. by intros [(? & _ & [|(? & ? & ? & _)])%Hconfig _].
  - rewrite retried, retryable_spec. split; intros [Hp Hb]; (split; [|done]).
    + eapply passing_config; [done..|by left|done].
    + by destruct (Hconfig Hp) as (? & ? & [[= <-]|(? & ? & ? & _)]).
Qed.

Lemma topic_round_ok topic deadline r id :
  topic_round topic deadline r = Some (Ok id) ↔ usable_topic topic r id.
Proof.
  unfold topic_round, usable_topic. setoid_rewrite <- compact_only_spec. split.
  - destruct (rd_metadata r) as [topics|]; [|by case_match].
    destruct (List.find _ topics) as [entry|] eqn:Hf; [|by case_match].
    destruct (te_error entry) as [[code name]|] eqn:He; [by case_match|].
    destruct (Z.eqb_spec (te_partition_count entry) 1) as [Hp|]; [|done]. cbn [negb].
    destruct (rd_described r) as [[[config|[code name]]|]|]; cbn [mbind result_bind topic_config]; [|by case_match|done|by case_match].
    destruct (config !! "cleanup.policy") as [policy|] eqn:Hpol; [|done].
    destruct (compact_only policy) eqn:Hco; [|done]. intros [= <-].
    exists topics, entry, config, policy. done.
  - intros (topics & entry & config & policy & -> & -> & -> & -> & -> & -> & Hpol & Hco).
    cbn. by rewrite Hpol, Hco.
Qed.

Lemma poll_topic_spec topic deadline rounds answer :
  poll_topic topic deadline rounds = Some answer →
  ∃ pre r post, rounds = pre ++ r :: post ∧ topic_round topic deadline r = Some answer ∧
    Forall (λ r', topic_round topic deadline r' = None) pre.
Proof.
  induction rounds as [|r rounds IH]; cbn; [done|].
  destruct (topic_round topic deadline r) as [a|] eqn:Hr.
  - intros [= <-]. exists [], r, rounds. done.
  - intros (pre & r' & post & -> & Hr' & Hpre)%IH. exists (r :: pre), r', post. split_and!; [done..|by constructor].
Qed.

Lemma poll_topic_ends topic deadline rounds :
  Exists (λ r, deadline ≤ rd_now r) rounds → is_Some (poll_topic topic deadline rounds).
Proof.
  induction rounds as [|r rounds IH]; intros Hx; [by apply Exists_nil in Hx|]. cbn.
  destruct (topic_round topic deadline r) eqn:Hr; [done|]. apply topic_round_retry in Hr as [_ Hr].
  apply Exists_cons in Hx as [?|?]; [lia|by apply IH].
Qed.

(** A call that answers with an id found or made the topic, and polled it. *)
Lemma ensure_polled topic timeout created now rounds id :
  ensure_schemas_topic topic timeout created now rounds = Some (Ok id) →
  poll_topic topic (now + timeout) rounds = Some (Ok id) ∧ (∀ e, created ≠ Err e) ∧
  (∀ code name, created = Ok (Some (Some (code, name))) → code = TOPIC_ALREADY_EXISTS).
Proof.
  intros He. unfold ensure_schemas_topic in He. destruct created as [[[[code name]|]|]|e]; [| | |done]; try by split_and!.
  destruct (Z.eqb_spec code TOPIC_ALREADY_EXISTS); [|done]. split_and!; [done..|]. by intros ? ? [= <- <-].
Qed.

Lemma ensure_usable topic timeout created now rounds id :
  ensure_schemas_topic topic timeout created now rounds = Some (Ok id) → ∃ r, r ∈ rounds ∧ usable_topic topic r id.
Proof.
  intros (Hp & _)%ensure_polled. apply poll_topic_spec in Hp as (pre & r & post & -> & Hr & _).
  exists r. split; [apply elem_of_app; right; by left|by eapply topic_round_ok].
Qed.
End ensure.

(** C37: the topic a node starts on is usable, and the wait for it is bounded. A topic that could not
    be created is refused unless it was there already (error 36). Then the first round
    decides that is not one of trouble that may pass (the broker not reached, the topic not
    there yet or not settled: errors 3, 5, 6 and 100) before the deadline; it answers with
    the topic's id exactly when it showed the topic with one partition, no error and
    compaction as the only entry of its cleanup policy, and with an error otherwise. With
    rounds 100 ms apart, the call has ended one round after the timeout. *)
Theorem ensure_topic_spec {Uuid} (zero : Uuid) topic timeout created now rounds :
  (∀ answer, ensure_schemas_topic zero topic timeout created now rounds = Some answer →
     match created with
     | Err e => answer = Err (AdminFailed e)
     | Ok (Some (Some (code, name))) => code ≠ 36 → answer = Err (CreateFailed code name)
     | _ => True
     end ∧
     ((∀ e, created ≠ Err e) → (∀ code name, created = Ok (Some (Some (code, name))) → code = 36) →
      ∃ pre r post, rounds = pre ++ r :: post ∧
        Forall (λ r', passing topic r' ∧ rd_now r' < now + timeout) pre ∧
        ¬ (passing topic r ∧ rd_now r < now + timeout) ∧
        ∀ id, answer = Ok id ↔ usable_topic zero topic r id)) ∧
  (paced now rounds → 0 ≤ timeout → timeout + 100 ≤ 100 * Z.of_nat (length rounds) →
     is_Some (ensure_schemas_topic zero topic timeout created now rounds)).
Proof.
  split.
  - intros answer He. split.
    { unfold ensure_schemas_topic in He. destruct created as [[[[code name]|]|]|e]; [|done..|by injection He as <-].
      intros Hne. unfold TOPIC_ALREADY_EXISTS in He. rewrite (proj2 (Z.eqb_neq _ _) Hne) in He. by injection He as <-. }
    intros Hno Hexists.
    assert (poll_topic zero topic (now + timeout) rounds = Some answer) as Hp.
    { unfold ensure_schemas_topic in He. destruct created as [[[[code name]|]|]|e]; try done; [|by destruct (Hno e)].
      by rewrite (Hexists _ _ eq_refl) in He. }
    apply poll_topic_spec in Hp as (pre & r & post & -> & Hr & Hpre).
    exists pre, r, post. split_and!; [done| | |].
    + eapply Forall_impl; [exact Hpre|]. intros r'. apply topic_round_retry.
    + rewrite <- (topic_round_retry zero). by rewrite Hr.
    + intros id. rewrite <- topic_round_ok, Hr. split; [by intros ->|by intros [= ->]].
  - intros Hpace Htime Hlen.
    assert (is_Some (poll_topic zero topic (now + timeout) rounds)) as [a Ha].
    { apply poll_topic_ends. destruct (lookup_lt_is_Some_2 rounds (length rounds - 1)) as [r Hr]; [lia|].
      apply Exists_exists. exists r. split; [by eapply list_elem_of_lookup_2|]. apply Hpace in Hr. lia. }
    unfold ensure_schemas_topic. rewrite Ha. destruct created as [[[[code name]|]|]|e]; try by eexists.
    by destruct (code =? TOPIC_ALREADY_EXISTS).
Qed.
