(* ===== verification/Start.v ===== *)
(** * Starting the store (KafkaStore::start of kafkastore/mod.rs)

    A node creates or checks the topic, spawns the reader, starts the writer, puts a barrier
    at the end of the log and serves once its reader has applied it. The reader and other waiters run
    between the steps of the start: what they do is its input, as turns of Reader.v. *)

From stdpp Require Import base gmap strings list relations sorting.
From Stdlib Require Import ZArith Lia.
From S2P Require Import Prelude Json Types Store StoreFacts StoreSpec Record RecordFacts Reader ReaderFacts Topic.

#[local] Open Scope Z_scope.

Section start.
Context `{SchemaFormat} `{SerdeJson} `{UuidLib}.

(** A turn of the reader task or of another waiter. *)
Inductive Turn :=
  | TReader (ev : ReaderEvent)
  | TWaiter (ev : WaiterEvent).

Definition take_turn (t : Turn) (r : Reader) : option Reader :=
  match t with
  | TReader ev => reader_step ev r
  | TWaiter ev => Some (waiter_step ev r)
  end.

Fixpoint take_turns (turns : list Turn) (r : Reader) : option Reader :=
  match turns with
  | [] => Some r
  | t :: rest => r' ← take_turn t r; take_turns rest r'
  end.

(** What ends a wait for the watch: the turns up to the next change, the cancellation, or the
    end of the reader. *)
Inductive Wake :=
  | Changed (turns : list Turn)
  | Cancelled
  | Stopped.

(** [await_barrier_rx]; [None]: still waiting. *)
Fixpoint await_barrier_rx (token : Uuid) (wakes : list Wake) (r : Reader) : option (result string Reader) :=
  match poll token (rd_barriers r) with
  | (Seen, b) => Some (Ok (set_barriers b r))
  | (Invalidated, _) => Some (Err "schema topic was replaced during initial replay")
  | (Pending, _) =>
      match wakes with
      | [] => None
      | Changed turns :: rest => r' ← take_turns turns r; await_barrier_rx token rest r'
      | Cancelled :: _ => Some (Err "schema-store startup cancelled during replay")
      | Stopped :: _ => Some (Err "schema-store reader stopped during initial replay")
      end
  end.

Inductive StartError :=
  | TopicError (e : EnsureError)
  | StartFailed (message : string).

(** What the environment does during a start: the answers of the admin client, the turns while the
    writer connects and while the barrier is produced, both outcomes, the wakes, the turns while the
    marker is cleared and the outcome of that. *)
Record Startup := mkStartup {
  su_created : result AdminError (option (option (Z * string)));
  su_now : Z;
  su_rounds : list (Round (Uuid := Z));
  su_connecting : list Turn;
  su_writer : result string unit;
  su_token : Uuid;
  su_ordering : list Turn;
  su_barrier : result string unit;
  su_wakes : list Wake;
  su_finishing : list Turn;
  su_cleared : result string unit;
}.

(** [finish]: the token is forgotten, the marker's tombstone awaited; when it fails, that is logged
    and the guard's drop forgets the token again. *)
Definition finish (token : Uuid) (finishing : list Turn) (cleared : result string unit) (r : Reader)
    : option Reader :=
  r' ← take_turns finishing (waiter_step (WCancel token) r);
  Some (match cleared with Ok _ => r' | Err _ => waiter_step (WCancel token) r' end).

(** [start], with the reader's state at its return; [None]: it has not ended. *)
Definition start (schemas_topic level mode : string) (create_timeout : Z) (u : Startup)
    : option (result StartError Reader) :=
  topic ← ensure_schemas_topic 0 schemas_topic create_timeout (su_created u) (su_now u) (su_rounds u);
  match topic with
  | Err e => Some (Err (TopicError e))
  | Ok topic_id =>
      r ← take_turns (su_connecting u) (reader_init topic_id (with_defaults level mode));
      match su_writer u with
      | Err m => Some (Err (StartFailed m))
      | Ok _ =>
          r1 ← take_turns (su_ordering u) (waiter_step (WReserve (su_token u)) r);
          match su_barrier u with
          | Err m => Some (Err (StartFailed m))
          | Ok _ =>
              awaited ← await_barrier_rx (su_token u) (su_wakes u) r1;
              match awaited with
              | Err m => Some (Err (StartFailed m))
              | Ok r2 => r3 ← finish (su_token u) (su_finishing u) (su_cleared u) r2; Some (Ok r3)
              end
          end
      end
  end.

(** ** Every state a reader serves is well formed *)

Record reader_wf (r : Reader) : Prop := {
  wf_live : store_wf (rd_live r);
  wf_defaults : store_wf (rd_defaults r);
  wf_rebuild : ∀ s e, rd_rebuild r = Some (s, e) → store_wf s;
}.

Lemma fetch_record_wf r lr : reader_wf r → reader_wf (fetch_record r lr).
Proof.
  intros [Hl Hd Hr]. unfold fetch_record. destruct (_ <? _); [done|].
  assert (∀ rec, rd_live (account_unsupported rec r) = rd_live r ∧ rd_rebuild (account_unsupported rec r) = rd_rebuild r ∧
    rd_defaults (account_unsupported rec r) = rd_defaults r) as Ha by (intros rec; unfold account_unsupported; by destruct rec).
  destruct (Ha (decode (default "" (lr_key lr)) (lr_value lr))) as (El & Er & Ed). rewrite El, Er.
  destruct (rd_rebuild r) as [[s e]|]; (split; cbn; [|by rewrite Ed|]); try done.
  - intros ? ? [= <- <-]. apply apply_record_wf; [apply decode_i32|by eapply Hr].
  - apply apply_record_wf; [apply decode_i32|done].
Qed.

Lemma fetch_ok_wf records next_offset r : reader_wf r → reader_wf (fetch_ok records next_offset r).
Proof.
  intros Hr. unfold fetch_ok. set (r0 := mkReader _ _ _ _ _ _ _ _ 0 _ _ _ _).
  assert (reader_wf (foldl fetch_record r0 records)) as Hf.
  { assert (reader_wf r0) as Hr0 by (by destruct Hr; split). clearbody r0. clear Hr. revert r0 Hr0.
    induction records as [|lr records IH]; intros r0 Hr0; [done|]. cbn. by apply IH, fetch_record_wf. }
  destruct next_offset as [cursor|]; [|done]. cbn zeta. destruct Hf as [Hl Hd Hb].
  unfold complete_rebuild. destruct (rd_rebuild (foldl fetch_record r0 records)) as [[s e]|]; [|by split].
  specialize (Hb s e eq_refl). destruct (e <=? _); (split; cbn; [done|done|]); [done|]. by intros ? ? [= <- <-].
Qed.

Lemma begin_rebuild_wf live defaults previous start e preserve :
  store_wf live → store_wf defaults → (∀ s e, previous = Some (s, e) → store_wf s) →
  store_wf (begin_rebuild live defaults previous start e preserve).1 ∧
  ∀ s e', (begin_rebuild live defaults previous start e preserve).2 = Some (s, e') → store_wf s.
Proof.
  intros Hl Hd Hp. unfold begin_rebuild.
  assert (store_wf (if preserve then match previous with
    | Some (p, _) => preserve_id_high_water (preserve_id_high_water defaults live) p
    | None => preserve_id_high_water defaults live end else defaults)) as Hs.
  { destruct preserve; [|done]. destruct previous as [[p ?]|]; auto with krabka.
    apply preserve_id_high_water_wf; [|by eapply Hp]. by apply preserve_id_high_water_wf. }
  destruct (e <=? start); (split; [done|]); cbn; [done|]. by intros ? ? [= <- <-].
Qed.

Lemma take_turn_wf t r r' : take_turn t r = Some r' → reader_wf r → reader_wf r'.
Proof.
  intros Ht Hr. destruct t as [ev|ev]; cbn in Ht; [|injection Ht as <-; by destruct Hr; split].
  destruct ev as [resolved bounds| |records next_offset|e bounds]; cbn in Ht;
    destruct (rd_connected r); simplify_eq.
  - unfold connect_ok. destruct (_ && _); [|by destruct Hr; split].
    destruct bounds as [[start e]|]; [|by destruct Hr; split]. destruct Hr as [Hl Hd Hb].
    destruct (begin_rebuild_wf (rd_live r) (rd_defaults r) None start e false) as [Hlive Hreb]; [done..|]. by split.
  - by destruct Hr; split.
  - by apply fetch_ok_wf.
  - unfold fetch_err. destruct (fetch_error_action e); try (by destruct Hr; split).
    destruct bounds as [[start e']|]; [|by destruct Hr; split]. destruct Hr as [Hl Hd Hb].
    destruct (begin_rebuild_wf (rd_live r) (rd_defaults r) (rd_rebuild r) start e' true) as [Hlive Hreb]; [done..|]. by split.
Qed.

Lemma take_turn_defaults t r r' : take_turn t r = Some r' → rd_defaults r' = rd_defaults r.
Proof.
  intros Ht. destruct t as [ev|ev]; cbn in Ht; [|by injection Ht as <-].
  destruct ev as [resolved bounds| |records next_offset|e bounds]; cbn in Ht;
    destruct (rd_connected r); simplify_eq; [|done| |].
  - unfold connect_ok. destruct (_ && _), bounds as [[]|]; done.
  - unfold fetch_ok. set (r0 := mkReader _ _ _ _ _ _ _ _ 0 _ _ _ _).
    destruct (foldl_fetch_record records r0) as ([= _ _ Hd _ _ _] & _).
    rewrite <-Hd.
    destruct next_offset as [cursor|]; [|done]. cbn zeta. by destruct (complete_rebuild _ _ _) as [? [?|]].
  - unfold fetch_err. by destruct (fetch_error_action e), bounds as [[]|].
Qed.

(** ** The start against a truthful broker *)

Section one_log.
Context (logs : Z → list LogRecord).
Context (logs_sorted : ∀ t, StronglySorted (λ a b, (lr_offset a < lr_offset b)%Z) (logs t)).
Context (logs_nonneg : ∀ t lr, lr ∈ logs t → (0 ≤ lr_offset lr)%Z).

(** The broker's answers in the turns agree with the logs. *)
Fixpoint turns_ok (turns : list Turn) (r : Reader) : Prop :=
  match turns with
  | [] => True
  | t :: rest =>
      match t with TReader ev => event_ok logs r ev | TWaiter _ => True end ∧
      ∀ r', take_turn t r = Some r' → turns_ok rest r'
  end.

Fixpoint wakes_ok (wakes : list Wake) (r : Reader) : Prop :=
  match wakes with
  | Changed turns :: rest => turns_ok turns r ∧ ∀ r', take_turns turns r = Some r' → wakes_ok rest r'
  | _ => True
  end.

Definition startup_ok (level mode : string) (topic_id : Z) (u : Startup) : Prop :=
  turns_ok (su_connecting u) (reader_init topic_id (with_defaults level mode)) ∧
  ∀ r, take_turns (su_connecting u) (reader_init topic_id (with_defaults level mode)) = Some r →
    turns_ok (su_ordering u) (waiter_step (WReserve (su_token u)) r) ∧
    ∀ r1, take_turns (su_ordering u) (waiter_step (WReserve (su_token u)) r) = Some r1 →
      wakes_ok (su_wakes u) r1 ∧
      ∀ r2, await_barrier_rx (su_token u) (su_wakes u) r1 = Some (Ok r2) →
        turns_ok (su_finishing u) (waiter_step (WCancel (su_token u)) r2).

(** What holds of the reader throughout the start. *)
Record starting (level mode : string) (r : Reader) : Prop := {
  starting_inv : reader_inv logs r;
  starting_wf : reader_wf r;
  starting_defaults : rd_defaults r = with_defaults level mode;
}.

Lemma take_turns_starting level mode turns : ∀ r r',
  turns_ok turns r → take_turns turns r = Some r' → starting level mode r → starting level mode r'.
Proof.
  induction turns as [|t rest IH]; intros r r' Hok Hrun Hs; cbn in Hrun; [by injection Hrun as <-|].
  destruct Hok as [Hev Hok]. apply bind_Some in Hrun as (r1 & Ht & Hrun).
  apply (IH r1 r'); [by apply Hok|done|]. destruct Hs as [Hi Hw Hd]. split.
  - eapply rstep_inv; [done|done| |done]. destruct t as [ev|ev]; [by eapply rstep_reader|].
    cbn in Ht. injection Ht as <-. apply rstep_waiter.
  - by eapply take_turn_wf.
  - by rewrite (take_turn_defaults _ _ _ Ht).
Qed.

(** Nobody holds the token. *)
Definition forgotten (token : Uuid) (b : Barriers) : Prop :=
  token ∉ pending b ∧ token ∉ seen b ∧ token ∉ invalidated b.

Lemma cancel_forgotten token b : forgotten token (cancel token b).
Proof. unfold forgotten, cancel. cbn. rewrite !elem_of_difference, elem_of_singleton. tauto. Qed.

Lemma forgotten_pending token b : forgotten token b → (poll token b).1 = Pending.
Proof. intros (_ & ? & ?). unfold poll. by rewrite !bool_decide_eq_false_2. Qed.

Lemma observe_forgotten token t b : forgotten token b → forgotten token (observe t b).
Proof.
  intros (Hp & Hs & Hi). unfold observe. case_bool_decide as Ht; [|done]. split_and!; cbn; [done| |done].
  rewrite elem_of_union, elem_of_singleton. intros [->|?]; done.
Qed.

(** *** A caught-up reader stays so *)

(** The live state is a replay of the log past [token]'s marker. *)
Definition past_marker (token : Uuid) (r : Reader) : Prop :=
  ∃ n, n ≤ horizon r ∧ replayed logs r n (rd_live r) ∧ ordered_below logs r token n.

(** A reader with [token] held as seen: all a waiter could still ask for. *)
Definition holding (token : Uuid) (r : Reader) : Reader :=
  set_barriers (mkBarriers {[ token ]} {[ token ]} ∅) r.

Lemma holding_inv token r : reader_inv logs r → past_marker token r → reader_inv logs (holding token r).
Proof.
  intros [Ht Hc Hs Ho] Hp. split; [done|done| |done].
  cbn. intros t ->%elem_of_singleton. exact Hp.
Qed.

Lemma fetch_record_barriers b r lr : fetch_record (set_barriers b r) lr = set_barriers b (fetch_record r lr).
Proof.
  unfold fetch_record. cbn [set_barriers rd_next]. destruct (_ <? _); [done|].
  destruct (decode _ _); cbn; by destruct (rd_rebuild r) as [[]|].
Qed.

Lemma foldl_fetch_barriers b records : ∀ r,
  foldl fetch_record (set_barriers b r) records = set_barriers b (foldl fetch_record r records).
Proof. induction records as [|lr records IH]; intros r; [done|]. cbn [foldl]. by rewrite fetch_record_barriers. Qed.

Lemma seen_observed t ts b : t ∈ seen b → t ∈ seen (foldl (λ b t, observe t b) b ts).
Proof.
  revert b. induction ts as [|x ts IH]; intros b Hb; [done|]. cbn. apply IH. unfold observe.
  case_bool_decide; [|done]. cbn. by apply elem_of_union_r.
Qed.

(** The parts of a reader that [past_marker] looks at. *)
Definition same_replay (r r' : Reader) : Prop :=
  (rd_live r, rd_defaults r, rd_topic_id r, rd_next r, rd_rebuild r) =
  (rd_live r', rd_defaults r', rd_topic_id r', rd_next r', rd_rebuild r').

Lemma past_marker_same token r r' : same_replay r r' → past_marker token r → past_marker token r'.
Proof.
  unfold same_replay, past_marker, horizon, replayed, ordered_below. intros [= -> -> -> -> ->]. done.
Qed.

Lemma fetch_ok_holding token records cursor r :
  same_replay (fetch_ok records cursor (holding token r)) (fetch_ok records cursor r) ∧
  token ∈ seen (rd_barriers (fetch_ok records cursor (holding token r))).
Proof.
  unfold fetch_ok, holding. set (b := mkBarriers _ _ _). set (r0 := mkReader _ _ (rd_barriers r) _ _ _ _ _ 0 _ _ _ _).
  change (mkReader (rd_live (set_barriers b r)) (rd_defaults (set_barriers b r)) (rd_barriers (set_barriers b r))
    (rd_version (set_barriers b r)) (rd_next (set_barriers b r)) (rd_topic_id (set_barriers b r))
    (rd_rebuild (set_barriers b r)) (rd_observed (set_barriers b r)) 0 (rd_failures (set_barriers b r))
    (rd_unknown (set_barriers b r)) (rd_undecodable (set_barriers b r)) (rd_connected (set_barriers b r)))
    with (set_barriers b r0).
  rewrite foldl_fetch_barriers. assert (token ∈ seen b) as Hb by (by apply elem_of_singleton).
  destruct cursor as [cursor|]; [|by split]. cbn zeta. cbn [set_barriers rd_live rd_rebuild rd_next rd_barriers rd_observed].
  destruct (complete_rebuild _ _ _) as [live [reb|]]; split; try done. cbn. by apply seen_observed.
Qed.

Lemma fetch_err_holding token e bounds r :
  same_replay (fetch_err e bounds (holding token r)) (fetch_err e bounds r) ∧
  token ∈ seen (rd_barriers (fetch_err e bounds (holding token r))).
Proof.
  unfold fetch_err. destruct (fetch_error_action e), bounds as [[start e']|]; split; try done; cbn; by apply elem_of_singleton.
Qed.

(** A turn that finds the same topic. *)
Definition undisturbing (token : Uuid) (topic : Z) (t : Turn) : Prop :=
  match t with
  | TReader (ConnectOk resolved _) => resolved = topic
  | TWaiter (WReserve t' | WPoll t' | WCancel t') => t' ≠ token
  | _ => True
  end.

Lemma take_turn_past token t r r' :
  take_turn t r = Some r' → match t with TReader ev => event_ok logs r ev | TWaiter _ => True end →
  undisturbing token (rd_topic_id r) t → reader_inv logs r → past_marker token r →
  past_marker token r' ∧ rd_topic_id r' = rd_topic_id r.
Proof.
  intros Ht Hok Hu Hinv Hp. destruct t as [ev|ev]; cbn in Ht; [|by injection Ht as <-].
  assert (∀ r1 r1', same_replay r1 r1' → token ∈ seen (rd_barriers r1) → reader_inv logs r1 → past_marker token r1') as Hheld.
  { intros r1 r1' Hs Hseen Hi. apply (past_marker_same _ r1); [done|]. by apply (inv_seen _ _ Hi). }
  pose proof (holding_inv _ _ Hinv Hp) as Hh.
  destruct ev as [resolved bounds| |records cursor|e bounds]; cbn in Ht;
    destruct (rd_connected r) eqn:Hc; simplify_eq.
  - cbn in Hu. subst resolved. unfold connect_ok. rewrite Z.eqb_refl, andb_false_r. done.
  - done.
  - destruct (fetch_ok_holding token records cursor r) as [Hs Hseen]. split.
    + apply (Hheld _ _ Hs Hseen). apply (rstep_inv logs logs_sorted logs_nonneg (holding token r)); [|done].
      apply (rstep_reader _ _ (FetchOk records cursor)); [exact Hok|]. cbn. by rewrite Hc.
    + unfold fetch_ok. set (r0 := mkReader _ _ _ _ _ _ _ _ 0 _ _ _ _).
      destruct (foldl_fetch_record records r0) as ([= _ Hd _ _ _ _] & _).
      destruct cursor as [cursor|]; [|exact Hd]. cbn zeta.
      destruct (complete_rebuild _ _ _) as [? [?|]]; exact Hd.
  - destruct (fetch_err_holding token e bounds r) as [Hs Hseen]. split.
    + apply (Hheld _ _ Hs Hseen). apply (rstep_inv logs logs_sorted logs_nonneg (holding token r)); [|done].
      apply (rstep_reader _ _ (FetchErr e bounds)); [exact Hok|]. cbn. by rewrite Hc.
    + unfold fetch_err. by destruct (fetch_error_action e), bounds as [[]|].
Qed.

Lemma take_turn_forgotten token t r r' topic :
  take_turn t r = Some r' → undisturbing token topic t →
  forgotten token (rd_barriers r) → forgotten token (rd_barriers r').
Proof.
  assert (∀ b, forgotten token b → forgotten token (invalidate_all b)) as Hinval.
  { intros b (? & ? & ?). split_and!; cbn; set_solver. }
  intros Ht Hu Hf. destruct t as [ev|ev]; cbn in Ht.
  - destruct ev as [resolved bounds| |records cursor|e bounds]; cbn in Ht;
      destruct (rd_connected r); simplify_eq; [|done| |].
    + unfold connect_ok. destruct (_ && _), bounds as [[]|]; cbn; auto.
    + unfold fetch_ok. set (r0 := mkReader _ _ _ _ _ _ _ _ 0 _ _ _ _).
      destruct (foldl_fetch_record records r0) as ([= _ _ _ Hb _ _] & _).
      assert (forgotten token (rd_barriers (foldl fetch_record r0 records))) as Hf' by (by rewrite Hb).
      assert (∀ ts b, forgotten token b → forgotten token (foldl (λ b t, observe t b) b ts)) as Hobs.
      { intros ts. induction ts as [|t ts IH]; intros b Hfb; [done|]. cbn. by apply IH, observe_forgotten. }
      destruct cursor as [cursor|]; [|done]. cbn zeta.
      destruct (complete_rebuild _ _ _) as [? [?|]]; cbn; auto.
    + unfold fetch_err. by destruct (fetch_error_action e), bounds as [[]|].
  - injection Ht as <-. destruct Hf as (Hp & Hs & Hi). destruct ev as [t|t|t]; cbn in Hu |- *; unfold forgotten.
    + cbn. set_solver.
    + unfold poll. repeat case_bool_decide; cbn; set_solver.
    + cbn. set_solver.
Qed.

(** The wait ends well only with the token seen. *)
Lemma await_barrier_rx_seen level mode token wakes : ∀ r r',
  wakes_ok wakes r → await_barrier_rx token wakes r = Some (Ok r') → starting level mode r →
  ∃ r1, starting level mode r1 ∧ (poll token (rd_barriers r1)).1 = Seen ∧ r' = waiter_step (WPoll token) r1.
Proof.
  induction wakes as [|w rest IH]; intros r r' Hok Hrun Hs; cbn in Hrun;
    destruct (poll token (rd_barriers r)) as [[| |] b] eqn:Hp; try done.
  - injection Hrun as <-. exists r. rewrite Hp. split_and!; [done..|]. unfold waiter_step. by rewrite Hp.
  - destruct w as [turns| |]; [|done..]. apply bind_Some in Hrun as (r1 & Ht & Hrun). destruct Hok as [Hok Hrest].
    apply (IH r1); [by apply Hrest|done|by eapply take_turns_starting].
  - injection Hrun as <-. exists r. rewrite Hp. split_and!; [done..|]. unfold waiter_step. by rewrite Hp.
Qed.

(** What a caught-up node serves: over the configured defaults, the replay of a prefix of the log that
    contains the token's marker and every record ordered before it. *)
Definition caught_up (level mode : string) (token : Uuid) (r : Reader) : Prop :=
  ∃ n m marker, marker ∈ logs (rd_topic_id r) ∧
    barrier_token (default "" (lr_key marker)) (lr_value marker) = Some token ∧
    rd_live r = apply_log (set_max_id m (with_defaults level mode)) (below n (logs (rd_topic_id r))) ∧
    ∀ lr, lr ∈ logs (rd_topic_id r) → lr_offset lr ≤ lr_offset marker → lr ∈ below n (logs (rd_topic_id r)).

Lemma past_marker_caught_up level mode token r :
  starting level mode r → past_marker token r → caught_up level mode token r.
Proof.
  intros [_ _ Hdef] (n & _ & (m & Hlive) & marker & Hin & Hlt & Htok). rewrite Hdef in Hlive.
  exists n, m, marker. do 3 (split; [done|]). intros lr Hlr Hle. apply list_elem_of_In, filter_In.
  split; [by apply list_elem_of_In|]. apply Z.ltb_lt. lia.
Qed.

Lemma take_turns_past level mode token turns : ∀ r r',
  turns_ok turns r → take_turns turns r = Some r' → starting level mode r →
  Forall (undisturbing token (rd_topic_id r)) turns → past_marker token r → forgotten token (rd_barriers r) →
  past_marker token r' ∧ forgotten token (rd_barriers r').
Proof.
  induction turns as [|t rest IH]; intros r r' Hok Hrun Hs Hu Hp Hf; cbn in Hrun; [by injection Hrun as <-|].
  destruct Hok as [Hev Hok]. apply bind_Some in Hrun as (r1 & Ht & Hrun). apply Forall_cons in Hu as [Hu Hrest].
  destruct (take_turn_past token t r r1 Ht Hev Hu (starting_inv _ _ _ Hs) Hp) as [Hp1 Htop].
  apply (IH r1 r'); [by apply Hok|done| |by rewrite Htop|done|by eapply take_turn_forgotten].
  apply (take_turns_starting _ _ [t] r); [by split|by cbn; rewrite Ht|done].
Qed.

(** The states of a start that succeeds: the one in which the wait ended, and the one that is served. *)
Lemma start_states schemas_topic level mode timeout u r topic_id :
  start schemas_topic level mode timeout u = Some (Ok r) →
  ensure_schemas_topic 0 schemas_topic timeout (su_created u) (su_now u) (su_rounds u) = Some (Ok topic_id) →
  topic_id ≠ 0 → startup_ok level mode topic_id u →
  su_writer u = Ok () ∧ su_barrier u = Ok () ∧
  ∃ r', starting level mode r' ∧ past_marker (su_token u) r' ∧ forgotten (su_token u) (rd_barriers r') ∧
    turns_ok (su_finishing u) r' ∧
    ∃ r'', take_turns (su_finishing u) r' = Some r'' ∧
      r = match su_cleared u with Ok _ => r'' | Err _ => waiter_step (WCancel (su_token u)) r'' end.
Proof.
  intros Hstart Hensure Hid [Hok1 Hok2]. unfold start in Hstart. rewrite Hensure in Hstart. cbn [mbind option_bind] in Hstart.
  apply bind_Some in Hstart as (r0 & Hr0 & Hstart). destruct (su_writer u) as [[]|]; [|done].
  apply bind_Some in Hstart as (r1 & Hr1 & Hstart). destruct (su_barrier u) as [[]|]; [|done].
  apply bind_Some in Hstart as (awaited & Hwait & Hstart). destruct awaited as [r2|]; [|done].
  apply bind_Some in Hstart as (r3 & Hfin & Hstart). injection Hstart as <-.
  unfold finish in Hfin. apply bind_Some in Hfin as (r'' & Hfin & [= Hr3]).
  split; [done|]. split; [done|]. destruct (Hok2 r0 Hr0) as [Hok3 Hok4].
  assert (starting level mode (reader_init topic_id (with_defaults level mode))) as Hi.
  { split; [by apply reader_init_inv|by split; cbn; [apply with_defaults_wf..|]|done]. }
  apply (take_turns_starting _ _ _ _ _ Hok1 Hr0) in Hi.
  apply (take_turns_starting level mode [TWaiter (WReserve (su_token u))] r0
           (waiter_step (WReserve (su_token u)) r0)) in Hi; [|by split|done].
  apply (take_turns_starting _ _ _ _ _ Hok3 Hr1) in Hi. destruct (Hok4 r1 Hr1) as [Hok5 Hok6].
  destruct (await_barrier_rx_seen level mode _ _ _ _ Hok5 Hwait Hi) as (r' & Hs & Hseen & ->).
  exists (waiter_step (WCancel (su_token u)) (waiter_step (WPoll (su_token u)) r')). split_and!.
  - apply (take_turns_starting level mode [TWaiter (WPoll (su_token u)); TWaiter (WCancel (su_token u))] r');
      [split; [done|by intros ? [= <-]]|done|done].
  - unfold poll in Hseen. case_bool_decide; [done|]. case_bool_decide as Hin; [|done].
    apply (past_marker_same _ r'); [done|]. exact (inv_seen _ _ (starting_inv _ _ _ Hs) _ Hin).
  - apply cancel_forgotten.
  - by apply Hok6.
  - by exists r''.
Qed.

(** C39: a node serves only after it has caught up. When the start succeeds, the topic was found with one
    partition and compaction only, and there was a moment at which the state of the node was, over the
    configured defaults, the replay of a prefix of the log that contains the barrier the start put
    at the log's end, so that every record ordered before it was applied, and the token was forgotten.
    The same holds of the state the node begins to serve unless the topic was replaced, or another
    waiter used the token, while the marker was cleared; and that state is well formed in any
    case, whatever the log contains. A failed topic, writer or barrier ends the start. *)
Theorem start_caught_up schemas_topic level mode timeout u r topic_id :
  start schemas_topic level mode timeout u = Some (Ok r) →
  ensure_schemas_topic 0 schemas_topic timeout (su_created u) (su_now u) (su_rounds u) = Some (Ok topic_id) →
  topic_id ≠ 0 → startup_ok level mode topic_id u →
  (∃ round, round ∈ su_rounds u ∧ usable_topic 0 schemas_topic round topic_id) ∧
  store_wf (rd_live r) ∧ su_writer u = Ok () ∧ su_barrier u = Ok () ∧
  ∃ r', caught_up level mode (su_token u) r' ∧ (poll (su_token u) (rd_barriers r')).1 = Pending ∧
    (Forall (undisturbing (su_token u) (rd_topic_id r')) (su_finishing u) →
     caught_up level mode (su_token u) r ∧ (poll (su_token u) (rd_barriers r)).1 = Pending).
Proof.
  intros Hstart Hensure Hid Hok.
  destruct (start_states _ _ _ _ _ _ _ Hstart Hensure Hid Hok)
    as (Hw & Hb & r' & Hs & Hp & Hf & Hturns & r'' & Hrun & ->).
  assert (starting level mode r'') as Hs'' by (by eapply take_turns_starting).
  split; [by apply (ensure_usable 0 schemas_topic timeout (su_created u) (su_now u))|].
  split; [by destruct Hs'' as [_ [] _], (su_cleared u)|]. split; [done|]. split; [done|]. exists r'.
  split; [by apply past_marker_caught_up|]. split; [by apply forgotten_pending|]. intros Hu.
  destruct (take_turns_past _ _ _ _ _ _ Hturns Hrun Hs Hu Hp Hf) as [Hp'' Hf''].
  apply (past_marker_caught_up level mode) in Hp''; [|done].
  destruct (su_cleared u); (split; [done|apply forgotten_pending]); [done|apply cancel_forgotten].
Qed.
End one_log.
End start.

(** ** Witness *)

Section witness.
#[local] Existing Instance echo_format.
#[local] Existing Instance tree_serde.
#[local] Existing Instance string_uuid.

(** The topic is there; the reader connects, and fetches the barrier once it was produced. *)
Definition demo_startup : Startup :=
  mkStartup (Ok (Some (Some (36, "TOPIC_ALREADY_EXISTS")))) 0
    [mkRound (Ok [mkTopicEntry "_schemas" None 1 (Some 1)]) (Ok (Some (Ok {[ "cleanup.policy" := "compact" ]}))) 0]
    [TReader (ConnectOk 1 None)] (Ok ()) demo_token [] (Ok ())
    [Changed [TReader (FetchOk [barrier_record] (Some 1))]] [TReader (FetchOk [] None)] (Ok ()).

Definition demo_started : option (result StartError Reader) :=
  start "_schemas" "BACKWARD" "READWRITE" 15000 demo_startup.

Lemma start_caught_up_witness : ∃ r, demo_started = Some (Ok r) ∧ store_wf (rd_live r).
Proof.
  eexists. split; [vm_compute; reflexivity|].
  refine (proj1 (proj2 (start_caught_up one_barrier_log _ _ "_schemas" "BACKWARD" "READWRITE" 15000
    demo_startup _ 1 _ _ _ _))).
  - repeat constructor.
  - intros t lr ->%list_elem_of_singleton. cbn. lia.
  - vm_compute. reflexivity.
  - vm_compute. reflexivity.
  - lia.
  - split; [split; [split; [lia|done]|by intros]|]. intros r [= <-]. split; [done|]. intros r1 [= <-]. split.
    + split; [|by intros]. split; [vm_compute; reflexivity|by intros].
    + intros r2 Hr2. vm_compute in Hr2. injection Hr2 as <-. split; [vm_compute; reflexivity|by intros].
Defined.
End witness.
