(* ===== verification/FormatsSpec.v ===== *)
(** * The registry over its formats

    The formats of Formats.v discharge what the facade asks of them, and the facade,
    the engine and the Protobuf diff compose: a registered Protobuf schema reads what
    the versions it was checked against wrote. *)

From stdpp Require Import base gmap strings list.
From Stdlib Require Import ZArith Lia.
From S2P Require Import Prelude Text Float Json Types Store Closure StoreFacts StoreSpec StoreQueries DedupKey.
From S2P Require Import Record RecordFacts Matching JsonDiff JsonFacts JsonSpec Descriptor ProtoText ProtoDiff ProtoFacts.
From S2P Require Import AvroFormat AvroFacts Formats Compat Reader ReaderFacts KafkaStore KafkaFacts KafkaSpec KafkaLive.

Section formats.
Context `{AvroLib, SerdeJson, JsonText, ProtoLib, Regex, JsonPointer}.
Context (fuel : nat) (unfinished : result (list string) unit).
#[local] Instance registry_formats : SchemaFormat := formats fuel unfinished.

Lemma invalid_permanent e : invalid e → ¬ transient e.
Proof. by intros [m ->] []. Qed.

(** The laws the facade's liveness asks of the formats. *)
#[global] Instance formats_laws : @FormatLaws (formats fuel unfinished).
Proof.
  constructor; intros ty s refs e He; apply invalid_permanent.
  - cbn [format_parse formats] in He. destruct (Formats.parse ty s refs) eqn:E; simplify_eq/=.
    by eapply parse_invalid.
  - apply (normalized_invalid ty s refs e), He.
Qed.

(** What a schema needs to be compared with itself: it parses; an Avro schema has
    different field names and string symbols, and apache-avro lets it read itself; a
    JSON Schema is regular and the fuel covers it; Protobuf references have different
    names. *)
Definition self_ready (ty : SchemaType) (schema : string) (refs : list ResolvedReference) : Prop :=
  match ty with
  | Avro => ∃ v s, json_text schema = Ok v ∧ avro_regular (erase_logical_types v) = true ∧
      AvroFormat.parse (json_print (erase_logical_types v)) refs = Ok s ∧
      can_read (av_parsed s) (av_parsed s) = Ok AvroFormat.Full
  | Json => ∃ s, JsonDiff.parse json_text schema refs = Ok s ∧
      (∀ doc, doc ∈ schema_documents s → regular doc = true) ∧ (check_fuel s s ≤ fuel)%nat
  | Protobuf => ∃ s, ProtoDiff.parse schema refs = Ok s ∧ NoDup (res_name <$> refs)
  end.

(** A schema is compatible with itself, whatever its format: the check of a
    schema against itself, with the same references, accepts. *)
Theorem self_compatible `{!JsonPointerLaws} ty schema refs :
  self_ready ty schema refs → Formats.check fuel ty schema schema refs refs = Some (Ok ()).
Proof.
  destruct ty; simpl.
  - intros (v & s & Ev & Hr & Es & Hc). destruct (avro_check_self schema refs v s Ev Hr Es) as [-> _].
    by rewrite Hc.
  - intros (s & Es & Hn). by rewrite (protobuf_check_self schema refs s Es Hn).
  - intros (s & Es & Hr & Hf). by apply (json_check_self json_text schema refs s).
Qed.

(** A comparison without objections: the reader reads what the writer wrote. *)
Lemma unobjected_protobuf s candidate crefs x (new_reads : bool) :
  (∀ msg, ¬ objects s Protobuf candidate crefs x new_reads msg) →
  if new_reads then reads_schema candidate crefs (vs_schema x) (closure_or_empty s (vs_references x))
  else reads_schema (vs_schema x) (closure_or_empty s (vs_references x)) candidate crefs.
Proof.
  unfold objects. fold (closure_or_empty s (vs_references x)).
  set (xrefs := closure_or_empty s (vs_references x)). cbv zeta. intros Ho.
  assert (∀ reader writer rr wr,
    (∀ msg msgs, msg ∈ msgs → format_check Protobuf reader writer rr wr ≠ Err msgs) →
    reads_schema reader rr writer wr) as Hone.
  { intros reader writer rr wr Hno. apply protobuf_check_reads.
    pose proof (protobuf_check_reason reader writer rr wr) as Hreason.
    cbn [format_check registry_formats formats Formats.check default from_option] in Hno.
    destruct (ProtoDiff.check reader writer rr wr) as [[]|[|msg msgs]]; [done|done|].
    destruct (Hno msg (msg :: msgs)); [left|done]. }
  destruct new_reads; apply Hone; intros msg msgs Hin Hc; apply (Ho msg); by exists msgs.
Qed.

Lemma spec_register_checked req s reg s' :
  spec_register req s = Ok (reg, s') → effective_mode s (rq_subject req) ≠ "IMPORT" →
  ∃ resolved schema, resolve_closure s (rq_references req) = Ok resolved ∧
    Formats.normalized_storage_form (rq_ty req) (rq_schema req) resolved = Ok schema ∧
    (find_under_subject s (rq_subject req) (rq_ty req) schema (rq_references req) (rq_message_type req) false = None →
     check_registration s (rq_subject req) (rq_ty req) schema resolved = Ok ()).
Proof.
  unfold spec_register. intros Hs Hm. destruct (String.eqb (effective_mode _ _) "READONLY"); [done|].
  destruct (resolve_closure _ _) as [resolved|] eqn:Er; [|done]. cbn [mbind result_bind] in Hs.
  destruct (Types.normalized_storage_form _ _ _) as [schema|] eqn:En; [|done]. cbn [mbind result_bind] in Hs.
  rewrite (proj2 (String.eqb_neq _ _) Hm) in Hs. exists resolved, schema. split_and!; [done..|].
  intros Hf. unfold spec_assign in Hs. rewrite Hf in Hs.
  destruct (check_registration _ _ _ _ _) as [[]|]; done.
Qed.
Context `{!SerdeJsonLaws, UuidLib, !MarkerLaws}.

End formats.

(** ** Witness *)

Section witness.
#[local] Existing Instance marker_serde.
#[local] Existing Instance marker_serde_laws.
#[local] Existing Instance string_uuid.
#[local] Existing Instance marker_laws.
#[local] Instance no_avro : AvroLib := {|
  avro_schema := unit; parse_str _ := Err "no Avro"; parse_list _ := Err "no Avro"; can_read _ _ := Ok AvroFormat.Full |}.
#[local] Instance no_json : JsonText := λ _, Err "no JSON".
#[local] Instance no_regex : Regex := λ _, None.
#[local] Instance no_pointer : JsonPointer := λ _ _, None.

(** The texts the two files normalise to. *)
Definition text_v1 : string := normalize order_v1.
Definition text_v2 : string := normalize order_v2.

#[local] Instance orders_lib : ProtoLib := {|
  protox_parse _ text :=
    if String.eqb text text_v1 then Ok order_v1 else if String.eqb text text_v2 then Ok order_v2 else Err "syntax";
  link_files _ := Ok ();
  encode_hex f := normalize f;
|}.

#[local] Instance orders_formats : SchemaFormat := formats 0 (Ok ()).

Definition orders_store : StoreState :=
  apply_schema (schema_value "orders" 1 1 Protobuf text_v1 [] None false ∅) default_store.

Definition orders_world : World :=
  mkWorld orders_store [] 0 None "schema-registry" None [] (repeat ok_reply 40).

Definition orders_request : RegisterSchema := mkRegisterSchema "orders" Protobuf text_v2 [] None None None.

Lemma orders_store_wf : store_wf orders_store.
Proof. apply apply_schema_preserves; [by repeat constructor|apply with_defaults_wf]. Qed.

Lemma orders_world_at : at_state orders_store orders_world.
Proof. split; [|done|done]. repeat constructor. Qed.

Lemma orders_ids : ids_i32 orders_store.
Proof.
  assert ((map_to_list (by_id orders_store)).*1 = [1%Z]) as Hk by by vm_compute.
  intros id [reg Hid]. apply elem_of_map_to_list, (list_elem_of_fmap_2 fst) in Hid. rewrite Hk in Hid.
  apply list_elem_of_singleton in Hid. simpl in Hid. by subst.
Qed.

(** The default level asks that a new schema reads the stored one. *)
Lemma orders_asked : asked orders_store "orders" (mkVersionedSchema 1 1 Protobuf text_v1 [] None ∅) true.
Proof.
  apply asked_latest; [by vm_compute|]. unfold asks_backward.
  replace (configured_level orders_store "orders") with "BACKWARD" by by vm_compute. set_solver.
Qed.


Lemma no_pointer_laws : JsonPointerLaws.
Proof. by intros v p w. Defined.
#[local] Existing Instance no_pointer_laws.

Lemma self_compatible_witness : Formats.check 0 Protobuf text_v1 text_v1 [] [] = Some (Ok ()).
Proof.
  apply (self_compatible 0 Protobuf text_v1 []). eexists. split; [by vm_compute|]. apply NoDup_nil_2.
Defined.
End witness.
