(* ===== verification/CompatCheck.v ===== *)
(** * The offline compatibility checker (bin/schema-compat-check.rs)

    Two descriptor sets are read, every file of the old one is looked up in the new one,
    and the Protobuf check is run on their normalised texts with the texts of
    all the files they import, directly or not. Reading and decoding the files is a
    parameter. *)

From stdpp Require Import base gmap strings list relations pretty.
From Stdlib Require Import ZArith Lia.
From S2P Require Import Prelude Text Types Json Record Matching JsonDiff Descriptor ProtoText ProtoDiff ProtoFacts AvroFormat Formats FormatsSpec.

Record DescriptorSet := mkDescriptorSet {
  ds_files : gmap string FileDescriptorProto;
  ds_schemas : gmap string string;
}.

(** The loop of [read_set] over the decoded files of [path]. *)
Fixpoint index_set (path : string) (files : list FileDescriptorProto) (acc : DescriptorSet)
    : result string DescriptorSet :=
  match files with
  | [] => Ok acc
  | file :: rest =>
      match file_name file with
      | None | Some "" => Err ("descriptor set " +:+ path +:+ " contains file without name")
      | Some name =>
          match ds_files acc !! name with
          | Some _ => Err ("descriptor set " +:+ path +:+ " contains duplicate file " +:+ name)
          | None =>
              index_set path rest (mkDescriptorSet (<[ name := file ]> (ds_files acc))
                                     (<[ name := normalize file ]> (ds_schemas acc)))
          end
      end
  end.

Section read.
(** [std::fs::read] and [FileDescriptorSet::decode], with their error texts. *)
Context (read : string → result string string).
Context (decode_set : string → result string (list FileDescriptorProto)).

Definition read_set (path : string) : result string DescriptorSet :=
  match read path with
  | Err e => Err ("read descriptor set " +:+ path +:+ ": " +:+ e)
  | Ok bytes =>
      match decode_set bytes with
      | Err e => Err ("decode descriptor set " +:+ path +:+ ": " +:+ e)
      | Ok files => index_set path files (mkDescriptorSet ∅ ∅)
      end
  end.
End read.

(** ** The references of a file *)

Definition Collected : Type := gset string * list ResolvedReference.

Section collect.
Context (set : DescriptorSet).

(** The loop over the imports of a file; [recur] collects those of one import. *)
Fixpoint collect_deps (recur : string → Collected → option (result string Collected)) (deps : list string)
    (st : Collected) : option (result string Collected) :=
  match deps with
  | [] => Some (Ok st)
  | dep :: deps' =>
      let '(seen, refs) := st in
      if bool_decide (dep ∈ seen) then collect_deps recur deps' st
      else
        match recur dep ({[ dep ]} ∪ seen, refs) with
        | Some (Ok (seen', refs')) =>
            match ds_schemas set !! dep with
            | None => Some (Err ("missing dependency " +:+ dep))
            | Some schema =>
                collect_deps recur deps' (seen', refs' ++ [mkResolvedReference dep Protobuf schema])
            end
        | r => r
        end
  end.

(** [None] is fuel that ran out. *)
Fixpoint collect_refs (fuel : nat) (name : string) (st : Collected) : option (result string Collected) :=
  match fuel with
  | O => None
  | S fuel' =>
      match ds_files set !! name with
      | None => Some (Err ("missing file " +:+ name))
      | Some file => collect_deps (collect_refs fuel') (file_dependency file) st
      end
  end.

(** Every import of every file: a call adds one of them to [seen]. *)
Definition all_deps : gset string :=
  list_to_set (map_to_list (ds_files set) ≫= λ kv, file_dependency kv.2).

Definition collect_fuel : nat := S (size all_deps).

Definition resolved_closure (name : string) : option (result string (list ResolvedReference)) :=
  r ← collect_refs collect_fuel name (∅, []);
  Some ('(_, refs) ← r; Ok refs).
End collect.

(** ** The check *)

Section check.
Context `{ProtoLib}.

(** What one file of the old set adds to the errors. *)
Definition check_file (old new : DescriptorSet) (name : string) : option (list string) :=
  match ds_schemas new !! name with
  | None => Some [name +:+ ": file removed"]
  | Some new_schema =>
      let old_schema := default "" (ds_schemas old !! name) in
      old_refs ← resolved_closure old name;
      match old_refs with
      | Err e => Some [name +:+ ": old descriptor references: " +:+ e]
      | Ok old_refs =>
          new_refs ← resolved_closure new name;
          match new_refs with
          | Err e => Some [name +:+ ": new descriptor references: " +:+ e]
          | Ok new_refs =>
              match ProtoDiff.check new_schema old_schema new_refs old_refs with
              | Ok _ => Some []
              | Err reasons => Some [name +:+ ": " +:+ str_join "; " reasons]
              end
          end
      end
  end.

(** The names of the old files, in the order of the [BTreeMap]. *)
Definition check_backward (old new : DescriptorSet) : option (list string) :=
  errors ← mapM (check_file old new) (btree_iter (ds_files old)).*1;
  Some (concat errors).
End check.

(** ** What is collected *)

Section collected.
Context (set : DescriptorSet).

(** A file imports another. *)
Definition imports (n d : string) : Prop :=
  ∃ file, ds_files set !! n = Some file ∧ d ∈ file_dependency file.

(** The texts belong to the files. *)
Definition set_wf : Prop :=
  ∀ n, ds_schemas set !! n = normalize <$> ds_files set !! n.

Definition reference_ok (r : ResolvedReference) : Prop :=
  res_ty r = Protobuf ∧ ds_schemas set !! res_name r = Some (res_schema r).

(** From [st] the imports [ds] and everything they import were added to [st']. *)
Record grows (ds : list string) (st st' : Collected) (new : list ResolvedReference) : Prop := {
  grows_refs : st'.2 = st.2 ++ new;
  grows_nodup : NoDup (res_name <$> new);
  grows_seen : st.1 ⊆ st'.1;
  grows_names n : n ∈ res_name <$> new ↔ n ∈ st'.1 ∧ n ∉ st.1;
  grows_roots d : d ∈ ds → d ∈ st'.1;
  grows_closed n m : n ∈ st'.1 → n ∉ st.1 → imports n m → m ∈ st'.1;
  grows_reach n : n ∈ st'.1 → n ∉ st.1 → ∃ d, d ∈ ds ∧ rtc imports d n;
  grows_ok : Forall reference_ok new;
}.

(** The outcome of a collection from the imports [ds]. *)
Definition collected (ds : list string) (st : Collected) (r : option (result string Collected)) : Prop :=
  match r with
  | None => False
  | Some (Ok st') => ∃ new, grows ds st st' new
  | Some (Err _) => ∃ d n, d ∈ ds ∧ rtc imports d n ∧ ds_files set !! n = None
  end.

Lemma grows_nil st : grows [] st st [].
Proof.
  split; try done; [by rewrite app_nil_r|constructor| |by intros d ?%not_elem_of_nil].
  intros n. cbn. rewrite elem_of_nil. naive_solver.
Qed.

(** One more import that was seen before. *)
Lemma grows_skip dep ds st st' new : dep ∈ st.1 → grows ds st st' new → grows (dep :: ds) st st' new.
Proof.
  intros Hd [H1 H2 H3 H4 H5 H6 H7 H8]. split; try done.
  - intros d [->|?]%elem_of_cons; auto.
  - intros n Hn Hs. destruct (H7 n Hn Hs) as (d & ? & ?). exists d. split; [by right|done].
Qed.

(** One more import, with what it imports and then the rest. *)
Lemma grows_visit dep deps ds seen refs st1 new1 schema st2 new2 :
  dep ∉ seen → (∀ d, imports dep d → d ∈ deps) → (∀ d, d ∈ deps → imports dep d) →
  ds_schemas set !! dep = Some schema →
  grows deps ({[ dep ]} ∪ seen, refs) st1 new1 →
  grows ds (st1.1, st1.2 ++ [mkResolvedReference dep Protobuf schema]) st2 new2 →
  grows (dep :: ds) (seen, refs) st2 (new1 ++ [mkResolvedReference dep Protobuf schema] ++ new2).
Proof.
  intros Hdep Hin Hout Hs G1 G2. destruct st1 as [seen1 refs1], st2 as [seen2 refs2].
  pose proof (grows_seen _ _ _ _ G1) as S1. pose proof (grows_seen _ _ _ _ G2) as S2. cbn in S1, S2.
  assert (dep ∈ seen1) as Hd1 by set_solver.
  assert (∀ n, n ∈ seen1 → n ∉ seen → n = dep ∨ n ∉ ({[ dep ]} ∪ seen)) as Hcase
    by (intros n ? ?; destruct (decide (n = dep)); set_solver).
  split; cbn.
  - pose proof (grows_refs _ _ _ _ G1) as E1. pose proof (grows_refs _ _ _ _ G2) as E2. cbn in E1, E2.
    by rewrite E2, E1, <- !app_assoc.
  - rewrite !fmap_app. cbn. apply NoDup_app. split; [by apply G1|]. split.
    + intros n Hn. apply (grows_names _ _ _ _ G1) in Hn as [Hn1 Hn]. cbn in Hn1, Hn.
      intros [->|Hn2]%elem_of_cons; [set_solver|]. by apply (grows_names _ _ _ _ G2) in Hn2 as [_ ?].
    + apply NoDup_cons. split; [|by apply G2]. intros Hn. by apply (grows_names _ _ _ _ G2) in Hn as [_ ?].
  - set_solver.
  - intros n. rewrite !fmap_app. cbn. rewrite elem_of_app, elem_of_cons.
    rewrite (grows_names _ _ _ _ G1), (grows_names _ _ _ _ G2). cbn.
    destruct (decide (n ∈ seen1)), (decide (n = dep)); set_solver.
  - intros d [->|Hd]%elem_of_cons; [set_solver|]. by apply (grows_roots _ _ _ _ G2).
  - intros n m Hn Hns Him. destruct (decide (n ∈ seen1)) as [Hn1|Hn1].
    + apply S2. destruct (Hcase n Hn1 Hns) as [->|Hne]; [by apply (grows_roots _ _ _ _ G1), Hin|].
      by apply (grows_closed _ _ _ _ G1 n).
    + by apply (grows_closed _ _ _ _ G2 n).
  - intros n Hn Hns. destruct (decide (n ∈ seen1)) as [Hn1|Hn1].
    + exists dep. split; [by left|]. destruct (Hcase n Hn1 Hns) as [->|Hne]; [done|].
      destruct (grows_reach _ _ _ _ G1 n Hn1 Hne) as (d & Hd & Hr). eapply rtc_l; [by apply Hout|done].
    + destruct (grows_reach _ _ _ _ G2 n Hn Hn1) as (d & Hd & Hr). exists d. split; [by right|done].
  - apply Forall_app. split; [by apply G1|]. constructor; [by split|by apply G2].
Qed.

Lemma imports_all n d : imports n d → d ∈ all_deps set.
Proof.
  intros (file & Hf & Hd). unfold all_deps. apply elem_of_list_to_set, list_elem_of_bind.
  exists (n, file). split; [done|]. by apply elem_of_map_to_list.
Qed.

Lemma room_collect dep seen : dep ∈ all_deps set → dep ∉ seen →
  S (size (all_deps set ∖ ({[ dep ]} ∪ seen))) ≤ size (all_deps set ∖ seen).
Proof. intros Hd Hs. apply subset_size. set_solver. Qed.

Lemma size_mono (s1 s2 : gset string) : s1 ⊆ s2 → size (all_deps set ∖ s2) ≤ size (all_deps set ∖ s1).
Proof. intros Hs. apply subseteq_size. set_solver. Qed.

Context (Hwf : set_wf).

(** What [collect_refs] gives for a file. *)
Definition collected_file (name : string) (st : Collected) (r : option (result string Collected)) : Prop :=
  match ds_files set !! name with
  | None => ∃ e, r = Some (Err e)
  | Some file => collected (file_dependency file) st r
  end.

Lemma collect_deps_collected recur fuel name :
  (∀ dep st, S (size (all_deps set ∖ st.1)) ≤ fuel → collected_file dep st (recur dep st)) →
  ∀ deps st, (∀ d, d ∈ deps → imports name d) → size (all_deps set ∖ st.1) ≤ fuel →
  collected deps st (collect_deps set recur deps st).
Proof.
  intros Hrec. induction deps as [|dep deps IH]; intros [seen refs] Him Hfuel; cbn [collect_deps].
  { exists []. apply grows_nil. }
  assert (∀ d, d ∈ deps → imports name d) as Him' by (intros d Hd; apply Him; by right).
  case_bool_decide as Hseen.
  { specialize (IH (seen, refs) Him' Hfuel). destruct (collect_deps _ _ _ _) as [[st'|e]|]; [| |done]; cbn in *.
    - destruct IH as [new G]. exists new. by apply grows_skip.
    - destruct IH as (d & n & ? & ?). exists d, n. split; [by right|done]. }
  assert (imports name dep) as Hdep by (apply Him; by left).
  pose proof (room_collect dep seen (imports_all _ _ Hdep) Hseen) as Hroom.
  specialize (Hrec dep ({[ dep ]} ∪ seen, refs) ltac:(cbn in *; lia)). unfold collected_file in Hrec.
  destruct (ds_files set !! dep) as [file|] eqn:Hfile.
  2: { destruct Hrec as [e ->]. exists dep, dep. split_and!; [by left|done|done]. }
  assert (∀ d, imports dep d ↔ d ∈ file_dependency file) as Hedge.
  { intros d. split; [intros (f & Hf & Hd); congruence|]. by exists file. }
  destruct (recur dep _) as [[[seen1 refs1]|e]|]; [| |done]; cbn in Hrec.
  2: { destruct Hrec as (d & n & Hd%Hedge & Hr & Hn). exists dep, n. split_and!; [by left|by eapply rtc_l|done]. }
  destruct Hrec as [new1 G1]. pose proof (Hwf dep) as Hs. rewrite Hfile in Hs. cbn in Hs. rewrite Hs.
  pose proof (grows_seen _ _ _ _ G1) as S1. cbn in S1.
  pose proof (size_mono ({[ dep ]} ∪ seen) seen1 S1) as Hmono. cbn in Hfuel.
  specialize (IH (seen1, refs1 ++ [mkResolvedReference dep Protobuf (normalize file)]) Him' ltac:(cbn; lia)).
  destruct (collect_deps _ _ _ _) as [[st2|e]|]; [| |done]; cbn in *.
  - destruct IH as [new2 G2]. eexists. eapply (grows_visit dep (file_dependency file)); [done| | |done|done|done].
    + intros d. apply Hedge.
    + intros d. apply Hedge.
  - destruct IH as (d & n & ? & ?). exists d, n. split; [by right|done].
Qed.

Lemma collect_refs_collected fuel : ∀ name st,
  S (size (all_deps set ∖ st.1)) ≤ fuel → collected_file name st (collect_refs set fuel name st).
Proof.
  induction fuel as [|fuel IH]; intros name st Hf; [lia|]. unfold collected_file. cbn [collect_refs].
  destruct (ds_files set !! name) as [file|] eqn:Hfile; [|by eexists].
  apply (collect_deps_collected _ fuel name); [done| |lia]. intros d Hd. by exists file.
Qed.

(** The references of a file: all it imports, directly or not, each once with its
    text; an error is an import that is not in the set. *)
Lemma resolved_closure_facts name :
  match resolved_closure set name with
  | None => False
  | Some (Err _) => ∃ n, rtc imports name n ∧ ds_files set !! n = None
  | Some (Ok refs) => NoDup (res_name <$> refs) ∧ Forall reference_ok refs ∧
      ∀ n, n ∈ res_name <$> refs ↔ tc imports name n
  end.
Proof.
  unfold resolved_closure. pose proof (collect_refs_collected (collect_fuel set) name (∅, [])) as Hc.
  assert (size (all_deps set ∖ ∅) = size (all_deps set)) as Hsz by (f_equal; set_solver).
  specialize (Hc ltac:(unfold collect_fuel; cbn; lia)). unfold collected_file in Hc.
  destruct (ds_files set !! name) as [file|] eqn:Hfile.
  2: { destruct Hc as [e ->]. cbn. by exists name. }
  destruct (collect_refs _ _ _ _) as [[[seen refs]|e]|]; [| |done]; cbn in *.
  - destruct Hc as [new G]. pose proof (grows_refs _ _ _ _ G) as Hr. cbn in Hr. subst refs.
    split_and!; [apply G|apply G|]. intros n. rewrite (grows_names _ _ _ _ G). cbn. split.
    + intros [Hn _]. destruct (grows_reach _ _ _ _ G n Hn ltac:(set_solver)) as (d & Hd & Hrt).
      eapply tc_rtc_r; [|done]. apply tc_once. by exists file.
    + intros Htc. split; [|set_solver].
      assert (∀ a b, tc imports a b → (a = name ∨ a ∈ seen) → b ∈ seen) as Hcl; [|by eapply Hcl; eauto].
      assert (∀ a b, imports a b → a = name ∨ a ∈ seen → b ∈ seen) as Hstep.
      { intros a b Hab [->|Ha]; [|by apply (grows_closed _ _ _ _ G a); [done|set_solver|done]].
        apply (grows_roots _ _ _ _ G). destruct Hab as (f & Hf & Hd). congruence. }
      intros a b Hab. induction Hab as [a b|a b c Hab _ IH]; eauto.
  - destruct Hc as (d & n & Hd & Hr & Hn). exists n. split; [|done]. eapply rtc_l; [by exists file|done].
Qed.
End collected.

Lemma index_set_wf path files : ∀ acc set, set_wf acc → index_set path files acc = Ok set → set_wf set.
Proof.
  induction files as [|file files IH]; intros acc set Hacc; cbn [index_set]; [by intros [= <-]|].
  destruct (file_name file) as [name|]; [|done]. destruct name as [|c name]; [done|].
  destruct (ds_files acc !! String c name); [done|]. apply IH. intros n. cbn.
  destruct (decide (n = String c name)) as [->|]; [by rewrite !lookup_insert_eq|by rewrite !lookup_insert_ne].
Qed.

Lemma read_set_wf read decode_set path set : read_set read decode_set path = Ok set → set_wf set.
Proof.
  unfold read_set. destruct (read path); [|done]. destruct (decode_set _); [|done].
  apply index_set_wf. intros n. cbn. by rewrite !lookup_empty.
Qed.

Section verdict.
Context `{ProtoLib} (old new : DescriptorSet) (Hold : set_wf old) (Hnew : set_wf new).

#[local] Arguments resolved_closure : simpl never.

(** A file of the old set that the new set's file of the name reads. *)
Definition kept_file (name : string) (file : FileDescriptorProto) : Prop :=
  ∃ file' old_refs new_refs, ds_files new !! name = Some file' ∧
    resolved_closure old name = Some (Ok old_refs) ∧ resolved_closure new name = Some (Ok new_refs) ∧
    ProtoDiff.check (normalize file') (normalize file) new_refs old_refs = Ok ().

Lemma check_file_spec name file : ds_files old !! name = Some file →
  ∃ errors, check_file old new name = Some errors ∧ (errors = [] ↔ kept_file name file).
Proof.
  intros Hf. unfold check_file, kept_file. rewrite (Hnew name), (Hold name), Hf. cbn.
  destruct (ds_files new !! name) as [file'|]; cbn.
  2: { eexists. split; [reflexivity|]. split; [done|]. by intros (? & ? & ? & ? & _). }
  pose proof (resolved_closure_facts old Hold name) as Ho.
  destruct (resolved_closure old name) as [[old_refs|e]|]; [| |done]; cbn.
  2: { eexists. split; [reflexivity|]. split; [done|]. by intros (? & ? & ? & _ & [=] & _). }
  pose proof (resolved_closure_facts new Hnew name) as Hn.
  destruct (resolved_closure new name) as [[new_refs|e]|]; [| |done]; cbn.
  2: { eexists. split; [reflexivity|]. split; [done|]. by intros (? & ? & ? & _ & _ & [=] & _). }
  destruct (ProtoDiff.check _ _ _ _) as [[]|reasons] eqn:Hc.
  - eexists. split; [reflexivity|]. split; [|done]. intros _. by exists file', old_refs, new_refs.
  - eexists. split; [reflexivity|]. split; [done|]. intros (? & ? & ? & [= <-] & [= <-] & [= <-] & Hc'). congruence.
Qed.

Lemma check_backward_spec : ∃ errors, check_backward old new = Some errors ∧
  (errors = [] ↔ ∀ name file, ds_files old !! name = Some file → kept_file name file).
Proof.
  unfold check_backward.
  assert (∀ l, (∀ nf, nf ∈ l → ds_files old !! nf.1 = Some nf.2) →
    ∃ errors, mapM (check_file old new) l.*1 = Some errors ∧
      (concat errors = [] ↔ ∀ nf, nf ∈ l → kept_file nf.1 nf.2)) as Hl.
  { induction l as [|[name file] l IH]; intros Hall.
    - exists []. split; [done|]. split; [|done]. intros _ nf Hnf. by apply not_elem_of_nil in Hnf.
    - destruct (check_file_spec name file) as (e & He & Hk); [by apply (Hall (name, file)); left|].
      destruct IH as (es & Hes & Hks); [intros nf Hnf; apply Hall; by right|].
      exists (e :: es). cbn. rewrite He, Hes. split; [done|]. setoid_rewrite elem_of_cons.
      split.
      + intros Hnil. apply app_eq_nil in Hnil as [H1 H2]. intros nf [->|Hnf]; [by apply Hk|by apply Hks].
      + intros Hkept. apply both_nil; [apply Hk, (Hkept (name, file)); by left|apply Hks]. intros nf Hnf. apply Hkept. by right. }
  destruct (Hl (btree_iter (ds_files old))) as (errors & He & Hk).
  { intros [name file] Hnf. by apply elem_of_btree_iter in Hnf. }
  rewrite He. eexists. split; [done|]. rewrite Hk. split.
  - intros Hall name file Hf. apply (Hall (name, file)). by apply elem_of_btree_iter.
  - intros Hall [name file] Hnf. apply Hall. by apply elem_of_btree_iter in Hnf.
Qed.
End verdict.

(** C35: the offline check is sound and complete for its parts. On two descriptor sets it read, the checker
    always ends; it prints nothing exactly when every file of the old set is in the
    new one and the Protobuf check accepts their texts, each with the texts of all the
    files it imports, directly or not, once each. And then the new file's text reads the
    old one's in the sense of [reads_schema], in the file and in every import whose text
    changed: messages and required fields are kept, a field number both declare decodes the
    values written, as singles or packed, and a label both texts state is kept except on
    text. This is about the texts the checker compares, the normalised ones; it does not
    tell groups from messages. *)
Theorem compat_check_sound `{ProtoLib} read decode_set old_path new_path old new :
  read_set read decode_set old_path = Ok old → read_set read decode_set new_path = Ok new →
  ∃ errors, check_backward old new = Some errors ∧
    (errors = [] ↔ ∀ name file, ds_files old !! name = Some file → kept_file old new name file) ∧
    (errors = [] → ∀ name file, ds_files old !! name = Some file →
       ∃ file' old_refs new_refs, ds_files new !! name = Some file' ∧
         (∀ n, n ∈ res_name <$> old_refs ↔ tc (imports old) name n) ∧
         (∀ n, n ∈ res_name <$> new_refs ↔ tc (imports new) name n) ∧
         NoDup (res_name <$> old_refs) ∧ NoDup (res_name <$> new_refs) ∧
         reads_schema (normalize file') new_refs (normalize file) old_refs).
Proof.
  intros Hold%read_set_wf Hnew%read_set_wf. destruct (check_backward_spec old new Hold Hnew) as (errors & He & Hk).
  exists errors. split_and!; [done..|]. intros Hnil name file Hf.
  destruct (proj1 Hk Hnil name file Hf) as (file' & old_refs & new_refs & Hf' & Ho & Hn & Hc).
  pose proof (resolved_closure_facts old Hold name) as Fo. rewrite Ho in Fo. destruct Fo as (Do & _ & So).
  pose proof (resolved_closure_facts new Hnew name) as Fn. rewrite Hn in Fn. destruct Fn as (Dn & _ & Sn).
  exists file', old_refs, new_refs. split_and!; [done..|]. by apply protobuf_check_reads.
Qed.

(** ** Witness *)

Section witness.
Definition named_order (messages : FileDescriptorProto) : FileDescriptorProto :=
  mkFile (Some "order.proto") None [] (file_message_type messages) [] [] (Some "proto2").

(** A parser that knows the two texts, and two files with one descriptor each. *)
#[local] Instance order_lib : ProtoLib := {|
  protox_parse _ text :=
    if String.eqb text (normalize (named_order order_v1)) then Ok (named_order order_v1)
    else if String.eqb text (normalize (named_order order_v2)) then Ok (named_order order_v2) else Err "syntax";
  link_files _ := Ok ();
  encode_hex _ := "";
|}.

Definition order_sets (path : string) : result string (list FileDescriptorProto) :=
  Ok [named_order (if String.eqb path "old" then order_v1 else order_v2)].

Definition order_set (f : FileDescriptorProto) : DescriptorSet :=
  mkDescriptorSet {[ "order.proto" := named_order f ]} {[ "order.proto" := normalize (named_order f) ]}.

Lemma compat_check_sound_witness :
  check_backward (order_set order_v1) (order_set order_v2) = Some [] ∧
  ∃ file' old_refs new_refs, ds_files (order_set order_v2) !! "order.proto" = Some file' ∧
    reads_schema (normalize file') new_refs (normalize (named_order order_v1)) old_refs.
Proof.
  assert (check_backward (order_set order_v1) (order_set order_v2) = Some []) as Hnil by (vm_compute; reflexivity).
  split; [exact Hnil|].
  destruct (compat_check_sound Ok order_sets "old" "new" (order_set order_v1) (order_set order_v2)) as
    (errors & He & _ & Hs); [reflexivity|reflexivity|].
  assert (errors = []) as -> by congruence.
  destruct (Hs eq_refl "order.proto" (named_order order_v1) eq_refl) as (f & o & n & Hf & _ & _ & _ & _ & Hr).
  exists f, o, n. split; [exact Hf|exact Hr].
Defined.
End witness.
