(* ===== verification/Wire.v ===== *)
(** * The wire frame of the serializers (schema-serde/src/wire.rs)

    [magic | schema id (4 bytes, big endian) | [message index] | body]. Bytes
    are integers in [0, 256); the zigzag varint is written with the 64-bit
    operations of the source. *)

From stdpp Require Import base list numbers.
From Stdlib Require Import ZArith Lia.
From S2P Require Import Prelude.

Abbreviation byte := Z (only parsing).

Definition byte_ok (b : Z) : Prop := (0 ≤ b < 256)%Z.

Inductive WireError :=
  | FrameTooShort (len : nat)
  | BadMagic (b : Z)
  | NegativeCount (n : Z)
  | CountExceedsFrame (count : Z) (len : nat)
  | IndexTooLarge (n : Z)
  | VarintOverflow
  | VarintOverlong
  | VarintTooLong
  | VarintTruncated.

Definition MAGIC : Z := 0.

(** ** 64-bit arithmetic *)

Definition u64_wrap (z : Z) : Z := z mod 2 ^ 64.
Definition i64_wrap (z : Z) : Z := (z + 2 ^ 63) mod 2 ^ 64 - 2 ^ 63.
Definition in_i64 (z : Z) : Prop := (- 2 ^ 63 ≤ z < 2 ^ 63)%Z.

(** [((value << 1) ^ (value >> 63)).cast_unsigned()]. *)
Definition zigzag (value : Z) : Z :=
  u64_wrap (Z.lxor (i64_wrap (Z.shiftl value 1)) (Z.shiftr value 63)).

(** [(result >> 1).cast_signed() ^ -(result & 1).cast_signed()]. *)
Definition unzigzag (result : Z) : Z :=
  Z.lxor (i64_wrap (Z.shiftr result 1)) (- (Z.land result 1)).

(** The loop of [put_varint]: at most ten rounds for 64 bits. *)
Fixpoint put_varint_go (fuel : nat) (zig : Z) : list Z :=
  match fuel with
  | O => []
  | S fuel' =>
      if (zig <? 128)%Z then [Z.land zig 255]
      else Z.lor (Z.land (Z.land zig 255) 127) 128 :: put_varint_go fuel' (Z.shiftr zig 7)
  end.

Definition put_varint (value : Z) : list Z := put_varint_go 10 (zigzag value).

Fixpoint encoded_varint_len_go (fuel : nat) (value : Z) (len : nat) : nat :=
  match fuel with
  | O => len
  | S fuel' =>
      if (128 <=? value)%Z then encoded_varint_len_go fuel' (Z.shiftr value 7) (S len) else len
  end.
Definition encoded_varint_len (value : Z) : nat := encoded_varint_len_go 10 value 1.

(** The loop of [read_varint]: [None] is falling out of it. *)
Fixpoint read_varint_go (fuel index : nat) (result : Z) (bytes : list Z)
    : option (Prelude.result WireError (Z * list Z)) :=
  match fuel, bytes with
  | S fuel', byte :: rest =>
      let payload := Z.land byte 127 in
      if Nat.eqb index 9 && (1 <? payload)%Z then Some (Err VarintOverflow)
      else
        let result := Z.lor result (u64_wrap (Z.shiftl payload (Z.of_nat (index * 7)))) in
        if (Z.land byte 128 =? 0)%Z then
          if negb (Nat.eqb (encoded_varint_len result) (index + 1)) then Some (Err VarintOverlong)
          else Some (Ok (unzigzag result, rest))
        else read_varint_go fuel' (S index) result rest
  | _, _ => None
  end.

Definition read_varint (bytes : list Z) : Prelude.result WireError (Z * list Z) :=
  match read_varint_go 10 0 0 bytes with
  | Some r => r
  | None => if Nat.leb 10 (length bytes) then Err VarintTooLong else Err VarintTruncated
  end.

(** ** Frames *)

(** [put_u32] and [u32::from_be_bytes]. *)
Definition put_u32 (id : Z) : list Z :=
  [Z.land (Z.shiftr id 24) 255; Z.land (Z.shiftr id 16) 255; Z.land (Z.shiftr id 8) 255;
   Z.land id 255].
Definition from_be_bytes (b1 b2 b3 b4 : Z) : Z :=
  Z.lor (Z.shiftl b1 24) (Z.lor (Z.shiftl b2 16) (Z.lor (Z.shiftl b3 8) b4)).

Definition encode (id : Z) (body : list Z) : list Z := MAGIC :: put_u32 id ++ body.

Definition encode_protobuf (id : Z) (message_index : list Z) (body : list Z) : list Z :=
  MAGIC :: put_u32 id ++
  (if bool_decide (message_index = [0%Z]) then [0%Z]
   else put_varint (Z.of_nat (length message_index)) ++ concat (map put_varint message_index)) ++
  body.

Definition strip_header (bytes : list Z) : Prelude.result WireError (Z * list Z) :=
  match bytes with
  | magic :: b1 :: b2 :: b3 :: b4 :: rest =>
      if negb (magic =? MAGIC)%Z then Err (BadMagic magic)
      else Ok (from_be_bytes b1 b2 b3 b4, rest)
  | _ => Err (FrameTooShort (length bytes))
  end.

Definition decode (bytes : list Z) : Prelude.result WireError (Z * list Z) := strip_header bytes.

(** The [for _ in 0..index_count] loop. *)
Fixpoint read_indices (count : nat) (rest : list Z) : Prelude.result WireError (list Z * list Z) :=
  match count with
  | O => Ok ([], rest)
  | S count' =>
      '(ix, r) ← read_varint rest;
      if negb (bool_decide (in_i32 ix)) then Err (IndexTooLarge ix)
      else
        '(v, r') ← read_indices count' r;
        Ok (ix :: v, r')
  end.

Definition decode_protobuf (bytes : list Z)
    : Prelude.result WireError (Z * list Z * list Z) :=
  '(id, after_id) ← strip_header bytes;
  '(len, rest) ← read_varint after_id;
  if (len =? 0)%Z then Ok (id, [0%Z], rest)
  else if (len <? 0)%Z then Err (NegativeCount len)
  else if (Z.of_nat (length rest) <? len)%Z then Err (CountExceedsFrame len (length rest))
  else
    '(indices, rest') ← read_indices (Z.to_nat len) rest;
    Ok (id, indices, rest').

(** ** Bit operations as arithmetic *)

Lemma land_mod n x : (0 ≤ n)%Z → Z.land x (2 ^ n - 1) = (x mod 2 ^ n)%Z.
Proof. intros Hn. rewrite <-Z.land_ones by done. f_equal. rewrite Z.ones_equiv. lia. Qed.

Lemma land_127 x : Z.land x 127 = (x mod 128)%Z.
Proof. apply (land_mod 7). lia. Qed.

Lemma land_255 x : Z.land x 255 = (x mod 256)%Z.
Proof. apply (land_mod 8). lia. Qed.

Lemma shiftr_7 x : Z.shiftr x 7 = (x / 128)%Z.
Proof. by rewrite Z.shiftr_div_pow2. Qed.

(** Disjoint bits: or is addition. *)
Lemma lor_add n a b : (0 ≤ n)%Z → (0 ≤ a < 2 ^ n)%Z → Z.lor a (b * 2 ^ n) = (a + b * 2 ^ n)%Z.
Proof.
  intros Hn Ha. rewrite <-Z.shiftl_mul_pow2 by done.
  assert (Z.land a (Z.shiftl b n) = 0%Z) as Hdisj.
  { rewrite <-(Z.mod_small a (2 ^ n)) by done. rewrite <-Z.land_ones by done.
    rewrite <-Z.land_assoc, (Z.land_comm (Z.ones n)), Z.land_ones by done.
    rewrite Z.shiftl_mul_pow2, Z.mod_mul by lia. apply Z.land_0_r. }
  by rewrite <-Z.lxor_lor, <-Z.add_nocarry_lxor by done.
Qed.

(** The continuation bit of a byte. *)
Lemma land_128 b : byte_ok b → (Z.land b 128 =? 0)%Z = (b <? 128)%Z.
Proof.
  unfold byte_ok. intros Hb.
  assert (∀ n : nat, n < 256 → (Z.land (Z.of_nat n) 128 =? 0)%Z = (Z.of_nat n <? 128)%Z) as Hall.
  { intros n Hn. do 256 (destruct n as [|n]; [reflexivity|]). lia. }
  specialize (Hall (Z.to_nat b) ltac:(lia)). by rewrite Z2Nat.id in Hall by lia.
Qed.

Lemma more_byte z : Z.lor (Z.land (Z.land z 255) 127) 128 = (z mod 128 + 128)%Z.
Proof.
  rewrite <-Z.land_assoc. change (Z.land 255 127) with 127%Z. rewrite land_127.
  apply (lor_add 7 _ 1); [lia|]. apply Z.mod_pos_bound. lia.
Qed.

(** ** Varints

    [wide i] is the weight of the [i]-th group of seven bits. *)
Definition wide (i : nat) : Z := (2 ^ (7 * Z.of_nat i))%Z.

Lemma wide_0 : wide 0 = 1%Z.
Proof. reflexivity. Qed.
Lemma wide_S i : wide (S i) = (128 * wide i)%Z.
Proof.
  unfold wide. rewrite Nat2Z.inj_succ, Z.mul_succ_r, Z.add_comm, Z.pow_add_r by lia. reflexivity.
Qed.
Lemma wide_pos i : (0 < wide i)%Z.
Proof. unfold wide. lia. Qed.
#[local] Hint Resolve wide_pos : core.

Lemma put_varint_go_S n z :
  (0 ≤ z)%Z →
  put_varint_go (S n) z =
    if (z <? 128)%Z then [z] else (z mod 128 + 128)%Z :: put_varint_go n (z / 128)%Z.
Proof.
  intros Hz. cbn [put_varint_go]. rewrite more_byte, shiftr_7.
  destruct (Z.ltb_spec z 128) as [Hlt|]; [|done]. rewrite land_255, Z.mod_small by lia. done.
Qed.

Lemma encoded_varint_len_go_ge f z len : len ≤ encoded_varint_len_go f z len.
Proof.
  revert z len. induction f as [|f IH]; intros z len; cbn [encoded_varint_len_go]; [lia|].
  destruct (128 <=? z)%Z; [|lia]. specialize (IH (Z.shiftr z 7) (S len)). lia.
Qed.

Lemma encoded_varint_len_go_spec f v len k :
  (0 ≤ v < wide (S f))%Z →
  encoded_varint_len_go f v len = len + k ↔ (v < wide (S k))%Z ∧ (k = 0 ∨ (wide k ≤ v)%Z).
Proof.
  revert v len k. induction f as [|f IH]; intros v len k Hv; cbn [encoded_varint_len_go].
  - rewrite wide_S, wide_0 in Hv. rewrite wide_S. split.
    + intros ?. assert (k = 0) as -> by lia. rewrite wide_0. lia.
    + intros [_ [->|Hk]]; [lia|]. destruct k as [|k]; [lia|].
      rewrite wide_S in Hk. pose proof (wide_pos k). lia.
  - rewrite wide_S in Hv. destruct (Z.leb_spec 128 v) as [Hge|Hlt].
    + rewrite shiftr_7. pose proof (Z.div_mod v 128 ltac:(lia)).
      pose proof (Z.mod_pos_bound v 128 ltac:(lia)).
      destruct k as [|k].
      * rewrite !wide_S, wide_0 in *. split; [|lia].
        pose proof (encoded_varint_len_go_ge f (v / 128)%Z (S len)). lia.
      * replace (len + S k) with (S len + k) by lia. rewrite IH by lia. rewrite (wide_S k), !wide_S.
        pose proof (wide_pos k).
        split; (intros [? Hlo]; split; [lia|]); destruct Hlo as [Hlo|Hlo]; subst; rewrite ?wide_0; try lia.
    + split.
      * intros ?. assert (k = 0) as -> by lia. rewrite wide_S, wide_0. lia.
      * intros [_ [->|Hk]]; [lia|]. destruct k as [|k]; [lia|].
        rewrite wide_S in Hk. pose proof (wide_pos k). lia.
Qed.

Lemma encoded_varint_len_spec v k :
  (0 ≤ v < 2 ^ 64)%Z →
  Nat.eqb (encoded_varint_len v) (k + 1) = true ↔ (v < wide (S k))%Z ∧ (k = 0 ∨ (wide k ≤ v)%Z).
Proof.
  intros Hv. rewrite Nat.eqb_eq. unfold encoded_varint_len. rewrite (Nat.add_comm k).
  apply encoded_varint_len_go_spec. unfold wide. lia.
Qed.

(** *** Zigzag *)
Lemma zigzag_spec v : in_i64 v → zigzag v = (if (0 <=? v)%Z then 2 * v else - (2 * v) - 1)%Z.
Proof.
  unfold in_i64, zigzag. intros Hv. rewrite Z.shiftl_mul_pow2, Z.shiftr_div_pow2 by lia.
  destruct (Z.leb_spec 0 v) as [Hpos|Hneg].
  - rewrite Z.div_small, Z.lxor_0_r by lia. unfold u64_wrap, i64_wrap.
    Z.to_euclidean_division_equations. lia.
  - assert (v / 2 ^ 63 = -1)%Z as -> by (symmetry; apply (Z.div_unique_pos _ _ _ (v + 2 ^ 63)); lia).
    rewrite Z.lxor_m1_r. unfold Z.lnot, u64_wrap, i64_wrap.
    Z.to_euclidean_division_equations. lia.
Qed.

Lemma zigzag_range v : (0 ≤ zigzag v < 2 ^ 64)%Z.
Proof. unfold zigzag, u64_wrap. apply Z.mod_pos_bound. lia. Qed.

Lemma unzigzag_spec w :
  (0 ≤ w < 2 ^ 64)%Z → unzigzag w = (if (w mod 2 =? 0)%Z then w / 2 else - (w / 2) - 1)%Z.
Proof.
  unfold unzigzag. intros Hw. rewrite Z.shiftr_div_pow2 by lia. change (2 ^ 1)%Z with 2%Z.
  pose proof (land_mod 1 w ltac:(lia)) as Hl. change (2 ^ 1 - 1)%Z with 1%Z in Hl.
  change (2 ^ 1)%Z with 2%Z in Hl. rewrite Hl.
  assert (i64_wrap (w / 2) = w / 2)%Z as ->.
  { unfold i64_wrap. rewrite Z.mod_small; [lia|].
    pose proof (Z.div_mod w 2 ltac:(lia)). pose proof (Z.mod_pos_bound w 2 ltac:(lia)). lia. }
  pose proof (Z.mod_pos_bound w 2 ltac:(lia)). destruct (Z.eqb_spec (w mod 2) 0) as [->|].
  - apply Z.lxor_0_r.
  - assert (w mod 2 = 1)%Z as -> by lia. rewrite Z.lxor_m1_r. unfold Z.lnot. lia.
Qed.

Lemma unzigzag_zigzag v : in_i64 v → unzigzag (zigzag v) = v.
Proof.
  intros Hv. rewrite unzigzag_spec by apply zigzag_range. rewrite zigzag_spec by done.
  unfold in_i64 in Hv. destruct (Z.leb_spec 0 v); case_match eqn:He; rewrite ?Z.eqb_eq, ?Z.eqb_neq in He;
    Z.to_euclidean_division_equations; lia.
Qed.

Lemma zigzag_unzigzag w : (0 ≤ w < 2 ^ 64)%Z → in_i64 (unzigzag w) ∧ zigzag (unzigzag w) = w.
Proof.
  intros Hw. assert (in_i64 (unzigzag w)) as Hi.
  { rewrite unzigzag_spec by done. unfold in_i64.
    destruct (Z.eqb_spec (w mod 2) 0); Z.to_euclidean_division_equations; lia. }
  split; [done|]. rewrite zigzag_spec by done. rewrite unzigzag_spec by done.
  destruct (Z.eqb_spec (w mod 2) 0); case_match eqn:He; rewrite ?Z.leb_le, ?Z.leb_gt in He;
    Z.to_euclidean_division_equations; lia.
Qed.

(** *** The loops against each other *)
Lemma group_small i p :
  i ≤ 9 → (0 ≤ p < 128)%Z → (i = 9 → (p ≤ 1)%Z) → (0 ≤ p * wide i < 2 ^ 64)%Z.
Proof.
  intros Hi Hp H9. do 9 (destruct i as [|i]; [unfold wide; simpl; lia|]).
  assert (i = 0) as -> by lia. unfold wide. simpl. lia.
Qed.

(** One round of the reader, arithmetically. *)
Lemma read_varint_go_S fuel i r b bs :
  byte_ok b → i ≤ 9 → (0 ≤ r < wide i)%Z →
  read_varint_go (S fuel) i r (b :: bs) =
    if Nat.eqb i 9 && (1 <? b mod 128)%Z then Some (Err VarintOverflow)
    else
      let r' := (r + (b mod 128) * wide i)%Z in
      if (b <? 128)%Z then
        if negb (Nat.eqb (encoded_varint_len r') (i + 1)) then Some (Err VarintOverlong)
        else Some (Ok (unzigzag r', bs))
      else read_varint_go fuel (S i) r' bs.
Proof.
  intros Hb Hi Hr. cbn [read_varint_go]. rewrite land_127, land_128 by done.
  pose proof (Z.mod_pos_bound b 128 ltac:(lia)) as Hp.
  destruct (Nat.eqb_spec i 9) as [He|Hne]; destruct (Z.ltb_spec 1 (b mod 128)); simpl andb; try done;
  (assert (Z.lor r (u64_wrap (Z.shiftl (b mod 128) (Z.of_nat (i * 7)))) = r + (b mod 128) * wide i)%Z
     as ->; [|done]);
  rewrite Z.shiftl_mul_pow2 by lia;
  replace (Z.of_nat (i * 7)) with (7 * Z.of_nat i)%Z by lia; fold (wide i);
  pose proof (group_small i (b mod 128) ltac:(lia) Hp ltac:(lia));
  unfold u64_wrap; rewrite Z.mod_small by lia; unfold wide; apply lor_add; unfold wide in *; lia.
Qed.

(** Reading the groups of [z] after [i] groups have been read gives [r + z * wide i]. *)
Lemma read_put_go fuel i r z rest :
  i + fuel = 10 → (0 ≤ r < wide i)%Z → (0 ≤ z)%Z → (r + z * wide i < 2 ^ 64)%Z →
  (i = 0 ∨ (0 < z)%Z) →
  read_varint_go fuel i r (put_varint_go fuel z ++ rest) =
    Some (Ok (unzigzag (r + z * wide i)%Z, rest)).
Proof.
  revert i r z. induction fuel as [|fuel IH]; intros i r z Hf Hr Hz Hw Hc.
  { exfalso. assert (i = 10) as -> by lia. unfold wide in *. simpl in *. lia. }
  pose proof (wide_pos i) as Hwide.
  assert (i = 9 → (z ≤ 1)%Z) as H9 by (intros ->; unfold wide in *; simpl in *; lia).
  rewrite put_varint_go_S by done. destruct (Z.ltb_spec z 128) as [Hlt|Hge]; simpl app.
  - rewrite read_varint_go_S by (unfold byte_ok; lia). rewrite (Z.mod_small z) by lia.
    replace (Nat.eqb i 9 && (1 <? z)%Z) with false.
    2:{ destruct (Nat.eqb_spec i 9); [|done]. symmetry. apply Z.ltb_ge. auto. }
    cbn zeta. replace (z <? 128)%Z with true by (symmetry; apply Z.ltb_lt; lia).
    assert (Nat.eqb (encoded_varint_len (r + z * wide i)%Z) (i + 1) = true) as ->; [|done].
    apply encoded_varint_len_spec; [nia|]. rewrite wide_S. split; [nia|]. destruct Hc; [auto|]. right. nia.
  - pose proof (Z.mod_pos_bound z 128 ltac:(lia)). pose proof (Z.div_mod z 128 ltac:(lia)) as Hd.
    rewrite read_varint_go_S by (unfold byte_ok; lia).
    assert ((z mod 128 + 128) mod 128 = z mod 128)%Z as ->.
    { rewrite <-Z.add_mod_idemp_r, Z_mod_same_full, Z.add_0_r by lia. apply Z.mod_mod. lia. }
    replace (Nat.eqb i 9) with false by (symmetry; apply Nat.eqb_neq; lia). cbn [andb]. cbn zeta.
    replace (z mod 128 + 128 <? 128)%Z with false by (symmetry; apply Z.ltb_ge; lia).
    assert (r + z * wide i = r + z mod 128 * wide i + z / 128 * wide (S i))%Z as Hsplit
      by (rewrite wide_S; nia).
    rewrite Hsplit. apply IH; rewrite ?wide_S in *; try nia; lia.
Qed.

(** A successful read consumed a canonical encoding. *)
Lemma read_go_canonical fuel i r bs v rest :
  i + fuel = 10 → (0 ≤ r < wide i)%Z → Forall byte_ok bs →
  read_varint_go fuel i r bs = Some (Ok (v, rest)) →
  ∃ z, (0 ≤ z)%Z ∧ (i = 0 ∨ (0 < z)%Z) ∧ (r + z * wide i < 2 ^ 64)%Z ∧
    v = unzigzag (r + z * wide i)%Z ∧ bs = put_varint_go fuel z ++ rest.
Proof.
  revert i r bs. induction fuel as [|fuel IH]; intros i r bs Hf Hr Hbs Hread; [done|].
  destruct bs as [|b bs]; [done|]. apply Forall_cons_1 in Hbs as [Hb Hbs].
  rewrite read_varint_go_S in Hread by (done || lia). cbn zeta in Hread.
  pose proof (wide_pos i). pose proof (Z.mod_pos_bound b 128 ltac:(lia)) as Hm.
  destruct (Nat.eqb i 9 && (1 <? b mod 128)%Z) eqn:H9; [done|].
  assert (0 ≤ b mod 128 * wide i < 2 ^ 64)%Z as Hg.
  { apply group_small; [lia|lia|]. intros ->. by apply Z.ltb_ge in H9. }
  unfold byte_ok in Hb. destruct (Z.ltb_spec b 128) as [Hlt|Hge].
  - destruct (Nat.eqb (encoded_varint_len (r + b mod 128 * wide i)%Z) (i + 1)) eqn:Hlen; [|done].
    cbn [negb] in Hread. injection Hread as <- <-.
    rewrite (Z.mod_small b 128) in H9, Hlen, Hg |- * by lia. clear Hm.
    assert (r + b * wide i < 2 ^ 64)%Z as Hw.
    { destruct (decide (i = 9)) as [->|]; [|].
      - apply Z.ltb_ge in H9. unfold wide in *. simpl in *. nia.
      - assert (wide (S i) ≤ wide 9)%Z by (unfold wide; apply Z.pow_le_mono_r; lia).
        rewrite wide_S in *. unfold wide at 2 in H0. simpl in H0. nia. }
    apply encoded_varint_len_spec in Hlen as [_ Hlo]; [|nia].
    exists b. rewrite put_varint_go_S by lia.
    replace (b <? 128)%Z with true by (symmetry; apply Z.ltb_lt; lia).
    split_and!; [lia| |done|done|done]. destruct Hlo; [auto|]. right. nia.
  - assert (b mod 128 = b - 128)%Z as Hbm by (Z.to_euclidean_division_equations; lia).
    destruct (decide (i = 9)) as [->|Hn9].
    { assert (fuel = 0) as -> by lia. done. }
    apply IH in Hread as (z & Hz & Hc & Hw & Hv & Heq); [|lia|rewrite wide_S; nia|done].
    exists (b - 128 + 128 * z)%Z.
    assert (r + (b - 128 + 128 * z) * wide i = r + b mod 128 * wide i + z * wide (S i))%Z as Hsplit
      by (rewrite wide_S, Hbm; ring).
    rewrite Hsplit, put_varint_go_S by lia. destruct Hc as [?|Hc]; [lia|].
    replace (b - 128 + 128 * z <? 128)%Z with false by (symmetry; apply Z.ltb_ge; lia).
    split_and!; [lia|right; lia|done|done|]. cbn [app]. f_equal.
    + Z.to_euclidean_division_equations; lia.
    + replace ((b - 128 + 128 * z) / 128)%Z with z; [done|]. Z.to_euclidean_division_equations; lia.
Qed.

Lemma put_varint_go_bytes fuel z : (0 ≤ z)%Z → Forall byte_ok (put_varint_go fuel z).
Proof.
  revert z. induction fuel as [|fuel IH]; intros z Hz; [constructor|].
  rewrite put_varint_go_S by done. destruct (Z.ltb_spec z 128).
  - constructor; [unfold byte_ok; lia|constructor].
  - constructor; [|apply IH; apply Z.div_pos; lia].
    pose proof (Z.mod_pos_bound z 128 ltac:(lia)). unfold byte_ok. lia.
Qed.

Lemma put_varint_bytes v : Forall byte_ok (put_varint v).
Proof. apply put_varint_go_bytes. pose proof (zigzag_range v). lia. Qed.

Lemma put_varint_length v : 1 ≤ length (put_varint v) ≤ 10.
Proof.
  unfold put_varint. pose proof (zigzag_range v) as Hz. revert Hz. generalize (zigzag v). intros z Hz.
  assert (∀ fuel z, length (put_varint_go fuel z) ≤ fuel) as Hle.
  { clear. induction fuel as [|fuel IH]; intros z; simpl; [lia|]. case_match; simpl; [lia|].
    specialize (IH (Z.shiftr z 7)). lia. }
  split; [|apply Hle]. rewrite put_varint_go_S by lia. destruct (z <? 128)%Z; cbn [length]; lia.
Qed.

Lemma read_put_varint v rest : in_i64 v → read_varint (put_varint v ++ rest) = Ok (v, rest).
Proof.
  intros Hv. pose proof (zigzag_range v) as Hz. unfold read_varint, put_varint.
  rewrite (read_put_go 10 0 0 (zigzag v) rest).
  - rewrite wide_0, Z.mul_1_r, Z.add_0_l. by rewrite unzigzag_zigzag.
  - done.
  - rewrite wide_0. lia.
  - lia.
  - rewrite wide_0. lia.
  - by left.
Qed.

Lemma read_varint_inv bs v rest :
  Forall byte_ok bs → read_varint bs = Ok (v, rest) → in_i64 v ∧ bs = put_varint v ++ rest.
Proof.
  intros Hbs. unfold read_varint. destruct (read_varint_go 10 0 0 bs) as [r|] eqn:Hgo.
  2:{ by destruct (Nat.leb 10 (length bs)). }
  intros ->. apply read_go_canonical in Hgo as (z & Hz & _ & Hw & -> & Heq); [|lia|rewrite wide_0; lia|done].
  rewrite wide_0, Z.mul_1_r, Z.add_0_l in *. destruct (zigzag_unzigzag z) as [Hi Hzz]; [lia|].
  split; [done|]. unfold put_varint. by rewrite Hzz.
Qed.

(** The zigzag varint codec is a bijection between the 64-bit integers and the byte strings
    [read_varint] accepts: what [put_varint] writes is one to ten bytes and reads back as the
    value with the rest of the input untouched, and whatever [read_varint] accepts (overlong,
    overflowing and truncated inputs are rejected) is the one encoding of the value it returns. *)
Theorem varint_bijection :
  (∀ v rest, in_i64 v →
     Forall byte_ok (put_varint v) ∧ 1 ≤ length (put_varint v) ≤ 10 ∧
     read_varint (put_varint v ++ rest) = Ok (v, rest)) ∧
  (∀ bs v rest, Forall byte_ok bs → read_varint bs = Ok (v, rest) →
     in_i64 v ∧ bs = put_varint v ++ rest).
Proof.
  split; [|exact read_varint_inv]. intros v rest Hv.
  split_and!; [apply put_varint_bytes|apply put_varint_length..|by apply read_put_varint].
Qed.

(** ** Frames *)

Definition in_u32 (id : Z) : Prop := (0 ≤ id < 2 ^ 32)%Z.

Lemma from_be_bytes_add b1 b2 b3 b4 :
  byte_ok b1 → byte_ok b2 → byte_ok b3 → byte_ok b4 →
  from_be_bytes b1 b2 b3 b4 = (b1 * 2 ^ 24 + b2 * 2 ^ 16 + b3 * 2 ^ 8 + b4)%Z.
Proof.
  unfold byte_ok, from_be_bytes. intros H1 H2 H3 H4. rewrite !Z.shiftl_mul_pow2 by lia.
  rewrite (Z.lor_comm (b3 * 2 ^ 8)), lor_add by lia.
  rewrite (Z.lor_comm (b2 * 2 ^ 16)), lor_add by lia.
  rewrite (Z.lor_comm (b1 * 2 ^ 24)), lor_add by lia. lia.
Qed.

Lemma put_u32_bytes id : ∃ b1 b2 b3 b4, put_u32 id = [b1; b2; b3; b4] ∧
  byte_ok b1 ∧ byte_ok b2 ∧ byte_ok b3 ∧ byte_ok b4 ∧ (in_u32 id → from_be_bytes b1 b2 b3 b4 = id).
Proof.
  do 4 eexists. split; [reflexivity|]. unfold byte_ok. rewrite !land_255.
  split_and!; try (apply Z.mod_pos_bound; lia).
  unfold in_u32. intros Hid. rewrite from_be_bytes_add by (apply Z.mod_pos_bound; lia).
  rewrite !Z.shiftr_div_pow2 by lia. Z.to_euclidean_division_equations. lia.
Qed.

Lemma put_from_be_bytes b1 b2 b3 b4 :
  byte_ok b1 → byte_ok b2 → byte_ok b3 → byte_ok b4 →
  in_u32 (from_be_bytes b1 b2 b3 b4) ∧ put_u32 (from_be_bytes b1 b2 b3 b4) = [b1; b2; b3; b4].
Proof.
  intros H1 H2 H3 H4. rewrite from_be_bytes_add by done. unfold byte_ok, in_u32, put_u32 in *.
  split; [lia|]. rewrite !land_255, !Z.shiftr_div_pow2 by lia.
  repeat f_equal; Z.to_euclidean_division_equations; lia.
Qed.

Lemma strip_header_frame id body : in_u32 id → strip_header (MAGIC :: put_u32 id ++ body) = Ok (id, body).
Proof.
  intros Hid. destruct (put_u32_bytes id) as (b1 & b2 & b3 & b4 & -> & _ & _ & _ & _ & Hbe).
  simpl. by rewrite Hbe.
Qed.

Lemma strip_header_inv bs id body :
  Forall byte_ok bs → strip_header bs = Ok (id, body) →
  in_u32 id ∧ Forall byte_ok body ∧ bs = MAGIC :: put_u32 id ++ body.
Proof.
  intros Hbs. destruct bs as [|m [|b1 [|b2 [|b3 [|b4 rest]]]]]; cbn [strip_header]; try done.
  destruct (Z.eqb_spec m MAGIC) as [->|]; [|done]. intros [= <- <-].
  apply Forall_cons_1 in Hbs as [_ (H1 & (H2 & (H3 & (H4 & Hr)%Forall_cons_1)%Forall_cons_1)%Forall_cons_1)%Forall_cons_1].
  destruct (put_from_be_bytes b1 b2 b3 b4) as [Hid Hput]; [done..|].
  split; [exact Hid|]. split; [exact Hr|]. by rewrite Hput.
Qed.

(** The plain frame: a body framed under an id decodes to that id and body; a decoded frame
    is the frame of what it decodes to; and decoding fails exactly on fewer than five bytes or a
    first byte other than the magic. *)
Theorem frame_round_trip :
  (∀ id body, in_u32 id → decode (encode id body) = Ok (id, body)) ∧
  (∀ bs id body, Forall byte_ok bs → decode bs = Ok (id, body) →
     in_u32 id ∧ bs = encode id body) ∧
  (∀ bs e, decode bs = Err e ↔
     (length bs < 5 ∧ e = FrameTooShort (length bs)) ∨
     (5 ≤ length bs ∧ ∃ m, bs !! 0 = Some m ∧ m ≠ MAGIC ∧ e = BadMagic m)).
Proof.
  split_and!.
  - intros id body Hid. by apply strip_header_frame.
  - intros bs id body Hbs Hd. apply strip_header_inv in Hd as (? & _ & ?); done.
  - intros bs e. unfold decode.
    destruct bs as [|m [|b1 [|b2 [|b3 [|b4 rest]]]]]; simpl;
      try (split; [intros [= <-]; left; split; [lia|done] | intros [[_ ->]|[? _]]; [done|lia]]).
    destruct (Z.eqb_spec m MAGIC) as [->|Hm]; simpl.
    + split; [done|]. intros [[? _]|(_ & m & [= <-] & ? & _)]; [lia|done].
    + split; [intros [= <-]; right; split; [lia|eauto]|]. intros [[? _]|(_ & ? & [= <-] & _ & ->)]; [lia|done].
Qed.

(** *** Message indices *)
#[local] Arguments put_varint : simpl never.
#[local] Arguments read_varint : simpl never.
#[local] Arguments put_u32 : simpl never.
#[local] Arguments strip_header : simpl never.

Lemma in_i32_i64 z : in_i32 z → in_i64 z.
Proof. unfold in_i32, in_i64, i32_min, i32_max. lia. Qed.

Lemma read_put_indices path body :
  Forall in_i32 path →
  read_indices (length path) (concat (map put_varint path) ++ body) = Ok (path, body).
Proof.
  induction 1 as [|ix path Hix _ IH]; [done|]. cbn [length read_indices concat map].
  rewrite <-app_assoc.
  rewrite read_put_varint by by apply in_i32_i64. cbn.
  rewrite bool_decide_true by done. cbn. by rewrite IH.
Qed.

Lemma read_indices_inv count rest path body :
  Forall byte_ok rest → read_indices count rest = Ok (path, body) →
  length path = count ∧ Forall in_i32 path ∧ rest = concat (map put_varint path) ++ body.
Proof.
  revert rest path. induction count as [|count IH]; intros rest path Hr; simpl.
  { by intros [= <- <-]. }
  destruct (read_varint rest) as [[ix r]|] eqn:Hv; cbn; [|done].
  apply read_varint_inv in Hv as [_ ->]; [|done]. apply Forall_app in Hr as [_ Hr].
  case_bool_decide as Hix; cbn; [|done].
  destruct (read_indices count r) as [[v r']|] eqn:Hi; cbn; [|done]. intros [= <- <-].
  apply IH in Hi as (Hl & Hp & ->); [|done].
  split_and!; [simpl; lia|by constructor|by cbn [concat map]; rewrite app_assoc].
Qed.

Lemma indices_length path : length path ≤ length (concat (map put_varint path)).
Proof.
  induction path as [|ix path IH]; [done|]. cbn [length concat map].
  rewrite length_app. pose proof (put_varint_length ix). lia.
Qed.

Lemma decode_path id path body :
  in_u32 id → path ≠ [] → Forall in_i32 path → in_i64 (Z.of_nat (length path)) →
  decode_protobuf (MAGIC :: put_u32 id ++ put_varint (Z.of_nat (length path)) ++
                   concat (map put_varint path) ++ body) = Ok (id, path, body).
Proof.
  intros Hid Hne Hp Hl. unfold decode_protobuf. rewrite strip_header_frame by done. cbn.
  rewrite read_put_varint by done. cbn. destruct path as [|ix path]; [done|].
  replace (Z.of_nat _ =? 0)%Z with false by (symmetry; apply Z.eqb_neq; simpl; lia).
  replace (Z.of_nat (length (ix :: path)) <? 0)%Z with false by (symmetry; apply Z.ltb_ge; lia).
  pose proof (indices_length (ix :: path)) as Hlen. rewrite length_app.
  replace (_ <? _)%Z with false by (symmetry; apply Z.ltb_ge; lia).
  rewrite Nat2Z.id, read_put_indices by done. done.
Qed.

Lemma decode_encode_protobuf id path body :
  in_u32 id → path ≠ [] → Forall in_i32 path → in_i64 (Z.of_nat (length path)) →
  decode_protobuf (encode_protobuf id path body) = Ok (id, path, body).
Proof.
  intros Hid Hne Hp Hl. unfold encode_protobuf. case_bool_decide as H0.
  - subst. unfold decode_protobuf. by rewrite strip_header_frame.
  - rewrite <-app_assoc. by apply decode_path.
Qed.

(** The Protobuf frame: a body framed under an id and a non-empty path of 32-bit message
    indices decodes to exactly these; a decoded frame is the frame of what it decodes to, except
    that the first message may also have been written in the long form (count 1, index 0); and
    an empty path is indistinguishable from the path of the first message. *)
Theorem protobuf_frame_round_trip :
  (∀ id path body, in_u32 id → path ≠ [] → Forall in_i32 path → in_i64 (Z.of_nat (length path)) →
     decode_protobuf (encode_protobuf id path body) = Ok (id, path, body)) ∧
  (∀ bs id path body, Forall byte_ok bs → decode_protobuf bs = Ok (id, path, body) →
     in_u32 id ∧ path ≠ [] ∧ Forall in_i32 path ∧
     (bs = encode_protobuf id path body ∨
      path = [0%Z] ∧ bs = MAGIC :: put_u32 id ++ [2%Z; 0%Z] ++ body)) ∧
  (∀ id body, encode_protobuf id [] body = encode_protobuf id [0%Z] body).
Proof.
  split_and!; [..|done].
  - apply decode_encode_protobuf.
  - intros bs id path body Hbs. unfold decode_protobuf.
    destruct (strip_header bs) as [[id' after]|] eqn:Hh; cbn; [|done].
    apply strip_header_inv in Hh as (Hid & Hafter & ->); [|done].
    destruct (read_varint after) as [[len rest]|] eqn:Hv; cbn; [|done].
    apply read_varint_inv in Hv as [Hi ->]; [|done]. apply Forall_app in Hafter as [_ Hrest].
    destruct (Z.eqb_spec len 0) as [->|Hne].
    { intros [= <- <- <-]. split_and!; [done..| |by left].
      constructor; [unfold in_i32, i32_min, i32_max; lia|constructor]. }
    destruct (Z.ltb_spec len 0); [done|]. destruct (_ <? len)%Z; [done|].
    destruct (read_indices _ rest) as [[ixs r']|] eqn:Hix; cbn; [|done]. intros [= <- <- <-].
    apply read_indices_inv in Hix as (Hlen & Hp & ->); [|done].
    split_and!; [done| |done|]; [intros ->; simpl in Hlen; lia|].
    unfold encode_protobuf. case_bool_decide as H0; [right; subst|left].
    + split; [done|]. assert (len = 1%Z) as -> by (simpl in Hlen; lia). done.
    + replace len with (Z.of_nat (length ixs)) by lia. by rewrite <-app_assoc.
Qed.
