(* ===== verification/Import.v ===== *)
(** * Importing a descriptor set (rest/import.rs)

    [DescriptorSetImport::new] indexes the files of a [FileDescriptorSet] and
    orders them dependencies first by a depth-first walk with a set of files
    being visited, which is how a cycle is noticed. *)

From stdpp Require Import base gmap strings list relations.
From Stdlib Require Import ZArith Lia.
From S2P Require Import Prelude Types Store Descriptor.

Record DescriptorSetImport := mkImport {
  im_files : gmap string FileDescriptorProto;
  im_order : list string;
}.

(** [file.name.clone().filter(|n| !n.is_empty())]. *)
Definition indexed_name (file : FileDescriptorProto) : option string :=
  match file_name file with
  | Some n => if String.eqb n "" then None else Some n
  | None => None
  end.

(** The loop over [set.file]. *)
Fixpoint index_files (set : list FileDescriptorProto) (files : gmap string FileDescriptorProto)
    : result SrError (gmap string FileDescriptorProto) :=
  match set with
  | [] => Ok files
  | file :: set' =>
      name ← ok_or (indexed_name file) (InvalidSchema "FileDescriptorSet file missing name");
      match files !! name with
      | Some _ => Err (InvalidSchema ("FileDescriptorSet contains duplicate file " +:+ name))
      | None => index_files set' (<[ name := file ]> files)
      end
  end.

(** The three collections [visit] works on. *)
Record VisitState := mkVisit {
  vt_visiting : gset string;
  vt_visited : gset string;
  vt_order : list string;
}.

Section walk.
Context (files : gmap string FileDescriptorProto).

(** The loop over [file.dependency]; [recur] is the recursive call. *)
Fixpoint visit_deps (recur : string → VisitState → option (result SrError VisitState))
    (deps : list string) (st : VisitState) : option (result SrError VisitState) :=
  match deps with
  | [] => Some (Ok st)
  | dep :: deps' =>
      match files !! dep with
      | None => visit_deps recur deps' st
      | Some _ =>
          match recur dep st with
          | Some (Ok st') => visit_deps recur deps' st'
          | r => r
          end
      end
  end.

(** [None] is out of fuel, or the panic on an unknown file. *)
Fixpoint visit_file (fuel : nat) (name : string) (st : VisitState) : option (result SrError VisitState) :=
  match fuel with
  | O => None
  | S fuel' =>
      if bool_decide (name ∈ vt_visited st) then Some (Ok st)
      else if bool_decide (name ∈ vt_visiting st) then
        Some (Err (InvalidSchema ("FileDescriptorSet import cycle at " +:+ name)))
      else
        match files !! name with
        | None => None
        | Some file =>
            match visit_deps (visit_file fuel') (file_dependency file)
                    (mkVisit ({[ name ]} ∪ vt_visiting st) (vt_visited st) (vt_order st)) with
            | Some (Ok st') =>
                Some (Ok (mkVisit (vt_visiting st' ∖ {[ name ]}) ({[ name ]} ∪ vt_visited st')
                            (vt_order st' ++ [name])))
            | r => r
            end
        end
  end.

(** One more than the number of files: each level visits a new one. *)
Definition visit_fuel : nat := S (size files).

(** The loop over [files.keys()]: every name is known, so the test of
    [visit_deps] always passes here. *)
Definition visit_all (names : list string) (st : VisitState) : option (result SrError VisitState) :=
  visit_deps (visit_file visit_fuel) names st.
End walk.

(** [None]: the walk does not come back, or it panics. *)
Definition import_new (set : list FileDescriptorProto) : option (result SrError DescriptorSetImport) :=
  match index_files set ∅ with
  | Err e => Some (Err e)
  | Ok files =>
      match visit_all files ((btree_iter files).*1) (mkVisit ∅ ∅ []) with
      | Some (Ok st) => Some (Ok (mkImport files (vt_order st)))
      | Some (Err e) => Some (Err e)
      | None => None
      end
  end.

(** ** The walk *)

Section facts.
Context (files : gmap string FileDescriptorProto).

(** [a] imports [b], and [b] is in the set. *)
Definition imports (a b : string) : Prop :=
  ∃ file, files !! a = Some file ∧ b ∈ file_dependency file ∧ is_Some (files !! b).

(** Every import of a file comes before it. *)
Definition dependencies_first (l : list string) : Prop :=
  ∀ before name after dep, l = before ++ name :: after → imports name dep → dep ∈ before.

Record visit_inv (st : VisitState) : Prop := {
  vi_nodup : NoDup (vt_order st);
  vi_visited : ∀ n, n ∈ vt_visited st ↔ n ∈ vt_order st;
  vi_first : dependencies_first (vt_order st);
  vi_known : ∀ n, n ∈ vt_order st ∨ n ∈ vt_visiting st → is_Some (files !! n);
  vi_disjoint : ∀ n, n ∈ vt_visiting st → n ∉ vt_visited st;
}.

(** What a walk from a state gives: the files in [done] end up visited. *)
Definition walked (st : VisitState) (done : string → Prop) (r : option (result SrError VisitState)) : Prop :=
  match r with
  | Some (Ok st') =>
      visit_inv st' ∧ vt_visiting st' = vt_visiting st ∧ vt_visited st ⊆ vt_visited st' ∧
      ∀ n, done n → n ∈ vt_visited st'
  | Some (Err e) =>
      ∃ n, tc imports n n ∧ e = InvalidSchema ("FileDescriptorSet import cycle at " +:+ n)
  | None => False
  end.

(** The files being visited all lead to [name]. *)
Definition leads_to (st : VisitState) (name : string) : Prop :=
  ∀ v, v ∈ vt_visiting st → tc imports v name.

Definition room (fuel : nat) (st : VisitState) : Prop :=
  size (dom files ∖ vt_visiting st) < fuel.

Lemma visit_deps_walked recur fuel deps st :
  (∀ name st, visit_inv st → is_Some (files !! name) → leads_to st name → room fuel st →
     walked st (eq name) (recur name st)) →
  visit_inv st → room fuel st → (∀ dep, dep ∈ deps → is_Some (files !! dep) → leads_to st dep) →
  walked st (λ n, n ∈ deps ∧ is_Some (files !! n)) (visit_deps files recur deps st).
Proof.
  intros Hrec. revert st. induction deps as [|dep deps IH]; intros st Hinv Hroom Hleads; simpl.
  { split_and!; [done|done|set_solver|]. by intros n [?%elem_of_nil _]. }
  assert (∀ st', visit_inv st' → vt_visiting st' = vt_visiting st → vt_visited st ⊆ vt_visited st' →
    (is_Some (files !! dep) → dep ∈ vt_visited st') →
    walked st (λ n, n ∈ dep :: deps ∧ is_Some (files !! n)) (visit_deps files recur deps st')) as Hnext.
  { intros st' Hinv' Hvis Hsub Hdep.
    assert (walked st' (λ n, n ∈ deps ∧ is_Some (files !! n)) (visit_deps files recur deps st')) as Hw.
    { apply IH; [done|unfold room in *; by rewrite Hvis|].
      intros d Hd Hs v Hv. rewrite Hvis in Hv. apply (Hleads d); [by right|done|done]. }
    destruct (visit_deps files recur deps st') as [[st2|e]|]; [|done|done]. simpl in *.
    destruct Hw as (? & Hvis2 & Hsub2 & Hall). split_and!; [done|congruence|set_solver|].
    intros n [[->|Hn]%elem_of_cons Hs]; [apply Hsub2; auto|auto]. }
  destruct (files !! dep) as [file|] eqn:Hdep.
  - assert (walked st (eq dep) (recur dep st)) as Hw.
    { apply Hrec; [done|by rewrite Hdep|apply Hleads; [left|by rewrite Hdep]|done]. }
    destruct (recur dep st) as [[st'|e]|]; [|done|done].
    destruct Hw as (? & ? & ? & Hd). apply Hnext; auto.
  - apply Hnext; auto. by intros [? ?].
Qed.

Lemma room_visit fuel name st :
  room (S fuel) st → is_Some (files !! name) → name ∉ vt_visiting st →
  size (dom files ∖ ({[ name ]} ∪ vt_visiting st)) < fuel.
Proof.
  unfold room. intros Hroom Hs Hn.
  assert (dom files ∖ ({[ name ]} ∪ vt_visiting st) ⊂ dom files ∖ vt_visiting st) as Hsub.
  { split; [set_solver|]. intros Hc. apply elem_of_dom in Hs. set_solver. }
  apply subset_size in Hsub. lia.
Qed.

(** Closing a file whose imports have all been visited. *)
Lemma visit_inv_close name file st st' :
  visit_inv st → files !! name = Some file → name ∉ vt_visited st → name ∉ vt_visiting st →
  visit_inv st' → vt_visiting st' = {[ name ]} ∪ vt_visiting st →
  (∀ n, n ∈ file_dependency file ∧ is_Some (files !! n) → n ∈ vt_visited st') →
  visit_inv (mkVisit (vt_visiting st' ∖ {[ name ]}) ({[ name ]} ∪ vt_visited st') (vt_order st' ++ [name])).
Proof.
  intros Hinv Hf Hnv Hni Hinv' Hvis Hdeps.
  assert (name ∉ vt_order st') as Hfresh.
  { rewrite <-(vi_visited _ Hinv'). apply (vi_disjoint _ Hinv'). rewrite Hvis. set_solver. }
  split; simpl.
  - apply NoDup_app. split_and!; [apply Hinv'| |apply NoDup_singleton].
    intros x Hx ->%list_elem_of_singleton. done.
  - intros n. rewrite elem_of_app, list_elem_of_singleton, elem_of_union, elem_of_singleton,
      (vi_visited _ Hinv'). tauto.
  - intros before n after dep Heq Himp. destruct after as [|a after] using rev_ind.
    + apply app_inj_tail in Heq as [<- <-]. apply (vi_visited _ Hinv'), Hdeps.
      destruct Himp as (f & Hf' & Hd & Hs). simplify_eq. done.
    + rewrite app_comm_cons, app_assoc in Heq. apply app_inj_tail in Heq as [Heq _].
      by apply (vi_first _ Hinv' before n after).
  - intros n. rewrite elem_of_app, list_elem_of_singleton. intros [[Hn| ->]|Hn].
    + apply (vi_known _ Hinv'). by left.
    + by rewrite Hf.
    + apply (vi_known _ Hinv'). right. set_solver.
  - intros n Hn. pose proof (vi_disjoint _ Hinv' n). set_solver.
Qed.

Lemma visit_file_walked fuel name st :
  visit_inv st → is_Some (files !! name) → leads_to st name → room fuel st →
  walked st (eq name) (visit_file files fuel name st).
Proof.
  revert name st. induction fuel as [|fuel IH]; intros name st Hinv Hs Hleads Hroom.
  { unfold room in Hroom. lia. }
  cbn [visit_file]. case_bool_decide as Hv; [split_and!; [done|done|set_solver|by intros n <-]|].
  case_bool_decide as Hi; [exists name; split; [by apply Hleads|done]|].
  destruct Hs as [file Hf]. rewrite Hf.
  set (st1 := mkVisit _ _ _).
  assert (visit_inv st1) as Hinv1.
  { split; simpl; [apply Hinv..| |].
    - intros n [Hn|Hn]; [apply (vi_known _ Hinv); by left|].
      apply elem_of_union in Hn as [->%elem_of_singleton|Hn]; [by rewrite Hf|].
      apply (vi_known _ Hinv). by right.
    - intros n [->%elem_of_singleton|Hn]%elem_of_union; [done|]. by apply (vi_disjoint _ Hinv). }
  assert (walked st1 (λ n, n ∈ file_dependency file ∧ is_Some (files !! n))
    (visit_deps files (visit_file files fuel) (file_dependency file) st1)) as Hw.
  { apply (visit_deps_walked _ fuel); [exact IH|done|by apply room_visit; [..|done]|].
    intros dep Hd Hsd v [->%elem_of_singleton|Hv']%elem_of_union.
    - apply tc_once. by exists file.
    - eapply tc_r; [by apply Hleads|]. by exists file. }
  destruct (visit_deps _ _ _ _) as [[st'|e]|]; [|done|done].
  destruct Hw as (Hinv' & Hvis & Hsub & Hdeps). simpl in *. split_and!.
  - by apply (visit_inv_close name file st st').
  - rewrite Hvis. set_solver.
  - set_solver.
  - intros n <-. set_solver.
Qed.

Lemma visit_all_walked names :
  walked (mkVisit ∅ ∅ []) (λ n, n ∈ names ∧ is_Some (files !! n))
    (visit_all files names (mkVisit ∅ ∅ [])).
Proof.
  apply (visit_deps_walked _ (visit_fuel files)).
  - intros name st. apply visit_file_walked.
  - split; simpl; [constructor|set_solver| | |set_solver].
    + intros [|? before] name after dep Heq; discriminate.
    + intros n [Hn%elem_of_nil|Hn]; [done|set_solver].
  - unfold room, visit_fuel. simpl. rewrite difference_empty_L, size_dom. lia.
  - intros dep _ _ v Hv. simpl in Hv. set_solver.
Qed.

(** An order with imports first excludes a cycle. *)
Lemma dependencies_first_acyclic l :
  dependencies_first l → NoDup l → (∀ n, is_Some (files !! n) → n ∈ l) → ∀ n, ¬ tc imports n n.
Proof.
  intros Hfirst Hnd Hall.
  assert (∀ a b, tc imports a b → ∀ before after, l = before ++ a :: after → b ∈ before) as Hbefore.
  { induction 1 as [a b Hab|a b c Hab _ IH]; intros before after Hl; [by eapply Hfirst|].
    assert (b ∈ before) as Hb by (by eapply Hfirst).
    apply list_elem_of_split in Hb as (l1 & l2 & ->).
    apply elem_of_app. left. apply (IH l1 (l2 ++ a :: after)). by rewrite <-app_assoc in Hl. }
  intros n Hn. assert (is_Some (files !! n)) as Hs.
  { by inversion Hn as [? ? (f & Hf & _)|? ? ? (f & Hf & _)]; eexists. }
  apply Hall in Hs. apply list_elem_of_split in Hs as (l1 & l2 & Hl).
  pose proof (Hbefore n n Hn l1 l2 Hl) as Hin. rewrite Hl in Hnd.
  apply NoDup_app in Hnd as (_ & Hd & _). apply (Hd n Hin). left.
Qed.
End facts.

(** ** The index *)

(** What indexing gives, or the first file it rejects. *)
Definition indexed (set : list FileDescriptorProto) (files : gmap string FileDescriptorProto) : Prop :=
  (∀ file, file ∈ set → ∃ name, indexed_name file = Some name ∧ files !! name = Some file) ∧
  (∀ name file, files !! name = Some file → file ∈ set ∧ indexed_name file = Some name) ∧
  NoDup (indexed_name <$> set).

Lemma index_files_spec set files0 :
  match index_files set files0 with
  | Ok files =>
      NoDup (indexed_name <$> set) ∧
      (∀ file, file ∈ set → ∃ name, indexed_name file = Some name ∧ files0 !! name = None ∧
         files !! name = Some file) ∧
      (∀ name file, files !! name = Some file →
         files0 !! name = Some file ∨ file ∈ set ∧ indexed_name file = Some name) ∧
      (∀ name file, files0 !! name = Some file → files !! name = Some file)
  | Err e =>
      (∃ file, file ∈ set ∧ indexed_name file = None ∧
         e = InvalidSchema "FileDescriptorSet file missing name") ∨
      (∃ name, Some name ∈ indexed_name <$> set ∧ is_Some (files0 !! name) ∧
         e = InvalidSchema ("FileDescriptorSet contains duplicate file " +:+ name)) ∨
      (∃ name, Some name ∈ indexed_name <$> set ∧ ¬ NoDup (indexed_name <$> set) ∧
         e = InvalidSchema ("FileDescriptorSet contains duplicate file " +:+ name))
  end.
Proof.
  revert files0. induction set as [|file set IH]; intros files0; cbn [index_files].
  { split_and!; [constructor|by intros ? ?%elem_of_nil|by left|done]. }
  destruct (indexed_name file) as [name|] eqn:Hname; cbn.
  2: { left. exists file. split_and!; [left|done|done]. }
  destruct (files0 !! name) as [other|] eqn:Hother.
  { right; left. exists name. rewrite Hname. split_and!; [left|by eexists|done]. }
  specialize (IH (<[name := file]> files0)).
  destruct (index_files set _) as [files|e].
  - destruct IH as (Hnd & Hin & Hout & Hkeep). split_and!.
    + rewrite Hname. constructor; [|done]. intros (f & Hf & Hfs)%list_elem_of_fmap.
      destruct (Hin f Hfs) as (n & Hn & Hnone & _). rewrite <-Hf in Hn. injection Hn as <-.
      by rewrite lookup_insert_eq in Hnone.
    + intros f [->|Hf]%elem_of_cons.
      * exists name. split_and!; [done|done|]. apply Hkeep. by rewrite lookup_insert_eq.
      * destruct (Hin f Hf) as (n & ? & Hnone & ?). exists n.
        apply lookup_insert_None in Hnone as [? _]. done.
    + intros n f Hn%Hout. destruct (decide (n = name)) as [->|Hne].
      * rewrite lookup_insert_eq in Hn. destruct Hn as [[= <-]|[Hf Hfn]].
        -- right. split; [left|done].
        -- right. split; [by right|done].
      * rewrite lookup_insert_ne in Hn by done. destruct Hn as [?|[Hf ?]]; [by left|].
        right. split; [by right|done].
    + intros n f Hn. apply Hkeep. rewrite lookup_insert_ne; [done|]. by intros ->; simplify_eq.
  - destruct IH as [(f & Hf & ? & ->)|[(n & Hn & Hs & ->)|(n & Hn & Hnd & ->)]].
    + left. exists f. split; [by right|done].
    + destruct (decide (n = name)) as [->|Hne].
      * right; right. exists name. rewrite Hname. split_and!; [left| |done]. intros [Hx _]%NoDup_cons. done.
      * rewrite lookup_insert_ne in Hs by done. right; left. exists n. split; [by right|done].
    + right; right. exists n. split_and!; [by right| |done]. by intros [_ ?]%NoDup_cons.
Qed.

(** Two indexes of one set are one. *)
Lemma indexed_unique set files files' : indexed set files → indexed set files' → files = files'.
Proof.
  intros (Ha & Hb & _) (Hc & Hd & _). apply map_eq. intros n. apply option_eq. intros f. split.
  - intros [Hf Hn]%Hb. destruct (Hc f Hf) as (n' & Hn' & Hl). by simplify_eq.
  - intros [Hf Hn]%Hd. destruct (Ha f Hf) as (n' & Hn' & Hl). by simplify_eq.
Qed.

(** C22: importing a descriptor set. The import always returns. It succeeds exactly when every
    file has a non-empty name of its own and no file of the set imports itself through others;
    then the index holds exactly the files of the set, and the order lists each of them once,
    after every file of the set it imports, so that each reference can be registered before it is
    needed. It fails only with the error of the defect the set has: a file without a name, a name
    that occurs twice, or a file that is on an import cycle of the set. *)
Theorem import_order_spec (set : list FileDescriptorProto) :
  ∃ r, import_new set = Some r ∧
  match r with
  | Ok imp =>
      indexed set (im_files imp) ∧
      (∀ name, name ∈ im_order imp ↔ is_Some (im_files imp !! name)) ∧ NoDup (im_order imp) ∧
      dependencies_first (im_files imp) (im_order imp)
  | Err e =>
      (∃ file, file ∈ set ∧ indexed_name file = None ∧
         e = InvalidSchema "FileDescriptorSet file missing name") ∨
      (∃ name, Some name ∈ indexed_name <$> set ∧ ¬ NoDup (indexed_name <$> set) ∧
         e = InvalidSchema ("FileDescriptorSet contains duplicate file " +:+ name)) ∨
      (∃ files name, indexed set files ∧ tc (imports files) name name ∧
         e = InvalidSchema ("FileDescriptorSet import cycle at " +:+ name))
  end ∧
  (is_Some (result_ok r) ↔
     (∀ file, file ∈ set → is_Some (indexed_name file)) ∧ NoDup (indexed_name <$> set) ∧
     ∀ files, indexed set files → ∀ name, ¬ tc (imports files) name name).
Proof.
  unfold import_new. pose proof (index_files_spec set ∅) as Hidx.
  destruct (index_files set ∅) as [files|e]; cbn.
  2: { exists (Err e). split; [done|].
       assert (∀ name, ¬ is_Some ((∅ : gmap string FileDescriptorProto) !! name)) as Hempty
         by (intros name; rewrite lookup_empty; by intros [? ?]).
       destruct Hidx as [(f & Hf & Hnone & ->)|[(n & _ & Hs & _)|(n & Hn & Hnd & ->)]];
         [|by destruct (Hempty n)|].
       - split; [by left; exists f|]. split; [by intros [? ?]|]. intros (Hall & _).
         destruct (Hall f Hf) as [? ?]. congruence.
       - split; [right; left; by exists n|]. split; [by intros [? ?]|]. by intros (_ & ? & _). }
  destruct Hidx as (Hnd & Hin & Hout & _).
  assert (indexed set files) as Hindexed.
  { split_and!; [|intros n f Hf; destruct (Hout n f Hf) as [Hx|?]; [by rewrite lookup_empty in Hx|done]|done].
    intros f Hf. destruct (Hin f Hf) as (n & ? & _ & ?). eauto. }
  pose proof (visit_all_walked files (btree_iter files).*1) as Hw.
  assert (∀ n, is_Some (files !! n) → n ∈ (btree_iter files).*1) as Hkeys.
  { intros n [f Hf]. apply list_elem_of_fmap. exists (n, f). split; [done|]. by apply elem_of_btree_iter. }
  destruct (visit_all _ _ _) as [[st|e]|]; cbn in *; [| |done].
  - destruct Hw as (Hinv & _ & _ & Hall).
    assert (∀ n, n ∈ vt_order st ↔ is_Some (files !! n)) as Hset.
    { intros n. split; [intros Hn; apply (vi_known _ _ Hinv); by left|].
      intros Hs. apply (vi_visited _ _ Hinv), Hall. auto. }
    eexists. split; [done|]. split; [cbn; split_and!; [done|done|apply Hinv|apply Hinv]|].
    split; [|done]. intros _. split_and!; [intros f Hf; destruct (Hin f Hf) as (n & ? & _); by eexists|done|].
    intros files' Hidx'. rewrite (indexed_unique _ _ _ Hidx' Hindexed).
    apply (dependencies_first_acyclic files (vt_order st)); [apply Hinv|apply Hinv|]. intros n. by apply Hset.
  - destruct Hw as (n & Hcycle & ->). eexists. split; [done|]. split; [right; right; by exists files, n|].
    split; [by intros [? ?]|]. intros (_ & _ & Hacyclic). by destruct (Hacyclic files Hindexed n).
Qed.

Definition bare_file (name : string) (dependency : list string) : FileDescriptorProto :=
  mkFile (Some name) None dependency [] [] [] None.

(** A diamond and a cycle. *)
Example import_diamond :
  option_map (option_map im_order ∘ result_ok) (import_new
    [bare_file "a" ["b"; "c"; "google/any.proto"]; bare_file "b" ["d"]; bare_file "c" ["d"]; bare_file "d" []]) =
  Some (Some ["d"; "b"; "c"; "a"]).
Proof. vm_compute. reflexivity. Qed.

Example import_cycle :
  import_new [bare_file "a" ["b"]; bare_file "b" ["a"]] =
  Some (Err (InvalidSchema "FileDescriptorSet import cycle at a")).
Proof. vm_compute. reflexivity. Qed.
