(* ===== verification/Client.v ===== *)
(** * The registry client's reference resolution
    (schema-serde/src/registry/mod.rs, error.rs, subject.rs)

    Subject naming, the client's errors, and the resolution of a schema's
    references to their sources, dependency first. The registry is a function
    from a subject and version to its answer. *)

From stdpp Require Import base gmap strings list relations pretty.
From Stdlib Require Import ZArith Lia.
From S2P Require Import Prelude Types.

(** ** Naming (subject.rs) *)

Inductive Role := Key | Value.
Inductive SchemaKind := KAvro | KProtobuf | KJson.

Definition kind_wire_name (k : SchemaKind) : option string :=
  match k with KAvro => None | KProtobuf => Some "PROTOBUF" | KJson => Some "JSON" end.

Definition from_wire_name (wire : option string) : SchemaKind :=
  match wire with
  | Some "PROTOBUF" => KProtobuf
  | Some "JSON" => KJson
  | _ => KAvro
  end.

(** [TopicNameStrategy::subject]. *)
Definition topic_subject (topic : string) (role : Role) : string :=
  match role with Key => topic +:+ "-key" | Value => topic +:+ "-value" end.

(** ** Errors (error.rs) *)

Inductive SchemaSerdeError :=
  | RegistryTransport (m : string)
  | RegistryStatus (status error_code : Z) (m : string)
  | RegistryDecode (m : string)
  | WireMalformed (m : string)
  | SerializeError (m : string)
  | DeserializeError (m : string)
  | SchemaError (m : string)
  | WriterSchemaPending (id : Z)
  | WriterSchemaUnavailable (id : Z) (reason : string).

Definition is_subject_not_found (e : SchemaSerdeError) : bool :=
  match e with RegistryStatus _ c _ => (c =? 40401)%Z | _ => false end.
Definition is_schema_not_found (e : SchemaSerdeError) : bool :=
  match e with RegistryStatus _ c _ => (c =? 40403)%Z | _ => false end.
Definition is_incompatible (e : SchemaSerdeError) : bool :=
  match e with RegistryStatus _ c _ => (c =? 409)%Z | _ => false end.

Definition is_transient_registry_failure (e : SchemaSerdeError) : bool :=
  match e with
  | RegistryTransport _ => true
  | RegistryStatus status _ _ => ((status =? 429) || (500 <=? status) && (status <=? 65535))%Z
  | _ => false
  end.

(** The [Display] of the errors. *)
Definition serde_error_message (e : SchemaSerdeError) : string :=
  match e with
  | RegistryTransport m => "registry transport failed: " +:+ m
  | RegistryStatus status error_code m =>
      "registry error " +:+ pretty status +:+ " (" +:+ pretty error_code +:+ "): " +:+ m
  | RegistryDecode m => "registry response decode failed: " +:+ m
  | WireMalformed m => "malformed wire frame: " +:+ m
  | SerializeError m => "serialize error: " +:+ m
  | DeserializeError m => "deserialize error: " +:+ m
  | SchemaError m => "schema error: " +:+ m
  | WriterSchemaPending id => "writer schema for id " +:+ pretty id +:+ " pending fetch"
  | WriterSchemaUnavailable id reason =>
      "writer schema for id " +:+ pretty id +:+ " unavailable: " +:+ reason
  end.

(** ** Answers (registry/mod.rs, registry/model.rs) *)

(** A response of the registry: its status and body, or why the body could not
    be read. *)
Record Response := mkResponse { rs_status : Z; rs_text : result string string }.

(** [RegistryClient::parse]; [read_error] and [decode] are serde_json's readings
    of an error body and of the answer. *)
Definition parse {R} (read_error : string → option (Z * string)) (decode : string → result string R)
    (resp : Response) : result SchemaSerdeError R :=
  match rs_text resp with
  | Err e => Err (RegistryTransport e)
  | Ok text =>
      if ((200 <=? rs_status resp) && (rs_status resp <? 300))%Z then
        match decode text with Ok r => Ok r | Err e => Err (RegistryDecode e) end
      else
        match read_error text with
        | Some (error_code, message) => Err (RegistryStatus (rs_status resp) error_code message)
        | None => Err (RegistryStatus (rs_status resp) (rs_status resp) text)
        end
  end.

Record SubjectVersionResponse := mkSubjectVersionResponse {
  sv_id : Z;
  sv_version : Z;
  sv_schema : string;
  sv_schema_type : option string;
  sv_message_type : option string;
  sv_references : list SchemaReference;
}.

Record SchemaByIdResponse := mkSchemaByIdResponse {
  sb_schema : string;
  sb_schema_type : option string;
  sb_message_type : option string;
  sb_references : list SchemaReference;
}.

(** ** Reference sources (registry/mod.rs) *)

Record FetchedSchema := mkFetched {
  fs_schema : string;
  fs_kind : SchemaKind;
  fs_message_type : option string;
  fs_references : list SchemaReference;
}.

(** [schema_by_id] and [schema_by_subject_version] on the decoded answer. *)
Definition fetched_by_id (r : SchemaByIdResponse) : FetchedSchema :=
  mkFetched (sb_schema r) (from_wire_name (sb_schema_type r)) (sb_message_type r) (sb_references r).
Definition fetched_by_version (r : SubjectVersionResponse) : FetchedSchema :=
  mkFetched (sv_schema r) (from_wire_name (sv_schema_type r)) (sv_message_type r) (sv_references r).

Definition MAX_REFERENCE_DEPTH : nat := 64.

Definition reference_key (r : SchemaReference) : string * Z := (ref_subject r, ref_version r).

(** The three collections of [resolve_reference_sources]. *)
Record Sources := mkSources {
  so_sources : gmap string string;
  so_order : list string;
  so_resolving : gset (string * Z);
}.

Section resolve.
Context (fetch : string → Z → result SchemaSerdeError FetchedSchema).

(** The loop over the references; [recur] is the call one level deeper. *)
Fixpoint resolve_sources (recur : list SchemaReference → Sources → result SchemaSerdeError Sources)
    (references : list SchemaReference) (st : Sources) : result SchemaSerdeError Sources :=
  match references with
  | [] => Ok st
  | reference :: rest =>
      if bool_decide (is_Some (so_sources st !! ref_name reference)) then resolve_sources recur rest st
      else if bool_decide (reference_key reference ∈ so_resolving st) then
        Err (SchemaError ("cyclic schema reference at " +:+ ref_subject reference +:+ " version " +:+
                          pretty (ref_version reference)))
      else
        referenced ← fetch (ref_subject reference) (ref_version reference);
        st' ← recur (fs_references referenced)
                (mkSources (so_sources st) (so_order st) ({[ reference_key reference ]} ∪ so_resolving st));
        resolve_sources recur rest
          (mkSources (<[ ref_name reference := fs_schema referenced ]> (so_sources st'))
             (so_order st' ++ [ref_name reference]) (so_resolving st' ∖ {[ reference_key reference ]}))
  end.

(** [resolve_reference_sources] with [MAX_REFERENCE_DEPTH - depth] levels left:
    the code's own bound on the recursion. *)
Fixpoint resolve_reference_sources (levels : nat) (references : list SchemaReference) (st : Sources)
    : result SchemaSerdeError Sources :=
  match levels with
  | O => Err (SchemaError ("schema reference depth exceeds " +:+ pretty MAX_REFERENCE_DEPTH))
  | S levels' => resolve_sources (resolve_reference_sources levels') references st
  end.

Definition reference_sources_ordered (references : list SchemaReference)
    : result SchemaSerdeError (gmap string string * list string) :=
  st ← resolve_reference_sources MAX_REFERENCE_DEPTH references (mkSources ∅ [] ∅);
  Ok (so_sources st, so_order st).

Definition reference_sources (references : list SchemaReference)
    : result SchemaSerdeError (gmap string string) :=
  '(sources, _) ← reference_sources_ordered references; Ok sources.

(** ** What the resolution gives *)

(** A reference the roots lead to, through the registry's answers. *)
Inductive leads (roots : list SchemaReference) : SchemaReference → Prop :=
  | leads_root r : r ∈ roots → leads roots r
  | leads_step r f r' : leads roots r → fetch (ref_subject r) (ref_version r) = Ok f →
      r' ∈ fs_references f → leads roots r'.

(** One version's schema references another's. *)
Definition refers (k k' : string * Z) : Prop :=
  ∃ f r, fetch k.1 k.2 = Ok f ∧ r ∈ fs_references f ∧ k' = reference_key r.

(** Each occurrence of a name in the order stands for a reference of that name,
    comes after every name that reference's schema needs, and the last one is
    the one whose source is kept. *)
Definition dependency_first (roots : list SchemaReference) (sources : gmap string string)
    (order : list string) : Prop :=
  ∀ before name after, order = before ++ name :: after →
    ∃ r f, leads roots r ∧ ref_name r = name ∧ fetch (ref_subject r) (ref_version r) = Ok f ∧
      (∀ r', r' ∈ fs_references f → ref_name r' ∈ before) ∧
      (name ∉ after → sources !! name = Some (fs_schema f)).

(** The references under the roots use one name for one version only. *)
Definition consistent (roots : list SchemaReference) : Prop :=
  ∀ r r', leads roots r → leads roots r' → ref_name r = ref_name r' →
    reference_key r = reference_key r'.

Record sources_inv (roots : list SchemaReference) (st : Sources) : Prop := {
  si_names : ∀ n, n ∈ so_order st ↔ is_Some (so_sources st !! n);
  si_first : dependency_first roots (so_sources st) (so_order st);
  si_nodup : consistent roots → NoDup (so_order st);
}.

(** Why a resolution fails: the registry refused a reference, a version
    references itself, or the references nest 64 deep. *)
Inductive failure (roots : list SchemaReference) : SchemaSerdeError → Prop :=
  | failed_fetch r e : leads roots r → fetch (ref_subject r) (ref_version r) = Err e →
      failure roots e
  | failed_cycle r : leads roots r → tc refers (reference_key r) (reference_key r) →
      failure roots (SchemaError ("cyclic schema reference at " +:+ ref_subject r +:+ " version " +:+
                                  pretty (ref_version r)))
  | failed_depth r k f : r ∈ roots → nsteps refers (MAX_REFERENCE_DEPTH - 1) (reference_key r) k →
      fetch k.1 k.2 = Ok f →
      failure roots (SchemaError ("schema reference depth exceeds " +:+ pretty MAX_REFERENCE_DEPTH)).

(** ** The walk *)

(** A call of the resolution at [depth], on references the versions being
    resolved all lead to. *)
Record position (roots : list SchemaReference) (depth : nat) (references : list SchemaReference)
    (st : Sources) : Prop := {
  pos_leads : ∀ r, r ∈ references → leads roots r;
  pos_chain : ∀ r k, r ∈ references → k ∈ so_resolving st → tc refers k (reference_key r);
  pos_steps : ∀ r, r ∈ references →
    ∃ r0, r0 ∈ roots ∧ nsteps refers depth (reference_key r0) (reference_key r);
  pos_deep : ∀ d, depth = S d → ∃ r0 k f, r0 ∈ roots ∧
    nsteps refers d (reference_key r0) k ∧ fetch k.1 k.2 = Ok f;
}.

Definition resolved (roots references : list SchemaReference) (st : Sources)
    (r : result SchemaSerdeError Sources) : Prop :=
  match r with
  | Ok st' => sources_inv roots st' ∧ so_resolving st' = so_resolving st ∧
      so_order st `prefix_of` so_order st' ∧
      (∀ x, x ∈ references → ref_name x ∈ so_order st') ∧
      (∀ n, n ∈ so_order st' → n ∈ so_order st ∨
         ∃ x, leads roots x ∧ ref_name x = n ∧ reference_key x ∉ so_resolving st)
  | Err e => failure roots e
  end.

Context (roots : list SchemaReference).

Lemma push_inv r f st :
  sources_inv roots st → leads roots r → fetch (ref_subject r) (ref_version r) = Ok f →
  (∀ r', r' ∈ fs_references f → ref_name r' ∈ so_order st) →
  (consistent roots → ref_name r ∉ so_order st) → ∀ res,
  sources_inv roots (mkSources (<[ ref_name r := fs_schema f ]> (so_sources st))
                               (so_order st ++ [ref_name r]) res).
Proof.
  intros [Hn Hf Hd] Hl Hfe Hr Hnew res. split; cbn.
  - intros n. rewrite elem_of_app, list_elem_of_singleton, lookup_insert_is_Some', Hn.
    naive_solver.
  - intros before name after Heq.
    destruct after as [|x after _] using rev_ind.
    + apply app_inj_tail in Heq as [<- Heq]. subst name. exists r, f. rewrite lookup_insert_eq. auto 6.
    + rewrite app_comm_cons, (assoc app) in Heq. apply app_inj_tail in Heq as [Heq Hx]. subst x.
      destruct (Hf _ _ _ Heq) as (r0 & f0 & ? & ? & ? & ? & Hs).
      exists r0, f0. repeat split; auto. intros Hna.
      rewrite lookup_insert_ne by (intros Heqn; rewrite Heqn in Hna; apply Hna, elem_of_app; right; apply list_elem_of_here).
      apply Hs. intros ?. apply Hna, elem_of_app. by left.
  - intros Hc. apply NoDup_app. split; [by apply Hd|]. split; [|apply NoDup_singleton].
    intros n Hin Heq%list_elem_of_singleton. subst n. by apply (Hnew Hc).
Qed.

(** Entering a reference goes one level deeper. *)
Lemma position_enter depth references st r f :
  position roots depth references st → r ∈ references →
  fetch (ref_subject r) (ref_version r) = Ok f →
  position roots (S depth) (fs_references f)
    (mkSources (so_sources st) (so_order st) ({[ reference_key r ]} ∪ so_resolving st)).
Proof.
  intros [Hl Hc Hs Hd] Hr Hf.
  assert (Hstep : ∀ r', r' ∈ fs_references f → refers (reference_key r) (reference_key r'))
    by (intros r' ?; exists f, r'; auto).
  split; cbn.
  - intros r' ?. eapply leads_step; eauto.
  - intros r' k Hr' [->%elem_of_singleton|Hk]%elem_of_union; [by apply tc_once, Hstep|].
    eapply tc_r; [by apply Hc|by apply Hstep].
  - intros r' Hr'. destruct (Hs r Hr) as (r0 & ? & ?). exists r0. split; [done|].
    eapply nsteps_r; [done|by apply Hstep].
  - intros d [= <-]. destruct (Hs r Hr) as (r0 & ? & ?). by exists r0, (reference_key r), f.
Qed.

(** What remains of the loop after a step keeps what the step established. *)
Lemma resolved_rest r rest st st1 res :
  resolved roots rest st1 res → so_resolving st1 = so_resolving st →
  so_order st `prefix_of` so_order st1 → ref_name r ∈ so_order st1 →
  (∀ n, n ∈ so_order st1 → n ∈ so_order st ∨
     ∃ x, leads roots x ∧ ref_name x = n ∧ reference_key x ∉ so_resolving st) →
  resolved roots (r :: rest) st res.
Proof.
  destruct res as [st2|e]; cbn; [|done].
  intros (Hi & Hres & Hpre & Hall & Hnew) E Hp1 Hr Hn1.
  split_and!; [done|congruence|by etrans| |].
  - intros x [->|Hx]%elem_of_cons; [|by apply Hall]. by apply (elem_of_prefix (so_order st1)).
  - intros n Hn. destruct (Hnew n Hn) as [Hin|(x & ? & ? & Hx)]; [by apply Hn1|].
    right. exists x. by rewrite <- E.
Qed.

Lemma resolve_sources_resolved recur depth :
  (∀ refs st, position roots (S depth) refs st → sources_inv roots st →
     resolved roots refs st (recur refs st)) →
  ∀ references st, position roots depth references st → sources_inv roots st →
    resolved roots references st (resolve_sources recur references st).
Proof.
  intros Hrec references. induction references as [|r rest IH]; intros st Hp Hi.
  { split_and!; auto. intros x Hx. by apply not_elem_of_nil in Hx. }
  assert (Hrest : ∀ st', so_resolving st' = so_resolving st → position roots depth rest st').
  { intros st' E. destruct Hp as [Hl Hc Hs Hd]. split; rewrite ?E; auto using list_elem_of_further. }
  pose proof (list_elem_of_here r rest) as Hr. pose proof (pos_leads _ _ _ _ Hp r Hr) as Hl.
  cbn [resolve_sources]. case_bool_decide as Hkn.
  { eapply (resolved_rest r rest st st); auto. by apply (si_names _ _ Hi). }
  case_bool_decide as Hcyc.
  { apply (failed_cycle roots r Hl), (pos_chain _ _ _ _ Hp r _ Hr Hcyc). }
  destruct (fetch (ref_subject r) (ref_version r)) as [f|e] eqn:Hf;
    [|by apply (failed_fetch roots r)].
  cbn [mbind result_bind].
  pose proof (Hrec _ _ (position_enter _ _ _ _ _ Hp Hr Hf) ltac:(by destruct Hi)) as Hin.
  destruct (recur (fs_references f) _) as [st1|e]; [|done].
  destruct Hin as (Hi1 & Hres1 & Hpre1 & Hall1 & Hnew1); cbn in *.
  assert (Hback : so_resolving st1 ∖ {[ reference_key r ]} = so_resolving st)
    by (rewrite Hres1; set_solver).
  eapply resolved_rest; [apply IH; [by apply Hrest|]|done| | |]; cbn.
  - apply push_inv; auto. intros Hc Hin. destruct (Hnew1 _ Hin) as [Hold|(x & Hx & Hnx & Hk)].
    + by apply Hkn, (si_names _ _ Hi).
    + apply Hk. rewrite (Hc x r); auto. set_solver.
  - by apply prefix_app_r.
  - apply elem_of_app. right. apply list_elem_of_here.
  - intros n [Hn|Heq%list_elem_of_singleton]%elem_of_app.
    + destruct (Hnew1 n Hn) as [|(x & ? & ? & Hk)]; [by left|]. right. exists x. set_solver.
    + right. by exists r.
Qed.

Lemma resolve_reference_sources_resolved levels : ∀ depth references st,
  (levels + depth = MAX_REFERENCE_DEPTH)%nat →
  position roots depth references st → sources_inv roots st →
  resolved roots references st (resolve_reference_sources levels references st).
Proof.
  induction levels as [|levels IH]; intros depth references st Hd Hp Hi.
  - destruct (pos_deep _ _ _ _ Hp 63 Hd) as (r0 & k & f & ? & ? & ?).
    by apply (failed_depth roots r0 k f).
  - apply (resolve_sources_resolved _ depth); [|done..].
    intros refs st' Hp' Hi'. apply (IH (S depth)); [lia|done..].
Qed.

(** C23: resolving a schema's references either returns sources and an order
    that hold exactly the same names, in which every requested name occurs, every
    name comes after all the names its own schema references and has the text
    the registry gave for it, and no name repeats when the references use a name for
    one version only; or it fails for a reason that is there: a reference the
    roots lead to that the registry answers with that error, a version that
    (transitively) references itself, or references nested 64 deep. *)
Theorem reference_sources_spec :
  match reference_sources_ordered roots with
  | Ok (sources, order) =>
      (∀ n, n ∈ order ↔ is_Some (sources !! n)) ∧
      (∀ r, r ∈ roots → ref_name r ∈ order) ∧
      dependency_first roots sources order ∧
      (consistent roots → NoDup order)
  | Err e => failure roots e
  end.
Proof.
  pose proof (resolve_reference_sources_resolved MAX_REFERENCE_DEPTH 0 roots (mkSources ∅ [] ∅)
                eq_refl) as H.
  unfold reference_sources_ordered.
  assert (Hp : position roots 0 roots (mkSources ∅ [] ∅)).
  { split; cbn; [by constructor|set_solver| |done].
    intros r Hr. exists r. split; [done|constructor]. }
  assert (Hi : sources_inv roots (mkSources ∅ [] ∅)).
  { split; cbn; [|by intros [|? ?] ? ? [=]|constructor].
    intros n. rewrite lookup_empty, is_Some_alt. split; [by intros ?%not_elem_of_nil|done]. }
  specialize (H Hp Hi).
  destruct (resolve_reference_sources _ roots _) as [st|e]; cbn in *; [|done].
  destruct H as ([Hn Hf Hd] & _ & _ & Hall & _). auto.
Qed.
End resolve.

(** ** The resolution on small registries *)

Section examples.
Let ref n s := mkSchemaReference n s 1.
Let text t rs : result SchemaSerdeError FetchedSchema := Ok (mkFetched t KAvro None rs).
Let missing : result SchemaSerdeError FetchedSchema := Err (RegistryStatus 404 40401 "gone").

(** A diamond: [a] needs [b] and [c], which both need [d]. *)
Let diamond (s : string) (_ : Z) :=
  match s with
  | "A" => text "ta" [ref "b" "B"; ref "c" "C"]
  | "B" => text "tb" [ref "d" "D"]
  | "C" => text "tc" [ref "d" "D"]
  | "D" => text "td" []
  | _ => missing
  end.

Example reference_diamond :
  snd <$> result_ok (reference_sources_ordered diamond [ref "a" "A"]) = Some ["d"; "b"; "c"; "a"].
Proof. vm_compute. reflexivity. Qed.

Let loop (s : string) (_ : Z) :=
  match s with
  | "A" => text "ta" [ref "b" "B"]
  | "B" => text "tb" [ref "a" "A"]
  | _ => missing
  end.

Example reference_loop :
  reference_sources_ordered loop [ref "x" "A"]
  = Err (SchemaError "cyclic schema reference at A version 1").
Proof. vm_compute. reflexivity. Qed.

(** A nested reference under the name of the one being resolved: the name is
    listed twice, and both occurrences have the outer schema's text. *)
Let shadowing (s : string) (_ : Z) :=
  match s with
  | "A" => text "ta" [ref "n" "B"]
  | "B" => text "tb" []
  | _ => missing
  end.

Example reference_order_repeats :
  (λ p, (p.2, p.1 !! "n")) <$> result_ok (reference_sources_ordered shadowing [ref "n" "A"])
  = Some (["n"; "n"], Some "ta").
Proof. vm_compute. reflexivity. Qed.
End examples.
