(* ===== verification/Cache.v ===== *)
(** * The client's schema cache (schema-serde/src/cache.rs)

    The cache behind the serializers: local schemas interned for pre-warm, the
    writer schemas fetched in the background on a cold read, and the back-off
    after a failed fetch. A fetch runs as a task: a read starts it, and its end
    is a step of its own, so any reads, pre-warms and seeds may come between. *)

From stdpp Require Import base gmap strings list sorting pretty.
From Stdlib Require Import ZArith Lia SpecFloat.
From S2P Require Import Prelude Float Types Client.

Open Scope Z_scope.

(** ** Durations: whole nanoseconds, [u64] seconds at most *)

Definition NANOS : Z := 1000000000.
Definition DURATION_MAX : Z := (2 ^ 64 - 1) * NANOS + (NANOS - 1).

Definition checked_mul (d n : Z) : option Z := if d * n <=? DURATION_MAX then Some (d * n) else None.
Definition checked_add (d e : Z) : option Z := if d + e <=? DURATION_MAX then Some (d + e) else None.

(** [m / 2^k] rounded to the nearest integer, ties to even. *)
Definition round_half_even (m k : Z) : Z :=
  let q := m / 2 ^ k in
  let r := 2 * (m mod 2 ^ k) in
  if (r <? 2 ^ k) || ((r =? 2 ^ k) && Z.even q) then q else q + 1.

(** [Duration::try_from_secs_f64]. *)
Definition try_from_secs_f64 (s : spec_float) : result string Z :=
  match s with
  | S754_zero _ => Ok 0
  | S754_finite false m e =>
      if (0 <=? e) then
        if Z.pos m * 2 ^ e <? 2 ^ 64 then Ok (Z.pos m * 2 ^ e * NANOS)
        else Err "cannot convert float seconds to Duration: value is either too big or NaN"
      else if Z.pos m <? 2 ^ (64 - e) then Ok (round_half_even (Z.pos m * NANOS) (- e))
      else Err "cannot convert float seconds to Duration: value is either too big or NaN"
  | S754_finite true _ _ | S754_infinity true =>
      Err "cannot convert float seconds to Duration: value is negative"
  | _ => Err "cannot convert float seconds to Duration: value is either too big or NaN"
  end.

Definition as_secs_f64 (d : Z) : spec_float :=
  SFadd 53 1024 (f64_of_Z (d / NANOS))
    (SFdiv 53 1024 (f64_of_Z (d mod NANOS)) (f64_of_Z NANOS)).

(** [Duration::mul_f64]; [None] is its panic. *)
Definition mul_f64 (d : Z) (f : spec_float) : option Z :=
  result_ok (try_from_secs_f64 (SFmul 53 1024 f (as_secs_f64 d))).

(** [Instant + Duration]; [None] is its panic, past [i64] seconds. *)
Definition instant_add (now d : Z) : option Z :=
  if now + d <? 2 ^ 63 * NANOS then Some (now + d) else None.

(** ** Retry policy *)

(** What krabka-units gives for a [Time]. *)
Class TimeUnits := {
  Time : Type;
  secs_f64 : Time → spec_float;
  human : Time → string;
}.

Section policy.
Context `{TimeUnits}.

Record SchemaFetchRetryPolicy := mkPolicy { initial_backoff : Time; max_backoff : Time }.

Definition validated_duration (label : string) (value : Time) : result string Z :=
  match try_from_secs_f64 (secs_f64 value) with
  | Err error => Err (label +:+ ": " +:+ error)
  | Ok duration =>
      if duration =? 0 then Err (label +:+ " must be greater than zero") else Ok duration
  end.

Definition policy_new (initial_backoff max_backoff : Time) : result string SchemaFetchRetryPolicy :=
  initial ← validated_duration "initial schema fetch retry backoff" initial_backoff;
  max ← validated_duration "maximum schema fetch retry backoff" max_backoff;
  if max <? initial then
    Err ("initial schema fetch retry backoff (" +:+ human initial_backoff
         +:+ ") must not exceed the maximum (" +:+ human max_backoff +:+ ")")
  else Ok (mkPolicy initial_backoff max_backoff).

(** The two durations [retry_delay] starts from. *)
Definition policy_durations (p : SchemaFetchRetryPolicy) : option (Z * Z) :=
  initial ← result_ok (try_from_secs_f64 (secs_f64 (initial_backoff p)));
  max ← result_ok (try_from_secs_f64 (secs_f64 (max_backoff p)));
  Some (initial, max).

Definition retry_exponent (attempt : Z) : Z := Z.max 0 (attempt - 1) `min` 7.

Definition exponential_delay (initial max attempt : Z) : Z :=
  let multiplier := Z.shiftl 1 (retry_exponent attempt) in
  default max (checked_mul initial multiplier) `min` max.

Definition jitter_percent (id : Z) : Z := (id * 1103515245) mod 2 ^ 32 mod 26.

(** [delay] with [percent] of it added, at most [max]. *)
Definition add_jitter (max delay percent : Z) : option Z :=
  jitter ← mul_f64 delay (SFdiv 53 1024 (f64_of_Z percent) (f64_of_Z 100));
  Some (default max (checked_add delay jitter) `min` max).

Definition retry_delay (p : SchemaFetchRetryPolicy) (id attempt : Z) : option Z :=
  '(initial, max) ← policy_durations p;
  add_jitter max (exponential_delay initial max attempt) (jitter_percent id).
End policy.

(** ** State *)

Record WriterSchema := mkWriter {
  ws_schema : string;
  ws_references : gmap string string;
  ws_reference_order : list string;
}.

Inductive RegisterMode := AutoRegister | LookupOnly | UseLatest.

Record Interned := mkInterned {
  in_subject : string;
  in_kind : SchemaKind;
  in_schema : string;
  in_references : list SchemaReference;
  in_message_type : option string;
}.

#[global] Instance SchemaKind_eq_dec : EqDecision SchemaKind.
Proof. solve_decision. Defined.
#[global] Instance Interned_eq_dec : EqDecision Interned.
Proof. solve_decision. Defined.

Record Inner := mkInner {
  subject_id : gmap string Z;
  id_writer_schema : gmap Z WriterSchema;
  id_message_type : gmap Z string;
  interned : list Interned;
  fetching : gset Z;
  unavailable_schemas : gmap Z string;
  retry_after : gmap Z Z;
  retry_attempts : gmap Z Z;
}.

(** The process-wide default cache, a [OnceLock]: the first call wins. *)
Definition set_default_registry {C} (cache : C) (current : option C) : option C :=
  match current with Some c => Some c | None => Some cache end.

Definition inner_default : Inner := mkInner ∅ ∅ ∅ [] ∅ ∅ ∅ ∅.

(** ** The registry, as the client sees it *)

Record RegistryApi := mkApi {
  api_register : string → SchemaKind → string → list SchemaReference → option string →
    result SchemaSerdeError Z;
  api_lookup : string → SchemaKind → string → list SchemaReference → option string →
    result SchemaSerdeError Z;
  api_latest : string → result SchemaSerdeError SubjectVersionResponse;
  api_schema_by_id : Z → result SchemaSerdeError FetchedSchema;
  api_by_version : string → Z → result SchemaSerdeError FetchedSchema;
}.

Definition resolve_writer_schema (api : RegistryApi) (id : Z)
    : result SchemaSerdeError (WriterSchema * option string) :=
  root ← api_schema_by_id api id;
  '(sources, reference_order) ← reference_sources_ordered (api_by_version api) (fs_references root);
  Ok (mkWriter (fs_schema root) sources reference_order, fs_message_type root).

(** ** Comparing a local schema with the registry's *)

(** The order of the tuples [(name, subject, version)]. *)
Definition reference_leb (a b : SchemaReference) : bool :=
  if bool_decide (ref_name a = ref_name b) then
    if bool_decide (ref_subject a = ref_subject b) then ref_version a <=? ref_version b
    else String.leb (ref_subject a) (ref_subject b)
  else String.leb (ref_name a) (ref_name b).

Definition references_equivalent (left right : list SchemaReference) : bool :=
  bool_decide (sort_by reference_leb left = sort_by reference_leb right).

Section cache.
(** serde_json's reading of a text and protox's, without source positions. *)
Context {V : Type} `{EqDecision V} (json_of : string → option V).
Context {D : Type} `{EqDecision D} (proto_of : string → option D).

Definition parsed_eq {A} `{EqDecision A} (parse_text : string → option A) (left right : string) : bool :=
  match parse_text left, parse_text right with
  | Some l, Some r => bool_decide (l = r)
  | _, _ => false
  end.

Definition schemas_equivalent (kind : SchemaKind) (left right : string) : bool :=
  if bool_decide (left = right) then true
  else
    match kind with
    | KAvro | KJson => parsed_eq json_of left right
    | KProtobuf => parsed_eq proto_of left right
    end.

(** ** Interning and pre-warm *)

Definition intern (i : Interned) (g : Inner) : Inner :=
  if bool_decide (i ∈ interned g) then g
  else mkInner (subject_id g) (id_writer_schema g) (id_message_type g) (interned g ++ [i])
         (fetching g) (unavailable_schemas g) (retry_after g) (retry_attempts g).

Definition kind_debug (k : SchemaKind) : string :=
  match k with KAvro => "Avro" | KProtobuf => "Protobuf" | KJson => "Json" end.

(** The latest version may not stand for the local schema. *)
Definition latest_differs (i : Interned) (latest : SubjectVersionResponse) : bool :=
  negb (schemas_equivalent (in_kind i) (sv_schema latest) (in_schema i))
  || negb (bool_decide (from_wire_name (sv_schema_type latest) = in_kind i))
  || negb (references_equivalent (sv_references latest) (in_references i))
  || match sv_message_type latest with
     | Some message_type => negb (bool_decide (in_message_type i = Some message_type))
     | None => false
     end.

(** One interned schema resolved by the mode: its id, writer schema and message type. *)
Definition prewarm_entry (api : RegistryApi) (mode : RegisterMode) (i : Interned)
    : result SchemaSerdeError (Z * WriterSchema * option string) :=
  match mode with
  | AutoRegister =>
      id ← api_register api (in_subject i) (in_kind i) (in_schema i) (in_references i) (in_message_type i);
      '(references, order) ← reference_sources_ordered (api_by_version api) (in_references i);
      Ok (id, mkWriter (in_schema i) references order, in_message_type i)
  | LookupOnly =>
      id ← api_lookup api (in_subject i) (in_kind i) (in_schema i) (in_references i) (in_message_type i);
      '(references, order) ← reference_sources_ordered (api_by_version api) (in_references i);
      Ok (id, mkWriter (in_schema i) references order, in_message_type i)
  | UseLatest =>
      latest ← api_latest api (in_subject i);
      if latest_differs i latest then
        Err (SchemaError ("latest schema for " +:+ in_subject i +:+ " differs from the local "
                          +:+ kind_debug (in_kind i) +:+ " schema"))
      else
        '(references, order) ← reference_sources_ordered (api_by_version api) (sv_references latest);
        Ok (sv_id latest, mkWriter (sv_schema latest) references order, sv_message_type latest)
  end.

Definition insert_message_type (id : Z) (message_type : option string) (m : gmap Z string) : gmap Z string :=
  match message_type with Some t => <[ id := t ]> m | None => m end.

(** What pre-warm writes under the lock for one entry. *)
Definition prewarm_install (subject : string) (id : Z) (w : WriterSchema) (message_type : option string)
    (g : Inner) : Inner :=
  mkInner (<[ subject := id ]> (subject_id g)) (<[ id := w ]> (id_writer_schema g))
    (insert_message_type id message_type (id_message_type g)) (interned g)
    (fetching g) (unavailable_schemas g) (retry_after g) (retry_attempts g).

(** The loop of [prewarm]: an error leaves what the earlier entries installed. *)
Fixpoint prewarm_all (api : RegistryApi) (mode : RegisterMode) (pending : list Interned) (g : Inner)
    : Inner * result SchemaSerdeError unit :=
  match pending with
  | [] => (g, Ok ())
  | i :: rest =>
      match prewarm_entry api mode i with
      | Err e => (g, Err e)
      | Ok (id, w, message_type) =>
          prewarm_all api mode rest (prewarm_install (in_subject i) id w message_type g)
      end
  end.

Definition prewarm (api : RegistryApi) (mode : RegisterMode) (g : Inner)
    : Inner * result SchemaSerdeError unit :=
  prewarm_all api mode (interned g) g.

(** ** Reads, and the task a cold read starts *)

Definition id_for_subject (g : Inner) (subject : string) : option Z := subject_id g !! subject.

(** [writer_schema_with_references]: the answer, the new state, and the id whose
    fetch is spawned. *)
Definition writer_schema_with_references (id now : Z) (g : Inner)
    : result SchemaSerdeError WriterSchema * Inner * option Z :=
  match id_writer_schema g !! id with
  | Some w => (Ok w, g, None)
  | None =>
      match unavailable_schemas g !! id with
      | Some reason => (Err (WriterSchemaUnavailable id reason), g, None)
      | None =>
          if match retry_after g !! id with Some t => now <? t | None => false end then
            (Err (WriterSchemaPending id), g, None)
          else if bool_decide (id ∈ fetching g) then (Err (WriterSchemaPending id), g, None)
          else
            (Err (WriterSchemaPending id),
             mkInner (subject_id g) (id_writer_schema g) (id_message_type g) (interned g)
               ({[ id ]} ∪ fetching g) (unavailable_schemas g) (retry_after g) (retry_attempts g),
             Some id)
      end
  end.

Definition writer_schema (id now : Z) (g : Inner) : result SchemaSerdeError string * Inner * option Z :=
  let '(r, g', task) := writer_schema_with_references id now g in
  (w ← r; Ok (ws_schema w), g', task).

Context `{TimeUnits} (policy : SchemaFetchRetryPolicy).

Definition next_attempt (id : Z) (g : Inner) : Z :=
  match retry_attempts g !! id with Some n => (n + 1) `min` (2 ^ 32 - 1) | None => 1 end.

(** The end of the spawned task; [None] is a panic under the lock. *)
Definition finish_fetch (id : Z) (fetched : result SchemaSerdeError (WriterSchema * option string))
    (now : Z) (g : Inner) : option Inner :=
  match fetched with
  | Ok (w, message_type) =>
      Some (mkInner (subject_id g) (<[ id := w ]> (id_writer_schema g))
              (insert_message_type id message_type (id_message_type g)) (interned g)
              (fetching g ∖ {[ id ]}) (delete id (unavailable_schemas g))
              (delete id (retry_after g)) (delete id (retry_attempts g)))
  | Err error =>
      if is_transient_registry_failure error then
        delay ← retry_delay policy id (next_attempt id g);
        deadline ← instant_add now delay;
        Some (mkInner (subject_id g) (id_writer_schema g) (id_message_type g) (interned g)
                (fetching g ∖ {[ id ]}) (unavailable_schemas g)
                (<[ id := deadline ]> (retry_after g))
                (<[ id := next_attempt id g ]> (retry_attempts g)))
      else
        Some (mkInner (subject_id g) (id_writer_schema g) (id_message_type g) (interned g)
                (fetching g ∖ {[ id ]}) (<[ id := serde_error_message error ]> (unavailable_schemas g))
                (delete id (retry_after g)) (delete id (retry_attempts g)))
  end.

(** ** Seeds *)

Definition seed_writer_schema_with_ordered_references (id : Z) (schema : string)
    (references : list (string * string)) (g : Inner) : Inner :=
  mkInner (subject_id g)
    (<[ id := mkWriter schema (list_to_map (reverse references)) references.*1 ]> (id_writer_schema g))
    (id_message_type g) (interned g) (fetching g) (delete id (unavailable_schemas g))
    (delete id (retry_after g)) (delete id (retry_attempts g)).

Definition seed_writer_schema_with_references (id : Z) (schema : string)
    (references : gmap string string) (g : Inner) : Inner :=
  seed_writer_schema_with_ordered_references id schema (btree_iter references) g.

Definition seed_writer_schema (id : Z) (schema : string) (g : Inner) : Inner :=
  seed_writer_schema_with_references id schema ∅ g.

Definition writer_message_type (id : Z) (g : Inner) : option string := id_message_type g !! id.

Definition seed_writer_message_type (id : Z) (message_type : string) (g : Inner) : Inner :=
  mkInner (subject_id g) (id_writer_schema g) (<[ id := message_type ]> (id_message_type g))
    (interned g) (fetching g) (unavailable_schemas g) (retry_after g) (retry_attempts g).

Definition seed_subject_id (subject : string) (id : Z) (g : Inner) : Inner :=
  mkInner (<[ subject := id ]> (subject_id g)) (id_writer_schema g) (id_message_type g)
    (interned g) (fetching g) (unavailable_schemas g) (retry_after g) (retry_attempts g).
End cache.
