(* ===== verification/CacheFacts.v ===== *)
(** * Properties of the client's schema cache

    Runs of the cache as sequences of events, with the list of fetch tasks in
    flight beside the state: one fetch per id, the back-off after a failure, the
    retry delays, and what pre-warm leaves behind. *)

From stdpp Require Import base gmap strings list sorting.
From Stdlib Require Import ZArith Lia SpecFloat.
From S2P Require Import Prelude Float Types Client Cache.

Open Scope Z_scope.

(** ** Runs *)

Inductive cache_event :=
  | EvRead (id now : Z)
  | EvFinish (id : Z) (fetched : result SchemaSerdeError (WriterSchema * option string)) (now : Z)
  | EvIntern (i : Interned)
  | EvInstall (subject : string) (id : Z) (w : WriterSchema) (message_type : option string)
  | EvSeedWriter (id : Z) (schema : string) (references : list (string * string))
  | EvSeedMessageType (id : Z) (message_type : string)
  | EvSeedSubject (subject : string) (id : Z).

(** The cache and the ids of the fetch tasks that are running. *)
Definition cache_state : Type := Inner * list Z.

(** The tasks without the first one of [id]. *)
Fixpoint end_task (id : Z) (tasks : list Z) : option (list Z) :=
  match tasks with
  | [] => None
  | t :: rest => if t =? id then Some rest else cons t <$> end_task id rest
  end.

Lemma end_task_perm id tasks tasks' : end_task id tasks = Some tasks' → tasks ≡ₚ id :: tasks'.
Proof.
  revert tasks'. induction tasks as [|t rest IH]; cbn; intros tasks'; [done|].
  destruct (Z.eqb_spec t id) as [->|]; [by intros [= ->]|].
  destruct (end_task id rest) as [r|]; [|done]. intros [= <-].
  rewrite (IH r eq_refl). apply Permutation_swap.
Qed.

Section runs.
Context `{TimeUnits} (policy : SchemaFetchRetryPolicy).

Definition run_event (e : cache_event) (s : cache_state) : option cache_state :=
  let '(g, tasks) := s in
  match e with
  | EvRead id now =>
      let '(_, g', task) := writer_schema_with_references id now g in
      Some (g', match task with Some t => t :: tasks | None => tasks end)
  | EvFinish id fetched now =>
      tasks' ← end_task id tasks;
      g' ← finish_fetch policy id fetched now g;
      Some (g', tasks')
  | EvIntern i => Some (intern i g, tasks)
  | EvInstall subject id w message_type => Some (prewarm_install subject id w message_type g, tasks)
  | EvSeedWriter id schema references =>
      Some (seed_writer_schema_with_ordered_references id schema references g, tasks)
  | EvSeedMessageType id message_type => Some (seed_writer_message_type id message_type g, tasks)
  | EvSeedSubject subject id => Some (seed_subject_id subject id g, tasks)
  end.

Fixpoint run_events (es : list cache_event) (s : cache_state) : option cache_state :=
  match es with
  | [] => Some s
  | e :: es' => s' ← run_event e s; run_events es' s'
  end.

Record cache_inv (s : cache_state) : Prop := {
  ci_nodup : NoDup s.2;
  ci_tasks : ∀ id, id ∈ s.2 ↔ id ∈ fetching s.1;
  ci_live : ∀ id, id ∈ fetching s.1 → unavailable_schemas s.1 !! id = None;
  ci_retry : ∀ id, is_Some (retry_after s.1 !! id) ↔ is_Some (retry_attempts s.1 !! id);
  ci_backoff : ∀ id, is_Some (retry_after s.1 !! id) → unavailable_schemas s.1 !! id = None;
  ci_attempts : ∀ id n, retry_attempts s.1 !! id = Some n → 1 ≤ n < 2 ^ 32;
}.

Lemma cache_inv_default : cache_inv (inner_default, []).
Proof.
  split; cbn; try done; [constructor|].
  intros id. split; [by intros ?%not_elem_of_nil|set_solver].
Qed.

Lemma next_attempt_bounds s id : cache_inv s → 1 ≤ next_attempt id s.1 < 2 ^ 32.
Proof.
  intros Hi. unfold next_attempt. destruct (_ !! id) as [n|] eqn:E; [|lia].
  pose proof (ci_attempts _ Hi _ _ E). lia.
Qed.

(** The fields a fetch's bookkeeping uses determine the invariant. *)
Lemma cache_inv_ext s g' :
  cache_inv s → fetching g' = fetching s.1 → unavailable_schemas g' = unavailable_schemas s.1 →
  retry_after g' = retry_after s.1 → retry_attempts g' = retry_attempts s.1 →
  cache_inv (g', s.2).
Proof. intros [? ? ? ? ? ?] E1 E2 E3 E4. split; cbn; rewrite ?E1, ?E2, ?E3, ?E4; auto. Qed.

Lemma read_inv id now g tasks r g' task :
  cache_inv (g, tasks) → writer_schema_with_references id now g = (r, g', task) →
  cache_inv (g', match task with Some t => t :: tasks | None => tasks end).
Proof.
  intros Hi. unfold writer_schema_with_references.
  destruct (id_writer_schema g !! id) as [w|]; [by intros [= <- <- <-]|].
  destruct (unavailable_schemas g !! id) as [u|] eqn:Hu; [by intros [= <- <- <-]|].
  destruct (match retry_after g !! id with Some t => _ | None => _ end); [by intros [= <- <- <-]|].
  case_bool_decide as Hf; intros [= <- <- <-]; [done|].
  destruct Hi as [Hnd Ht Hl Hr Hb Ha]; cbn in *. split; cbn; auto.
  - constructor; [by rewrite Ht|done].
  - intros x. rewrite elem_of_cons, Ht. set_solver.
  - intros x [->%elem_of_singleton|]%elem_of_union; auto.
Qed.

Lemma end_task_elem (x : Z) l l' :
  end_task x l = Some l' → NoDup l → NoDup l' ∧ ∀ y, y ∈ l' ↔ y ∈ l ∧ y ≠ x.
Proof.
  intros Hr%end_task_perm Hnd. rewrite Hr, NoDup_cons in Hnd. destruct Hnd as [Hx Hnd].
  split; [done|]. intros y. rewrite Hr, elem_of_cons. split; [|tauto].
  intros Hy. split; [by right|]. by intros ->.
Qed.

Lemma finish_inv id fetched now g tasks g' tasks' :
  cache_inv (g, tasks) → end_task id tasks = Some tasks' →
  finish_fetch policy id fetched now g = Some g' → cache_inv (g', tasks').
Proof.
  intros Hi Hrem Hfin.
  pose proof (next_attempt_bounds _ id Hi) as Hatt.
  pose proof (ci_tasks _ Hi id) as Hid.
  assert (Hin : id ∈ tasks) by (apply end_task_perm in Hrem; rewrite Hrem; apply list_elem_of_here).
  destruct Hi as [Hnd Ht Hl Hr Hb Ha]; cbn in *.
  pose proof (Hl id (proj1 Hid Hin)) as Hun.
  destruct (end_task_elem _ _ _ Hrem Hnd) as [Hnd' Hel].
  assert (Ht' : ∀ x, x ∈ tasks' ↔ x ∈ fetching g ∖ {[ id ]})
    by (intros x; rewrite Hel, Ht; set_solver).
  unfold finish_fetch in Hfin. destruct fetched as [[w mt]|e].
  - injection Hfin as <-. split; cbn; auto; intros x.
    + intros [? ?]%elem_of_difference. rewrite lookup_delete_None. auto.
    + rewrite !lookup_delete_is_Some, Hr. done.
    + rewrite lookup_delete_is_Some, lookup_delete_None. intros [? ?]. auto.
    + intros n [? ?]%lookup_delete_Some. eauto.
  - destruct (is_transient_registry_failure e).
    + destruct (retry_delay _ _ _) as [d|]; [|done]. cbn in Hfin.
      destruct (instant_add now d) as [t|]; [|done]. injection Hfin as <-. split; cbn; auto; intros x.
      * intros [? ?]%elem_of_difference. auto.
      * rewrite !lookup_insert_is_Some, Hr. done.
      * intros [->|[_ ?]]%lookup_insert_is_Some; auto.
      * intros n [[<- <-]|[_ ?]]%lookup_insert_Some; [lia|eauto].
    + injection Hfin as <-. split; cbn; auto; intros x.
      * intros [? ?%not_elem_of_singleton]%elem_of_difference. rewrite lookup_insert_ne; auto.
      * rewrite !lookup_delete_is_Some, Hr. done.
      * intros [? ?]%lookup_delete_is_Some. rewrite lookup_insert_ne; auto.
      * intros n [? ?]%lookup_delete_Some. eauto.
Qed.

Lemma seed_inv id schema references g tasks :
  cache_inv (g, tasks) →
  cache_inv (seed_writer_schema_with_ordered_references id schema references g, tasks).
Proof.
  intros [Hnd Ht Hl Hr Hb Ha]; cbn in *. split; cbn; auto; intros x.
  - intros ?. rewrite lookup_delete_None. auto.
  - rewrite !lookup_delete_is_Some, Hr. done.
  - rewrite lookup_delete_is_Some, lookup_delete_None. intros [? ?]. auto.
  - intros n [? ?]%lookup_delete_Some. eauto.
Qed.

Lemma run_event_inv e s s' : cache_inv s → run_event e s = Some s' → cache_inv s'.
Proof.
  destruct s as [g tasks]. intros Hi. destruct e; cbn; intros Hrun.
  - destruct (writer_schema_with_references id now g) as [[r g'] task] eqn:E.
    injection Hrun as <-. eapply read_inv; eauto.
  - destruct (end_task id tasks) as [tasks'|] eqn:Er; [|done]. cbn in Hrun.
    destruct (finish_fetch policy id fetched now g) as [g'|] eqn:Ef; [|done].
    injection Hrun as <-. eapply finish_inv; eauto.
  - injection Hrun as <-. unfold intern. case_bool_decide; [done|]. by apply (cache_inv_ext _ _ Hi).
  - injection Hrun as <-. by apply (cache_inv_ext _ _ Hi).
  - injection Hrun as <-. by apply seed_inv.
  - injection Hrun as <-. by apply (cache_inv_ext _ _ Hi).
  - injection Hrun as <-. by apply (cache_inv_ext _ _ Hi).
Qed.

Lemma run_events_inv es : ∀ s s', cache_inv s → run_events es s = Some s' → cache_inv s'.
Proof.
  induction es as [|e es IH]; cbn; intros s s' Hi; [by intros [= <-]|].
  destruct (run_event e s) as [s1|] eqn:E; [|done]. apply IH. eapply run_event_inv; eauto.
Qed.

(** What the read answers and starts, over the tasks in flight. *)
Lemma read_facts s id now : cache_inv s →
  let '(r, g', task) := writer_schema_with_references id now s.1 in
  id_writer_schema g' = id_writer_schema s.1 ∧
  (∀ w, r = Ok w ↔ id_writer_schema s.1 !! id = Some w) ∧
  (∀ t, task = Some t ↔ t = id ∧ id_writer_schema s.1 !! id = None ∧
     unavailable_schemas s.1 !! id = None ∧ id ∉ s.2 ∧
     ∀ deadline, retry_after s.1 !! id = Some deadline → deadline ≤ now) ∧
  (r = Err (WriterSchemaPending id) → id ∈ fetching g' ∨
     ∃ deadline, retry_after s.1 !! id = Some deadline ∧ now < deadline).
Proof.
  intros Hi. pose proof (ci_tasks _ Hi id) as Ht. destruct s as [g tasks]; cbn [fst snd] in *.
  unfold writer_schema_with_references.
  destruct (id_writer_schema g !! id) as [w|]; [naive_solver|].
  destruct (unavailable_schemas g !! id) as [u|]; [naive_solver|].
  destruct (retry_after g !! id) as [t|].
  - destruct (Z.ltb_spec now t); [|case_bool_decide].
    + split_and!; try naive_solver. intros t'. split; [done|].
      intros (_ & _ & _ & _ & Hd). specialize (Hd t eq_refl). lia.
    + split_and!; naive_solver.
    + split_and!; cbn; try naive_solver; set_solver.
  - case_bool_decide.
    + split_and!; naive_solver.
    + split_and!; cbn; try naive_solver; set_solver.
Qed.

(** ** After a fetch *)

(** The read of [id], if the event is one, comes before [deadline]. *)
Definition reads_before (id deadline : Z) (e : cache_event) : Prop :=
  match e with EvRead id' now => id' = id → now < deadline | _ => True end.

(** No task of [id] runs, and only a read of [id] at [deadline] or later could
    start one; [permanent] when no read can. *)
Definition quiet (id : Z) (deadline : option Z) (s : cache_state) : Prop :=
  id ∉ s.2 ∧
  (is_Some (id_writer_schema s.1 !! id) ∨ is_Some (unavailable_schemas s.1 !! id) ∨
   ∃ t, deadline = Some t ∧ retry_after s.1 !! id = Some t).

Definition early (id : Z) (deadline : option Z) (e : cache_event) : Prop :=
  match deadline with Some t => reads_before id t e | None => True end.

Lemma quiet_read id deadline id' now g tasks r g' task :
  quiet id deadline (g, tasks) → early id deadline (EvRead id' now) →
  writer_schema_with_references id' now g = (r, g', task) →
  quiet id deadline (g', match task with Some t => t :: tasks | None => tasks end).
Proof.
  intros [Hn Hq] He. unfold writer_schema_with_references.
  destruct (id_writer_schema g !! id') as [w|] eqn:Hw; [by intros [= <- <- <-]|].
  destruct (unavailable_schemas g !! id') as [u|] eqn:Hu; [by intros [= <- <- <-]|].
  destruct (match retry_after g !! id' with Some t => _ | None => _ end) eqn:Hd; [by intros [= <- <- <-]|].
  case_bool_decide as Hf; intros [= <- <- <-]; [done|].
  split; cbn in *; [|done]. intros [->|]%elem_of_cons; [|done].
  destruct Hq as [[? E]|[[? E]|(t & -> & E)]]; rewrite E in *; [done..|].
  apply Z.ltb_ge in Hd. specialize (He eq_refl). lia.
Qed.

Lemma quiet_finish id deadline id' fetched now g tasks g' tasks' :
  quiet id deadline (g, tasks) → end_task id' tasks = Some tasks' →
  finish_fetch policy id' fetched now g = Some g' → quiet id deadline (g', tasks').
Proof.
  intros [Hn Hq] Hend Hfin. apply end_task_perm in Hend. cbn in *.
  rewrite Hend, elem_of_cons in Hn. apply Decidable.not_or in Hn as [Hne Hn].
  split; [done|]. cbn. unfold finish_fetch in Hfin. destruct fetched as [[w mt]|e].
  - injection Hfin as <-. cbn. rewrite lookup_insert_ne, !lookup_delete_ne; auto.
  - destruct (is_transient_registry_failure e).
    + destruct (retry_delay _ _ _) as [d|]; [|done]. cbn in Hfin.
      destruct (instant_add now d) as [t|]; [|done]. injection Hfin as <-.
      cbn. rewrite lookup_insert_ne; auto.
    + injection Hfin as <-. cbn. rewrite lookup_insert_ne, lookup_delete_ne; auto.
Qed.

Lemma quiet_event id deadline e s s' :
  quiet id deadline s → early id deadline e → run_event e s = Some s' → quiet id deadline s'.
Proof.
  destruct s as [g tasks]. intros Hq He. destruct e; cbn; intros Hrun.
  - destruct (writer_schema_with_references _ now g) as [[r g'] task] eqn:E.
    injection Hrun as <-. eapply quiet_read; eauto.
  - destruct (end_task _ tasks) as [tasks'|] eqn:Er; [|done]. cbn in Hrun.
    destruct (finish_fetch policy _ fetched now g) as [g'|] eqn:Ef; [|done].
    injection Hrun as <-. eapply quiet_finish; eauto.
  - injection Hrun as <-. unfold intern. by case_bool_decide.
  - injection Hrun as <-. destruct Hq as [Hn Hq]. split; [done|]. cbn in *.
    destruct (decide (id0 = id)) as [->|]; [rewrite lookup_insert_eq|rewrite lookup_insert_ne]; eauto.
  - injection Hrun as <-. destruct Hq as [Hn Hq]. split; [done|]. cbn in *.
    destruct (decide (id0 = id)) as [->|]; [rewrite lookup_insert_eq; eauto|].
    rewrite lookup_insert_ne, !lookup_delete_ne; auto.
  - by injection Hrun as <-.
  - by injection Hrun as <-.
Qed.

Lemma quiet_events id deadline es : ∀ s s',
  quiet id deadline s → Forall (early id deadline) es → run_events es s = Some s' →
  quiet id deadline s'.
Proof.
  induction es as [|e es IH]; cbn; intros s s' Hq He; [by intros [= <-]|].
  destruct (run_event e s) as [s1|] eqn:E; [|done].
  apply Forall_cons_1 in He as [? ?]. apply IH; [|done]. eapply quiet_event; eauto.
Qed.

(** When the outcome of a fetch allows the next one: after a transient failure
    at the end of the delay, otherwise never. *)
Definition next_fetch (id : Z) (fetched : result SchemaSerdeError (WriterSchema * option string))
    (now : Z) (g : Inner) : option Z :=
  match fetched with
  | Err e => if is_transient_registry_failure e then Z.add now <$> retry_delay policy id (next_attempt id g)
             else None
  | Ok _ => None
  end.

Lemma finish_quiet s id fetched now s1 :
  cache_inv s → run_event (EvFinish id fetched now) s = Some s1 →
  quiet id (next_fetch id fetched now s.1) s1.
Proof.
  destruct s as [g tasks]. intros Hi Hrun. cbn in *.
  destruct (end_task id tasks) as [tasks'|] eqn:Er; [|done]. cbn in Hrun.
  destruct (finish_fetch policy id fetched now g) as [g'|] eqn:Ef; [|done]. injection Hrun as <-.
  split; cbn.
  - destruct (end_task_elem _ _ _ Er (ci_nodup _ Hi)) as [_ Hel]. rewrite Hel. tauto.
  - unfold finish_fetch, next_fetch in *. destruct fetched as [[w mt]|e].
    + injection Ef as <-. cbn. rewrite lookup_insert_eq. eauto.
    + destruct (is_transient_registry_failure e).
      * destruct (retry_delay _ _ _) as [d|]; [|done]. cbn in Ef. unfold instant_add in Ef.
        case_match; [|done]. injection Ef as <-. cbn. rewrite lookup_insert_eq. eauto.
      * injection Ef as <-. cbn. rewrite lookup_insert_eq. eauto.
Qed.
End runs.

(** ** Retry delays *)

Lemma round_half_even_nonneg m k : 0 ≤ m → 0 ≤ round_half_even m k.
Proof.
  intros Hm. unfold round_half_even.
  assert (0 ≤ m / 2 ^ k) by (destruct (Z.le_gt_cases 0 k);
    [apply Z.div_pos; lia|rewrite Z.pow_neg_r, Zdiv_0_r; lia]).
  case_match; lia.
Qed.

Lemma try_from_secs_f64_nonneg s d : try_from_secs_f64 s = Ok d → 0 ≤ d.
Proof.
  unfold try_from_secs_f64, NANOS. destruct s as [?|[]| |[] m e]; try done; [by intros [= <-]|].
  case_match eqn:He; case_match; intros [= <-].
  - apply Z.leb_le in He. pose proof (Z.pow_nonneg 2 e). nia.
  - apply round_half_even_nonneg. lia.
Qed.

Lemma policy_new_durations `{TimeUnits} i m p :
  policy_new i m = Ok p →
  ∃ initial max, policy_durations p = Some (initial, max) ∧ 0 < initial ≤ max.
Proof.
  unfold policy_new, validated_duration, policy_durations.
  destruct (try_from_secs_f64 (secs_f64 i)) as [di|] eqn:Ei; [|done].
  destruct (Z.eqb_spec di 0); [done|]. cbn.
  destruct (try_from_secs_f64 (secs_f64 m)) as [dm|] eqn:Em; [|done].
  destruct (Z.eqb_spec dm 0); [done|]. cbn.
  destruct (Z.ltb_spec dm di); [done|]. intros [= <-]. cbn. rewrite Ei, Em. cbn.
  exists di, dm. split; [done|]. pose proof (try_from_secs_f64_nonneg _ _ Ei). lia.
Qed.

Lemma exponential_delay_bounds initial max a :
  0 < initial ≤ max → initial ≤ exponential_delay initial max a ≤ max.
Proof.
  intros Hi. unfold exponential_delay. split; [|lia]. apply Z.min_glb; [|lia].
  unfold checked_mul. rewrite Z.shiftl_1_l.
  assert (0 < 2 ^ retry_exponent a) by (apply Z.pow_pos_nonneg; unfold retry_exponent; lia).
  case_match; cbn; [nia|lia].
Qed.

Lemma add_jitter_bounds max delay percent d :
  delay ≤ max → add_jitter max delay percent = Some d → delay ≤ d ≤ max.
Proof.
  unfold add_jitter, mul_f64, checked_add. intros Hm.
  destruct (try_from_secs_f64 _) as [j|] eqn:E; [|done]. cbn. intros [= <-].
  apply try_from_secs_f64_nonneg in E. case_match; cbn; lia.
Qed.

(** The delays of the default policy (10 ms up to 1 s), for every jitter and
    exponent. *)
Definition default_delay (percent attempt : Z) : option Z :=
  add_jitter 1000000000 (exponential_delay 10000000 1000000000 attempt) percent.

Definition delay_le (d d' : option Z) : bool :=
  match d, d' with Some d, Some d' => d <=? d' | _, _ => false end.

Lemma default_delays_monotone :
  forallb (λ percent, forallb (λ a, forallb (λ b,
      negb (a <=? b) || delay_le (default_delay percent a) (default_delay percent b))
    (seqZ 1 8)) (seqZ 1 8)) (seqZ 0 26) = true.
Proof. vm_compute. reflexivity. Qed.

Lemma default_delay_le percent a b :
  0 ≤ percent < 26 → a ≤ b → delay_le (default_delay percent a) (default_delay percent b) = true.
Proof.
  intros Hp Hab.
  assert (Hcap : ∀ x, default_delay percent x = default_delay percent (retry_exponent x + 1)).
  { intros x. unfold default_delay, exponential_delay.
    replace (retry_exponent (retry_exponent x + 1)) with (retry_exponent x); [done|].
    unfold retry_exponent. lia. }
  rewrite (Hcap a), (Hcap b). pose proof default_delays_monotone as Hall.
  assert (Hin : ∀ x, retry_exponent x + 1 ∈ seqZ 1 8)
    by (intros x; apply elem_of_seqZ; unfold retry_exponent; lia).
  rewrite forallb_forall in Hall. specialize (Hall percent).
  rewrite forallb_forall in Hall.
  specialize (Hall ltac:(apply list_elem_of_In, elem_of_seqZ; lia) (retry_exponent a + 1)).
  rewrite forallb_forall in Hall.
  specialize (Hall ltac:(apply list_elem_of_In, Hin) (retry_exponent b + 1)
                ltac:(apply list_elem_of_In, Hin)).
  apply orb_prop in Hall as [Hall|]; [|done].
  apply negb_true_iff, Z.leb_gt in Hall. unfold retry_exponent in Hall. lia.
Qed.

(** ** Pre-warm *)

Lemma reference_leb_total a b : reference_leb a b = true ∨ reference_leb b a = true.
Proof.
  unfold reference_leb. repeat case_bool_decide; try congruence; try apply string_leb_total.
  rewrite !Z.leb_le. lia.
Qed.

Lemma reference_leb_antisym a b : reference_leb a b = true → reference_leb b a = true → a = b.
Proof.
  unfold reference_leb. repeat case_bool_decide; try congruence; intros L1 L2.
  - apply Z.leb_le in L1, L2. destruct a, b; cbn in *. f_equal; [done..|lia].
  - by destruct (string_leb_antisym _ _ L1 L2).
  - by destruct (string_leb_antisym _ _ L1 L2).
Qed.

Lemma reference_leb_trans a b c :
  reference_leb a b = true → reference_leb b c = true → reference_leb a c = true.
Proof.
  unfold reference_leb. repeat case_bool_decide; try congruence; intros L1 L2;
    repeat match goal with E : @eq string _ _ |- _ => rewrite E in * end;
    try done; try (by destruct (string_leb_antisym _ _ L1 L2)); eauto using string_leb_trans.
  apply Z.leb_le in L1, L2. apply Z.leb_le. lia.
Qed.

(** Two reference lists are equivalent when one is a reordering of the other. *)
Lemma references_equivalent_perm l l' : references_equivalent l l' = true ↔ l ≡ₚ l'.
Proof.
  unfold references_equivalent. rewrite bool_decide_eq_true. split.
  - intros E. by rewrite <- (sort_by_perm reference_leb l), E, sort_by_perm.
  - intros Hp. assert (AntiSymm eq (λ x y, reference_leb x y = true))
      by (intros ??; apply reference_leb_antisym).
    apply (StronglySorted_unique (λ x y, reference_leb x y = true));
      [apply sort_by_sorted; eauto using reference_leb_total, reference_leb_trans..|].
    by rewrite !sort_by_perm.
Qed.

Section prewarm.
Context {V : Type} `{EqDecision V} (json_of : string → option V).
Context {D : Type} `{EqDecision D} (proto_of : string → option D).
Context (api : RegistryApi) (mode : RegisterMode).

Local Abbreviation entry := (prewarm_entry json_of proto_of api mode).

(** What the loop's entries may have written for a subject and for an id. *)
Lemma prewarm_all_writes pending : ∀ g g' r,
  prewarm_all json_of proto_of api mode pending g = (g', r) →
  (∀ x, subject_id g' !! x = subject_id g !! x ∨
     ∃ j id w mt, j ∈ pending ∧ in_subject j = x ∧ entry j = Ok (id, w, mt) ∧
       subject_id g' !! x = Some id) ∧
  (∀ id, id_writer_schema g' !! id = id_writer_schema g !! id ∨
     ∃ j w mt, j ∈ pending ∧ entry j = Ok (id, w, mt) ∧ id_writer_schema g' !! id = Some w).
Proof.
  induction pending as [|i rest IH]; cbn; intros g g' r Hrun.
  { injection Hrun as <- <-. auto. }
  destruct (entry i) as [[[id w] mt]|e] eqn:E; [|injection Hrun as <- <-; auto].
  destruct (IH _ _ _ Hrun) as [Hs Hw]; cbn in *. split.
  - intros x. destruct (Hs x) as [Hx|(j & ? & ? & ? & ? & ?)];
      [|right; exists j; do 3 eexists; split; [by right|eauto]].
    destruct (decide (in_subject i = x)) as [<-|]; [|rewrite lookup_insert_ne in Hx; auto].
    rewrite lookup_insert_eq in Hx. right. exists i, id, w, mt. split_and!; auto. by left.
  - intros id'. destruct (Hw id') as [Hx|(j & ? & ? & ? & ?)];
      [|right; exists j; do 2 eexists; split; [by right|eauto]].
    destruct (decide (id = id')) as [<-|]; [|rewrite lookup_insert_ne in Hx; auto].
    rewrite lookup_insert_eq in Hx. right. exists i, w, mt. split_and!; auto. by left.
Qed.

Lemma prewarm_all_result pending : ∀ g g' r,
  prewarm_all json_of proto_of api mode pending g = (g', r) →
  match r with
  | Ok _ => ∀ i, i ∈ pending →
      (∃ j id w mt, j ∈ pending ∧ in_subject j = in_subject i ∧ entry j = Ok (id, w, mt) ∧
         subject_id g' !! in_subject i = Some id) ∧
      ∃ id w mt, entry i = Ok (id, w, mt) ∧ is_Some (id_writer_schema g' !! id)
  | Err e => ∃ i, i ∈ pending ∧ entry i = Err e
  end.
Proof.
  induction pending as [|i rest IH]; cbn; intros g g' r Hrun.
  { injection Hrun as <- <-. by intros ? ?%not_elem_of_nil. }
  destruct (entry i) as [[[id w] mt]|e] eqn:E;
    [|injection Hrun as <- <-; exists i; split; [by left|done]].
  pose proof (IH _ _ _ Hrun) as Hr. destruct (prewarm_all_writes _ _ _ _ Hrun) as [Hs Hw].
  cbn in *. destruct r as [u|e]; [|destruct Hr as (j & ? & ?); exists j; split; [by right|done]].
  intros j [->|Hj]%elem_of_cons.
  - split.
    + destruct (Hs (in_subject i)) as [->|(k & id' & w' & mt' & ? & ? & ? & ?)].
      * exists i, id, w, mt. rewrite lookup_insert_eq. split_and!; auto. by left.
      * exists k, id', w', mt'. split_and!; auto. by right.
    + exists id, w, mt. split; [done|]. destruct (Hw id) as [->|(k & ? & ? & ? & ? & ->)]; [|done].
      by rewrite lookup_insert_eq.
  - destruct (Hr j Hj) as [(k & id' & w' & mt' & ? & ? & ? & ?) ?]. split; [|done].
    exists k, id', w', mt'. split_and!; auto. by right.
Qed.

(** A latest version that was accepted stands for the local schema. *)
Lemma latest_accepted i id w mt :
  mode = UseLatest → entry i = Ok (id, w, mt) →
  ∃ latest, api_latest api (in_subject i) = Ok latest ∧ sv_id latest = id ∧
    ws_schema w = sv_schema latest ∧
    schemas_equivalent json_of proto_of (in_kind i) (sv_schema latest) (in_schema i) = true ∧
    from_wire_name (sv_schema_type latest) = in_kind i ∧ sv_references latest ≡ₚ in_references i.
Proof.
  intros ->. cbn -[reference_sources_ordered]. destruct (api_latest api (in_subject i)) as [latest|]; [|done].
  cbn -[reference_sources_ordered].
  destruct (latest_differs json_of proto_of i latest) eqn:Hd; [done|].
  destruct (reference_sources_ordered (api_by_version api) (sv_references latest)) as [[refs order]|]; [|done]. cbn. intros [= <- <- <-].
  unfold latest_differs in Hd. apply orb_false_elim in Hd as [Hd _].
  apply orb_false_elim in Hd as [[Hs Hk]%orb_false_elim Hr].
  apply negb_false_iff in Hs, Hk, Hr. apply bool_decide_eq_true in Hk.
  apply references_equivalent_perm in Hr. exists latest. auto 10.
Qed.
End prewarm.

(** C24: in every run of the cache (reads, ends of fetches, pre-warms and seeds in any
    order) at most one fetch of an id is in flight, and the set of ids being
    fetched is exactly the running tasks; no id being fetched or backing off is
    marked unavailable; a deadline is kept exactly for the ids with a failure count.
    A read answers [Ok] exactly for a cached id, starts a fetch exactly when the
    id is neither cached nor unavailable nor being fetched and its deadline has
    passed, and answers "pending" only with a fetch running or a deadline ahead. *)
Theorem cache_single_flight `{TimeUnits} policy es s :
  run_events policy es (inner_default, []) = Some s →
  cache_inv s ∧
  ∀ id now, let '(r, g', task) := writer_schema_with_references id now s.1 in
    (∀ w, r = Ok w ↔ id_writer_schema s.1 !! id = Some w) ∧
    (∀ t, task = Some t ↔ t = id ∧ id_writer_schema s.1 !! id = None ∧
       unavailable_schemas s.1 !! id = None ∧ id ∉ s.2 ∧
       ∀ deadline, retry_after s.1 !! id = Some deadline → deadline ≤ now) ∧
    (r = Err (WriterSchemaPending id) → id ∈ fetching g' ∨
       ∃ deadline, retry_after s.1 !! id = Some deadline ∧ now < deadline).
Proof.
  intros Hrun. pose proof (run_events_inv _ _ _ _ cache_inv_default Hrun) as Hi.
  split; [done|]. intros id now. pose proof (read_facts s id now Hi) as Hr.
  destruct (writer_schema_with_references id now s.1) as [[r g'] task]. tauto.
Qed.

(** C25: once a fetch of an id has ended, whatever the cache does next, no fetch
    of it runs again if it succeeded or failed for good, and after a transient
    failure none runs as long as every read of the id comes before the failure
    time plus the retry delay. *)
Theorem cache_backoff `{TimeUnits} policy es s id fetched now s1 rest s2 :
  run_events policy es (inner_default, []) = Some s →
  run_event policy (EvFinish id fetched now) s = Some s1 →
  Forall (early id (next_fetch policy id fetched now s.1)) rest →
  run_events policy rest s1 = Some s2 →
  id ∉ s2.2.
Proof.
  intros Hrun Hfin He Hrest. pose proof (run_events_inv _ _ _ _ cache_inv_default Hrun) as Hi.
  eapply quiet_events; [|done..]. by eapply finish_quiet.
Qed.

(** A retry policy that was accepted has positive representable bounds, and
    every delay computed from it lies between them. With the default bounds of
    10 ms and 1 s the delay is computed for every id and attempt without a
    panic, and never decreases from one attempt to a later one. *)
Theorem retry_delay_spec `{TimeUnits} i m p :
  policy_new i m = Ok p →
  ∃ initial max, policy_durations p = Some (initial, max) ∧ 0 < initial ≤ max ∧
    (∀ id attempt d, retry_delay p id attempt = Some d → initial ≤ d ≤ max) ∧
    (initial = 10000000 → max = 1000000000 → ∀ id attempt attempt', attempt ≤ attempt' →
       ∃ d d', retry_delay p id attempt = Some d ∧ retry_delay p id attempt' = Some d' ∧ d ≤ d').
Proof.
  intros (initial & max & E & Hb)%policy_new_durations. exists initial, max.
  split_and!; [done|lia|lia| |].
  - intros id a d. unfold retry_delay. rewrite E. cbn. intros Hd.
    pose proof (exponential_delay_bounds initial max a Hb) as Hx.
    apply add_jitter_bounds in Hd; lia.
  - intros -> -> id a b Hab. unfold retry_delay. rewrite E. cbn [mbind option_bind].
    pose proof (default_delay_le (jitter_percent id) a b) as Hle. unfold default_delay in Hle.
    specialize (Hle ltac:(unfold jitter_percent; apply Z.mod_pos_bound; lia) Hab).
    destruct (add_jitter _ _ _) as [d|]; [|done]. destruct (add_jitter _ _ _) as [d'|]; [|done].
    exists d, d'. split_and!; [done..|]. by apply Z.leb_le.
Qed.

(** A pre-warm that succeeds has resolved every interned schema by the mode,
    binds each of their subjects to the id answered for a schema interned under that
    subject, and has a writer schema cached for each id; in the latest-version mode
    the version behind an id has the local kind, equivalent text and the same
    references up to order. A pre-warm that fails reports the error of one of them.
    Either way no cached writer schema is lost. *)
Theorem prewarm_spec {V D} `{EqDecision V, EqDecision D} (json_of : string → option V)
    (proto_of : string → option D) api mode g :
  let '(g', r) := prewarm json_of proto_of api mode g in
  (∀ id, is_Some (id_writer_schema g !! id) → is_Some (id_writer_schema g' !! id)) ∧
  match r with
  | Ok _ => ∀ i, i ∈ interned g →
      (∃ j id w mt, j ∈ interned g ∧ in_subject j = in_subject i ∧
         prewarm_entry json_of proto_of api mode j = Ok (id, w, mt) ∧
         id_for_subject g' (in_subject i) = Some id) ∧
      ∃ id w mt, prewarm_entry json_of proto_of api mode i = Ok (id, w, mt) ∧
        is_Some (id_writer_schema g' !! id) ∧
        (mode = UseLatest → ∃ latest, api_latest api (in_subject i) = Ok latest ∧
           sv_id latest = id ∧ ws_schema w = sv_schema latest ∧
           schemas_equivalent json_of proto_of (in_kind i) (sv_schema latest) (in_schema i) = true ∧
           from_wire_name (sv_schema_type latest) = in_kind i ∧
           sv_references latest ≡ₚ in_references i)
  | Err e => ∃ i, i ∈ interned g ∧ prewarm_entry json_of proto_of api mode i = Err e
  end.
Proof.
  unfold prewarm. destruct (prewarm_all _ _ _ _ _ g) as [g' r] eqn:E. split.
  - intros id Hid. destruct (proj2 (prewarm_all_writes _ _ _ _ _ _ _ _ E) id)
      as [->|(j & w & mt & _ & _ & ->)]; done.
  - pose proof (prewarm_all_result _ _ _ _ _ _ _ _ E) as Hr. destruct r as [u|e]; [|done].
    intros i Hi. destruct (Hr i Hi) as [Hsub (id & w & mt & Hent & Hw)]. split; [done|].
    exists id, w, mt. split_and!; [done..|]. intros Hm. by apply (latest_accepted _ _ _ mode _ _ _ mt).
Qed.

(** ** Runs that satisfy the hypotheses *)

Section witnesses.
(** Times counted in whole milliseconds. *)
Let units : TimeUnits :=
  {| Time := Z;
     secs_f64 := λ t, SFdiv 53 1024 (f64_of_Z t) (f64_of_Z 1000);
     human := λ _, "" |}.
Let policy : @SchemaFetchRetryPolicy units := @mkPolicy units 10 1000.

(** A cold read of id 7, its transient failure at time 5, and an early read. *)
Let start := [EvRead 7 0; EvRead 7 1; EvRead 8 1].
Let failed := EvFinish 7 (Err (RegistryStatus 503 503 "down")) 5.
Let later := [EvRead 7 9000000; EvRead 8 20000000].

Definition after_start : cache_state :=
  default (inner_default, []) (@run_events units policy start (inner_default, [])).
Definition after_failed : cache_state :=
  default (inner_default, []) (@run_event units policy failed after_start).
Definition after_later : cache_state :=
  default (inner_default, []) (@run_events units policy later after_failed).

Lemma cache_single_flight_witness : after_start.2 = [8; 7] ∧ cache_inv after_start.
Proof.
  split; [vm_compute; reflexivity|].
  apply (@cache_single_flight units policy start after_start). vm_compute. reflexivity.
Defined.

Lemma cache_backoff_witness : 7 ∉ after_later.2.
Proof.
  apply (@cache_backoff units policy start after_start 7 (Err (RegistryStatus 503 503 "down")) 5
           after_failed later after_later).
  - vm_compute. reflexivity.
  - vm_compute. reflexivity.
  - apply Forall_cons_2; [|apply Forall_cons_2; [|by apply Forall_nil_2]]; vm_compute;
      [reflexivity|discriminate].
  - vm_compute. reflexivity.
Defined.

Lemma retry_delay_spec_witness :
  ∃ d d', @retry_delay units policy 7 1 = Some d ∧ @retry_delay units policy 7 4 = Some d' ∧ d ≤ d'.
Proof.
  assert (Hi : try_from_secs_f64 (@secs_f64 units 10) = Ok 10000000) by (vm_compute; reflexivity).
  assert (Hm : try_from_secs_f64 (@secs_f64 units 1000) = Ok 1000000000) by (vm_compute; reflexivity).
  assert (Hnew : @policy_new units 10 1000 = Ok policy)
    by (unfold policy_new, validated_duration; rewrite Hi, Hm; reflexivity).
  assert (Hdur : @policy_durations units policy = Some (10000000, 1000000000))
    by (vm_compute; reflexivity).
  pose proof (@retry_delay_spec units 10 1000 policy Hnew) as Hspec.
  destruct Hspec as (initial & max & E & _ & _ & Hmono). rewrite Hdur in E. injection E as E1 E2.
  exact (Hmono (eq_sym E1) (eq_sym E2) 7 1 4 ltac:(lia)).
Defined.
End witnesses.
