(* ===== verification/Serde.v ===== *)
(** * The typed serializers of the client (schema-serde: format/mod.rs, avro.rs,
    json.rs, protobuf.rs, validate.rs)

    Each serde binds a local type to a subject by its role, frames what it writes
    under the id the cache resolved, and reads a frame by its writer's schema. The
    codecs of apache-avro, prost, serde and jsonschema are parameters. *)

From stdpp Require Import base gmap strings list pretty.
From Stdlib Require Import ZArith Lia Ascii.
From S2P Require Import Prelude Text Types Json Descriptor ProtoText ProtoDiff AvroFormat Wire Client Cache.

#[local] Open Scope Z_scope.

(** ** Errors of the frame *)

Definition hex_digit (n : Z) : string :=
  String (ascii_of_nat (Z.to_nat (if n <? 10 then 48 + n else 87 + n))) "".

Definition wire_error_message (e : WireError) : string :=
  match e with
  | FrameTooShort len => "frame too short: " +:+ pretty len +:+ " bytes"
  | BadMagic b => "bad magic byte 0x" +:+ hex_digit (b / 16) +:+ hex_digit (b mod 16)
  | NegativeCount n => "negative Protobuf message-index count " +:+ pretty n
  | CountExceedsFrame count len =>
      "Protobuf message-index count " +:+ pretty count +:+ " exceeds remaining frame bytes " +:+ pretty len
  | IndexTooLarge n => "Protobuf message index " +:+ pretty n +:+ " does not fit in i32"
  | VarintOverflow => "varint overflows 64 bits"
  | VarintOverlong => "varint is overlong"
  | VarintTooLong => "varint exceeds 10 bytes"
  | VarintTruncated => "truncated varint"
  end.

(** A frame's error as the serdes report it. *)
Definition wire {A} (r : result WireError A) : result SchemaSerdeError A :=
  match r with Ok a => Ok a | Err e => Err (WireMalformed (wire_error_message e)) end.

(** ** Message indices (protobuf.rs) *)

(** A message of prost-reflect's pool: its full name and its nested messages. *)
Inductive MessageDescriptor := mkDescriptor {
  full_name : string;
  child_messages : list MessageDescriptor;
}.

(** The loop over the messages of one level; [within] searches inside a message. *)
Section level.
Context {A : Type} (name_of : A → option string) (within : A → string → option (list Z)) (target : string).

Fixpoint index_level (messages : list A) (index : Z) : option (list Z) :=
  match messages with
  | [] => None
  | message :: rest =>
      if i32_max <? index then None
      else
        name ← name_of message;
        if String.eqb target name then Some [index]
        else match within message name with
             | Some child => Some (index :: child)
             | None => index_level rest (index + 1)
             end
  end.
End level.

Definition qualified (parent name : string) : string :=
  if String.eqb parent "" then name else parent +:+ "." +:+ name.

Fixpoint index_within_proto (target : string) (message : DescriptorProto) (parent : string) : option (list Z) :=
  index_level (λ m, qualified parent <$> m_name_opt m) (index_within_proto target) target (m_nested_type message) 0.

Definition message_index_in_proto_messages (messages : list DescriptorProto) (parent target : string)
    : option (list Z) :=
  index_level (λ m, qualified parent <$> m_name_opt m) (index_within_proto target) target messages 0.

Definition message_index_in_proto (file : FileDescriptorProto) (target : string) : option (list Z) :=
  message_index_in_proto_messages (file_message_type file) (default "" (file_package file)) target.

Fixpoint index_within (target : string) (message : MessageDescriptor) (_ : string) : option (list Z) :=
  index_level (λ m, Some (full_name m)) (index_within target) target (child_messages message) 0.

Definition message_index_in (messages : list MessageDescriptor) (target : string) : option (list Z) :=
  index_level (λ m, Some (full_name m)) (index_within target) target messages 0.

(** [message_index]: the path in the messages of the parent file. *)
Definition message_index (file : list MessageDescriptor) (descriptor : MessageDescriptor)
    : result SchemaSerdeError (list Z) :=
  match message_index_in file (full_name descriptor) with
  | Some path => Ok path
  | None => Err (SchemaError ("protobuf message " +:+ full_name descriptor +:+
                              " is not reachable from its parent file"))
  end.

(** ** Walking a path (validate.rs) *)

Definition debug_path (path : list Z) : string := "[" +:+ str_join ", " (pretty <$> path) +:+ "]".

Definition missing (path : list Z) : SchemaSerdeError :=
  SchemaError ("protobuf message-index " +:+ debug_path path +:+ " names no message").

(** [nth] of an index that must not be negative. *)
Definition nth_message (messages : list MessageDescriptor) (index : Z) : option MessageDescriptor :=
  if index <? 0 then None else messages !! Z.to_nat index.

Fixpoint walk (current : MessageDescriptor) (rest : list Z) : option MessageDescriptor :=
  match rest with
  | [] => Some current
  | step :: rest' => child ← nth_message (child_messages current) step; walk child rest'
  end.

(** [message_at], on the messages of the pool's file. *)
Definition message_at (messages : list MessageDescriptor) (message_index : list Z)
    : result SchemaSerdeError MessageDescriptor :=
  let path := match message_index with [] => [0] | _ => message_index end in
  match (match path with
         | [] => None
         | first :: rest => current ← nth_message messages first; walk current rest
         end) with
  | Some d => Ok d
  | None => Err (missing path)
  end.

(** ** The binding every serde carries (format/mod.rs) *)

Record Binding := mkBinding {
  b_role : Role;
  b_kind : SchemaKind;
  b_schema : string;
  b_references : list SchemaReference;
  b_message_type : option string;
}.

Definition binding_subject (b : Binding) (topic : string) : string := topic_subject topic (b_role b).

Definition binding_id (b : Binding) (topic : string) (g : Inner) : result SchemaSerdeError Z :=
  let subject := binding_subject b topic in
  ok_or (id_for_subject g subject) (SchemaError ("id for " +:+ subject +:+ " not resolved (run prewarm)")).

Definition binding_interned (b : Binding) (topic : string) : Interned :=
  mkInterned (binding_subject b topic) (b_kind b) (b_schema b) (b_references b) (b_message_type b).

(** [register], the body of every [register_subject]. *)
Definition binding_register (b : Binding) (topic : string) (g : Inner) : Inner :=
  intern (binding_interned b topic) g.

Definition with_references (references : list SchemaReference) (b : Binding) : Binding :=
  mkBinding (b_role b) (b_kind b) (b_schema b) references (b_message_type b).

(** An answer of a deserializer, with the cache it leaves and the fetch it starts. *)
Definition Read (T : Type) : Type := result SchemaSerdeError T * Inner * option Z.

Definition pure_read {T} (r : result SchemaSerdeError T) (g : Inner) : Read T := (r, g, None).

Definition map_error {A B E} (wrap : E → B) (r : result E A) : result B A :=
  match r with Ok a => Ok a | Err e => Err (wrap e) end.

(** ** Avro (avro.rs) *)

(** apache-avro's datum codec; [read_value] gives the bytes left. *)
Class AvroDatum `{AvroLib} := {
  avro_value : Type;
  schema_canonical_form : avro_schema → string;
  write_value : avro_schema → avro_value → result string (list Z);
  read_value : avro_schema → option (list avro_schema) → option avro_schema → list Z →
    result string (avro_value * list Z);
}.

(** What serde and the [AvroSchema] derive give for a type. *)
Class AvroType `{AvroDatum} (T : Type) := {
  get_schema : avro_schema;
  to_value : T → result string avro_value;
  from_value : avro_value → result string T;
}.

Section avro.
Context `{AvroDatum} {T : Type} `{!AvroType T}.

Definition avro_make (role : Role) : Binding :=
  mkBinding role KAvro (schema_canonical_form get_schema) [] None.

Definition avro_serialize (b : Binding) (topic : string) (value : T) (g : Inner)
    : result SchemaSerdeError (list Z) :=
  id ← binding_id b topic g;
  avro ← map_error SerializeError (to_value value);
  body ← map_error SerializeError (write_value get_schema avro);
  Ok (encode id body).

(** The sources in their order, the writer's own last. *)
Definition avro_sources (writer : WriterSchema) : list string :=
  omap (λ name, ws_references writer !! name) (ws_reference_order writer) ++ [ws_schema writer].

Definition avro_read (writer : WriterSchema) (body : list Z) : result SchemaSerdeError T :=
  schemas ← map_error SchemaError (parse_list (avro_sources writer));
  writer_schema ← ok_or (last schemas) (SchemaError "empty Avro schema set");
  '(value, _) ← map_error DeserializeError
                  (read_value writer_schema (Some schemas) (Some get_schema) body);
  map_error DeserializeError (from_value value).

Definition avro_deserialize (bytes : list Z) (now : Z) (g : Inner) : Read T :=
  match wire (decode bytes) with
  | Err e => pure_read (Err e) g
  | Ok (id, body) =>
      let '(r, g', task) := writer_schema_with_references id now g in
      (writer ← r; avro_read writer body, g', task)
  end.
End avro.

(** ** JSON (json.rs) *)

(** serde_json's codec of a type, and schemars' schema of it as text. *)
Class JsonType (T : Type) := {
  schema_for : string;
  to_vec : T → result string (list Z);
  json_from_slice : list Z → result string T;
}.

(** serde_json's reading of bytes, jsonschema's compilation of a schema under a
    retriever ([None]: its own), and the iteration order of a [HashMap]. *)
Class JsonValidation := {
  value_from_slice : list Z → result string json;
  build_validator : option (string → result string json) → json → result string (json → result string unit);
  hash_iter : gmap string string → list (string * string);
}.

Section json.
Context `{JsonText} `{JsonValidation} {T : Type} `{!JsonType T}.

Definition json_make (role : Role) : Binding := mkBinding role KJson schema_for [] None.

Definition json_serialize (b : Binding) (topic : string) (value : T) (g : Inner)
    : result SchemaSerdeError (list Z) :=
  id ← binding_id b topic g;
  body ← map_error SerializeError (to_vec value);
  Ok (encode id body).

(** [CachedRetriever]. *)
Definition retrieve (references : gmap string json) (uri : string) : result string json :=
  ok_or (references !! uri) ("JSON Schema reference " +:+ uri +:+ " is not present in the registry cache").

Fixpoint reference_values (l : list (string * string)) : result SchemaSerdeError (gmap string json) :=
  match l with
  | [] => Ok ∅
  | (name, source) :: l' =>
      schema ← map_error SchemaError (json_text source);
      rest ← reference_values l';
      Ok (<[ name := schema ]> rest)
  end.

Definition json_validate (writer_schema : WriterSchema) (body : list Z) : result SchemaSerdeError unit :=
  writer ← map_error SchemaError (json_text (ws_schema writer_schema));
  instance ← map_error DeserializeError (value_from_slice body);
  references ← reference_values (hash_iter (ws_references writer_schema));
  validator ← map_error SchemaError (build_validator (Some (retrieve references)) writer);
  map_error (λ e, DeserializeError ("json schema validation: " +:+ e)) (validator instance).

Definition json_deserialize (validate : bool) (bytes : list Z) (now : Z) (g : Inner) : Read T :=
  match wire (decode bytes) with
  | Err e => pure_read (Err e) g
  | Ok (id, body) =>
      let read := map_error DeserializeError (json_from_slice body) in
      if validate then
        let '(r, g', task) := writer_schema_with_references id now g in
        (writer ← r; _ ← json_validate writer body; read, g', task)
      else pure_read read g
  end.
End json.

(** ** Protobuf (protobuf.rs) *)

(** What prost and prost-reflect give for a message type: the descriptor of its
    file and its full name. *)
Class ProtoType (T : Type) := {
  parent_file : FileDescriptorProto;
  message_full_name : string;
  encode_to_vec : T → list Z;
  proto_decode : list Z → result string T;
}.

Section protobuf.
Context `{ProtoLib} {T : Type} `{!ProtoType T}.

Definition proto_source : string := normalize parent_file.

(** [make]; [None] is one of its panics. *)
Definition protobuf_make (role : Role) : option (Binding * list Z) :=
  normalized ← result_ok (protox_parse "schema.proto" proto_source);
  index ← message_index_in_proto normalized message_full_name;
  Some (mkBinding role KProtobuf proto_source [] (Some message_full_name), index).

Definition protobuf_serialize (b : Binding) (index : list Z) (topic : string) (value : T) (g : Inner)
    : result SchemaSerdeError (list Z) :=
  id ← binding_id b topic g;
  Ok (encode_protobuf id index (encode_to_vec value)).

Definition protobuf_deserialize (bytes : list Z) (g : Inner) : result SchemaSerdeError T :=
  '(id, _, body) ← wire (decode_protobuf bytes);
  match writer_message_type id g with
  | Some writer =>
      if String.eqb writer message_full_name then map_error DeserializeError (proto_decode body)
      else Err (DeserializeError ("protobuf messageType mismatch: writer " +:+ writer +:+ ", local " +:+ message_full_name))
  | None => map_error DeserializeError (proto_decode body)
  end.
End protobuf.

(** ** Untyped conformance (validate.rs) *)

(** prost-reflect's pool of linked files, each with its name and its top-level
    messages, and the decoding of a dynamic message of the pool. *)
Class ProtoReflect `{ProtoLib} := {
  pool_of : list FileDescriptorProto → result string (list (string * list MessageDescriptor));
  dynamic_decode : list FileDescriptorProto → MessageDescriptor → list Z → result string unit;
}.

Section validate.
Context `{AvroDatum} `{JsonText} `{JsonValidation} `{ProtoReflect}.

Definition validate_avro (schema : string) (body : list Z) : result SchemaSerdeError unit :=
  parsed ← map_error SchemaError (parse_str schema);
  '(_, cursor) ← map_error (λ e, DeserializeError ("avro body: " +:+ e)) (read_value parsed None None body);
  match cursor with
  | [] => Ok ()
  | _ => Err (DeserializeError ("avro body: " +:+ pretty (length cursor) +:+ " trailing byte(s) after the datum"))
  end.

Definition parse_proto (name schema : string) : result SchemaSerdeError FileDescriptorProto :=
  map_error (λ e, SchemaError ("protobuf schema: " +:+ e)) (protox_parse name schema).

Definition link_pool (files : list FileDescriptorProto)
    : result SchemaSerdeError (list (string * list MessageDescriptor)) :=
  map_error (λ e, SchemaError ("protobuf link: " +:+ e)) (pool_of files).

Definition decode_dynamic (files : list FileDescriptorProto) (d : MessageDescriptor) (body : list Z)
    : result SchemaSerdeError unit :=
  map_error (λ e, DeserializeError ("protobuf body: " +:+ e)) (dynamic_decode files d body).

Definition implicit_path (message_index : list Z) : list Z :=
  match message_index with [] => [0] | _ => message_index end.

Definition validate_protobuf (schema : string) (message_index body : list Z) : result SchemaSerdeError unit :=
  file ← parse_proto "schema.proto" schema;
  pool ← link_pool [file];
  '(_, messages) ← ok_or (head pool) (missing (implicit_path message_index));
  descriptor ← message_at messages message_index;
  decode_dynamic [file] descriptor body.

Fixpoint parse_sources (sources : list (string * string)) : result SchemaSerdeError (list FileDescriptorProto) :=
  match sources with
  | [] => Ok []
  | (name, source) :: rest =>
      file ← parse_proto name source;
      files ← parse_sources rest;
      Ok (file :: files)
  end.

Definition validate_protobuf_with_references (schema : string) (references : gmap string string)
    (message_index body : list Z) : result SchemaSerdeError unit :=
  imports ← parse_sources (hash_iter references);
  root ← parse_proto "schema.proto" schema;
  let files := imports ++ [root] in
  pool ← link_pool files;
  messages ← ok_or (assoc_get "schema.proto" pool) (SchemaError "protobuf root file missing");
  descriptor ← message_at messages message_index;
  decode_dynamic files descriptor body.

Definition validate_json (schema : string) (body : list Z) : result SchemaSerdeError unit :=
  schema_value ← map_error (λ e, SchemaError ("json schema: " +:+ e)) (json_text schema);
  validator ← map_error (λ e, SchemaError ("json schema: " +:+ e)) (build_validator None schema_value);
  instance ← map_error (λ e, DeserializeError ("json body: " +:+ e)) (value_from_slice body);
  map_error (λ e, DeserializeError ("json body: " +:+ e)) (validator instance).

(** The dispatcher, with the three formats compiled in. *)
Definition validate_body (kind : SchemaKind) (schema : string) (message_index body : list Z)
    : result SchemaSerdeError unit :=
  match kind with
  | KAvro => validate_avro schema body
  | KProtobuf => validate_protobuf schema message_index body
  | KJson => validate_json schema body
  end.
End validate.
