(* ===== verification/SerdeFacts.v ===== *)
(** * Correctness of the typed serializers (schema-serde: format/)

    The message index a Protobuf serializer puts into its frames leads a reader to
    the message it wrote; what a serde writes it reads back, through the frame and the
    cache. *)

From stdpp Require Import base gmap strings list pretty.
From Stdlib Require Import ZArith Lia Ascii.
From S2P Require Import Prelude Text Types Json Descriptor ProtoText ProtoDiff AvroFormat Wire Client Cache CacheFacts Serde.

#[local] Open Scope Z_scope.

(** ** Message indices *)

Section message_ind.
Context (P : MessageDescriptor → Prop).
Context (IH : ∀ name children, Forall P children → P (mkDescriptor name children)).

Fixpoint MessageDescriptor_nested_ind (d : MessageDescriptor) : P d :=
  match d with
  | mkDescriptor name children =>
      IH name children
        ((fix go l : Forall P l :=
            match l with
            | [] => Forall_nil_2 _
            | x :: l' => Forall_cons_2 _ _ _ (MessageDescriptor_nested_ind x) (go l')
            end) children)
  end.
End message_ind.

(** The message at a path below a list of messages. *)
Definition at_path (messages : list MessageDescriptor) (path : list Z) : option MessageDescriptor :=
  match path with
  | [] => None
  | first :: rest => current ← nth_message messages first; walk current rest
  end.

Lemma message_at_path messages path :
  path ≠ [] → message_at messages path =
  match at_path messages path with Some d => Ok d | None => Err (missing path) end.
Proof. by destruct path. Qed.

Lemma at_path_cons messages i rest : rest ≠ [] →
  at_path messages (i :: rest) = d ← nth_message messages i; at_path (child_messages d) rest.
Proof. by destruct rest. Qed.

Lemma nth_message_nat messages (i : nat) : nth_message messages (Z.of_nat i) = messages !! i.
Proof. unfold nth_message. destruct (Z.ltb_spec (Z.of_nat i) 0); [lia|]. by rewrite Nat2Z.id. Qed.

(** The names of a pool's messages fit a search: every level has at most [2^31]
    messages. *)
Fixpoint indexable (d : MessageDescriptor) : Prop :=
  Z.of_nat (length (child_messages d)) ≤ i32_max ∧ foldr and True (map indexable (child_messages d)).

(** What the search of one level finds, given what the search inside a message
    finds. *)
Lemma index_level_sound target (within : MessageDescriptor → string → option (list Z)) all :
  (∀ d name path, d ∈ all → within d name = Some path →
     path ≠ [] ∧ Forall in_i32 path ∧ ∃ r, at_path (child_messages d) path = Some r ∧ full_name r = target) →
  ∀ pre messages path, all = pre ++ messages →
  index_level (λ m, Some (full_name m)) within target messages (Z.of_nat (length pre)) = Some path →
  path ≠ [] ∧ Forall in_i32 path ∧ ∃ r, at_path all path = Some r ∧ full_name r = target.
Proof.
  intros Hin pre messages. revert pre. induction messages as [|m rest IH]; intros pre path Hall; cbn; [done|].
  destruct (Z.ltb_spec i32_max (Z.of_nat (length pre))) as [|Hle]; [done|]. cbn.
  assert (in_i32 (Z.of_nat (length pre))) as Hi by (unfold in_i32, i32_min; lia).
  assert (all !! length pre = Some m) as Hm by (subst all; by rewrite list_lookup_middle).
  destruct (String.eqb_spec target (full_name m)) as [->|Hne].
  - intros [= <-]. split_and!; [done|by constructor|]. exists m. split; [|done].
    cbn. by rewrite nth_message_nat, Hm.
  - destruct (within m (full_name m)) as [child|] eqn:Hw.
    + intros [= <-]. destruct (Hin m (full_name m) child) as (Hne' & Hc & r & Hr & Hname);
        [by apply list_elem_of_lookup_2 in Hm|done|].
      split_and!; [done|by constructor|]. exists r. split; [|done].
      rewrite at_path_cons, nth_message_nat, Hm by done. exact Hr.
    + intros Hgo. apply (IH (pre ++ [m])); [by rewrite <- app_assoc|].
      rewrite length_app, Nat2Z.inj_add. exact Hgo.
Qed.

Lemma index_within_sound target d : ∀ name path, index_within target d name = Some path →
  path ≠ [] ∧ Forall in_i32 path ∧ ∃ r, at_path (child_messages d) path = Some r ∧ full_name r = target.
Proof.
  induction d as [n children IH] using MessageDescriptor_nested_ind. intros name path. cbn [index_within child_messages].
  apply (index_level_sound target (index_within target) children) with (pre := []); [|done].
  rewrite Forall_forall in IH. intros d nm p Hd. by apply IH.
Qed.

Lemma message_index_in_sound messages target path : message_index_in messages target = Some path →
  path ≠ [] ∧ Forall in_i32 path ∧ ∃ r, at_path messages path = Some r ∧ full_name r = target.
Proof.
  apply (index_level_sound target (index_within target) messages) with (pre := []); [|done].
  intros d nm p _. apply index_within_sound.
Qed.

(** A message of the target's name below one of the messages is found. *)
Lemma index_level_complete target (within : MessageDescriptor → string → option (list Z)) messages :
  ∀ index, 0 ≤ index → index + Z.of_nat (length messages) ≤ i32_max →
  (∃ d, d ∈ messages ∧ (full_name d = target ∨ is_Some (within d (full_name d)))) →
  is_Some (index_level (λ m, Some (full_name m)) within target messages index).
Proof.
  induction messages as [|m rest IH]; intros index Hi Hl (d & Hd & Hw); [by apply not_elem_of_nil in Hd|]. cbn.
  cbn [length] in Hl. destruct (Z.ltb_spec i32_max index); [lia|]. cbn.
  destruct (String.eqb_spec target (full_name m)); [done|].
  destruct (within m (full_name m)) as [child|] eqn:Hm; [done|].
  apply elem_of_cons in Hd as [->|Hd].
  - destruct Hw as [Hw|Hw]; [congruence|]. rewrite Hm in Hw. by destruct Hw.
  - apply IH; [lia|lia|by exists d].
Qed.

Lemma nth_message_elem messages i d : nth_message messages i = Some d → d ∈ messages.
Proof. unfold nth_message. destruct (i <? 0); [done|]. apply list_elem_of_lookup_2. Qed.

Lemma foldr_and_elem {A} (P : A → Prop) l : foldr and True (map P l) ↔ ∀ x, x ∈ l → P x.
Proof.
  induction l as [|a l IH]; cbn; [split; [by intros _ x ?%not_elem_of_nil|done]|].
  rewrite IH. setoid_rewrite elem_of_cons. naive_solver.
Qed.

Lemma index_within_complete target d : ∀ name path r, indexable d →
  at_path (child_messages d) path = Some r → full_name r = target → is_Some (index_within target d name).
Proof.
  induction d as [n children IH] using MessageDescriptor_nested_ind. intros name path r [Hl Hsub] Hat Hr.
  cbn [index_within child_messages] in *. rewrite Forall_forall in IH. rewrite foldr_and_elem in Hsub.
  apply index_level_complete; [lia|lia|]. destruct path as [|i rest]; [done|]. cbn [at_path] in Hat.
  apply bind_Some in Hat as (c & Hc%nth_message_elem & Hw). exists c. split; [done|].
  destruct rest as [|j rest]; [by injection Hw as ->; left|]. right. by apply (IH c Hc _ (j :: rest) r); auto.
Qed.

Lemma message_index_in_complete messages target path r :
  Z.of_nat (length messages) ≤ i32_max → (∀ d, d ∈ messages → indexable d) →
  at_path messages path = Some r → full_name r = target → is_Some (message_index_in messages target).
Proof.
  intros Hl Hsub Hat Hr. destruct path as [|i rest]; [done|]. cbn [at_path] in Hat.
  apply bind_Some in Hat as (c & Hc%nth_message_elem & Hw).
  apply index_level_complete; [lia|lia|]. exists c. split; [done|].
  destruct rest as [|j rest]; [by injection Hw as ->; left|]. right.
  apply (index_within_complete target c (full_name c) (j :: rest) r); auto.
Qed.

(** ** Messages of a file, as the pool has them *)

Fixpoint pool_message (parent : string) (m : DescriptorProto) : MessageDescriptor :=
  mkDescriptor (qualified parent (m_name m)) (map (pool_message (qualified parent (m_name m))) (m_nested_type m)).

Definition pool_messages (file : FileDescriptorProto) : list MessageDescriptor :=
  pool_message (default "" (file_package file)) <$> file_message_type file.

(** Every message has a name. *)
Fixpoint named (m : DescriptorProto) : Prop :=
  is_Some (m_name_opt m) ∧ foldr and True (map named (m_nested_type m)).

Section descriptor_ind.
Context (P : DescriptorProto → Prop).
Context (IH : ∀ n f nested e o me rr rn, Forall P nested → P (mkMessage n f nested e o me rr rn)).

Fixpoint DescriptorProto_nested_ind (d : DescriptorProto) : P d :=
  match d with
  | mkMessage n f nested e o me rr rn =>
      IH n f nested e o me rr rn
        ((fix go l : Forall P l :=
            match l with
            | [] => Forall_nil_2 _
            | x :: l' => Forall_cons_2 _ _ _ (DescriptorProto_nested_ind x) (go l')
            end) nested)
  end.
End descriptor_ind.

Lemma index_level_pool target parent within within' messages : ∀ index,
  (∀ m, m ∈ messages → is_Some (m_name_opt m) ∧
     ∀ name, within m (qualified parent (m_name m)) = within' (pool_message parent m) name) →
  index_level (λ m, qualified parent <$> m_name_opt m) within target messages index =
  index_level (λ m, Some (full_name m)) within' target (pool_message parent <$> messages) index.
Proof.
  induction messages as [|m rest IH]; intros index Hm; [done|]. cbn.
  destruct (Hm m ltac:(left)) as [[name Hn] Hw]. destruct (i32_max <? index); [done|].
  assert (full_name (pool_message parent m) = qualified parent name) as Hf
    by (destruct m; cbn in *; unfold m_name; cbn; by rewrite Hn).
  assert (m_name m = name) as Hname by (unfold m_name; by rewrite Hn).
  rewrite Hn. cbn. rewrite Hf. destruct (String.eqb target _); [done|].
  rewrite <- Hname, Hw with (qualified parent name), Hname.
  destruct (within' _ _); [done|]. apply IH. intros m' Hm'. apply Hm. by right.
Qed.

Lemma index_within_pool target m : ∀ parent name, named m →
  index_within_proto target m (qualified parent (m_name m)) = index_within target (pool_message parent m) name.
Proof.
  induction m as [n f nested e o me rr rn IH] using DescriptorProto_nested_ind. intros parent name [Hn Hsub].
  rewrite Forall_forall in IH. cbn in Hsub. rewrite foldr_and_elem in Hsub. cbn.
  apply index_level_pool. intros m' Hm'. split.
  - destruct m'. by destruct (Hsub _ Hm').
  - intros nm. apply IH; [done|by apply Hsub].
Qed.

(** The search in the descriptor of a file is the search in the pool's messages. *)
Lemma index_in_pool file target :
  (∀ m, m ∈ file_message_type file → named m) →
  message_index_in_proto file target = message_index_in (pool_messages file) target.
Proof.
  intros Hn. apply index_level_pool. intros m Hm. split.
  - destruct m. by destruct (Hn _ Hm).
  - intros nm. apply index_within_pool. by apply Hn.
Qed.

(** A path of the search is made of [i32] indices. *)
Lemma index_level_range {A} (name_of : A → option string) within target messages : ∀ index path,
  (∀ m name p, m ∈ messages → within m name = Some p → Forall in_i32 p) → 0 ≤ index →
  index_level name_of within target messages index = Some path → path ≠ [] ∧ Forall in_i32 path.
Proof.
  induction messages as [|m rest IH]; intros index path Hin Hi; cbn; [done|].
  destruct (Z.ltb_spec i32_max index); [done|]. assert (in_i32 index) by (unfold in_i32, i32_min; lia).
  destruct (name_of m) as [name|]; [|done]. cbn. destruct (String.eqb target name).
  - intros [= <-]. split; [done|]. by constructor.
  - destruct (within m name) as [child|] eqn:Hw.
    + intros [= <-]. split; [done|]. constructor; [done|]. apply (Hin m name); [left|done].
    + apply IH; [|lia]. intros m' n' p' Hm'. apply Hin. by right.
Qed.

Lemma index_within_proto_range target m : ∀ parent path,
  index_within_proto target m parent = Some path → Forall in_i32 path.
Proof.
  induction m as [n f nested e o me rr rn IH] using DescriptorProto_nested_ind. intros parent path. cbn.
  rewrite Forall_forall in IH. intros Hp. eapply index_level_range in Hp as [_ Hp]; [done| |lia].
  intros m name p Hm. by apply IH.
Qed.

Lemma message_index_range file target path :
  message_index_in_proto file target = Some path → path ≠ [] ∧ Forall in_i32 path.
Proof. apply index_level_range; [|lia]. intros m name p _. apply index_within_proto_range. Qed.

(** ** After a pre-warm *)

Section prewarmed.
Context {V D : Type} `{EqDecision V} `{EqDecision D} (json_of : string → option V) (proto_of : string → option D).
Context (api : RegistryApi) (mode : RegisterMode).

Local Abbreviation entry := (prewarm_entry json_of proto_of api mode).

(** No other entry claims the entry's subject or its id. *)
Definition alone (i : Interned) (pending : list Interned) : Prop :=
  ∀ j id w mt id' w' mt', j ∈ pending → entry i = Ok (id, w, mt) → entry j = Ok (id', w', mt') →
    in_subject j = in_subject i ∨ id' = id → j = i.

(** What is installed under an id stays, when only one entry claims it. *)
Lemma prewarm_all_keeps i id w mt pending : ∀ g g',
  entry i = Ok (id, w, mt) → alone i pending →
  prewarm_all json_of proto_of api mode pending g = (g', Ok ()) →
  (i ∈ pending ∨ subject_id g !! in_subject i = Some id ∧ id_writer_schema g !! id = Some w ∧
     (is_Some mt → id_message_type g !! id = mt)) →
  subject_id g' !! in_subject i = Some id ∧ id_writer_schema g' !! id = Some w ∧
  (is_Some mt → id_message_type g' !! id = mt).
Proof.
  intros g g' He. revert g g'. induction pending as [|j rest IH]; intros g g' Hal; cbn.
  { intros [= <-] [Hi|Hi]; [by apply not_elem_of_nil in Hi|done]. }
  destruct (entry j) as [[[id' w'] mt']|] eqn:Hj; [|done]. intros Hrun Hi.
  assert (alone i rest) as Hal' by (intros k ?????? Hk; apply Hal; by right).
  apply (IH _ _ Hal' Hrun). destruct (decide (j = i)) as [->|Hne].
  - right. rewrite He in Hj. injection Hj as <- <- <-. cbn. rewrite !lookup_insert_eq. split_and!; [done..|].
    destruct mt; [|by intros []]. intros _. cbn. by rewrite lookup_insert_eq.
  - assert (in_subject j ≠ in_subject i ∧ id' ≠ id) as [Hs Hid].
    { split; intros Heq; apply Hne; eapply Hal; eauto; by left. }
    destruct Hi as [[->|Hi]%elem_of_cons|(H1 & H2 & H3)]; [done|by left|]. right. cbn.
    rewrite !lookup_insert_ne by done. split_and!; [done..|]. intros Hm. specialize (H3 Hm).
    destruct mt'; cbn; [|done]. by rewrite lookup_insert_ne.
Qed.
End prewarmed.

(** ** What a serde writes, it reads back *)

(** A datum written with a schema is read back with the schema's canonical form as the
    writer's. *)
Class AvroDatumLaws `{AvroDatum} (T : Type) `{!AvroType T} := {
  avro_read_back : ∀ (v : T) av body, to_value v = Ok av → write_value get_schema av = Ok body →
    ∃ ws left, parse_list [schema_canonical_form get_schema] = Ok [ws] ∧
      read_value ws (Some [ws]) (Some get_schema) body = Ok (av, left) ∧ from_value av = Ok v;
}.

(** A serialised value is read back, and satisfies the schema of its type. *)
Class JsonTypeLaws `{JsonText} `{JsonValidation} (T : Type) `{!JsonType T} := {
  json_read_back : ∀ (v : T) body, to_vec v = Ok body → json_from_slice body = Ok v;
  json_conforms : ∀ (v : T) body, to_vec v = Ok body → ∃ schema inst validator,
    json_text schema_for = Ok schema ∧ value_from_slice body = Ok inst ∧
    build_validator (Some (retrieve ∅)) schema = Ok validator ∧ validator inst = Ok ();
  hash_iter_empty : hash_iter ∅ = [];
}.

Class ProtoTypeLaws (T : Type) `{!ProtoType T} := {
  proto_read_back : ∀ v : T, proto_decode (encode_to_vec v) = Ok v;
}.

(** [protox_parse] gives named messages; the pool of one file has that file's messages
    under their qualified names. *)
Class PoolLaws `{ProtoReflect} := {
  parse_named : ∀ name text file, protox_parse name text = Ok file →
    ∀ m, m ∈ file_message_type file → named m;
  pool_single : ∀ file pool, pool_of [file] = Ok pool → ∃ name, pool = [(name, pool_messages file)];
}.

Section round_trip.
Context {V D : Type} `{EqDecision V} `{EqDecision D} (json_of : string → option V) (proto_of : string → option D).
Context (api : RegistryApi).

(** A topic whose serde was registered and pre-warmed in the automatic mode, with no
    other serde claiming its subject or id. *)
Definition prewarmed (b : Binding) (topic : string) (g : Inner) : Prop :=
  ∃ g0, alone json_of proto_of api AutoRegister (binding_interned b topic) (interned (binding_register b topic g0)) ∧
    prewarm json_of proto_of api AutoRegister (binding_register b topic g0) = (g, Ok ()).

Lemma intern_elem i g : i ∈ interned (intern i g).
Proof.
  unfold intern. case_bool_decide as Hi; [done|]. cbn. apply elem_of_app. right. by apply list_elem_of_singleton.
Qed.

(** The id and the writer's schema a pre-warmed serde without references finds. *)
Lemma prewarmed_cache b topic g :
  prewarmed b topic g → b_references b = [] →
  ∃ id, binding_id b topic g = Ok id ∧
    api_register api (binding_subject b topic) (b_kind b) (b_schema b) [] (b_message_type b) = Ok id ∧
    id_writer_schema g !! id = Some (mkWriter (b_schema b) ∅ []) ∧
    (is_Some (b_message_type b) → writer_message_type id g = b_message_type b).
Proof.
  intros (g0 & Hal & Hrun) Hrefs. unfold prewarm in Hrun.
  destruct (prewarm_all_result _ _ _ _ _ _ _ _ Hrun _ (intern_elem (binding_interned b topic) g0))
    as [_ (id & w & mt & He & _)].
  destruct (prewarm_all_keeps json_of proto_of api AutoRegister _ id w mt _ _ _ He Hal Hrun) as (Hs & Hw & Hm);
    [left; apply intern_elem|].
  cbn [prewarm_entry binding_interned in_subject in_kind in_schema in_references in_message_type] in He, Hs.
  rewrite Hrefs in He. destruct (api_register api _ _ _ _ _) as [id'|] eqn:Hreg; [|done]. cbn in He.
  injection He as -> <- <-. exists id. split_and!; [|done|done|done].
  unfold binding_id, id_for_subject. by rewrite Hs.
Qed.

Lemma cached_writer id now w g :
  id_writer_schema g !! id = Some w → writer_schema_with_references id now g = (Ok w, g, None).
Proof. unfold writer_schema_with_references. by intros ->. Qed.

(** What a serde writes it reads back. Once the serde of a type was registered for a topic and
    pre-warmed, the bytes it serializes a value to are deserialized to that value by the
    same cache, without a fetch, for Avro, for JSON with and without validation, and for Protobuf. *)
Theorem serde_round_trip `{AvroDatum, JsonText, JsonValidation, ProtoLib} {A J P : Type}
    `{!AvroType A, !AvroDatumLaws A, !JsonType J, !JsonTypeLaws J, !ProtoType P, !ProtoTypeLaws P}
    topic role now g bytes :
  (∀ subject kind schema refs mt id, api_register api subject kind schema refs mt = Ok id → in_u32 id) →
  (∀ v : A, prewarmed (avro_make (T := A) role) topic g → avro_serialize (avro_make (T := A) role) topic v g = Ok bytes →
     avro_deserialize (T := A) bytes now g = (Ok v, g, None)) ∧
  (∀ (v : J) validate, prewarmed (json_make (T := J) role) topic g →
     json_serialize (json_make (T := J) role) topic v g = Ok bytes →
     json_deserialize (T := J) validate bytes now g = (Ok v, g, None)) ∧
  (∀ (v : P) b index, protobuf_make (T := P) role = Some (b, index) → in_i64 (Z.of_nat (length index)) →
     prewarmed b topic g → protobuf_serialize b index topic v g = Ok bytes →
     protobuf_deserialize bytes g = Ok v).
Proof.
  intros Hu. split_and!.
  - intros v Hpre. unfold avro_serialize.
    destruct (prewarmed_cache _ _ _ Hpre eq_refl) as (id & -> & Hreg & Hw & _). cbn.
    destruct (to_value v) as [av|] eqn:Hv; [|done]. cbn.
    destruct (write_value get_schema av) as [body|] eqn:Hb; [|done]. cbn. intros [= <-].
    destruct (avro_read_back v av body Hv Hb) as (ws & left & Hp & Hr & Hf).
    unfold avro_deserialize. unfold decode, encode. rewrite strip_header_frame by (by eapply Hu). cbn [wire].
    rewrite (cached_writer _ _ _ _ Hw). cbn [mbind result_bind]. unfold avro_read, avro_sources. cbn.
    rewrite Hp. cbn. rewrite Hr. cbn. by rewrite Hf.
  - intros v validate Hpre. unfold json_serialize.
    destruct (prewarmed_cache _ _ _ Hpre eq_refl) as (id & -> & Hreg & Hw & _). cbn.
    destruct (to_vec v) as [body|] eqn:Hb; [|done]. cbn. intros [= <-].
    unfold json_deserialize. unfold decode, encode. rewrite strip_header_frame by (by eapply Hu). cbn [wire].
    rewrite (json_read_back v body Hb). destruct validate; [|done].
    rewrite (cached_writer _ _ _ _ Hw). cbn [mbind result_bind].
    destruct (json_conforms v body Hb) as (schema & inst & validator & Hs & Hi & Hval & Hok).
    unfold json_validate. cbn. rewrite Hs. cbn. rewrite Hi. cbn. rewrite hash_iter_empty. cbn.
    rewrite Hval. cbn. by rewrite Hok.
  - intros v b index Hmake Hlen Hpre. unfold protobuf_make in Hmake.
    apply bind_Some in Hmake as (file & Hparse & (path & Hindex & [= <- <-])%bind_Some).
    destruct (message_index_range _ _ _ Hindex) as [Hne Hi32]. unfold protobuf_serialize.
    destruct (prewarmed_cache _ _ _ Hpre eq_refl) as (id & -> & Hreg & _ & Hm). cbn [mbind result_bind].
    intros [= <-]. unfold protobuf_deserialize.
    rewrite decode_encode_protobuf by (first [done | by eapply Hu]). cbn [wire mbind result_bind].
    rewrite (Hm ltac:(done)). cbn. by rewrite String.eqb_refl, proto_read_back.
Qed.
End round_trip.

Lemma message_at_ok messages path d :
  message_at messages path = Ok d → ∃ path', path' ≠ [] ∧ at_path messages path' = Some d.
Proof.
  destruct path as [|i rest].
  - intros Hd. exists [0]. split; [done|]. unfold message_at in Hd. unfold at_path.
    destruct (nth_message messages 0); cbn [mbind option_bind walk] in *; congruence.
  - rewrite message_at_path by done. intros Hd. exists (i :: rest). split; [done|].
    destruct (at_path messages (i :: rest)); congruence.
Qed.

(** C34: the message index names the message. The path a Protobuf serde puts into its frames is a
    non-empty list of [i32]s, is the one [message_index] finds for the message of its type in
    the pool of the schema text it registers, and leads there to that message, so the untyped
    validation of its frames checks the body against that very message; and making the serde
    does not panic when the parsed text has such a message, with fewer than 2^31 messages on
    each level. *)
Theorem message_index_spec `{AvroDatum, JsonText, JsonValidation, PoolLaws} {T : Type} `{!ProtoType T}
    role file pool :
  protox_parse "schema.proto" proto_source = Ok file → pool_of [file] = Ok pool →
  (∀ b index body, protobuf_make role = Some (b, index) →
     index ≠ [] ∧ Forall in_i32 index ∧
     ∃ d, message_at (pool_messages file) index = Ok d ∧ full_name d = message_full_name ∧
       message_index (pool_messages file) d = Ok index ∧
       validate_body KProtobuf (b_schema b) index body = decode_dynamic [file] d body) ∧
  (∀ path d, message_at (pool_messages file) path = Ok d → full_name d = message_full_name →
     Z.of_nat (length (pool_messages file)) ≤ i32_max → Forall indexable (pool_messages file) →
     is_Some (protobuf_make role)).
Proof.
  intros Hparse Hpool. pose proof (index_in_pool file message_full_name (parse_named _ _ _ Hparse)) as Heq.
  unfold protobuf_make. rewrite Hparse. cbn [result_ok mbind option_bind]. rewrite Heq. split.
  - intros b index body (path & Hp & [= <- <-])%bind_Some.
    destruct (message_index_in_sound _ _ _ Hp) as (Hne & Hi32 & d & Hd & Hname).
    split_and!; [done..|]. exists d.
    assert (message_at (pool_messages file) path = Ok d) as Hat by (rewrite message_at_path by done; by rewrite Hd).
    split_and!; [done..| |]; [by unfold message_index; rewrite Hname, Hp|].
    destruct (pool_single _ _ Hpool) as [name ->].
    cbn. unfold validate_protobuf, parse_proto, link_pool. rewrite Hparse. cbn. rewrite Hpool. cbn. by rewrite Hat.
  - intros path d (path' & _ & Hat)%message_at_ok Hd Hl Hix. rewrite Forall_forall in Hix.
    destruct (message_index_in_complete _ _ path' d Hl Hix Hat Hd) as [p ->]. by eexists.
Qed.

(** ** Witnesses *)

Section witnesses.
(** Values of every kind are bytes written as they are; one schema of each format. *)
#[local] Instance byte_avro : AvroLib := {|
  avro_schema := unit; parse_str _ := Ok (); parse_list l := Ok (replicate (length l) ());
  can_read _ _ := Ok Full |}.
#[local] Instance byte_datum : AvroDatum := {|
  avro_value := Z; schema_canonical_form _ := "bytes"; write_value _ v := Ok [v];
  read_value _ _ _ bs := match bs with v :: rest => Ok (v, rest) | [] => Err "end" end |}.
#[local] Instance byte_avro_type : AvroType Z := {| get_schema := (); to_value := Ok; from_value := Ok |}.
#[local] Instance byte_avro_laws : AvroDatumLaws Z.
Proof. constructor. intros v av body [= <-] [= <-]. by exists (), []. Defined.
#[local] Instance byte_text : JsonText := λ _, Ok JNull.
#[local] Instance byte_validation : JsonValidation := {|
  value_from_slice _ := Ok JNull; build_validator _ _ := Ok (λ _, Ok ()); hash_iter := map_to_list |}.
#[local] Instance byte_json_type : JsonType Z := {|
  schema_for := "{}"; to_vec v := Ok [v];
  json_from_slice bs := match bs with [v] => Ok v | _ => Err "no byte" end |}.
#[local] Instance byte_json_laws : JsonTypeLaws Z.
Proof. constructor; [by intros v body [= <-]|by intros v body [= <-]; eexists _, _, _|done]. Defined.

Definition line_message : DescriptorProto := mkMessage (Some "Line") [] [] [] [] None [] [].
Definition order_message : DescriptorProto := mkMessage (Some "Order") [] [line_message] [] [] None [] [].
Definition note_message : DescriptorProto := mkMessage (Some "Note") [] [] [] [] None [] [].
Definition shop_file : FileDescriptorProto :=
  mkFile (Some "schema.proto") (Some "shop") [] [note_message; order_message] [] [] (Some "proto3").

#[local] Instance shop_lib : ProtoLib := {|
  protox_parse _ _ := Ok shop_file; link_files _ := Ok (); encode_hex _ := "" |}.
#[local] Instance shop_reflect : ProtoReflect := {|
  pool_of files := Ok ((λ f, ("schema.proto", pool_messages f)) <$> files); dynamic_decode _ _ _ := Ok () |}.
#[local] Instance shop_laws : PoolLaws.
Proof.
  constructor.
  - intros name text file [= <-] m Hm.
    repeat (apply elem_of_cons in Hm as [->|Hm]; [cbn; repeat split; by eexists|]). by apply elem_of_nil in Hm.
  - intros file pool [= <-]. by eexists.
Defined.
#[local] Instance line_type : ProtoType Z := {|
  parent_file := shop_file; message_full_name := "shop.Order.Line"; encode_to_vec v := [v];
  proto_decode bs := match bs with [v] => Ok v | _ => Err "no byte" end |}.
#[local] Instance line_laws : ProtoTypeLaws Z.
Proof. by constructor. Defined.

Definition seven_api : RegistryApi :=
  mkApi (λ _ _ _ _ _, Ok 7) (λ _ _ _ _ _, Ok 7) (λ _, Err (SchemaError "")) (λ _, Err (SchemaError ""))
    (λ _ _, Err (SchemaError "")).

Definition warmed (b : Binding) : Inner :=
  (prewarm (V := unit) (D := unit) (λ _, None) (λ _, None) seven_api AutoRegister
     (binding_register b "orders" inner_default)).1.

Lemma warmed_prewarmed b : b_references b = [] →
  prewarmed (V := unit) (D := unit) (λ _, None) (λ _, None) seven_api b "orders" (warmed b).
Proof.
  intros Hr. exists inner_default. split.
  - intros j id w mt id' w' mt' Hj _ _ _. cbn in Hj. by apply list_elem_of_singleton in Hj.
  - unfold warmed, prewarm, binding_register, intern.
    case_bool_decide as Hin; [by apply not_elem_of_nil in Hin|]. cbn. by rewrite Hr.
Qed.

Definition line_binding : Binding := mkBinding Value KProtobuf proto_source [] (Some "shop.Order.Line").

Lemma serde_round_trip_witness :
  avro_deserialize (T := Z) [0; 0; 0; 0; 7; 42] 0 (warmed (avro_make (T := Z) Value)) =
    (Ok 42, warmed (avro_make (T := Z) Value), None) ∧
  protobuf_deserialize (T := Z) [0; 0; 0; 0; 7; 4; 2; 0; 42] (warmed line_binding) = Ok 42.
Proof.
  assert (∀ subject kind schema refs mt id, api_register seven_api subject kind schema refs mt = Ok id → in_u32 id)
    as Hu by (intros ? ? ? ? ? ? [= <-]; split; [discriminate|reflexivity]).
  split.
  - refine (proj1 (serde_round_trip (A := Z) (J := Z) (P := Z) (λ _, None) (λ _, None) seven_api "orders" Value 0
      _ [0; 0; 0; 0; 7; 42] Hu) 42 (warmed_prewarmed (avro_make (T := Z) Value) eq_refl) _). reflexivity.
  - refine (proj2 (proj2 (serde_round_trip (A := Z) (J := Z) (P := Z) (λ _, None) (λ _, None) seven_api "orders" Value 0
      _ [0; 0; 0; 0; 7; 4; 2; 0; 42] Hu)) 42 line_binding [1; 0] _ _ (warmed_prewarmed line_binding eq_refl) _);
      [reflexivity|split; [discriminate|reflexivity]|reflexivity].
Defined.

Lemma message_index_spec_witness : ∃ d,
  message_at (pool_messages shop_file) [1; 0] = Ok d ∧ full_name d = "shop.Order.Line" ∧
  is_Some (protobuf_make (T := Z) Value).
Proof.
  pose proof (message_index_spec (T := Z) Value shop_file [("schema.proto", pool_messages shop_file)]) as Hm.
  destruct Hm as [Hs Hc]; [reflexivity|reflexivity|].
  destruct (Hs line_binding [1; 0] [42] eq_refl) as (_ & _ & d & Hd & Hn & _).
  exists d. split; [exact Hd|]. split; [exact Hn|]. apply (Hc [1; 0] d Hd Hn).
  - discriminate.
  - repeat constructor; discriminate.
Defined.
End witnesses.
