(* ===== verification/Election.v ===== *)
(** * Primary election (election/mod.rs, election/protocol.rs, election/client.rs)

    The identities and assignments of the "sr" group with their JSON forms,
    the leader's choice, and one node's membership loop as a state machine
    over the coordinator's answers. The coordinator is the environment: each
    answer is an event, [None] a failed call. *)

From stdpp Require Import base gmap strings list pretty.
From Stdlib Require Import ZArith Lia Ascii.
From S2P Require Import Prelude Text Json Types Store Record RecordFacts KafkaStore.

(** ** Identities (election/protocol.rs) *)

Record SchemaRegistryIdentity := mkIdentity {
  si_host : string;
  si_port : Z;
  si_master_eligibility : bool;
  si_scheme : string;
  si_version : Z;
}.

#[global] Instance identity_eq_dec : EqDecision SchemaRegistryIdentity.
Proof. solve_decision. Defined.

Definition url (i : SchemaRegistryIdentity) : string :=
  si_scheme i +:+ "://" +:+ si_host i +:+ ":" +:+ pretty (si_port i).

Record SchemaRegistryGroupAssignment := mkAssignment {
  ga_error : Z;
  ga_master : option string;
  ga_master_identity : option SchemaRegistryIdentity;
  ga_version : Z;
}.

Definition SR_VERSION : Z := 1.

(** [#[derive(Default)]]. *)
Definition default_assignment : SchemaRegistryGroupAssignment := mkAssignment 0 None None 0.

Definition ser_identity (i : SchemaRegistryIdentity) : json :=
  JObject [("host", JString (si_host i)); ("port", ser_int (si_port i));
           ("master_eligibility", JBool (si_master_eligibility i));
           ("scheme", JString (si_scheme i)); ("version", ser_int (si_version i))].

Definition de_identity (v : json) : option SchemaRegistryIdentity :=
  l ← struct_fields ["host"; "port"; "master_eligibility"; "scheme"; "version"] v;
  host ← required "host" l ≫= de_string;
  port ← required "port" l ≫= de_i32;
  eligible ← required "master_eligibility" l ≫= de_bool;
  scheme ← required "scheme" l ≫= de_string;
  version ← required "version" l ≫= de_i32;
  Some (mkIdentity host port eligible scheme version).

Definition ser_assignment (a : SchemaRegistryGroupAssignment) : json :=
  JObject [("error", ser_int (ga_error a)); ("master", ser_opt_string (ga_master a));
           ("master_identity",
             match ga_master_identity a with Some i => ser_identity i | None => JNull end);
           ("version", ser_int (ga_version a))].

Definition de_opt_identity (f : option json) : option (option SchemaRegistryIdentity) :=
  match f with
  | None | Some JNull => Some None
  | Some v => Some <$> de_identity v
  end.

Definition de_assignment (v : json) : option SchemaRegistryGroupAssignment :=
  l ← struct_fields ["error"; "master"; "master_identity"; "version"] v;
  error ← required "error" l ≫= de_i32;
  master ← field "master" l ≫= de_opt_string;
  identity ← field "master_identity" l ≫= de_opt_identity;
  version ← required "version" l ≫= de_i32;
  Some (mkAssignment error master identity version).

(** [Iterator::min_by]: the first of the least elements. *)
Fixpoint min_by {A} (leb : A → A → bool) (l : list A) : option A :=
  match l with
  | [] => None
  | x :: l' =>
      match min_by leb l' with
      | Some y => if leb x y then Some x else Some y
      | None => Some x
      end
  end.

Definition select_master (members : list (string * SchemaRegistryIdentity))
    : option (string * SchemaRegistryIdentity) :=
  min_by (λ a b, String.leb (url a.2) (url b.2))
    (List.filter (λ m, si_master_eligibility m.2) members).

(** [parse_identity] (election/mod.rs). *)
Inductive IdentityError := MissingScheme | MissingPort | BadPort.

Definition parse_identity (u : string) (eligible : bool)
    : result IdentityError SchemaRegistryIdentity :=
  '(scheme, rest) ← ok_or (split_once "://" u) MissingScheme;
  '(host, port) ← ok_or (rsplit_once ":"%char rest) MissingPort;
  port ← ok_or (parse_i32 port) BadPort;
  Ok (mkIdentity host port eligible scheme 1).

(** ** The membership loop (election/client.rs) *)

Definition NONE : Z := 0.
Definition COORDINATOR_LOAD_IN_PROGRESS : Z := 14.
Definition COORDINATOR_NOT_AVAILABLE : Z := 15.
Definition NOT_COORDINATOR : Z := 16.
Definition ILLEGAL_GENERATION : Z := 22.
Definition UNKNOWN_MEMBER_ID : Z := 25.
Definition REBALANCE_IN_PROGRESS : Z := 27.
Definition MEMBER_ID_REQUIRED : Z := 79.

Record JoinGroupMember := mkMember { gm_member_id : string; gm_metadata : string }.

Record JoinGroupResponse := mkJoin {
  jg_error_code : Z;
  jg_generation_id : Z;
  jg_leader : string;
  jg_member_id : string;
  jg_members : list JoinGroupMember;
}.

Record SyncGroupRequest := mkSyncRequest {
  sq_generation_id : Z;
  sq_member_id : string;
  sq_assignments : list (string * string);
}.

Record SyncGroupResponse := mkSync { sg_error_code : Z; sg_assignment : string }.

Inductive ElectionError :=
  | RequestFailed
  | JoinGroupError (code : Z)
  | SyncGroupError (code : Z)
  | HeartbeatError (code : Z).

Definition default_primary : PrimaryState := mkPrimaryState false None None None.

Section client.
Context `{SerdeJson}.

(** The leader's side of [join_and_sync]: everyone gets the one choice. *)
Definition leader_assignments (members : list JoinGroupMember) : list (string * string) :=
  let ids := omap (λ m, (λ i, (gm_member_id m, i)) <$> from_slice de_identity (gm_metadata m)) members in
  let '(master, identity) :=
    match select_master ids with
    | Some (mid, idn) => (Some mid, Some idn)
    | None => (None, None)
    end in
  let assign := to_vec (ser_assignment (mkAssignment 0 master identity SR_VERSION)) in
  (λ m, (gm_member_id m, assign)) <$> members.

Definition sync_request (jg : JoinGroupResponse) : SyncGroupRequest :=
  mkSyncRequest (jg_generation_id jg) (jg_member_id jg)
    (if String.eqb (jg_leader jg) (jg_member_id jg) then leader_assignments (jg_members jg) else []).

(** [join_and_sync]: the generation and this node's assignment, with the
    member id it leaves behind also on failure. [first] and [second] answer
    the two [JoinGroup] calls. *)
Definition join_and_sync (member_id : string) (first second : option JoinGroupResponse)
    (sync : SyncGroupRequest → option SyncGroupResponse)
    : result ElectionError (Z * string) * string :=
  match first with
  | None => (Err RequestFailed, member_id)
  | Some jg1 =>
      let retried := (jg_error_code jg1 =? MEMBER_ID_REQUIRED)%Z in
      let member_id := if retried then jg_member_id jg1 else member_id in
      match (if retried then second else Some jg1) with
      | None => (Err RequestFailed, member_id)
      | Some jg =>
          if negb (jg_error_code jg =? NONE)%Z then (Err (JoinGroupError (jg_error_code jg)), member_id)
          else
            let member_id := jg_member_id jg in
            match sync (sync_request jg) with
            | None => (Err RequestFailed, member_id)
            | Some sg =>
                if negb (sg_error_code sg =? NONE)%Z then (Err (SyncGroupError (sg_error_code sg)), member_id)
                else (Ok (jg_generation_id jg, sg_assignment sg), member_id)
            end
      end
  end.

(** [publish]: an unreadable assignment is the default one. *)
Definition publish_state (identity : SchemaRegistryIdentity) (assignment : string)
    (generation_id : Z) (member_id : string) : PrimaryState :=
  let parsed := default default_assignment (from_slice de_assignment assignment) in
  let is_primary := bool_decide (ga_master_identity parsed = Some identity) in
  mkPrimaryState is_primary (url <$> ga_master_identity parsed)
    (if is_primary then Some generation_id else None)
    (if is_primary then Some member_id else None).

(** *** One node *)

Inductive Phase :=
  | Connecting
  | Joining
  | Heartbeating (generation : Z)
  | Stopped.

Record Node := mkNode {
  nd_identity : SchemaRegistryIdentity;
  nd_member_id : string;
  nd_phase : Phase;
  nd_primary : PrimaryState;
}.

Definition node_init (identity : SchemaRegistryIdentity) : Node :=
  mkNode identity "" Connecting default_primary.

(** The error branch of [run]: rejoin from scratch, nobody is primary. *)
Definition reconnect (n : Node) : Node := mkNode (nd_identity n) "" Connecting default_primary.

Definition set_phase (p : Phase) (n : Node) : Node :=
  mkNode (nd_identity n) (nd_member_id n) p (nd_primary n).

Inductive ElectionEvent :=
  | EvConnect (ok : bool)
  | EvJoin (first second : option JoinGroupResponse)
      (sync : SyncGroupRequest → option SyncGroupResponse)
  | EvHeartbeat (code : option Z)
  | EvCancel.

(** The heartbeat arm of [run_session]. *)
Definition heartbeat (n : Node) (code : option Z) : Node :=
  match code with
  | None => reconnect n
  | Some c =>
      if (c =? NONE)%Z then n
      else if (c =? REBALANCE_IN_PROGRESS)%Z || (c =? ILLEGAL_GENERATION)%Z then set_phase Joining n
      else if (c =? UNKNOWN_MEMBER_ID)%Z then mkNode (nd_identity n) "" Joining (nd_primary n)
      else if (c =? NOT_COORDINATOR)%Z || (c =? COORDINATOR_NOT_AVAILABLE)%Z
              || (c =? COORDINATOR_LOAD_IN_PROGRESS)%Z then reconnect n
      else n
  end.

Definition node_step (n : Node) (ev : ElectionEvent) : Node :=
  match nd_phase n, ev with
  | Connecting, EvConnect true => set_phase Joining n
  | Connecting, EvConnect false => reconnect n
  | Connecting, EvCancel => set_phase Stopped n
  | Joining, EvJoin first second sync =>
      match join_and_sync (nd_member_id n) first second sync with
      | (Ok (generation, assignment), member_id) =>
          mkNode (nd_identity n) member_id (Heartbeating generation)
            (publish_state (nd_identity n) assignment generation member_id)
      | (Err _, _) => reconnect n
      end
  | Heartbeating _, EvHeartbeat code => heartbeat n code
  | Heartbeating _, EvCancel => set_phase Stopped n
  | _, _ => n
  end.
End client.
