(* ===== verification/ElectionFacts.v ===== *)
(** * Correctness of the election (election/)

    The identities survive the group protocol; within one generation every
    member publishes the same primary, which is the least eligible one; a
    node claims the primary role only for the generation and the member id it
    holds. *)

From stdpp Require Import base gmap strings list pretty.
From Stdlib Require Import ZArith Lia Ascii.
From S2P Require Import Prelude Text Json Types Store Record RecordFacts KafkaStore Election.

#[local] Opaque ser_int.

Definition identity_ok (i : SchemaRegistryIdentity) : Prop :=
  in_i32 (si_port i) ∧ in_i32 (si_version i).

(** ** Identities *)

(** The URL of an identity parses back to it, whatever the host (an IPv6 literal with its
    colons included), up to the protocol version, which a node always states as 1. *)
Lemma identity_url_round_trip i eligible :
  free_of ":" (si_scheme i) = true → in_i32 (si_port i) →
  parse_identity (url i) eligible =
    Ok (mkIdentity (si_host i) (si_port i) eligible (si_scheme i) 1).
Proof.
  intros Hs Hp. unfold parse_identity, url.
  change "://" with (String ":" "//"). rewrite split_once_app by done. simpl.
  change (":" +:+ pretty (si_port i)) with (String ":" (pretty (si_port i))).
  rewrite rsplit_once_app by (by apply free_of_pretty_Z). simpl. by rewrite parse_i32_pretty.
Qed.

Lemma de_ser_identity i : identity_ok i → de_identity (ser_identity i) = Some i.
Proof.
  intros [Hp Hv]. destruct i as [h p e s v]. simpl in *. unfold de_identity, ser_identity. simpl.
  rewrite (de_i32_ser p), (de_i32_ser v) by done. done.
Qed.

Lemma ser_identity_plain i : identity_ok i → json_plain (ser_identity i) = true.
Proof.
  intros [Hp Hv]. destruct i as [h p e s v]. simpl in *.
  by rewrite (ser_int_plain p), (ser_int_plain v).
Qed.

#[local] Arguments ser_identity : simpl never.
#[local] Arguments de_opt_identity : simpl never.

Lemma de_ser_opt_identity i :
  identity_ok i → de_opt_identity (Some (ser_identity i)) = Some (Some i).
Proof.
  intros Hi. change (de_opt_identity _) with (Some <$> de_identity (ser_identity i)).
  by rewrite de_ser_identity.
Qed.

Definition assignment_ok (a : SchemaRegistryGroupAssignment) : Prop :=
  in_i32 (ga_error a) ∧ in_i32 (ga_version a) ∧ from_option identity_ok True (ga_master_identity a).

Lemma de_ser_assignment a : assignment_ok a → de_assignment (ser_assignment a) = Some a.
Proof.
  intros (He & Hv & Hi). destruct a as [e m i v]. simpl in *. unfold de_assignment, ser_assignment.
  simpl. rewrite (de_i32_ser e), (de_i32_ser v) by done. simpl.
  destruct m; simpl; (destruct i as [i|]; simpl in *; [by rewrite de_ser_opt_identity|done]).
Qed.

Lemma ser_assignment_plain a : assignment_ok a → json_plain (ser_assignment a) = true.
Proof.
  intros (He & Hv & Hi). destruct a as [e m i v]. simpl in *.
  rewrite (ser_int_plain e), (ser_int_plain v), ser_opt_string_plain by done. simpl.
  destruct i as [i|]; [|done]. simpl in Hi. by rewrite (ser_identity_plain i Hi).
Qed.

(** ** The choice *)

Section min_by.
Context {A : Type} (leb : A → A → bool).
Context (leb_total : ∀ x y, leb x y = true ∨ leb y x = true).
Context (leb_trans : ∀ x y z, leb x y = true → leb y z = true → leb x z = true).

Lemma min_by_None l : min_by leb l = None ↔ l = [].
Proof. destruct l as [|x l]; simpl; [done|]. split; [|done]. by repeat case_match. Qed.

Lemma min_by_least l m : min_by leb l = Some m → m ∈ l ∧ ∀ x, x ∈ l → leb m x = true.
Proof.
  revert m. induction l as [|x l IH]; intros m; simpl; [done|].
  assert (leb x x = true) as Hrefl by (by destruct (leb_total x x)).
  destruct (min_by leb l) as [y|] eqn:Hmin.
  - destruct (IH y eq_refl) as [Hy Hall]. destruct (leb x y) eqn:Hxy; intros [= <-].
    + split; [left|]. intros z [->|Hz]%elem_of_cons; [done|]. by apply (leb_trans _ y); auto.
    + split; [by right|]. intros z [->|Hz]%elem_of_cons; [|auto].
      destruct (leb_total x y) as [?|?]; [congruence|done].
  - apply min_by_None in Hmin as ->. intros [= <-]. split; [left|].
    by intros z ->%list_elem_of_singleton.
Qed.
End min_by.

Lemma select_master_spec members :
  match select_master members with
  | Some m => m ∈ members ∧ si_master_eligibility m.2 = true ∧
      ∀ x, x ∈ members → si_master_eligibility x.2 = true → String.leb (url m.2) (url x.2) = true
  | None => ∀ x, x ∈ members → si_master_eligibility x.2 = false
  end.
Proof.
  unfold select_master. destruct (min_by _ _) as [m|] eqn:Hm.
  - apply min_by_least in Hm as [Hin Hall];
      [|intros; apply string_leb_total|intros x y z; apply string_leb_trans].
    apply list_elem_of_In, filter_In in Hin as [Hin He].
    split_and!; [by apply list_elem_of_In|done|]. intros x Hx Hex. apply Hall.
    apply list_elem_of_In, filter_In. split; [by apply list_elem_of_In|done].
  - apply min_by_None in Hm. intros x Hx. apply not_true_iff_false. intros He.
    assert (x ∈ List.filter (λ m, si_master_eligibility m.2) members) as Hf.
    { apply list_elem_of_In, filter_In. split; [by apply list_elem_of_In|done]. }
    rewrite Hm in Hf. by apply elem_of_nil in Hf.
Qed.

(** ** One generation *)

Section facts.
Context `{SerdeJsonLaws}.

(** What the coordinator tells the members of a generation: the leader gets
    everyone's metadata, the others only who leads; and it relays to each
    member the assignment the leader sent for it. *)
Definition group_members (ms : list (string * SchemaRegistryIdentity)) : list JoinGroupMember :=
  (λ m, mkMember m.1 (to_vec (ser_identity m.2))) <$> ms.

Definition join_response (g : Z) (leader : string) (ms : list (string * SchemaRegistryIdentity))
    (mid : string) : JoinGroupResponse :=
  mkJoin NONE g leader mid (if String.eqb leader mid then group_members ms else []).

Definition relayed (g : Z) (leader : string) (ms : list (string * SchemaRegistryIdentity))
    (mid : string) : string :=
  default "" (assoc_get mid (sq_assignments (sync_request (join_response g leader ms leader)))).

(** [jg] answers the join, at once or after the coordinator asked to retry
    with the member id it gave. *)
Definition joined (first second : option JoinGroupResponse) (jg : JoinGroupResponse) : Prop :=
  first = Some jg ∨
  ∃ r, first = Some r ∧ jg_error_code r = MEMBER_ID_REQUIRED ∧ second = Some jg.

Lemma join_and_sync_joined mid0 first second sync jg bytes :
  joined first second jg → jg_error_code jg = NONE →
  sync (sync_request jg) = Some (mkSync NONE bytes) →
  join_and_sync mid0 first second sync = (Ok (jg_generation_id jg, bytes), jg_member_id jg).
Proof.
  intros Hj Hn Hs. unfold join_and_sync.
  destruct Hj as [->|(r & -> & Hr & ->)]; [|rewrite Hr]; cbn -[sync_request];
    rewrite ?Hn; cbn -[sync_request]; rewrite ?Hn; cbn -[sync_request]; by rewrite Hs.
Qed.

Lemma decoded_members ms :
  Forall (λ m, identity_ok m.2) ms →
  omap (λ m, (λ i, (gm_member_id m, i)) <$> from_slice de_identity (gm_metadata m))
    (group_members ms) = ms.
Proof.
  induction 1 as [|[mid i] ms Hi _ IH]; [done|]. unfold group_members in *. cbn [fmap list_fmap].
  cbn [omap list_omap gm_metadata gm_member_id fst snd]. simpl in Hi.
  rewrite from_slice_print by (by apply ser_identity_plain). rewrite de_ser_identity by done.
  simpl. f_equal. exact IH.
Qed.

Definition chosen (ms : list (string * SchemaRegistryIdentity)) : SchemaRegistryGroupAssignment :=
  mkAssignment 0 (fst <$> select_master ms) (snd <$> select_master ms) SR_VERSION.

Lemma chosen_ok ms : Forall (λ m, identity_ok m.2) ms → assignment_ok (chosen ms).
Proof.
  intros Hms. split_and!; [done|done|]. simpl. pose proof (select_master_spec ms) as Hs.
  destruct (select_master ms) as [m|]; [|done]. simpl. destruct Hs as [Hin _].
  by apply (proj1 (Forall_forall _ _) Hms) in Hin.
Qed.

Lemma assoc_get_const (ms : list (string * SchemaRegistryIdentity)) mid (b : string) :
  mid ∈ ms.*1 → assoc_get mid ((λ m, (gm_member_id m, b)) <$> group_members ms) = Some b.
Proof.
  induction ms as [|[k i] ms IH]; intros Hin; [by apply elem_of_nil in Hin|]. simpl.
  destruct (String.eqb_spec mid k); [done|]. apply IH.
  apply elem_of_cons in Hin as [?|?]; done.
Qed.

Lemma relayed_chosen g leader ms mid :
  Forall (λ m, identity_ok m.2) ms → mid ∈ ms.*1 →
  relayed g leader ms mid = to_vec (ser_assignment (chosen ms)).
Proof.
  intros Hms Hin. unfold relayed, sync_request. cbn [sq_assignments jg_leader jg_member_id jg_members join_response].
  rewrite String.eqb_refl. unfold leader_assignments. rewrite decoded_members by done. unfold chosen.
  destruct (select_master ms) as [[m i]|]; by rewrite assoc_get_const.
Qed.

Lemma publish_chosen g ms mid i :
  Forall (λ m, identity_ok m.2) ms →
  publish_state i (to_vec (ser_assignment (chosen ms))) g mid =
    match select_master ms with
    | Some m => if bool_decide (m.2 = i) then mkPrimaryState true (Some (url m.2)) (Some g) (Some mid)
                else mkPrimaryState false (Some (url m.2)) None None
    | None => default_primary
    end.
Proof.
  intros Hms. unfold publish_state.
  rewrite from_slice_print by (by apply ser_assignment_plain, chosen_ok).
  rewrite de_ser_assignment by (by apply chosen_ok). simpl.
  destruct (select_master ms) as [m|]; simpl; [|done].
  rewrite (bool_decide_ext (Some m.2 = Some i) (m.2 = i)) by naive_solver. by case_bool_decide.
Qed.

(** What a node that joins the generation publishes. *)
Lemma joined_primary n g leader ms mid first second :
  Forall (λ m, identity_ok m.2) ms → (mid, nd_identity n) ∈ ms → nd_phase n = Joining →
  joined first second (join_response g leader ms mid) →
  node_step n (EvJoin first second (λ _, Some (mkSync NONE (relayed g leader ms mid)))) =
    mkNode (nd_identity n) mid (Heartbeating g)
      (publish_state (nd_identity n) (to_vec (ser_assignment (chosen ms))) g mid).
Proof.
  intros Hms Hin Hph Hj. unfold node_step. rewrite Hph.
  rewrite (join_and_sync_joined _ _ _ _ _ (relayed g leader ms mid) Hj) by done.
  rewrite relayed_chosen; [done|done|]. apply list_elem_of_fmap. by exists (mid, nd_identity n).
Qed.

(** C19: agreement within a generation. When the members of a generation have distinct identities
    and each gets the assignment the leader computed for it, either no member is eligible and
    every node publishes that there is no primary, or exactly one node publishes itself as
    primary, for this generation and under its own member id: the eligible one whose URL is
    least; every other node publishes that node's URL. *)
Theorem election_agreement g leader ms :
  NoDup ms.*2 → Forall (λ m, identity_ok m.2) ms →
  let publishes (m : string * SchemaRegistryIdentity) (p : PrimaryState) :=
    ∀ n first second, nd_identity n = m.2 → nd_phase n = Joining →
      joined first second (join_response g leader ms m.1) →
      node_step n (EvJoin first second (λ _, Some (mkSync NONE (relayed g leader ms m.1)))) =
        mkNode m.2 m.1 (Heartbeating g) p in
  (Forall (λ m, si_master_eligibility m.2 = false) ms ∧
   Forall (λ m, publishes m default_primary) ms) ∨
  ∃ p, p ∈ ms ∧ si_master_eligibility p.2 = true ∧
    (∀ m, m ∈ ms → si_master_eligibility m.2 = true → String.leb (url p.2) (url m.2) = true) ∧
    publishes p (mkPrimaryState true (Some (url p.2)) (Some g) (Some p.1)) ∧
    (∀ m, m ∈ ms → m ≠ p → publishes m (mkPrimaryState false (Some (url p.2)) None None)).
Proof.
  intros Hnd Hms publishes. pose proof (select_master_spec ms) as Hsel.
  assert (∀ m q, m ∈ ms → publish_state m.2 (to_vec (ser_assignment (chosen ms))) g m.1 = q →
    publishes m q) as Hpub.
  { intros [mid i] q Hin <- n first second Hi Hph Hj. simpl in *. subst i.
    by rewrite (joined_primary n g leader ms mid). }
  destruct (select_master ms) as [p|] eqn:Hs.
  - right. exists p. destruct Hsel as (Hin & He & Hleast). split_and!; [done..| |].
    + apply Hpub; [done|]. rewrite publish_chosen, Hs by done. by rewrite bool_decide_true.
    + intros m Hm Hne. apply Hpub; [done|]. rewrite publish_chosen, Hs by done.
      rewrite bool_decide_false; [done|]. intros Heq. apply Hne.
      apply list_elem_of_lookup in Hin as [j Hj]. apply list_elem_of_lookup in Hm as [k Hk].
      assert (j = k) as ->; [|congruence].
      apply (NoDup_lookup _ _ _ p.2 Hnd); rewrite list_lookup_fmap; [by rewrite Hj|].
      rewrite Hk. simpl. by rewrite Heq.
  - left. split; apply Forall_forall; [auto|]. intros m Hm. apply Hpub; [done|].
    by rewrite publish_chosen, Hs.
Qed.
End facts.

(** ** One node's claims *)

Section node.
Context `{SerdeJson}.

Definition run_node (identity : SchemaRegistryIdentity) (evs : list ElectionEvent) : Node :=
  foldl node_step (node_init identity) evs.

(** The published state comes from a completed join among [evs]. *)
Definition earned (identity : SchemaRegistryIdentity) (evs : list ElectionEvent)
    (p : PrimaryState) (g : Z) (m : string) : Prop :=
  ∃ before first second sync after bytes,
    evs = before ++ EvJoin first second sync :: after ∧
    join_and_sync (nd_member_id (run_node identity before)) first second sync = (Ok (g, bytes), m) ∧
    p = publish_state identity bytes g m.

Lemma earned_app identity evs ev p g m :
  earned identity evs p g m → earned identity (evs ++ [ev]) p g m.
Proof.
  intros (before & first & second & sync & after & bytes & -> & Hj & Hp).
  exists before, first, second, sync, (after ++ [ev]), bytes. by rewrite <-app_assoc.
Qed.

Lemma publish_state_role identity bytes g m :
  let p := publish_state identity bytes g m in
  if ps_is_primary p
  then ps_primary_url p = Some (url identity) ∧ ps_generation_id p = Some g ∧ ps_member_id p = Some m
  else ps_generation_id p = None ∧ ps_member_id p = None.
Proof.
  unfold publish_state. cbn zeta. case_bool_decide as Hm; cbn; [|done]. by rewrite Hm.
Qed.

(** What a node publishes, with the join that earned it. *)
Definition node_inv (identity : SchemaRegistryIdentity) (evs : list ElectionEvent) (n : Node) : Prop :=
  nd_identity n = identity ∧
  ((nd_primary n = default_primary ∧ ∀ g, nd_phase n ≠ Heartbeating g) ∨
   nd_phase n ≠ Connecting ∧ ∃ g m, earned identity evs (nd_primary n) g m ∧
     ∀ g', nd_phase n = Heartbeating g' → g' = g ∧ nd_member_id n = m).

Lemma node_inv_step identity evs ev n :
  run_node identity evs = n → node_inv identity evs n →
  node_inv identity (evs ++ [ev]) (node_step n ev).
Proof.
  intros Hrun [Hid Hinv]. unfold node_step.
  assert (∀ P, node_inv identity P (reconnect n)) as Hrec by (intros P; split; [done|left; split; [done|by intros g]]).
  assert (∀ P m, P = Joining ∨ P = Stopped →
    node_inv identity (evs ++ [ev]) (mkNode (nd_identity n) m P (nd_primary n))) as Hmove.
  { intros P m HP. split; [done|]. destruct Hinv as [[Hd _]|(_ & g & m' & He & _)].
    - left. split; [done|]. intros g. simpl. by destruct HP as [->| ->].
    - right. split; [by destruct HP as [->| ->]|]. exists g, m'. split; [by apply earned_app|].
      intros g'. simpl. by destruct HP as [->| ->]. }
  assert (node_inv identity (evs ++ [ev]) n) as Hkeep.
  { split; [done|]. destruct Hinv as [Hd|(Hp & g & m & He & Hg)]; [by left|right].
    split; [done|]. exists g, m. split; [by apply earned_app|done]. }
  destruct (nd_phase n) eqn:Hph; destruct ev as [[]|first second sync|code|]; try done;
    try (apply Hmove; auto; done).
  - destruct (join_and_sync _ _ _ _) as [[[g bytes]|e] m] eqn:Hj; [|done].
    split; [done|]. right. split; [done|]. exists g, m. split.
    + exists evs, first, second, sync, [], bytes. rewrite Hrun, Hid. by rewrite <-Hj.
    + by intros g' [= <-].
  - unfold heartbeat. destruct code as [c|]; [|done].
    repeat case_match; try done; apply Hmove; auto.
Qed.

(** A node claims the primary role only as elected. Along any sequence of coordinator
    answers: a node that is (re)connecting claims nothing; a node that publishes itself as
    primary does so from a completed join whose assignment names its identity, with that join's
    generation and member id, which while it heartbeats are the ones it holds; a node that is
    not primary publishes neither generation nor member id. *)
Theorem primary_claims_earned identity evs :
  let n := run_node identity evs in
  let p := nd_primary n in
  (nd_phase n = Connecting → p = default_primary) ∧
  if ps_is_primary p
  then ps_primary_url p = Some (url identity) ∧
    ∃ g m, ps_generation_id p = Some g ∧ ps_member_id p = Some m ∧ earned identity evs p g m ∧
      (∀ g', nd_phase n = Heartbeating g' → g' = g ∧ nd_member_id n = m)
  else ps_generation_id p = None ∧ ps_member_id p = None.
Proof.
  assert (node_inv identity evs (run_node identity evs)) as [Hid Hinv].
  { unfold run_node. induction evs as [|ev evs IH] using rev_ind.
    - split; [done|]. left. split; [done|]. by intros g.
    - rewrite foldl_app. simpl. by apply node_inv_step. }
  cbn zeta. destruct Hinv as [[-> Hph]|(Hph & g & m & He & Hg)]; [done|].
  split; [done|]. pose proof He as (before & first & second & sync & after & bytes & _ & _ & Hp).
  pose proof (publish_state_role identity bytes g m) as Hrole. rewrite <-Hp in Hrole. cbn zeta in Hrole.
  destruct (ps_is_primary _); [|done]. destruct Hrole as (Hu & Hgen & Hm).
  split; [done|]. by exists g, m.
Qed.
End node.

(** ** Witnesses *)

Section witnesses.
#[local] Existing Instance tree_serde.
#[local] Existing Instance tree_serde_laws.

Definition node_a : string * SchemaRegistryIdentity := ("m-a", mkIdentity "a" 8081 true "http" 1).
Definition node_b : string * SchemaRegistryIdentity := ("m-b", mkIdentity "b" 8081 true "http" 1).

Lemma election_agreement_witness :
  node_step (mkNode node_b.2 "" Joining default_primary)
    (EvJoin (Some (join_response 3 "m-b" [node_b; node_a] "m-b")) None
       (λ _, Some (mkSync NONE (relayed 3 "m-b" [node_b; node_a] "m-b")))) =
  mkNode node_b.2 "m-b" (Heartbeating 3) (mkPrimaryState false (Some "http://a:8081") None None).
Proof.
  assert (NoDup [node_b; node_a].*2) as Hnd.
  { constructor; [|constructor; [|constructor]]; [|by intros ?%elem_of_nil].
    intros Hin%list_elem_of_singleton. discriminate. }
  assert (Forall (λ m, identity_ok m.2) [node_b; node_a]) as Hok by (repeat constructor; done).
  destruct (election_agreement 3 "m-b" [node_b; node_a] Hnd Hok) as [[He _]|(p & Hp & _ & Hl & _ & Hs)].
  { inversion He as [|?? Hb]. discriminate Hb. }
  assert (p = node_a) as ->.
  { apply elem_of_cons in Hp as [->|Hp%list_elem_of_singleton]; [|done].
    specialize (Hl node_a ltac:(right; left) eq_refl). discriminate Hl. }
  apply (Hs node_b ltac:(left) ltac:(done)); [done|done|]. by left.
Defined.
End witnesses.
