(* ===== verification/Auth.v ===== *)
(** * Authentication (auth/mod.rs, auth/basic.rs)

    The Basic credential store, the resolution of a request's principal and
    the authentication layer. base64, UTF-8 validation, bcrypt, the header
    text check and the bearer validator are parameters. Strings are bytes. *)

From stdpp Require Import base gmap strings list.
From Stdlib Require Import ZArith Lia Ascii.
From S2P Require Import Prelude Text Json Types.

(** krabka_security's [AuthMethod] and [Principal]. *)
Inductive AuthMethod :=
  | Anonymous | SaslPlain | SaslOAuthBearer | MTls
  | SaslScramSha256 | SaslScramSha512 | SaslGssapi.

Record Principal := mkPrincipal {
  pr_name : string;
  pr_auth_method : AuthMethod;
  pr_groups : list string;
}.

Class AuthLib := {
  base64_decode : string → option string;
  utf8_valid : string → bool;
  bcrypt_verify : string → string → option bool;
  header_to_str : string → option string;
  header_from_str : string → option string;
}.

(** ** The Basic store (auth/basic.rs) *)

Record BasicUser := mkBasicUser { bu_credential : string; bu_roles : list string }.

Definition BasicUser_parse (value : string) : BasicUser :=
  match split_char "," value with
  | [] => mkBasicUser "" []
  | credential :: fields =>
      mkBasicUser (trim credential) (List.filter (λ r, negb (String.eqb r "")) (trim <$> fields))
  end.

Record BasicAuthStore := mkBasicAuthStore {
  bs_users : gmap string BasicUser;
  bs_required_roles : gset string;
}.

Definition from_users (users : list (string * string)) : BasicAuthStore :=
  mkBasicAuthStore
    (foldl (λ m uc, <[ uc.1 := BasicUser_parse uc.2 ]> m) ∅ users) ∅.

Record BasicAuthConfig := mkBasicAuthConfig {
  bc_users : list (string * string);
  bc_file : option string;
  bc_required_roles : gset string;
}.

(** One line of the htpasswd-style file. *)
Definition load_line (m : gmap string BasicUser) (line : string) : gmap string BasicUser :=
  let line := trim line in
  if String.eqb line "" || starts_with "#" line then m
  else
    match split_once ":" line with
    | Some (user, credential) =>
        let user := trim user in
        if String.eqb user "" then m else <[ user := BasicUser_parse credential ]> m
    | None => m
    end.

(** [read] is [std::fs::read_to_string]; the inline users are in the map's
    iteration order. *)
Definition load (read : string → option string) (cfg : BasicAuthConfig) : option BasicAuthStore :=
  from_file ← match bc_file cfg with
              | Some path => text ← read path; Some (foldl load_line ∅ (lines text))
              | None => Some ∅
              end;
  let users := foldl (λ m uc, <[ uc.1 := uc.2 ]> m) from_file
    (List.filter (λ uc, negb (String.eqb uc.1 ""))
       ((λ uc, (trim uc.1, BasicUser_parse uc.2)) <$> bc_users cfg)) in
  Some (mkBasicAuthStore users (bc_required_roles cfg)).

(** [constant_time_eq]: every byte of [a] is looked at. *)
Definition constant_time_eq (a b : list N) : bool :=
  let diff := foldl (λ diff ie, N.lor diff (N.lxor ie.2 (default 0%N (b !! ie.1))))
    (N.lxor (N.of_nat (length a)) (N.of_nat (length b))) (imap pair a) in
  N.eqb diff 0.

Definition as_bytes (s : string) : list N := N_of_ascii <$> String.list_ascii_of_string s.

Section auth.
Context `{AuthLib}.

Definition authenticate (store : BasicAuthStore) (user pass : string) : option (list string) :=
  stored ← bs_users store !! user;
  let credential_matches :=
    if starts_with "$2" (bu_credential stored)
    then default false (bcrypt_verify pass (bu_credential stored))
    else constant_time_eq (as_bytes (bu_credential stored)) (as_bytes pass) in
  let role_matches :=
    bool_decide (bs_required_roles store = ∅)
    || existsb (λ role, bool_decide (role ∈ bs_required_roles store)) (bu_roles stored)
    || (bool_decide ("*" ∈ bs_required_roles store) && negb (bool_decide (bu_roles stored = []))) in
  if negb credential_matches || negb role_matches then None else Some (bu_roles stored).

Definition verify (store : BasicAuthStore) (user pass : string) : bool :=
  match authenticate store user pass with Some _ => true | None => false end.

(** ** Resolving the principal (auth/mod.rs) *)

Inductive AuthDecision :=
  | Authn (p : Principal)
  | Unauthorized.

Record AuthState := mkAuthState {
  as_basic : option BasicAuthStore;
  as_bearer : option (string → Z → option Principal);
  as_require_auth : bool;
  as_realm : string;
  as_forward_secret : option string;
}.

Abbreviation HeaderMap := (list (string * string)) (only parsing).

Definition AUTHORIZATION : string := "authorization".
Definition FORWARD_HEADER : string := "x-forwarded-for-registry".
Definition FORWARD_SECRET_HEADER : string := "x-krabka-forward-secret".

Definition anonymous : Principal := mkPrincipal "ANONYMOUS" Anonymous [].

(** The text of the [Authorization] header. *)
Definition authorization (headers : HeaderMap) : option string :=
  assoc_get AUTHORIZATION headers ≫= header_to_str.

(** The Basic arm of [resolve], after the scheme. *)
Definition resolve_basic (st : AuthState) (b64 : string) : AuthDecision :=
  match as_basic st with
  | None => Unauthorized
  | Some store =>
    match base64_decode b64 with
    | None => Unauthorized
    | Some raw =>
      if negb (utf8_valid raw) then Unauthorized
      else
        match split_once ":" raw with
        | None => Unauthorized
        | Some (user, pass) =>
            match authenticate store user pass with
            | Some roles => Authn (mkPrincipal user SaslPlain roles)
            | None => Unauthorized
            end
        end
    end
  end.

Definition resolve (headers : HeaderMap) (mtls : option Principal) (st : AuthState) (now_ms : Z)
    : AuthDecision :=
  match mtls with
  | Some p => Authn p
  | None =>
    let auth := authorization headers in
    match auth ≫= strip_prefix "Bearer " with
    | Some token =>
        match as_bearer st with
        | Some validate =>
            match validate token now_ms with Some p => Authn p | None => Unauthorized end
        | None => Unauthorized
        end
    | None =>
      match auth ≫= strip_prefix "Basic " with
      | Some b64 => resolve_basic st b64
      | None => if as_require_auth st then Unauthorized else Authn anonymous
      end
    end
  end.

Definition audit_auth_method (m : AuthMethod) : string :=
  match m with
  | Anonymous => "none"
  | SaslPlain => "basic"
  | SaslOAuthBearer => "bearer"
  | MTls => "mtls"
  | SaslScramSha256 | SaslScramSha512 | SaslGssapi => "unknown"
  end.

Definition attempted_identity (authorization : option string) : string * string :=
  match authorization ≫= strip_prefix "Basic " with
  | Some encoded =>
      let name :=
        raw ← base64_decode encoded;
        if utf8_valid raw then fst <$> split_once ":" raw else None in
      ("basic", default "unknown" name)
  | None =>
      match authorization with
      | Some value => if starts_with "Bearer " value then ("bearer", "unknown") else ("unknown", "unknown")
      | None => ("none", "ANONYMOUS")
      end
  end.
End auth.

(** ** Facts *)

Lemma foldl_lor_zero {A} (f : A → N) l d :
  foldl (λ diff x, N.lor diff (f x)) d l = 0%N ↔ d = 0%N ∧ ∀ x, x ∈ l → f x = 0%N.
Proof.
  revert d. induction l as [|x l IH]; intros d; simpl.
  - split; [|by intros []]. intros ->. split; [done|]. by intros x ?%elem_of_nil.
  - rewrite IH, N.lor_eq_0_iff. setoid_rewrite elem_of_cons. split.
    + intros [[? ?] Hl]. split; [done|]. intros y [->|Hy]; auto.
    + intros [? Hl]. split; [|auto]. split; [done|]. apply Hl. by left.
Qed.

(** The comparison looks at every byte and decides equality. *)
Lemma constant_time_eq_spec a b : constant_time_eq a b = true ↔ a = b.
Proof.
  unfold constant_time_eq.
  rewrite N.eqb_eq, (foldl_lor_zero (λ ie, N.lxor ie.2 (default 0%N (b !! ie.1)))), N.lxor_eq_0_iff. split.
  - intros [Hlen%Nat2N.inj Hall]. apply list_eq_same_length with (length b); [done|done|].
    intros i x y Hi Hx Hy.
    specialize (Hall (i, x)). simpl in Hall. rewrite Hy in Hall. simpl in Hall.
    apply N.lxor_eq_0_iff, Hall. apply elem_of_lookup_imap. by exists i, x.
  - intros <-. split; [done|]. intros [i x] (j & y & [= -> ->] & Hy)%elem_of_lookup_imap.
    simpl. rewrite Hy. simpl. apply N.lxor_nilpotent.
Qed.

Lemma as_bytes_inj s t : as_bytes s = as_bytes t ↔ s = t.
Proof.
  split; [|by intros ->]. unfold as_bytes. intros Heq.
  assert (Inj eq eq N_of_ascii) by (intros x y Hxy; rewrite <-(ascii_N_embedding x), Hxy; apply ascii_N_embedding).
  apply (list_fmap_eq_inj _ _ _) in Heq.
  rewrite <-(String.string_of_list_ascii_of_string s), Heq. apply String.string_of_list_ascii_of_string.
Qed.

Section facts.
Context `{AuthLib}.

(** The stored credential accepts the password, and the roles suffice. *)
Definition credential_ok (stored : BasicUser) (pass : string) : Prop :=
  if starts_with "$2" (bu_credential stored)
  then bcrypt_verify pass (bu_credential stored) = Some true
  else bu_credential stored = pass.

Definition roles_ok (required : gset string) (roles : list string) : Prop :=
  required = ∅ ∨ (∃ r, r ∈ roles ∧ r ∈ required) ∨ ("*" ∈ required ∧ roles ≠ []).

Lemma authenticate_spec store user pass roles :
  authenticate store user pass = Some roles ↔
  ∃ stored, bs_users store !! user = Some stored ∧ roles = bu_roles stored ∧
    credential_ok stored pass ∧ roles_ok (bs_required_roles store) roles.
Proof.
  unfold authenticate. destruct (bs_users store !! user) as [stored|]; simpl.
  2: { split; [done|]. by intros (? & [=] & _). }
  set (cm := if starts_with _ _ then _ else _).
  assert (cm = true ↔ credential_ok stored pass) as Hcm.
  { unfold cm, credential_ok. destruct (starts_with _ _).
    - destruct (bcrypt_verify _ _) as [[]|]; simpl; naive_solver.
    - by rewrite constant_time_eq_spec, as_bytes_inj. }
  set (rm := _ || _ || _).
  assert (rm = true ↔ roles_ok (bs_required_roles store) (bu_roles stored)) as Hrm.
  { unfold rm, roles_ok. rewrite !orb_true_iff, andb_true_iff, negb_true_iff, existsb_exists.
    rewrite !bool_decide_eq_true, bool_decide_eq_false. setoid_rewrite bool_decide_eq_true.
    setoid_rewrite <-list_elem_of_In. tauto. }
  destruct cm, rm; simpl; split; try done.
  - intros [= <-]. exists stored. by rewrite <-Hcm, <-Hrm.
  - intros (? & [= <-] & -> & _). done.
  - intros (? & [= <-] & -> & _ & Hr%Hrm). done.
  - intros (? & [= <-] & -> & Hc%Hcm & _). done.
  - intros (? & [= <-] & -> & Hc%Hcm & _). done.
Qed.

(** Exactly when a request is authenticated, case by case. *)
Lemma resolve_iff headers mtls st now p :
  resolve headers mtls st now = Authn p ↔
  mtls = Some p ∨ mtls = None ∧
  ((∃ token validate, authorization headers = Some ("Bearer " +:+ token) ∧
      as_bearer st = Some validate ∧ validate token now = Some p) ∨
   (∃ b64 store user pass stored, authorization headers = Some ("Basic " +:+ b64) ∧
      as_basic st = Some store ∧ base64_decode b64 = Some (user +:+ ":" +:+ pass) ∧
      utf8_valid (user +:+ ":" +:+ pass) = true ∧ free_of ":" user = true ∧
      bs_users store !! user = Some stored ∧ credential_ok stored pass ∧
      roles_ok (bs_required_roles store) (bu_roles stored) ∧
      p = mkPrincipal user SaslPlain (bu_roles stored)) ∨
   ((∀ x, authorization headers ≠ Some ("Bearer " +:+ x)) ∧
    (∀ x, authorization headers ≠ Some ("Basic " +:+ x)) ∧
    as_require_auth st = false ∧ p = anonymous)).
Proof.
  unfold resolve. destruct mtls as [q|].
  { split; [intros [= ->]; by left|]. by intros [[= ->]|[[=] _]]. }
  destruct (authorization headers ≫= strip_prefix "Bearer ") as [token|] eqn:Hb.
  { apply bind_Some in Hb as (a & Ha & ->%strip_prefix_Some). rewrite Ha. split.
    - destruct (as_bearer st) as [validate|] eqn:Hv; [|done].
      destruct (validate token now) as [q|] eqn:Hq; [|done]. intros [= ->]. right. split; [done|].
      left. eauto.
    - intros [[=]|[_ [(t & v & Ht & -> & Hv)|[(? & ? & ? & ? & ? & [=] & _)|(Hn & _)]]]].
      + simplify_eq/=. by rewrite Hv.
      + by destruct (Hn token). }
  assert (∀ x, authorization headers ≠ Some ("Bearer " +:+ x)) as Hnb.
  { intros x Hx. rewrite Hx in Hb. cbn [mbind option_bind] in Hb. by rewrite strip_prefix_app in Hb. }
  destruct (authorization headers ≫= strip_prefix "Basic ") as [b64|] eqn:Hs.
  - apply bind_Some in Hs as (a & Ha & ->%strip_prefix_Some). rewrite Ha in *. unfold resolve_basic. split.
    + intros Hd. right. split; [done|]. right; left.
      destruct (as_basic st) as [store|]; [|done]. destruct (base64_decode b64) as [raw|] eqn:Hdec; [|done].
      destruct (utf8_valid raw) eqn:Hu; [|done].
      destruct (split_once ":" raw) as [[user pass]|] eqn:Hsplit; [|done]. simpl in Hd.
      apply (split_once_char ":") in Hsplit as [-> Hf].
      destruct (authenticate store user pass) as [roles|] eqn:Hau; [|done]. injection Hd as <-.
      apply authenticate_spec in Hau as (stored & ? & -> & ? & ?). exists b64, store, user, pass, stored.
      split_and!; done.
    + intros [[=]|[_ [(? & ? & [=] & _)|[(b & store & user & pass & stored & Hb64 & -> & Hd & Hu & Hf & Hst & Hc & Hr & ->)|(_ & Hn & _)]]]].
      * assert (b = b64) as -> by (by simplify_eq/=). rewrite Hd, Hu. cbn [negb].
        change (user +:+ ":" +:+ pass) with (user +:+ String ":" pass).
        rewrite (proj2 (split_once_char ":" _ user pass) (conj eq_refl Hf)).
        rewrite (proj2 (authenticate_spec store user pass (bu_roles stored))); [done|]. by exists stored.
      * by destruct (Hn b64).
  - assert (∀ x, authorization headers ≠ Some ("Basic " +:+ x)) as Hns.
    { intros x Hx. rewrite Hx in Hs. cbn [mbind option_bind] in Hs. by rewrite strip_prefix_app in Hs. }
    destruct (as_require_auth st) eqn:Hr; split; try done.
    + intros [[=]|[_ [(t & ? & Ht & _)|[(b & ? & ? & ? & ? & Hx & _)|(_ & _ & [=] & _)]]]];
        [by destruct (Hnb t)|by destruct (Hns b)].
    + intros [= <-]. right. split; [done|]. by right; right.
    + intros [[=]|[_ [(t & ? & Ht & _)|[(b & ? & ? & ? & ? & Hx & _)|(_ & _ & _ & ->)]]]];
        [by destruct (Hnb t)|by destruct (Hns b)|done].
Qed.

(** C20: who a request is. A client certificate's principal wins over everything. Without one,
    a Bearer credential authenticates exactly the principal the configured validator gives for
    the token, and a Basic credential exactly the user whose stored credential (a bcrypt hash or
    the plain password, compared exactly) and roles accept the presented pair: a bad credential,
    or one whose scheme is not configured, is refused even where anonymous access is allowed. A
    request without an Authorization header is anonymous when authentication is not required and
    refused when it is; and when it is required, nothing but a certificate, a Bearer or a Basic
    credential authenticates. *)
Theorem resolve_spec headers st now p :
  (∀ q, resolve headers (Some q) st now = Authn q) ∧
  (∀ token, authorization headers = Some ("Bearer " +:+ token) →
     resolve headers None st now = Authn p ↔
     ∃ validate, as_bearer st = Some validate ∧ validate token now = Some p) ∧
  (∀ b64, authorization headers = Some ("Basic " +:+ b64) →
     resolve headers None st now = Authn p ↔
     ∃ store user pass stored,
       as_basic st = Some store ∧ base64_decode b64 = Some (user +:+ ":" +:+ pass) ∧
       utf8_valid (user +:+ ":" +:+ pass) = true ∧ free_of ":" user = true ∧
       bs_users store !! user = Some stored ∧ credential_ok stored pass ∧
       roles_ok (bs_required_roles store) (bu_roles stored) ∧
       p = mkPrincipal user SaslPlain (bu_roles stored)) ∧
  (assoc_get AUTHORIZATION headers = None →
     resolve headers None st now = if as_require_auth st then Unauthorized else Authn anonymous) ∧
  (as_require_auth st = true → resolve headers None st now = Authn p →
     ∃ scheme x, scheme ∈ ["Bearer "; "Basic "] ∧ authorization headers = Some (scheme +:+ x)).
Proof.
  split_and!.
  - done.
  - intros token Ha. rewrite resolve_iff, Ha. split.
    + intros [[=]|[_ [(t & v & Ht & ? & Hv)|[(? & ? & ? & ? & ? & [=] & _)|(Hn & _)]]]].
      * simplify_eq/=. eauto.
      * by destruct (Hn token).
    + intros (v & ? & ?). right. split; [done|]. left. eauto.
  - intros b64 Ha. rewrite resolve_iff, Ha. split.
    + intros [[=]|[_ [(t & v & [=] & _)|[(b & store & user & pass & stored & Hb & Hrest)|(_ & Hn & _)]]]].
      * assert (b = b64) as -> by (by simplify_eq/=). by exists store, user, pass, stored.
      * by destruct (Hn b64).
    + intros (store & user & pass & stored & Hrest). right. split; [done|]. right; left.
      by exists b64, store, user, pass, stored.
  - intros Ha. unfold resolve, authorization. by rewrite Ha.
  - intros Hreq. rewrite resolve_iff.
    intros [[=]|[_ [(t & v & Ht & _)|[(b & store & user & pass & stored & Hb & _)|(_ & _ & Hno & _)]]]].
    + exists "Bearer ", t. split; [set_solver|done].
    + exists "Basic ", b. split; [set_solver|done].
    + congruence.
Qed.

(** An Authorization header that starts with neither scheme name, in this very
    spelling, counts as no credential: where anonymous access is allowed it is
    let in as anonymous. *)
Theorem other_scheme_is_anonymous headers st now :
  (∀ x, authorization headers ≠ Some ("Bearer " +:+ x)) →
  (∀ x, authorization headers ≠ Some ("Basic " +:+ x)) → as_require_auth st = false →
  resolve headers None st now = Authn anonymous.
Proof. intros Hb Hs Hr. apply resolve_iff. right. split; [done|]. right. right. done. Qed.
End facts.
