(* ===== verification/Authz.v ===== *)
(** * Authorization (authz.rs)

    What an incoming request must be authorized for, the decision point and
    its cache of ACL entries. The ACL evaluator is a function of the cache and
    the request; percent-decoding is a parameter. *)

From stdpp Require Import base gmap strings list.
From Stdlib Require Import ZArith Lia Ascii.
From S2P Require Import Prelude Text Json Types Auth.

Inductive Method := GET | HEAD | POST | PUT | DELETE | PATCH | OPTIONS | OtherMethod (name : string).

#[global] Instance method_eq_dec : EqDecision Method.
Proof. solve_decision. Defined.

(** krabka_metadata's enumerations. *)
Inductive ResourceType := Topic | Group | Cluster | TransactionalId | DelegationToken | User.
Inductive AclOperation :=
  | All | Read | Write | Create | Delete | Alter | Describe | ClusterAction | DescribeConfigs
  | AlterConfigs | IdempotentWrite | TwoPhaseCommit | CreateTokens | DescribeTokens.
Inductive PatternType := Literal | Prefixed | Match.
Inductive PermissionType := Allow | Deny.

Definition KAFKA_CLUSTER : string := "kafka-cluster".

Class PercentLib := { percent_decode : string → string }.

(** [path.split('/').filter(|s| !s.is_empty())]. *)
Definition segments (path : string) : list string :=
  List.filter (λ s, negb (String.eqb s "")) (split_char "/" path).

Section authz.
Context `{PercentLib}.

Abbreviation Target := (option (ResourceType * string * AclOperation)) (only parsing).

Definition topic (seg : string) (op : AclOperation) : Target :=
  Some (Topic, percent_decode seg, op).
Definition cluster (op : AclOperation) : Target := Some (Cluster, KAFKA_CLUSTER, op).

(** The patterns of the match on the segments, in the source's order. No two
    overlap, so an arm whose method guard fails falls through to none. *)
Inductive Arm :=
  | AMetadata
  | ASubject (subject : string)
  | AVersions (subject : string)
  | AVersion (subject : string)
  | AVersionPart (subject : string)
  | AGlobalSetting
  | AConfig (subject : string)
  | AMode (subject : string)
  | ACompatibility (subject : string)
  | AImport
  | ASchemas
  | AOther.

Definition arm_of (seg : list string) : Arm :=
  match seg with
  | ["subjects"] | ["schemas"; "types"] => AMetadata
  | ["subjects"; subject] => ASubject subject
  | ["subjects"; subject; "versions"] => AVersions subject
  | ["subjects"; subject; "versions"; _] => AVersion subject
  | ["subjects"; subject; "versions"; _; "schema"]
  | ["subjects"; subject; "versions"; _; "referencedby"] => AVersionPart subject
  | ["config"] | ["mode"] => AGlobalSetting
  | ["config"; subject] => AConfig subject
  | ["mode"; subject] => AMode subject
  | ["compatibility"; "subjects"; subject; "versions"; _] => ACompatibility subject
  | ["schemas"; "import"] => AImport
  | ["schemas"; "ids"; _] | ["schemas"]
  | ["schemas"; "ids"; _; "versions"] | ["schemas"; "ids"; _; "schema"]
  | ["schemas"; "ids"; _; "subjects"] => ASchemas
  | _ => AOther
  end.

Definition authz_target (method : Method) (path : string) : Target :=
  let get := bool_decide (method = GET) in
  let post := bool_decide (method = POST) in
  match arm_of (segments path) with
  | AMetadata => if get then cluster Describe else None
  | ASubject subject =>
      match method with
      | POST => topic subject Read
      | DELETE => topic subject Delete
      | _ => None
      end
  | AVersions subject =>
      match method with
      | GET => topic subject Read
      | POST => topic subject Write
      | _ => None
      end
  | AVersion subject =>
      match method with
      | GET => topic subject Read
      | DELETE => topic subject Delete
      | _ => None
      end
  | AVersionPart subject => if get then topic subject Read else None
  | AGlobalSetting =>
      match method with
      | PUT => cluster Alter
      | GET => cluster Describe
      | _ => None
      end
  | AConfig subject | AMode subject =>
      match method with
      | PUT | DELETE => topic subject Alter
      | GET => topic subject Describe
      | _ => None
      end
  | ACompatibility subject => if post then topic subject Read else None
  | AImport => if post then cluster Write else None
  | ASchemas => if get then cluster Read else None
  | AOther => None
  end.

(** ** The decision point *)

Record AclEntry := mkAclEntry {
  ae_resource_type : ResourceType;
  ae_resource_name : string;
  ae_pattern_type : PatternType;
  ae_principal : string;
  ae_host : string;
  ae_operation : AclOperation;
  ae_permission_type : PermissionType;
}.

(** The admin client's enumerations mirror these, so only the filter pattern
    has no image. *)
Definition acl_entry_from_admin (e : AclEntry) : option AclEntry :=
  match ae_pattern_type e with
  | Match => None
  | Literal | Prefixed => Some e
  end.

Record AuthorizationRequest := mkAuthorizationRequest {
  ar_principal : Principal;
  ar_host : string;
  ar_resource_type : ResourceType;
  ar_resource_name : string;
  ar_operation : AclOperation;
}.

Record SchemaRegistryAuthz := mkAuthz {
  az_authorizer : list AclEntry → AuthorizationRequest → PermissionType;
  az_cache : list AclEntry;
  az_super_users : gset string;
  az_enabled : bool;
}.

(** One round of [run_acl_refresh]: [None] is a failed [DescribeAcls]. *)
Definition acl_refresh (entries : option (list AclEntry)) (az : SchemaRegistryAuthz)
    : SchemaRegistryAuthz :=
  match entries with
  | Some es => mkAuthz (az_authorizer az) (omap acl_entry_from_admin es) (az_super_users az) (az_enabled az)
  | None => az
  end.

(** [run_acl_refresh]: a round, then the sleep or the shutdown ([true]). *)
Fixpoint run_acl_refresh (rounds : list (option (list AclEntry) * bool)) (az : SchemaRegistryAuthz)
    : SchemaRegistryAuthz :=
  match rounds with
  | [] => az
  | (entries, shutdown) :: rest =>
      let az := acl_refresh entries az in
      if (shutdown : bool) then az else run_acl_refresh rest az
  end.

Definition authorize (az : SchemaRegistryAuthz) (principal : Principal) (host : string)
    (rt : ResourceType) (name : string) (op : AclOperation) : bool :=
  if negb (az_enabled az) || bool_decide (pr_name principal ∈ az_super_users az) then true
  else
    match az_authorizer az (az_cache az) (mkAuthorizationRequest principal host rt name op) with
    | Allow => true
    | Deny => false
    end.
End authz.

(** ** The ACL snapshot a request finds *)

(** The answers of [DescribeAcls] up to the shutdown. *)
Fixpoint acl_answers (rounds : list (option (list AclEntry) * bool)) : list (list AclEntry) :=
  match rounds with
  | [] => []
  | (entries, shutdown) :: rest =>
      option_list entries ++ (if (shutdown : bool) then [] else acl_answers rest)
  end.

(** The last list the broker gave, without the filter-only [MATCH] entries;
    nothing before the first. *)
Definition acl_snapshot (rounds : list (option (list AclEntry) * bool)) : list AclEntry :=
  List.filter (λ e, match ae_pattern_type e with Match => false | _ => true end)
    (default [] (last (acl_answers rounds))).

Lemma omap_from_admin es :
  omap acl_entry_from_admin es =
  List.filter (λ e, match ae_pattern_type e with Match => false | _ => true end) es.
Proof.
  induction es as [|e es IH]; [done|]. cbn [List.filter]. unfold omap in *. cbn.
  unfold acl_entry_from_admin at 1. destruct (ae_pattern_type e); cbn; by rewrite IH.
Qed.

(** The refresh keeps the last snapshot and nothing else changes. *)
Lemma run_acl_refresh_snapshot rounds : ∀ az,
  run_acl_refresh rounds az =
  mkAuthz (az_authorizer az)
    match acl_answers rounds with [] => az_cache az | _ => acl_snapshot rounds end
    (az_super_users az) (az_enabled az).
Proof.
  induction rounds as [|[entries shutdown] rest IH]; intros az; [by destruct az|].
  cbn [run_acl_refresh acl_answers]. unfold acl_snapshot. cbn [acl_answers].
  destruct entries as [es|]; cbn [acl_refresh option_list app].
  - rewrite omap_from_admin. destruct shutdown; [done|]. rewrite IH. unfold acl_snapshot. cbn.
    destruct (acl_answers rest) as [|l ls]; [done|]. done.
  - destruct shutdown; [by destruct az|apply IH].
Qed.
