(* ===== verification/Router.v ===== *)
(** * The HTTP surface: routes, forwarding and the security stack
    (rest/mod.rs, rest/forward.rs, the layers of auth/mod.rs and authz.rs)

    A request runs through authentication, authorization and forwarding to the
    handler of its route. axum's matching of a path against the route patterns
    and its choice of a method handler are parameters with their documented
    behaviour as laws; what a handler then does is the component it calls. *)

From stdpp Require Import base gmap strings list.
From Stdlib Require Import ZArith Lia Ascii.
From S2P Require Import Prelude Text Json Types KafkaStore Auth Authz.

(** ** Routes (rest/mod.rs) *)

Inductive Handler :=
  | HRoot | HSchemasTypes | HListSchemas | HImport
  | HGetById | HGetByIdVersions | HGetByIdSchema | HGetByIdSubjects
  | HListSubjects | HLookup | HDeleteSubject | HVersions | HRegister
  | HGetVersion | HDeleteVersion | HGetVersionSchema | HReferencedBy
  | HGetGlobalMode | HPutGlobalMode | HGetSubjectMode | HPutSubjectMode | HDeleteSubjectMode
  | HGetGlobalConfig | HPutGlobalConfig | HGetSubjectConfig | HPutSubjectConfig | HDeleteSubjectConfig
  | HCompatibility.

Inductive PatternSegment := Lit (s : string) | Param.

Definition routes : list (list PatternSegment * list (Method * Handler)) :=
  [ ([], [(GET, HRoot)]);
    ([Lit "schemas"; Lit "types"], [(GET, HSchemasTypes)]);
    ([Lit "schemas"], [(GET, HListSchemas)]);
    ([Lit "schemas"; Lit "import"], [(POST, HImport)]);
    ([Lit "schemas"; Lit "ids"; Param], [(GET, HGetById)]);
    ([Lit "schemas"; Lit "ids"; Param; Lit "versions"], [(GET, HGetByIdVersions)]);
    ([Lit "schemas"; Lit "ids"; Param; Lit "schema"], [(GET, HGetByIdSchema)]);
    ([Lit "schemas"; Lit "ids"; Param; Lit "subjects"], [(GET, HGetByIdSubjects)]);
    ([Lit "subjects"], [(GET, HListSubjects)]);
    ([Lit "subjects"; Param], [(POST, HLookup); (DELETE, HDeleteSubject)]);
    ([Lit "subjects"; Param; Lit "versions"], [(GET, HVersions); (POST, HRegister)]);
    ([Lit "subjects"; Param; Lit "versions"; Param], [(GET, HGetVersion); (DELETE, HDeleteVersion)]);
    ([Lit "subjects"; Param; Lit "versions"; Param; Lit "schema"], [(GET, HGetVersionSchema)]);
    ([Lit "subjects"; Param; Lit "versions"; Param; Lit "referencedby"], [(GET, HReferencedBy)]);
    ([Lit "mode"], [(GET, HGetGlobalMode); (PUT, HPutGlobalMode)]);
    ([Lit "mode"; Param],
      [(GET, HGetSubjectMode); (PUT, HPutSubjectMode); (DELETE, HDeleteSubjectMode)]);
    ([Lit "config"], [(GET, HGetGlobalConfig); (PUT, HPutGlobalConfig)]);
    ([Lit "config"; Param],
      [(GET, HGetSubjectConfig); (PUT, HPutSubjectConfig); (DELETE, HDeleteSubjectConfig)]);
    ([Lit "compatibility"; Lit "subjects"; Param; Lit "versions"; Param], [(POST, HCompatibility)]) ].

(** The path of a pattern with its parameters filled in. *)
Fixpoint fill (pat : list PatternSegment) (params : list string) : option (list string) :=
  match pat, params with
  | [], [] => Some []
  | Lit s :: pat', _ => (s ::.) <$> fill pat' params
  | Param :: pat', p :: params' => (p ::.) <$> fill pat' params'
  | _, _ => None
  end.

Fixpoint join_path (segs : list string) : string :=
  match segs with
  | [] => ""
  | s :: segs' => "/" +:+ s +:+ join_path segs'
  end.
Definition path_of (segs : list string) : string :=
  match segs with [] => "/" | _ => join_path segs end.

(** A captured parameter is one segment of the path: not empty, no slash. *)
Definition param_ok (p : string) : bool := negb (String.eqb p "") && free_of "/" p.

(** axum: the pattern a path matches with the captured segments, the handler
    of a method, the decoding of a captured segment ([None]: rejected). *)
Class Axum := {
  axum_match : list (list PatternSegment) → string → option (nat * list string);
  axum_method : list (Method * Handler) → Method → option Handler;
  axum_param : string → option string;
}.

Class AxumLaws `{Axum} `{PercentLib} := {
  axum_match_sound : ∀ pats path i params, axum_match pats path = Some (i, params) →
    ∃ pat segs, pats !! i = Some pat ∧ fill pat params = Some segs ∧ path = path_of segs ∧
      forallb param_ok params = true;
  axum_method_listed : ∀ hs m h, axum_method hs m = Some h →
    (m, h) ∈ hs ∨ m = HEAD ∧ (GET, h) ∈ hs;
  axum_param_decodes : ∀ raw s, axum_param raw = Some s → percent_decode raw = s;
}.

(** ** Requests and responses *)

Record Request := mkRequest {
  req_method : Method;
  req_path : string;
  req_query : string;
  req_headers : list (string * string);
  req_body : option string;
  req_peer : option string;
  req_mtls : option Principal;
  req_principal : option Principal;
  req_authenticated_forward : bool;
}.

Definition set_principal (p : Principal) (r : Request) : Request :=
  mkRequest (req_method r) (req_path r) (req_query r) (req_headers r) (req_body r) (req_peer r)
    (req_mtls r) (Some p) (req_authenticated_forward r).
Definition set_forwarded (r : Request) : Request :=
  mkRequest (req_method r) (req_path r) (req_query r) (req_headers r) (req_body r) (req_peer r)
    (req_mtls r) (req_principal r) true.

(** What is sent to the primary, and what comes back. *)
Record ProxyRequest := mkProxyRequest {
  px_method : Method;
  px_url : string;
  px_headers : list (string * string);
  px_body : string;
}.
Record ProxyReply := mkProxyReply {
  py_status : Z;
  py_content_type : option string;
  py_body : string;
}.

Inductive Response :=
  | Handled (h : Handler) (params : list string) (req : Request)
  | Rejected (req : Request)
  | Failed (e : SrError)
  | Challenge (www_authenticate : option string)
  | Relayed (r : ProxyReply).

(** ** Forwarding (rest/forward.rs) *)

Inductive Decision :=
  | PassThrough
  | Forward (url : string)
  | Unavailable
  | Retriable.

Definition mutating (m : Method) : bool :=
  match m with POST | PUT | DELETE | PATCH => true | _ => false end.

Definition decide_forward (method : Method) (already_forwarded : bool) (state : PrimaryState) : Decision :=
  if negb (mutating method) then PassThrough
  else if ps_is_primary state then PassThrough
  else if already_forwarded then Retriable
  else match ps_primary_url state with
       | Some url => Forward url
       | None => Unavailable
       end.

Record ForwardState := mkForwardState {
  fw_primary : PrimaryState;
  fw_http : ProxyRequest → option ProxyReply;
  fw_node_id : string;
  fw_max_body : nat;
  fw_secret : option string;
}.

Definition CONTENT_TYPE_HEADER : string := "content-type".

Definition has_header (k : string) (headers : list (string * string)) : bool :=
  match assoc_get k headers with Some _ => true | None => false end.

(** The request a secondary sends: no credential of the caller. *)
Definition proxy_request (fwd : ForwardState) (primary_url : string) (req : Request) (body : string)
    : ProxyRequest :=
  mkProxyRequest (req_method req) (primary_url +:+ req_path req +:+ req_query req)
    ((match assoc_get CONTENT_TYPE_HEADER (req_headers req) with
      | Some ct => [(CONTENT_TYPE_HEADER, ct)] | None => [] end) ++
     [(FORWARD_HEADER, fw_node_id fwd)] ++
     (match fw_secret fwd with Some s => [(FORWARD_SECRET_HEADER, s)] | None => [] end))
    body.

Definition proxy (fwd : ForwardState) (primary_url : string) (req : Request) : Response :=
  match (b ← req_body req; if (String.length b <=? fw_max_body fwd)%nat then Some b else None) with
  | None => Failed (InvalidRequest "body read failed")
  | Some body =>
      match fw_http fwd (proxy_request fwd primary_url req body) with
      | Some r =>
          let status := if (100 <=? py_status r)%Z && (py_status r <? 1000)%Z then py_status r else 502%Z in
          Relayed (mkProxyReply status (py_content_type r) (py_body r))
      | None => Failed ForwardFailed
      end
  end.

Definition forward_layer (fwd : ForwardState) (next : Request → Response) (req : Request) : Response :=
  let already := has_header FORWARD_HEADER (req_headers req) in
  match decide_forward (req_method req) already (fw_primary fwd) with
  | PassThrough => next req
  | Unavailable => Failed (UnknownLeader "no primary elected")
  | Retriable => Failed (UnknownLeader "not primary; retry")
  | Forward primary_url => proxy fwd primary_url req
  end.

Section stack.
Context `{AuthLib} `{PercentLib} `{Axum}.

(** ** The layers *)

Definition unauthorized (st : AuthState) : Response :=
  Challenge (match as_basic st with
             | Some _ => header_from_str ("basic realm=" +:+ quote +:+ as_realm st +:+ quote)
             | None => None
             end).

(** The forward carries the configured secret. *)
Definition authenticated_forward (st : AuthState) (req : Request) : bool :=
  match assoc_get FORWARD_SECRET_HEADER (req_headers req), as_forward_secret st with
  | Some actual, Some expected => constant_time_eq (as_bytes expected) (as_bytes actual)
  | _, _ => false
  end.

Definition auth_layer (st : AuthState) (now : Z) (next : Request → Response) (req : Request) : Response :=
  if has_header FORWARD_HEADER (req_headers req) && authenticated_forward st req then
    let req := match req_principal req with Some _ => req | None => set_principal anonymous req end in
    next (set_forwarded req)
  else
    match resolve (req_headers req) (req_mtls req) st now with
    | Authn p => next (set_principal p req)
    | Unauthorized => unauthorized st
    end.

Definition authz_layer (az : SchemaRegistryAuthz) (next : Request → Response) (req : Request) : Response :=
  if req_authenticated_forward req then next req
  else
    match authz_target (req_method req) (req_path req) with
    | None => next req
    | Some (rt, name, op) =>
        let principal := default anonymous (req_principal req) in
        let allowed :=
          match req_peer req with
          | Some host => authorize az principal host rt name op
          | None => false
          end in
        if allowed then next req else Failed Forbidden
    end.

(** [router]: the matched route's handler, or one of the two fallbacks. *)
Definition router (req : Request) : Response :=
  match axum_match routes.*1 (req_path req) with
  | None => Failed NotFound
  | Some (i, raw) =>
      match routes !! i with
      | None => Failed NotFound
      | Some (_, hs) =>
          match axum_method hs (req_method req) with
          | None => Failed MethodNotAllowed
          | Some h =>
              match mapM axum_param raw with
              | Some params => Handled h params req
              | None => Rejected req
              end
          end
      end
  end.

Record SecurityLayers := mkSecurityLayers {
  sec_auth : AuthState;
  sec_authz : option SchemaRegistryAuthz;
  sec_forward : ForwardState;
}.

(** auth, then authz, then forward, then the route. *)
Definition router_with_security (sec : SecurityLayers) (now : Z) (req : Request) : Response :=
  let r := forward_layer (sec_forward sec) router in
  let r := match sec_authz sec with Some az => authz_layer az r | None => r end in
  auth_layer (sec_auth sec) now r req.

(** ** What each endpoint needs *)

Definition handler_target (h : Handler) (params : list string)
    : option (ResourceType * string * AclOperation) :=
  let subject := default "" (head params) in
  match h with
  | HRoot => None
  | HSchemasTypes | HListSubjects | HGetGlobalMode | HGetGlobalConfig =>
      Some (Cluster, KAFKA_CLUSTER, Describe)
  | HListSchemas | HGetById | HGetByIdVersions | HGetByIdSchema | HGetByIdSubjects =>
      Some (Cluster, KAFKA_CLUSTER, Read)
  | HImport => Some (Cluster, KAFKA_CLUSTER, Write)
  | HPutGlobalMode | HPutGlobalConfig => Some (Cluster, KAFKA_CLUSTER, Alter)
  | HLookup | HVersions | HGetVersion | HGetVersionSchema | HReferencedBy | HCompatibility =>
      Some (Topic, subject, Read)
  | HRegister => Some (Topic, subject, Write)
  | HDeleteSubject | HDeleteVersion => Some (Topic, subject, Delete)
  | HGetSubjectMode | HGetSubjectConfig => Some (Topic, subject, Describe)
  | HPutSubjectMode | HDeleteSubjectMode | HPutSubjectConfig | HDeleteSubjectConfig =>
      Some (Topic, subject, Alter)
  end.
End stack.
