(* ===== verification/RouterFacts.v ===== *)
(** * Correctness of the HTTP surface (rest/mod.rs, rest/forward.rs, authz.rs)

    Every endpoint is guarded by the permission it needs, a handler runs only
    behind the whole stack, and a forwarded request makes one hop. *)

From stdpp Require Import base gmap strings list.
From Stdlib Require Import ZArith Lia Ascii.
From S2P Require Import Prelude Text Json Types KafkaStore Auth Authz Router.

(** ** Paths *)

Lemma split_join_path segs :
  forallb (free_of "/") segs = true → segs ≠ [] → split_char "/" (join_path segs) = "" :: segs.
Proof.
  induction segs as [|s segs IH]; [done|]. cbn [forallb]. rewrite andb_true_iff. intros [Hs Hl] _.
  change (join_path (s :: segs)) with (String "/" (s +:+ join_path segs)).
  change (split_char "/" (String "/" (s +:+ join_path segs))) with ("" :: split_char "/" (s +:+ join_path segs)).
  f_equal. destruct segs as [|s' segs].
  - change (join_path []) with "". rewrite string_app_nil. by apply split_char_free.
  - specialize (IH Hl ltac:(done)).
    change (join_path (s' :: segs)) with (String "/" (s' +:+ join_path segs)) in *.
    rewrite split_char_app by done. injection IH as IH. by rewrite IH.
Qed.

Lemma segments_path segs :
  forallb param_ok segs = true → segments (path_of segs) = segs.
Proof.
  intros Hok. unfold segments. destruct segs as [|s segs]; [done|].
  unfold path_of. rewrite split_join_path; [|apply forallb_forall; intros x Hx|done].
  - change (List.filter (λ s, negb (String.eqb s "")) (s :: segs) = s :: segs). apply (filter_all _ (s :: segs)). intros x Hx.
    rewrite forallb_forall in Hok. apply list_elem_of_In, Hok, andb_true_iff in Hx as [Hx _]. done.
  - rewrite forallb_forall in Hok. by apply Hok, andb_true_iff in Hx as [_ Hx].
Qed.

Lemma fill_params pat params segs :
  fill pat params = Some segs → forallb param_ok params = true →
  forallb (λ s, match s with Lit l => param_ok l | Param => true end) pat = true →
  forallb param_ok segs = true.
Proof.
  revert params segs. induction pat as [|[l|] pat IH]; intros params segs; cbn [fill forallb].
  - destruct params; [|done]. by intros [= <-].
  - destruct (fill pat params) as [segs'|] eqn:Hf; cbn; [|done]. intros [= <-] Hp Hpat.
    apply andb_true_iff in Hpat as [Hl Hpat]. cbn. rewrite Hl. by eapply IH.
  - destruct params as [|p params]; [done|]. destruct (fill pat params) as [segs'|] eqn:Hf; cbn; [|done].
    intros [= <-] Hp Hpat. apply andb_true_iff in Hp as [Hp Hps]. cbn. rewrite Hp. by eapply IH.
Qed.

Section facts.
Context `{AuthLib} `{AxumLaws}.

(** The table: in every route, each method's handler needs what [authz_target] asks for. *)
Lemma routes_covered pat hs params segs decoded m h :
  (pat, hs) ∈ routes → fill pat params = Some segs → forallb param_ok params = true →
  percent_decode <$> params = decoded → (m, h) ∈ hs →
  authz_target m (path_of segs) = handler_target h decoded.
Proof.
  intros Hr Hf Hp <- Hm.
  assert (segments (path_of segs) = segs) as Hseg.
  { apply segments_path, (fill_params pat params); [done|done|].
    repeat (apply elem_of_cons in Hr as [[= -> _]|Hr]; [done|]). by apply elem_of_nil in Hr. }
  unfold authz_target. rewrite Hseg.
  repeat (apply elem_of_cons in Hr as [[= -> ->]|Hr];
    [ cbn in Hf;
      repeat (destruct params as [|? params]; cbn in Hf; try discriminate Hf);
      injection Hf as <-;
      repeat (apply elem_of_cons in Hm as [[= -> ->]|Hm]; [reflexivity|]);
      by apply elem_of_nil in Hm
    | ]).
  by apply elem_of_nil in Hr.
Qed.

Lemma decoded_params raw params : mapM axum_param raw = Some params → percent_decode <$> raw = params.
Proof.
  intros Hps%mapM_Some. induction Hps as [|x y xs ys Hxy _ IH]; simpl; [done|].
  f_equal; [by apply axum_param_decodes|done].
Qed.

(** A handled request matched a route of the table. *)
Lemma router_Handled req h params r :
  router req = Handled h params r →
  r = req ∧ ∃ pat hs raw segs, (pat, hs) ∈ routes ∧ fill pat raw = Some segs ∧
    req_path req = path_of segs ∧ forallb param_ok raw = true ∧ percent_decode <$> raw = params ∧
    ((req_method req, h) ∈ hs ∨ req_method req = HEAD ∧ (GET, h) ∈ hs).
Proof.
  unfold router. destruct (axum_match _ _) as [[i raw]|] eqn:Hm; [|done].
  apply axum_match_sound in Hm as (pat & segs & Hpat & Hf & Hpath & Hp).
  rewrite list_lookup_fmap in Hpat. destruct (routes !! i) as [[pat' hs]|] eqn:Hi; [|done].
  injection Hpat as ->. destruct (axum_method _ _) as [h'|] eqn:Hh; [|done].
  destruct (mapM axum_param raw) as [ps|] eqn:Hps; [|done]. intros [= -> -> <-].
  split; [done|]. exists pat, hs, raw, segs. apply list_elem_of_lookup_2 in Hi.
  split_and!; [done..| |by apply axum_method_listed].
  by apply decoded_params.
Qed.

Lemma authz_target_HEAD path : authz_target HEAD path = None.
Proof. unfold authz_target. by destruct (arm_of (segments path)). Qed.

Lemma authz_covers req h params r :
  router req = Handled h params r →
  authz_target (req_method req) (req_path req) =
    (if decide (req_method req = HEAD) then None else handler_target h params).
Proof.
  intros (-> & pat & hs & raw & segs & Hr & Hf & -> & Hp & Hd & Hm)%router_Handled.
  case_decide as Hh; [rewrite Hh; apply authz_target_HEAD|].
  destruct Hm as [Hm|[? _]]; [|done]. by eapply routes_covered.
Qed.

(** Every endpoint is guarded by the permission it needs. A request other than HEAD that
    reaches a handler is checked for exactly the resource and operation of that handler, on the
    very subject the handler gets (percent-decoded): only the root endpoint needs nothing. A
    HEAD request, which axum hands to the GET handlers, passes the layer unchecked. *)
Theorem authz_covers_routes req :
  (∀ h params r, router req = Handled h params r → req_method req ≠ HEAD →
     authz_target (req_method req) (req_path req) = handler_target h params) ∧
  (req_method req = HEAD → ∀ az next, authz_layer az next req = next req).
Proof.
  split.
  - intros h params r Hr Hm. rewrite (authz_covers _ _ _ _ Hr). by rewrite decide_False.
  - intros Hm az next. unfold authz_layer. rewrite Hm, authz_target_HEAD. by destruct (req_authenticated_forward req).
Qed.

(** What forwarding lets through to a handler. *)
Lemma forward_routes fwd req h params r :
  forward_layer fwd router req = Handled h params r →
  (mutating (req_method req) = true → ps_is_primary (fw_primary fwd) = true) ∧
  router req = Handled h params r.
Proof.
  unfold forward_layer, decide_forward. destruct (mutating (req_method req)); [|done].
  destruct (ps_is_primary _); [done|]. destruct (has_header _ _); [done|].
  destruct (ps_primary_url _); [|done]. simpl. unfold proxy. by repeat case_match.
Qed.

(** A handled request was routed, under its own method. *)
Lemma stack_routes sec now req h params r :
  router_with_security sec now req = Handled h params r →
  ∃ req', req_method req' = req_method req ∧ router req' = Handled h params r.
Proof.
  assert (∀ req', (match sec_authz sec with
                   | Some az => authz_layer az (forward_layer (sec_forward sec) router)
                   | None => forward_layer (sec_forward sec) router end) req' = Handled h params r →
            router req' = Handled h params r) as Hz.
  { intros req'. destruct (sec_authz sec); [unfold authz_layer; repeat case_match; try done|];
      by intros [_ ?]%forward_routes. }
  unfold router_with_security, auth_layer. destruct (_ && _).
  - intros Hr%Hz. by destruct (req_principal req); (eexists; split; [|exact Hr]).
  - destruct (resolve _ _ _ _) as [p|]; [|done]. intros Hr%Hz. by eexists; split; [|exact Hr].
Qed.

(** An endpoint served for a method is listed under it, or is the GET endpoint of a HEAD. *)
Lemma routed_method req h params r m :
  router req = Handled h params r → m = (if decide (req_method req = HEAD) then GET else req_method req) →
  (m, h) ∈ routes ≫= snd.
Proof.
  intros (_ & pat & hs & _ & _ & Hr & _ & _ & _ & _ & Hm)%router_Handled ->.
  apply list_elem_of_bind. exists (pat, hs). split; [|done]. simpl.
  destruct Hm as [Hm|[-> Hm]]; [|by rewrite decide_True].
  case_decide as Hh; [|done]. rewrite Hh in Hm. exfalso. clear -Hr Hm.
  repeat (apply elem_of_cons in Hr as [[= _ ->]|Hr];
    [repeat (apply elem_of_cons in Hm as [[=]|Hm]); by apply elem_of_nil in Hm|]).
  by apply elem_of_nil in Hr.
Qed.

(** A handler runs only behind the whole stack. When a request reaches a handler, either it
    is a forward that carries the configured secret, or it was authenticated as some principal
    and, with authorization on, that principal was allowed the handler's resource and operation
    from the request's peer address (the root endpoint and HEAD requests apart); and in both
    cases a mutating request runs only on the primary. The internal mark of an authenticated
    forward is set by the stack alone, so a request arrives without it. *)
Theorem secured_dispatch sec now req h params r :
  req_authenticated_forward req = false →
  router_with_security sec now req = Handled h params r →
  (mutating (req_method req) = true → ps_is_primary (fw_primary (sec_forward sec)) = true) ∧
  ((∃ node secret, assoc_get FORWARD_HEADER (req_headers req) = Some node ∧
      as_forward_secret (sec_auth sec) = Some secret ∧
      assoc_get FORWARD_SECRET_HEADER (req_headers req) = Some secret) ∨
   ∃ p, resolve (req_headers req) (req_mtls req) (sec_auth sec) now = Authn p ∧
     match sec_authz sec with
     | None => True
     | Some az =>
         if decide (req_method req = HEAD) then True
         else match handler_target h params with
              | None => h = HRoot
              | Some (rt, name, op) =>
                  ∃ host, req_peer req = Some host ∧ authorize az p host rt name op = true
              end
     end).
Proof.
  intros Hmark. pose proof (λ req', forward_routes (sec_forward sec) req' h params r) as Hfwd.
  unfold router_with_security, auth_layer.
  destruct (has_header FORWARD_HEADER (req_headers req) && _) eqn:Htrust.
  - apply andb_true_iff in Htrust as [Hh Ha]. intros Hr. split.
    + assert (forward_layer (sec_forward sec) router
        (set_forwarded (match req_principal req with Some _ => req | None => set_principal anonymous req end))
        = Handled h params r) as Hf by (by destruct (sec_authz sec)).
      destruct (req_principal req); by apply Hfwd in Hf as [Hf _].
    + left. unfold has_header in Hh. unfold authenticated_forward in Ha.
      destruct (assoc_get FORWARD_HEADER _) as [node|]; [|done].
      destruct (assoc_get FORWARD_SECRET_HEADER _) as [actual|]; [|done].
      destruct (as_forward_secret _) as [expected|]; [|done].
      apply constant_time_eq_spec, as_bytes_inj in Ha as ->. eauto.
  - clear Htrust. destruct (resolve _ _ _ _) as [p|]; [|done]. intros Hr.
    destruct (sec_authz sec) as [az|].
    2: { apply Hfwd in Hr as [Hmut _]. split; [done|]. right. by exists p. }
    unfold authz_layer in Hr. simpl in Hr.
    rewrite Hmark in Hr.
    destruct (authz_target (req_method req) (req_path req)) as [[[rt name] op]|] eqn:Ht.
    + destruct (req_peer req) as [host|]; [|done]. destruct (authorize _ _ _ _ _ _) eqn:Hau; [|done].
      apply Hfwd in Hr as [Hmut Hr]. split; [done|]. right. exists p. split; [done|].
      apply authz_covers in Hr. simpl in Hr. rewrite Ht in Hr.
      destruct (decide (req_method req = HEAD)); [done|]. rewrite <-Hr. eauto.
    + apply Hfwd in Hr as [Hmut Hr]. split; [done|]. right. exists p. split; [done|].
      apply authz_covers in Hr. simpl in Hr. rewrite Ht in Hr.
      destruct (decide (req_method req = HEAD)); [done|]. rewrite <-Hr. by destruct h.
Qed.

(** The request as the other node receives it. *)
Definition received (px : ProxyRequest) (path query : string) (peer : option string) : Request :=
  mkRequest (px_method px) path query (px_headers px) (Some (px_body px)) peer None None false.

(** C21: a forwarded write makes one hop. The request a secondary sends carries the forward header
    and none of the caller's credentials; a node that receives it never forwards it again,
    whatever its view of the election; and a node with the same secret hands it, on the primary,
    straight to the route, without asking for a credential or a permission again, while a node
    with another secret or none treats it as any other request. *)
Theorem forwarded_once fwd url req body path query peer :
  let px := proxy_request fwd url req body in
  let rcv := received px path query peer in
  has_header FORWARD_HEADER (px_headers px) = true ∧
  has_header AUTHORIZATION (px_headers px) = false ∧
  (∀ fwd' next, (∃ e, forward_layer fwd' next rcv = Failed (UnknownLeader e)) ∨
     forward_layer fwd' next rcv = next rcv) ∧
  (∀ sec now, fw_secret fwd ≠ None → as_forward_secret (sec_auth sec) = fw_secret fwd →
     ps_is_primary (fw_primary (sec_forward sec)) = true →
     router_with_security sec now rcv = router (set_forwarded (set_principal anonymous rcv))) ∧
  (∀ st now next, fw_secret fwd = None ∨ as_forward_secret st ≠ fw_secret fwd →
     auth_layer st now next rcv =
       match resolve (px_headers px) None st now with
       | Authn p => next (set_principal p rcv)
       | Unauthorized => unauthorized st
       end).
Proof.
  cbn zeta.
  assert (∀ k, k = FORWARD_HEADER ∨ k = AUTHORIZATION ∨ k = FORWARD_SECRET_HEADER →
    assoc_get k (px_headers (proxy_request fwd url req body)) =
      assoc_get k ([(FORWARD_HEADER, fw_node_id fwd)] ++
        (match fw_secret fwd with Some s => [(FORWARD_SECRET_HEADER, s)] | None => [] end))) as Hget.
  { intros k Hk. unfold proxy_request. simpl. destruct (assoc_get CONTENT_TYPE_HEADER _); [|done].
    by destruct Hk as [->|[->| ->]]. }
  assert (has_header FORWARD_HEADER (px_headers (proxy_request fwd url req body)) = true) as Hfh.
  { unfold has_header. by rewrite Hget by auto. }
  assert (assoc_get FORWARD_SECRET_HEADER (px_headers (proxy_request fwd url req body)) = fw_secret fwd)
    as Hsec by (rewrite Hget by auto; by destruct (fw_secret fwd)).
  split_and!.
  - done.
  - unfold has_header. rewrite Hget by auto. by destruct (fw_secret fwd).
  - intros fwd' next. unfold forward_layer, decide_forward. cbn [received req_headers]. rewrite Hfh.
    destruct (mutating _); [|by right]. destruct (ps_is_primary _); [by right|]. left. eauto.
  - intros sec now Hne Heq Hp. unfold router_with_security, auth_layer. cbn [received req_headers].
    rewrite Hfh. unfold authenticated_forward. cbn [received req_headers]. rewrite Hsec, Heq.
    destruct (fw_secret fwd) as [s|]; [|done].
    rewrite (proj2 (constant_time_eq_spec _ _) eq_refl). cbn [andb received req_principal].
    assert (∀ r, forward_layer (sec_forward sec) router r = router r) as Hfl.
    { intros r. unfold forward_layer, decide_forward. rewrite Hp. by destruct (mutating _). }
    destruct (sec_authz sec); [unfold authz_layer; cbn|]; apply Hfl.
  - intros st now next Hs. unfold auth_layer. cbn [received req_headers]. rewrite Hfh.
    assert (authenticated_forward st (received (proxy_request fwd url req body) path query peer) = false) as ->; [|done].
    unfold authenticated_forward. cbn [received req_headers]. rewrite Hsec.
    destruct (fw_secret fwd) as [s|]; [|done]. destruct Hs as [?|Hs]; [done|].
    destruct (as_forward_secret st) as [s'|]; [|done]. apply not_true_iff_false.
    rewrite constant_time_eq_spec, as_bytes_inj. congruence.
Qed.
End facts.

(** ** A concrete router for the witnesses *)

Fixpoint match_segments (pat : list PatternSegment) (segs : list string) : option (list string) :=
  match pat, segs with
  | [], [] => Some []
  | Lit l :: pat', s :: segs' => if String.eqb l s then match_segments pat' segs' else None
  | Param :: pat', s :: segs' =>
      if String.eqb s "" then None else (s ::.) <$> match_segments pat' segs'
  | _, _ => None
  end.

Definition path_segments (path : string) : option (list string) :=
  match path with
  | String "/" "" => Some []
  | String "/" rest => Some (split_char "/" rest)
  | _ => None
  end.

Fixpoint match_first (i : nat) (pats : list (list PatternSegment)) (segs : list string)
    : option (nat * list string) :=
  match pats with
  | [] => None
  | pat :: pats' =>
      match match_segments pat segs with
      | Some params => Some (i, params)
      | None => match_first (S i) pats' segs
      end
  end.

Fixpoint method_find (hs : list (Method * Handler)) (m : Method) : option Handler :=
  match hs with
  | [] => None
  | (m', h) :: hs' => if decide (m' = m) then Some h else method_find hs' m
  end.

Definition demo_percent : PercentLib := {| percent_decode s := s |}.
Definition demo_axum : Axum := {|
  axum_match pats path := path_segments path ≫= match_first 0 pats;
  axum_method hs m :=
    match method_find hs m with
    | Some h => Some h
    | None => if decide (m = HEAD) then method_find hs GET else None
    end;
  axum_param := Some;
|}.

Lemma match_segments_fill pat segs params :
  match_segments pat segs = Some params → Forall (λ s, free_of "/" s = true) segs →
  fill pat params = Some segs ∧ forallb param_ok params = true.
Proof.
  revert segs params. induction pat as [|[l|] pat IH]; intros [|s segs] params; cbn [match_segments fill];
    try done.
  - by intros [= <-].
  - destruct (String.eqb_spec l s) as [->|]; [|done]. intros Hm [_ Hs]%Forall_cons_1.
    destruct (IH _ _ Hm Hs) as [-> ?]. by split.
  - destruct (String.eqb s "") eqn:He; [done|].
    destruct (match_segments pat segs) as [ps|] eqn:Hm; cbn; [|done].
    intros [= <-] [Hfree Hs]%Forall_cons_1. destruct (IH _ _ Hm Hs) as [Hf Hp]. cbn. rewrite Hf.
    split; [done|]. unfold param_ok at 1. by rewrite He, Hfree.
Qed.

Lemma match_first_lookup i pats segs j params :
  match_first i pats segs = Some (j, params) →
  ∃ pat, pats !! (j - i) = Some pat ∧ i ≤ j ∧ match_segments pat segs = Some params.
Proof.
  revert i. induction pats as [|pat pats IH]; intros i; cbn [match_first]; [done|].
  destruct (match_segments pat segs) as [ps|] eqn:Hm.
  - intros [= -> ->]. exists pat. by rewrite Nat.sub_diag.
  - intros (pat' & Hl & Hle & Hp)%IH. exists pat'. replace (j - i) with (S (j - S i)) by lia.
    split_and!; [done|lia|done].
Qed.

Lemma method_find_elem hs m h : method_find hs m = Some h → (m, h) ∈ hs.
Proof.
  induction hs as [|[m' h'] hs IH]; cbn [method_find]; [done|].
  case_decide as Hm; [intros [= ->]; subst; left|]. intros ?%IH. by right.
Qed.

Lemma split_char_pieces c s : Forall (λ p, free_of c p = true) (split_char c s).
Proof.
  induction s as [|a s IH]; cbn [split_char]; [by repeat constructor|].
  destruct (Ascii.eqb a c) eqn:Ha; [by constructor|].
  destruct (split_char c s) as [|x l]; [constructor|]. apply Forall_cons_1 in IH as [Hx Hl].
  constructor; [|done]. cbn [free_of]. by rewrite Ha, Hx.
Qed.

Lemma join_split s : join_path (split_char "/" s) = "/" +:+ s.
Proof.
  induction s as [|a s IH]; [done|]. cbn [split_char]. destruct (Ascii.eqb_spec a "/") as [->|Hne].
  - change (join_path ("" :: split_char "/" s)) with ("/" +:+ "" +:+ join_path (split_char "/" s)).
    by rewrite IH.
  - destruct (split_char "/" s) as [|x l]; [done|].
    change (join_path (x :: l)) with (String "/" (x +:+ join_path l)) in IH. injection IH as IH.
    change (String "/" (String a (x +:+ join_path l)) = String "/" (String a s)). by rewrite IH.
Qed.

Lemma path_of_split s : path_of (split_char "/" s) = String "/" s.
Proof.
  pose proof (join_split s) as Hj. unfold path_of. destruct (split_char "/" s) as [|x l]; [|exact Hj].
  simpl in Hj. discriminate Hj.
Qed.

Definition demo_axum_laws : @AxumLaws demo_axum demo_percent.
Proof.
  constructor.
  - intros pats path i params. cbn [axum_match demo_axum].
    destruct (path_segments path) as [segs|] eqn:Hseg; cbn; [|done].
    intros (pat & Hl & _ & Hm)%match_first_lookup. rewrite Nat.sub_0_r in Hl.
    assert (path = path_of segs ∧ Forall (λ s, free_of "/" s = true) segs) as [Hpath Hfree].
    { unfold path_segments in Hseg. repeat case_match; simplify_eq; [by split; [|constructor]|].
      split; [|apply split_char_pieces]. by rewrite path_of_split. }
    destruct (match_segments_fill pat segs params Hm Hfree) as [? ?]. by exists pat, segs.
  - intros hs m h. cbn [axum_method demo_axum]. destruct (method_find hs m) as [h'|] eqn:Hf.
    + intros [= ->]. left. by apply method_find_elem.
    + case_decide as Hm; [|done]. intros ?%method_find_elem. by right.
  - by intros raw s [= ->].
Defined.

Section witnesses.
#[local] Existing Instance demo_percent.
#[local] Existing Instance demo_axum.
#[local] Existing Instance demo_axum_laws.

Definition demo_auth : AuthLib := {|
  base64_decode := Some; utf8_valid _ := true; bcrypt_verify _ _ := None;
  header_to_str := Some; header_from_str := Some |}.
#[local] Existing Instance demo_auth.

Definition demo_request_versions : Request :=
  mkRequest GET "/subjects/orders/versions" "" [(AUTHORIZATION, "Basic bob:pw")] (Some "")
    (Some "10.0.0.1") None None false.

(** Only bob may read the subject. *)
Definition demo_sec : SecurityLayers :=
  mkSecurityLayers
    (mkAuthState (Some (from_users [("bob", "pw,dev")])) None true "registry" None)
    (Some (mkAuthz (λ _ r, if String.eqb (pr_name (ar_principal r)) "bob" then Allow else Deny) [] ∅ true))
    (mkForwardState (mkPrimaryState false None None None) (λ _, None) "node" 100 None).

Lemma authz_covers_routes_witness :
  authz_target GET "/subjects/orders/versions" = Some (Topic, "orders", Read) ∧
  authz_target HEAD "/subjects/orders/versions" = None.
Proof.
  split.
  - rewrite (proj1 (authz_covers_routes demo_request_versions) HVersions ["orders"] demo_request_versions);
      [reflexivity|vm_compute; reflexivity|discriminate].
  - reflexivity.
Defined.

Lemma secured_dispatch_witness :
  ∃ p host, resolve (req_headers demo_request_versions) None (sec_auth demo_sec) 0 = Authn p ∧
    pr_name p = "bob" ∧ req_peer demo_request_versions = Some host.
Proof.
  assert (∃ r, router_with_security demo_sec 0 demo_request_versions = Handled HVersions ["orders"] r) as [r Hr]
    by (eexists; vm_compute; reflexivity).
  destruct (secured_dispatch demo_sec 0 demo_request_versions HVersions ["orders"] r eq_refl Hr)
    as [_ [(node & secret & Hn & _)|(p & Hp & Haz)]]; [discriminate Hn|].
  exists p, "10.0.0.1". split; [exact Hp|]. split; [|reflexivity].
  vm_compute in Hp. injection Hp as <-. reflexivity.
Defined.
End witnesses.
