(* ===== verification/Config.v ===== *)
(** * Configuration and command line (config.rs, config_value.rs, cli.rs and the
    option wiring of bin/schema-registry.rs)

    The runtime policy with its validation and defaults, the assembly of the security
    settings from the command line, and the layers the server is started with. The
    quantities of krabka-units, the validators of krabka-security and the reading of a
    password file are parameters. *)

From stdpp Require Import base gmap strings list pretty.
From Stdlib Require Import ZArith Lia Ascii SpecFloat.
From S2P Require Import Prelude Text Float Json Types Store Compat Cache KafkaStore Auth Authz Router.

#[local] Open Scope Z_scope.

(** ** Quantities *)

(** krabka-units' times and sizes as the configuration uses them. *)
Class ConfigUnits `{TimeUnits} := {
  millis_i64 : Time → Z;
  from_millis : Z → Time;
  time_eqb : Time → Time → bool;
  time_ltb : Time → Time → bool;
  time_leb : Time → Time → bool;
  secs : Z → Time;
  millis : Z → Time;
  minutes : Z → Time;
  ByteSize : Type;
  bytes_u64 : ByteSize → Z;
  bytes_f64 : ByteSize → spec_float;
  from_bytes : Z → ByteSize;
  bytes_eqb : ByteSize → ByteSize → bool;
  mebibytes : Z → ByteSize;
}.

Definition is_finite (f : spec_float) : bool :=
  match f with S754_infinity _ | S754_nan => false | _ => true end.

(** [i32::try_from] and then [GreaterI32::<0>::new], with one error for both. *)
Definition positive_i32 (n : Z) : option Z :=
  if (n <? 1) || (i32_max <? n) then None else Some n.

(** ** Validated values (config_value.rs) *)

(** [PositiveI32::from_str]; the texts of the two errors are the libraries'. *)
Definition positive_i32_from_str (parse_error refine_error : string → string) (value : string)
    : result string Z :=
  match parse_i32 value with
  | None => Err (parse_error value)
  | Some n => if 0 <? n then Ok n else Err (refine_error value)
  end.

(** ** Runtime policy (config.rs) *)

Section runtime.
Context `{ConfigUnits}.

Definition protocol_millis_i32 (name : string) (value : Time) : result string Z :=
  let error := name +:+ " must be a positive whole number of milliseconds within 1..=i32::MAX" in
  let ms := millis_i64 value in
  if negb (is_finite (secs_f64 value)) || negb (time_eqb (from_millis ms) value) then Err error
  else ok_or (positive_i32 ms) error.

Definition protocol_bytes_i32 (name : string) (value : ByteSize) : result string Z :=
  let error := name +:+ " must be a positive whole number of bytes within 1..=i32::MAX" in
  let bytes := bytes_u64 value in
  if negb (is_finite (bytes_f64 value)) || negb (bytes_eqb (from_bytes bytes) value) then Err error
  else ok_or (positive_i32 bytes) error.

(** The two capacities of krabka-client-core are passed on as they are. *)
Record RegistryRuntimeConfig := mkRuntime {
  rt_dispatch_queue_capacity : Z;
  rt_client_frame_max : ByteSize;
  rt_election_session_timeout : Time;
  rt_election_rebalance_timeout : Time;
  rt_election_heartbeat_interval : Time;
  rt_election_reconnect_backoff : Time;
  rt_store_reader_retry_backoff : Time;
  rt_store_reader_fetch_max_wait : Time;
  rt_store_reader_fetch_max : ByteSize;
  rt_store_timeout : Time;
  rt_schemas_topic_create_timeout : Time;
  rt_forward_max_body : ByteSize;
  rt_default_compatibility_level : string;
  rt_default_mode : string;
}.

Definition known_mode (mode : string) : bool :=
  existsb (String.eqb mode) ["READWRITE"; "READONLY"; "IMPORT"].

Definition runtime_validate (c : RegistryRuntimeConfig) : result string unit :=
  _ ← protocol_millis_i32 "store reader fetch max wait" (rt_store_reader_fetch_max_wait c);
  _ ← protocol_bytes_i32 "store reader fetch max" (rt_store_reader_fetch_max c);
  _ ← protocol_millis_i32 "schemas topic create timeout" (rt_schemas_topic_create_timeout c);
  if time_leb (rt_election_session_timeout c) (rt_election_heartbeat_interval c) then
    Err "election heartbeat interval must be below session timeout"
  else if time_ltb (rt_election_rebalance_timeout c) (rt_election_session_timeout c) then
    Err "election session timeout exceeds rebalance timeout"
  else
    match try_parse (rt_default_compatibility_level c) with
    | None => Err "invalid default compatibility level"
    | Some _ => if known_mode (rt_default_mode c) then Ok () else Err "invalid default mode"
    end.

Definition runtime_default (capacity : Z) (frame_max : ByteSize) : RegistryRuntimeConfig :=
  mkRuntime capacity frame_max (secs 10) (secs 30) (secs 3) (millis 500) (millis 250) (millis 500)
    (mebibytes 1) (secs 60) (secs 15) (mebibytes 16) "BACKWARD" "READWRITE".

(** ** The runtime options of the command line (bin/schema-registry.rs) *)

Record RuntimeArgs := mkRuntimeArgs {
  ra_dispatch_queue_capacity : Z;
  ra_client_frame_max : ByteSize;
  ra_election_session_timeout : option Time;
  ra_election_rebalance_timeout : option Time;
  ra_election_heartbeat_interval : option Time;
  ra_election_reconnect_backoff : option Time;
  ra_store_reader_retry_backoff : option Time;
  ra_store_reader_fetch_max_wait : option Time;
  ra_store_reader_fetch_max : option ByteSize;
  ra_store_timeout : option Time;
  ra_schemas_topic_create_timeout : option Time;
  ra_forward_max_body : option ByteSize;
  ra_default_compatibility_level : option string;
  ra_default_mode : option string;
}.

(** The options over the defaults. *)
Definition runtime_of (a : RuntimeArgs) : RegistryRuntimeConfig :=
  let d := runtime_default (ra_dispatch_queue_capacity a) (ra_client_frame_max a) in
  mkRuntime (ra_dispatch_queue_capacity a) (ra_client_frame_max a)
      (default (rt_election_session_timeout d) (ra_election_session_timeout a))
      (default (rt_election_rebalance_timeout d) (ra_election_rebalance_timeout a))
      (default (rt_election_heartbeat_interval d) (ra_election_heartbeat_interval a))
      (default (rt_election_reconnect_backoff d) (ra_election_reconnect_backoff a))
      (default (rt_store_reader_retry_backoff d) (ra_store_reader_retry_backoff a))
      (default (rt_store_reader_fetch_max_wait d) (ra_store_reader_fetch_max_wait a))
      (default (rt_store_reader_fetch_max d) (ra_store_reader_fetch_max a))
      (default (rt_store_timeout d) (ra_store_timeout a))
      (default (rt_schemas_topic_create_timeout d) (ra_schemas_topic_create_timeout a))
      (default (rt_forward_max_body d) (ra_forward_max_body a))
      (default (rt_default_compatibility_level d) (ra_default_compatibility_level a))
      (default (rt_default_mode d) (ra_default_mode a)).

Definition runtime_config (a : RuntimeArgs) : result string RegistryRuntimeConfig :=
  let runtime := runtime_of a in
  _ ← runtime_validate runtime;
  Ok runtime.

Definition all_digits (value : string) : bool :=
  forallb (λ c, let n := nat_of_ascii c in (48 <=? n)%nat && (n <=? 57)%nat) (String.list_ascii_of_string value).

(** [parse::positive_time] is krabka-units'. *)
Definition positive_millis_time (positive_time : string → result string Time) (value : string)
    : result string Time :=
  if all_digits value then positive_time (value +:+ "ms") else positive_time value.

Definition parse_compatibility_level (value : string) : result string string :=
  match try_parse value with Some _ => Ok value | None => Err "invalid compatibility level" end.

Definition parse_mode (value : string) : result string string :=
  if known_mode value then Ok value else Err "invalid mode".

Definition split_bootstrap (bootstrap : string) : list string :=
  List.filter (λ s, negb (String.eqb s "")) (trim <$> split_char "," bootstrap).
End runtime.

(** ** Security settings (config.rs, cli.rs) *)

(** Types of krabka-security and krabka-client-core, with the fields the assembly
    fills. A validator's verdict is its own. *)
Inductive OAuthBearerValidator :=
  | UnsecuredJws (principal_claim_name : string)
  | SignedJws (principal_claim_name : string) (valid_issuer expected_audience : option string).

Inductive ClientAuthMode := AuthDisabled | AuthOptional | AuthRequired.

Record TlsConfig := mkTls {
  tls_cert_chain_path : string;
  tls_private_key_path : string;
  tls_trust_roots_path : option string;
  tls_client_ca_path : option string;
  tls_client_auth_mode : ClientAuthMode;
}.

Inductive ListenerProtocol := PSsl | PSaslPlaintext | PSaslSsl.
Inductive SaslMechanism := ScramSha256 | ScramSha512.

Inductive SaslCredentials :=
  | CredGssapi (keytab_path client_principal service_name kdc_url : string)
  | CredPlain (username password : string)
  | CredScram (mechanism : SaslMechanism) (username password : string) (delegation_token : bool).

Inductive TrustStore := PlatformTrust | PemFile (path : string).
Record TlsConnectorConfig := mkConnector { tc_trust_store : TrustStore; tc_server_name : string }.

Record ClientSecurity := mkClientSecurity {
  cs_protocol : ListenerProtocol;
  cs_tls : option TlsConnectorConfig;
  cs_sasl : option SaslCredentials;
  cs_sasl_host : option string;
}.

Section security.
Context `{ConfigUnits}.

Record AuthzConfig := mkAuthzConfig {
  ac_enabled : bool;
  ac_super_users : gset string;
  ac_acl_refresh : Time;
}.

Record SecurityConfig := mkSecurityConfig {
  sc_require_auth : bool;
  sc_realm : string;
  sc_basic : option BasicAuthConfig;
  sc_bearer : option OAuthBearerValidator;
  sc_tls : option TlsConfig;
  sc_authz : option AuthzConfig;
  sc_forward_secret : option string;
  sc_client : option ClientSecurity;
}.

Record SecurityCliInput := mkSecurityCliInput {
  ci_require_auth : bool;
  ci_realm : string;
  ci_basic_auth_file : option string;
  ci_basic_users : list string;
  ci_auth_roles : list string;
  ci_bearer : string;
  ci_bearer_principal_claim : string;
  ci_jwks_endpoint_uri : option string;
  ci_jwks_valid_issuer : option string;
  ci_jwks_expected_audience : option string;
  ci_jwks_ca : option string;
  ci_jwks_principal_claim : option string;
  ci_jwks_refresh : option Time;
  ci_tls_cert : option string;
  ci_tls_key : option string;
  ci_tls_client_ca : option string;
  ci_tls_client_auth : string;
  ci_authz : bool;
  ci_super_users : list string;
  ci_acl_refresh : option Time;
  ci_forward_secret : option string;
  ci_kafka_security_protocol : string;
  ci_kafka_sasl_mechanism : string;
  ci_kafka_sasl_username : option string;
  ci_kafka_sasl_password : option string;
  ci_kafka_sasl_password_file : option string;
  ci_kafka_sasl_keytab_path : option string;
  ci_kafka_sasl_client_principal : option string;
  ci_kafka_sasl_service_name : option string;
  ci_kafka_sasl_host : option string;
  ci_kafka_sasl_kdc_url : option string;
  ci_kafka_tls_ca : option string;
  ci_kafka_tls_server_name : option string;
}.

Definition DEFAULT_JWKS_REFRESH : Time := minutes 1.
Definition DEFAULT_ACL_REFRESH : Time := secs 30.

(** The key-set handle is shared with the validator; only the refresher uses it. *)
Record JwksHandleForRefresh := mkJwksHandle {
  jw_endpoint_uri : string;
  jw_ca_path : option string;
  jw_refresh : Time;
}.

Record SecurityOutput := mkSecurityOutput {
  so_config : SecurityConfig;
  so_jwks_handle : option JwksHandleForRefresh;
}.

(** The protocol's needs, and [std::fs::read_to_string] with its error. *)
Context (requires_tls requires_sasl : ListenerProtocol → bool).
Context (read_to_string : string → result string string).
Context `{AuthLib}.

Definition insert_basic_user (users : list (string * string)) (entry : string) : list (string * string) :=
  match split_once ":" entry with
  | Some (u, c) => List.filter (λ kv, negb (String.eqb kv.1 u)) users ++ [(u, c)]
  | None => users
  end.

Definition build_basic (i : SecurityCliInput) : option BasicAuthConfig :=
  match ci_basic_auth_file i, ci_basic_users i with
  | None, [] => None
  | file, entries =>
      Some (mkBasicAuthConfig (foldl insert_basic_user [] entries) file (list_to_set (ci_auth_roles i)))
  end.

Definition build_bearer_jwks (i : SecurityCliInput) : result string (OAuthBearerValidator * JwksHandleForRefresh) :=
  endpoint_uri ← ok_or (ci_jwks_endpoint_uri i) "--bearer-jwks-endpoint-uri is required when --bearer=jwks";
  Ok (SignedJws (default (ci_bearer_principal_claim i) (ci_jwks_principal_claim i))
        (ci_jwks_valid_issuer i) (ci_jwks_expected_audience i),
      mkJwksHandle endpoint_uri (ci_jwks_ca i) (default DEFAULT_JWKS_REFRESH (ci_jwks_refresh i))).

Definition build_bearer (i : SecurityCliInput)
    : result string (option OAuthBearerValidator * option JwksHandleForRefresh) :=
  if String.eqb (ci_bearer i) "off" then Ok (None, None)
  else if String.eqb (ci_bearer i) "unsecured" then
    Ok (Some (UnsecuredJws (ci_bearer_principal_claim i)), None)
  else if String.eqb (ci_bearer i) "jwks" then
    '(cfg, refresh) ← build_bearer_jwks i; Ok (Some cfg, Some refresh)
  else Err ("invalid --bearer: " +:+ ci_bearer i +:+ " (want off|unsecured|jwks)").

Definition client_auth_mode (mode : string) : result string ClientAuthMode :=
  if String.eqb mode "disabled" then Ok AuthDisabled
  else if String.eqb mode "optional" then Ok AuthOptional
  else if String.eqb mode "required" then Ok AuthRequired
  else Err ("invalid --tls-client-auth: " +:+ mode).

Definition build_tls (i : SecurityCliInput) : result string (option TlsConfig) :=
  match ci_tls_cert i, ci_tls_key i with
  | Some cert, Some key =>
      client_auth ← client_auth_mode (ci_tls_client_auth i);
      Ok (Some (mkTls cert key (ci_tls_client_ca i) (ci_tls_client_ca i) client_auth))
  | None, None => Ok None
  | _, _ => Err "--tls-cert and --tls-key must be set together"
  end.

Definition build_authz (i : SecurityCliInput) : option AuthzConfig :=
  if ci_authz i then
    Some (mkAuthzConfig true (list_to_set (ci_super_users i)) (default DEFAULT_ACL_REFRESH (ci_acl_refresh i)))
  else None.

Definition to_ascii_uppercase (s : string) : string :=
  String.string_of_list_ascii ((λ c, let n := nat_of_ascii c in
    if ((97 <=? n) && (n <=? 122))%nat then ascii_of_nat (n - 32) else c) <$> String.list_ascii_of_string s).

(** [trim_end_matches(['\r', '\n'])]. *)
Definition trim_newlines (s : string) : string :=
  let fix drop l :=
    match l with
    | c :: l' => if (Ascii.eqb c "013" || Ascii.eqb c "010")%char then drop l' else l
    | [] => []
    end in
  String.string_of_list_ascii (rev (drop (rev (String.list_ascii_of_string s)))).

Definition sasl_password (i : SecurityCliInput) : result string string :=
  match ci_kafka_sasl_password i, ci_kafka_sasl_password_file i with
  | Some _, Some _ => Err "--kafka-sasl-password and --kafka-sasl-password-file are mutually exclusive"
  | Some password, None => Ok password
  | None, Some path =>
      match read_to_string path with
      | Ok text => Ok (trim_newlines text)
      | Err e => Err ("read Kafka SASL password " +:+ path +:+ ": " +:+ e)
      end
  | None, None => Err "--kafka-sasl-password or --kafka-sasl-password-file required for SASL_* protocols"
  end.

Definition build_sasl (i : SecurityCliInput) : result string SaslCredentials :=
  let mechanism := to_ascii_uppercase (ci_kafka_sasl_mechanism i) in
  if String.eqb mechanism "GSSAPI" then
    keytab ← ok_or (ci_kafka_sasl_keytab_path i) "--kafka-sasl-keytab-path required for GSSAPI";
    principal ← ok_or (ci_kafka_sasl_client_principal i) "--kafka-sasl-client-principal required for GSSAPI";
    kdc ← ok_or (ci_kafka_sasl_kdc_url i) "--kafka-sasl-kdc-url required for GSSAPI";
    Ok (CredGssapi keytab principal (default "kafka" (ci_kafka_sasl_service_name i)) kdc)
  else
    username ← ok_or (ci_kafka_sasl_username i) "--kafka-sasl-username required for SASL_* protocols";
    password ← sasl_password i;
    if String.eqb mechanism "PLAIN" then Ok (CredPlain username password)
    else if String.eqb mechanism "SCRAM-SHA-256" then Ok (CredScram ScramSha256 username password false)
    else if String.eqb mechanism "SCRAM-SHA-512" then Ok (CredScram ScramSha512 username password false)
    else Err ("invalid --kafka-sasl-mechanism: " +:+ mechanism +:+ " (want PLAIN|SCRAM-SHA-256|SCRAM-SHA-512|GSSAPI)").

Definition client_security (i : SecurityCliInput) (protocol : ListenerProtocol) : result string ClientSecurity :=
  let tls :=
    if requires_tls protocol then
      Some (mkConnector (match ci_kafka_tls_ca i with Some ca => PemFile ca | None => PlatformTrust end)
              (default "localhost" (ci_kafka_tls_server_name i)))
    else None in
  sasl ← (if requires_sasl protocol then c ← build_sasl i; Ok (Some c) else Ok None);
  Ok (mkClientSecurity protocol tls sasl (ci_kafka_sasl_host i)).

Definition build_client_security (i : SecurityCliInput) : result string (option ClientSecurity) :=
  let protocol := to_ascii_uppercase (ci_kafka_security_protocol i) in
  if String.eqb protocol "PLAINTEXT" then Ok None
  else if String.eqb protocol "SSL" then c ← client_security i PSsl; Ok (Some c)
  else if String.eqb protocol "SASL_PLAINTEXT" then c ← client_security i PSaslPlaintext; Ok (Some c)
  else if String.eqb protocol "SASL_SSL" then c ← client_security i PSaslSsl; Ok (Some c)
  else Err ("invalid --kafka-security-protocol: " +:+ protocol +:+ " (want PLAINTEXT|SSL|SASL_PLAINTEXT|SASL_SSL)").

Definition build_security (i : SecurityCliInput) : result string SecurityOutput :=
  if (ci_require_auth i || ci_authz i)
     && match ci_forward_secret i with None => true | Some s => String.eqb s "" end
  then Err "--forward-secret is required when authentication or authorization is enabled"
  else
    _ ← match ci_forward_secret i with
        | Some secret => ok_or (header_from_str secret) "--forward-secret is not a valid HTTP header value"
        | None => Ok ""
        end;
    '(bearer, jwks_handle) ← build_bearer i;
    tls ← build_tls i;
    client ← build_client_security i;
    Ok (mkSecurityOutput
          (mkSecurityConfig (ci_require_auth i) (ci_realm i) (build_basic i) bearer tls (build_authz i)
             (ci_forward_secret i) client)
          jwks_handle).
End security.

(** ** Starting the server (main of bin/schema-registry.rs) *)

Section start.
Context `{ConfigUnits}.
(** The verdict of a bearer validator, the ACL evaluator and the reading of the
    credential file. *)
Context (validate_token : OAuthBearerValidator → string → Z → option Principal).
Context (authorizer : gset string → list AclEntry → AuthorizationRequest → PermissionType).
Context (read_file : string → option string).

(** The layers of a node whose view of the primary is [primary]; [None]: the
    credentials could not be loaded. *)
Definition start_layers (cfg : SecurityConfig) (primary : PrimaryState) (http : ProxyRequest → option ProxyReply)
    (advertised_url : string) (forward_max_body : nat) : option SecurityLayers :=
  basic ← match sc_basic cfg with
          | Some b => store ← load read_file b; Some (Some store)
          | None => Some None
          end;
  let auth := mkAuthState basic (validate_token <$> sc_bearer cfg) (sc_require_auth cfg) (sc_realm cfg)
                (sc_forward_secret cfg) in
  let authz :=
    match sc_authz cfg with
    | Some a => if ac_enabled a
                then Some (mkAuthz (authorizer (ac_super_users a)) [] (ac_super_users a) true) else None
    | None => None
    end in
  Some (mkSecurityLayers auth authz
          (mkForwardState primary http advertised_url forward_max_body (sc_forward_secret cfg))).
End start.

(** The layers as a request finds them: the ACL cache after the rounds the
    refresh task has run. *)
Definition observe_acls (rounds : list (option (list AclEntry) * bool)) (sec : SecurityLayers) : SecurityLayers :=
  mkSecurityLayers (sec_auth sec) (run_acl_refresh rounds <$> sec_authz sec) (sec_forward sec).
