(* ===== verification/ConfigFacts.v ===== *)
(** * Correctness of the configuration (config.rs, cli.rs, bin/schema-registry.rs)

    What a validated runtime policy guarantees, and what a node started from the security
    options lets through. *)

From stdpp Require Import base gmap strings list pretty.
From Stdlib Require Import ZArith Lia Ascii SpecFloat.
From S2P Require Import Prelude Text Float Json Types Store StoreFacts StoreSpec Record RecordFacts Reader ReaderFacts Topic Start.
From S2P Require Import Compat Cache KafkaStore Auth Authz Router RouterFacts Config.

#[local] Open Scope Z_scope.

(** ** Runtime policy *)

Section runtime.
Context `{ConfigUnits}.

Lemma ok_or_Ok {A E} (o : option A) (e : E) a : ok_or o e = Ok a ↔ o = Some a.
Proof. destruct o; split; intros; simplify_eq/=; done. Qed.

Lemma positive_i32_Some n m : positive_i32 n = Some m ↔ m = n ∧ 1 ≤ n ≤ i32_max.
Proof.
  unfold positive_i32. destruct (Z.ltb_spec n 1), (Z.ltb_spec i32_max n); cbn; split; intros; simplify_eq; try lia; try done.
  destruct H3 as [-> _]. done.
Qed.

(** A time that is a whole number of milliseconds, positive and in [i32]. *)
Definition whole_millis (value : Time) (n : Z) : Prop :=
  millis_i64 value = n ∧ 1 ≤ n ≤ i32_max ∧ time_eqb (from_millis n) value = true ∧
  is_finite (secs_f64 value) = true.

Definition whole_bytes (value : ByteSize) (n : Z) : Prop :=
  bytes_u64 value = n ∧ 1 ≤ n ≤ i32_max ∧ bytes_eqb (from_bytes n) value = true ∧
  is_finite (bytes_f64 value) = true.

Lemma protocol_millis_i32_spec name value n : protocol_millis_i32 name value = Ok n ↔ whole_millis value n.
Proof.
  unfold protocol_millis_i32, whole_millis. destruct (is_finite _); cbn; [|split; [done|by intros (_ & _ & _ & ?)]].
  destruct (time_eqb (from_millis (millis_i64 value)) value) eqn:E; cbn.
  - rewrite ok_or_Ok, positive_i32_Some. split; [intros [-> [? ?]]; by split_and!|intros (<- & [? ?] & _ & _); by split_and!].
  - split; [done|]. intros (<- & _ & He & _). congruence.
Qed.

Lemma protocol_bytes_i32_spec name value n : protocol_bytes_i32 name value = Ok n ↔ whole_bytes value n.
Proof.
  unfold protocol_bytes_i32, whole_bytes. destruct (is_finite _); cbn; [|split; [done|by intros (_ & _ & _ & ?)]].
  destruct (bytes_eqb (from_bytes (bytes_u64 value)) value) eqn:E; cbn.
  - rewrite ok_or_Ok, positive_i32_Some. split; [intros [-> [? ?]]; by split_and!|intros (<- & [? ?] & _ & _); by split_and!].
  - split; [done|]. intros (<- & _ & He & _). congruence.
Qed.

Lemma result_bind_unit {A E} (r : result E A) (k : result E unit) :
  (_ ← r; k) = Ok () ↔ (∃ a, r = Ok a) ∧ k = Ok ().
Proof. destruct r; cbn; naive_solver. Qed.

(** The level names a policy may have. *)
Definition level_names : list string :=
  ["NONE"; "BACKWARD"; "BACKWARD_TRANSITIVE"; "FORWARD"; "FORWARD_TRANSITIVE"; "FULL"; "FULL_TRANSITIVE"].

(** A policy a node can start with: what the store's requests carry fits their fields exactly, the
    election's times are in order, the defaults are known. *)
Record runtime_ok (c : RegistryRuntimeConfig) : Prop := {
  ok_fetch_wait : ∃ n, whole_millis (rt_store_reader_fetch_max_wait c) n;
  ok_fetch_max : ∃ n, whole_bytes (rt_store_reader_fetch_max c) n;
  ok_create_timeout : ∃ n, whole_millis (rt_schemas_topic_create_timeout c) n;
  ok_heartbeat : time_leb (rt_election_session_timeout c) (rt_election_heartbeat_interval c) = false;
  ok_rebalance : time_ltb (rt_election_rebalance_timeout c) (rt_election_session_timeout c) = false;
  ok_level : rt_default_compatibility_level c ∈ level_names;
  ok_mode : rt_default_mode c ∈ ["READWRITE"; "READONLY"; "IMPORT"];
}.

Lemma known_mode_spec m : known_mode m = true ↔ m ∈ ["READWRITE"; "READONLY"; "IMPORT"].
Proof.
  unfold known_mode. rewrite existsb_exists, list_elem_of_In. split.
  - intros (x & Hx & ->%String.eqb_eq). done.
  - intros Hm. exists m. split; [done|apply String.eqb_refl].
Qed.

Lemma try_parse_names name : is_Some (try_parse name) ↔ name ∈ level_names.
Proof.
  unfold level_names. split.
  - unfold try_parse. repeat match goal with
      | |- context [String.eqb ?x ?y] => destruct (String.eqb_spec x y) as [->|]; [intros _; by repeat constructor|]
      end. by intros [].
  - intros Hn. repeat apply elem_of_cons in Hn as [->|Hn]; [by eexists..|by apply not_elem_of_nil in Hn].
Qed.

Lemma runtime_validate_facts c : runtime_validate c = Ok () ↔ runtime_ok c.
Proof.
  unfold runtime_validate. rewrite !result_bind_unit.
  setoid_rewrite protocol_millis_i32_spec. setoid_rewrite protocol_bytes_i32_spec.
  destruct (time_leb _ _) eqn:Eh; [split; [naive_solver|intros []; congruence]|].
  destruct (time_ltb _ _) eqn:Er; [split; [naive_solver|intros []; congruence]|].
  pose proof (try_parse_names (rt_default_compatibility_level c)) as Hn.
  destruct (try_parse _) as [l|] eqn:El; [|split; [naive_solver|intros [? ? ? ? ? Hl%Hn ?]; by destruct Hl]].
  assert (rt_default_compatibility_level c ∈ level_names) by (apply Hn; by eexists).
  destruct (known_mode _) eqn:Em.
  - apply known_mode_spec in Em. split; [intros (? & ? & ? & _); by split|intros []; by split_and!].
  - split; [naive_solver|]. intros [? ? ? ? ? ? Hm%known_mode_spec]. congruence.
Qed.
End runtime.

(** ** The settings of a replayed log *)

Section settings.
Context `{SchemaFormat} `{SerdeJson}.

(** What the last record about a setting says: of a subject, or ([None]) the global one. A tombstone
    unsets it; the global level has none that counts. *)
Definition last_level (subject : option string) (l : list SchemaRecord) : option string :=
  foldl (λ level rec,
    match rec with
    | RConfig k v =>
        if decide (ck_subject k = subject) then
          match v, subject with
          | Some v, _ => Some (compatibility_level v)
          | None, Some _ => None
          | None, None => level
          end
        else level
    | _ => level
    end) None l.

Definition last_mode (subject : option string) (l : list SchemaRecord) : option string :=
  foldl (λ mode rec,
    match rec with
    | RMode k v => if decide (mk_subject k = subject) then mv_mode <$> v else mode
    | _ => mode
    end) None l.

(** What a setting is for a subject: its own, the global one, the configured default. *)
Definition in_force (last : option string → list SchemaRecord → option string) (configured subject : string)
    (l : list SchemaRecord) : string :=
  match last (Some subject) l, last None l with
  | Some own, _ => own
  | None, Some global => global
  | None, None => configured
  end.

Definition level_at (s : StoreState) (subject : option string) : option string :=
  match subject with Some subject => subject_compat_ s !! subject | None => global_compat_ s end.
Definition mode_at (s : StoreState) (subject : option string) : option string :=
  match subject with Some subject => subject_mode_ s !! subject | None => global_mode_ s end.

(** Records that are no setting leave the settings alone. *)
Lemma apply_record_settings rec s :
  match rec with RConfig _ _ | RMode _ _ => True | _ => settings (apply_record rec s) = settings s end.
Proof.
  destruct rec; cbn [apply_record]; try done.
  - apply apply_schema_settings.
  - unfold Store.soft_delete_subject. by destruct (subjects s !! _) as [[]|].
  - unfold Store.permanent_delete_version. cbn zeta. destruct (subjects _ !! _) as [vs|]; [|done].
    destruct (Nat.eqb _ _); [done|]. by destruct (List.filter _ vs).
Qed.

Lemma record_settings rec s subject :
  level_at (apply_record rec s) subject =
    match rec with
    | RConfig k v =>
        if decide (ck_subject k = subject) then
          match v, subject with
          | Some v, _ => Some (compatibility_level v)
          | None, Some _ => None
          | None, None => level_at s subject
          end
        else level_at s subject
    | _ => level_at s subject
    end ∧
  mode_at (apply_record rec s) subject =
    match rec with
    | RMode k v => if decide (mk_subject k = subject) then mv_mode <$> v else mode_at s subject
    | _ => mode_at s subject
    end ∧
  default_compatibility (apply_record rec s) = default_compatibility s ∧
  default_mode (apply_record rec s) = default_mode s.
Proof.
  pose proof (apply_record_settings rec s) as Hs.
  assert (∀ s', settings s' = settings s → level_at s' subject = level_at s subject ∧ mode_at s' subject = mode_at s subject ∧
    default_compatibility s' = default_compatibility s ∧ default_mode s' = default_mode s) as Hsame.
  { unfold settings, level_at, mode_at. intros s' [= -> -> -> -> -> ->]. done. }
  destruct rec as [? ?|k v|k v|? ?|? ?|?| |?|?]; try (by apply Hsame in Hs as (? & ? & ? & ?); split_and!); clear Hs Hsame;
    [destruct (ck_subject k) as [own|] eqn:Ek|destruct (mk_subject k) as [own|] eqn:Ek];
    destruct v as [v|], subject as [subject|]; cbn [apply_record]; rewrite ?Ek; cbn;
    split_and!; try done; repeat case_decide; simplify_eq; try done;
    by rewrite ?lookup_insert_eq, ?lookup_delete_eq, ?lookup_insert_ne, ?lookup_delete_ne by congruence.
Qed.

(** The settings after a replay over the defaults. *)
Lemma replayed_settings level mode m (l : list LogRecord) subject :
  let recs := (λ lr, decode (default "" (lr_key lr)) (lr_value lr)) <$> l in
  let s := apply_log (set_max_id m (with_defaults level mode)) l in
  configured_level s subject = in_force last_level level subject recs ∧
  effective_mode s subject = in_force last_mode mode subject recs.
Proof.
  cbn zeta.
  assert (∀ o, let recs := (λ lr, decode (default "" (lr_key lr)) (lr_value lr)) <$> l in
    let s := apply_log (set_max_id m (with_defaults level mode)) l in
    level_at s o = last_level o recs ∧ mode_at s o = last_mode o recs ∧
    default_compatibility s = level ∧ default_mode s = mode) as Hall.
  { cbn zeta. intros o. induction l as [|lr l IH] using rev_ind; [by destruct o|].
    destruct IH as (Hl & Hm & Hd & Hdm). rewrite fmap_app. unfold apply_log, last_level, last_mode in *.
    rewrite !foldl_app. cbn [foldl fmap list_fmap].
    destruct (record_settings (decode (default "" (lr_key lr)) (lr_value lr))
      (foldl (λ s lr, apply_record (decode (default "" (lr_key lr)) (lr_value lr)) s)
         (set_max_id m (with_defaults level mode)) l) o) as (-> & -> & -> & ->).
    by rewrite Hl, Hm. }
  destruct (Hall (Some subject)) as (Hl & Hm & Hd & Hdm), (Hall None) as (Hgl & Hgm & _ & _).
  cbn [level_at mode_at] in *. unfold configured_level, effective_mode, subject_compat, global_compat, global_mode, in_force.
  rewrite Hl, Hm, Hgl, Hgm, Hd, Hdm.
  by destruct (last_level (Some subject) _), (last_level None _), (last_mode (Some subject) _), (last_mode None _).
Qed.
End settings.

(** C36: the runtime policy a node starts with is usable and is the one in force. The options are
    accepted exactly when, with the defaults in their place, the fetch wait, the fetch size
    and the topic timeout are positive whole numbers that fit the protocol's [i32], the
    heartbeat is below the session timeout and that is not above the rebalance timeout, and
    the default level and mode are known; what is not given keeps its default. Nothing
    bounds the election's timeouts from above. A node that started with an accepted policy
    and caught up with its log enforces, on every subject, the level and the mode of the last
    record about the subject in the part of the log it replayed, or of the last global one, and
    the configured ones where no record says otherwise. *)
Theorem runtime_config_spec `{ConfigUnits, SchemaFormat, SerdeJson, UuidLib} a :
  (∀ c, runtime_config a = Ok c ↔ c = runtime_of a ∧ runtime_ok c) ∧
  (∀ c logs token r, runtime_config a = Ok c →
     caught_up logs (rt_default_compatibility_level c) (rt_default_mode c) token r →
     ∃ n, let recs := (λ lr, decode (default "" (lr_key lr)) (lr_value lr)) <$> below n (logs (rd_topic_id r)) in
       ∀ subject,
         configured_level (rd_live r) subject =
           in_force last_level (default "BACKWARD" (ra_default_compatibility_level a)) subject recs ∧
         effective_mode (rd_live r) subject =
           in_force last_mode (default "READWRITE" (ra_default_mode a)) subject recs).
Proof.
  assert (∀ c, runtime_config a = Ok c ↔ c = runtime_of a ∧ runtime_ok c) as Hiff.
  { intros c. unfold runtime_config. pose proof (runtime_validate_facts (runtime_of a)) as Hv.
    destruct (runtime_validate (runtime_of a)) as [[]|e]; cbn [mbind result_bind].
    + split; [intros [= <-]; split; [done|by apply Hv]|by intros [-> _]].
    + split; [done|]. intros [-> Hok%Hv]. done. }
  split; [exact Hiff|]. intros c logs token r [-> _]%Hiff (n & m & _ & _ & _ & -> & _).
  exists n. intros subject. apply replayed_settings.
Qed.

(** ** Security *)

Lemma result_bind_Ok {A B E} (r : result E A) (f : A → result E B) b :
  (r ≫= f) = Ok b → ∃ a, r = Ok a ∧ f a = Ok b.
Proof. destruct r as [a|]; [|done]. by exists a. Qed.

(** With authentication required, a principal comes from a credential. *)
Lemma resolve_credential `{AuthLib} headers mtls st now p :
  as_require_auth st = true → resolve headers mtls st now = Authn p →
  mtls = Some p ∨ (∃ token, authorization headers = Some ("Bearer " +:+ token)) ∨
  ∃ b64, authorization headers = Some ("Basic " +:+ b64).
Proof.
  unfold resolve. intros Hreq. destruct mtls as [q|]; [intros [= ->]; by left|].
  destruct (authorization headers ≫= strip_prefix "Bearer ") as [token|] eqn:Hb.
  { apply bind_Some in Hb as (a & Ha & ->%strip_prefix_Some). eauto. }
  destruct (authorization headers ≫= strip_prefix "Basic ") as [b64|] eqn:Hs.
  { apply bind_Some in Hs as (a & Ha & ->%strip_prefix_Some). eauto. }
  by rewrite Hreq.
Qed.

Section security.
Context `{ConfigUnits} `{AuthLib} `{AxumLaws}.
Context (requires_tls requires_sasl : ListenerProtocol → bool) (read_to_string : string → result string string).
Context (validate_token : OAuthBearerValidator → string → Z → option Principal).
Context (authorizer : gset string → list AclEntry → AuthorizationRequest → PermissionType).
Context (read_file : string → option string).

(** The fields of an assembled configuration. *)
Lemma build_security_inv i out :
  build_security requires_tls requires_sasl read_to_string i = Ok out →
  sc_require_auth (so_config out) = ci_require_auth i ∧ sc_authz (so_config out) = build_authz i ∧
  sc_basic (so_config out) = build_basic i ∧ sc_forward_secret (so_config out) = ci_forward_secret i ∧
  (ci_require_auth i || ci_authz i = true → ∃ secret, ci_forward_secret i = Some secret ∧ secret ≠ "") ∧
  (∀ secret, ci_forward_secret i = Some secret → is_Some (header_from_str secret)).
Proof.
  unfold build_security. intros Hb.
  destruct (_ && _) eqn:Hs; [done|]. revert Hb.
  assert (ci_require_auth i || ci_authz i = true → ∃ secret, ci_forward_secret i = Some secret ∧ secret ≠ "") as Hsecret.
  { intros Hon. rewrite Hon in Hs. cbn [andb] in Hs. destruct (ci_forward_secret i) as [secret|]; [|discriminate Hs].
    exists secret. split; [done|]. by apply String.eqb_neq. }
  intros Hb. apply result_bind_Ok in Hb as (x & Hh & Hb).
  destruct (build_bearer i) as [[bearer jwks]|]; [|done]. cbn [mbind result_bind] in Hb.
  destruct (build_tls i) as [tls|]; [|done]. cbn [mbind result_bind] in Hb.
  destruct (build_client_security _ _ _ i) as [client|]; [|done]. cbn [mbind result_bind] in Hb.
  injection Hb as <-. cbn. split_and!; try done. intros secret Hsome. rewrite Hsome in Hh.
  by destruct (header_from_str secret).
Qed.

Lemma start_layers_inv cfg primary http url max_body sec :
  start_layers validate_token authorizer read_file cfg primary http url max_body = Some sec →
  as_require_auth (sec_auth sec) = sc_require_auth cfg ∧
  as_forward_secret (sec_auth sec) = sc_forward_secret cfg ∧
  as_bearer (sec_auth sec) = validate_token <$> sc_bearer cfg ∧
  sec_authz sec = (a ← sc_authz cfg; if ac_enabled a
    then Some (mkAuthz (authorizer (ac_super_users a)) [] (ac_super_users a) true) else None) ∧
  sec_forward sec = mkForwardState primary http url max_body (sc_forward_secret cfg) ∧
  (sc_basic cfg = None → as_basic (sec_auth sec) = None).
Proof.
  unfold start_layers. intros (basic & Hb & [= <-])%bind_Some. cbn. split_and!; try done.
  intros Hn. rewrite Hn in Hb. by injection Hb as <-.
Qed.

(** The security options do what they say. On a node started from options with authentication or
    authorization on, a request reaches a handler only as a forward that carries the configured,
    non-empty secret, or as an authenticated principal: with authentication required, one who presented a
    client certificate, a bearer token or a Basic credential; with authorization on, one allowed by the
    ACLs the broker last described or listed as a super user, from the request's peer address (HEAD
    requests and the root endpoint apart). On a node started with neither, nor a secret, a request without a credential is
    passed on as anonymous. *)
Theorem security_options_enforced i out primary http url max_body sec rounds now req :
  build_security requires_tls requires_sasl read_to_string i = Ok out →
  start_layers validate_token authorizer read_file (so_config out) primary http url max_body = Some sec →
  req_authenticated_forward req = false →
  (ci_require_auth i || ci_authz i = true → ∀ h params r,
     router_with_security (observe_acls rounds sec) now req = Handled h params r →
     (∃ secret, secret ≠ "" ∧ ci_forward_secret i = Some secret ∧
        assoc_get FORWARD_SECRET_HEADER (req_headers req) = Some secret) ∨
     ∃ p, resolve (req_headers req) (req_mtls req) (sec_auth sec) now = Authn p ∧
       (ci_require_auth i = true →
          req_mtls req = Some p ∨ (∃ token, authorization (req_headers req) = Some ("Bearer " +:+ token)) ∨
          ∃ b64, authorization (req_headers req) = Some ("Basic " +:+ b64)) ∧
       (ci_authz i = true → req_method req ≠ HEAD → h ≠ HRoot → ∃ host rt name op,
          req_peer req = Some host ∧ handler_target h params = Some (rt, name, op) ∧
          (pr_name p ∈ ci_super_users i ∨
           authorizer (list_to_set (ci_super_users i)) (acl_snapshot rounds)
             (mkAuthorizationRequest p host rt name op) = Allow))) ∧
  (ci_require_auth i = false → ci_authz i = false → ci_forward_secret i = None →
     req_mtls req = None → authorization (req_headers req) = None →
     router_with_security (observe_acls rounds sec) now req =
       forward_layer (sec_forward sec) router (set_principal anonymous req)).
Proof.
  intros Hb Hl Hmark. destruct (build_security_inv _ _ Hb) as (Hreq & Haz & Hbasic & Hfs & Hsecret & _).
  destruct (start_layers_inv _ _ _ _ _ _ Hl) as (Lreq & Lfs & Lbearer & Laz & Lfwd & Lbasic).
  rewrite Hreq in Lreq. rewrite Hfs in Lfs. rewrite Haz in Laz.
  assert (∀ x, (a ← build_authz i; if ac_enabled a
    then Some (mkAuthz (authorizer (ac_super_users a)) [] (ac_super_users a) true) else None) = Some x →
    run_acl_refresh rounds x = mkAuthz (az_authorizer x) (acl_snapshot rounds) (az_super_users x) (az_enabled x)) as Hcache.
  { intros x (a & _ & Hx)%bind_Some. rewrite run_acl_refresh_snapshot. f_equal.
    unfold acl_snapshot. destruct (acl_answers rounds); [|done]. destruct (ac_enabled a); [|done].
    by injection Hx as <-. }
  split.
  - intros Hon h params r Hr. destruct (Hsecret Hon) as (secret & Hsome & Hne).
    destruct (secured_dispatch (observe_acls rounds sec) now req h params r Hmark Hr)
      as [_ [(node & s & _ & Hs & Hh)|(p & Hp & Hauth)]]; cbn [observe_acls sec_auth sec_authz] in *.
    + left. exists secret. rewrite Lfs, Hsome in Hs. injection Hs as <-. done.
    + right. exists p. split; [done|]. split; [intros Hra; by eapply resolve_credential; [rewrite Lreq|]|].
      intros Hcz Hhead Hroot. rewrite <-Laz in Hcache. unfold build_authz in Laz. rewrite Hcz in Laz. cbn in Laz.
      rewrite Laz in Hauth, Hcache. cbn [fmap option_fmap option_map] in Hauth. rewrite (Hcache _ eq_refl) in Hauth.
      rewrite decide_False in Hauth by done. destruct (handler_target h params) as [[[rt name] op]|]; [|done].
      destruct Hauth as (host & Hpeer & Hau). exists host, rt, name, op. split_and!; [done..|].
      unfold authorize in Hau. cbn in Hau. case_bool_decide as Hsu.
      * left. by apply elem_of_list_to_set in Hsu.
      * right. by destruct (authorizer _ _ _).
  - intros Hra Hcz Hnone Hm Ha. unfold router_with_security, auth_layer, authenticated_forward.
    cbn [observe_acls sec_auth sec_authz sec_forward]. rewrite Lfs, Hnone.
    replace (match assoc_get FORWARD_SECRET_HEADER (req_headers req) with Some _ | _ => false end) with false
      by (by destruct (assoc_get _ _)). rewrite andb_false_r.
    unfold resolve. rewrite Hm, Ha, Lreq, Hra. cbn. unfold build_authz in Laz. rewrite Hcz in Laz. by rewrite Laz.
Qed.
End security.

(** ** Witnesses *)

Section witnesses.
(** Times in whole milliseconds, sizes in bytes. *)
#[local] Instance ms_units : TimeUnits := {| Time := Z; secs_f64 := λ t, S754_zero false; human := λ _, "" |}.
#[local] Instance ms_config : ConfigUnits := {|
  millis_i64 := λ t, t; from_millis := λ n, n; time_eqb := Z.eqb; time_ltb := Z.ltb; time_leb := Z.leb;
  secs := λ n, n * 1000; millis := λ n, n; minutes := λ n, n * 60000;
  ByteSize := Z; bytes_u64 := λ b, b; bytes_f64 := λ _, S754_zero false; from_bytes := λ n, n;
  bytes_eqb := Z.eqb; mebibytes := λ n, n * 1048576 |}.

Definition plain_args (level : option string) : RuntimeArgs :=
  mkRuntimeArgs 16 104857600 None None None None None None None None None None level None.

(** The defaults are accepted, an unknown level is not. *)
Example runtime_defaults_valid :
  runtime_config (plain_args None) = Ok (runtime_of (plain_args None)) ∧
  runtime_config (plain_args (Some "BACKWARDS")) = Err "invalid default compatibility level".
Proof. split; reflexivity. Qed.

(** A session timeout that no [i32] of milliseconds holds is accepted. *)
Example election_timeouts_unbounded :
  let a := mkRuntimeArgs 16 104857600 (Some (i32_max + 1)) (Some (i32_max + 1)) None None None None None None None None
    None None in
  runtime_config a = Ok (runtime_of a).
Proof. reflexivity. Qed.

Section caught_up.
#[local] Existing Instance echo_format.
#[local] Existing Instance tree_serde.
#[local] Existing Instance string_uuid.

(** A node that read a log of one barrier. *)
Definition caught_reader : Reader :=
  reader_init 1 (apply_log (set_max_id 0 (with_defaults "BACKWARD" "READWRITE")) [barrier_record]).

Lemma runtime_config_spec_witness : ∃ n,
  in_force last_level "BACKWARD" "orders"
    ((λ lr, decode (default "" (lr_key lr)) (lr_value lr)) <$> below n (one_barrier_log 1)) =
  configured_level (rd_live caught_reader) "orders".
Proof.
  destruct (runtime_config_spec (plain_args None)) as [_ Hs].
  destruct (Hs (runtime_of (plain_args None)) one_barrier_log demo_token caught_reader) as [n Hn].
  - reflexivity.
  - exists 1, 0, barrier_record. split; [by apply list_elem_of_singleton|].
    split; [vm_compute; reflexivity|]. split; [vm_compute; reflexivity|].
    intros lr ->%list_elem_of_singleton _. vm_compute. by left.
  - exists n. symmetry. exact (proj1 (Hn "orders")).
Defined.
End caught_up.

#[local] Existing Instance demo_percent.
#[local] Existing Instance demo_axum.
#[local] Existing Instance demo_axum_laws.
#[local] Existing Instance demo_auth.

(** Authentication and authorization on, one Basic user. *)
Definition guarded_input : SecurityCliInput :=
  mkSecurityCliInput true "registry" None ["bob:pw"] [] "off" "sub" None None None None None None None None None
    "disabled" true ["bob"] None (Some "s3cret") "plaintext" "PLAIN" None None None None None None None None None None.

Lemma security_options_enforced_witness : ∃ out sec h params r p,
  build_security (λ _, false) (λ _, false) (λ _, Err "") guarded_input = Ok out ∧
  router_with_security (observe_acls [] sec) 0 demo_request_versions = Handled h params r ∧
  resolve (req_headers demo_request_versions) None (sec_auth sec) 0 = Authn p ∧
  (pr_name p ∈ ["bob"] ∨ False).
Proof.
  destruct (build_security (λ _, false) (λ _, false) (λ _, Err "") guarded_input) as [out|] eqn:Hb;
    [|vm_compute in Hb; discriminate].
  destruct (start_layers (λ _ _ _, None) (λ _ _ _, Deny) (λ _, None) (so_config out)
    (mkPrimaryState true None None None) (λ _, None) "node" 100) as [sec|] eqn:Hl;
    [|vm_compute in Hb; injection Hb as <-; vm_compute in Hl; discriminate].
  assert (∃ r, router_with_security (observe_acls [] sec) 0 demo_request_versions = Handled HVersions ["orders"] r) as [r Hr].
  { vm_compute in Hb. injection Hb as <-. vm_compute in Hl. injection Hl as <-. eexists. vm_compute. reflexivity. }
  destruct (security_options_enforced (λ _, false) (λ _, false) (λ _, Err "") (λ _ _ _, None) (λ _ _ _, Deny)
    (λ _, None) guarded_input out _ _ _ _ sec [] 0 demo_request_versions Hb Hl eq_refl) as [Hon _].
  destruct (Hon eq_refl HVersions ["orders"] r Hr) as [(s & _ & _ & Hs)|(p & Hp & _ & Haz)];
    [discriminate Hs|].
  destruct (Haz eq_refl ltac:(discriminate) ltac:(discriminate)) as (host & rt & name & op & _ & _ & [Hsu|Hd]);
    [|discriminate Hd].
  exists out, sec, HVersions, ["orders"], r, p.
  split; [reflexivity|]. split; [exact Hr|]. split; [exact Hp|]. left. exact Hsu.
Defined.
End witnesses.
