(* ===== verification/ServerArgs.v ===== *)
(** * The server's command line (bin/schema-registry.rs, RegistryConfig of config.rs)

    The options as clap delivers them, their defaults, and the configuration main assembles from
    them. clap's own parsing and the rendering of a socket address are not modelled: an address is its
    text. *)

From stdpp Require Import base gmap strings list.
From Stdlib Require Import ZArith Lia.
From S2P Require Import Prelude Text Store Compat Cache Auth Config ConfigFacts.

#[local] Open Scope Z_scope.

Section args.
Context `{ConfigUnits}.

(** The security options of [Args]. *)
Record SecurityArgs := mkSecurityArgs {
  sa_require_auth : bool;
  sa_forward_secret : option string;
  sa_realm : string;
  sa_basic_auth_file : option string;
  sa_basic_users : list string;
  sa_auth_roles : list string;
  sa_bearer : string;
  sa_bearer_principal_claim : string;
  sa_bearer_jwks_endpoint_uri : option string;
  sa_bearer_jwks_valid_issuer : option string;
  sa_bearer_jwks_expected_audience : option string;
  sa_bearer_jwks_ca : option string;
  sa_bearer_jwks_principal_claim : option string;
  sa_bearer_jwks_refresh : option Time;
  sa_tls_cert : option string;
  sa_tls_key : option string;
  sa_tls_client_ca : option string;
  sa_tls_client_auth : string;
  sa_authz : bool;
  sa_super_users : list string;
  sa_acl_refresh : Time;
  sa_kafka_security_protocol : string;
  sa_kafka_sasl_mechanism : string;
  sa_kafka_sasl_username : option string;
  sa_kafka_sasl_password : option string;
  sa_kafka_sasl_password_file : option string;
  sa_kafka_sasl_keytab_path : option string;
  sa_kafka_sasl_client_principal : option string;
  sa_kafka_sasl_service_name : string;
  sa_kafka_sasl_host : option string;
  sa_kafka_sasl_kdc_url : option string;
  sa_kafka_tls_ca : option string;
  sa_kafka_tls_server_name : option string;
}.

(** What clap fills in when no security option is given. *)
Definition default_security_args : SecurityArgs :=
  mkSecurityArgs false None "SchemaRegistry-Props" None [] [] "off" "sub" None None None None None None
    None None None "disabled" false [] (secs 30)
    "PLAINTEXT" "PLAIN" None None None None None "kafka" None None None None.

Definition security_input (a : SecurityArgs) : SecurityCliInput := {|
  ci_require_auth := sa_require_auth a;
  ci_realm := sa_realm a;
  ci_basic_auth_file := sa_basic_auth_file a;
  ci_basic_users := sa_basic_users a;
  ci_auth_roles := sa_auth_roles a;
  ci_bearer := sa_bearer a;
  ci_bearer_principal_claim := sa_bearer_principal_claim a;
  ci_jwks_endpoint_uri := sa_bearer_jwks_endpoint_uri a;
  ci_jwks_valid_issuer := sa_bearer_jwks_valid_issuer a;
  ci_jwks_expected_audience := sa_bearer_jwks_expected_audience a;
  ci_jwks_ca := sa_bearer_jwks_ca a;
  ci_jwks_principal_claim := sa_bearer_jwks_principal_claim a;
  ci_jwks_refresh := sa_bearer_jwks_refresh a;
  ci_tls_cert := sa_tls_cert a;
  ci_tls_key := sa_tls_key a;
  ci_tls_client_ca := sa_tls_client_ca a;
  ci_tls_client_auth := sa_tls_client_auth a;
  ci_authz := sa_authz a;
  ci_super_users := sa_super_users a;
  ci_acl_refresh := Some (sa_acl_refresh a);
  ci_forward_secret := sa_forward_secret a;
  ci_kafka_security_protocol := sa_kafka_security_protocol a;
  ci_kafka_sasl_mechanism := sa_kafka_sasl_mechanism a;
  ci_kafka_sasl_username := sa_kafka_sasl_username a;
  ci_kafka_sasl_password := sa_kafka_sasl_password a;
  ci_kafka_sasl_password_file := sa_kafka_sasl_password_file a;
  ci_kafka_sasl_keytab_path := sa_kafka_sasl_keytab_path a;
  ci_kafka_sasl_client_principal := sa_kafka_sasl_client_principal a;
  ci_kafka_sasl_service_name := Some (sa_kafka_sasl_service_name a);
  ci_kafka_sasl_host := sa_kafka_sasl_host a;
  ci_kafka_sasl_kdc_url := sa_kafka_sasl_kdc_url a;
  ci_kafka_tls_ca := sa_kafka_tls_ca a;
  ci_kafka_tls_server_name := sa_kafka_tls_server_name a;
|}.

(** The options of the node itself; the replication factor is a [PositiveI32]. *)
Record NodeArgs := mkNodeArgs {
  na_bootstrap_servers : string;
  na_listen_addr : string;
  na_schemas_topic : string;
  na_schemas_topic_rf : Z;
  na_client_id : string;
  na_advertised_url : option string;
  na_group_id : string;
  na_leader_eligibility : bool;
  na_runtime : RuntimeArgs;
  na_security : SecurityArgs;
}.

Record RegistryConfig := mkRegistryConfig {
  rc_bootstrap : string;
  rc_schemas_topic : string;
  rc_schemas_topic_rf : Z;
  rc_client_id : string;
  rc_advertised_url : string;
  rc_group_id : string;
  rc_leader_eligibility : bool;
  rc_runtime : RegistryRuntimeConfig;
  rc_security : SecurityConfig;
}.

(** [AdminListenAddr]: an address, or off. *)
Definition admin_listen_addr (parse_addr : string → result string string) (value : string)
    : result string (option string) :=
  if String.eqb (to_ascii_uppercase value) "OFF" then Ok None
  else a ← parse_addr value; Ok (Some a).

Context (requires_tls requires_sasl : ListenerProtocol → bool).
Context (read_to_string : string → result string string).
Context `{AuthLib}.

(** The first steps of main: the runtime policy, then the security settings, then the
    configuration. *)
Definition registry_config (a : NodeArgs) : result string (RegistryConfig * option JwksHandleForRefresh) :=
  runtime ← runtime_config (na_runtime a);
  security ← build_security requires_tls requires_sasl read_to_string (security_input (na_security a));
  Ok (mkRegistryConfig (na_bootstrap_servers a) (na_schemas_topic a) (na_schemas_topic_rf a) (na_client_id a)
        (default ("http://" +:+ na_listen_addr a) (na_advertised_url a)) (na_group_id a) (na_leader_eligibility a)
        runtime (so_config security),
      so_jwks_handle security).

(** ** What main starts with *)

(** A node runs with a policy the validation accepted, and with authentication or authorization on only
    with a secret for its forwards; it advertises a URL. *)
Lemma registry_config_sound a cfg jwks : registry_config a = Ok (cfg, jwks) →
  rc_runtime cfg = runtime_of (na_runtime a) ∧ runtime_ok (rc_runtime cfg) ∧
  sc_require_auth (rc_security cfg) = sa_require_auth (na_security a) ∧
  (sa_require_auth (na_security a) || sa_authz (na_security a) = true →
     ∃ secret, sc_forward_secret (rc_security cfg) = Some secret ∧ secret ≠ "").
Proof.
  intros (runtime & Hr & (out & Hs & [= <- <-])%result_bind_Ok)%result_bind_Ok.
  destruct (build_security_inv _ _ _ _ _ Hs) as (Hreq & _ & _ & Hfs & Hsecret & _). cbn.
  unfold runtime_config in Hr. pose proof (runtime_validate_facts (runtime_of (na_runtime a))) as Hv.
  destruct (runtime_validate (runtime_of (na_runtime a))) as [[]|]; [|done]. injection Hr as <-.
  split_and!; [done|by apply Hv|done|]. rewrite Hfs. exact Hsecret.
Qed.

(** Without a security option the node is open: plain HTTP, no authentication, no authorization and
    a plaintext broker client. *)
Lemma defaults_open :
  build_security requires_tls requires_sasl read_to_string (security_input default_security_args) =
  Ok (mkSecurityOutput (mkSecurityConfig false "SchemaRegistry-Props" None None None None None None) None).
Proof. reflexivity. Qed.
End args.
