(* ===== verification/Rest.v ===== *)
(** * The REST handlers (rest/schemas.rs, subjects.rs, config.rs, mode.rs, delete.rs,
    compatibility.rs, import.rs, response.rs, the extractors of rest/mod.rs and the
    rendering of errors in error.rs)

    Each handler decodes its parameters and body, calls the store or the facade in
    the facade's monad, and renders the answer. axum's decoding of the query string, the
    texts of serde's messages, apache-avro's canonical form and the decoding of a
    descriptor set are parameters. *)

From stdpp Require Import base gmap strings list pretty.
From Stdlib Require Import ZArith Lia Ascii.
From S2P Require Import Prelude Text Float Json Types Store Record Descriptor ProtoText Matching JsonDiff AvroFormat.
From S2P Require Import Compat Reader KafkaStore Import Auth Authz Router.

#[local] Existing Instance M_ret.
#[local] Existing Instance M_bind.

(** ** Responses (response.rs, error.rs) *)

Record HttpResponse := mkHttp { hr_status : Z; hr_content_type : string; hr_body : string }.

Definition CONTENT_TYPE : string := "application/vnd.schemaregistry.v1+json".

(** A [serde_json::Map] built by insertions. *)
Definition object_of (entries : list (string * json)) : json := JObject (collect_map entries).

Section responses.
Context `{SerdeJson}.

Definition ok_json (value : json) : HttpResponse := mkHttp 200 CONTENT_TYPE (json_print value).
Definition ok_raw (body : string) : HttpResponse := mkHttp 200 CONTENT_TYPE body.

Definition error_response (status code : Z) (message : string) : HttpResponse :=
  mkHttp status CONTENT_TYPE
    (json_print (object_of [("error_code", ser_int code); ("message", JString message)])).

Definition into_response (e : SrError) : HttpResponse :=
  error_response (http_status e) (error_code e) (error_message e).
End responses.

(** ** Parameters (rest/mod.rs) *)

Definition parse_concrete_version (v : string) : result SrError Z :=
  match parse_i32 v with
  | Some n => if (1 <=? n)%Z then Ok n else Err (InvalidVersion v)
  | None => Err (InvalidVersion v)
  end.

Definition parse_optional_version (v : string) : result SrError (option Z) :=
  if String.eqb v "latest" then Ok None else n ← parse_concrete_version v; Ok (Some n).

Definition parse_schema_id (id : string) : result SrError Z :=
  match parse_i32 id with Some n => Ok n | None => Err NotFound end.

Definition to_ascii_lower (c : ascii) : ascii :=
  let n := nat_of_ascii c in if ((65 <=? n) && (n <=? 90))%nat then ascii_of_nat (n + 32) else c.

Fixpoint eq_ignore_ascii_case (a b : string) : bool :=
  match a, b with
  | EmptyString, EmptyString => true
  | String x a', String y b' => Ascii.eqb (to_ascii_lower x) (to_ascii_lower y) && eq_ignore_ascii_case a' b'
  | _, _ => false
  end.

(** [deserialize_bool] of a value. *)
Definition deserialize_bool (v : string) : bool := eq_ignore_ascii_case v "true".

(** ** Bodies *)

(** A struct whose fields after the first [n] have defaults may be read from a
    shorter array. *)
Definition struct_prefix (n : nat) (names : list string) (v : json) : option (list (string * json)) :=
  match v with
  | JObject l => Some l
  | JArray vs =>
      if ((n <=? length vs) && (length vs <=? length names))%nat then Some (zip names vs) else None
  | _ => None
  end.

Definition de_opt_i32 (f : option json) : option (option Z) :=
  match f with None | Some JNull => Some None | Some v => Some <$> de_i32 v end.

Record RegisterBody := mkRegisterBody {
  rb_schema : string;
  rb_schema_type : option string;
  rb_references : list SchemaReference;
  rb_message_type : option string;
  rb_id : option Z;
  rb_version : option Z;
}.

Definition de_RegisterBody (v : json) : option RegisterBody :=
  l ← struct_prefix 1 ["schema"; "schemaType"; "references"; "messageType"; "id"; "version"] v;
  schema ← required "schema" l ≫= de_string;
  schema_type ← field "schemaType" l ≫= de_opt_string;
  references ← field "references" l ≫= de_default_vec de_SchemaReference;
  message_type ← field "messageType" l ≫= de_opt_string;
  id ← field "id" l ≫= de_opt_i32;
  version ← field "version" l ≫= de_opt_i32;
  Some (mkRegisterBody schema schema_type references message_type id version).

(** [Body] of the compatibility endpoint: schema, type and references. *)
Definition de_CompatBody (v : json) : option (string * option string * list SchemaReference) :=
  l ← struct_prefix 1 ["schema"; "schemaType"; "references"] v;
  schema ← required "schema" l ≫= de_string;
  schema_type ← field "schemaType" l ≫= de_opt_string;
  references ← field "references" l ≫= de_default_vec de_SchemaReference;
  Some (schema, schema_type, references).

Definition de_PutConfig (v : json) : option string :=
  l ← struct_fields ["compatibility"] v; required "compatibility" l ≫= de_string.
Definition de_PutMode (v : json) : option string :=
  l ← struct_fields ["mode"] v; required "mode" l ≫= de_string.

(** [url::form_urlencoded], the messages of axum and serde, apache-avro's canonical
    form and [FileDescriptorSet::decode]. *)
Class RestLib `{AvroLib} := {
  form_urlencoded : string → list (string * string);
  query_message : string → string;
  serde_message : string → string → string;
  avro_canonical_form : avro_schema → string;
  decode_descriptor_set : string → result string (list FileDescriptorProto);
}.

(** ** Levels (config.rs) *)

Definition LEVELS : list string :=
  ["NONE"; "BACKWARD"; "BACKWARD_TRANSITIVE"; "FORWARD"; "FORWARD_TRANSITIVE"; "FULL"; "FULL_TRANSITIVE"].

Definition validate (level : string) : result SrError unit :=
  if existsb (String.eqb level) LEVELS then Ok () else Err (InvalidCompatibilityLevel level).

Section handlers.
Context `{SchemaFormat} `{SerdeJson} `{UuidLib} `{AvroLib} `{JsonText} `{!RestLib}.

(** A query of one flag: absent is false, repeated is refused. *)
Definition query_flag (key query : string) : result SrError bool :=
  match List.filter (λ kv, String.eqb kv.1 key) (form_urlencoded query) with
  | [] => Ok false
  | [(_, v)] => Ok (deserialize_bool v)
  | _ => Err (InvalidRequest (query_message query))
  end.

(** [serde_json::from_str] of a body, with the error it is mapped to. *)
Definition from_body {A} (name : string) (de : json → option A) (wrap : string → SrError) (body : string)
    : result SrError A :=
  match from_slice de body with Some a => Ok a | None => Err (wrap (serde_message name body)) end.

(** ** Schemas (schemas.rs) *)

Definition references_field (refs : list SchemaReference) : list (string * json) :=
  match refs with [] => [] | _ => [("references", JArray (ser_SchemaReference <$> refs))] end.

Definition get_by_id (id : string) (deleted : bool) : M HttpResponse :=
  id ← lift (parse_schema_id id);
  s ← read_store;
  '(ty, schema, references, message_type) ← lift (ok_or (schema_by_id s id deleted) SchemaNotFound);
  mret (ok_json (object_of
    (opt_field "schemaType" (wire_name ty) ++ opt_field "messageType" message_type ++
     [("schema", JString schema)] ++ references_field references))).

Definition types : HttpResponse := ok_json (JArray [JString "AVRO"; JString "JSON"; JString "PROTOBUF"]).

Definition get_by_id_versions (id : string) (deleted : bool) : M HttpResponse :=
  id ← lift (parse_schema_id id);
  s ← read_store;
  match schema_id_subject_versions s id deleted with
  | [] => throw SchemaNotFound
  | pairs => mret (ok_json (JArray ((λ p : string * Z,
      object_of [("subject", JString p.1); ("version", ser_int p.2)]) <$> pairs)))
  end.

Definition get_by_id_schema (id : string) : M HttpResponse :=
  id ← lift (parse_schema_id id);
  s ← read_store;
  '(_, schema, _, _) ← lift (ok_or (schema_by_id s id false) SchemaNotFound);
  mret (ok_raw schema).

Definition get_by_id_subjects (id : string) (deleted : bool) : M HttpResponse :=
  id ← lift (parse_schema_id id);
  s ← read_store;
  match schema_id_subject_versions s id deleted with
  | [] => throw SchemaNotFound
  | pairs =>
      let names : gset string := list_to_set pairs.*1 in
      mret (ok_json (JArray (JString <$> sort_by String.leb (elements names))))
  end.

Definition listed_row (row : ListedSchema) : json :=
  object_of ([("subject", JString (ls_subject row)); ("version", ser_int (ls_version row));
              ("id", ser_int (ls_id row))] ++
             opt_field "schemaType" (wire_name (ls_ty row)) ++
             opt_field "messageType" (ls_message_type row) ++ [("schema", JString (ls_schema row))]).

Definition list_schemas (deleted : bool) : M HttpResponse :=
  s ← read_store;
  mret (ok_json (JArray (listed_row <$> all_schemas s deleted))).

(** ** Subjects (subjects.rs) *)

Definition normalize_schema (ty : SchemaType) (schema : string) : result SrError string :=
  match ty with
  | Avro =>
      match parse_str schema with Ok s => Ok (avro_canonical_form s) | Err e => Err (InvalidSchema e) end
  | Json =>
      match json_text schema with Ok v => Ok (json_print v) | Err e => Err (InvalidSchema e) end
  | Protobuf => Ok schema
  end.

Definition register (subject : string) (normalize : bool) (body : string) : M HttpResponse :=
  req ← lift (from_body "RegisterBody" de_RegisterBody InvalidSchema body);
  let ty := from_wire (rb_schema_type req) in
  schema ← lift (if normalize then normalize_schema ty (rb_schema req) else Ok (rb_schema req));
  reg ← KafkaStore.register (mkRegisterSchema subject ty schema (rb_references req) (rb_message_type req)
                               (rb_id req) (rb_version req));
  mret (ok_json (object_of [("id", ser_int (reg_id reg))])).

Definition lookup (subject : string) (deleted normalize : bool) (body : string) : M HttpResponse :=
  req ← lift (from_body "RegisterBody" de_RegisterBody InvalidSchema body);
  let ty := from_wire (rb_schema_type req) in
  schema_to_find ← lift (if normalize then normalize_schema ty (rb_schema req) else Ok (rb_schema req));
  s ← read_store;
  match versions s subject deleted with
  | None => throw (SubjectNotFound subject)
  | Some _ =>
      found ← lift (ok_or (find_under_subject s subject ty schema_to_find (rb_references req)
                             (rb_message_type req) deleted) SchemaNotFound);
      '(sty, schema, _, message_type) ← lift (ok_or (schema_by_id s (reg_id found) deleted) SchemaNotFound);
      mret (ok_json (object_of
        ([("subject", JString subject); ("id", ser_int (reg_id found)); ("version", ser_int (reg_version found))] ++
         opt_field "schemaType" (wire_name sty) ++ opt_field "messageType" message_type ++
         [("schema", JString schema)])))
  end.

Definition list_all (deleted : bool) : M HttpResponse :=
  s ← read_store;
  mret (ok_json (JArray (JString <$> list_subjects s deleted))).

Definition list_versions (subject : string) (deleted : bool) : M HttpResponse :=
  s ← read_store;
  vs ← lift (ok_or (versions s subject deleted) (SubjectNotFound subject));
  mret (ok_json (JArray (ser_int <$> vs))).

(** The guards the version endpoints share: the subject, then the version. *)
Definition find_version_of (subject version : string) (deleted : bool)
    : M (StoreState * VersionedSchema) :=
  want ← lift (parse_optional_version version);
  s ← read_store;
  match versions s subject deleted with
  | None => throw (SubjectNotFound subject)
  | Some _ =>
      found ← lift (ok_or (Store.version s subject want deleted) VersionNotFound);
      mret (s, found)
  end.

Definition get_version (subject version : string) (deleted : bool) : M HttpResponse :=
  '(_, found) ← find_version_of subject version deleted;
  mret (ok_json (object_of
    ([("subject", JString subject); ("version", ser_int (vs_version found)); ("id", ser_int (vs_id found))] ++
     opt_field "schemaType" (wire_name (vs_ty found)) ++ opt_field "messageType" (vs_message_type found) ++
     [("schema", JString (vs_schema found))] ++ references_field (vs_references found)))).

Definition get_version_schema (subject version : string) (deleted : bool) : M HttpResponse :=
  '(_, found) ← find_version_of subject version deleted;
  mret (ok_raw (vs_schema found)).

Definition referencedby (subject version : string) : M HttpResponse :=
  '(s, found) ← find_version_of subject version true;
  mret (ok_json (JArray (ser_int <$> referenced_by s subject (vs_version found) false))).
End handlers.

Section admin.
Context `{SchemaFormat} `{SerdeJson} `{UuidLib} `{AvroLib} `{JsonText} `{!RestLib}.

(** ** Configuration (config.rs) *)

Definition level_json (key level : string) : HttpResponse := ok_json (object_of [(key, JString level)]).

Definition get_global_config : M HttpResponse :=
  s ← read_store; mret (level_json "compatibilityLevel" (global_compat s)).

Definition get_subject_config (subject : string) : M HttpResponse :=
  s ← read_store;
  lvl ← lift (ok_or (subject_compat s subject) (SubjectNotFound subject));
  mret (level_json "compatibilityLevel" lvl).

(** [PUT /config] and [PUT /config/{subject}]. *)
Definition put_config (subject : option string) (body : string) : M HttpResponse :=
  level ← lift (from_body "PutConfig" de_PutConfig InvalidCompatibilityLevel body);
  _ ← lift (validate level);
  _ ← set_compat subject level;
  mret (level_json "compatibility" level).

Definition delete_config (subject : string) : M HttpResponse :=
  level ← delete_subject_compat subject;
  match level with
  | Some level => mret (level_json "compatibility" level)
  | None => throw (SubjectNotFound subject)
  end.

(** ** Mode (mode.rs) *)

Definition get_global_mode : M HttpResponse :=
  s ← read_store; mret (level_json "mode" (global_mode s)).

Definition put_global_mode (body : string) : M HttpResponse :=
  mode ← lift (from_body "PutMode" de_PutMode InvalidMode body);
  _ ← KafkaStore.set_global_mode mode;
  mret (level_json "mode" mode).

Definition get_subject_mode (subject : string) : M HttpResponse :=
  s ← read_store;
  m ← lift (ok_or (subject_mode s subject) (SubjectModeNotConfigured subject));
  mret (level_json "mode" m).

Definition put_subject_mode (subject body : string) : M HttpResponse :=
  mode ← lift (from_body "PutMode" de_PutMode InvalidMode body);
  _ ← KafkaStore.set_subject_mode subject mode;
  mret (level_json "mode" mode).

Definition delete_subject_mode (subject : string) : M HttpResponse :=
  s ← read_store;
  prior ← lift (ok_or (subject_mode s subject) (SubjectModeNotConfigured subject));
  _ ← KafkaStore.clear_subject_mode subject;
  mret (level_json "mode" prior).

(** ** Deletion (delete.rs) *)

Definition delete_version (subject version : string) (permanent : bool) : M HttpResponse :=
  v ← (if String.eqb version "latest" then
         s ← read_store;
         lift (ok_or (vs_version <$> Store.version s subject None false) (SubjectNotFound subject))
       else lift (parse_concrete_version version));
  deleted ← (if permanent then KafkaStore.permanent_delete_version subject v
             else KafkaStore.soft_delete_version subject v);
  mret (ok_json (ser_int deleted)).

Definition delete_subject (subject : string) (permanent : bool) : M HttpResponse :=
  versions ← (if permanent then KafkaStore.permanent_delete_subject subject
              else KafkaStore.soft_delete_subject subject);
  mret (ok_json (JArray (ser_int <$> versions))).

(** ** Compatibility (compatibility.rs) *)

Definition check_compatibility (subject version : string) (verbose : bool) (body : string) : M HttpResponse :=
  '(schema, schema_type, references) ← lift (from_body "Body" de_CompatBody InvalidSchema body);
  let ty := from_wire schema_type in
  want ← lift (parse_optional_version version);
  snap ← read_store;
  resolved ← lift (resolve_closure snap references);
  _ ← lift (format_parse ty schema resolved);
  verdict ← lift (check_against_version snap subject ty schema resolved want);
  mret (ok_json (object_of
    (("is_compatible", JBool (is_compatible verdict)) ::
     (if verbose then [("messages", JArray (JString <$> messages verdict))] else [])))).

(** ** Bulk import (import.rs) *)

(** One reference per dependency: a file imported before, else the latest version
    in the store. *)
Fixpoint references_for (deps : list string) (registered : gmap string Z) : M (list SchemaReference) :=
  match deps with
  | [] => mret []
  | dep :: deps' =>
      version ← (match registered !! dep with
                 | Some v => mret v
                 | None =>
                     s ← read_store;
                     lift (ok_or (vs_version <$> Store.version s dep None false) (ReferenceNotFound dep))
                 end);
      rest ← references_for deps' registered;
      mret (mkSchemaReference dep dep version :: rest)
  end.

(** The loop over the order; a name outside the index is the code's panic. *)
Fixpoint import_files (files : gmap string FileDescriptorProto) (order : list string)
    (registered : gmap string Z) : M (list json) :=
  match order with
  | [] => mret []
  | name :: order' =>
      file ← lift (ok_or (files !! name) (Backend "topological order contains known file"));
      references ← references_for (file_dependency file) registered;
      reg ← KafkaStore.register (mkRegisterSchema name Protobuf (normalize file) references None None None);
      rows ← import_files files order' (<[ name := reg_version reg ]> registered);
      mret (object_of [("subject", JString name); ("id", ser_int (reg_id reg)); ("version", ser_int (reg_version reg))]
            :: rows)
  end.

Definition file_descriptor_set (body : string) : M HttpResponse :=
  set ← lift (match decode_descriptor_set body with
              | Ok set => Ok set
              | Err e => Err (InvalidSchema ("FileDescriptorSet: " +:+ e))
              end);
  (* the walk of [import_new] always comes back *)
  import ← lift (default (Err (Backend "import walk")) (import_new set));
  rows ← import_files (im_files import) (im_order import) ∅;
  mret (ok_json (JArray rows)).

(** ** Dispatch *)

(** What the client gets: a response of the registry, or axum's own refusal of an
    unreadable body. *)
Inductive Answer := Http (r : HttpResponse) | BodyRefused.

Definition with_body (body : option string) (f : string → M HttpResponse) : M Answer :=
  match body with Some b => r ← f b; mret (Http r) | None => mret BodyRefused end.

Definition respond (m : M HttpResponse) : M Answer := r ← m; mret (Http r).

(** The handler of a route on its captured parameters, with the extractors in
    their order. *)
Definition handle (h : Handler) (params : list string) (query : string) (body : option string) : M Answer :=
  let flag := λ key, lift (query_flag key query) in
  match h, params with
  | HRoot, _ => respond (mret (ok_json (JObject [])))
  | HSchemasTypes, _ => respond (mret types)
  | HListSchemas, _ => deleted ← flag "deleted"; respond (list_schemas deleted)
  | HImport, _ => with_body body file_descriptor_set
  | HGetById, [id] => deleted ← flag "deleted"; respond (get_by_id id deleted)
  | HGetByIdVersions, [id] => deleted ← flag "deleted"; respond (get_by_id_versions id deleted)
  | HGetByIdSchema, [id] => respond (get_by_id_schema id)
  | HGetByIdSubjects, [id] => deleted ← flag "deleted"; respond (get_by_id_subjects id deleted)
  | HListSubjects, _ => deleted ← flag "deleted"; respond (list_all deleted)
  | HLookup, [subject] =>
      deleted ← flag "deleted"; normalize ← flag "normalize";
      with_body body (lookup subject deleted normalize)
  | HDeleteSubject, [subject] => permanent ← flag "permanent"; respond (delete_subject subject permanent)
  | HVersions, [subject] => deleted ← flag "deleted"; respond (list_versions subject deleted)
  | HRegister, [subject] => normalize ← flag "normalize"; with_body body (register subject normalize)
  | HGetVersion, [subject; version] => deleted ← flag "deleted"; respond (get_version subject version deleted)
  | HDeleteVersion, [subject; version] =>
      permanent ← flag "permanent"; respond (delete_version subject version permanent)
  | HGetVersionSchema, [subject; version] =>
      deleted ← flag "deleted"; respond (get_version_schema subject version deleted)
  | HReferencedBy, [subject; version] => respond (referencedby subject version)
  | HGetGlobalMode, _ => respond get_global_mode
  | HPutGlobalMode, _ => with_body body put_global_mode
  | HGetSubjectMode, [subject] => respond (get_subject_mode subject)
  | HPutSubjectMode, [subject] => with_body body (put_subject_mode subject)
  | HDeleteSubjectMode, [subject] => respond (delete_subject_mode subject)
  | HGetGlobalConfig, _ => respond get_global_config
  | HPutGlobalConfig, _ => with_body body (put_config None)
  | HGetSubjectConfig, [subject] => respond (get_subject_config subject)
  | HPutSubjectConfig, [subject] => with_body body (put_config (Some subject))
  | HDeleteSubjectConfig, [subject] => respond (delete_config subject)
  | HCompatibility, [subject; version] =>
      verbose ← flag "verbose"; with_body body (check_compatibility subject version verbose)
  | _, _ => throw NotFound
  end.

(** A handler's error is rendered as a response. *)
Definition serve (h : Handler) (params : list string) (query : string) (body : option string) (w : World)
    : Answer * World :=
  match handle h params query body w with
  | (Ok a, w') => (a, w')
  | (Err e, w') => (Http (into_response e), w')
  end.

(** A request through the security stack. What is not a handler's business (a challenge,
    a relayed reply, a path axum rejects) is passed as the stack gives it. *)
Definition serve_request `{AuthLib} `{PercentLib} `{Axum} (sec : SecurityLayers) (now : Z) (req : Request)
    (w : World) : (Answer + Response) * World :=
  match router_with_security sec now req with
  | Handled h params r => let '(a, w') := serve h params (req_query r) (req_body r) w in (inl a, w')
  | Failed e => (inl (Http (into_response e)), w)
  | r => (inr r, w)
  end.
End admin.
