(* ===== verification/RestFacts.v ===== *)
(** * The REST surface end to end

    A schema registered over HTTP is found again over HTTP; only a request that was
    authorised to write, alter or delete writes to the log; the levels a client may set
    are those the engine knows. *)

From stdpp Require Import base gmap strings list pretty.
From Stdlib Require Import ZArith Lia Ascii.
From S2P Require Import Prelude Text Float Json Types Store Closure StoreFacts StoreSpec StoreQueries DedupKey.
From S2P Require Import Record RecordFacts Descriptor ProtoText Matching JsonDiff AvroFormat Compat Reader ReaderFacts.
From S2P Require Import KafkaStore KafkaFacts KafkaSpec KafkaLive Import Auth Authz Router RouterFacts Rest.

#[local] Existing Instance M_ret.
#[local] Existing Instance M_bind.

(** ** Registration, then lookup *)

Section store.
Context `{SchemaFormat}.

(** The identity is held by a live version of the subject, or is new to the
    registry. *)
Definition live_or_new (s : StoreState) (subject : string) (ty : SchemaType) (schema : string)
    (refs : list SchemaReference) (mt : option string) : Prop :=
  is_Some (find_under_subject s subject ty schema refs mt false) ∨
  ∀ key, identity s ty schema refs mt = Some key → by_canonical s !! key = None.

Lemma find_under_subject_intro s subject ty schema refs mt resolved canonical b :
  resolve_closure s refs = Ok resolved → format_parse ty schema resolved = Ok canonical →
  find_under_subject s subject ty schema refs mt b =
  find_under_subject_canonical s subject (dedup_key canonical refs mt) b.
Proof. unfold find_under_subject. intros -> Hp. simpl. by rewrite Hp. Qed.

(** What [spec_assign] answers is found in the state it leaves. *)
Lemma assign_found req text resolved s reg s' :
  store_wf s → (max_id s < i32_max)%Z → (next_version s (rq_subject req) < i32_max)%Z →
  live_or_new s (rq_subject req) (rq_ty req) text (rq_references req) (rq_message_type req) →
  resolve_closure s (rq_references req) = Ok resolved →
  spec_assign req text resolved s = Ok (reg, s') →
  store_wf s' ∧ resolve_closure s' (rq_references req) = Ok resolved ∧
  find_under_subject s' (rq_subject req) (rq_ty req) text (rq_references req) (rq_message_type req) false = Some reg.
Proof.
  intros Hs Hm Hn Hnew Hcl. unfold spec_assign.
  destruct (find_under_subject s _ _ _ _ _ _) as [existing|] eqn:Hf; [by intros [= <- <-]|].
  destruct Hnew as [[x Hx]|Hnew]; [congruence|].
  destruct (check_registration _ _ _ _ _) as [[]|]; [|done]. cbn [mbind result_bind].
  destruct (Store.register _ _ _ _ _ s) as [[r s1]|] eqn:Hr; [|done]. cbn [mbind result_bind]. intros [= -> <-].
  pose proof Hr as (resolved' & canonical & Hcl' & Hp & _)%register_inv.
  rewrite Hcl in Hcl'. injection Hcl' as <-.
  set (key := dedup_key canonical (rq_references req) (rq_message_type req)) in *.
  assert (by_canonical s !! key = None) as Hkey by (apply Hnew; by eapply identity_intro).
  assert (find_under_subject_canonical s (rq_subject req) key true = None) as Hnone
    by (unfold find_under_subject_canonical; by rewrite Hkey).
  destruct (register_adds_live _ _ _ _ _ _ _ _ _ _ false Hs Hm Hr Hcl Hp Hnone) as [Hne Hfound].
  assert (apply_schema (schema_value (rq_subject req) (reg_version reg) (reg_id reg) (rq_ty req) text
            (rq_references req) (rq_message_type req) false ∅) s = s1) as ->.
  { apply register_replay_fresh; try done.
    apply register_inv in Hr as (? & c & Hcl' & Hp' & [[Hf' ->]|(_ & id & s2 & Ha & Hap)]); [done|].
    destruct (allocate_id_frame _ _ _ _ _ Hs Hm Ha) as (_ & _ & _ & Hcase). injection Hap as <- _. simpl.
    assert (canonical = c) as <- by congruence.
    destruct Hcase as [[Hk _]|(_ & _ & -> & _)]; [unfold key in Hkey; congruence|].
    by destruct (max_id_fresh s (max_id s + 1) Hs) as [Hno _]; [lia|]. }
  assert (resolve_closure s1 (rq_references req) = Ok resolved) as Hcl1 by (by eapply register_closure).
  split_and!; [by eapply register_preserves|done|]. by rewrite (find_under_subject_intro _ _ _ _ _ _ _ _ _ Hcl1 Hp).
Qed.

(** A version found live is listed and resolvable. *)
Lemma found_visible s subject key r :
  store_wf s → find_under_subject_canonical s subject key false = Some r →
  is_Some (versions s subject false) ∧ is_Some (schema_by_id s (reg_id r) false).
Proof.
  intros Hs (id & Hk & (vs & Hvs & (e & He & [= <-])%bind_Some)%bind_Some)%bind_Some.
  apply List.find_some in He as [Hin%list_elem_of_In Hb]. apply andb_true_iff in Hb as [Hid Hlive].
  assert (ve_id e = id) as Heq by lia. simpl.
  assert (visible_entry s false subject e) as Hv by (exists vs; done).
  split.
  - destruct (versions s subject false) as [l|] eqn:El; [done|].
    unfold versions in El. rewrite Hvs in El. simpl in El.
    destruct (List.filter (qualifies false) vs) as [|y l] eqn:Ef; [|done].
    assert (In e (List.filter (qualifies false) vs)) as Hin'
      by (apply filter_In; split; [by apply list_elem_of_In|done]).
    by rewrite Ef in Hin'.
  - rewrite <- Heq. apply (schema_by_id_facts s (ve_id e) false Hs). intros Hnil.
    assert ((subject, ve_version e) ∈ schema_id_subject_versions s (ve_id e) false) as Hmem
      by (apply elem_of_subject_versions; eauto).
    rewrite Hnil in Hmem. by apply elem_of_nil in Hmem.
Qed.
End store.

Section rest.
Context `{SchemaFormat} `{SerdeJsonLaws} `{UuidLib} `{!MarkerLaws} `{AvroLib} `{JsonText} `{!RestLib}.

(** Every error has an error status. *)
Lemma error_status e : http_status e ≠ 200%Z.
Proof. by destruct e. Qed.

(** A 200 is the answer of a handler that succeeded. *)
Lemma serve_ok h params query body w r w' :
  serve h params query body w = (Http r, w') → hr_status r = 200%Z →
  handle h params query body w = (Ok (Http r), w').
Proof.
  unfold serve. destruct (handle _ _ _ _ w) as [[a|e] w1]; intros [= <- <-]; [done|].
  simpl. intros He. by apply error_status in He.
Qed.

(** The numbers of a decoded body are [i32]s. *)
Lemma de_references_i32 f refs :
  de_default_vec de_SchemaReference f = Some refs → Forall (λ r, in_i32 (ref_version r)) refs.
Proof.
  destruct f as [v|]; [|intros [= <-]; constructor]. destruct v as [| | | |l|]; try done. simpl.
  revert refs. induction l as [|x l IH]; intros refs; [intros [= <-]; constructor|]. cbn.
  intros (r & Hr & (rs & Hrs & [= <-])%bind_Some)%bind_Some. constructor; [|by apply IH].
  unfold de_SchemaReference in Hr.
  repeat (apply bind_Some in Hr as (? & ? & Hr)). injection Hr as <-. simpl.
  match goal with Hv : required "version" _ ≫= de_i32 = Some _ |- _ =>
    apply bind_Some in Hv as (? & _ & Hv); by eapply de_i32_range end.
Qed.

Lemma de_body_ok v req subject schema :
  de_RegisterBody v = Some req →
  request_ok (mkRegisterSchema subject (from_wire (rb_schema_type req)) schema (rb_references req)
    (rb_message_type req) (rb_id req) (rb_version req)).
Proof.
  assert (∀ f o, de_opt_i32 f = Some o → ∀ z, o = Some z → in_i32 z) as Hopt.
  { intros f o Hf z ->. unfold de_opt_i32 in Hf. destruct f as [x|]; [|done].
    destruct x; try done; apply fmap_Some in Hf as (z' & Hz & [= ->]); by eapply de_i32_range. }
  unfold de_RegisterBody. intros Hd. repeat (apply bind_Some in Hd as (? & ? & Hd)). injection Hd as <-.
  split; simpl.
  - match goal with Hr : _ ≫= de_default_vec de_SchemaReference = Some _ |- _ =>
      apply bind_Some in Hr as (? & _ & Hr); by eapply de_references_i32 end.
  - split; intros z Hz;
      match goal with Hi : field ?k _ ≫= de_opt_i32 = Some ?o, Hz : ?o = Some z |- _ =>
        apply bind_Some in Hi as (? & _ & Hi); by eapply Hopt end.
Qed.
(** The body a lookup answers with. *)
Definition lookup_answer (subject : string) (reg : Registered) (ty : SchemaType) (text : string)
    (mt : option string) : HttpResponse :=
  ok_json (object_of
    ([("subject", JString subject); ("id", ser_int (reg_id reg)); ("version", ser_int (reg_version reg))] ++
     opt_field "schemaType" (wire_name ty) ++ opt_field "messageType" mt ++ [("schema", JString text)])).

(** A lookup of what a settled node holds. *)
Lemma lookup_found s w subject query body req reg key :
  steady s settled w → store_wf s →
  from_body "RegisterBody" de_RegisterBody InvalidSchema body = Ok req →
  query_flag "deleted" query = Ok false → query_flag "normalize" query = Ok false →
  find_under_subject s subject (from_wire (rb_schema_type req)) (rb_schema req) (rb_references req)
    (rb_message_type req) false = Some reg →
  find_under_subject_canonical s subject key false = Some reg →
  ∃ ty text mt, (serve HLookup [subject] query (Some body) w).1 = Http (lookup_answer subject reg ty text mt).
Proof.
  intros Hw Hs Hreq Hd Hn Hf Hk. destruct (found_visible s subject key reg Hs Hk) as [[l Hl] [[[[ty text] refs] mt] Hid]].
  exists ty, text, mt. unfold serve, handle, mbind, M_bind, lift. rewrite Hd, Hn.
  unfold with_body, lookup, mbind, M_bind, lift. rewrite Hreq.
  pose proof (hoare_read_store s w Hw) as Hr. destruct (read_store w) as [[s'|e] w1]; [|done].
  destruct Hr as [-> _]. rewrite Hl, Hf. cbn. by rewrite Hid.
Qed.

(** What was registered over HTTP is found over HTTP. When the registration of a body is
    answered with 200 on a node, that node answers a lookup of the same body with 200 and the
    id the registration gave, provided storing the schema keeps its identity and the
    identity was new to the registry or already live under the subject. *)
Lemma register_then_lookup s w subject query query' body req r w' :
  at_state s w → store_wf s → ids_i32 s → (max_id s < i32_max)%Z → (next_version s subject < i32_max)%Z →
  effective_mode s subject ≠ "IMPORT" →
  from_body "RegisterBody" de_RegisterBody InvalidSchema body = Ok req →
  query_flag "normalize" query = Ok false →
  query_flag "deleted" query' = Ok false → query_flag "normalize" query' = Ok false →
  (∀ resolved text, resolve_closure s (rb_references req) = Ok resolved →
     normalized_storage_form (from_wire (rb_schema_type req)) (rb_schema req) resolved = Ok text →
     format_parse (from_wire (rb_schema_type req)) text resolved =
     format_parse (from_wire (rb_schema_type req)) (rb_schema req) resolved ∧
     live_or_new s subject (from_wire (rb_schema_type req)) text (rb_references req) (rb_message_type req)) →
  serve HRegister [subject] query (Some body) w = (Http r, w') → hr_status r = 200%Z →
  ∃ reg ty text mt, KafkaStore.register (mkRegisterSchema subject (from_wire (rb_schema_type req)) (rb_schema req)
      (rb_references req) (rb_message_type req) (rb_id req) (rb_version req)) w = (Ok reg, w') ∧
    r = ok_json (object_of [("id", ser_int (reg_id reg))]) ∧
    (serve HLookup [subject] query' (Some body) w').1 = Http (lookup_answer subject reg ty text mt).
Proof.
  intros Hat Hs Hi Hm Hnv Hmode Hreq Hn Hd' Hn' Hstable Hserve H200.
  apply serve_ok in Hserve; [|done]. revert Hserve.
  unfold handle, mbind, M_bind, lift. rewrite Hn. unfold with_body, register, mbind, M_bind, lift. rewrite Hreq.
  set (rq := mkRegisterSchema _ _ _ _ _ _ _).
  assert (request_ok rq) as Hok.
  { unfold from_body, from_slice in Hreq. destruct (json_parse body ≫= _) as [x|] eqn:E; [|done].
    injection Hreq as ->. apply bind_Some in E as (v & _ & E). by eapply de_body_ok. }
  pose proof (hoare_register rq s Hok Hs Hi w Hat) as Hh.
  destruct (KafkaStore.register rq w) as [[reg|e] w1] eqn:Er; [|done]. intros [= <- <-].
  destruct Hh as (s' & Hspec & Hst). unfold spec_register in Hspec. cbn [rq rq_subject rq_ty rq_schema rq_references] in Hspec.
  destruct (String.eqb _ "READONLY"); [done|].
  destruct (resolve_closure s (rb_references req)) as [resolved|] eqn:Hcl; [|done]. cbn [mbind result_bind] in Hspec.
  destruct (normalized_storage_form _ _ _) as [text|] eqn:Hnf; [|done]. cbn [mbind result_bind] in Hspec.
  rewrite (proj2 (String.eqb_neq _ _) Hmode) in Hspec.
  destruct (Hstable resolved text eq_refl Hnf) as [Hsame Hnew].
  destruct (assign_found rq text resolved s reg s' Hs Hm Hnv Hnew Hcl Hspec) as (Hs' & Hcl' & Hfound).
  pose proof Hfound as Hfound'. unfold find_under_subject in Hfound'.
  cbn [rq rq_subject rq_ty rq_schema rq_references rq_message_type] in *.
  rewrite Hcl' in Hfound'. simpl in Hfound'. rewrite Hsame in Hfound'.
  apply bind_Some in Hfound' as (canonical & Hp & Hkey).
  destruct (lookup_found s' w1 subject query' body req reg
    (dedup_key canonical (rb_references req) (rb_message_type req)) Hst Hs' Hreq Hd' Hn') as (ty & t & mt & Ha);
    [|done|by exists reg, ty, t, mt].
  unfold find_under_subject. rewrite Hcl'. simpl. by rewrite Hp.
Qed.


(** The levels a client may set are those the engine knows. *)
Lemma levels_agree level : validate level = Ok () ↔ is_Some (try_parse level).
Proof.
  unfold validate, try_parse. cbn.
  repeat (destruct (String.eqb level _); [by split|]). split; [done|]. by intros [].
Qed.

(** With [normalize=true] an Avro text is parsed on its own: one that needs its references
    is refused, whatever references the body names. *)
Lemma normalize_ignores_references subject query body req e w :
  from_body "RegisterBody" de_RegisterBody InvalidSchema body = Ok req →
  query_flag "normalize" query = Ok true → from_wire (rb_schema_type req) = Avro →
  parse_str (rb_schema req) = Err e →
  (serve HRegister [subject] query (Some body) w).1 = Http (into_response (InvalidSchema e)).
Proof.
  intros Hreq Hn Hty Hp. unfold serve, handle, mbind, M_bind, lift. rewrite Hn.
  unfold with_body, register, mbind, M_bind, lift. rewrite Hreq, Hty. cbn [normalize_schema]. by rewrite Hp.
Qed.

(** ** Who writes *)

(** A computation that writes nothing to the log. *)
Definition quiet {A} (m : M A) : Prop := ∀ w, w_written (m w).2 = w_written w.

Lemma quiet_lift {A} (r : result SrError A) : quiet (lift r).
Proof. done. Qed.

Lemma quiet_ret {A} (a : A) : quiet (mret a).
Proof. done. Qed.

Lemma quiet_throw {A} e : quiet (throw e : M A).
Proof. done. Qed.

Lemma quiet_read_store : quiet read_store.
Proof. intros w. unfold read_store, interact. by destruct (w_script w). Qed.

Lemma quiet_bind {A B} (m : M A) (f : A → M B) : quiet m → (∀ a, quiet (f a)) → quiet (m ≫= f).
Proof.
  intros Hm Hf w. unfold mbind, M_bind. specialize (Hm w). destruct (m w) as [[a|e] w1]; simpl in *; [|done].
  by rewrite Hf.
Qed.

Ltac quiet_steps :=
  repeat match goal with
    | |- quiet (_ ≫= _) => apply quiet_bind; [|intros]
    | |- quiet (lift _) => apply quiet_lift
    | |- quiet (mret _) => apply quiet_ret
    | |- quiet (throw _) => apply quiet_throw
    | |- quiet read_store => apply quiet_read_store
    | |- quiet (match ?x with _ => _ end) => destruct x
    | |- quiet (let '_ := ?x in _) => destruct x
    end.

(** The endpoints that may write: those whose permission is to write, alter or
    delete. *)
Definition writing_operation (op : AclOperation) : bool :=
  match op with Write | Alter | Delete => true | _ => false end.

Definition writing (h : Handler) : bool :=
  match handler_target h [] with Some (_, _, op) => writing_operation op | None => false end.

Lemma reads_quiet h params query body : writing h = false → quiet (handle h params query body).
Proof.
  intros Hh. destruct h; try discriminate Hh; unfold handle, with_body, respond; quiet_steps;
    unfold list_schemas, get_by_id, get_by_id_versions, get_by_id_schema, get_by_id_subjects, list_all, lookup,
      list_versions, get_version, get_version_schema, referencedby, find_version_of, get_global_mode,
      get_subject_mode, get_global_config, get_subject_config, check_compatibility; quiet_steps.
Qed.

Lemma serve_quiet h params query body w :
  writing h = false → w_written (serve h params query body w).2 = w_written w.
Proof.
  intros Hh. pose proof (reads_quiet h params query body Hh w) as Hq. unfold serve.
  by destruct (handle _ _ _ _ w) as [[a|e] w1].
Qed.

Lemma writing_target h params : writing h = true →
  ∃ rt name op, handler_target h params = Some (rt, name, op) ∧ writing_operation op = true.
Proof. by destruct h; try discriminate; eexists _, _, _. Qed.

Lemma writing_mutates m h : (m, h) ∈ routes ≫= snd → writing h = true → mutating m = true.
Proof.
  intros Hm Hw. cbn in Hm.
  repeat (apply elem_of_cons in Hm as [[= -> ->]|Hm]; [first [reflexivity|discriminate Hw]|]).
  by apply elem_of_nil in Hm.
Qed.

(** C32: only an authorised caller writes. When serving a request leaves a record in the log,
    the node is the primary, and the request either is a forward that carries the configured
    secret, or was authenticated as a principal who, with authorization on, was allowed to write,
    alter or delete from the request's peer address, on the cluster or on the very subject the
    request names. Every other request, and every HEAD request, leaves the log as it was. *)
Theorem writes_authorized `{AuthLib} `{AxumLaws} sec now req w :
  req_authenticated_forward req = false →
  w_written (serve_request sec now req w).2 ≠ w_written w →
  ps_is_primary (fw_primary (sec_forward sec)) = true ∧ mutating (req_method req) = true ∧
  ∃ h params r, router_with_security sec now req = Handled h params r ∧
  ((∃ node secret, assoc_get FORWARD_HEADER (req_headers req) = Some node ∧
      as_forward_secret (sec_auth sec) = Some secret ∧
      assoc_get FORWARD_SECRET_HEADER (req_headers req) = Some secret) ∨
   ∃ p, resolve (req_headers req) (req_mtls req) (sec_auth sec) now = Authn p ∧
     ∀ az, sec_authz sec = Some az → ∃ host rt name op,
       req_peer req = Some host ∧ handler_target h params = Some (rt, name, op) ∧
       writing_operation op = true ∧ authorize az p host rt name op = true).
Proof.
  intros Hmark Hne. unfold serve_request in Hne.
  destruct (router_with_security sec now req) as [h params r| | | |] eqn:Hr; try done.
  destruct (writing h) eqn:Hw.
  2: { destruct Hne. pose proof (serve_quiet h params (req_query r) (req_body r) w Hw) as Hq.
       by destruct (serve _ _ _ _ w). }
  destruct (stack_routes _ _ _ _ _ _ Hr) as (req' & Hm & Hroute).
  pose proof (writing_mutates _ _ (routed_method _ _ _ _ _ Hroute eq_refl) Hw) as Hmut.
  rewrite Hm in Hmut. case_decide as Hhead; [done|].
  destruct (secured_dispatch sec now req h params r Hmark Hr) as [Hprim Hauth].
  split_and!; [by apply Hprim|done|]. exists h, params, r. split; [done|].
  destruct Hauth as [?|(p & Hp & Haz)]; [by left|]. right. exists p. split; [done|]. intros az Hsome.
  rewrite Hsome, decide_False in Haz by done.
  destruct (writing_target h params Hw) as (rt & name & op & Ht & Hop). rewrite Ht in Haz.
  destruct Haz as (host & Hpeer & Hau). by exists host, rt, name, op.
Qed.
End rest.

(** ** Witnesses *)

Section witnesses.
#[local] Existing Instance echo_format.
#[local] Existing Instance marker_serde.
#[local] Existing Instance marker_serde_laws.
#[local] Existing Instance string_uuid.
#[local] Existing Instance marker_laws.
#[local] Existing Instance demo_percent.
#[local] Existing Instance demo_axum.
#[local] Existing Instance demo_axum_laws.
#[local] Existing Instance demo_auth.
#[local] Instance demo_avro : AvroLib := {|
  avro_schema := unit; parse_str _ := Err "no Avro"; parse_list _ := Err "no Avro";
  can_read _ _ := Err "no Avro" |}.
#[local] Instance demo_text : JsonText := λ _, Err "no JSON".
#[local] Instance demo_rest : RestLib := {|
  form_urlencoded _ := []; query_message q := q; serde_message name _ := name; avro_canonical_form _ := "";
  decode_descriptor_set _ := Err "no descriptors" |}.

Definition demo_body : string := json_print (JObject [("schema", JString "X")]).

(** bob, on the primary, registers a schema. *)
Definition demo_primary : SecurityLayers :=
  mkSecurityLayers (sec_auth demo_sec) (sec_authz demo_sec)
    (mkForwardState (mkPrimaryState true None None None) (λ _, None) "node" 100 None).

Definition demo_post : Request :=
  mkRequest POST "/subjects/orders/versions" "" [(AUTHORIZATION, "Basic bob:pw")] (Some demo_body)
    (Some "10.0.0.1") None None false.

Lemma writes_authorized_witness :
  w_written (serve_request demo_primary 0 demo_post demo_world).2 ≠ [] ∧
  ∃ p, resolve (req_headers demo_post) None (sec_auth demo_primary) 0 = Authn p ∧ pr_name p = "bob".
Proof.
  assert (w_written (serve_request demo_primary 0 demo_post demo_world).2 ≠ w_written demo_world) as Hne
    by (vm_compute; discriminate).
  split; [exact Hne|].
  destruct (writes_authorized demo_primary 0 demo_post demo_world eq_refl Hne)
    as (_ & _ & h & params & r & Hr & [(node & secret & Hn & _)|(p & Hp & _)]); [discriminate Hn|].
  exists p. split; [exact Hp|]. vm_compute in Hp. injection Hp as <-. reflexivity.
Defined.
End witnesses.
