(* ===== verification/ClientHttp.v ===== *)
(** * The registry client's requests (schema-serde: registry/mod.rs, registry/model.rs)

    The URL, the body and the decoding of each call. reqwest, which sends a request, is a
    function from the method, the URL and the body to the answer or the transport's error. *)

From stdpp Require Import base gmap strings list pretty.
From Stdlib Require Import ZArith Lia Ascii.
From S2P Require Import Prelude Text Json Types Record Authz Client.

(** ** Bodies and answers (model.rs) *)

Definition opt_str (k : string) (o : option string) : list (string * json) :=
  match o with Some s => [(k, JString s)] | None => [] end.

(** [SchemaPayload]. *)
Definition ser_SchemaPayload (schema : string) (schema_type message_type : option string)
    (references : list SchemaReference) : json :=
  JObject ([("schema", JString schema)] ++ opt_str "schemaType" schema_type ++ opt_str "messageType" message_type ++
    match references with [] => [] | _ => [("references", JArray (ser_SchemaReference <$> references))] end).

Definition de_u32 : json → option Z := de_int 0 4294967295.

Definition de_default {A} (d : A) (de : json → option A) (f : option json) : option A :=
  match f with None => Some d | Some v => de v end.

(** A struct whose fields after the first have defaults. *)
Definition answer_fields (names : list string) (v : json) : option (list (string * json)) :=
  match v with
  | JObject l => Some l
  | JArray vs => if (1 <=? length vs)%nat && (length vs <=? length names)%nat then Some (zip names vs) else None
  | _ => None
  end.

Definition de_RegisterResponse (v : json) : option Z :=
  l ← struct_fields ["id"] v; required "id" l ≫= de_u32.

Definition de_SubjectVersionResponse (v : json) : option SubjectVersionResponse :=
  l ← answer_fields ["id"; "version"; "schema"; "schemaType"; "messageType"; "references"] v;
  id ← required "id" l ≫= de_u32;
  version ← field "version" l ≫= de_default 0%Z de_i32;
  schema ← field "schema" l ≫= de_default "" de_string;
  schema_type ← field "schemaType" l ≫= de_opt_string;
  message_type ← field "messageType" l ≫= de_opt_string;
  references ← field "references" l ≫= de_default_vec de_SchemaReference;
  Some (mkSubjectVersionResponse id version schema schema_type message_type references).

Definition de_SchemaByIdResponse (v : json) : option SchemaByIdResponse :=
  l ← answer_fields ["schema"; "schemaType"; "messageType"; "references"] v;
  schema ← required "schema" l ≫= de_string;
  schema_type ← field "schemaType" l ≫= de_opt_string;
  message_type ← field "messageType" l ≫= de_opt_string;
  references ← field "references" l ≫= de_default_vec de_SchemaReference;
  Some (mkSchemaByIdResponse schema schema_type message_type references).

Definition de_SubjectVersion (v : json) : option (string * Z) :=
  l ← struct_fields ["subject"; "version"] v;
  subject ← required "subject" l ≫= de_string;
  version ← required "version" l ≫= de_i32;
  Some (subject, version).

Definition de_list {A} (de : json → option A) (v : json) : option (list A) :=
  match v with JArray l => mapM de l | _ => None end.

Definition de_ErrorBody (v : json) : option (Z * string) :=
  l ← struct_fields ["error_code"; "message"] v;
  code ← required "error_code" l ≫= de_i32;
  message ← required "message" l ≫= de_string;
  Some (code, message).

(** ** Calls (mod.rs) *)

(** [trim_end_matches('/')]. *)
Definition base_url (url : string) : string :=
  let fix drop l := match l with c :: l' => if Ascii.eqb c "/" then drop l' else l | [] => [] end in
  String.string_of_list_ascii (rev (drop (rev (String.list_ascii_of_string url)))).

Section client.
Context `{SerdeJson}.
(** The text of serde's error, and the transport. *)
Context (decode_message : string → string).
Context (http : Method → string → option string → result string Response).
Context (base : string).

Definition read_json {R} (de : json → option R) (text : string) : result string R :=
  match json_parse text ≫= de with Some r => Ok r | None => Err (decode_message text) end.

Definition read_error (text : string) : option (Z * string) := json_parse text ≫= de_ErrorBody.

Definition send {R} (m : Method) (url : string) (body : option string) (de : json → option R)
    : result SchemaSerdeError R :=
  match http m url body with
  | Err e => Err (RegistryTransport e)
  | Ok resp => Client.parse read_error (read_json de) resp
  end.

Definition post_json {R} (url : string) (body : json) (de : json → option R) : result SchemaSerdeError R :=
  send POST url (Some (json_print body)) de.
Definition get_json {R} (url : string) (de : json → option R) : result SchemaSerdeError R :=
  send GET url None de.

Definition payload (kind : SchemaKind) (schema : string) (references : list SchemaReference)
    (message_type : option string) : json :=
  ser_SchemaPayload schema (kind_wire_name kind) message_type references.

Definition client_register (subject : string) (kind : SchemaKind) (schema : string)
    (references : list SchemaReference) (message_type : option string) : result SchemaSerdeError Z :=
  post_json (base +:+ "/subjects/" +:+ subject +:+ "/versions") (payload kind schema references message_type)
    de_RegisterResponse.

Definition client_lookup (subject : string) (kind : SchemaKind) (schema : string)
    (references : list SchemaReference) (message_type : option string) : result SchemaSerdeError Z :=
  resp ← post_json (base +:+ "/subjects/" +:+ subject) (payload kind schema references message_type)
           de_SubjectVersionResponse;
  Ok (Client.sv_id resp).

Definition client_latest (subject : string) : result SchemaSerdeError SubjectVersionResponse :=
  get_json (base +:+ "/subjects/" +:+ subject +:+ "/versions/latest") de_SubjectVersionResponse.
Definition client_latest_id (subject : string) : result SchemaSerdeError Z :=
  resp ← client_latest subject; Ok (Client.sv_id resp).

Definition client_schema_by_id (id : Z) : result SchemaSerdeError FetchedSchema :=
  resp ← get_json (base +:+ "/schemas/ids/" +:+ pretty id) de_SchemaByIdResponse;
  Ok (fetched_by_id resp).

Definition client_schema_by_subject_version (subject : string) (version : Z)
    : result SchemaSerdeError FetchedSchema :=
  resp ← get_json (base +:+ "/subjects/" +:+ subject +:+ "/versions/" +:+ pretty version +:+ "?deleted=true")
           de_SubjectVersionResponse;
  Ok (fetched_by_version resp).

Definition subject_versions_for_id (id : Z) : result SchemaSerdeError (list (string * Z)) :=
  get_json (base +:+ "/schemas/ids/" +:+ pretty id +:+ "/versions") (de_list de_SubjectVersion).
End client.

(** ** The import tool (main of bin/schema-push.rs) *)

Section push.
Context (http : Method → string → option string → result string Response).
(** The reading of the descriptor set's file, and the text of a status. *)
Context (read_file : string → result string string) (status_text : Z → string).

(** What the tool prints, or the error it ends with. *)
Definition schema_push (registry_url descriptor_set : string) : result string string :=
  match read_file descriptor_set with
  | Err e => Err ("read descriptor set " +:+ descriptor_set +:+ ": " +:+ e)
  | Ok bytes =>
      resp ← http POST (base_url registry_url +:+ "/schemas/import") (Some bytes);
      body ← rs_text resp;
      if ((200 <=? rs_status resp) && (rs_status resp <? 300))%Z then Ok body
      else Err ("schema import failed (" +:+ status_text (rs_status resp) +:+ "): " +:+ body)
  end.
End push.
