(* ===== verification/Interop.v ===== *)
(** * The client against the registry (schema-serde: registry/, rest/)

    The calls of the registry client composed with the handlers that serve them: the
    bodies one side writes are what the other reads, answers and errors alike. *)

From stdpp Require Import base gmap strings list pretty.
From Stdlib Require Import ZArith Lia Ascii.
From S2P Require Import Prelude Text Float Json Types Store Closure StoreFacts StoreSpec StoreQueries DedupKey.
From S2P Require Import Record RecordFacts Descriptor ProtoText Matching JsonDiff AvroFormat Compat Reader ReaderFacts.
From S2P Require Import KafkaStore KafkaFacts KafkaSpec KafkaLive Import Auth Authz Router RouterFacts Rest RestFacts Client ClientHttp.

#[local] Existing Instance M_ret.
#[local] Existing Instance M_bind.

(** The registry's type of a client's kind. *)
Definition type_of (k : SchemaKind) : SchemaType :=
  match k with KAvro => Avro | KProtobuf => Protobuf | KJson => Json end.
Definition kind_of (ty : SchemaType) : SchemaKind :=
  match ty with Avro => KAvro | Protobuf => KProtobuf | Json => KJson end.

Lemma from_wire_kind k : from_wire (kind_wire_name k) = type_of k.
Proof. by destruct k. Qed.
Lemma kind_from_wire ty : from_wire_name (wire_name ty) = kind_of ty.
Proof. by destruct ty. Qed.

(** An answer of the registry as reqwest gives it to the client. *)
Definition deliver (a : Answer) : result string Client.Response :=
  match a with Http r => Ok (mkResponse (hr_status r) (Ok (hr_body r))) | BodyRefused => Err "refused" end.

(** ** Bodies *)

(** What the client posts is read as it was meant. *)
Lemma de_payload kind schema refs mt :
  Forall (λ r, in_i32 (ref_version r)) refs →
  de_RegisterBody (payload kind schema refs mt) =
  Some (mkRegisterBody schema (kind_wire_name kind) refs mt None None).
Proof.
  intros Hr. unfold payload, ser_SchemaPayload, de_RegisterBody. cbn [struct_prefix mbind option_bind].
  destruct kind, mt as [m|], refs as [|r refs]; cbn -[de_SchemaReference ser_SchemaReference];
    try reflexivity;
    inversion_clear Hr; rewrite de_ser_SchemaReference by done; cbn -[de_SchemaReference ser_SchemaReference];
    by rewrite de_ser_references.
Qed.

Lemma references_plain refs :
  Forall (λ r, in_i32 (ref_version r)) refs → forallb json_plain (ser_SchemaReference <$> refs) = true.
Proof.
  induction 1 as [|r refs Hr _ IH]; [done|]. cbn [fmap list_fmap forallb]. rewrite IH, andb_true_r.
  unfold ser_SchemaReference. cbn [json_plain forallb snd]. by rewrite ser_int_plain.
Qed.

Lemma payload_plain kind schema refs mt :
  Forall (λ r, in_i32 (ref_version r)) refs → json_plain (payload kind schema refs mt) = true.
Proof.
  intros Hr%references_plain. unfold payload, ser_SchemaPayload.
  destruct kind, mt, refs; cbn -[ser_SchemaReference fmap] in *; rewrite ?andb_true_r; done.
Qed.

Section interop.
Context `{SchemaFormat} `{SerdeJsonLaws} `{UuidLib} `{!MarkerLaws} `{AvroLib} `{JsonText} `{!RestLib}.
Context (decode_message : string → string).

Lemma from_body_payload kind schema refs mt :
  Forall (λ r, in_i32 (ref_version r)) refs →
  from_body "RegisterBody" de_RegisterBody InvalidSchema (json_print (payload kind schema refs mt)) =
  Ok (mkRegisterBody schema (kind_wire_name kind) refs mt None None).
Proof.
  intros Hr. unfold from_body, from_slice. rewrite json_parse_print by (by apply payload_plain).
  cbn [mbind option_bind]. by rewrite de_payload.
Qed.

(** An error of the registry, as the client reports it. *)
Definition reported (e : SrError) : SchemaSerdeError :=
  RegistryStatus (http_status e) (error_code e) (error_message e).

Lemma parse_error {R} (de : json → option R) e :
  Client.parse read_error (read_json decode_message de)
    (mkResponse (hr_status (into_response e)) (Ok (hr_body (into_response e)))) = Err (reported e).
Proof.
  unfold Client.parse, read_error. cbn [rs_text rs_status into_response error_response hr_status hr_body].
  rewrite json_parse_print by (by destruct e). cbn [mbind option_bind].
  assert (de_ErrorBody (object_of [("error_code", ser_int (error_code e)); ("message", JString (error_message e))])
    = Some (error_code e, error_message e)) as ->.
  { generalize (error_message e). intros m. by destruct e. }
  unfold reported. by destruct e.
Qed.

Lemma parse_ok {R} (de : json → option R) v r :
  json_plain v = true → de v = Some r →
  Client.parse read_error (read_json decode_message de)
    (mkResponse (hr_status (ok_json v)) (Ok (hr_body (ok_json v)))) = Ok r.
Proof.
  intros Hp Hd. unfold Client.parse, read_json. cbn. rewrite json_parse_print by done. cbn. by rewrite Hd.
Qed.

Lemma de_u32_ser id : (0 ≤ id ≤ i32_max)%Z → de_u32 (ser_int id) = Some id.
Proof.
  unfold ser_int, de_u32, de_int, i32_max. intros Hid. destruct (Z.ltb_spec id 0); [lia|].
  by rewrite (proj2 (Z.leb_le 0 id)), (proj2 (Z.leb_le id _)) by lia.
Qed.

#[local] Arguments ser_int : simpl never.
#[local] Arguments de_i32 : simpl never.
#[local] Arguments de_u32 : simpl never.
#[local] Arguments de_SchemaReference : simpl never.
#[local] Arguments ser_SchemaReference : simpl never.

Lemma de_lookup_answer subject reg ty text mt :
  (0 ≤ reg_id reg ≤ i32_max)%Z → in_i32 (reg_version reg) →
  let v := object_of
    ([("subject", JString subject); ("id", ser_int (reg_id reg)); ("version", ser_int (reg_version reg))] ++
     opt_field "schemaType" (wire_name ty) ++ opt_field "messageType" mt ++ [("schema", JString text)]) in
  json_plain v = true ∧
  de_SubjectVersionResponse v = Some (mkSubjectVersionResponse (reg_id reg) (reg_version reg) text (wire_name ty) mt []).
Proof.
  intros Hid Hv. assert (in_i32 (reg_id reg)) as Hid' by (unfold in_i32, i32_min; lia).
  pose proof (ser_int_plain _ Hid') as P1. pose proof (ser_int_plain _ Hv) as P2.
  pose proof (de_u32_ser _ Hid) as D1. pose proof (de_i32_ser _ Hv) as D2.
  assert (object_of ([("subject", JString subject); ("id", ser_int (reg_id reg)); ("version", ser_int (reg_version reg))] ++
     opt_field "schemaType" (wire_name ty) ++ opt_field "messageType" mt ++ [("schema", JString text)]) =
    JObject ([("id", ser_int (reg_id reg))] ++ opt_field "messageType" mt ++ [("schema", JString text)] ++
     opt_field "schemaType" (wire_name ty) ++ [("subject", JString subject); ("version", ser_int (reg_version reg))])) as ->
    by (by destruct ty, mt).
  destruct ty, mt; cbn; rewrite ?P1, ?P2, ?D1; cbn; rewrite ?D2; done.
Qed.

Lemma de_by_id_answer ty text refs mt :
  Forall (λ r, in_i32 (ref_version r)) refs →
  let v := object_of (opt_field "schemaType" (wire_name ty) ++ opt_field "messageType" mt ++
     [("schema", JString text)] ++ references_field refs) in
  json_plain v = true ∧ de_SchemaByIdResponse v = Some (mkSchemaByIdResponse text (wire_name ty) mt refs).
Proof.
  intros Hr. pose proof (references_plain _ Hr) as Hp. pose proof (de_ser_references _ Hr) as Hd.
  destruct refs as [|r refs]; [by destruct ty, mt|].
  unfold references_field. remember (ser_SchemaReference <$> r :: refs) as l eqn:Hl. clear Hl.
  assert (object_of (opt_field "schemaType" (wire_name ty) ++ opt_field "messageType" mt ++
     [("schema", JString text)] ++ [("references", JArray l)]) =
    JObject (opt_field "messageType" mt ++ [("references", JArray l); ("schema", JString text)] ++
     opt_field "schemaType" (wire_name ty))) as -> by (by destruct ty, mt).
  destruct ty, mt; cbn; rewrite ?Hp; cbn; rewrite ?Hd; done.
Qed.

(** ** Calls *)

(** A query string that is empty has no parameters. *)
Context (form_empty : form_urlencoded "" = []).

Lemma query_flag_empty key : query_flag key "" = Ok false.
Proof. unfold query_flag. by rewrite form_empty. Qed.

(** The transport hands the client's requests for a subject and for ids to a registry in the
    state [w]. *)
Record connected (http : Method → string → option string → result string Client.Response) (base : string)
    (w : World) (subject : string) : Prop := {
  to_register body :
    http POST (base +:+ "/subjects/" +:+ subject +:+ "/versions") (Some body) =
    deliver (serve HRegister [subject] "" (Some body) w).1;
  to_lookup body :
    http POST (base +:+ "/subjects/" +:+ subject) (Some body) =
    deliver (serve HLookup [subject] "" (Some body) w).1;
  to_get_by_id id :
    http GET (base +:+ "/schemas/ids/" +:+ pretty id) None =
    deliver (serve HGetById [pretty (id : Z)] "" None w).1;
}.

(** The request a client's registration is. *)
Definition request_of (subject : string) (kind : SchemaKind) (schema : string) (refs : list SchemaReference)
    (mt : option string) : RegisterSchema :=
  mkRegisterSchema subject (type_of kind) schema refs mt None None.

Lemma serve_register subject kind schema refs mt w :
  Forall (λ r, in_i32 (ref_version r)) refs →
  serve HRegister [subject] "" (Some (json_print (payload kind schema refs mt))) w =
  match KafkaStore.register (request_of subject kind schema refs mt) w with
  | (Ok reg, w') => (Http (ok_json (object_of [("id", ser_int (reg_id reg))])), w')
  | (Err e, w') => (Http (into_response e), w')
  end.
Proof.
  intros Hr. unfold serve, handle, mbind, M_bind, lift. rewrite query_flag_empty.
  unfold with_body, Rest.register, mbind, M_bind, lift. rewrite from_body_payload by done.
  cbn [rb_schema_type rb_schema rb_references rb_message_type rb_id rb_version]. rewrite from_wire_kind.
  unfold request_of. by destruct (KafkaStore.register _ w) as [[reg|e] w'].
Qed.

Lemma send_register http base w subject kind schema refs mt :
  connected http base w subject → Forall (λ r, in_i32 (ref_version r)) refs →
  (∀ reg, (KafkaStore.register (request_of subject kind schema refs mt) w).1 = Ok reg → (0 ≤ reg_id reg ≤ i32_max)%Z) →
  client_register decode_message http base subject kind schema refs mt =
  match (KafkaStore.register (request_of subject kind schema refs mt) w).1 with
  | Ok reg => Ok (reg_id reg)
  | Err e => Err (reported e)
  end.
Proof.
  intros Hc Hr Hid. unfold client_register, post_json, send. rewrite (to_register _ _ _ _ Hc), serve_register by done.
  destruct (KafkaStore.register _ w) as [[reg|e] w']; cbn [fst deliver].
  - specialize (Hid reg eq_refl). apply parse_ok.
    + cbn. rewrite ser_int_plain; [done|]. unfold in_i32, i32_min. lia.
    + cbn. by rewrite de_u32_ser.
  - apply parse_error.
Qed.

Lemma send_by_id http base w subject s id :
  connected http base w subject → steady s settled w → in_i32 id →
  (∀ ty text refs mt, schema_by_id s id false = Some (ty, text, refs, mt) → Forall (λ r, in_i32 (ref_version r)) refs) →
  client_schema_by_id decode_message http base id =
  match schema_by_id s id false with
  | Some (ty, text, refs, mt) => Ok (mkFetched text (kind_of ty) mt refs)
  | None => Err (reported SchemaNotFound)
  end.
Proof.
  intros Hc Hw Hid Hrefs. unfold client_schema_by_id, get_json, send. rewrite (to_get_by_id _ _ _ _ Hc).
  unfold serve, handle, mbind, M_bind, lift. rewrite query_flag_empty.
  unfold respond, get_by_id, mbind, M_bind, lift, parse_schema_id. rewrite parse_i32_pretty by done.
  pose proof (hoare_read_store s w Hw) as Hr. destruct (read_store w) as [[s'|e] w1]; [|done]. destruct Hr as [-> _].
  destruct (schema_by_id s id false) as [[[[ty text] refs] mt]|]; cbn [ok_or fst deliver].
  - destruct (de_by_id_answer ty text refs mt (Hrefs _ _ _ _ eq_refl)) as [Hp Hd].
    unfold mret, M_ret. cbn [fst deliver]. rewrite (parse_ok _ _ _ Hp Hd). cbn. unfold fetched_by_id. cbn. by rewrite kind_from_wire.
  - by rewrite parse_error.
Qed.

(** The client and the registry agree. Through a transport that hands its requests to a registry,
    the client's registration gives the id the registry assigned, for the type, text,
    references and message type the client meant, and its fetch of an id gives the stored text, kind,
    message type and references; an error of the registry comes back with its status, code and
    message. *)
Theorem client_server_agree http base w subject kind schema refs mt s id :
  connected http base w subject → Forall (λ r, in_i32 (ref_version r)) refs →
  (∀ reg, (KafkaStore.register (request_of subject kind schema refs mt) w).1 = Ok reg →
     (0 ≤ reg_id reg ≤ i32_max)%Z) →
  client_register decode_message http base subject kind schema refs mt =
    match (KafkaStore.register (request_of subject kind schema refs mt) w).1 with
    | Ok reg => Ok (reg_id reg)
    | Err e => Err (RegistryStatus (http_status e) (error_code e) (error_message e))
    end ∧
  (steady s settled w → stored_ok s → in_i32 id →
   client_schema_by_id decode_message http base id =
     match schema_by_id s id false with
     | Some (ty, text, refs, mt) => Ok (mkFetched text (kind_of ty) mt refs)
     | None => Err (RegistryStatus 404 40403 (error_message SchemaNotFound))
     end).
Proof.
  intros Hc Hr Hid. split; [by apply send_register|]. intros Hw Hok Hi. apply (send_by_id http base w subject s id); try done.
  intros ty text refs' mt' Hs. unfold schema_by_id in Hs.
  destruct (by_id s !! id) as [reg|] eqn:Hb; [|by repeat case_match].
  destruct (Hok id reg Hb) as (_ & Hrefs & _). repeat case_match; by simplify_eq/=.
Qed.

(** What a client registered a client finds. After a registration through the client gave an id, a
    lookup of the same schema through the client, on the registry that served the registration, gives
    that id, provided storing the schema keeps its identity and the identity was new to the
    registry or already live under the subject. *)
Theorem client_round_trip s w http http' base subject kind schema refs mt id :
  at_state s w → store_wf s → ids_i32 s → (max_id s < i32_max)%Z → (next_version s subject < i32_max)%Z →
  effective_mode s subject ≠ "IMPORT" → Forall (λ r, in_i32 (ref_version r)) refs →
  (∀ resolved text, resolve_closure s refs = Ok resolved →
     normalized_storage_form (type_of kind) schema resolved = Ok text →
     format_parse (type_of kind) text resolved = format_parse (type_of kind) schema resolved ∧
     live_or_new s subject (type_of kind) text refs mt) →
  (∀ reg, (KafkaStore.register (request_of subject kind schema refs mt) w).1 = Ok reg →
     (0 ≤ reg_id reg ≤ i32_max)%Z ∧ in_i32 (reg_version reg)) →
  connected http base w subject →
  connected http' base (KafkaStore.register (request_of subject kind schema refs mt) w).2 subject →
  client_register decode_message http base subject kind schema refs mt = Ok id →
  client_lookup decode_message http' base subject kind schema refs mt = Ok id.
Proof.
  intros Hat Hs Hi Hm Hv Hmode Hr Hstable Hreg Hc Hc' Hok.
  rewrite (send_register http base w) in Hok; [|done|done|intros reg Hx; by apply Hreg].
  pose proof (serve_register subject kind schema refs mt w Hr) as Hserve.
  destruct (KafkaStore.register (request_of subject kind schema refs mt) w) as [[reg|e] w'] eqn:Er; [|done].
  cbn [fst snd] in *. injection Hok as <-.
  destruct (register_then_lookup s w subject "" "" (json_print (payload kind schema refs mt))
    (mkRegisterBody schema (kind_wire_name kind) refs mt None None)
    (ok_json (object_of [("id", ser_int (reg_id reg))])) w' Hat Hs Hi Hm Hv Hmode
    (from_body_payload _ _ _ _ Hr) (query_flag_empty _) (query_flag_empty _) (query_flag_empty _))
    as (reg' & ty & text & mt' & Er' & _ & Ha);
    [|exact Hserve|done|].
  { cbn. rewrite from_wire_kind. exact Hstable. }
  cbn in Er'. rewrite from_wire_kind in Er'. unfold request_of in Er. rewrite Er in Er'. injection Er' as <-.
  destruct (Hreg reg eq_refl) as [Hid Hver]. unfold client_lookup, post_json, send.
  rewrite (to_lookup _ _ _ _ Hc'), Ha. cbn [deliver].
  destruct (de_lookup_answer subject reg ty text mt' Hid Hver) as [Hp Hd].
  unfold lookup_answer. rewrite (parse_ok _ _ _ Hp Hd). done.
Qed.
(** ** The import tool *)

(** The tool reports exactly what the import endpoint decided: the rows of a descriptor set it
    registered, or the error's body under its status. *)
Lemma push_reports read_file status_text http url path bytes w :
  read_file path = Ok bytes →
  http POST (base_url url +:+ "/schemas/import") (Some bytes) = deliver (serve HImport [] "" (Some bytes) w).1 →
  schema_push http read_file status_text url path =
    match (file_descriptor_set bytes w).1 with
    | Ok r => Ok (hr_body r)
    | Err e => Err ("schema import failed (" +:+ status_text (http_status e) +:+ "): " +:+ hr_body (into_response e))
    end.
Proof.
  intros Hread Hhttp. unfold schema_push. rewrite Hread, Hhttp. clear Hhttp.
  unfold serve, handle, with_body, mbind, M_bind.
  destruct (file_descriptor_set bytes w) as [[r|e] w'] eqn:Hf; cbn [fst deliver mret M_ret].
  - assert (hr_status r = 200%Z) as Hs.
    { revert Hf. unfold file_descriptor_set, mbind, M_bind, lift. repeat (case_match; try done). by intros [= <- <-]. }
    cbn. by rewrite Hs.
  - cbn. by destruct e.
Qed.
End interop.

(** ** Subjects with a slash *)

Lemma append_assoc (x y z : string) : (x +:+ y) +:+ z = x +:+ y +:+ z.
Proof. induction x as [|c x IH]; [done|]. change (String c ((x +:+ y) +:+ z) = String c (x +:+ y +:+ z)). by rewrite IH. Qed.

(** A reference's subject that is a path, as the import endpoint assigns them, is put into the
    client's URL as it is; no route matches the URL, so the reference is not found. *)
Lemma nested_subject_unrouted `{AuthLib} `{AxumLaws} req a b v :
  forallb param_ok [a; b; v] = true → b ≠ "versions" → req_method req = GET →
  req_path req = "/subjects/" +:+ (a +:+ "/" +:+ b) +:+ "/versions/" +:+ v →
  router req = Failed NotFound.
Proof.
  intros Hok Hb Hm Hp. unfold router. destruct (axum_match _ _) as [[i raw]|] eqn:Ha; [|done]. exfalso.
  apply axum_match_sound in Ha as (pat & segs & Hpat & Hf & Hpath & Hraw).
  cbn [forallb] in Hok. repeat (apply andb_true_iff in Hok as [? Hok]).
  assert (segments (path_of ["subjects"; a; b; "versions"; v]) = ["subjects"; a; b; "versions"; v]) as Hseg.
  { apply segments_path. cbn [forallb]. by rewrite !andb_true_iff. }
  assert (req_path req = path_of ["subjects"; a; b; "versions"; v]) as Hp'.
  { rewrite Hp. unfold path_of. cbn [join_path]. rewrite string_app_nil, append_assoc.
    reflexivity. }
  rewrite Hp' in Hpath. rewrite Hpath in Hseg.
  rewrite list_lookup_fmap in Hpat. destruct (routes !! i) as [[pat' hs]|] eqn:Hi; [|done]. injection Hpat as ->.
  apply list_elem_of_lookup_2 in Hi.
  rewrite segments_path in Hseg; [subst segs|apply (fill_params pat raw); [done|done|]].
  - repeat (apply elem_of_cons in Hi as [[= -> _]|Hi];
      [cbn in Hf; repeat (destruct raw as [|? raw]; cbn in Hf; try discriminate Hf); congruence|]).
    by apply elem_of_nil in Hi.
  - repeat (apply elem_of_cons in Hi as [[= -> _]|Hi]; [done|]). by apply elem_of_nil in Hi.
Qed.

(** ** Witnesses *)

Section witnesses.
#[local] Existing Instance echo_format.
#[local] Existing Instance marker_serde.
#[local] Existing Instance marker_serde_laws.
#[local] Existing Instance string_uuid.
#[local] Existing Instance marker_laws.
#[local] Instance demo_avro : AvroLib := {|
  avro_schema := unit; parse_str _ := Err "no Avro"; parse_list _ := Err "no Avro";
  can_read _ _ := Err "no Avro" |}.
#[local] Instance demo_text : JsonText := λ _, Err "no JSON".
#[local] Instance demo_rest : RestLib := {|
  form_urlencoded _ := []; query_message q := q; serde_message name _ := name; avro_canonical_form _ := "";
  decode_descriptor_set _ := Err "no descriptors" |}.

(** The path of a numbered schema, read back. *)
Definition demo_id (url : string) : string := default "" (strip_prefix "/schemas/ids/" url).

(** A transport to the registry in the state [w]. *)
Definition demo_http (w : World) (m : Method) (url : string) (body : option string)
    : result string Client.Response :=
  match m, body with
  | GET, None => deliver (serve HGetById [demo_id url] "" None w).1
  | POST, Some b =>
      if String.eqb url "/subjects/orders/versions" then deliver (serve HRegister ["orders"] "" (Some b) w).1
      else deliver (serve HLookup ["orders"] "" (Some b) w).1
  | _, _ => Err "no such request"
  end.

Lemma demo_connected w : connected (demo_http w) "" w "orders".
Proof.
  split; [done|done|]. intros id. unfold demo_http, demo_id.
  change ("" +:+ "/schemas/ids/" +:+ pretty id) with ("/schemas/ids/" +:+ pretty id).
  by rewrite strip_prefix_app.
Qed.

Definition demo_registered : M Registered := KafkaStore.register (request_of "orders" KAvro "X" [] None).

Lemma demo_answer : (KafkaStore.register (request_of "orders" KAvro "X" [] None) demo_world).1 = Ok (mkRegistered 1 1).
Proof. vm_compute. reflexivity. Qed.

Lemma client_server_agree_witness :
  client_register (λ _, "") (demo_http demo_world) "" "orders" KAvro "X" [] None = Ok 1%Z.
Proof.
  rewrite (proj1 (client_server_agree (λ _, "") (eq_refl : @form_urlencoded _ demo_rest "" = []) (demo_http demo_world) "" demo_world "orders" KAvro "X" []
    None default_store 1 (demo_connected _) (Forall_nil_2 _)
    ltac:(intros reg; rewrite demo_answer; intros [= <-]; split; discriminate))).
  by rewrite demo_answer.
Defined.

Lemma client_round_trip_witness :
  client_lookup (λ _, "") (demo_http (demo_registered demo_world).2) "" "orders" KAvro "X" [] None = Ok 1%Z.
Proof.
  apply (client_round_trip (λ _, "") (eq_refl : @form_urlencoded _ demo_rest "" = []) default_store demo_world (demo_http demo_world)).
  - exact demo_world_at.
  - exact default_store_wf.
  - exact ids_i32_default.
  - reflexivity.
  - reflexivity.
  - discriminate.
  - constructor.
  - intros resolved text Hcl Hn. vm_compute in Hcl, Hn. injection Hcl as <-. injection Hn as <-.
    split; [reflexivity|]. right. intros key _. vm_compute. reflexivity.
  - intros reg. rewrite demo_answer. intros [= <-]. split; [split; discriminate|split; discriminate].
  - apply demo_connected.
  - apply demo_connected.
  - vm_compute. reflexivity.
Defined.
End witnesses.
