(* ===== verification/SerdeApi.v ===== *)
(** * The public face of the client serdes (schema-serde: format/mod.rs, avro.rs,
    json.rs, protobuf.rs, validate.rs, cache.rs)

    The traits [SchemaSerializer], [SchemaDeserializer] and [SchemaSubject], the
    three serdes with their constructors, the process-wide default cache and the
    feature gates of the validator. A serde holds its cache by reference (an
    [Arc]), so the caches of a process live in a heap and serdes share them. What
    a client may rely on is the class [SerdeLaws], which the three serdes meet. *)

From stdpp Require Import base gmap strings list pretty infinite.
From Stdlib Require Import ZArith Lia.
From S2P Require Import Prelude Text Types Json Descriptor ProtoText ProtoDiff AvroFormat Wire Client Cache CacheFacts.
From S2P Require Import Serde SerdeFacts Config.

#[local] Open Scope Z_scope.

(** ** Caches and the process *)

Section config.
Context `{ConfigUnits}.

Definition DEFAULT_SCHEMA_FETCH_RETRY_INITIAL_BACKOFF : Time := millis 10.
Definition DEFAULT_SCHEMA_FETCH_RETRY_MAX_BACKOFF : Time := secs 1.

Definition default_retry_policy : SchemaFetchRetryPolicy :=
  mkPolicy DEFAULT_SCHEMA_FETCH_RETRY_INITIAL_BACKOFF DEFAULT_SCHEMA_FETCH_RETRY_MAX_BACKOFF.

Record CacheConfig := mkCacheConfig {
  cc_mode : RegisterMode;
  cc_fetch_retry_policy : SchemaFetchRetryPolicy;
}.

Definition default_cache_config : CacheConfig := mkCacheConfig AutoRegister default_retry_policy.

Record SchemaCache := mkSchemaCache {
  sc_client : RegistryApi;
  sc_config : CacheConfig;
  sc_inner : Inner;
}.

Definition cache_new (client : RegistryApi) (config : CacheConfig) : SchemaCache :=
  mkSchemaCache client config inner_default.

(** [subject]: the strategy is always [TopicNameStrategy]. *)
Definition cache_subject (c : SchemaCache) (topic : string) (role : Role) : string :=
  topic_subject topic role.

Definition fetch_retry_policy (c : SchemaCache) : SchemaFetchRetryPolicy :=
  cc_fetch_retry_policy (sc_config c).

(** The caches of the process, each behind its [Arc], and the default one. *)
Record Process := mkProcess {
  caches : gmap nat SchemaCache;
  DEFAULT_REGISTRY : option nat;
}.

Definition new_cache (client : RegistryApi) (config : CacheConfig) (p : Process) : nat * Process :=
  let c := fresh (dom (caches p)) in
  (c, mkProcess (<[ c := cache_new client config ]> (caches p)) (DEFAULT_REGISTRY p)).

Definition install_default (c : nat) (p : Process) : Process :=
  mkProcess (caches p) (set_default_registry c (DEFAULT_REGISTRY p)).

Definition default_registry (p : Process) : option nat := DEFAULT_REGISTRY p.

Definition inner_of (c : nat) (p : Process) : option Inner := sc_inner <$> caches p !! c.

Definition set_inner (g : Inner) (c : SchemaCache) : SchemaCache :=
  mkSchemaCache (sc_client c) (sc_config c) g.

Definition on_inner (c : nat) (f : Inner → Inner) (p : Process) : Process :=
  mkProcess (alter (λ x, set_inner (f (sc_inner x)) x) c (caches p)) (DEFAULT_REGISTRY p).

Lemma inner_of_on_inner c f p c' :
  inner_of c' (on_inner c f p) = if decide (c = c') then f <$> inner_of c p else inner_of c' p.
Proof.
  unfold inner_of, on_inner. cbn [caches]. case_decide as Hc.
  - subst. rewrite lookup_alter_eq. by destruct (caches p !! c').
  - by rewrite lookup_alter_ne.
Qed.

(** ** The traits *)

Class SchemaSubject (S : Type) := register_subject : S → string → Process → Process.

Class SchemaSerializer (S T : Type) :=
  serialize : S → string → T → Process → result SchemaSerdeError (list Z).

(** The answer, the process it leaves, and the fetch it starts. *)
Class SchemaDeserializer (S T : Type) :=
  deserialize : S → string → list Z → Z → Process → result SchemaSerdeError T * Process * option Z.

(** The caches behind an [Arc] are always there; a process without one answers so. *)
Definition no_cache {A} : result SchemaSerdeError A := Err (SchemaError "unreachable: no such cache").

(** [self.binding.cache] read by a serializer, and read and left by a deserializer. *)
Definition with_inner {A} (c : nat) (f : Inner → result SchemaSerdeError A) (p : Process)
    : result SchemaSerdeError A :=
  match inner_of c p with Some g => f g | None => no_cache end.

Definition through_inner {A} (c : nat) (f : Inner → Read A) (p : Process)
    : result SchemaSerdeError A * Process * option Z :=
  match inner_of c p with
  | Some g => let '(r, g', task) := f g in (r, on_inner c (λ _, g') p, task)
  | None => (no_cache, p, None)
  end.

(** ** Avro *)

Section avro.
Context `{AvroDatum} (T : Type) `{!AvroType T}.

Record AvroSerde := mkAvroSerde { as_cache : nat; as_binding : Binding; as_reader_schema : avro_schema }.

Definition AvroSerde_make (c : nat) (role : Role) : AvroSerde := mkAvroSerde c (avro_make role) get_schema.
Definition AvroSerde_value (c : nat) : AvroSerde := AvroSerde_make c Value.
Definition AvroSerde_key (c : nat) : AvroSerde := AvroSerde_make c Key.
Definition AvroSerde_with_references (references : list SchemaReference) (s : AvroSerde) : AvroSerde :=
  mkAvroSerde (as_cache s) (with_references references (as_binding s)) (as_reader_schema s).

(** [Default]; [None] is its panic. *)
Definition AvroSerde_default (p : Process) : option AvroSerde := AvroSerde_value <$> default_registry p.

#[global] Instance avro_subject : SchemaSubject AvroSerde := λ s topic,
  on_inner (as_cache s) (binding_register (as_binding s) topic).
#[global] Instance avro_serializer : SchemaSerializer AvroSerde T := λ s topic value,
  with_inner (as_cache s) (avro_serialize (as_binding s) topic value).
#[global] Instance avro_deserializer : SchemaDeserializer AvroSerde T := λ s _ bytes now,
  through_inner (as_cache s) (avro_deserialize bytes now).
End avro.

(** ** JSON *)

Section json.
Context `{JsonText} `{JsonValidation} (T : Type) `{!JsonType T}.

Record JsonSerde := mkJsonSerde { js_cache : nat; js_binding : Binding; js_validate : bool }.

Definition JsonSerde_make (c : nat) (role : Role) (validate : bool) : JsonSerde :=
  mkJsonSerde c (json_make role) validate.
Definition JsonSerde_value (c : nat) (validate : bool) : JsonSerde := JsonSerde_make c Value validate.
Definition JsonSerde_key (c : nat) (validate : bool) : JsonSerde := JsonSerde_make c Key validate.
Definition JsonSerde_with_references (references : list SchemaReference) (s : JsonSerde) : JsonSerde :=
  mkJsonSerde (js_cache s) (with_references references (js_binding s)) (js_validate s).
Definition JsonSerde_default (p : Process) : option JsonSerde :=
  (λ c, JsonSerde_value c false) <$> default_registry p.

#[global] Instance json_subject : SchemaSubject JsonSerde := λ s topic,
  on_inner (js_cache s) (binding_register (js_binding s) topic).
#[global] Instance json_serializer : SchemaSerializer JsonSerde T := λ s topic value,
  with_inner (js_cache s) (json_serialize (js_binding s) topic value).
#[global] Instance json_deserializer : SchemaDeserializer JsonSerde T := λ s _ bytes now,
  through_inner (js_cache s) (json_deserialize (js_validate s) bytes now).
End json.

(** ** Protobuf *)

Section protobuf.
Context `{ProtoLib} (T : Type) `{!ProtoType T}.

Record ProtobufSerde := mkProtobufSerde { pb_cache : nat; pb_binding : Binding; pb_message_index : list Z }.

Definition ProtobufSerde_make (c : nat) (role : Role) : option ProtobufSerde :=
  '(b, index) ← protobuf_make role; Some (mkProtobufSerde c b index).
Definition ProtobufSerde_value (c : nat) : option ProtobufSerde := ProtobufSerde_make c Value.
Definition ProtobufSerde_key (c : nat) : option ProtobufSerde := ProtobufSerde_make c Key.
Definition ProtobufSerde_with_references (references : list SchemaReference) (s : ProtobufSerde)
    : ProtobufSerde :=
  mkProtobufSerde (pb_cache s) (with_references references (pb_binding s)) (pb_message_index s).
Definition ProtobufSerde_default (p : Process) : option ProtobufSerde :=
  c ← default_registry p; ProtobufSerde_value c.

#[global] Instance protobuf_subject : SchemaSubject ProtobufSerde := λ s topic,
  on_inner (pb_cache s) (binding_register (pb_binding s) topic).
#[global] Instance protobuf_serializer : SchemaSerializer ProtobufSerde T := λ s topic value,
  with_inner (pb_cache s) (protobuf_serialize (pb_binding s) (pb_message_index s) topic value).
#[global] Instance protobuf_deserializer : SchemaDeserializer ProtobufSerde T := λ s _ bytes _,
  through_inner (pb_cache s) (λ g, pure_read (protobuf_deserialize bytes g) g).
End protobuf.

(** ** What a client relies on *)

(** A serde is a binding on a cache: it interns its binding there, and frames the
    body of a value under the id found there. *)
Class SerdeLaws (S T : Type) `{!SchemaSubject S} `{!SchemaSerializer S T} := {
  serde_cache : S → nat;
  serde_binding : S → Binding;
  serde_frame : S → T → result SchemaSerdeError (Z → list Z);
  register_law : ∀ s topic p,
    register_subject s topic p = on_inner (serde_cache s) (binding_register (serde_binding s) topic) p;
  serialize_law : ∀ s topic (v : T) p, serialize s topic v p =
    with_inner (serde_cache s) (λ g,
      id ← binding_id (serde_binding s) topic g; frame ← serde_frame s v; Ok (frame id)) p;
}.

#[global] Instance avro_laws `{AvroDatum} T `{!AvroType T} : SerdeLaws AvroSerde T.
Proof.
  refine {| serde_cache := as_cache; serde_binding := as_binding;
            serde_frame := λ _ v, avro ← map_error SerializeError (to_value v);
              body ← map_error SerializeError (write_value get_schema avro); Ok (λ id, encode id body) |}.
  - done.
  - intros s topic v p. unfold serialize, avro_serializer, with_inner. destruct (inner_of _ p) as [g|]; [|done].
    unfold avro_serialize. destruct (binding_id _ _ _); [cbn|done].
    destruct (map_error _ (to_value v)); [cbn|done]. by destruct (map_error _ _).
Defined.

#[global] Instance json_laws T `{!JsonType T} : SerdeLaws JsonSerde T.
Proof.
  refine {| serde_cache := js_cache; serde_binding := js_binding;
            serde_frame := λ _ v, body ← map_error SerializeError (to_vec v); Ok (λ id, encode id body) |}.
  - done.
  - intros s topic v p. unfold serialize, json_serializer, with_inner. destruct (inner_of _ p) as [g|]; [|done].
    unfold json_serialize. destruct (binding_id _ _ _); [cbn|done]. by destruct (map_error _ _).
Defined.

#[global] Instance protobuf_laws T `{!ProtoType T} : SerdeLaws ProtobufSerde T.
Proof.
  refine {| serde_cache := pb_cache; serde_binding := pb_binding;
            serde_frame := λ s v, Ok (λ id, encode_protobuf id (pb_message_index s) (encode_to_vec v)) |}.
  - done.
  - intros s topic v p. unfold serialize, protobuf_serializer, with_inner.
    destruct (inner_of _ p) as [g|]; [|done]. unfold protobuf_serialize. by destruct (binding_id _ _ _).
Defined.

Section clients.
Context {V D : Type} `{EqDecision V} `{EqDecision D} (json_of : string → option V) (proto_of : string → option D).

(** [SchemaCache::prewarm] of one cache. *)
Definition prewarm_cache (c : nat) (p : Process) : Process * result SchemaSerdeError unit :=
  match caches p !! c with
  | Some x =>
      let '(g, r) := prewarm json_of proto_of (sc_client x) (cc_mode (sc_config x)) (sc_inner x) in
      (on_inner c (λ _, g) p, r)
  | None => (p, no_cache)
  end.

(** Proved once for every serde: after its topic is registered and its cache is
    pre-warmed, a serde writes every value its codec encodes, framed under one
    id, whoever holds the cache. *)
Lemma registered_serde_writes {S T} `{SerdeLaws S T} s topic p p' :
  is_Some (caches p !! serde_cache s) →
  prewarm_cache (serde_cache s) (register_subject s topic p) = (p', Ok ()) →
  ∃ id, ∀ v : T, serialize s topic v p' = (frame ← serde_frame s v; Ok (frame id)).
Proof.
  intros [x Hx] Hw. rewrite register_law in Hw. unfold prewarm_cache in Hw.
  unfold on_inner in Hw at 1. cbn [caches] in Hw. rewrite lookup_alter_eq, Hx in Hw. cbn [fmap option_fmap option_map] in Hw.
  cbn [set_inner sc_client sc_config sc_inner] in Hw.
  destruct (prewarm _ _ _ _ _) as [g r] eqn:Hp. injection Hw as <- ->. unfold prewarm in Hp.
  destruct (prewarm_all_result _ _ _ _ _ _ _ _ Hp _ (intern_elem (binding_interned (serde_binding s) topic) _))
    as [(j & id & w & mt & _ & _ & _ & Hid) _].
  exists id. intros v. rewrite serialize_law. unfold with_inner. rewrite inner_of_on_inner, decide_True by done.
  rewrite inner_of_on_inner, decide_True by done. unfold inner_of. rewrite Hx. cbn [fmap option_fmap option_map].
  unfold binding_id, id_for_subject. cbn [binding_interned in_subject] in Hid. by rewrite Hid.
Qed.

(** The first default wins, and a default serde is the value serde on it. *)
Lemma default_serde_shares `{AvroDatum} T `{!AvroType T} `{!JsonType T} c c' p :
  default_registry p = None →
  AvroSerde_default T p = None ∧
  AvroSerde_default T (install_default c' (install_default c p)) = Some (AvroSerde_value T c) ∧
  JsonSerde_default T (install_default c p) = Some (JsonSerde_value T c false).
Proof. unfold AvroSerde_default, JsonSerde_default, install_default, default_registry. simpl. by intros ->. Qed.
End clients.
End config.

(** ** Feature gates *)

(** The formats compiled into a build. *)
Record Features := mkFeatures { feature_avro : bool; feature_protobuf : bool; feature_json : bool }.

Definition compiled (f : Features) (kind : SchemaKind) : bool :=
  match kind with KAvro => feature_avro f | KProtobuf => feature_protobuf f | KJson => feature_json f end.

Definition not_compiled (kind : SchemaKind) : SchemaSerdeError :=
  SchemaError (kind_debug kind +:+ " body validation is not compiled into this build").

Section gates.
Context `{AvroDatum} `{JsonText} `{JsonValidation} `{ProtoReflect}.

(** The shims of [dispatch]. *)
Definition dispatch_avro (f : Features) (schema : string) (body : list Z) : result SchemaSerdeError unit :=
  if feature_avro f then validate_avro schema body else Err (not_compiled KAvro).
Definition dispatch_protobuf (f : Features) (schema : string) (message_index body : list Z)
    : result SchemaSerdeError unit :=
  if feature_protobuf f then validate_protobuf schema message_index body else Err (not_compiled KProtobuf).
Definition dispatch_json (f : Features) (schema : string) (body : list Z) : result SchemaSerdeError unit :=
  if feature_json f then validate_json schema body else Err (not_compiled KJson).

Definition validate_body_in (f : Features) (kind : SchemaKind) (schema : string) (message_index body : list Z)
    : result SchemaSerdeError unit :=
  match kind with
  | KAvro => dispatch_avro f schema body
  | KProtobuf => dispatch_protobuf f schema message_index body
  | KJson => dispatch_json f schema body
  end.

(** A body passes only if its format is compiled in and it conforms. *)
Lemma validate_body_gated f kind schema message_index body :
  validate_body_in f kind schema message_index body =
  if compiled f kind then validate_body kind schema message_index body else Err (not_compiled kind).
Proof. by destruct f as [[] [] []], kind. Qed.
End gates.
