(* ===== verification/Clients.v ===== *)
(** * The broker clients of a node (kafkastore/writer.rs, kafkastore/reader.rs,
    election/client.rs)

    How a node builds its producers and its coordinator connection from the
    configuration, and the connections of the election loop: every way out of an
    attempt gives its connections back. krabka's client library is the environment:
    what it answers is the attempt's data. *)

From stdpp Require Import base gmap strings list pretty.
From Stdlib Require Import ZArith Lia.
From S2P Require Import Prelude Text Json Types Record KafkaStore Election Cache Config ServerArgs.

#[local] Open Scope Z_scope.

(** ** Policies *)

Section options.
Context `{ConfigUnits}.

Record ElectionPolicy := mkElectionPolicy {
  ep_session_timeout : Time;
  ep_rebalance_timeout : Time;
  ep_heartbeat_interval : Time;
  ep_reconnect_backoff : Time;
}.

Definition election_policy (runtime : RegistryRuntimeConfig) : ElectionPolicy :=
  mkElectionPolicy (rt_election_session_timeout runtime) (rt_election_rebalance_timeout runtime)
    (rt_election_heartbeat_interval runtime) (rt_election_reconnect_backoff runtime).

Record ReaderPolicy := mkReaderPolicy {
  rp_retry_backoff : Time;
  rp_fetch_max_wait : Time;
  rp_fetch_max : ByteSize;
}.

Definition reader_policy (runtime : RegistryRuntimeConfig) : ReaderPolicy :=
  mkReaderPolicy (rt_store_reader_retry_backoff runtime) (rt_store_reader_fetch_max_wait runtime)
    (rt_store_reader_fetch_max runtime).

(** ** Producers *)

Inductive Acks := AcksNone | AcksLeader | AcksAll.

(** What [Producer::builder] is given. *)
Record ProducerOptions := mkProducerOptions {
  po_bootstrap : string;
  po_client_id : string;
  po_transactional_id : option string;
  po_dispatch_queue_capacity : Z;
  po_frame_max : ByteSize;
  po_enable_idempotence : bool;
  po_acks : Acks;
  po_security : option ClientSecurity;
}.

Definition writer_producer (cfg : RegistryConfig) (security : option ClientSecurity) : ProducerOptions :=
  mkProducerOptions (rc_bootstrap cfg) (rc_client_id cfg +:+ "-writer") None
    (rt_dispatch_queue_capacity (rc_runtime cfg)) (rt_client_frame_max (rc_runtime cfg)) true AcksAll security.

Definition fenced_producer (cfg : RegistryConfig) : ProducerOptions :=
  mkProducerOptions (rc_bootstrap cfg) (rc_client_id cfg +:+ "-fenced-writer")
    (Some ("krabka-schema-registry-" +:+ rc_group_id cfg))
    (rt_dispatch_queue_capacity (rc_runtime cfg)) (rt_client_frame_max (rc_runtime cfg)) true AcksAll
    (sc_client (rc_security cfg)).

Record SchemaWriter (P : Type) := mkSchemaWriter {
  sw_producer : P;
  sw_fenced_producer : P;
  sw_fenced_generation : option Z;
  sw_topic : string;
  sw_timeout : Time;
}.
#[global] Arguments mkSchemaWriter {P}.
#[global] Arguments sw_producer {P}.
#[global] Arguments sw_fenced_producer {P}.
#[global] Arguments sw_fenced_generation {P}.
#[global] Arguments sw_topic {P}.
#[global] Arguments sw_timeout {P}.

(** [SchemaWriter::start]; [build] is the client library's builder. *)
Definition writer_start {P} (build : ProducerOptions → result string P) (cfg : RegistryConfig)
    (security : option ClientSecurity) : result string (SchemaWriter P) :=
  producer ← build (writer_producer cfg security);
  fenced ← build (fenced_producer cfg);
  Ok (mkSchemaWriter producer fenced None (rc_schemas_topic cfg) (rt_store_timeout (rc_runtime cfg))).

(** Nodes fence each other exactly when they are of one election group: their
    fenced producers have the same transactional id. The plain producer has none,
    and both wait for all replicas. *)
Lemma fenced_producers_shared cfg cfg' security :
  (po_transactional_id (fenced_producer cfg) = po_transactional_id (fenced_producer cfg') ↔
     rc_group_id cfg = rc_group_id cfg') ∧
  po_transactional_id (writer_producer cfg security) = None ∧
  po_acks (writer_producer cfg security) = AcksAll ∧ po_acks (fenced_producer cfg) = AcksAll.
Proof.
  split_and!; [|done..]. simpl. split; [|by intros ->]. by intros [= Heq].
Qed.
End options.

(** ** The coordinator *)

Record FindCoordinatorResponse := mkFindCoordinator {
  fc_coordinators : list (string * Z);
  fc_host : string;
  fc_port : Z;
}.

(** The first coordinator of the list if it has a host, else the top-level one. *)
Definition coordinator_address (fc : FindCoordinatorResponse) : option (string * Z) :=
  match head (fc_coordinators fc) with
  | Some (host, port) =>
      if String.eqb host "" then
        (if String.eqb (fc_host fc) "" then None else Some (fc_host fc, fc_port fc))
      else Some (host, port)
  | None => if String.eqb (fc_host fc) "" then None else Some (fc_host fc, fc_port fc)
  end.

(** The open connections, and how many were ever made. *)
Record Net := mkNet { n_open : gset nat; n_made : nat }.

Definition open_client (net : Net) : nat * Net :=
  (n_made net, mkNet ({[ n_made net ]} ∪ n_open net) (S (n_made net))).

Definition close_client (c : nat) (net : Net) : Net := mkNet (n_open net ∖ {[ c ]}) (n_made net).

(** What the brokers answer to one attempt: whether the bootstrap client is built,
    the answer to [FindCoordinator], whether the coordinator's client is built, and
    the answers of the session. *)
Record Attempt := mkAttempt {
  at_bootstrap : result string unit;
  at_find : result string FindCoordinatorResponse;
  at_coordinator : string → result string unit;
  at_events : list ElectionEvent;
}.

(** [connect_coordinator]: the bootstrap client is closed before its answer is looked at. *)
Definition connect_coordinator (group : string) (a : Attempt) (net : Net) : result string nat * Net :=
  match at_bootstrap a with
  | Err e => (Err e, net)
  | Ok _ =>
      let '(boot, net) := open_client net in
      let fc := at_find a in
      let net := close_client boot net in
      match fc with
      | Err e => (Err e, net)
      | Ok fc =>
          match coordinator_address fc with
          | None => (Err ("no coordinator for group " +:+ group), net)
          | Some (host, port) =>
              match at_coordinator a (host +:+ ":" +:+ pretty port) with
              | Err e => (Err e, net)
              | Ok _ => let '(c, net) := open_client net in (Ok c, net)
              end
          end
      end
  end.

Section session.
Context `{SerdeJson}.

(** [run_session]: joins and heartbeats until an error or the cancellation ends it. *)
Fixpoint run_session (n : Node) (events : list ElectionEvent) : Node :=
  match nd_phase n, events with
  | (Joining | Heartbeating _), ev :: events => run_session (node_step n ev) events
  | _, _ => n
  end.

Definition session_over (n : Node) : bool :=
  match nd_phase n with Connecting | Stopped => true | _ => false end.

(** [connect_and_run]: the node and the network when the session has ended, or where
    it stands. *)
Definition connect_and_run (group : string) (a : Attempt) (n : Node) (net : Net) : Node * Net :=
  match connect_coordinator group a net with
  | (Err _, net) => (node_step n (EvConnect false), net)
  | (Ok coord, net) =>
      let n := run_session (node_step n (EvConnect true)) (at_events a) in
      (n, if session_over n then close_client coord net else net)
  end.

(** [run]: attempts until the node is stopped; the last one may still be going on. *)
Fixpoint run (group : string) (attempts : list Attempt) (n : Node) (net : Net) : Node * Net :=
  match attempts with
  | [] => (n, net)
  | a :: attempts =>
      match nd_phase n with
      | Connecting => let '(n, net) := connect_and_run group a n net in run group attempts n net
      | _ => (n, net)
      end
  end.

Definition net_wf (net : Net) : Prop := ∀ c, c ∈ n_open net → (c < n_made net)%nat.

Lemma open_close net :
  net_wf net → n_open (close_client (open_client net).1 (open_client net).2) = n_open net.
Proof.
  intros Hw. unfold open_client, close_client. cbn [fst snd n_open]. apply set_eq. intros c.
  rewrite elem_of_difference, elem_of_union, elem_of_singleton. split; [naive_solver|].
  intros Hc. split; [by right|]. apply Hw in Hc. lia.
Qed.

Lemma open_wf net : net_wf net → net_wf (open_client net).2.
Proof.
  intros Hw c. cbn [open_client snd n_open n_made]. rewrite elem_of_union, elem_of_singleton.
  intros [->|Hc]; [lia|]. apply Hw in Hc. lia.
Qed.

Lemma close_wf c net : net_wf net → net_wf (close_client c net).
Proof. intros Hw c'. cbn [close_client n_open n_made]. rewrite elem_of_difference. intros [Hc _]. by apply Hw. Qed.

Lemma connect_coordinator_net group a net r net' :
  net_wf net → connect_coordinator group a net = (r, net') →
  net_wf net' ∧
  match r with
  | Ok c => n_open net' = {[ c ]} ∪ n_open net ∧ c ∉ n_open net
  | Err _ => n_open net' = n_open net
  end.
Proof.
  intros Hw. unfold connect_coordinator. destruct (at_bootstrap a); [|intros [= <- <-]; done].
  pose proof (open_close net Hw) as Ho. pose proof (close_wf (open_client net).1 _ (open_wf _ Hw)) as Hc.
  destruct (open_client net) as [boot net1]. cbn [fst snd] in Ho, Hc.
  destruct (at_find a) as [fc|e]; [|by intros [= <- <-]].
  destruct (coordinator_address fc) as [[host port]|]; [|by intros [= <- <-]].
  destruct (at_coordinator a _); [|by intros [= <- <-]].
  intros [= <- <-]. split; [by apply (open_wf (close_client boot net1))|].
  cbn [open_client fst snd n_open]. rewrite <-Ho. split; [done|].
  intros Hin. apply Hc in Hin. cbn in Hin. lia.
Qed.

(** Whatever the brokers answer, the election leaks no connection: when an attempt
    is over the open connections are those there were, and while a session is going
    on there is exactly one more. *)
Lemma run_leaks_nothing group attempts n net n' net' :
  net_wf net → session_over n = true → run group attempts n net = (n', net') →
  if session_over n' then n_open net' = n_open net
  else ∃ c, c ∉ n_open net ∧ n_open net' = {[ c ]} ∪ n_open net.
Proof.
  revert n net. induction attempts as [|a attempts IH]; intros n net Hw Hn; cbn [run].
  { intros [= <- <-]. by rewrite Hn. }
  unfold session_over in Hn. destruct (nd_phase n) eqn:Hp; try done.
  2: { intros [= <- <-]. unfold session_over. by rewrite Hp. }
  unfold connect_and_run. destruct (connect_coordinator group a net) as [r net1] eqn:Hc.
  apply connect_coordinator_net in Hc as [Hw1 Hc]; [|done].
  destruct r as [c|e].
  - destruct Hc as [Ho Hnew]. set (n1 := run_session _ _). destruct (session_over n1) eqn:Hs.
    + intros Hrun. apply IH in Hrun; [|by apply close_wf|done].
      assert (n_open (close_client c net1) = n_open net) as <-; [|done].
      cbn [close_client n_open]. rewrite Ho. set_solver.
    + intros Hrun. assert (run group attempts n1 net1 = (n1, net1)) as Hstay.
      { destruct attempts; [done|]. cbn [run]. unfold session_over in Hs. by destruct (nd_phase n1). }
      rewrite Hstay in Hrun. injection Hrun as <- <-. rewrite Hs. eauto.
  - intros Hrun. apply IH in Hrun; [by rewrite Hc in Hrun|done|].
    unfold session_over, node_step. by rewrite Hp.
Qed.
End session.
