(* ===== verification/Slots.v ===== *)
(** * The slots of the [_schemas] topic (kafkastore/record.rs)

    Every record writes one slot of the registry: the entry of a version, the
    deleted flags of a subject, a compatibility level, a mode, or a subject's
    next version. The key of a record names its slot, and the encoders give a
    slot one key ([slot_key]): what log compaction and the writes rely on. *)

From stdpp Require Import base gmap strings list pretty.
From Stdlib Require Import ZArith Lia.
From S2P Require Import Prelude Json Types Store Record RecordFacts Reader KafkaStore KafkaFacts.

(** ** Slots *)

(** What a record writes. *)
Inductive slot :=
  | SVersion (subject : string) (version : Z)
  | SFlags (subject : string)
  | SCompat (subject : option string)
  | SMode (subject : option string)
  | SNext (subject : string)
  | SNone.

#[global] Instance slot_eq_dec : EqDecision slot.
Proof. solve_decision. Defined.

Definition record_slot (rec : SchemaRecord) : slot :=
  match rec with
  | RSchema _ v => SVersion (sv_subject v) (sv_version v)
  | RTombstone k => SVersion (sk_subject k) (sk_version k)
  | RDeleteSubject k _ => SFlags (dk_subject k)
  | RVersionHighWater k _ => SNext (vk_subject k)
  | RMode k _ => SMode (mk_subject k)
  | RConfig k v =>
      match ck_subject k, v with
      | None, None => SNone
      | o, _ => SCompat o
      end
  | RNoop | RUnknown _ | RUndecodable _ => SNone
  end.

Section keys.
Context `{SerdeJson}.

(** The slot a key names, whatever its value. *)
Definition key_slot (key : string) : slot :=
  match from_slice_value key ≫= (λ kv, json_get kv "keytype" ≫= as_str) with
  | None => SNone
  | Some keytype =>
    if String.eqb keytype "SCHEMA" then
      from_option (λ k, SVersion (sk_subject k) (sk_version k)) SNone (from_slice de_SchemaKey key)
    else if String.eqb keytype "CONFIG" then
      from_option (λ k, SCompat (ck_subject k)) SNone (from_slice de_ConfigKey key)
    else if String.eqb keytype "MODE" then
      from_option (λ k, SMode (mk_subject k)) SNone (from_slice de_ModeKey key)
    else if String.eqb keytype "DELETE_SUBJECT" then
      from_option (λ k, SFlags (dk_subject k)) SNone (from_slice de_DeleteSubjectKey key)
    else if String.eqb keytype "NOOP" then
      from_option (λ k, SNext (vk_subject k)) SNone (from_slice de_VersionHighWaterKey key)
    else SNone
  end.

(** The record writes the slot its key names: its value decodes, agrees with
    the key, and is not a null the decoder ignores. *)
Definition effective (r : kv) : Prop := record_slot (decode r.1 r.2) = key_slot r.1.
#[global] Instance effective_dec r : Decision (effective r).
Proof. unfold effective. apply _. Defined.

(** The key the encoders write a slot under. *)
Definition slot_key (k : slot) : string :=
  match k with
  | SVersion subject version => encode_tombstone subject version
  | SFlags subject => (encode_delete_subject subject 0).1
  | SCompat o => config_key o
  | SMode o => mode_key o
  | SNext subject => (encode_version_high_water subject 0).1
  | SNone => ""
  end.

(** The record takes effect, under the one key of its slot. *)
Definition canonical (r : kv) : Prop :=
  effective r ∧ (key_slot r.1 ≠ SNone → r.1 = slot_key (key_slot r.1)).
#[global] Instance canonical_dec r : Decision (canonical r).
Proof. unfold canonical. apply _. Defined.
End keys.

(** ** The encoders write canonical records *)

Section encoders.
Context `{SerdeJsonLaws}.

Lemma key_slot_version subject version :
  in_i32 version → key_slot (encode_tombstone subject version) = SVersion subject version.
Proof.
  intros Hv. unfold key_slot, encode_tombstone.
  destruct (schema_key_roundtrip subject version Hv) as [-> Hk]. simpl. by rewrite Hk.
Qed.

Lemma key_slot_compat o : key_slot (config_key o) = SCompat o.
Proof.
  unfold key_slot, config_key, ser_ConfigKey. cbn [ck_keytype ck_subject ck_magic].
  rewrite from_slice_value_print by (by destruct o). simpl.
  rewrite from_slice_print by (by destruct o). unfold de_ConfigKey. by rewrite opt_key_roundtrip.
Qed.

Lemma key_slot_mode o : key_slot (mode_key o) = SMode o.
Proof.
  unfold key_slot, mode_key, ser_ModeKey. cbn [mk_keytype mk_subject mk_magic].
  rewrite from_slice_value_print by (by destruct o). simpl.
  rewrite from_slice_print by (by destruct o). unfold de_ModeKey. by rewrite opt_key_roundtrip.
Qed.

Lemma key_slot_flags subject v : key_slot (encode_delete_subject subject v).1 = SFlags subject.
Proof.
  unfold key_slot, encode_delete_subject. cbn [fst]. rewrite from_slice_value_print by done. simpl.
  by rewrite from_slice_print by done.
Qed.

Lemma key_slot_next subject n : key_slot (encode_version_high_water subject n).1 = SNext subject.
Proof.
  unfold key_slot, encode_version_high_water. cbn [fst]. rewrite from_slice_value_print by done. simpl.
  by rewrite from_slice_print by done.
Qed.

(** A record whose key is its slot's, and that decodes to that slot. *)
Lemma canonical_intro key value rec k :
  decode key value = rec → record_slot rec = k → key_slot key = k → key = slot_key k →
  canonical (key, value).
Proof. unfold canonical, effective. cbn [fst snd]. intros -> -> -> ?. done. Qed.
End encoders.
