(* ===== verification/Program.v ===== *)
(** * The writes of the facade as programs (kafkastore/mod.rs, kafkastore/writer.rs)

    [KafkaStore] gives every write as a function of one node's world, run to
    its end. To let several nodes take turns, this file gives the same writes
    as programs: trees whose nodes are the calls the code awaits (the election
    watch, the gate, the producers, the reader, the read lock) and whose
    branches are the answers. [interp] runs a program against one world, and
    the lemmas of the last section show that each program, so run, is the
    operation of [KafkaStore]. *)

From stdpp Require Import base gmap strings list pretty.
From Stdlib Require Import ZArith.
From S2P Require Import Prelude Json Types Store Record Compat Reader KafkaStore.

#[local] Existing Instance M_ret.
#[local] Existing Instance M_bind.

(** ** Calls and programs *)

Section programs.
Context `{SchemaFormat} `{SerdeJson} `{UuidLib}.

(** A call, indexed by its answer. A call that can fail answers a [result]. *)
Inductive call : Type → Type :=
  | CPrimary : call (option PrimaryState)
  | CGroup : call string
  | CFenced : call (option Z)
  | CAwait : call (result SrError unit)
  | CAbort : call unit
  | CInit (generation : Z) : call (result SrError unit)
  | CBarrier : call (result SrError (Uuid * nat))
  | CApplied (n : nat) : call (result SrError unit)
  | CFinish (token : Uuid) : call (result SrError unit)
  | CRead : call StoreState
  | CNote (r : kv) : call unit
  | CSend (group : option ConsumerGroupMetadata) (r : kv) : call (result SrError unit).

Inductive prog (A : Type) : Type :=
  | PRet (r : result SrError A)
  | PCall (X : Type) (c : call X) (k : X → prog A).

#[global] Arguments PRet {A} r.
#[global] Arguments PCall {A X} c k.

Fixpoint pbind {A B} (p : prog A) (f : A → prog B) : prog B :=
  match p with
  | PRet (Ok a) => f a
  | PRet (Err e) => PRet (Err e)
  | PCall c k => PCall c (λ x, pbind (k x) f)
  end.

#[global] Instance prog_ret : MRet prog := λ A a, PRet (Ok a).
#[global] Instance prog_bind : MBind prog := λ A B f p, pbind p f.

(** A call that cannot fail, a call that can, and a pure result. *)
Definition ask {X} (c : call X) : prog X := PCall c (λ x, PRet (Ok x)).
Definition try_call {X} (c : call (result SrError X)) : prog X := PCall c PRet.
Definition pfail {A} (e : SrError) : prog A := PRet (Err e).
Definition plift {A} (r : result SrError A) : prog A := PRet r.

(** ** The writer *)

(** [transaction.abort()] when a step before the commit fails. *)
Definition abort_try (p : call (result SrError unit)) : prog unit :=
  PCall p (λ x, match x with
                | Ok u => PRet (Ok u)
                | Err e => PCall CAbort (λ _, PRet (Err e))
                end).

Definition produce_fenced_prog (r : kv) (group : ConsumerGroupMetadata) : prog unit :=
  _ ← try_call CAwait;
  _ ← abort_try CAwait;
  _ ← abort_try CAwait;
  try_call (CSend (Some group) r).

Definition fence_prog (group : ConsumerGroupMetadata) : prog unit :=
  fenced ← ask CFenced;
  if bool_decide (fenced = Some (cg_generation_id group)) then mret tt
  else try_call (CInit (cg_generation_id group)).

Definition produce_prog (key : string) (value : option string)
    (group : option ConsumerGroupMetadata) : prog unit :=
  _ ← ask (CNote (key, value));
  match group with
  | Some group => produce_fenced_prog (key, value) group
  | None => try_call (CSend None (key, value))
  end.

(** ** Barriers, the gate and the election *)

Definition await_barrier_prog (barrier : Uuid * nat) : prog unit :=
  _ ← try_call (CApplied barrier.2); try_call (CFinish barrier.1).

Definition await_applied_prog : prog unit :=
  barrier ← try_call CBarrier; await_barrier_prog barrier.

Definition prepare_write_prog : prog (option ConsumerGroupMetadata) :=
  primary ← ask CPrimary;
  match primary with
  | None => barrier ← try_call CBarrier; _ ← await_barrier_prog barrier; mret None
  | Some before =>
    match ps_generation_id before, ps_member_id before with
    | Some generation_id, Some member_id =>
      if negb (ps_is_primary before) then
        pfail (UnknownLeader "node is not the elected primary")
      else
        group_id ← ask CGroup;
        let group := mkGroup group_id generation_id member_id in
        _ ← fence_prog group;
        barrier ← try_call CBarrier;
        _ ← await_barrier_prog barrier;
        after ← ask CPrimary;
        match after with
        | Some after =>
          if negb (ps_is_primary after) || negb (bool_decide (ps_generation_id after = Some generation_id))
             || negb (bool_decide (ps_member_id after = Some member_id))
          then pfail (UnknownLeader "primary election changed while synchronizing the schema store")
          else mret (Some group)
        | None => pfail (UnknownLeader "primary election changed while synchronizing the schema store")
        end
    | _, _ => pfail (UnknownLeader "node is not the elected primary")
    end
  end.

Definition begin_write_prog : prog (option ConsumerGroupMetadata) :=
  _ ← try_call CAwait; prepare_write_prog.

Definition publish_prog (r : kv) (primary : option ConsumerGroupMetadata) : prog unit :=
  _ ← produce_prog r.1 r.2 primary; await_applied_prog.

Definition ensure_writable_prog (subject : string) : prog unit :=
  s ← ask CRead;
  if String.eqb (effective_mode s subject) "READONLY" then pfail (OperationNotPermitted subject)
  else mret tt.

(** ** Registration *)

Definition register_import_prog (req : RegisterSchema) (schema : string)
    (resolved : list ResolvedReference) (primary : option ConsumerGroupMetadata) : prog Registered :=
  match rq_import_id req, rq_import_version req with
  | Some id, Some version =>
      _ ← plift (format_parse (rq_ty req) schema resolved);
      s ← ask CRead;
      conflicts ← plift (schema_id_conflicts s id (rq_ty req) schema (rq_references req)
                           (rq_message_type req));
      if (conflicts : bool) then pfail (SchemaIdConflict id)
      else
        let '(key, value) := encode_schema_with_message_type (rq_subject req) version id
          (rq_ty req) schema (rq_references req) (rq_message_type req) in
        _ ← publish_prog (key, Some value) primary;
        mret (mkRegistered id version)
  | _, _ => pfail (InvalidSchema "IMPORT mode requires explicit id and version")
  end.

Definition register_assign_prog (req : RegisterSchema) (schema : string)
    (resolved : list ResolvedReference) (primary : option ConsumerGroupMetadata) : prog Registered :=
  s ← ask CRead;
  match find_under_subject s (rq_subject req) (rq_ty req) schema (rq_references req)
          (rq_message_type req) false with
  | Some existing => mret existing
  | None =>
      s ← ask CRead;
      _ ← plift (check_registration s (rq_subject req) (rq_ty req) schema resolved);
      probe ← ask CRead;
      '(reg, _) ← plift (Store.register (rq_subject req) (rq_ty req) schema (rq_references req)
                           (rq_message_type req) probe);
      let '(key, value) := encode_schema_with_message_type (rq_subject req) (reg_version reg)
        (reg_id reg) (rq_ty req) schema (rq_references req) (rq_message_type req) in
      _ ← publish_prog (key, Some value) primary;
      mret reg
  end.

Definition register_prog (req : RegisterSchema) : prog Registered :=
  primary ← begin_write_prog;
  s ← ask CRead;
  let mode := effective_mode s (rq_subject req) in
  if String.eqb mode "READONLY" then pfail (OperationNotPermitted (rq_subject req))
  else
    s ← ask CRead;
    resolved ← plift (resolve_closure s (rq_references req));
    schema ← plift (normalized_storage_form (rq_ty req) (rq_schema req) resolved);
    if String.eqb mode "IMPORT" then register_import_prog req schema resolved primary
    else register_assign_prog req schema resolved primary.

(** ** Compatibility and mode *)

Definition set_compat_prog (subject : option string) (level : string) : prog unit :=
  primary ← begin_write_prog;
  s ← ask CRead;
  let mode := match subject with Some sj => effective_mode s sj | None => global_mode s end in
  if String.eqb mode "READONLY" then pfail (OperationNotPermitted (default "global" subject))
  else
    let '(key, value) := encode_config subject level in
    publish_prog (key, Some value) primary.

Definition delete_subject_compat_prog (subject : string) : prog (option string) :=
  primary ← begin_write_prog;
  s ← ask CRead;
  match subject_compat s subject with
  | None => mret None
  | Some level =>
      _ ← publish_prog (config_key (Some subject), None) primary;
      mret (Some level)
  end.

Definition set_global_mode_prog (mode : string) : prog unit :=
  if negb (existsb (String.eqb mode) valid_modes) then pfail (InvalidMode mode)
  else
    primary ← begin_write_prog;
    s ← ask CRead;
    if String.eqb mode "IMPORT" && negb (bool_decide (list_subjects s true = []))
    then pfail (OperationNotPermitted "registry not empty")
    else
      let '(key, value) := encode_mode None mode in
      publish_prog (key, Some value) primary.

Definition set_subject_mode_prog (subject mode : string) : prog unit :=
  if negb (existsb (String.eqb mode) valid_modes) then pfail (InvalidMode mode)
  else
    primary ← begin_write_prog;
    s ← ask CRead;
    if String.eqb mode "IMPORT" && bool_decide (is_Some (versions s subject true))
    then pfail (OperationNotPermitted subject)
    else
      let '(key, value) := encode_mode (Some subject) mode in
      publish_prog (key, Some value) primary.

Definition clear_subject_mode_prog (subject : string) : prog unit :=
  primary ← begin_write_prog;
  publish_prog (mode_key (Some subject), None) primary.

(** ** Deletion *)

Definition not_referenced_prog (subject : string) (v : Z) : prog unit :=
  s ← ask CRead;
  match referenced_by s subject v false with
  | [] => mret tt
  | _ => pfail (ReferencedByOthers (version_label subject v))
  end.

Fixpoint none_referenced_prog (subject : string) (vs : list Z) : prog unit :=
  match vs with
  | [] => mret tt
  | v :: vs => _ ← not_referenced_prog subject v; none_referenced_prog subject vs
  end.

Definition soft_delete_version_prog (subject : string) (v : Z) : prog Z :=
  primary ← begin_write_prog;
  _ ← ensure_writable_prog subject;
  s ← ask CRead;
  _ ← plift (ok_or (versions s subject true) (SubjectNotFound subject));
  found ← plift (ok_or (version s subject (Some v) true) VersionNotFound);
  _ ← not_referenced_prog subject v;
  let '(key, value) := encode_schema_deleted_with_message_type subject (vs_version found)
    (vs_id found) (vs_ty found) (vs_schema found) (vs_references found)
    (vs_message_type found, vs_extra found) in
  _ ← publish_prog (key, Some value) primary;
  mret (vs_version found).

Definition permanent_delete_version_prog (subject : string) (v : Z) : prog Z :=
  primary ← begin_write_prog;
  _ ← ensure_writable_prog subject;
  s ← ask CRead;
  _ ← plift (permanent_delete_checks s subject v);
  _ ← not_referenced_prog subject v;
  s ← ask CRead;
  let '(key, value) := encode_version_high_water subject (next_version s subject) in
  _ ← produce_prog key (Some value) primary;
  _ ← publish_prog (encode_tombstone subject v, None) primary;
  mret v.

Definition soft_delete_subject_prog (subject : string) : prog (list Z) :=
  primary ← begin_write_prog;
  _ ← ensure_writable_prog subject;
  s ← ask CRead;
  vs ← plift (soft_delete_checks s subject);
  _ ← none_referenced_prog subject vs;
  let max := match vs with [] => 0%Z | v :: vs => foldl Z.max v vs end in
  let '(key, value) := encode_delete_subject subject max in
  _ ← publish_prog (key, Some value) primary;
  mret vs.

Fixpoint produce_tombstones_prog (keys : list string) (primary : option ConsumerGroupMetadata)
    : prog unit :=
  match keys with
  | [] => mret tt
  | key :: keys => _ ← produce_prog key None primary; produce_tombstones_prog keys primary
  end.

Definition permanent_delete_subject_prog (subject : string) : prog (list Z) :=
  primary ← begin_write_prog;
  _ ← ensure_writable_prog subject;
  s ← ask CRead;
  all ← plift (permanent_subject_checks s subject);
  s ← ask CRead;
  let next := next_version s subject in
  _ ← none_referenced_prog subject all;
  let '(key, value) := encode_version_high_water subject next in
  _ ← produce_prog key (Some value) primary;
  _ ← produce_tombstones_prog ((encode_tombstone subject <$> all) ++
        [config_key (Some subject); mode_key (Some subject)]) primary;
  _ ← await_applied_prog;
  mret all.

(** ** Running a program in one world *)

Definition settle {A} (r : result SrError A) : result SrError unit :=
  match r with Ok _ => Ok tt | Err e => Err e end.

(** What each call does to the world, and what it answers. *)
Definition handle {X} (c : call X) : World → X * World :=
  match c with
  | CPrimary => λ w, (w_primary w, w)
  | CGroup => λ w, (w_election_group w, w)
  | CFenced => λ w, (w_fenced w, w)
  | CAwait => λ w, let '(r, w') := await w in (settle r, w')
  | CAbort => λ w, (tt, (interact w).2)
  | CInit g => λ w, (_ ← await; modify (set_fenced g)) w
  | CBarrier => order_barrier
  | CApplied n => λ w, (_ ← await; modify (apply_up_to n)) w
  | CFinish t => finish_barrier t
  | CRead => λ w, let w' := (interact w).2 in (live w', w')
  | CNote r => λ w, (tt, note_written r w)
  | CSend _ r => commit r
  end.

Fixpoint interp {A} (p : prog A) : M A := λ w,
  match p with
  | PRet r => (r, w)
  | PCall c k => interp (k (handle c w).1) (handle c w).2
  end.
End programs.

(** ** The programs are the operations *)

Section linking.
Context `{SchemaFormat} `{SerdeJson} `{UuidLib}.

(** Two effects are the same when they agree in every world. *)
Definition meq {A} (m m' : M A) : Prop := ∀ w, m w = m' w.

#[global] Instance meq_equivalence {A} : Equivalence (@meq A).
Proof.
  split; [by intros m w|by intros m m' Hm w|]. intros m m' m'' Hm Hm' w. by rewrite Hm.
Qed.

Lemma meq_bind {A B} (m m' : M A) (k k' : A → M B) :
  meq m m' → (∀ a, meq (k a) (k' a)) → meq (m ≫= k) (m' ≫= k').
Proof.
  intros Hm Hk w. unfold mbind, M_bind. rewrite Hm. destruct (m' w) as [[a|e] w']; [apply Hk|done].
Qed.

(** Interpretation is a monad morphism. *)
Lemma interp_bind {A B} (p : prog A) (f : A → prog B) :
  meq (interp (p ≫= f)) (interp p ≫= λ a, interp (f a)).
Proof.
  unfold mbind at 1, prog_bind. induction p as [[a|e]|X c k IH]; intros w; [done|done|].
  simpl. rewrite IH. done.
Qed.

Lemma link_bind {A B} (p : prog A) (f : A → prog B) (m : M A) (k : A → M B) :
  meq (interp p) m → (∀ a, meq (interp (f a)) (k a)) → meq (interp (p ≫= f)) (m ≫= k).
Proof. intros Hp Hf. etransitivity; [apply interp_bind|]. by apply meq_bind. Qed.

Lemma link_ret {A} (a : A) : meq (interp (mret a)) (mret a).
Proof. done. Qed.
Lemma link_fail {A} e : meq (interp (@pfail _ A e)) (throw e).
Proof. done. Qed.
Lemma link_lift {A} (r : result SrError A) : meq (interp (plift r)) (lift r).
Proof. done. Qed.
Lemma link_read : meq (interp (ask CRead)) read_store.
Proof. done. Qed.
Lemma link_primary : meq (interp (ask CPrimary)) get_primary.
Proof. done. Qed.
Lemma link_group : meq (interp (ask CGroup)) (asks w_election_group).
Proof. done. Qed.
Lemma link_fenced : meq (interp (ask CFenced)) (asks w_fenced).
Proof. done. Qed.
Lemma link_note r : meq (interp (ask (CNote r))) (modify (note_written r)).
Proof. done. Qed.
Lemma link_try {X} (c : call (result SrError X)) (m : M X) :
  meq (handle c) m → meq (interp (try_call c)) m.
Proof. intros Hm w. simpl. rewrite <-Hm. by destruct (handle c w). Qed.

Create HintDb link.
#[local] Hint Resolve link_bind link_ret link_fail link_lift link_read link_primary link_group
  link_fenced link_note : link.

(** Follow the two texts in step. *)
Ltac link :=
  repeat first
    [ progress cbn zeta
    | progress intros
    | match goal with
      | |- meq (interp (match ?x with _ => _ end)) _ => destruct x eqn:?
      end
    | solve [eauto 2 with link nocore]
    | apply link_bind ].

Lemma await_settled {A} (k : unit → M A) :
  meq (_ ← (handle CAwait : M unit); k tt) (_ ← await; k tt).
Proof. intros w. unfold mbind, M_bind. simpl. by destruct (await w) as [[a|e] w']. Qed.

Lemma link_await {A} (p : prog A) (m : M A) :
  meq (interp p) m → meq (interp (_ ← try_call CAwait; p)) (_ ← await; m).
Proof.
  intros Hp. etransitivity; [apply interp_bind|]. etransitivity; [|apply (await_settled (λ _, m))].
  apply meq_bind; [by apply link_try|done].
Qed.

Lemma link_produce_fenced r g : meq (interp (produce_fenced_prog r g)) (produce_fenced r g).
Proof.
  unfold produce_fenced_prog, produce_fenced. apply link_await.
  intros w. simpl. unfold abort_on_error, mbind, M_bind.
  destruct (await w) as [[a|e] w'] eqn:Hw; simpl; [|done].
  destruct (await w') as [[b|e] w'']; simpl; [|done]. by destruct (commit r w'').
Qed.

Lemma link_produce key value g : meq (interp (produce_prog key value g)) (produce key value g).
Proof.
  apply link_bind; [apply link_note|]. intros _. destruct g; [apply link_produce_fenced|by apply link_try].
Qed.

Lemma link_fence g : meq (interp (fence_prog g)) (fence g).
Proof.
  apply link_bind; [apply link_fenced|]. intros f. case_bool_decide; [done|]. by apply link_try.
Qed.

Lemma link_order_barrier : meq (interp (try_call CBarrier)) order_barrier.
Proof. by apply link_try. Qed.

Lemma link_await_barrier b : meq (interp (await_barrier_prog b)) (await_barrier b).
Proof.
  intros w. unfold await_barrier_prog, await_barrier. simpl. unfold mbind, M_bind.
  destruct (await w) as [[a|e] w']; simpl; [|done]. by destruct (finish_barrier _ _).
Qed.
#[local] Hint Resolve link_produce link_fence link_order_barrier link_await_barrier : link.

Lemma link_await_applied : meq (interp await_applied_prog) await_applied.
Proof. unfold await_applied_prog, await_applied. link. Qed.

Lemma link_prepare_write : meq (interp prepare_write_prog) prepare_write.
Proof. unfold prepare_write_prog, prepare_write. link. Qed.

Lemma link_begin_write : meq (interp begin_write_prog) begin_write.
Proof.
  intros w. unfold begin_write_prog, begin_write, write_guard.
  rewrite (link_await _ _ link_prepare_write w). unfold mbind, M_bind.
  by destruct (await w) as [[a|e] w'].
Qed.
#[local] Hint Resolve link_await_applied link_begin_write : link.

Lemma link_publish r g : meq (interp (publish_prog r g)) (publish r g).
Proof. unfold publish_prog, publish. link. Qed.

Lemma link_ensure_writable subject :
  meq (interp (ensure_writable_prog subject)) (ensure_writable subject).
Proof. unfold ensure_writable_prog, ensure_writable. link. Qed.

Lemma link_not_referenced subject v :
  meq (interp (not_referenced_prog subject v)) (not_referenced subject v).
Proof. unfold not_referenced_prog, not_referenced. link. Qed.
#[local] Hint Resolve link_publish link_ensure_writable link_not_referenced : link.

Lemma link_none_referenced subject vs :
  meq (interp (none_referenced_prog subject vs)) (none_referenced subject vs).
Proof. induction vs as [|v vs IH]; cbn [none_referenced_prog none_referenced]; link. Qed.

Lemma link_produce_tombstones keys g :
  meq (interp (produce_tombstones_prog keys g)) (produce_tombstones keys g).
Proof. induction keys as [|k keys IH]; cbn [produce_tombstones_prog produce_tombstones]; link. Qed.

Lemma link_register_import req schema resolved g :
  meq (interp (register_import_prog req schema resolved g)) (register_import req schema resolved g).
Proof. unfold register_import_prog, register_import. link. Qed.

Lemma link_register_assign req schema resolved g :
  meq (interp (register_assign_prog req schema resolved g)) (register_assign req schema resolved g).
Proof. unfold register_assign_prog, register_assign. link. Qed.
#[local] Hint Resolve link_none_referenced link_produce_tombstones link_register_import
  link_register_assign : link.

(** Run in one world, each program is the write of [KafkaStore]. *)
Lemma programs_are_operations :
  (∀ req, meq (interp (register_prog req)) (KafkaStore.register req)) ∧
  (∀ subject level, meq (interp (set_compat_prog subject level)) (set_compat subject level)) ∧
  (∀ subject, meq (interp (delete_subject_compat_prog subject)) (delete_subject_compat subject)) ∧
  (∀ mode, meq (interp (set_global_mode_prog mode)) (KafkaStore.set_global_mode mode)) ∧
  (∀ subject mode, meq (interp (set_subject_mode_prog subject mode))
                       (KafkaStore.set_subject_mode subject mode)) ∧
  (∀ subject, meq (interp (clear_subject_mode_prog subject)) (KafkaStore.clear_subject_mode subject)) ∧
  (∀ subject v, meq (interp (soft_delete_version_prog subject v)) (soft_delete_version subject v)) ∧
  (∀ subject v, meq (interp (permanent_delete_version_prog subject v))
                    (KafkaStore.permanent_delete_version subject v)) ∧
  (∀ subject, meq (interp (soft_delete_subject_prog subject))
                  (KafkaStore.soft_delete_subject subject)) ∧
  (∀ subject, meq (interp (permanent_delete_subject_prog subject)) (permanent_delete_subject subject)).
Proof.
  split_and!; intros.
  - unfold register_prog, KafkaStore.register. link.
  - unfold set_compat_prog, set_compat. link.
  - unfold delete_subject_compat_prog, delete_subject_compat. link.
  - unfold set_global_mode_prog, KafkaStore.set_global_mode. link.
  - unfold set_subject_mode_prog, KafkaStore.set_subject_mode. link.
  - unfold clear_subject_mode_prog, KafkaStore.clear_subject_mode. link.
  - unfold soft_delete_version_prog, soft_delete_version. link.
  - unfold permanent_delete_version_prog, KafkaStore.permanent_delete_version. link.
  - unfold soft_delete_subject_prog, KafkaStore.soft_delete_subject. link.
  - unfold permanent_delete_subject_prog, permanent_delete_subject. link.
Qed.
End linking.
