(* ===== verification/Protocol.v ===== *)
(** * The protocol every write follows (kafkastore/mod.rs, kafkastore/writer.rs)

    What a write decides on a registry state ([outcome]: its answer and the
    records it sends, in order), and the discipline that makes the
    decision safe on a shared log: fence before the barrier, read only behind
    the barrier, send only what the decision on that one state asks for, report
    success only when every record was acknowledged. The discipline is an
    automaton over [Phase]; [wp] is its weakest precondition on programs, and
    [writes_follow_protocol] shows that all ten writes keep to it. *)

From stdpp Require Import base gmap strings list pretty.
From Stdlib Require Import ZArith Lia.
From S2P Require Import Prelude Json Types Store Closure StoreFacts StoreSpec StoreQueries.
From S2P Require Import Record RecordFacts Compat Reader ReaderFacts KafkaStore KafkaFacts KafkaSpec.
From S2P Require Import Slots Program.

(** ** Writes, answers and outcomes *)

Inductive WOp :=
  | WRegister (req : RegisterSchema)
  | WSetCompat (subject : option string) (level : string)
  | WDeleteSubjectCompat (subject : string)
  | WSetGlobalMode (mode : string)
  | WSetSubjectMode (subject mode : string)
  | WClearSubjectMode (subject : string)
  | WSoftDeleteVersion (subject : string) (v : Z)
  | WPermanentDeleteVersion (subject : string) (v : Z)
  | WSoftDeleteSubject (subject : string)
  | WPermanentDeleteSubject (subject : string).

Inductive WAnswer :=
  | ARegistered (r : Registered)
  | AUnit
  | ALevel (level : option string)
  | AVersion (v : Z)
  | AVersions (vs : list Z).

(** The numbers of a request are [i32]s, as the handlers parse them. *)
Definition admissible (op : WOp) : Prop :=
  match op with
  | WRegister req => request_ok req
  | WPermanentDeleteVersion _ v => in_i32 v
  | _ => True
  end.

(** One step of a write: the record it sends, as its readers decode it. *)
Abbreviation Part := SchemaRecord.

Definition rec_schema (v : SchemaValue) : Part :=
  RSchema (SchemaKey_new (sv_subject v) (sv_version v)) v.
Definition rec_tombstone (subject : string) (v : Z) : Part := RTombstone (SchemaKey_new subject v).
Definition rec_high_water (subject : string) (next : Z) : Part :=
  RVersionHighWater (mkVersionHighWaterKey "NOOP" subject 0) (mkVersionHighWaterValue next).
Definition rec_delete_subject (subject : string) (v : Z) : Part :=
  RDeleteSubject (mkDeleteSubjectKey "DELETE_SUBJECT" subject 0) (mkDeleteSubjectValue subject v).
Definition rec_config (subject : option string) (level : option string) : Part :=
  RConfig (mkConfigKey "CONFIG" subject 0) (mkConfigValue <$> level).
Definition rec_mode (subject : option string) (mode : option string) : Part :=
  RMode (mkModeKey "MODE" subject 0) (mkModeValue <$> mode).

(** The version a subject's delete names: its highest. *)
Definition highest (vs : list Z) : Z :=
  match vs with [] => 0%Z | v :: vs => foldl Z.max v vs end.

(** The records of a permanent subject delete, in order. *)
Definition subject_delete_records (subject : string) (vs : list Z) (next : Z) : list Part :=
  rec_high_water subject next ::
  (rec_tombstone subject <$> vs) ++ [rec_config (Some subject) None; rec_mode (Some subject) None].

Section outcomes.
Context `{SchemaFormat}.

Definition decide_import (req : RegisterSchema) (schema : string)
    (resolved : list ResolvedReference) (s : StoreState) : result SrError (Registered * list Part) :=
  match rq_import_id req, rq_import_version req with
  | Some id, Some v =>
      _ ← format_parse (rq_ty req) schema resolved;
      conflicts ← schema_id_conflicts s id (rq_ty req) schema (rq_references req)
                    (rq_message_type req);
      if (conflicts : bool) then Err (SchemaIdConflict id)
      else Ok (mkRegistered id v,
               [rec_schema (schema_value (rq_subject req) v id (rq_ty req) schema
                  (rq_references req) (rq_message_type req) false ∅)])
  | _, _ => Err (InvalidSchema "IMPORT mode requires explicit id and version")
  end.

Definition decide_assign (req : RegisterSchema) (schema : string)
    (resolved : list ResolvedReference) (s : StoreState) : result SrError (Registered * list Part) :=
  match find_under_subject s (rq_subject req) (rq_ty req) schema (rq_references req)
          (rq_message_type req) false with
  | Some existing => Ok (existing, [])
  | None =>
      _ ← check_registration s (rq_subject req) (rq_ty req) schema resolved;
      '(reg, _) ← Store.register (rq_subject req) (rq_ty req) schema (rq_references req)
                    (rq_message_type req) s;
      Ok (reg, [rec_schema (schema_value (rq_subject req) (reg_version reg) (reg_id reg)
                  (rq_ty req) schema (rq_references req) (rq_message_type req) false ∅)])
  end.

Definition decide_register (req : RegisterSchema) (s : StoreState)
    : result SrError (Registered * list Part) :=
  let mode := effective_mode s (rq_subject req) in
  if String.eqb mode "READONLY" then Err (OperationNotPermitted (rq_subject req))
  else
    resolved ← resolve_closure s (rq_references req);
    schema ← normalized_storage_form (rq_ty req) (rq_schema req) resolved;
    if String.eqb mode "IMPORT" then decide_import req schema resolved s
    else decide_assign req schema resolved s.

(** What a write decides on a state: its refusal, or its answer with the
    records in order (none when nothing needs to be written). *)
Definition outcome (op : WOp) (s : StoreState) : result SrError (WAnswer * list Part) :=
  match op with
  | WRegister req => '(r, fs) ← decide_register req s; Ok (ARegistered r, fs)
  | WSetCompat subject level =>
      let mode := match subject with Some sj => effective_mode s sj | None => global_mode s end in
      if String.eqb mode "READONLY" then Err (OperationNotPermitted (default "global" subject))
      else Ok (AUnit, [rec_config subject (Some level)])
  | WDeleteSubjectCompat subject =>
      match subject_compat s subject with
      | None => Ok (ALevel None, [])
      | Some level => Ok (ALevel (Some level), [rec_config (Some subject) None])
      end
  | WSetGlobalMode mode =>
      if negb (existsb (String.eqb mode) valid_modes) then Err (InvalidMode mode)
      else if String.eqb mode "IMPORT" && negb (bool_decide (list_subjects s true = []))
      then Err (OperationNotPermitted "registry not empty")
      else Ok (AUnit, [rec_mode None (Some mode)])
  | WSetSubjectMode subject mode =>
      if negb (existsb (String.eqb mode) valid_modes) then Err (InvalidMode mode)
      else if String.eqb mode "IMPORT" && bool_decide (is_Some (versions s subject true))
      then Err (OperationNotPermitted subject)
      else Ok (AUnit, [rec_mode (Some subject) (Some mode)])
  | WClearSubjectMode subject => Ok (AUnit, [rec_mode (Some subject) None])
  | WSoftDeleteVersion subject v =>
      _ ← spec_writable subject s;
      _ ← ok_or (versions s subject true) (SubjectNotFound subject);
      found ← ok_or (version s subject (Some v) true) VersionNotFound;
      _ ← spec_not_referenced subject v s;
      Ok (AVersion (vs_version found),
          [rec_schema (schema_value subject (vs_version found) (vs_id found) (vs_ty found)
             (vs_schema found) (vs_references found) (vs_message_type found) true (vs_extra found))])
  | WPermanentDeleteVersion subject v =>
      _ ← spec_writable subject s;
      _ ← permanent_delete_checks s subject v;
      _ ← spec_not_referenced subject v s;
      Ok (AVersion v, [rec_high_water subject (next_version s subject);
                       rec_tombstone subject v])
  | WSoftDeleteSubject subject =>
      _ ← spec_writable subject s;
      vs ← soft_delete_checks s subject;
      _ ← spec_none_referenced subject vs s;
      Ok (AVersions vs, [rec_delete_subject subject (highest vs)])
  | WPermanentDeleteSubject subject =>
      _ ← spec_writable subject s;
      all ← permanent_subject_checks s subject;
      _ ← spec_none_referenced subject all s;
      Ok (AVersions all, subject_delete_records subject all (next_version s subject))
  end.

(** The same in terms of the specifications of [KafkaSpec]. *)
Definition tag {A} (g : A → WAnswer) (r : result SrError (A * StoreState))
    : result SrError (WAnswer * StoreState) := '(a, s) ← r; Ok (g a, s).

Definition specified (op : WOp) (s : StoreState) : result SrError (WAnswer * StoreState) :=
  match op with
  | WRegister req => tag ARegistered (spec_register req s)
  | WSetCompat subject level => tag (λ _, AUnit) (spec_set_compat subject level s)
  | WDeleteSubjectCompat subject => tag ALevel (spec_delete_subject_compat subject s)
  | WSetGlobalMode mode => tag (λ _, AUnit) (spec_set_global_mode mode s)
  | WSetSubjectMode subject mode => tag (λ _, AUnit) (spec_set_subject_mode subject mode s)
  | WClearSubjectMode subject => tag (λ _, AUnit) (spec_clear_subject_mode subject s)
  | WSoftDeleteVersion subject v => tag AVersion (spec_soft_delete_version subject v s)
  | WPermanentDeleteVersion subject v => tag AVersion (spec_permanent_delete_version subject v s)
  | WSoftDeleteSubject subject => tag AVersions (spec_soft_delete_subject subject s)
  | WPermanentDeleteSubject subject => tag AVersions (spec_permanent_delete_subject subject s)
  end.

(** The state after the records [fs]. *)
Definition apply_records (fs : list Part) (s : StoreState) : StoreState :=
  foldl (λ s f, apply_record f s) s fs.

Lemma apply_subject_delete_records subject vs next s :
  apply_records (subject_delete_records subject vs next) s =
  run_ops (subject_delete_ops subject vs next) s.
Proof.
  unfold apply_records, run_ops, subject_delete_records, subject_delete_ops.
  cbn [foldl apply_record rec_high_water vk_subject vv_next_version]. rewrite !foldl_app. cbn.
  do 2 f_equal. generalize (observe_next_version subject next s).
  induction vs as [|v vs IH]; intros s'; [done|]. apply IH.
Qed.

(** Applying the records of an outcome is the specification. *)
Lemma outcome_specified op s :
  ('(a, fs) ← outcome op s; Ok (a, apply_records fs s)) = specified op s.
Proof.
  destruct op; cbn [outcome specified]; unfold tag, decide_register, decide_import, decide_assign,
    spec_register, spec_import, spec_assign, spec_set_compat, spec_delete_subject_compat,
    spec_set_global_mode, spec_set_subject_mode, spec_clear_subject_mode, spec_soft_delete_version,
    spec_permanent_delete_version, spec_soft_delete_subject, spec_permanent_delete_subject,
    keep_high_water; unfold mbind, result_bind;
    repeat (case_match; simplify_eq/=; try done); try done.
  do 2 f_equal. apply (apply_subject_delete_records subject _ (next_version s subject) s).
Qed.
End outcomes.

(** The write as a program. *)
Definition program `{SchemaFormat} `{SerdeJson} `{UuidLib} (op : WOp) : prog WAnswer :=
  match op with
  | WRegister req => r ← register_prog req; mret (ARegistered r)
  | WSetCompat subject level => _ ← set_compat_prog subject level; mret AUnit
  | WDeleteSubjectCompat subject => l ← delete_subject_compat_prog subject; mret (ALevel l)
  | WSetGlobalMode mode => _ ← set_global_mode_prog mode; mret AUnit
  | WSetSubjectMode subject mode => _ ← set_subject_mode_prog subject mode; mret AUnit
  | WClearSubjectMode subject => _ ← clear_subject_mode_prog subject; mret AUnit
  | WSoftDeleteVersion subject v => v ← soft_delete_version_prog subject v; mret (AVersion v)
  | WPermanentDeleteVersion subject v =>
      v ← permanent_delete_version_prog subject v; mret (AVersion v)
  | WSoftDeleteSubject subject => vs ← soft_delete_subject_prog subject; mret (AVersions vs)
  | WPermanentDeleteSubject subject => vs ← permanent_delete_subject_prog subject; mret (AVersions vs)
  end.

(** ** The states a registry goes through *)

Section states.
Context `{SchemaFormat} `{SerdeJsonLaws} `{UuidLib} `{!MarkerLaws}.

Definition sane (s : StoreState) : Prop := store_wf s ∧ stored_ok s.

(** [r] is a canonical record that decodes to [f]. *)
Definition records_as (r : kv) (f : Part) : Prop := decode r.1 r.2 = f ∧ canonical r.

Lemma records_as_apply r f s : records_as r f → apply_kv s r = apply_record f s.
Proof. by intros [<- _]. Qed.

Lemma apply_kv_wf s r : store_wf s → store_wf (apply_kv s r).
Proof. intros Hs. apply apply_record_wf; [apply decode_i32|done]. Qed.

Definition keeps_sane (f : Part) : Prop := ∀ s, sane s → sane (apply_record f s).

(** A record that leaves the stored schemas alone. *)
Lemma keeps_sane_by_id r (f : Part) :
  records_as r f → (∀ s, by_id (apply_record f s) = by_id s) → keeps_sane f.
Proof.
  intros Hr Hb s [Hs Hst]. split; [rewrite <-(records_as_apply _ _ _ Hr); by apply apply_kv_wf|].
  intros id reg. rewrite Hb. apply Hst.
Qed.

Lemma apply_schema_by_id v s :
  by_id (apply_schema v s) = <[sv_id v := mkRegisteredSchema (from_wire (sv_schema_type v))
    (sv_schema v) (sv_references v) (sv_message_type v) (sv_extra v)]> (by_id s).
Proof.
  unfold apply_schema. cbn zeta. cbn [set_subjects by_id].
  assert (∀ id s, by_id (unbind_canonical id s) = by_id s) as Hu
    by (intros id s'; unfold unbind_canonical; by repeat case_match).
  assert (∀ k id s, by_id (bind_canonical k id s) = by_id s) as Hb
    by (intros k id s'; unfold bind_canonical; repeat case_match; done).
  case_match; [rewrite Hb|]; cbn [set_by_id by_id]; by rewrite Hu.
Qed.

(** The record of one schema version. *)
Lemma records_schema subject v id ty schema refs mt deleted extra :
  value_ok (schema_value subject v id ty schema refs mt deleted (default ∅ extra)) →
  records_as ((schema_kv subject v id ty schema refs mt deleted extra).1,
              Some (schema_kv subject v id ty schema refs mt deleted extra).2)
    (rec_schema (schema_value subject v id ty schema refs mt deleted (default ∅ extra))).
Proof.
  intros Hok. pose proof (decode_schema_kv_facts subject v id ty schema refs mt deleted extra Hok) as Hd.
  destruct (decode_tombstone_facts subject v id ty schema refs mt deleted extra (proj1 Hok)) as [Hk _].
  pose proof (key_slot_version subject v (proj1 Hok)) as Hs. rewrite Hk in Hs.
  destruct (schema_kv subject v id ty schema refs mt deleted extra) as [key value].
  cbn [fst] in Hk, Hs. split; [exact Hd|].
  eapply canonical_intro; [exact Hd|reflexivity|exact Hs|]. by rewrite <-Hk.
Qed.

Lemma keeps_sane_schema subject v id ty schema refs mt deleted extra :
  value_ok (schema_value subject v id ty schema refs mt deleted (default ∅ extra)) →
  keeps_sane (rec_schema (schema_value subject v id ty schema refs mt deleted (default ∅ extra))).
Proof.
  intros Hok s [Hs Hst]. split.
  { rewrite <-(records_as_apply _ _ _ (records_schema _ _ _ _ _ _ _ _ _ Hok)). by apply apply_kv_wf. }
  intros id' reg. cbn [apply_record rec_schema]. rewrite apply_schema_by_id. cbn [schema_value sv_id].
  intros [[<- <-]|[_ Hl]]%lookup_insert_Some; [|by apply (Hst id')].
  destruct Hok as (_ & Hid & Hrefs & Hex). done.
Qed.

(** The records of the settings and of the deletes. *)
Lemma records_markers subject osubject level mode v :
  in_i32 v →
  records_as ((encode_config osubject level).1, Some (encode_config osubject level).2)
    (rec_config osubject (Some level)) ∧
  records_as (config_key (Some subject), None) (rec_config (Some subject) None) ∧
  records_as ((encode_mode osubject mode).1, Some (encode_mode osubject mode).2)
    (rec_mode osubject (Some mode)) ∧
  records_as (mode_key (Some subject), None) (rec_mode (Some subject) None) ∧
  records_as ((encode_delete_subject subject v).1, Some (encode_delete_subject subject v).2)
    (rec_delete_subject subject v) ∧
  records_as ((encode_version_high_water subject v).1, Some (encode_version_high_water subject v).2)
    (rec_high_water subject v) ∧
  records_as (encode_tombstone subject v, None) (rec_tombstone subject v).
Proof.
  intros Hv. destruct (decode_markers_facts subject osubject level mode v Hv) as (H1' & _ & H3' & _ & H5' & H6').
  destruct (decode_markers_facts subject (Some subject) level mode v Hv) as (_ & H2' & _ & H4' & _ & _).
  destruct (decode_tombstone_facts subject v 0 Avro "" [] None false None Hv) as [_ H7'].
  split_and!; (split; [done|]).
  - eapply (canonical_intro _ _ _ (SCompat osubject)); [exact H1'|by destruct osubject|apply key_slot_compat|done].
  - eapply canonical_intro; [exact H2'|reflexivity|apply key_slot_compat|done].
  - eapply canonical_intro; [exact H3'|reflexivity|apply key_slot_mode|done].
  - eapply canonical_intro; [exact H4'|reflexivity|apply key_slot_mode|done].
  - eapply canonical_intro; [exact H5'|reflexivity|apply key_slot_flags|done].
  - eapply canonical_intro; [exact H6'|reflexivity|apply key_slot_next|done].
  - eapply canonical_intro; [exact H7'|reflexivity|by apply key_slot_version|done].
Qed.

Lemma permanent_subject_checks_i32 s subject all :
  store_wf s → permanent_subject_checks s subject = Ok all → Forall in_i32 all.
Proof.
  intros Hs. unfold permanent_subject_checks. destruct (versions s subject true) as [vs|] eqn:Hv; [|done].
  simpl. case_match; [done|]. intros [= <-]. by eapply versions_i32.
Qed.

Lemma soft_delete_checks_i32 s subject vs :
  store_wf s → soft_delete_checks s subject = Ok vs → Forall in_i32 vs.
Proof.
  intros Hs. unfold soft_delete_checks. destruct (versions s subject false) as [vs'|] eqn:Hv;
    [|by destruct (versions s subject true)]. intros [= <-]. by eapply versions_i32.
Qed.

(** What a soft delete finds can be written back. *)
Lemma found_value_ok s subject v found :
  sane s → version s subject (Some v) true = Some found →
  value_ok (schema_value subject (vs_version found) (vs_id found) (vs_ty found) (vs_schema found)
    (vs_references found) (vs_message_type found) true (vs_extra found)).
Proof.
  intros [Hs Hst] (e & reg & (vs & Hvs & He & _) & Hve & Hreg & ->)%version_spec; [|done]. simpl.
  destruct (Hst _ _ Hreg) as (Hid & Hrefs & Hex).
  split_and!; [|done..]. by apply (hist_i32 _ _ _ (wf_hist _ Hs _ _ Hvs)).
Qed.

(** What a registration writes can be read back. *)
Lemma assigned_value_ok s req schema reg s' :
  sane s → request_ok req →
  Store.register (rq_subject req) (rq_ty req) schema (rq_references req) (rq_message_type req) s
    = Ok (reg, s') →
  value_ok (schema_value (rq_subject req) (reg_version reg) (reg_id reg) (rq_ty req) schema
    (rq_references req) (rq_message_type req) false ∅).
Proof.
  intros [Hs Hst] (Hrefs & _ & _) Hreg.
  destruct (register_i32 _ _ _ _ _ _ _ _ Hs (λ id '(ex_intro _ reg Hr), proj1 (Hst id reg Hr)) Hreg).
  split_and!; [done..|apply extra_ok_empty].
Qed.

Lemma imported_value_ok req schema id v :
  request_ok req → rq_import_id req = Some id → rq_import_version req = Some v →
  value_ok (schema_value (rq_subject req) v id (rq_ty req) schema
    (rq_references req) (rq_message_type req) false ∅).
Proof. intros (Hrefs & Hid & Hv) Ei Ev. split_and!; [by apply Hv|by apply Hid|done|apply extra_ok_empty]. Qed.

Lemma keeps_sane_permanent subject v :
  in_i32 v → keeps_sane (rec_tombstone subject v).
Proof.
  intros Hv. destruct (records_markers subject None "" "" v Hv) as (_ & _ & _ & _ & _ & _ & Hr).
  eapply keeps_sane_by_id; [exact Hr|]. intros s. cbn [apply_record rec_tombstone].
  unfold Store.permanent_delete_version.
  by repeat case_match.
Qed.

Lemma keeps_sane_settings subject osubject level mode v :
  in_i32 v →
  keeps_sane (rec_config osubject (Some level)) ∧
  keeps_sane (rec_config (Some subject) None) ∧
  keeps_sane (rec_mode osubject (Some mode)) ∧
  keeps_sane (rec_mode (Some subject) None) ∧
  keeps_sane (rec_delete_subject subject v) ∧
  keeps_sane (rec_high_water subject v).
Proof.
  intros Hv. destruct (records_markers subject osubject level mode v Hv) as (H1' & H2' & H3' & H4' & H5' & H6' & _).
  split_and!; eapply keeps_sane_by_id; try eassumption; try (by destruct osubject); try done.
  intros s. cbn [apply_record rec_delete_subject]. unfold Store.soft_delete_subject. by repeat case_match.
Qed.

Ltac parts := repeat first [apply Forall_nil_2 | apply Forall_cons_2].

(** Every change a write decides on keeps the registry sane. *)
Lemma outcome_keeps_sane op s a fs :
  admissible op → sane s → outcome op s = Ok (a, fs) → Forall keeps_sane fs.
Proof.
  intros Had Hs. pose proof Hs as [Hwf _].
  pose proof (λ subject osubject level mode, keeps_sane_settings subject osubject level mode 0 in_i32_0) as Hk.
  destruct op as [req|osubject level|subject|mode|subject mode|subject|subject v|subject v|subject|subject];
    cbn [outcome].
  - unfold decide_register, decide_import, decide_assign, mbind, result_bind. intros Ho.
    repeat (case_match; simplify_eq/=); parts.
    + apply (keeps_sane_schema _ _ _ _ _ _ _ false None). by apply imported_value_ok.
    + apply (keeps_sane_schema _ _ _ _ _ _ _ false None). by eapply assigned_value_ok.
  - case_match; [done|]. intros [= <- <-]. parts. apply (Hk "" osubject level "").
  - case_match; intros [= <- <-]; parts. apply (Hk subject None "" "").
  - repeat (case_match; [done|]). intros [= <- <-]. parts. apply (Hk "" None "" mode).
  - repeat (case_match; [done|]). intros [= <- <-]. parts. apply (Hk "" (Some subject) "" mode).
  - intros [= <- <-]. parts. apply (Hk subject None "" "").
  - unfold mbind, result_bind. destruct (spec_writable subject s); [|done].
    destruct (versions s subject true); cbn [ok_or]; [|done].
    destruct (version s subject (Some v) true) as [found|] eqn:Hf; cbn [ok_or]; [|done].
    destruct (spec_not_referenced subject v s); [|done]. intros [= <- <-]. parts.
    apply (keeps_sane_schema _ _ _ _ _ _ _ true (Some (vs_extra found))). by eapply found_value_ok.
  - unfold mbind, result_bind. repeat (case_match; [|done]). intros [= <- <-].
    parts; [|by apply keeps_sane_permanent].
    apply (keeps_sane_settings subject None "" "" _ (next_version_i32 s subject Hwf)).
  - unfold mbind, result_bind. repeat (case_match; [|done]). intros [= <- <-]. parts.
    apply (Hk subject None "" "").
  - unfold mbind, result_bind. destruct (spec_writable subject s); [|done].
    destruct (permanent_subject_checks s subject) as [all|] eqn:Hall; [|done].
    destruct (spec_none_referenced subject all s); [|done]. intros [= <- <-].
    constructor; [apply (keeps_sane_settings subject None "" "" _ (next_version_i32 s subject Hwf))|].
    apply Forall_app. split.
    + apply Forall_fmap. eapply Forall_impl; [by eapply permanent_subject_checks_i32|].
      intros v Hv. by apply keeps_sane_permanent.
    + parts; apply (Hk subject None "" "").
Qed.
End states.

(** ** The automaton *)

(** Where a write stands. [Out]: nothing ordered yet. [Ordered n]: its barrier
    ends at log position [n]. [Synced s]: the reader has passed the barrier and
    stands at [s]. [Lost ss]: a read has shown another state, so the producer
    epoch is gone; [ss] are the states read since. [Writing a s fs]: the answer
    [a] is decided, [s] is reached, the changes [fs] are still to be recorded.
    [Failed]: a send was not acknowledged. *)
Inductive Phase :=
  | Out
  | Ordered (n : nat)
  | Synced (s : StoreState)
  | Lost (ss : list StoreState)
  | Writing (a : WAnswer) (s : StoreState) (fs : list Part)
  | Failed.

Section protocol.
Context `{SchemaFormat} `{SerdeJsonLaws} `{UuidLib} `{!MarkerLaws}.

(** The write the protocol is followed for. *)
Context (op : WOp).

(** An error of a call is a transient one. *)
Definition fallible {A} (x : result SrError A) : Prop := ∀ e, x = Err e → transient e.

(** What may be called when. *)
Definition permits {X} (c : call X) (σ : Phase) : Prop :=
  match c with
  | CInit _ => σ = Out
  | CSend None _ => False
  | CSend (Some _) r =>
      match σ with
      | Synced s => ∃ a f fs, outcome op s = Ok (a, f :: fs) ∧ records_as r f
      | Writing _ _ (f :: _) => records_as r f
      | Lost _ => True
      | _ => False
      end
  | _ => True
  end.

(** What an answer tells about where the write stands. *)
Definition moves {X} (c : call X) (σ : Phase) : X → Phase → Prop :=
  match c in call X return X → Phase → Prop with
  | CPrimary => λ x σ', is_Some x ∧ σ' = σ
  | CGroup => λ _ σ', σ' = σ
  | CFenced => λ _ σ', σ' = σ
  | CAwait => λ x σ', fallible x ∧ σ' = σ
  | CAbort => λ _ σ', σ' = σ
  | CInit _ => λ x σ', fallible x ∧ σ' = σ
  | CBarrier => λ x σ', fallible x ∧
      σ' = match x, σ with Ok b, Out => Ordered b.2 | _, _ => σ end
  | CApplied n => λ x σ', fallible x ∧
      match x, σ with
      | Ok _, Ordered m => if decide (m ≤ n) then ∃ s, sane s ∧ σ' = Synced s else σ' = σ
      | _, _ => σ' = σ
      end
  | CFinish _ => λ x σ', fallible x ∧ σ' = σ
  | CRead => λ x σ', sane x ∧
      match σ with
      | Synced s => (x = s ∧ σ' = σ) ∨ σ' = Lost [x]
      | Lost ss => σ' = Lost (x :: ss)
      | _ => σ' = σ
      end
  | CNote _ => λ _ σ', σ' = σ
  | CSend _ _ => λ x σ', fallible x ∧
      match x, σ with
      | Ok _, Synced s => ∃ a f fs, outcome op s = Ok (a, f :: fs) ∧ σ' = Writing a (apply_record f s) fs
      | Ok _, Writing a s (f :: fs) => σ' = Writing a (apply_record f s) fs
      | Ok _, _ => False
      | Err _, _ => σ' = Failed
      end
  end.

(** The weakest precondition of a program under the protocol. *)
Fixpoint wp {A} (Q : Phase → result SrError A → Prop) (σ : Phase) (p : prog A) : Prop :=
  match p with
  | PRet r => Q σ r
  | PCall c k => permits c σ ∧ ∀ x σ', moves c σ x σ' → wp Q σ' (k x)
  end.

(** An answer given without writing, by a node that is no longer the writer:
    it must be true of a state the node has read. *)
Definition told (s : StoreState) (a : WAnswer) : Prop :=
  match op, a with
  | WRegister req, ARegistered r =>
      ∃ schema, find_under_subject s (rq_subject req) (rq_ty req) schema (rq_references req)
                  (rq_message_type req) false = Some r
  | WDeleteSubjectCompat subject, ALevel None => subject_compat s subject = None
  | _, _ => False
  end.

(** How a write may end. *)
Definition answered (σ : Phase) (a : WAnswer) : Prop :=
  match σ with
  | Synced s => outcome op s = Ok (a, [])
  | Writing a' _ [] => a = a'
  | Lost ss => ∃ s, s ∈ ss ∧ told s a
  | _ => False
  end.

Definition refused (σ : Phase) (e : SrError) : Prop :=
  transient e ∨
  match σ with
  | Out | Ordered _ => ∀ s, outcome op s = Err e
  | Synced s => outcome op s = Err e
  | Lost _ => True
  | _ => False
  end.

Definition ends {A} (Q : Phase → A → Prop) (σ : Phase) (r : result SrError A) : Prop :=
  match r with Ok a => Q σ a | Err e => refused σ e end.

(** A program that keeps to the protocol from [σ], with its answers in [Q]. *)
Definition triple {A} (σ : Phase) (p : prog A) (Q : Phase → A → Prop) : Prop := wp (ends Q) σ p.

(** *** Rules *)

Lemma triple_bind {A B} σ (p : prog A) (k : A → prog B) R Q :
  triple σ p R → (∀ σ' a, R σ' a → triple σ' (k a) Q) → triple σ (p ≫= k) Q.
Proof.
  unfold triple. intros Hp Hk. unfold mbind, prog_bind. revert σ Hp.
  induction p as [[a|e]|X c k' IH]; intros σ; simpl; [by apply Hk|done|].
  intros [Hc Hx]. split; [done|]. intros x σ' Hm. apply IH. by apply Hx.
Qed.

Lemma triple_conseq {A} σ (p : prog A) (Q Q' : Phase → A → Prop) :
  triple σ p Q' → (∀ σ' a, Q' σ' a → Q σ' a) → triple σ p Q.
Proof.
  unfold triple. intros Hp HQ. revert σ Hp.
  induction p as [[a|e]|X c k' IH]; intros σ; simpl; [by apply HQ|done|].
  intros [Hc Hx]. split; [done|]. intros x σ' Hm. apply IH. by apply Hx.
Qed.

Lemma triple_ret {A} σ (a : A) (Q : Phase → A → Prop) : Q σ a → triple σ (mret a) Q.
Proof. done. Qed.

Lemma triple_fail {A} σ e (Q : Phase → A → Prop) : refused σ e → triple σ (pfail e) Q.
Proof. done. Qed.

Lemma triple_lift {A B} σ (r : result SrError A) (k : A → prog B) Q :
  (∀ e, r = Err e → refused σ e) → (∀ a, r = Ok a → triple σ (k a) Q) → triple σ (plift r ≫= k) Q.
Proof. destruct r as [a|e]; intros He Hk; [by apply Hk|by apply He]. Qed.

(** A call that tells nothing. *)
Lemma triple_try {X} σ (c : call (result SrError X)) (Q : Phase → X → Prop) :
  permits c σ → (∀ x σ', moves c σ x σ' → ends Q σ' x) → triple σ (try_call c) Q.
Proof. intros Hp Hm. by split. Qed.

Lemma fallible_ends {A} σ (x : result SrError A) (Q : Phase → A → Prop) :
  fallible x → (∀ a, x = Ok a → Q σ a) → ends Q σ x.
Proof. destruct x as [a|e]; intros Hf HQ; [by apply HQ|left; by apply Hf]. Qed.

(** Behind the barrier: the read shows the decided-on state, or the epoch is
    gone. *)
Lemma triple_read {A} s (k : StoreState → prog A) Q :
  triple (Synced s) (k s) Q → (∀ x, triple (Lost [x]) (k x) Q) → triple (Synced s) (ask CRead ≫= k) Q.
Proof. intros Hs Hl. split; [done|]. intros x σ' [_ [[-> ->]| ->]]; [done|apply Hl]. Qed.

Lemma triple_read_lost {A} ss (k : StoreState → prog A) Q :
  (∀ x, triple (Lost (x :: ss)) (k x) Q) → triple (Lost ss) (ask CRead ≫= k) Q.
Proof. intros Hl. split; [done|]. intros x σ' [_ ->]. apply Hl. Qed.

Lemma triple_await σ (Q : Phase → unit → Prop) : Q σ tt → triple σ (try_call CAwait) Q.
Proof.
  intros HQ. apply triple_try; [done|]. intros x σ' [Hx ->]. apply fallible_ends; [done|]. by intros [] _.
Qed.

Lemma triple_abort_try σ (Q : Phase → unit → Prop) : Q σ tt → triple σ (abort_try CAwait) Q.
Proof.
  intros HQ. split; [done|]. intros [[]|e] σ' [Hx ->]; [done|]. split; [done|].
  intros [] σ' ->. left. by apply Hx.
Qed.

(** *** Barriers and preparation *)

Lemma triple_await_barrier σ b :
  (σ = Ordered b.2 →
   triple σ (await_barrier_prog b) (λ σ' _, ∃ s, sane s ∧ σ' = Synced s)) ∧
  ((∀ n, σ ≠ Ordered n) → triple σ (await_barrier_prog b) (λ σ' _, σ' = σ)).
Proof.
  split; intros Hσ.
  - eapply triple_bind with (R := λ σ' _, ∃ s, sane s ∧ σ' = Synced s).
    + apply triple_try; [done|]. rewrite Hσ. intros x σ' [Hx Hm]. apply fallible_ends; [done|].
      intros a ->. by rewrite decide_True in Hm by lia.
    + intros σ' [] (s & Hs & ->). apply triple_try; [done|]. intros x σ' [Hx ->].
      apply fallible_ends; [done|]. eauto.
  - eapply triple_bind with (R := λ σ' _, σ' = σ).
    + apply triple_try; [done|]. intros x σ' [Hx Hm]. apply fallible_ends; [done|].
      intros a ->. destruct σ as [|n| | | |]; try done. by destruct (Hσ n).
    + intros σ' [] ->. apply triple_try; [done|]. intros x σ' [Hx ->]. by apply fallible_ends.
Qed.

(** Once a write has left [Out] and [Ordered], waiting changes nothing. *)
Lemma triple_await_applied σ :
  σ ≠ Out → (∀ n, σ ≠ Ordered n) → triple σ await_applied_prog (λ σ' _, σ' = σ).
Proof.
  intros Ho Hn. eapply triple_bind with (R := λ σ' _, σ' = σ).
  - apply triple_try; [done|]. intros x σ' [Hx ->]. apply fallible_ends.
    + intros e He. by apply Hx.
    + intros a ->. by destruct σ.
  - intros σ' b ->. by apply triple_await_barrier.
Qed.

Lemma triple_fence g : triple Out (fence_prog g) (λ σ _, σ = Out).
Proof.
  eapply triple_bind with (R := λ σ _, σ = Out); [by split; [|intros x σ' ->]|].
  intros σ f ->. case_bool_decide; [done|]. apply triple_try; [done|].
  intros x σ' [Hx ->]. by apply fallible_ends.
Qed.

(** A prepared write is fenced, and stands behind its barrier. *)
Definition prepared (σ : Phase) (g : option ConsumerGroupMetadata) : Prop :=
  is_Some g ∧ ∃ s, sane s ∧ σ = Synced s.

Lemma triple_prepare_write : triple Out prepare_write_prog prepared.
Proof.
  eapply triple_bind with (R := λ σ p, is_Some p ∧ σ = Out); [by split; [|intros x σ' []]|].
  intros σ p [[before ->] ->].
  destruct (ps_generation_id before) as [g|]; [|by apply triple_fail; left].
  destruct (ps_member_id before) as [m|]; [|by apply triple_fail; left].
  destruct (negb (ps_is_primary before)); [by apply triple_fail; left|].
  eapply triple_bind with (R := λ σ _, σ = Out); [by split; [|intros x σ' ->]|]. intros σ group_id ->.
  eapply triple_bind; [apply triple_fence|]. intros σ [] ->.
  eapply triple_bind with (R := λ σ b, σ = Ordered b.2).
  { apply triple_try; [done|]. intros x σ' [Hx ->]. apply fallible_ends; [done|]. by intros b ->. }
  intros σ b Hσ. eapply triple_bind; [by apply (proj1 (triple_await_barrier σ b))|]. intros σ' [] (s & Hs & ->).
  eapply triple_bind with (R := λ σ p, is_Some p ∧ σ = Synced s); [by split; [|intros x σ' []]|].
  intros σ' after [[after' ->] ->]. case_match; [by apply triple_fail; left|]. apply triple_ret. split; eauto.
Qed.

Lemma triple_begin {A} (k : option ConsumerGroupMetadata → prog A) Q :
  (∀ s g, sane s → triple (Synced s) (k (Some g)) Q) → triple Out (begin_write_prog ≫= k) Q.
Proof.
  intros Hk. eapply triple_bind with (R := prepared).
  - eapply triple_bind with (R := λ σ _, σ = Out); [by apply triple_await|].
    intros σ [] ->. apply triple_prepare_write.
  - intros σ g [[g' ->] (s & Hs & ->)]. by apply Hk.
Qed.

(** *** Producing *)

Lemma triple_produce σ key value g (Q : Phase → unit → Prop) :
  triple σ (try_call (CSend (Some g) (key, value))) Q → triple σ (produce_prog key value (Some g)) Q.
Proof.
  intros Hs. eapply triple_bind with (R := λ σ' _, σ' = σ); [by split; [|intros x σ' ->]|]. intros σ' [] ->.
  eapply triple_bind with (R := λ σ' _, σ' = σ); [by apply triple_await|]. intros σ' [] ->.
  eapply triple_bind with (R := λ σ' _, σ' = σ); [by apply triple_abort_try|]. intros σ' [] ->.
  eapply triple_bind with (R := λ σ' _, σ' = σ); [by apply triple_abort_try|]. by intros σ' [] ->.
Qed.

(** The first record of a decided write, and the following ones. *)
Lemma triple_produce_first s key value g a f fs :
  outcome op s = Ok (a, f :: fs) → records_as (key, value) f →
  triple (Synced s) (produce_prog key value (Some g)) (λ σ _, σ = Writing a (apply_record f s) fs).
Proof.
  intros Ho Hr. apply triple_produce, triple_try; [by exists a, f, fs|].
  intros x σ' [Hx Hm]. apply fallible_ends; [done|]. intros [] ->.
  destruct Hm as (a' & f' & fs' & Ho' & ->). rewrite Ho in Ho'. by simplify_eq.
Qed.

Lemma triple_produce_next s key value g a f fs :
  records_as (key, value) f →
  triple (Writing a s (f :: fs)) (produce_prog key value (Some g)) (λ σ _, σ = Writing a (apply_record f s) fs).
Proof.
  intros Hr. apply triple_produce, triple_try; [done|].
  intros x σ' [Hx Hm]. apply fallible_ends; [done|]. by intros [] ->.
Qed.

Lemma triple_publish_last {A} σ r g a s (b : A) (Q : Phase → A → Prop) :
  triple σ (produce_prog r.1 r.2 (Some g)) (λ σ _, σ = Writing a s []) →
  Q (Writing a s []) b → triple σ (_ ← publish_prog r (Some g); mret b) Q.
Proof.
  intros Hp HQ. eapply triple_bind with (R := λ σ _, σ = Writing a s []).
  - eapply triple_bind; [exact Hp|]. intros σ' [] ->. by apply triple_await_applied.
  - by intros σ' [] ->.
Qed.

(** A write of one record: its record makes the decided change. *)
Lemma triple_publish {A} s r g a f (b : A) (Q : Phase → A → Prop) :
  outcome op s = Ok (a, [f]) → records_as r f → Q (Writing a (apply_record f s) []) b →
  triple (Synced s) (_ ← publish_prog r (Some g); mret b) Q.
Proof.
  intros Ho Hr HQ. eapply triple_publish_last; [|exact HQ].
  apply triple_produce_first; [done|]. by destruct r.
Qed.

Lemma triple_publish_unit s r g a f (Q : Phase → unit → Prop) :
  outcome op s = Ok (a, [f]) → records_as r f → Q (Writing a (apply_record f s) []) tt →
  triple (Synced s) (publish_prog r (Some g)) Q.
Proof.
  intros Ho Hr HQ. eapply triple_bind; [eapply triple_produce_first; [done|by destruct r]|].
  intros σ [] ->. eapply triple_conseq; [by apply triple_await_applied|]. by intros σ [] ->.
Qed.

(** *** Without the epoch *)

(** No send of a node that has lost its epoch is acknowledged. *)
Lemma lost_produce {A} ss key value g (k : unit → prog A) Q :
  triple (Lost ss) (produce_prog key value (Some g) ≫= k) Q.
Proof.
  eapply triple_bind with (R := λ _ _, False); [|done].
  apply triple_produce, triple_try; [done|]. intros [u|e] σ' [Hx Hm]; [done|]. left. by apply Hx.
Qed.

Lemma lost_publish {A} ss r g (k : unit → prog A) Q : triple (Lost ss) (publish_prog r (Some g) ≫= k) Q.
Proof.
  eapply triple_bind with (R := λ _ _, False); [|done]. apply lost_produce.
Qed.

Lemma lost_publish_unit ss r g Q : triple (Lost ss) (publish_prog r (Some g)) Q.
Proof. apply lost_produce. Qed.

Lemma lost_fail {A} ss e (Q : Phase → A → Prop) : triple (Lost ss) (pfail e) Q.
Proof. by right. Qed.

Lemma lost_lift {A B} ss (r : result SrError A) (k : A → prog B) Q :
  (∀ a, triple (Lost ss) (k a) Q) → triple (Lost ss) (plift r ≫= k) Q.
Proof. intros Hk. apply triple_lift; [by right|auto]. Qed.

Lemma lost_writable {A} ss subject (k : unit → prog A) Q :
  (∀ ss', triple (Lost ss') (k tt) Q) → triple (Lost ss) (ensure_writable_prog subject ≫= k) Q.
Proof.
  intros Hk. eapply triple_bind with (R := λ σ _, ∃ ss', σ = Lost ss').
  - apply triple_read_lost. intros x. case_match; [apply lost_fail|]. apply triple_ret. eauto.
  - intros σ [] [ss' ->]. apply Hk.
Qed.

Lemma lost_not_referenced {A} ss subject v (k : unit → prog A) Q :
  (∀ ss', triple (Lost ss') (k tt) Q) → triple (Lost ss) (not_referenced_prog subject v ≫= k) Q.
Proof.
  intros Hk. eapply triple_bind with (R := λ σ _, ∃ ss', σ = Lost ss').
  - apply triple_read_lost. intros x. case_match; [apply triple_ret; eauto|apply lost_fail].
  - intros σ [] [ss' ->]. apply Hk.
Qed.

Lemma lost_checks ss subject vs :
  triple (Lost ss) (none_referenced_prog subject vs) (λ σ _, ∃ ss', σ = Lost ss').
Proof.
  revert ss. induction vs as [|v vs IH]; intros ss; [apply triple_ret; eauto|].
  apply lost_not_referenced. apply IH.
Qed.

Lemma lost_none_referenced {A} ss subject vs (k : unit → prog A) Q :
  (∀ ss', triple (Lost ss') (k tt) Q) → triple (Lost ss) (none_referenced_prog subject vs ≫= k) Q.
Proof. intros Hk. eapply triple_bind; [apply lost_checks|]. intros σ [] [ss' ->]. apply Hk. Qed.
End protocol.

(** ** The writes *)

(** A program run by a node without the epoch: reads show anything, no send is
    acknowledged. *)
Ltac lost :=
  repeat first
    [ progress cbn zeta
    | progress intros
    | apply lost_writable; intros ?
    | apply lost_not_referenced; intros ?
    | apply lost_none_referenced; intros ?
    | apply triple_read_lost; intros ?
    | apply lost_lift; intros ?
    | apply lost_publish
    | apply lost_publish_unit
    | apply lost_produce
    | apply lost_fail
    | match goal with |- triple _ _ (match ?x with _ => _ end) _ => destruct x end ].

(** In step with the decision [Ho]: a failed check is the decided refusal, a
    passed one is a step of the decision. *)
Ltac refuses Ho := let e := fresh "e" in let He := fresh "He" in intros e He; by rewrite Ho, He.
Ltac accept Ho Hc := rewrite Hc in Ho; cbn [mbind result_bind] in Ho.

Section writes.
Context `{SchemaFormat} `{SerdeJsonLaws} `{UuidLib} `{!MarkerLaws}.

Lemma triple_writable {A} op s subject (k : unit → prog A) Q :
  (∀ e, spec_writable subject s = Err e → outcome op s = Err e) →
  (spec_writable subject s = Ok tt → triple op (Synced s) (k tt) Q) →
  (∀ ss, triple op (Lost ss) (k tt) Q) →
  triple op (Synced s) (ensure_writable_prog subject ≫= k) Q.
Proof.
  intros He Hk Hl. eapply triple_bind with (R := λ σ _,
    (spec_writable subject s = Ok tt ∧ σ = Synced s) ∨ ∃ ss, σ = Lost ss).
  - apply triple_read.
    + unfold spec_writable in *. case_match; [apply triple_fail; right; by apply He|apply triple_ret; auto].
    + intros x. case_match; [apply lost_fail|apply triple_ret; eauto].
  - intros σ [] [[Hw ->]|[ss ->]]; auto.
Qed.

Lemma triple_not_referenced {A} op s subject v (k : unit → prog A) Q :
  (∀ e, spec_not_referenced subject v s = Err e → outcome op s = Err e) →
  (spec_not_referenced subject v s = Ok tt → triple op (Synced s) (k tt) Q) →
  (∀ ss, triple op (Lost ss) (k tt) Q) →
  triple op (Synced s) (not_referenced_prog subject v ≫= k) Q.
Proof.
  intros He Hk Hl. eapply triple_bind with (R := λ σ _,
    (spec_not_referenced subject v s = Ok tt ∧ σ = Synced s) ∨ ∃ ss, σ = Lost ss).
  - apply triple_read.
    + unfold spec_not_referenced in *.
      case_match; [apply triple_ret; auto|apply triple_fail; right; by apply He].
    + intros x. case_match; [apply triple_ret; eauto|apply lost_fail].
  - intros σ [] [[Hw ->]|[ss ->]]; auto.
Qed.

Lemma triple_none_referenced {A} op s subject vs (k : unit → prog A) Q :
  (∀ e, spec_none_referenced subject vs s = Err e → outcome op s = Err e) →
  (spec_none_referenced subject vs s = Ok tt → triple op (Synced s) (k tt) Q) →
  (∀ ss, triple op (Lost ss) (k tt) Q) →
  triple op (Synced s) (none_referenced_prog subject vs ≫= k) Q.
Proof.
  intros He Hk Hl. eapply triple_bind with (R := λ σ _,
    (spec_none_referenced subject vs s = Ok tt ∧ σ = Synced s) ∨ ∃ ss, σ = Lost ss).
  2: { intros σ [] [[Hw ->]|[ss ->]]; auto. }
  clear Hk Hl. induction vs as [|v vs IH]; [apply triple_ret; auto|].
  apply triple_not_referenced.
  - intros e Hv. apply He. simpl. by rewrite Hv.
  - intros Hv. eapply triple_conseq; [apply IH|].
    + intros e Hvs. apply He. simpl. by rewrite Hv.
    + simpl. by rewrite Hv.
  - intros ss. eapply triple_conseq; [apply lost_checks|]. intros σ [] [ss' ->]. eauto.
Qed.

(** A pure check behind the barrier. *)
Lemma triple_check {A B} op s (r : result SrError A) (k : A → prog B) Q :
  (∀ e, r = Err e → outcome op s = Err e) → (∀ a, r = Ok a → triple op (Synced s) (k a) Q) →
  triple op (Synced s) (plift r ≫= k) Q.
Proof. intros He Hk. apply triple_lift; [|done]. intros e Hr. right. by apply He. Qed.

(** *** Registration *)

Lemma register_import_follows req schema resolved s g :
  request_ok req →
  (outcome (WRegister req) s = '(r, fs) ← decide_import req schema resolved s; Ok (ARegistered r, fs)) →
  triple (WRegister req) (Synced s) (register_import_prog req schema resolved (Some g))
    (λ σ r, answered (WRegister req) σ (ARegistered r)).
Proof.
  intros Hreq Ho. unfold decide_import in Ho. unfold register_import_prog.
  destruct (rq_import_id req) as [id|] eqn:Ei; [|by apply triple_fail; right].
  destruct (rq_import_version req) as [v|] eqn:Ev; [|by apply triple_fail; right].
  apply triple_check; [refuses Ho|]. intros c Hc. accept Ho Hc.
  apply triple_read; [|lost].
  apply triple_check; [refuses Ho|]. intros conflicts Hcf. accept Ho Hcf.
  destruct conflicts; [by apply triple_fail; right|].
  eapply triple_publish; [exact Ho| |done].
  apply (records_schema _ _ _ _ _ _ _ false None). by apply imported_value_ok.
Qed.

Lemma register_assign_follows req schema resolved s g :
  request_ok req → sane s →
  (outcome (WRegister req) s = '(r, fs) ← decide_assign req schema resolved s; Ok (ARegistered r, fs)) →
  triple (WRegister req) (Synced s) (register_assign_prog req schema resolved (Some g))
    (λ σ r, answered (WRegister req) σ (ARegistered r)).
Proof.
  intros Hreq Hs Ho. unfold decide_assign in Ho. unfold register_assign_prog. apply triple_read.
  2: { intros x. destruct (find_under_subject x _ _ _ _ _ _) as [r|] eqn:Hf; [|lost].
       apply triple_ret. exists x. split; [by left|]. by exists schema. }
  destruct (find_under_subject s _ _ _ _ _ _) as [r|]; [by apply triple_ret|].
  apply triple_read; [|lost]. apply triple_check; [refuses Ho|].
  intros [] Hc. accept Ho Hc. apply triple_read; [|lost].
  apply triple_check; [refuses Ho|]. intros [reg s'] Hreg. accept Ho Hreg.
  eapply triple_publish; [exact Ho| |done].
  apply (records_schema _ _ _ _ _ _ _ false None). by eapply assigned_value_ok.
Qed.

(** Without the epoch, both branches answer only what they have read. *)
Lemma register_lost req ss s g :
  triple (WRegister req) (Lost ss)
    (resolved ← plift (resolve_closure s (rq_references req));
     schema ← plift (normalized_storage_form (rq_ty req) (rq_schema req) resolved);
     register_assign_prog req schema resolved (Some g))
    (λ σ r, answered (WRegister req) σ (ARegistered r)).
Proof.
  do 2 (apply lost_lift; intros ?).
  unfold register_assign_prog. apply triple_read_lost. intros x'.
  destruct (find_under_subject x' _ _ _ _ _ _) as [r|] eqn:Hf; [|lost].
  apply triple_ret. exists x'. split; [by left|]. eexists. exact Hf.
Qed.

Lemma register_follows req :
  request_ok req →
  triple (WRegister req) Out (register_prog req) (λ σ r, answered (WRegister req) σ (ARegistered r)).
Proof.
  intros Hreq. apply triple_begin. intros s g Hs.
  assert (∀ ss s mode, triple (WRegister req) (Lost ss)
    (resolved ← plift (resolve_closure s (rq_references req));
     schema ← plift (normalized_storage_form (rq_ty req) (rq_schema req) resolved);
     if String.eqb mode "IMPORT" then register_import_prog req schema resolved (Some g)
     else register_assign_prog req schema resolved (Some g))
    (λ σ r, answered (WRegister req) σ (ARegistered r))) as Hlost.
  { intros ss s' mode. destruct (String.eqb mode "IMPORT"); [|apply register_lost].
    lost. unfold register_import_prog. lost. }
  apply triple_read; [|intros x; cbn zeta; case_match; [apply lost_fail|]; apply triple_read_lost; intros x'; apply Hlost].
  assert (outcome (WRegister req) s =
    ('(r, fs) ← decide_register req s; Ok (ARegistered r, fs))) as Ho by done.
  unfold decide_register in Ho. cbn zeta in Ho |- *.
  destruct (String.eqb (effective_mode s (rq_subject req)) "READONLY"); [by apply triple_fail; right|].
  apply triple_read; [|intros x; apply Hlost].
  apply triple_check; [refuses Ho|]. intros resolved Hres. accept Ho Hres.
  apply triple_check; [refuses Ho|]. intros schema Hsch. accept Ho Hsch.
  destruct (String.eqb (effective_mode s (rq_subject req)) "IMPORT").
  - by apply register_import_follows.
  - by apply register_assign_follows.
Qed.
(** *** Compatibility and mode *)

Abbreviation follows op p g := (triple op Out p (λ σ a, answered op σ (g a))).

Lemma set_compat_follows subject level :
  follows (WSetCompat subject level) (set_compat_prog subject level) (λ _, AUnit).
Proof.
  apply triple_begin. intros s g Hs. apply triple_read; [|lost].
  destruct (records_markers "" subject level "" 0 in_i32_0) as (Hr & _).
  assert (outcome (WSetCompat subject level) s =
    if String.eqb (match subject with Some sj => effective_mode s sj | None => global_mode s end) "READONLY"
    then Err (OperationNotPermitted (default "global" subject))
    else Ok (AUnit, [rec_config subject (Some level)])) as Ho by done.
  cbn zeta. case_match; [by apply triple_fail; right|].
  by eapply triple_publish_unit; [exact Ho|exact Hr|].
Qed.

Lemma delete_subject_compat_follows subject :
  follows (WDeleteSubjectCompat subject) (delete_subject_compat_prog subject) ALevel.
Proof.
  apply triple_begin. intros s g Hs. apply triple_read.
  2: { intros x. destruct (subject_compat x subject) eqn:Hc; [lost|]. apply triple_ret.
       exists x. split; [by left|exact Hc]. }
  destruct (records_markers subject None "" "" 0 in_i32_0) as (_ & Hr & _).
  assert (outcome (WDeleteSubjectCompat subject) s =
    match subject_compat s subject with
    | None => Ok (ALevel None, [])
    | Some level => Ok (ALevel (Some level), [rec_config (Some subject) None])
    end) as Ho by done.
  destruct (subject_compat s subject); [|by apply triple_ret].
  by eapply triple_publish; [exact Ho|exact Hr|].
Qed.

Lemma set_global_mode_follows mode :
  follows (WSetGlobalMode mode) (set_global_mode_prog mode) (λ _, AUnit).
Proof.
  unfold set_global_mode_prog. destruct (negb (existsb (String.eqb mode) valid_modes)) eqn:Hm.
  { apply triple_fail. right. intros s. cbn [outcome]. by rewrite Hm. }
  apply triple_begin. intros s g Hs. apply triple_read; [|lost].
  destruct (records_markers "" None "" mode 0 in_i32_0) as (_ & _ & Hr & _).
  pose proof (eq_refl : outcome (WSetGlobalMode mode) s =
    if negb (existsb (String.eqb mode) valid_modes) then Err (InvalidMode mode)
    else if String.eqb mode "IMPORT" && negb (bool_decide (list_subjects s true = []))
    then Err (OperationNotPermitted "registry not empty")
    else Ok (AUnit, [rec_mode None (Some mode)])) as Ho. rewrite Hm in Ho.
  case_match; [by apply triple_fail; right|]. by eapply triple_publish_unit; [exact Ho|exact Hr|].
Qed.

Lemma set_subject_mode_follows subject mode :
  follows (WSetSubjectMode subject mode) (set_subject_mode_prog subject mode) (λ _, AUnit).
Proof.
  unfold set_subject_mode_prog. destruct (negb (existsb (String.eqb mode) valid_modes)) eqn:Hm.
  { apply triple_fail. right. intros s. cbn [outcome]. by rewrite Hm. }
  apply triple_begin. intros s g Hs. apply triple_read; [|lost].
  destruct (records_markers "" (Some subject) "" mode 0 in_i32_0) as (_ & _ & Hr & _).
  pose proof (eq_refl : outcome (WSetSubjectMode subject mode) s =
    if negb (existsb (String.eqb mode) valid_modes) then Err (InvalidMode mode)
    else if String.eqb mode "IMPORT" && bool_decide (is_Some (versions s subject true))
    then Err (OperationNotPermitted subject)
    else Ok (AUnit, [rec_mode (Some subject) (Some mode)])) as Ho. rewrite Hm in Ho.
  case_match; [by apply triple_fail; right|]. by eapply triple_publish_unit; [exact Ho|exact Hr|].
Qed.

Lemma clear_subject_mode_follows subject :
  follows (WClearSubjectMode subject) (clear_subject_mode_prog subject) (λ _, AUnit).
Proof.
  apply triple_begin. intros s g Hs.
  destruct (records_markers subject None "" "" 0 in_i32_0) as (_ & _ & _ & Hr & _).
  by eapply triple_publish_unit; [done|exact Hr|].
Qed.

(** *** Deletion *)

Lemma soft_delete_version_follows subject v :
  follows (WSoftDeleteVersion subject v) (soft_delete_version_prog subject v) AVersion.
Proof.
  apply triple_begin. intros s g Hs.
  assert (∀ ss, triple (WSoftDeleteVersion subject v) (Lost ss)
    (s ← ask CRead;
     _ ← plift (ok_or (versions s subject true) (SubjectNotFound subject));
     found ← plift (ok_or (version s subject (Some v) true) VersionNotFound);
     _ ← not_referenced_prog subject v;
     let '(key, value) := encode_schema_deleted_with_message_type subject (vs_version found)
       (vs_id found) (vs_ty found) (vs_schema found) (vs_references found)
       (vs_message_type found, vs_extra found) in
     _ ← publish_prog (key, Some value) (Some g); mret (vs_version found))
    (λ σ a, answered (WSoftDeleteVersion subject v) σ (AVersion a))) as Hlost by (intros; lost).
  pose proof (eq_refl : outcome (WSoftDeleteVersion subject v) s = (
    _ ← spec_writable subject s;
    _ ← ok_or (versions s subject true) (SubjectNotFound subject);
    found ← ok_or (version s subject (Some v) true) VersionNotFound;
    _ ← spec_not_referenced subject v s;
    Ok (AVersion (vs_version found),
        [rec_schema (schema_value subject (vs_version found) (vs_id found) (vs_ty found)
           (vs_schema found) (vs_references found) (vs_message_type found) true (vs_extra found))]))) as Ho.
  apply triple_writable; [refuses Ho| |exact Hlost].
  intros Hw. accept Ho Hw. apply triple_read; [|lost].
  apply triple_check; [refuses Ho|]. intros l Hl. accept Ho Hl.
  apply triple_check; [refuses Ho|]. intros found Hf. accept Ho Hf.
  apply triple_not_referenced; [refuses Ho| |lost].
  intros Hn. accept Ho Hn.
  eapply triple_publish; [exact Ho| |done].
  apply (records_schema _ _ _ _ _ _ _ true (Some (vs_extra found))). eapply found_value_ok; [done|].
  unfold ok_or in Hf. case_match; by simplify_eq.
Qed.

Lemma permanent_delete_version_follows subject v :
  in_i32 v →
  follows (WPermanentDeleteVersion subject v) (permanent_delete_version_prog subject v) AVersion.
Proof.
  intros Hv. apply triple_begin. intros s g Hs.
  pose proof (eq_refl : outcome (WPermanentDeleteVersion subject v) s = (
    _ ← spec_writable subject s;
    _ ← permanent_delete_checks s subject v;
    _ ← spec_not_referenced subject v s;
    Ok (AVersion v, [rec_high_water subject (next_version s subject); rec_tombstone subject v]))) as Ho.
  apply triple_writable; [refuses Ho| |lost].
  intros Hw. accept Ho Hw. apply triple_read; [|lost].
  apply triple_check; [refuses Ho|]. intros [] Hc. accept Ho Hc.
  apply triple_not_referenced; [refuses Ho| |lost].
  intros Hn. accept Ho Hn. apply triple_read; [|lost].
  destruct (records_markers subject None "" "" _ (next_version_i32 s subject (proj1 Hs)))
    as (_ & _ & _ & _ & _ & Hhw & _).
  destruct (records_markers subject None "" "" v Hv) as (_ & _ & _ & _ & _ & _ & Htomb).
  eapply triple_bind; [eapply triple_produce_first; [exact Ho|exact Hhw]|]. intros σ [] ->.
  by eapply triple_publish_last; [apply triple_produce_next; exact Htomb|].
Qed.

Lemma soft_delete_subject_follows subject :
  follows (WSoftDeleteSubject subject) (soft_delete_subject_prog subject) AVersions.
Proof.
  apply triple_begin. intros s g Hs.
  pose proof (eq_refl : outcome (WSoftDeleteSubject subject) s = (
    _ ← spec_writable subject s;
    vs ← soft_delete_checks s subject;
    _ ← spec_none_referenced subject vs s;
    Ok (AVersions vs, [rec_delete_subject subject (highest vs)]))) as Ho.
  apply triple_writable; [refuses Ho| |lost].
  intros Hw. accept Ho Hw. apply triple_read; [|lost].
  apply triple_check; [refuses Ho|]. intros vs Hvs. accept Ho Hvs.
  apply triple_none_referenced; [refuses Ho| |lost].
  intros Hn. accept Ho Hn.
  destruct (records_markers subject None "" "" _
    (max_i32 vs (soft_delete_checks_i32 s subject vs (proj1 Hs) Hvs))) as (_ & _ & _ & _ & Hr & _).
  by eapply triple_publish; [exact Ho|exact Hr|].
Qed.

Lemma triple_tombstones op a s keys fs g :
  Forall2 (λ key f, records_as (key, None) f) keys fs →
  triple op (Writing a s fs) (produce_tombstones_prog keys (Some g))
    (λ σ _, ∃ s', σ = Writing a s' []).
Proof.
  intros Hf. revert s. induction Hf as [|key f keys fs Hr _ IH]; intros s; [apply triple_ret; eauto|].
  eapply triple_bind; [by apply triple_produce_next|]. intros σ [] ->. apply IH.
Qed.

Lemma tombstone_records subject all :
  Forall in_i32 all →
  Forall2 (λ key f, records_as (key, None) f)
    ((encode_tombstone subject <$> all) ++ [config_key (Some subject); mode_key (Some subject)])
    ((rec_tombstone subject <$> all) ++
     [rec_config (Some subject) None; rec_mode (Some subject) None]).
Proof.
  intros Hall. destruct (records_markers subject None "" "" 0 in_i32_0) as (_ & Hc & _ & Hm & _).
  apply Forall2_app; [|by constructor; [exact Hc|constructor; [exact Hm|constructor]]].
  induction Hall as [|v all Hv _ IH]; constructor; [|exact IH].
  by destruct (records_markers subject None "" "" v Hv) as (_ & _ & _ & _ & _ & _ & Ht).
Qed.

Lemma permanent_delete_subject_follows subject :
  follows (WPermanentDeleteSubject subject) (permanent_delete_subject_prog subject) AVersions.
Proof.
  apply triple_begin. intros s g Hs.
  pose proof (eq_refl : outcome (WPermanentDeleteSubject subject) s = (
    _ ← spec_writable subject s;
    all ← permanent_subject_checks s subject;
    _ ← spec_none_referenced subject all s;
    Ok (AVersions all, subject_delete_records subject all (next_version s subject)))) as Ho.
  apply triple_writable; [refuses Ho| |lost].
  intros Hw. accept Ho Hw. apply triple_read; [|lost].
  apply triple_check; [refuses Ho|]. intros all Hall. accept Ho Hall.
  apply triple_read; [|lost]. cbn zeta.
  apply triple_none_referenced; [refuses Ho| |lost].
  intros Hn. accept Ho Hn.
  destruct (records_markers subject None "" "" _ (next_version_i32 s subject (proj1 Hs)))
    as (_ & _ & _ & _ & _ & Hhw & _).
  eapply triple_bind; [eapply triple_produce_first; [exact Ho|exact Hhw]|]. intros σ [] ->.
  eapply triple_bind; [apply triple_tombstones, tombstone_records; by apply (permanent_subject_checks_i32 s subject all (proj1 Hs))|].
  intros σ [] [s' ->]. eapply triple_bind; [by apply triple_await_applied|]. by intros σ [] ->.
Qed.

(** All ten writes keep to the protocol. *)
Lemma writes_follow_protocol op :
  admissible op → wp op (ends op (answered op)) Out (program op).
Proof.
  intros Had. change (triple op Out (program op) (answered op)).
  destruct op; (eapply triple_bind; [|intros σ a Ha; apply triple_ret; exact Ha]).
  - by apply register_follows.
  - apply set_compat_follows.
  - apply delete_subject_compat_follows.
  - apply set_global_mode_follows.
  - apply set_subject_mode_follows.
  - apply clear_subject_mode_follows.
  - apply soft_delete_version_follows.
  - by apply permanent_delete_version_follows.
  - apply soft_delete_subject_follows.
  - apply permanent_delete_subject_follows.
Qed.
End writes.
