(* ===== verification/Cluster.v ===== *)
(** * Several registries on one topic (kafkastore/, election/)

    The replicated registry: any number of nodes that share the `_schemas`
    log, each with its own reader, its own view of the election, its own
    transactional producer and at most one write past its gate. A step of the
    cluster is one call of one node's write, or something that happens to it:
    its reader advances, its election view changes, its request is cancelled,
    its process restarts, a stray barrier record lands. Of the broker it is
    assumed, as documented for transactional producers, that initialising the
    shared transactional id starts a new epoch, and that a transaction of an
    older epoch never commits; a send of the current epoch may land even when
    it is reported as failed. Elections are not assumed to agree: any number of
    nodes may believe they lead.

    The nodes keep no common order but the log. [Cluster.v] shows that the log
    is nevertheless the work of one sequential registry. *)

From stdpp Require Import base gmap strings list pretty functions relations.
From Stdlib Require Import ZArith Lia.
From S2P Require Import Prelude Json Types Store Closure StoreFacts StoreSpec StoreQueries.
From S2P Require Import Record RecordFacts Compat Reader ReaderFacts KafkaStore KafkaFacts KafkaSpec.
From S2P Require Import Program Protocol.

Section cluster.
Context `{SchemaFormat} `{SerdeJsonLaws} `{UuidLib} `{!MarkerLaws}.

(** The registry every node starts from, and the election group. *)
Context (s0 : StoreState) (group : string).

(** ** State *)

(** A write past its gate: its number, its request, how many changes the
    registry had seen when it started, and what it has left to do. *)
Record Running := mkRunning {
  ru_id : nat;
  ru_op : WOp;
  ru_start : nat;
  ru_prog : prog WAnswer;
}.

Record Member := mkMember {
  m_view : PrimaryState;
  m_epoch : option nat;
  m_fenced : option Z;
  m_applied : nat;
  m_call : option Running;
}.

(** One committed change: which call made it, for which request. *)
Record Effect := mkEffect { ef_call : nat; ef_op : WOp }.

(** A call that has answered, with the changes seen at its start and end and
    whether the node still held the epoch. *)
Record Answer := mkAnswer {
  an_call : nat;
  an_op : WOp;
  an_start : nat;
  an_end : nat;
  an_holds : bool;
  an_result : result SrError WAnswer;
}.

Record Cluster := mkCluster {
  cl_log : list kv;
  cl_epoch : nat;
  cl_members : nat → Member;
  cl_next : nat;
  cl_history : list Effect;
  cl_answers : list Answer;
}.

Definition replay (log : list kv) : StoreState := foldl apply_kv s0 log.

(** What node [i] serves to its readers. *)
Definition view (st : Cluster) (i : nat) : StoreState :=
  replay (take (m_applied (cl_members st i)) (cl_log st)).

(** Node [i] holds the current producer epoch. *)
Definition holds (st : Cluster) (i : nat) : Prop :=
  m_epoch (cl_members st i) = Some (cl_epoch st).
#[global] Instance holds_dec st i : Decision (holds st i).
Proof. unfold holds. apply _. Defined.

(** ** Changes *)

Definition append (r : kv) (st : Cluster) : Cluster :=
  mkCluster (cl_log st ++ [r]) (cl_epoch st) (cl_members st) (cl_next st) (cl_history st)
    (cl_answers st).

(** A transaction of the call [ru] commits. *)
Definition land (ru : Running) (r : kv) (st : Cluster) : Cluster :=
  mkCluster (cl_log st ++ [r]) (cl_epoch st) (cl_members st) (cl_next st)
    (cl_history st ++ [mkEffect (ru_id ru) (ru_op ru)]) (cl_answers st).

Definition set_member (i : nat) (m : Member) (st : Cluster) : Cluster :=
  mkCluster (cl_log st) (cl_epoch st) (<[i := m]> (cl_members st)) (cl_next st) (cl_history st)
    (cl_answers st).

(** [init_transactions]: a new epoch, held by node [i]. *)
Definition new_epoch (i : nat) (g : Z) (st : Cluster) : Cluster :=
  let m := cl_members st i in
  mkCluster (cl_log st) (S (cl_epoch st))
    (<[i := mkMember (m_view m) (Some (S (cl_epoch st))) (Some g) (m_applied m) (m_call m)]>
       (cl_members st))
    (cl_next st) (cl_history st) (cl_answers st).

(** The same, with the answer lost on the way: nobody holds the new epoch. *)
Definition lose_epoch (st : Cluster) : Cluster :=
  mkCluster (cl_log st) (S (cl_epoch st)) (cl_members st) (cl_next st) (cl_history st)
    (cl_answers st).

Definition set_call (i : nat) (ru : option Running) (st : Cluster) : Cluster :=
  let m := cl_members st i in
  set_member i (mkMember (m_view m) (m_epoch m) (m_fenced m) (m_applied m) ru) st.

Definition start_call (i : nat) (op : WOp) (st : Cluster) : Cluster :=
  let st' := set_call i (Some (mkRunning (cl_next st) op (length (cl_history st)) (program op))) st in
  mkCluster (cl_log st') (cl_epoch st') (cl_members st') (S (cl_next st)) (cl_history st')
    (cl_answers st').

Definition finish_call (i : nat) (ru : Running) (r : result SrError WAnswer) (st : Cluster) : Cluster :=
  let st' := set_call i None st in
  mkCluster (cl_log st') (cl_epoch st') (cl_members st') (cl_next st') (cl_history st')
    (cl_answers st ++ [mkAnswer (ru_id ru) (ru_op ru) (ru_start ru) (length (cl_history st))
                         (bool_decide (holds st i)) r]).

(** ** Steps *)

(** What call [c] of node [i] may be answered, and what it leaves behind. *)
Definition answers (i : nat) (ru : Running) {X} (c : call X) (st : Cluster) : X → Cluster → Prop :=
  let m := cl_members st i in
  match c in call X return X → Cluster → Prop with
  | CPrimary => λ x st', x = Some (m_view m) ∧ st' = st
  | CGroup => λ x st', x = group ∧ st' = st
  | CFenced => λ x st', x = m_fenced m ∧ st' = st
  | CAwait => λ x st', fallible x ∧ st' = st
  | CAbort => λ _ st', st' = st
  | CInit g => λ x st', fallible x ∧
      match x with
      | Ok _ => st' = new_epoch i g st
      | Err _ => st' = st ∨ st' = lose_epoch st
      end
  | CBarrier => λ x st', fallible x ∧
      match x with
      | Ok b => b.2 = S (length (cl_log st)) ∧ st' = append (barrier_key b.1, Some "{}") st
      | Err _ => st' = st ∨ ∃ t, st' = append (barrier_key t, Some "{}") st
      end
  | CApplied n => λ x st', fallible x ∧ (x = Ok tt → n ≤ m_applied m) ∧ st' = st
  | CFinish t => λ x st', fallible x ∧ (st' = st ∨ st' = append (barrier_key t, None) st)
  | CRead => λ x st', x = view st i ∧ st' = st
  | CNote _ => λ _ st', st' = st
  | CSend None r => λ x st', fallible x ∧
      match x with
      | Ok _ => st' = append r st
      | Err _ => st' = st ∨ st' = append r st
      end
  | CSend (Some _) r => λ x st', fallible x ∧
      match x with
      | Ok _ => holds st i ∧ st' = land ru r st
      | Err _ => st' = st ∨ holds st i ∧ st' = land ru r st
      end
  end.

Inductive step (st : Cluster) : Cluster → Prop :=
  | step_start i op :
      m_call (cl_members st i) = None → admissible op → step st (start_call i op st)
  | step_call i ru X (c : call X) k x st' :
      m_call (cl_members st i) = Some ru → ru_prog ru = PCall c k → answers i ru c st x st' →
      step st (set_call i (Some (mkRunning (ru_id ru) (ru_op ru) (ru_start ru) (k x))) st')
  | step_done i ru r :
      m_call (cl_members st i) = Some ru → ru_prog ru = PRet r → step st (finish_call i ru r st)
  | step_cancel i ru :
      m_call (cl_members st i) = Some ru → step st (set_call i None st)
  | step_reader i n :
      m_applied (cl_members st i) ≤ n ≤ length (cl_log st) →
      step st (let m := cl_members st i in
               set_member i (mkMember (m_view m) (m_epoch m) (m_fenced m) n (m_call m)) st)
  | step_elect i v :
      step st (let m := cl_members st i in
               set_member i (mkMember v (m_epoch m) (m_fenced m) (m_applied m) (m_call m)) st)
  | step_restart i v :
      step st (set_member i (mkMember v None None 0 None) st)
  | step_marker t value : step st (append (barrier_key t, value) st).

Definition boot (views : nat → PrimaryState) : Cluster :=
  mkCluster [] 0 (λ i, mkMember (views i) None None 0 None) 0 [] [].

Definition reachable (st : Cluster) : Prop := ∃ views, rtc step (boot views) st.

(** ** The sequential registry *)

(** One registry, one request at a time; a request of several changes may be
    abandoned between them. *)
Record Sequential := mkSequential {
  sq_store : StoreState;
  sq_pending : option (nat * WAnswer * list Part);
}.

Definition sq_begin (ef : Effect) (s : StoreState) : option Sequential :=
  match outcome (ef_op ef) s with
  | Ok (a, f :: fs) => Some (mkSequential (apply_record f s) (Some (ef_call ef, a, fs)))
  | _ => None
  end.

Definition sq_step (ef : Effect) (q : Sequential) : option Sequential :=
  match sq_pending q with
  | Some (c, a, f :: fs) =>
      if decide (c = ef_call ef) then Some (mkSequential (apply_record f (sq_store q)) (Some (c, a, fs)))
      else sq_begin ef (sq_store q)
  | _ => sq_begin ef (sq_store q)
  end.

Fixpoint sq_run (q : Sequential) (h : list Effect) : option Sequential :=
  match h with
  | [] => Some q
  | ef :: h => q' ← sq_step ef q; sq_run q' h
  end.

Definition sequential (h : list Effect) : option Sequential := sq_run (mkSequential s0 None) h.

(** Call [c] has recorded the changes [done] of what it decided, with [rest]
    left; the calls of [h2] came after it. *)
Definition recorded (h : list Effect) (c : nat) (op : WOp) (a : WAnswer)
    (done rest : list Part) (h2 : list Effect) : Prop :=
  ∃ h1 q, h = h1 ++ replicate (length done) (mkEffect c op) ++ h2 ∧ sequential h1 = Some q ∧
    outcome op (sq_store q) = Ok (a, done ++ rest) ∧ done ≠ [] ∧
    c ∉ ef_call <$> h1 ∧ c ∉ ef_call <$> h2.
End cluster.
