(* ===== verification/ClusterFacts.v ===== *)
(** * The cluster is one sequential registry

    The invariant of [Cluster]: where each running write stands in the
    protocol of [Protocol], and what that says about the shared log. The
    theorem at the end reads it back as linearizability of the writes. *)

From stdpp Require Import base gmap strings list pretty functions relations.
From Stdlib Require Import ZArith Lia.
From S2P Require Import Prelude Json Types Store Closure StoreFacts StoreSpec StoreQueries.
From S2P Require Import Record RecordFacts Compat Reader ReaderFacts KafkaStore KafkaFacts KafkaSpec.
From S2P Require Import Program Protocol Cluster KafkaLive.

Section facts.
Context `{SchemaFormat} `{SerdeJsonLaws} `{UuidLib} `{!MarkerLaws}.
Context (s0 : StoreState) (group : string).

Abbreviation replay := (Cluster.replay s0).
Abbreviation sequential := (Cluster.sequential s0).
Abbreviation recorded := (Cluster.recorded s0).
Abbreviation step := (Cluster.step s0 group).
Abbreviation answers := (Cluster.answers s0 group).

(** ** Replay and the sequential registry *)

Lemma replay_app l l' : replay (l ++ l') = foldl apply_kv (replay l) l'.
Proof. apply foldl_app. Qed.

Lemma replay_noop l l' : Forall noop_kv l' → replay (l ++ l') = replay l.
Proof. intros Hn. by rewrite replay_app, foldl_noop. Qed.

(** A reader that has only markers left stands at the end of the log. *)
Lemma replay_take n log : Forall noop_kv (drop n log) → replay (take n log) = replay log.
Proof. intros Hn. rewrite <-(take_drop n log) at 2. by rewrite replay_noop. Qed.

Lemma sq_run_app q h h' : sq_run q (h ++ h') = (q' ← sq_run q h; sq_run q' h').
Proof.
  revert q. induction h as [|ef h IH]; intros q; [done|]. simpl. destruct (sq_step ef q); [apply IH|done].
Qed.

Lemma sequential_snoc h ef q : sequential h = Some q → sequential (h ++ [ef]) = sq_step ef q.
Proof.
  unfold Cluster.sequential. intros Hq. rewrite sq_run_app, Hq. simpl. by destruct (sq_step ef q).
Qed.

(** Every state of the sequential registry is sane, and stays sane under the
    changes still pending. *)
Definition sq_sane (q : Sequential) : Prop :=
  sane (sq_store q) ∧ ∀ c a fs, sq_pending q = Some (c, a, fs) → Forall keeps_sane fs.

Lemma sq_begin_sane ef s q :
  admissible (ef_op ef) → sane s → sq_begin ef s = Some q → sq_sane q.
Proof.
  unfold sq_begin. intros Had Hs. destruct (outcome (ef_op ef) s) as [[a [|f fs]]|] eqn:Ho; try done.
  intros [= <-]. apply outcome_keeps_sane in Ho; [|done..]. apply Forall_cons in Ho as [Hf Hfs].
  split; [by apply Hf|]. by intros ? ? ? [= <- <- <-].
Qed.

Lemma sq_step_sane ef q q' :
  admissible (ef_op ef) → sq_sane q → sq_step ef q = Some q' → sq_sane q'.
Proof.
  unfold sq_step. intros Had [Hs Hp]. destruct (sq_pending q) as [[[c a] [|f fs]]|].
  1, 3: by apply sq_begin_sane.
  case_decide; [|by apply sq_begin_sane]. intros [= <-].
  specialize (Hp c a (f :: fs) eq_refl). apply Forall_cons in Hp as [Hf Hfs].
  split; [by apply Hf|]. by intros ? ? ? [= <- <- <-].
Qed.

Lemma sequential_sane h q :
  sane s0 → Forall (λ ef, admissible (ef_op ef)) h → sequential h = Some q → sq_sane q.
Proof.
  intros Hs0. unfold Cluster.sequential. assert (sq_sane (mkSequential s0 None)) as Hq by done.
  revert Hq. generalize (mkSequential s0 None) as q0. induction h as [|ef h IH]; intros q0 Hq Hh.
  { by intros [= <-]. }
  apply Forall_cons in Hh as [Hef Hh]. simpl. destruct (sq_step ef q0) as [q1|] eqn:Hst; [|done].
  apply IH; [by eapply sq_step_sane|done].
Qed.

(** The pending request is one of the history. *)
Lemma sequential_pending h q c a fs :
  sequential h = Some q → sq_pending q = Some (c, a, fs) → c ∈ ef_call <$> h.
Proof.
  revert q a fs. induction h as [|ef h IH] using rev_ind; intros q a fs; [by intros [= <-]|].
  rewrite fmap_app. cbn [fmap list_fmap]. rewrite elem_of_app, list_elem_of_singleton.
  destruct (sequential h) as [q0|] eqn:Hh; unfold Cluster.sequential in *; rewrite sq_run_app, Hh; [|done].
  simpl. destruct (sq_step ef q0) as [q1|] eqn:Hst; [|done]. simpl. intros [= <-] Hp.
  unfold sq_step, sq_begin in Hst.
  destruct (sq_pending q0) as [[[c' a'] [|f fs']]|] eqn:Hp0; repeat case_match; simplify_eq/=; auto.
Qed.

(** A request not seen before begins afresh. *)
Lemma sq_step_fresh h q ef :
  sequential h = Some q → ef_call ef ∉ ef_call <$> h → sq_step ef q = sq_begin ef (sq_store q).
Proof.
  intros Hq Hf. unfold sq_step. destruct (sq_pending q) as [[[c a] [|f fs]]|] eqn:Hp; try done.
  case_decide; [subst|done]. destruct Hf. by eapply sequential_pending.
Qed.

(** ** Recorded changes *)

Lemma recorded_later h c op a done rest h2 ef :
  ef_call ef ≠ c → recorded h c op a done rest h2 → recorded (h ++ [ef]) c op a done rest (h2 ++ [ef]).
Proof.
  intros Hne (h1 & q & -> & Hq & Ho & Hd & H1' & H2'). exists h1, q. split_and!; [|done..|].
  - by rewrite <-!(assoc_L (++)).
  - rewrite fmap_app, elem_of_app. cbn [fmap list_fmap]. rewrite list_elem_of_singleton. naive_solver.
Qed.

Lemma recorded_first h q c op a f fs :
  sequential h = Some q → outcome op (sq_store q) = Ok (a, f :: fs) → c ∉ ef_call <$> h →
  recorded (h ++ [mkEffect c op]) c op a [f] fs [].
Proof. intros Hq Ho Hc. exists h, q. split_and!; try done. apply not_elem_of_nil. Qed.

Lemma recorded_next h c op a done f fs :
  recorded h c op a done (f :: fs) [] → recorded (h ++ [mkEffect c op]) c op a (done ++ [f]) fs [].
Proof.
  intros (h1 & q & -> & Hq & Ho & Hd & H1' & H2'). exists h1, q. split_and!; try done.
  - rewrite !app_nil_r, length_app. cbn [length].
    by rewrite replicate_add, <-!(assoc_L (++)).
  - by rewrite <-(assoc_L (++)).
  - by destruct done.
Qed.

(** ** Where a write stands *)

Definition fresh (h : list Effect) (c : nat) : Prop := c ∉ ef_call <$> h.

(** [s] is a state the log has gone through. *)
Definition was (log : list kv) (s : StoreState) : Prop := ∃ n, n ≤ length log ∧ s = replay (take n log).

(** What phase [σ] of call [c] says about the log, the history, and how far the
    node has read; [H] says that the node holds the epoch. *)
Definition stands (log : list kv) (h : list Effect) (H : Prop) (applied c : nat) (op : WOp)
    (σ : Phase) : Prop :=
  match σ with
  | Out => fresh h c
  | Ordered n => fresh h c ∧ (H → n ≤ length log ∧ Forall noop_kv (drop n log))
  | Synced s => fresh h c ∧ was log s ∧ (H → replay log = s ∧ Forall noop_kv (drop applied log))
  | Lost ss => fresh h c ∧ ¬ H ∧ Forall (was log) ss
  | Writing a s fs => ∃ ds h2, recorded h c op a ds fs h2 ∧
      (H → h2 = [] ∧ replay log = s ∧ ∃ q, sequential h = Some q ∧ sq_pending q = Some (c, a, fs))
  | Failed => True
  end.

Lemma was_app log l s : was log s → was (log ++ l) s.
Proof.
  intros (n & Hn & ->). exists n. rewrite length_app, take_app_le by done. split; [lia|done].
Qed.

Lemma Forall_was_app log l ss : Forall (was log) ss → Forall (was (log ++ l)) ss.
Proof. intros Hf. eapply Forall_impl; [exact Hf|]. intros s. apply was_app. Qed.

(** Markers, readers that advance and epochs that are lost disturb nothing. *)
Lemma stands_frame log l h (P P' : Prop) applied applied' c op σ :
  Forall noop_kv l → (P' → P) → applied ≤ applied' →
  stands log h P applied c op σ → stands (log ++ l) h P' applied' c op σ.
Proof.
  intros Hl HP Ha. destruct σ as [|n|s|ss|a s fs|]; cbn [stands]; [done| | | | |done].
  - intros [Hf Hn]. split; [done|]. intros HH. destruct (Hn (HP HH)) as [Hle Hd].
    rewrite length_app. split; [lia|]. by apply Forall_drop_app.
  - intros (Hf & Hw & Hn). split_and!; [done|by apply was_app|].
    intros HH. destruct (Hn (HP HH)) as [Hr Hd]. split; [by rewrite replay_noop|].
    apply Forall_drop_app; [|done]. by eapply Forall_drop_mono.
  - intros (Hf & HH & Hw). split_and!; [done|tauto|by apply Forall_was_app].
  - intros (ds & h2 & Hr & Hn). exists ds, h2. split; [done|]. intros HH.
    destruct (Hn (HP HH)) as (? & ? & ?). split_and!; [done| |done]. by rewrite replay_noop.
Qed.

Lemma fresh_snoc h ef c : ef_call ef ≠ c → fresh h c → fresh (h ++ [ef]) c.
Proof.
  unfold fresh. intros Hne Hf. rewrite fmap_app, elem_of_app. cbn [fmap list_fmap].
  rewrite list_elem_of_singleton. naive_solver.
Qed.

(** A change of another call, made while this node does not hold the epoch. *)
Lemma stands_foreign log h P (P' : Prop) applied r ef c op σ :
  ¬ P' → ef_call ef ≠ c →
  stands log h P applied c op σ → stands (log ++ [r]) (h ++ [ef]) P' applied c op σ.
Proof.
  intros HP Hne. destruct σ as [|n|s|ss|a s fs|]; cbn [stands]; [| | | | |done].
  - by apply fresh_snoc.
  - intros [Hf _]. split; [by apply fresh_snoc|done].
  - intros (Hf & Hw & _). split_and!; [by apply fresh_snoc|by apply was_app|done].
  - intros (Hf & _ & Hw). split_and!; [by apply fresh_snoc|done|by apply Forall_was_app].
  - intros (ds & h2 & Hr & _). exists ds, (h2 ++ [ef]). split; [by apply recorded_later|done].
Qed.

(** ** The invariant *)

Abbreviation protocol ru := (wp (ru_op ru) (ends (ru_op ru) (answered (ru_op ru)))).

(** No effect of call [c] lies outside the positions [[from, to)]. *)
Definition within (h : list Effect) (c from to : nat) : Prop :=
  fresh (take from h) c ∧ fresh (drop to h) c.

Definition running_ok (st : Cluster) (i : nat) (ru : Running) : Prop :=
  ru_id ru < cl_next st ∧ admissible (ru_op ru) ∧ ru_start ru ≤ length (cl_history st) ∧
  fresh (take (ru_start ru) (cl_history st)) (ru_id ru) ∧
  ∃ σ, protocol ru σ (ru_prog ru) ∧
    stands (cl_log st) (cl_history st) (holds st i) (m_applied (cl_members st i))
      (ru_id ru) (ru_op ru) σ.

(** A success wrote all it decided, or had nothing to write; a refusal wrote
    nothing and, of a node that held the epoch, is the decided one. *)
Definition answer_ok (log : list kv) (h : list Effect) (an : Answer) : Prop :=
  let c := an_call an in
  an_start an ≤ an_end an ≤ length h ∧ within h c (an_start an) (an_end an) ∧
  match an_result an with
  | Ok a =>
      (∃ ds h2, recorded h c (an_op an) a ds [] h2) ∨
      (fresh h c ∧ ∃ s, was log s ∧
         (outcome (an_op an) s = Ok (a, []) ∨ (an_holds an = false ∧ told (an_op an) s a)))
  | Err e =>
      transient e ∨
      (fresh h c ∧ (an_holds an = true → ∃ s, was log s ∧ outcome (an_op an) s = Err e))
  end.

Record core (st : Cluster) : Prop := {
  core_run : ∃ q, sequential (cl_history st) = Some q ∧ sq_store q = replay (cl_log st);
  core_views : ∀ n, n ≤ length (cl_log st) →
    ∃ j q, sequential (take j (cl_history st)) = Some q ∧ sq_store q = replay (take n (cl_log st));
  core_ids : Forall (λ ef, ef_call ef < cl_next st ∧ admissible (ef_op ef)) (cl_history st);
  core_epoch : ∀ i e, m_epoch (cl_members st i) = Some e → e ≤ cl_epoch st;
  core_owner : ∀ i j e, m_epoch (cl_members st i) = Some e → m_epoch (cl_members st j) = Some e → i = j;
  core_applied : ∀ i, m_applied (cl_members st i) ≤ length (cl_log st);
  core_distinct : ∀ i j ru ru', m_call (cl_members st i) = Some ru →
    m_call (cl_members st j) = Some ru' → ru_id ru = ru_id ru' → i = j;
  core_answers : Forall (λ an, an_call an < cl_next st ∧
    (∀ i ru, m_call (cl_members st i) = Some ru → ru_id ru ≠ an_call an) ∧
    answer_ok (cl_log st) (cl_history st) an) (cl_answers st);
}.

Definition inv (st : Cluster) : Prop :=
  core st ∧ ∀ i ru, m_call (cl_members st i) = Some ru → running_ok st i ru.

(** Every state the log has gone through is sane. *)
Lemma core_sane st s : sane s0 → core st → was (cl_log st) s → sane s.
Proof.
  intros Hs0 Hc (n & Hn & ->). destruct (core_views _ Hc n Hn) as (j & q & Hq & <-).
  eapply sequential_sane; [done| |exact Hq]. apply Forall_take. eapply Forall_impl; [apply (core_ids _ Hc)|].
  by intros ef [].
Qed.

(** ** Changes that keep the invariant *)

Lemma within_snoc h c from to ef :
  ef_call ef ≠ c → from ≤ length h → to ≤ length h →
  within h c from to → within (h ++ [ef]) c from to.
Proof.
  intros Hne Hf Ht [H1' H2']. split; [by rewrite take_app_le|].
  rewrite drop_app_le by done. by apply fresh_snoc.
Qed.

Lemma answer_ok_append log r h an : answer_ok log h an → answer_ok (log ++ [r]) h an.
Proof.
  intros (Hp & Hw & Hr). split_and!; [apply Hp..|done|]. destruct (an_result an) as [a|e].
  - destruct Hr as [Hr|(Hf & s & Hs & Ho)]; [by left|]. right. split; [done|]. exists s.
    split; [by apply was_app|done].
  - destruct Hr as [Hr|(Hf & Ho)]; [by left|]. right. split; [done|]. intros Hh.
    destruct (Ho Hh) as (s & Hs & He). exists s. split; [by apply was_app|done].
Qed.

Lemma answer_ok_foreign log h an ef :
  ef_call ef ≠ an_call an → answer_ok log h an → answer_ok log (h ++ [ef]) an.
Proof.
  intros Hne ([Hp1 Hp2] & Hw & Hr). split_and!; [done|rewrite length_app; lia|apply within_snoc; [done|lia|done|done]|].
  destruct (an_result an) as [a|e].
  - destruct Hr as [(ds & h2 & Hr)|(Hf & Ho)]; [left|right; split; [by apply fresh_snoc|done]].
    exists ds, (h2 ++ [ef]). by apply recorded_later.
  - destruct Hr as [Hr|(Hf & Ho)]; [by left|right; split; [by apply fresh_snoc|done]].
Qed.

Lemma core_append st r : noop_kv r → core st → core (append r st).
Proof.
  intros Hr [Hrun Hviews Hids Hep Hown Hap Hdis Han]. split; cbn [append cl_log cl_epoch cl_members cl_next cl_history cl_answers]; try done.
  - destruct Hrun as (q & Hq & Hs). exists q. split; [done|]. by rewrite replay_noop by (by repeat constructor).
  - intros n Hn. destruct (decide (n ≤ length (cl_log st))) as [Hle|].
    + rewrite take_app_le by done. by apply Hviews.
    + rewrite take_ge by (rewrite length_app in *; simpl in *; lia).
      rewrite replay_noop by (by repeat constructor). destruct Hrun as (q & Hq & Hs).
      exists (length (cl_history st)), q. by rewrite take_ge.
  - intros i. rewrite length_app. specialize (Hap i). lia.
  - eapply Forall_impl; [exact Han|]. intros an (? & ? & ?). split_and!; [done..|by apply answer_ok_append].
Qed.

Lemma running_append st r i ru : noop_kv r → running_ok st i ru → running_ok (append r st) i ru.
Proof.
  intros Hr (H1' & H2' & H3' & H4' & σ & Hwp & Hst). split_and!; try done. exists σ. split; [done|].
  eapply stands_frame; [by repeat constructor|..|exact Hst]; [done|done].
Qed.

(** A landed transaction: the sequential registry takes the same step. *)
Lemma core_land st i ru r q :
  core st → m_call (cl_members st i) = Some ru → ru_id ru < cl_next st → admissible (ru_op ru) →
  sequential (cl_history st ++ [mkEffect (ru_id ru) (ru_op ru)]) = Some q →
  sq_store q = apply_kv (replay (cl_log st)) r → core (land ru r st).
Proof.
  intros [Hrun Hviews Hids Hep Hown Hap Hdis Han] Hc Hid Had Hq Hs.
  assert (replay (cl_log st ++ [r]) = sq_store q) as Hlast by (by rewrite replay_app, Hs).
  split; cbn [land cl_log cl_epoch cl_members cl_next cl_history cl_answers]; try done.
  - exists q. done.
  - intros n Hn. destruct (decide (n ≤ length (cl_log st))) as [Hle|].
    + rewrite take_app_le by done. destruct (Hviews n Hle) as (j & q' & Hq' & Hs').
      exists (Nat.min j (length (cl_history st))), q'. rewrite take_app_le by lia.
      split; [|done]. destruct (decide (j ≤ length (cl_history st))); [by rewrite Nat.min_l|].
      rewrite Nat.min_r by lia. rewrite take_ge in Hq' by lia. by rewrite take_ge.
    + rewrite take_ge by (rewrite length_app in *; simpl in *; lia).
      eexists (S (length (cl_history st))), q. rewrite take_ge by (rewrite length_app; simpl; lia). done.
  - apply Forall_app. split; [done|]. by repeat constructor.
  - intros j. rewrite length_app. specialize (Hap j). lia.
  - eapply Forall_impl; [exact Han|]. intros an (Hlt & Hne & Hok). split_and!; [done..|].
    apply answer_ok_append, answer_ok_foreign; [|done]. by apply (Hne i).
Qed.

Lemma running_land st i ru r j ru' :
  core st → holds st i → m_call (cl_members st i) = Some ru → i ≠ j →
  m_call (cl_members st j) = Some ru' → running_ok st j ru' → running_ok (land ru r st) j ru'.
Proof.
  intros Hc Hi Hru Hij Hru' (H1' & H2' & H3' & H4' & σ & Hwp & Hst).
  assert (ru_id ru ≠ ru_id ru') as Hne by (intros He; by apply Hij, (core_distinct _ Hc i j ru ru')).
  split_and!; cbn [land cl_history cl_log cl_members cl_next]; [done|done|rewrite length_app; lia|by rewrite take_app_le|].
  exists σ. split; [done|]. eapply stands_foreign; [|done|exact Hst].
  intros Hj. by apply Hij, (core_owner _ Hc i j (cl_epoch st)).
Qed.

(** A new epoch: whoever held the old one has lost it. *)
Lemma core_new_epoch st i g : core st → core (new_epoch i g st).
Proof.
  intros [Hrun Hviews Hids Hep Hown Hap Hdis Han].
  assert (∀ j, m_call (cl_members (new_epoch i g st) j) = m_call (cl_members st j)) as Hcall.
  { intros j. cbn. unfold insert, fn_insert. by case_decide; subst. }
  split; try done.
  - intros j e. cbn. unfold insert, fn_insert. case_decide; cbn; [intros [= <-]; lia|].
    intros He. apply Hep in He. lia.
  - intros j k e. cbn. unfold insert, fn_insert. repeat case_decide; cbn; subst; try done.
    + intros [= <-] He. apply Hep in He. lia.
    + intros He [= <-]. apply Hep in He. lia.
    + apply Hown.
  - intros j. cbn. unfold insert, fn_insert. case_decide; cbn; subst; apply Hap.
  - intros j k. rewrite !Hcall. apply Hdis.
  - eapply Forall_impl; [exact Han|]. intros an (? & Hne & ?). split_and!; [done| |done].
    intros j ru. rewrite Hcall. apply Hne.
Qed.

Lemma core_lose_epoch st : core st → core (lose_epoch st).
Proof.
  intros [Hrun Hviews Hids Hep Hown Hap Hdis Han]. split; try done.
  intros i e He. apply Hep in He. cbn. lia.
Qed.

Lemma running_lose_epoch st j ru : core st → running_ok st j ru → running_ok (lose_epoch st) j ru.
Proof.
  intros Hc (H1' & H2' & H3' & H4' & σ & Hwp & Hst). split_and!; try done. exists σ. split; [done|].
  rewrite <-(app_nil_r (cl_log _)). eapply stands_frame; [done| |done|exact Hst].
  unfold holds. cbn. intros He. apply (core_epoch _ Hc) in He. lia.
Qed.

Lemma running_new_epoch st i g j ru :
  core st → i ≠ j → running_ok st j ru → running_ok (new_epoch i g st) j ru.
Proof.
  intros Hc Hij (H1' & H2' & H3' & H4' & σ & Hwp & Hst). split_and!; try done. exists σ. split; [done|].
  rewrite <-(app_nil_r (cl_log _)).
  assert (cl_members (new_epoch i g st) j = cl_members st j) as Hm.
  { cbn. unfold insert, fn_insert. by rewrite decide_False. }
  rewrite Hm. eapply stands_frame; [done| |done|exact Hst].
  unfold holds. rewrite Hm. cbn. intros He. apply (core_epoch _ Hc) in He. lia.
Qed.

(** A member changes: it may forget its epoch or its call, not gain one. *)
Lemma core_set_member st i m :
  core st → (m_epoch m = m_epoch (cl_members st i) ∨ m_epoch m = None) →
  m_applied m ≤ length (cl_log st) →
  (∀ ru', m_call m = Some ru' → ∃ ru, m_call (cl_members st i) = Some ru ∧ ru_id ru = ru_id ru') →
  core (set_member i m st).
Proof.
  intros [Hrun Hviews Hids Hep Hown Hap Hdis Han] He Ha Hc.
  assert (∀ j e, m_epoch (cl_members (set_member i m st) j) = Some e → m_epoch (cl_members st j) = Some e) as Hep'.
  { intros j e. cbn. unfold insert, fn_insert. case_decide; [subst j|done]. destruct He as [-> | ->]; done. }
  assert (∀ j ru', m_call (cl_members (set_member i m st) j) = Some ru' →
    ∃ ru, m_call (cl_members st j) = Some ru ∧ ru_id ru = ru_id ru') as Hc'.
  { intros j ru'. cbn. unfold insert, fn_insert. case_decide; [subst j; apply Hc|eauto]. }
  split; try done.
  - intros j e Hj. by apply (Hep j), Hep'.
  - intros j k e Hj Hk. by apply (Hown j k e); apply Hep'.
  - intros j. cbn. unfold insert, fn_insert. case_decide; [done|apply Hap].
  - intros j k ru ru' Hj Hk Hid. apply Hc' in Hj as (r1 & Hj & E1), Hk as (r2 & Hk & E2).
    apply (Hdis j k r1 r2); congruence.
  - eapply Forall_impl; [exact Han|]. intros an (? & Hne & ?). split_and!; [done| |done].
    intros j ru (r1 & Hj & <-)%Hc'. by apply (Hne j).
Qed.

Lemma running_set_member st i m j ru :
  i ≠ j → running_ok st j ru → running_ok (set_member i m st) j ru.
Proof.
  intros Hij Hr. unfold running_ok, holds in *. cbn [set_member cl_log cl_history cl_next cl_epoch cl_members].
  assert ((<[i:=m]> (cl_members st)) j = cl_members st j) as Hm.
  { unfold insert, fn_insert. by rewrite decide_False. }
  by rewrite Hm.
Qed.

(** ** One call *)

(** What a call of node [i] can leave behind, once the protocol is kept. *)
Inductive ripple (i : nat) (ru : Running) (st : Cluster) : Cluster → Prop :=
  | ripple_same : ripple i ru st st
  | ripple_marker r : noop_kv r → ripple i ru st (append r st)
  | ripple_init g : ripple i ru st (new_epoch i g st)
  | ripple_lose : ripple i ru st (lose_epoch st)
  | ripple_land r q :
      holds st i → sequential (cl_history st ++ [mkEffect (ru_id ru) (ru_op ru)]) = Some q →
      sq_store q = apply_kv (replay (cl_log st)) r → ripple i ru st (land ru r st).

Lemma ripple_core i ru st st' :
  core st → m_call (cl_members st i) = Some ru → running_ok st i ru → ripple i ru st st' → core st'.
Proof.
  intros Hc Hru (Hid & Had & _) [|r Hr|g| |r q Hh Hq Hs];
    [done|by apply core_append|by apply core_new_epoch|by apply core_lose_epoch|by eapply core_land].
Qed.

Lemma ripple_running i ru st st' j ru' :
  core st → m_call (cl_members st i) = Some ru → i ≠ j → m_call (cl_members st j) = Some ru' →
  ripple i ru st st' → running_ok st j ru' → running_ok st' j ru'.
Proof.
  intros Hc Hru Hij Hru' [|r Hr|g| |r q Hh Hq Hs] Hok;
    [done|by apply running_append|by apply running_new_epoch|by apply running_lose_epoch|by eapply running_land].
Qed.

(** The calls and their numbers stay, the history only grows. *)
Lemma ripple_calls i ru st st' :
  ripple i ru st st' →
  (∀ j, m_call (cl_members st' j) = m_call (cl_members st j)) ∧ cl_next st' = cl_next st ∧
  (∃ l, cl_history st' = cl_history st ++ l) ∧
  (∀ j, m_applied (cl_members st' j) = m_applied (cl_members st j)).
Proof.
  intros [|r Hr|g| |r q Hh Hq Hs]; split_and!; try done; try (by exists []; rewrite app_nil_r);
    try (by eexists); intros j; cbn; unfold insert, fn_insert; by case_decide; subst.
Qed.

Lemma view_was st i : core st → was (cl_log st) (view s0 st i).
Proof. intros Hc. exists (m_applied (cl_members st i)). split; [apply (core_applied _ Hc)|done]. Qed.

Abbreviation stands_at st i ru σ :=
  (stands (cl_log st) (cl_history st) (holds st i) (m_applied (cl_members st i)) (ru_id ru) (ru_op ru) σ).

(** A barrier of a node that holds the epoch ends the log. *)
Lemma barrier_moves st i ru σ (b : Uuid * nat) r :
  noop_kv r → b.2 = S (length (cl_log st)) → stands_at st i ru σ →
  stands_at (append r st) i ru (match σ with Out => Ordered b.2 | _ => σ end).
Proof.
  intros Hr Hb Hst. destruct σ as [| | | | |]; try (by eapply stands_frame; [by repeat constructor|..|exact Hst]).
  cbn. split; [done|]. intros _. rewrite Hb, length_app. cbn. split; [lia|].
  rewrite drop_ge; [constructor|]. rewrite length_app. cbn. lia.
Qed.

(** Behind the barrier, the reader of a node that holds the epoch has seen all
    there is. *)
Lemma applied_moves st i ru n m :
  core st → n ≤ m → m ≤ m_applied (cl_members st i) → stands_at st i ru (Ordered n) →
  stands_at st i ru (Synced (view s0 st i)).
Proof.
  intros Hc Hnm Hm [Hf Hn]. split_and!; [done|by apply view_was|]. intros HH.
  destruct (Hn HH) as [_ Hd].
  assert (Forall noop_kv (drop (m_applied (cl_members st i)) (cl_log st))) as Hd'.
  { eapply Forall_drop_mono; [|exact Hd]. lia. }
  split; [|done]. symmetry. by apply replay_take.
Qed.

Lemma read_moves st i ru σ :
  core st → stands_at st i ru σ →
  ∃ σ', stands_at st i ru σ' ∧
    match σ with
    | Synced s => (view s0 st i = s ∧ σ' = σ) ∨ σ' = Lost [view s0 st i]
    | Lost ss => σ' = Lost (view s0 st i :: ss)
    | _ => σ' = σ
    end.
Proof.
  intros Hc Hst. destruct σ as [|n|s|ss|a s fs|]; try (by eexists).
  - destruct (decide (holds st i)) as [Hh|Hh].
    + exists (Synced s). split; [done|]. left. split; [|done]. destruct Hst as (_ & _ & Hn).
      destruct (Hn Hh) as [<- Hd]. by apply replay_take.
    + exists (Lost [view s0 st i]). split; [|by right]. destruct Hst as (Hf & _ & _). split_and!; [done..|].
      repeat constructor. by apply view_was.
  - exists (Lost (view s0 st i :: ss)). split; [|done]. destruct Hst as (Hf & Hh & Hss).
    split_and!; [done..|]. constructor; [by apply view_was|done].
Qed.

(** A transaction that commits is the next step of the sequential registry. *)
Lemma send_moves st i ru σ g r :
  core st → holds st i → permits (ru_op ru) (CSend (Some g) r) σ → stands_at st i ru σ →
  (∃ q, sequential (cl_history st ++ [mkEffect (ru_id ru) (ru_op ru)]) = Some q ∧
        sq_store q = apply_kv (replay (cl_log st)) r) ∧
  ∃ σ', stands_at (land ru r st) i ru σ' ∧
    match σ with
    | Synced s => ∃ a f fs, outcome (ru_op ru) s = Ok (a, f :: fs) ∧ σ' = Writing a (apply_record f s) fs
    | Writing a s (f :: fs) => σ' = Writing a (apply_record f s) fs
    | _ => False
    end.
Proof.
  intros Hc Hh Hp Hst. destruct (core_run _ Hc) as (q & Hq & Hs).
  destruct σ as [|n|s|ss|a s [|f fs]|]; try done.
  - destruct Hp as (a & f & fs & Ho & Hr). destruct Hst as (Hf & _ & Hn). destruct (Hn Hh) as [Hrep _].
    rewrite Hrep in Hs. rewrite (sequential_snoc _ _ _ Hq), (sq_step_fresh _ _ (mkEffect (ru_id ru) (ru_op ru)) Hq Hf).
    unfold sq_begin. cbn [ef_op ef_call]. rewrite Hs, Ho. split.
    { eexists. split; [done|]. cbn. by rewrite Hrep, (records_as_apply _ _ _ Hr). }
    exists (Writing a (apply_record f s) fs). split; [|by exists a, f, fs]. exists [f], []. split.
    { eapply recorded_first; [done|by rewrite Hs|done]. }
    intros _. split_and!; [done|cbn [land cl_log]; rewrite replay_app, Hrep; by apply records_as_apply|].
    eexists. cbn [land cl_history]. rewrite (sequential_snoc _ _ _ Hq), (sq_step_fresh _ _ (mkEffect (ru_id ru) (ru_op ru)) Hq Hf).
    unfold sq_begin. cbn [ef_op ef_call]. rewrite Hs, Ho. done.
  - by destruct Hst as (_ & Hnh & _).
  - cbn in Hp. destruct Hst as (ds & h2 & Hrec & Hn). destruct (Hn Hh) as (-> & Hrep & q' & Hq' & Hpend).
    rewrite Hq in Hq'. injection Hq' as <-. rewrite Hrep in Hs.
    assert (sequential (cl_history st ++ [mkEffect (ru_id ru) (ru_op ru)]) =
      Some (mkSequential (apply_record f s) (Some (ru_id ru, a, fs)))) as Hsq.
    { rewrite (sequential_snoc _ _ _ Hq). unfold sq_step. rewrite Hpend. cbn [ef_call].
      rewrite decide_True by done. by rewrite Hs. }
    split; [eexists; split; [exact Hsq|]; cbn; by rewrite Hrep, (records_as_apply _ _ _ Hp)|].
    exists (Writing a (apply_record f s) fs). split; [|done]. exists (ds ++ [f]), []. split; [by apply recorded_next|].
    intros _. split_and!; [done|cbn [land cl_log]; rewrite replay_app, Hrep; by apply records_as_apply|]. eexists. by split.
Qed.

(** Nothing happened to the log: the write stands where it stood. *)
Lemma stay st i ru σ (P : Phase → Prop) :
  stands_at st i ru σ → P σ → ripple i ru st st ∧ ∃ σ', P σ' ∧ stands_at st i ru σ'.
Proof. intros Hst HP. split; [constructor|]. by exists σ. Qed.

Lemma stay_marker st i ru σ r (P : Phase → Prop) :
  noop_kv r → stands_at st i ru σ → P σ →
  ripple i ru st (append r st) ∧ ∃ σ', P σ' ∧ stands_at (append r st) i ru σ'.
Proof.
  intros Hr Hst HP. split; [by constructor|]. exists σ. split; [done|].
  eapply stands_frame; [by repeat constructor|..|exact Hst]; done.
Qed.

(** Every answer the cluster gives is a move of the protocol. *)
Lemma answers_moves st i ru σ X (c : call X) x st' :
  sane s0 → core st → permits (ru_op ru) c σ → stands_at st i ru σ → answers i ru c st x st' →
  ripple i ru st st' ∧ ∃ σ', moves (ru_op ru) c σ x σ' ∧ stands_at st' i ru σ'.
Proof.
  intros Hs0 Hc Hp Hst Ha. destruct c as [| | | | |g| |n|t| |r|[g|] r]; cbn [Cluster.answers moves] in *.
  - destruct Ha as [-> ->]. by eapply (stay st i ru σ).
  - destruct Ha as [-> ->]. by eapply (stay st i ru σ).
  - destruct Ha as [-> ->]. by eapply (stay st i ru σ).
  - destruct Ha as [Hx ->]. by eapply (stay st i ru σ).
  - subst. by eapply (stay st i ru σ).
  - destruct Ha as [Hx Ha]. cbn in Hp. subst σ. destruct x as [u|e].
    + subst. split; [constructor|]. exists Out. split; [done|exact Hst].
    + destruct Ha as [-> | ->]; [by eapply (stay st i ru Out)|]. split; [constructor|]. exists Out.
      split; [done|exact Hst].
  - destruct Ha as [Hx Ha]. destruct x as [b|e].
    + destruct Ha as [Hb ->]. split; [constructor; apply marker_noop|]. eexists. split; [done|].
      by apply barrier_moves; [apply marker_noop|..].
    + destruct Ha as [->|[t ->]]; [by eapply (stay st i ru σ)|].
      by eapply (stay_marker st i ru σ); [apply marker_noop|..].
  - destruct Ha as (Hx & Hn & ->). destruct x as [[]|e]; [|by eapply (stay st i ru σ)].
    destruct σ as [|m| | | |]; try (by eapply (stay st i ru)).
    case_decide; [|by eapply (stay st i ru (Ordered m))].
    apply (stay st i ru (Synced (view s0 st i))); [by eapply applied_moves; eauto|].
    split; [done|]. eexists. split; [|done]. eapply core_sane; [done..|by apply view_was].
  - destruct Ha as [Hx [-> | ->]]; [by eapply (stay st i ru σ)|].
    by eapply (stay_marker st i ru σ); [apply marker_noop|..].
  - destruct Ha as [-> ->]. destruct (read_moves st i ru σ Hc Hst) as (σ' & Hst' & Hm).
    apply (stay st i ru σ'); [done|]. split; [|done]. eapply core_sane; [done..|by apply view_was].
  - subst. by eapply (stay st i ru σ).
  - destruct Ha as [Hx Ha]. destruct x as [[]|e].
    + destruct Ha as [Hh ->]. destruct (send_moves st i ru σ g r Hc Hh Hp Hst) as ((q & Hq & Hs) & σ' & Hst' & Hm).
      split; [by econstructor|]. exists σ'. split; [|done]. split; [done|]. by destruct σ as [| | | |? ? []|].
    + destruct Ha as [->|[Hh ->]]; [by apply (stay st i ru Failed)|].
      destruct (send_moves st i ru σ g r Hc Hh Hp Hst) as ((q & Hq & Hs) & _).
      split; [by econstructor|]. by exists Failed.
  - done.
Qed.

(** ** Every step *)

(** The node itself, after its call was answered. *)
Lemma running_resume st i ru X (c : call X) k x st' :
  sane s0 → core st → running_ok st i ru → ru_prog ru = PCall c k → answers i ru c st x st' →
  ripple i ru st st' ∧
  running_ok (set_call i (Some (mkRunning (ru_id ru) (ru_op ru) (ru_start ru) (k x))) st') i
    (mkRunning (ru_id ru) (ru_op ru) (ru_start ru) (k x)).
Proof.
  intros Hs0 Hc (Hid & Had & Hstart & Hf & σ & Hwp & Hst) Hk Ha. rewrite Hk in Hwp.
  destruct Hwp as [Hp Hwp]. destruct (answers_moves st i ru σ X c x st' Hs0 Hc Hp Hst Ha) as (Hr & σ' & Hm & Hst').
  split; [done|]. destruct (ripple_calls i ru st st' Hr) as (_ & Hn & (l & Hl) & _).
  unfold running_ok, holds. cbn. unfold insert, fn_insert. rewrite decide_True by done. cbn.
  split_and!; [lia|done|rewrite Hl, length_app; lia|by rewrite Hl, take_app_le|].
  exists σ'. split; [by apply Hwp|exact Hst'].
Qed.

Lemma fresh_take h c n : fresh h c → fresh (take n h) c.
Proof. unfold fresh. intros Hf He. apply Hf. rewrite <-(take_drop n h), fmap_app. apply elem_of_app. by left. Qed.

(** The answer of a write that kept to the protocol. *)
Lemma finished_answer st i ru r :
  core st → running_ok st i ru → ru_prog ru = PRet r →
  answer_ok (cl_log st) (cl_history st)
    (mkAnswer (ru_id ru) (ru_op ru) (ru_start ru) (length (cl_history st)) (bool_decide (holds st i)) r).
Proof.
  intros Hc (Hid & Had & Hstart & Hf & σ & Hwp & Hst) Hr. rewrite Hr in Hwp. cbn in Hwp.
  assert (was (cl_log st) (replay [])) as Hw0 by (exists 0; split; [lia|done]).
  split_and!; cbn [an_start an_end an_call an_op an_holds an_result]; [done|done| |].
  { split; [done|]. rewrite drop_ge by done. apply not_elem_of_nil. }
  destruct r as [a|e]; cbn in Hwp.
  - destruct σ as [|n|s|ss|a' s [|f fs]|]; try done.
    + right. destruct Hst as (Hfr & Hw & _). split; [done|]. exists s. auto.
    + right. destruct Hst as (Hfr & Hnh & Hw). split; [done|]. destruct Hwp as (s & Hs & Ht).
      exists s. split; [by eapply Forall_forall in Hw|]. right. by rewrite bool_decide_eq_false_2.
    + left. cbn in Hwp. subst a'. by destruct Hst as (ds & h2 & Hrec & _); exists ds, h2.
  - destruct Hwp as [Ht|Hwp]; [by left|]. right. destruct σ as [|n|s|ss|a' s fs|]; try done.
    + split; [done|]. intros _. eauto.
    + destruct Hst as (Hfr & _). split; [done|]. intros _. eauto.
    + destruct Hst as (Hfr & Hw & _). split; [done|]. intros _. eauto.
    + destruct Hst as (Hfr & Hnh & _). split; [done|]. by rewrite bool_decide_eq_false_2.
Qed.

Lemma inv_call_kept st i m :
  inv st → (∀ ru, m_call m = Some ru → running_ok (set_member i m st) i ru) →
  core (set_member i m st) → inv (set_member i m st).
Proof.
  intros [Hc Hcalls] Hi Hc'. split; [done|]. intros j ru Hj.
  destruct (decide (i = j)) as [<-|Hij].
  - apply Hi. cbn in Hj. unfold insert, fn_insert in Hj. by rewrite decide_True in Hj by done.
  - apply running_set_member; [done|]. apply Hcalls. cbn in Hj. unfold insert, fn_insert in Hj.
    by rewrite decide_False in Hj by done.
Qed.

Lemma inv_set_call st i o :
  inv st → (∀ ru', o = Some ru' → running_ok (set_call i o st) i ru') →
  (∀ ru', o = Some ru' → ∃ ru, m_call (cl_members st i) = Some ru ∧ ru_id ru = ru_id ru') →
  inv (set_call i o st).
Proof.
  intros Hinv Hok Hid. apply inv_call_kept; [done|exact Hok|].
  apply core_set_member; [apply Hinv|by left|apply (core_applied _ (proj1 Hinv))|exact Hid].
Qed.

(** A running write is not disturbed when its reader advances. *)
Lemma running_reader st i ru v n :
  m_applied (cl_members st i) ≤ n → running_ok st i ru →
  running_ok (set_member i (mkMember v (m_epoch (cl_members st i)) (m_fenced (cl_members st i)) n
    (m_call (cl_members st i))) st) i ru.
Proof.
  intros Hn (Hid & Had & Hstart & Hf & σ & Hwp & Hst). split_and!; try done. exists σ. split; [done|].
  unfold holds. cbn. unfold insert, fn_insert. rewrite decide_True by done. cbn.
  rewrite <-(app_nil_r (cl_log st)). by eapply stands_frame; [done| | |exact Hst].
Qed.

Lemma inv_start st i op :
  inv st → m_call (cl_members st i) = None → admissible op → inv (start_call i op st).
Proof.
  intros [[Hrun Hviews Hids Hep Hown Hap Hdis Han] Hcalls] Hi Had.
  assert (fresh (cl_history st) (cl_next st)) as Hfresh.
  { unfold fresh. intros (ef & He & Hef)%list_elem_of_fmap. rewrite Forall_forall in Hids.
    apply Hids in Hef. lia. }
  assert (∀ j, m_epoch (cl_members (start_call i op st) j) = m_epoch (cl_members st j)) as Hep'.
  { intros j. cbn. unfold insert, fn_insert. by case_decide; subst. }
  assert (∀ j ru, m_call (cl_members (start_call i op st) j) = Some ru →
    (j = i ∧ ru_id ru = cl_next st) ∨ (j ≠ i ∧ m_call (cl_members st j) = Some ru)) as Hcall.
  { intros j ru. cbn. unfold insert, fn_insert. case_decide; subst; cbn; [intros [= <-]; by left|by right]. }
  split; [split; try done|].
  - eapply Forall_impl; [exact Hids|]. intros ef [Hlt ?]. split; [cbn; lia|done].
  - intros j e. rewrite Hep'. apply Hep.
  - intros j k e. rewrite !Hep'. apply Hown.
  - intros j. cbn. unfold insert, fn_insert. case_decide; subst; apply Hap.
  - intros j k ru ru' [[-> E1]|[Hj1 Hj]]%Hcall [[-> E2]|[Hk1 Hk]]%Hcall Hid; [done|..].
    + destruct (Hcalls k ru' Hk) as (Hlt & _). lia.
    + destruct (Hcalls j ru Hj) as (Hlt & _). lia.
    + by eapply Hdis.
  - eapply Forall_impl; [exact Han|]. intros an (Hlt & Hne & Hok). split_and!; [cbn; lia| |done].
    intros j ru [[-> E1]|[_ Hj]]%Hcall; [lia|by apply (Hne j)].
  - intros j ru Hj. pose proof Hj as [[-> E1]|[Hij Hj']]%Hcall.
    + cbn in Hj. unfold insert, fn_insert in Hj. rewrite decide_True in Hj by done. injection Hj as <-.
      split_and!; cbn [ru_id ru_op ru_start ru_prog]; [cbn; lia|done|done|by apply fresh_take|].
      exists Out. split; [by apply writes_follow_protocol|done].
    + destruct (running_set_member st i (mkMember (m_view (cl_members st i)) (m_epoch (cl_members st i))
        (m_fenced (cl_members st i)) (m_applied (cl_members st i))
        (Some (mkRunning (cl_next st) op (length (cl_history st)) (program op)))) j ru
        ltac:(congruence) (Hcalls j ru Hj')) as (Hlt & Hok).
      split; [cbn in *; lia|exact Hok].
Qed.

Lemma inv_finish st i ru r :
  inv st → m_call (cl_members st i) = Some ru → ru_prog ru = PRet r → inv (finish_call i ru r st).
Proof.
  intros Hinv Hru Hr. pose proof Hinv as [Hc Hcalls].
  destruct (inv_set_call st i None Hinv) as [[Hrun Hviews Hids Hep Hown Hap Hdis Han] Hcalls']; [done..|].
  split; [|exact Hcalls']. split; try done.
  cbn [finish_call cl_answers]. apply Forall_app. split; [exact Han|].
  apply Forall_cons_2; [|apply Forall_nil_2].
  pose proof (Hcalls i ru Hru) as Hok. split_and!; [exact (proj1 Hok)| |exact (finished_answer st i ru r Hc Hok Hr)].
  intros j ru' Hj. cbn in Hj. unfold insert, fn_insert in Hj. case_decide as Hij; [done|].
  intros Hid. apply Hij. symmetry in Hid. by eapply (core_distinct _ Hc).
Qed.

Lemma inv_marker st t v : inv st → inv (append (barrier_key t, v) st).
Proof.
  intros [Hc Hcalls]. split; [apply core_append; [apply marker_noop|done]|].
  intros i ru Hi. apply running_append; [apply marker_noop|]. by apply Hcalls.
Qed.

(** A call of a running write. *)
Lemma inv_resume st i ru X (c : call X) k x st' :
  sane s0 → inv st → m_call (cl_members st i) = Some ru → ru_prog ru = PCall c k →
  answers i ru c st x st' →
  inv (set_call i (Some (mkRunning (ru_id ru) (ru_op ru) (ru_start ru) (k x))) st').
Proof.
  intros Hs0 [Hc Hcalls] Hru Hk Ha. pose proof (Hcalls i ru Hru) as Hok.
  destruct (running_resume st i ru X c k x st' Hs0 Hc Hok Hk Ha) as [Hr Hi].
  pose proof (ripple_core i ru st st' Hc Hru Hok Hr) as Hc'.
  destruct (ripple_calls i ru st st' Hr) as (Hcall & _ & _ & _). split.
  - apply core_set_member; [done|by left|apply (core_applied _ Hc')|].
    intros ru' [= <-]. exists ru. by rewrite Hcall.
  - intros j ru' Hj. cbn in Hj. unfold insert, fn_insert in Hj. case_decide as Hij.
    + subst j. injection Hj as <-. exact Hi.
    + apply running_set_member; [done|]. rewrite Hcall in Hj.
      by apply (ripple_running i ru st st' j ru'); auto.
Qed.

Lemma inv_step st st' : sane s0 → inv st → step st st' → inv st'.
Proof.
  intros Hs0 Hinv. pose proof Hinv as [Hc Hcalls].
  intros [i op Hi Had|i ru X c k x st1 Hru Hk Ha|i ru r Hru Hr|i ru Hru|i n Hn|i v|i v|t v].
  - by apply inv_start.
  - by eapply inv_resume.
  - by apply inv_finish.
  - by apply inv_set_call.
  - apply inv_call_kept; [done| |].
    + intros ru Hru. apply running_reader; [lia|]. by apply Hcalls.
    + apply core_set_member; [done|by left|cbn; lia|cbn; eauto].
  - apply inv_call_kept; [done| |].
    + intros ru Hru. apply running_reader; [lia|]. by apply Hcalls.
    + apply core_set_member; [done|by left|apply (core_applied _ Hc)|cbn; eauto].
  - apply inv_call_kept; [done|done|]. apply core_set_member; [done|by right|cbn; lia|done].
  - by apply inv_marker.
Qed.

Lemma inv_boot views : inv (boot views).
Proof.
  split; [|done]. split; try done; [by eexists|].
  intros n Hn. exists 0. eexists. split; [done|]. cbn [boot cl_log]. by rewrite take_nil.
Qed.

Lemma reachable_inv st : sane s0 → reachable s0 group st → inv st.
Proof.
  intros Hs0 (views & Hst). revert Hst. generalize (inv_boot views). generalize (boot views).
  intros st1 Hinv Hst. induction Hst as [|x y z Hxy _ IH]; [done|]. apply IH. by eapply inv_step.
Qed.

(** C3: the replicated registry is one registry. Take any number of nodes, any interleaving of
    their calls, any election views (two nodes may both believe they lead), readers that lag,
    sends reported as failed that landed, cancelled requests and restarts. In every state the
    cluster can reach, (1) the replay of the shared log is the state of one sequential registry
    that executes the requests one at a time as specified; (2) every node serves a state that
    sequential registry went through, and a well-formed one; (3) every answer is justified: a
    success made exactly the changes its request decided on at one point between its start and
    its end, together and in order, or (nothing to write) reported what was stored; a refusal
    wrote nothing, and one given by a node that still held the producer epoch is the refusal the
    specification gives on a state of the log. *)
Theorem cluster_linearizable st :
  sane s0 → reachable s0 group st →
  (∃ q, sequential (cl_history st) = Some q ∧ sq_store q = replay (cl_log st)) ∧
  (∀ i, sane (view s0 st i) ∧
     ∃ j q, sequential (take j (cl_history st)) = Some q ∧ sq_store q = view s0 st i) ∧
  Forall (answer_ok (cl_log st) (cl_history st)) (cl_answers st).
Proof.
  intros Hs0 Hst. destruct (reachable_inv st Hs0 Hst) as [Hc _]. split_and!.
  - apply (core_run _ Hc).
  - intros i. split; [eapply core_sane; [done..|by apply view_was]|].
    apply (core_views _ Hc), (core_applied _ Hc).
  - eapply Forall_impl; [apply (core_answers _ Hc)|]. by intros an (_ & _ & Hok).
Qed.
End facts.
