(* ===== verification/ClusterRun.v ===== *)
(** * Running the cluster

    A scheduler for [Cluster]: it drives one node's write to its end against a
    broker that answers every call it may. Its runs are runs of the cluster
    ([drive_steps]), so concrete histories can be evaluated. *)

From stdpp Require Import base gmap strings list pretty functions relations.
From Stdlib Require Import ZArith Lia.
From S2P Require Import Prelude Json Types Store Closure StoreFacts StoreSpec StoreQueries.
From S2P Require Import Record RecordFacts Compat Reader ReaderFacts KafkaStore KafkaFacts KafkaSpec.
From S2P Require Import KafkaLive Program Protocol Cluster ClusterFacts.

Section run.
Context `{SchemaFormat} `{SerdeJsonLaws} `{UuidLib} `{!MarkerLaws}.
Context (s0 : StoreState) (group : string) (token : Uuid).

(** The broker's answer when nothing goes wrong; it refuses the transactions
    of an old epoch. *)
Definition reply (i : nat) (ru : Running) {X} (c : call X) (st : Cluster) : X * Cluster :=
  let m := cl_members st i in
  match c in call X return X * Cluster with
  | CPrimary => (Some (m_view m), st)
  | CGroup => (group, st)
  | CFenced => (m_fenced m, st)
  | CAwait => (Ok tt, st)
  | CAbort => (tt, st)
  | CInit g => (Ok tt, new_epoch i g st)
  | CBarrier => (Ok (token, S (length (cl_log st))), append (barrier_key token, Some "{}") st)
  | CApplied n => (if decide (n ≤ m_applied m) then Ok tt else Err OperationTimedOut, st)
  | CFinish t => (Ok tt, append (barrier_key t, None) st)
  | CRead => (view s0 st i, st)
  | CNote _ => (tt, st)
  | CSend None r => (Ok tt, append r st)
  | CSend (Some _) r =>
      if decide (holds st i) then (Ok tt, land ru r st)
      else (Err (Backend "producer fenced"), st)
  end.

Lemma reply_answers i ru X (c : call X) st :
  answers s0 group i ru c st (reply i ru c st).1 (reply i ru c st).2.
Proof.
  destruct c as [| | | | |g| |n|t| |r|[g|] r]; cbn [reply answers fst snd]; try done;
    try (by split_and!; auto).
  - case_decide; split_and!; try done; by intros e [= <-].
  - case_decide; cbn [fst snd]; split_and!; auto; by intros e [= <-].
Qed.

(** The reader of node [i] catches up. *)
Definition catch_up (i : nat) (st : Cluster) : Cluster :=
  let m := cl_members st i in
  set_member i (mkMember (m_view m) (m_epoch m) (m_fenced m) (length (cl_log st)) (m_call m)) st.

(** Node [i] runs until its write has answered, its reader keeping up. *)
Fixpoint drive (fuel : nat) (i : nat) (st : Cluster) : Cluster :=
  match fuel with
  | 0 => st
  | S fuel =>
      if decide (m_applied (cl_members st i) ≤ length (cl_log st)) then
        let st := catch_up i st in
        match m_call (cl_members st i) with
        | None => st
        | Some ru =>
            match ru_prog ru with
            | PRet r => finish_call i ru r st
            | PCall c k =>
                drive fuel i (set_call i
                  (Some (mkRunning (ru_id ru) (ru_op ru) (ru_start ru) (k (reply i ru c st).1)))
                  (reply i ru c st).2)
            end
        end
      else st
  end.

Lemma drive_steps fuel i st : rtc (step s0 group) st (drive fuel i st).
Proof.
  revert st. induction fuel as [|fuel IH]; intros st; cbn [drive]; [done|].
  case_decide; [|done].
  assert (step s0 group st (catch_up i st)) as Hcatch by (apply step_reader; lia).
  eapply rtc_l; [exact Hcatch|]. cbn zeta.
  destruct (m_call (cl_members (catch_up i st) i)) as [ru|] eqn:Hru; [|done].
  destruct (ru_prog ru) as [r|X c k] eqn:Hp.
  - apply rtc_once. by apply step_done.
  - eapply rtc_l; [|apply IH]. eapply step_call; [done..|apply reply_answers].
Qed.

(** One whole request at node [i]. *)
Definition request (fuel i : nat) (op : WOp) (st : Cluster) : Cluster := drive fuel i (start_call i op st).

Lemma request_steps fuel i op st :
  m_call (cl_members st i) = None → admissible op → rtc (step s0 group) st (request fuel i op st).
Proof. intros Hi Had. eapply rtc_l; [by apply step_start|]. apply drive_steps. Qed.

(** The election tells node [i] it leads generation [g]. *)
Definition leader (member : string) (g : Z) : PrimaryState :=
  mkPrimaryState true None (Some g) (Some member).

Definition elect (i : nat) (v : PrimaryState) (st : Cluster) : Cluster :=
  let m := cl_members st i in
  set_member i (mkMember v (m_epoch m) (m_fenced m) (m_applied m) (m_call m)) st.
End run.

(** ** Two primaries at once *)

Section witnesses.
#[local] Existing Instance echo_format.
#[local] Existing Instance marker_serde.
#[local] Existing Instance marker_serde_laws.
#[local] Existing Instance string_uuid.
#[local] Existing Instance marker_laws.

Definition follower : PrimaryState := mkPrimaryState false None (Some 1%Z) (Some "m").

Definition orders (schema : string) : WOp :=
  WRegister (mkRegisterSchema "orders" Avro schema [] None None None).

Abbreviation demo_request := (request default_store "schema-registry" ("t" : @Uuid string_uuid) 60).

Lemma orders_admissible schema : admissible (orders schema).
Proof. by split_and!. Qed.

Definition demo_boot : Cluster := boot (λ i, if decide (i = 0) then leader "a" 1 else follower).

(** Node 0 leads generation 1 and registers; node 1 is elected to generation 2
    and registers; node 0, which has not heard of it, tries again. *)
Definition first_primary : Cluster := demo_request 0 (orders "X") demo_boot.
Definition second_primary : Cluster := demo_request 1 (orders "Y") (elect 1 (leader "b" 2) first_primary).
Definition two_primaries : Cluster := demo_request 0 (orders "Z") second_primary.

Abbreviation demo_steps := (rtc (step default_store "schema-registry")).

Lemma partial_steps fuel i schema st :
  bool_decide (is_Some (m_call (cl_members st i))) = false →
  demo_steps st (request default_store "schema-registry" ("t" : @Uuid string_uuid) fuel i (orders schema) st).
Proof.
  intros Hi%bool_decide_eq_false. apply request_steps; [|apply orders_admissible].
  destruct (m_call (cl_members st i)); [|done]. by destruct Hi.
Qed.

Lemma elect_step i v st : demo_steps st (elect i v st).
Proof. apply rtc_once, step_elect. Qed.

Lemma second_primary_steps : demo_steps demo_boot second_primary.
Proof.
  transitivity first_primary; [apply partial_steps; reflexivity|].
  transitivity (elect 1 (leader "b" 2) first_primary); [apply elect_step|].
  apply partial_steps. vm_compute. reflexivity.
Qed.

Lemma two_primaries_reachable : reachable default_store "schema-registry" two_primaries.
Proof.
  eexists. transitivity second_primary; [exact second_primary_steps|].
  apply partial_steps. vm_compute. reflexivity.
Qed.

Lemma default_store_sane : sane default_store.
Proof. split; [apply default_store_wf|]. intros id reg Hid. vm_compute in Hid. discriminate. Qed.

Lemma cluster_linearizable_witness :
  (an_result <$> cl_answers two_primaries) =
    [Ok (ARegistered (mkRegistered 1 1)); Ok (ARegistered (mkRegistered 2 2));
     Err (Backend "producer fenced")] ∧
  Forall (answer_ok default_store (cl_log two_primaries) (cl_history two_primaries))
    (cl_answers two_primaries).
Proof.
  split; [vm_compute; reflexivity|].
  apply (cluster_linearizable default_store "schema-registry" two_primaries default_store_sane
    two_primaries_reachable).
Defined.

(** ** A primary fenced out by its predecessor *)

(** Node 1 leads generation 2 and has registered. Node 0 has not heard of it:
    its next write initialises the transactional id again, and is cancelled
    there. Node 1 then tries two more registrations. *)
Definition newly_elected : Cluster := demo_request 1 (orders "Y") (elect 1 (leader "b" 2) demo_boot).
Definition interrupted : Cluster :=
  request default_store "schema-registry" ("t" : @Uuid string_uuid) 5 0 (orders "X") newly_elected.
Definition usurped : Cluster := set_call 0 None interrupted.
Definition retried : Cluster := demo_request 1 (orders "Z") usurped.
Definition locked_out : Cluster := demo_request 1 (orders "Z") retried.

Lemma cancel_steps i st :
  bool_decide (is_Some (m_call (cl_members st i))) = true → demo_steps st (set_call i None st).
Proof. intros [ru Hru]%bool_decide_eq_true. apply rtc_once. by eapply step_cancel. Qed.

Lemma usurped_steps : demo_steps demo_boot usurped.
Proof.
  transitivity (elect 1 (leader "b" 2) demo_boot); [apply elect_step|].
  transitivity newly_elected; [apply partial_steps; vm_compute; reflexivity|].
  transitivity interrupted; [apply partial_steps; vm_compute; reflexivity|].
  apply cancel_steps. vm_compute. reflexivity.
Qed.

(** A primary that another node has fenced out stays locked out for the rest
    of its generation: it believes it has fenced ([m_fenced] is its
    generation), so it does not initialise its producer again, and every
    registration fails although all calls are answered. *)
Lemma fenced_primary_locked_out :
  reachable default_store "schema-registry" locked_out ∧
  m_view (cl_members locked_out 1) = leader "b" 2 ∧ m_fenced (cl_members locked_out 1) = Some 2%Z ∧
  ¬ holds locked_out 1 ∧
  (an_result <$> cl_answers locked_out) =
    [Ok (ARegistered (mkRegistered 1 1)); Err (Backend "producer fenced"); Err (Backend "producer fenced")].
Proof.
  split_and!; [|vm_compute; reflexivity|vm_compute; reflexivity|vm_compute; discriminate|vm_compute; reflexivity].
  eexists. transitivity usurped; [exact usurped_steps|].
  transitivity retried; apply partial_steps; vm_compute; reflexivity.
Qed.
End witnesses.
