(* ===== verification/Compaction.v ===== *)
(** * Compaction of the [_schemas] topic (kafkastore/topic.rs, kafkastore/reader.rs)

    The topic is created with [cleanup.policy=compact] (kafkastore/topic.rs),
    so the log a node replays when it starts is not the log that was written:
    the broker may drop any record whose key is written again later, and a
    null value once nothing with its key is left before it. The relation
    [compact] is that rule.

    The replay is described first as a table of slots: the entry of a version,
    the deleted flags of a subject, a compatibility level, a mode, a subject's
    next version. Every record writes one slot, [forget] erases one, and three
    laws say that a record's effect is erased with its slot, that erasing a
    slot commutes with every record, and that a record restores what its slot
    had lost. They give the theorem of the file: on a regular log compaction
    changes nothing of what the registry serves. *)

From stdpp Require Import base gmap strings list pretty sorting relations.
From Stdlib Require Import ZArith Lia.
From S2P Require Import Prelude Json Types Store Closure StoreFacts StoreSpec StoreQueries.
From S2P Require Import Record RecordFacts Reader ReaderFacts KafkaStore KafkaFacts Slots.

Section keys.
Context `{SerdeJson}.

(** ** Compaction *)

(** One record dropped by the log cleaner. *)
Inductive compact : relation (list kv) :=
  | compact_superseded a r b r' c :
      r.1 = r'.1 → compact (a ++ r :: b ++ r' :: c) (a ++ b ++ r' :: c)
  | compact_tombstone a r c :
      r.2 = None → (∀ r', r' ∈ a → r'.1 ≠ r.1) → compact (a ++ r :: c) (a ++ c).

(** The cleaner at its most thorough: the last record of every key, and no null. *)
Fixpoint keep_last (log : list kv) : list kv :=
  match log with
  | [] => []
  | r :: log =>
      if existsb (λ r', String.eqb r'.1 r.1) log then keep_last log else r :: keep_last log
  end.

Definition clean (log : list kv) : list kv :=
  List.filter (λ r, bool_decide (r.2 ≠ None)) (keep_last log).

Lemma keep_last_compact a log : rtc compact (a ++ log) (a ++ keep_last log).
Proof.
  revert a. induction log as [|r log IH]; intros a; simpl; [done|].
  destruct (existsb _ log) eqn:He.
  - apply existsb_exists in He as (r' & Hr'%list_elem_of_In & Hk%String.eqb_eq).
    apply list_elem_of_split in Hr' as (b & c & ->).
    eapply rtc_l; [by apply compact_superseded|apply IH].
  - rewrite (cons_middle r a log), (cons_middle r a (keep_last log)), !(assoc_L (++)). apply IH.
Qed.

Lemma keep_last_elem r log : r ∈ keep_last log → r ∈ log.
Proof.
  induction log as [|x log IH]; simpl; [done|]. rewrite elem_of_cons.
  destruct (existsb _ log); [auto|]. rewrite elem_of_cons. naive_solver.
Qed.

Lemma keep_last_NoDup log : NoDup (keep_last log).*1.
Proof.
  induction log as [|r log IH]; simpl; [constructor|]. destruct (existsb _ log) eqn:He; [done|].
  rewrite fmap_cons. constructor; [|done]. intros (r' & Hk & Hr'%keep_last_elem)%list_elem_of_fmap.
  apply not_true_iff_false in He. apply He, existsb_exists. exists r'.
  split; [by apply list_elem_of_In|]. by apply String.eqb_eq.
Qed.

Lemma drop_nulls_compact a log :
  NoDup (a ++ log).*1 →
  rtc compact (a ++ log) (a ++ List.filter (λ r, bool_decide (r.2 ≠ None)) log).
Proof.
  revert a. induction log as [|r log IH]; intros a Hnd; simpl; [done|].
  case_bool_decide as Hr.
  - rewrite (cons_middle r a log), (cons_middle r a), !(assoc_L (++)). apply IH.
    by rewrite <-(assoc_L (++)).
  - rewrite fmap_app, fmap_cons, NoDup_app in Hnd. destruct Hnd as (Ha & Hdis & Hrest%NoDup_cons).
    eapply rtc_l; [apply compact_tombstone; [done|]|apply IH].
    + intros r' Hr' Heq. apply (Hdis r'.1); [apply list_elem_of_fmap; eauto|].
      rewrite Heq. apply elem_of_cons. auto.
    + rewrite fmap_app, NoDup_app. split_and!; [done| |apply Hrest].
      intros k Hk Hk'. apply (Hdis k Hk), elem_of_cons. auto.
Qed.

(** What [clean] does, the cleaner may do. *)
Lemma clean_compact log : rtc compact log (clean log).
Proof.
  transitivity (keep_last log); [apply (keep_last_compact [])|].
  apply (drop_nulls_compact []), keep_last_NoDup.
Qed.

(** ** Regular logs *)

(** [r] raises the next version of [subject] to [n] with a high-water record. *)
Definition raises (r : kv) (subject : string) (n : Z) : Prop :=
  match decode r.1 r.2 with
  | RVersionHighWater k v => vk_subject k = subject ∧ vv_next_version v = n
  | _ => False
  end.

Definition deletes (r : kv) (subject : string) (version : Z) : Prop :=
  match decode r.1 r.2 with
  | RTombstone k => sk_subject k = subject ∧ sk_version k = version
  | _ => False
  end.

(** A later high-water record of a subject is not lower. *)
Definition water_le (r r' : kv) : Prop :=
  ∀ subject n n', raises r subject n → raises r' subject n' → (n ≤ n')%Z.

Record regular (log : list kv) : Prop := {
  (** every record writes the slot its key names; *)
  reg_effective : Forall effective log;
  (** a slot is named by one key; *)
  reg_keys : ∀ r r', r ∈ log → r' ∈ log → key_slot r.1 = key_slot r'.1 →
    key_slot r.1 ≠ SNone → r.1 = r'.1;
  (** high-water records do not decrease; *)
  reg_water : StronglySorted water_le log;
  (** a permanently deleted version is below a high-water record. *)
  reg_covered : ∀ r subject version, r ∈ log → deletes r subject version →
    ∃ r' n, r' ∈ log ∧ raises r' subject n ∧ (i32_saturating_add version 1 ≤ n)%Z;
}.

(** One schema per id: the records of an id carry the same content. *)
Definition registered_as (v : SchemaValue) : RegisteredSchema :=
  mkRegisteredSchema (from_wire (sv_schema_type v)) (sv_schema v) (sv_references v)
    (sv_message_type v) (sv_extra v).

Definition uniform (content : Z → RegisteredSchema) (log : list kv) : Prop :=
  ∀ r k v, r ∈ log → decode r.1 r.2 = RSchema k v → registered_as v = content (sv_id v).
End keys.

(** ** The table *)

Record Table := mkTable {
  t_entries : gmap (string * Z) VersionEntry;
  t_next : gmap string Z;
  t_compat : gmap (option string) string;
  t_mode : gmap (option string) string;
}.

Definition no_table : Table := mkTable ∅ ∅ ∅ ∅.

Definition raise (subject : string) (n : Z) (m : gmap string Z) : gmap string Z :=
  <[ subject := from_option (λ c, Z.max c n) n (m !! subject) ]> m.

Definition flag (subject : string) (m : gmap (string * Z) VersionEntry)
    : gmap (string * Z) VersionEntry :=
  map_imap (λ k e, Some (if decide (k.1 = subject) then mark_deleted e else e)) m.

Definition on_entries f (t : Table) : Table :=
  mkTable (f (t_entries t)) (t_next t) (t_compat t) (t_mode t).
Definition on_next f (t : Table) : Table :=
  mkTable (t_entries t) (f (t_next t)) (t_compat t) (t_mode t).
Definition on_compat f (t : Table) : Table :=
  mkTable (t_entries t) (t_next t) (f (t_compat t)) (t_mode t).
Definition on_mode f (t : Table) : Table :=
  mkTable (t_entries t) (t_next t) (t_compat t) (f (t_mode t)).

(** One record, read as a write to the table. *)
Definition write (t : Table) (rec : SchemaRecord) : Table :=
  match rec with
  | RSchema _ v =>
      on_next (raise (sv_subject v) (i32_saturating_add (sv_version v) 1))
        (on_entries <[ (sv_subject v, sv_version v) :=
                        mkVersionEntry (sv_version v) (sv_id v) (sv_deleted v) ]> t)
  | RTombstone k =>
      on_next (raise (sk_subject k) (i32_saturating_add (sk_version k) 1))
        (on_entries (delete (sk_subject k, sk_version k)) t)
  | RDeleteSubject k _ => on_entries (flag (dk_subject k)) t
  | RVersionHighWater k v => on_next (raise (vk_subject k) (vv_next_version v)) t
  | RMode k v => on_mode (partial_alter (λ _, mv_mode <$> v) (mk_subject k)) t
  | RConfig k v =>
      match ck_subject k, v with
      | None, None => t
      | o, _ => on_compat (partial_alter (λ _, compatibility_level <$> v) o) t
      end
  | RNoop | RUnknown _ | RUndecodable _ => t
  end.

(** The table with one slot erased; [n] is the height an erased next version
    is raised to. *)
Definition forget (k : slot) (n : Z) (t : Table) : Table :=
  match k with
  | SVersion subject version =>
      on_next (raise subject (i32_saturating_add version 1))
        (on_entries (delete (subject, version)) t)
  | SFlags subject => on_entries (flag subject) t
  | SCompat o => on_compat (delete o) t
  | SMode o => on_mode (delete o) t
  | SNext subject => on_next (raise subject n) t
  | SNone => t
  end.

(** The height a record raises its subject to. *)
Definition height (rec : SchemaRecord) : Z :=
  match rec with RVersionHighWater _ v => vv_next_version v | _ => 0 end.

Lemma lookup_raise subject n m subject' :
  raise subject n m !! subject' =
  if decide (subject = subject') then Some (from_option (λ c, Z.max c n) n (m !! subject))
  else m !! subject'.
Proof.
  unfold raise. case_decide as Hd; [subst; by rewrite lookup_insert_eq|by rewrite lookup_insert_ne].
Qed.

Lemma lookup_flag subject m k :
  flag subject m !! k =
  if decide (k.1 = subject) then mark_deleted <$> m !! k else m !! k.
Proof. unfold flag. rewrite map_lookup_imap. by case_decide; destruct (m !! k). Qed.

Lemma mark_deleted_twice e : mark_deleted (mark_deleted e) = mark_deleted e.
Proof. done. Qed.

(** Equality of tables built from these operations, slot by slot. *)
Ltac slot_cases :=
  repeat match goal with
  | |- context [<[_ := _]> _ !! _] => rewrite lookup_insert
  | |- context [delete _ _ !! _] => rewrite lookup_delete
  | |- context [partial_alter _ _ _ !! _] => rewrite lookup_partial_alter
  | |- context [raise _ _ _ !! _] => rewrite lookup_raise
  | |- context [flag _ _ !! _] => rewrite lookup_flag
  end.
Ltac table_ext :=
  unfold on_next, on_entries, on_compat, on_mode; cbn [t_entries t_next t_compat t_mode];
  f_equal; apply map_eq; intros ?; slot_cases; repeat case_decide; simplify_eq/=; try done.

Lemma raise_raise subject n n' m :
  raise subject n (raise subject n' m) = raise subject (Z.max n n') m.
Proof.
  apply map_eq. intros j. rewrite !lookup_raise. case_decide; [|done]. subst.
  rewrite decide_True by done. destruct (m !! j); simpl; f_equal; lia.
Qed.

Lemma raise_comm subject n subject' n' m :
  raise subject n (raise subject' n' m) = raise subject' n' (raise subject n m).
Proof.
  destruct (decide (subject = subject')) as [->|Hne].
  - by rewrite !raise_raise, Z.max_comm.
  - unfold raise. rewrite !lookup_insert_ne by done. by apply insert_insert_ne.
Qed.

Lemma flag_flag subject m : flag subject (flag subject m) = flag subject m.
Proof.
  apply map_eq. intros k. rewrite !lookup_flag. case_decide; [|done]. by destruct (m !! k).
Qed.

(** Erasing a slot erases what a record wrote to it. *)
Lemma forget_written rec n t :
  (height rec ≤ n)%Z → forget (record_slot rec) n (write t rec) = forget (record_slot rec) n t.
Proof.
  intros Hn. destruct rec as [k v|[kt o mg] v|k v|k v|k v|k| | |]; simpl; try done;
    unfold on_next, on_entries, on_compat, on_mode; simpl.
  - f_equal; [apply delete_insert_eq|]. by rewrite raise_raise, Z.max_id.
  - destruct o, v; simpl; try done; table_ext.
  - table_ext.
  - by rewrite flag_flag.
  - simpl in Hn. rewrite raise_raise. by rewrite Z.max_l.
  - by rewrite delete_delete_eq, raise_raise, Z.max_id.
Qed.

(** A record restores what its own slot had lost. *)
Lemma write_forgotten rec n t :
  (n ≤ height rec)%Z → write (forget (record_slot rec) n t) rec = write t rec.
Proof.
  intros Hn. destruct rec as [k v|[kt o mg] v|k v|k v|k v|k| | |]; simpl; try done;
    unfold on_next, on_entries, on_compat, on_mode; simpl.
  - by rewrite insert_delete_eq, raise_raise, Z.max_id.
  - destruct o, v; simpl; try done; table_ext.
  - table_ext.
  - by rewrite flag_flag.
  - simpl in Hn. rewrite raise_raise. by rewrite Z.max_l.
  - by rewrite delete_delete_eq, raise_raise, Z.max_id.
Qed.

(** What a record does to the slots other than an erased one does not depend
    on the erased one. *)
Lemma forget_write k n rec t :
  forget k n (write (forget k n t) rec) = forget k n (write t rec).
Proof.
  destruct t as [es ns cs ms].
  destruct rec as [rk v|[kt o mg] v|rk v|rk v|rk v|rk| | |], k; try destruct o, v; simpl; try done;
    table_ext;
    repeat match goal with |- context [?m !! ?i] => destruct (m !! i); simpl end;
    try done; try (f_equal; lia).
Qed.

(** ** Compaction of a table *)

Section table.
Context `{SerdeJson}.

Definition write_kv (t : Table) (r : kv) : Table := write t (decode r.1 r.2).

Definition table (log : list kv) : Table := foldl write_kv no_table log.

Lemma forget_foldl k n l t :
  forget k n (foldl write_kv (forget k n t) l) = forget k n (foldl write_kv t l).
Proof.
  revert t. induction l as [|r l IH] using rev_ind; intros t; simpl.
  - apply (forget_write k n RNoop t).
  - rewrite !foldl_snoc. unfold write_kv at 1 3. by rewrite <-forget_write, IH, forget_write.
Qed.

(** A record that is written again later is not missed. *)
Lemma superseded_table t r b r' :
  record_slot (decode r.1 r.2) = record_slot (decode r'.1 r'.2) →
  (height (decode r.1 r.2) ≤ height (decode r'.1 r'.2))%Z →
  write_kv (foldl write_kv (write_kv t r) b) r' = write_kv (foldl write_kv t b) r'.
Proof.
  intros Hk Hn. set (n := height (decode r.1 r.2)). unfold write_kv at 1 4.
  rewrite <-(write_forgotten _ n (foldl _ (write_kv t r) b)), <-(write_forgotten _ n (foldl _ t b)) by done.
  f_equal. rewrite <-Hk, <-(forget_foldl _ n b (write_kv t r)), <-(forget_foldl _ n b t).
  do 2 f_equal. by apply forget_written.
Qed.

(** Nothing has been written to the slot. *)
Definition vacant (k : slot) (t : Table) : Prop :=
  match k with
  | SVersion subject version => t_entries t !! (subject, version) = None
  | SCompat o => t_compat t !! o = None
  | SMode o => t_mode t !! o = None
  | SFlags _ | SNext _ | SNone => True
  end.

Lemma vacant_write k t rec : vacant k t → record_slot rec ≠ k → vacant k (write t rec).
Proof.
  destruct rec as [rk v|[kt o mg] v|rk v|rk v|rk v|rk| | |], k; try destruct o, v; simpl; try done;
    intros Hv Hne; slot_cases; repeat case_decide; simplify_eq/=; try done; by rewrite Hv.
Qed.

Lemma vacant_table k log :
  (∀ r, r ∈ log → record_slot (decode r.1 r.2) ≠ k) → vacant k (table log).
Proof.
  unfold table. induction log as [|r log IH] using rev_ind; intros Hne; [by destruct k|].
  rewrite foldl_snoc. apply vacant_write.
  - apply IH. intros r' Hr'. apply Hne, elem_of_app. auto.
  - apply Hne, elem_of_app. right. by apply list_elem_of_singleton.
Qed.

(** The next version of [subject] is known to be at least [n]. *)
Definition above (subject : string) (n : Z) (t : Table) : Prop :=
  ∃ m, t_next t !! subject = Some m ∧ (n ≤ m)%Z.

Lemma above_raise subject n subject' n' t :
  above subject n t → above subject n (on_next (raise subject' n') t).
Proof.
  intros (m & Hm & Hle). unfold above. cbn [on_next t_next]. rewrite lookup_raise.
  case_decide; subst; rewrite ?Hm; simpl; eexists; (split; [done|]); lia.
Qed.

Lemma above_write subject n t rec : above subject n t → above subject n (write t rec).
Proof.
  intros Ha. destruct rec as [rk v|[kt o mg] v|rk v|rk v|rk v|rk| | |]; try destruct o, v; simpl; try done;
    by apply above_raise.
Qed.

Lemma above_foldl subject n t l : above subject n t → above subject n (foldl write_kv t l).
Proof. revert t. induction l as [|r l IH]; intros t Ha; simpl; [done|]. by apply IH, above_write. Qed.

Lemma raised_above subject n t : above subject n (on_next (raise subject n) t).
Proof.
  unfold above. cbn [on_next t_next]. rewrite lookup_raise, decide_True by done.
  eexists. split; [done|]. destruct (t_next t !! subject); simpl; lia.
Qed.

Lemma raise_above subject n t : above subject n t → on_next (raise subject n) t = t.
Proof.
  destruct t as [es ns cs ms]. intros (m & Hm & Hle). simpl in Hm. unfold on_next; simpl. f_equal.
  apply map_eq. intros j. rewrite lookup_raise. case_decide; [subst|done]. rewrite Hm. simpl.
  f_equal. lia.
Qed.

Lemma above_table log r subject n :
  r ∈ log → raises r subject n → above subject n (table log).
Proof.
  intros (a & c & ->)%list_elem_of_split Hr. unfold table. rewrite foldl_app. simpl.
  apply above_foldl. unfold write_kv at 1. unfold raises in Hr.
  destruct (decode r.1 r.2); try done. destruct Hr as [<- <-]. apply raised_above.
Qed.

Lemma decode_null key :
  match decode key None with
  | RTombstone _ | RConfig _ None | RMode _ None | RNoop | RUnknown _ | RUndecodable _ => True
  | _ => False
  end.
Proof. unfold decode, decode_kv. repeat case_match; done. Qed.

(** A null on a vacant slot only counts its version. *)
Lemma write_null t rec :
  match rec with
  | RTombstone _ | RConfig _ None | RMode _ None | RNoop | RUnknown _ | RUndecodable _ => True
  | _ => False
  end →
  vacant (record_slot rec) t →
  write t rec =
  match rec with
  | RTombstone k => on_next (raise (sk_subject k) (i32_saturating_add (sk_version k) 1)) t
  | _ => t
  end.
Proof.
  destruct t as [es ns cs ms].
  destruct rec as [rk v|[kt o mg] v|rk v|rk v|rk v|rk| | |]; try destruct v; try destruct o; simpl;
    try done; intros _ Hv; unfold on_next, on_compat, on_mode, on_entries; simpl; f_equal;
    apply map_eq; intros j; slot_cases; case_decide; by subst.
Qed.

(** Raising a next version early makes no difference once it is exceeded. *)
Lemma raise_early subject n t l :
  above subject n (foldl write_kv t l) →
  foldl write_kv (on_next (raise subject n) t) l = foldl write_kv t l.
Proof.
  intros Ha. pose proof (forget_foldl (SNext subject) n l t) as Hf. simpl in Hf.
  rewrite (raise_above _ _ (foldl _ t l)) in Hf by done. rewrite <-Hf. symmetry.
  apply raise_above, above_foldl, raised_above.
Qed.

(** ** One step of the cleaner *)

Lemma slot_next_raises r subject :
  record_slot (decode r.1 r.2) = SNext subject ↔ ∃ n, raises r subject n.
Proof.
  unfold raises. split.
  - destruct (decode r.1 r.2) as [k v|[kt o mg] v|k v|k v|k v|k| | |]; try done;
      try (by destruct o, v). simpl. intros [= <-]. eauto.
  - intros [n Hn]. destruct (decode r.1 r.2); try done. by destruct Hn as [<- _].
Qed.

Lemma raises_height r subject n : raises r subject n → height (decode r.1 r.2) = n.
Proof. unfold raises. destruct (decode r.1 r.2); try done. by intros [_ <-]. Qed.

Lemma height_not_next r :
  (∀ subject, record_slot (decode r.1 r.2) ≠ SNext subject) → height (decode r.1 r.2) = 0%Z.
Proof.
  intros Hne. destruct (decode r.1 r.2) as [k v|[kt o mg] v|k v|k v|k v|k| | |]; try done.
  by destruct (Hne (vk_subject k)).
Qed.

(** Of two records of one slot the later is not lower. *)
Lemma height_le r r' :
  water_le r r' → record_slot (decode r.1 r.2) = record_slot (decode r'.1 r'.2) →
  (height (decode r.1 r.2) ≤ height (decode r'.1 r'.2))%Z.
Proof.
  intros Hw Hk. destruct (record_slot (decode r.1 r.2)) as [| | | |subject|] eqn:Hs;
    try (rewrite !height_not_next by congruence; done).
  destruct (proj1 (slot_next_raises r subject) Hs) as [n Hn].
  destruct (proj1 (slot_next_raises r' subject)) as [n' Hn']; [done|].
  rewrite (raises_height _ _ _ Hn), (raises_height _ _ _ Hn'). by eapply Hw.
Qed.

Lemma effective_slots r r' :
  effective r → effective r' → r.1 = r'.1 →
  record_slot (decode r.1 r.2) = record_slot (decode r'.1 r'.2).
Proof. unfold effective. congruence. Qed.

Lemma StronglySorted_app_between {A} (R : A → A → Prop) l1 l2 x y :
  StronglySorted R (l1 ++ l2) → x ∈ l1 → y ∈ l2 → R x y.
Proof.
  induction l1 as [|z l1 IH]; simpl; intros Hs; [by intros ?%elem_of_nil|].
  apply StronglySorted_inv in Hs as [Hs Hall]. intros [->|Hx]%elem_of_cons Hy; [|by apply IH].
  rewrite Forall_forall in Hall. apply Hall, elem_of_app. auto.
Qed.

Lemma compact_table log log' :
  regular log → compact log log' → table log = table log'.
Proof.
  intros [Heff Hkeys Hwater Hcov] Hc. destruct Hc as [a r b r' c Hk|a r c Hnull Hfirst].
  - apply Forall_app in Heff as [_ [Hr [_ [Hr' _]%Forall_cons]%Forall_app]%Forall_cons].
    assert (water_le r r') as Hle.
    { eapply (StronglySorted_app_between _ (a ++ [r]) (b ++ r' :: c));
        [by rewrite <-app_assoc|set_solver..]. }
    pose proof (effective_slots _ _ Hr Hr' Hk) as Hs.
    unfold table. rewrite !foldl_app. simpl. rewrite !foldl_app. simpl.
    by rewrite superseded_table by (done || by apply height_le).
  - apply Forall_app in Heff as [Ha [Hr _]%Forall_cons].
    pose proof (decode_null r.1) as Hd. rewrite <-Hnull in Hd.
    unfold table. rewrite !foldl_app. simpl. unfold write_kv at 2.
    destruct (decide (key_slot r.1 = SNone)) as [Hnone|Hsome].
    { rewrite write_null; [|done|by rewrite Hr, Hnone].
      unfold effective in Hr. rewrite Hnone in Hr. by destruct (decode r.1 r.2). }
    rewrite write_null; [|done|].
    2: { apply vacant_table. intros r' Hr' Heq. rewrite Forall_forall in Ha.
      specialize (Ha r' Hr'). unfold effective in *. apply (Hfirst r' Hr').
      apply Hkeys; [set_solver..|congruence|congruence]. }
    destruct (decode r.1 r.2) as [| | | | |k| | |] eqn:Hdec; try done.
    apply raise_early.
    destruct (Hcov r (sk_subject k) (sk_version k)) as (r' & n & Hin & Hn & Hle);
      [set_solver|by unfold deletes; rewrite Hdec|].
    assert (r' ∈ a ++ c) as Hin'.
    { apply elem_of_app in Hin as [?|[->|?]%elem_of_cons]; [set_solver| |set_solver].
      unfold raises in Hn. by rewrite Hdec in Hn. }
    destruct (above_table (a ++ c) r' (sk_subject k) n) as (m & Hm & Hnm); [done..|].
    unfold table in Hm. rewrite foldl_app in Hm. exists m. split; [done|]. lia.
Qed.

Lemma compact_sublist log log' : compact log log' → sublist log' log.
Proof.
  intros [a r b r' c _|a r c _ _]; apply sublist_app; try done; by apply sublist_cons.
Qed.

Lemma compact_regular log log' : regular log → compact log log' → regular log'.
Proof.
  intros [Heff Hkeys Hwater Hcov] Hc. pose proof (compact_sublist _ _ Hc) as Hsub.
  assert (∀ r, r ∈ log' → r ∈ log) as Hin.
  { intros r Hr. by eapply elem_of_submseteq, sublist_submseteq. }
  split.
  - rewrite Forall_forall in *. auto.
  - eauto.
  - by eapply StronglySorted_sublist.
  - intros r subject version Hr Hd.
    destruct (Hcov r subject version) as (r' & n & Hr' & Hn & Hle); [auto..|].
    destruct Hc as [a x b x' c Hk|a x c Hnull Hfirst].
    + destruct (decide (r' = x)) as [->|Hne].
      2: { exists r', n. split_and!; [|done..]. set_solver. }
      rewrite Forall_forall in Heff.
      assert (record_slot (decode x'.1 x'.2) = SNext subject) as Hs.
      { rewrite <-(effective_slots x x') by (done || (apply Heff; set_solver)).
        apply slot_next_raises. eauto. }
      apply slot_next_raises in Hs as [n' Hn']. exists x', n'. split_and!; [set_solver|done|].
      assert (water_le x x') as Hw.
      { eapply (StronglySorted_app_between _ (a ++ [x]) (b ++ x' :: c));
          [by rewrite <-app_assoc|set_solver..]. }
      specialize (Hw _ _ _ Hn Hn'). lia.
    + exists r', n. split_and!; [|done..].
      apply elem_of_app in Hr' as [?|[->|?]%elem_of_cons]; [set_solver| |set_solver].
      pose proof (decode_null x.1) as Hx. rewrite <-Hnull in Hx. unfold raises in Hn.
      by destruct (decode x.1 x.2).
Qed.

Lemma compacted_table log log' :
  regular log → rtc compact log log' → table log = table log' ∧ regular log'.
Proof.
  intros Hr Hc. induction Hc as [log|log log1 log' Hc _ IH]; [done|].
  rewrite (compact_table log log1) by done. apply IH. by eapply compact_regular.
Qed.
End table.
