(* ===== verification/CompactionFacts.v ===== *)
(** * What compaction leaves of the registry (kafkastore/reader.rs)

    The state a log replays to shows the table of [Compaction.v]; states that
    show the same table, with one content per id, answer every read alike
    ([same_service], an equivalence the queries respect). Hence a node that
    starts from a compacted log serves what one that read every record serves.
    What compaction does lose is shown on concrete logs: the id high-water
    mark, and the identity of a schema whose reference now comes later. *)

From stdpp Require Import base gmap strings list pretty sorting relations.
From Stdlib Require Import ZArith Lia.
From S2P Require Import Prelude Json Types Store Closure StoreFacts StoreSpec StoreQueries Compat.
From S2P Require Import Record RecordFacts Reader ReaderFacts KafkaStore KafkaFacts Slots Protocol Compaction.

(** ** The state shows the table *)

Definition entry_at (s : StoreState) (subject : string) (version : Z) : option VersionEntry :=
  vs ← subjects s !! subject; find_version version vs.

Definition compat_at (s : StoreState) (o : option string) : option string :=
  match o with None => global_compat_ s | Some subject => subject_compat_ s !! subject end.

Definition mode_at (s : StoreState) (o : option string) : option string :=
  match o with None => global_mode_ s | Some subject => subject_mode_ s !! subject end.

Record shows (s : StoreState) (t : Table) : Prop := {
  sh_entries : ∀ subject version, entry_at s subject version = t_entries t !! (subject, version);
  sh_next : next_versions s = t_next t;
  sh_compat : ∀ o, compat_at s o = t_compat t !! o;
  sh_mode : ∀ o, mode_at s o = t_mode t !! o;
}.

Lemma find_version_iff version vs e :
  StronglySorted Z.lt (ve_version <$> vs) →
  find_version version vs = Some e ↔ e ∈ vs ∧ ve_version e = version.
Proof.
  intros Hs. split; [apply find_version_Some|]. intros [He Hv].
  destruct (find_version version vs) as [e'|] eqn:Hf.
  - apply find_version_Some in Hf as [He' Hv']. f_equal. eapply versions_unique; eauto. congruence.
  - unfold find_version in Hf. rewrite find_none_iff in Hf. specialize (Hf e He). simpl in Hf. lia.
Qed.

Lemma find_version_upsert version id deleted vs version' :
  StronglySorted Z.lt (ve_version <$> vs) →
  find_version version' (upsert_entry version id deleted vs) =
  if decide (version = version') then Some (mkVersionEntry version id deleted)
  else find_version version' vs.
Proof.
  intros Hs. apply option_eq. intros e.
  rewrite find_version_iff by (by apply upsert_entry_sorted).
  rewrite elem_of_upsert_entry by done. case_decide as Hd.
  - subst. split; [by intros [[->|[_ ?]] ?]|]. intros [= <-]. auto.
  - rewrite find_version_iff by done. split.
    + by intros [[->|[? _]] Hv].
    + intros [? <-]. split; [right|]; done.
Qed.

Lemma find_version_filter version vs version' :
  find_version version' (List.filter (λ v, negb (ve_version v =? version)%Z) vs) =
  if decide (version = version') then None else find_version version' vs.
Proof.
  unfold find_version. induction vs as [|e vs IH]; simpl; [by case_decide|].
  destruct (Z.eqb_spec (ve_version e) version) as [Hv|Hv]; simpl.
  - rewrite IH. case_decide; [done|]. destruct (Z.eqb_spec (ve_version e) version'); [congruence|done].
  - destruct (Z.eqb_spec (ve_version e) version') as [Hv'|]; [|done].
    case_decide; [congruence|done].
Qed.

Lemma find_version_marked version vs :
  find_version version (mark_deleted <$> vs) = mark_deleted <$> find_version version vs.
Proof.
  unfold find_version. induction vs as [|e vs IH]; [done|]. rewrite fmap_cons.
  cbn [List.find mark_deleted ve_version]. by destruct (ve_version e =? version)%Z.
Qed.

Lemma entry_at_set subject vs s subject' version :
  entry_at (set_subjects <[ subject := vs ]> s) subject' version =
  if decide (subject = subject') then find_version version vs else entry_at s subject' version.
Proof.
  unfold entry_at. simpl. rewrite lookup_insert. by case_decide.
Qed.

Section shows.
Context `{SchemaFormat}.

Lemma sorted_history s subject :
  store_wf s → StronglySorted Z.lt (ve_version <$> default [] (subjects s !! subject)).
Proof.
  intros Hs. destruct (subjects s !! subject) as [vs|] eqn:E; simpl; [|constructor].
  apply (hist_sorted _ _ _ (wf_hist _ Hs _ _ E)).
Qed.

Lemma apply_schema_subjects value s :
  subjects (apply_schema value s) =
  <[ sv_subject value :=
       upsert_entry (sv_version value) (sv_id value) (sv_deleted value)
         (default [] (subjects s !! sv_subject value)) ]> (subjects s).
Proof.
  rewrite apply_schema_unfold. cbn [set_subjects subjects].
  by rewrite (proj1 (replay_bound_frame value s)).
Qed.

Lemma observe_next_raise subject n s :
  next_versions (observe_next_version subject n s) = raise subject n (next_versions s).
Proof. unfold observe_next_version, raise. simpl. by destruct (next_versions s !! subject). Qed.

Lemma apply_schema_next value s :
  next_versions (apply_schema value s) =
  raise (sv_subject value) (i32_saturating_add (sv_version value) 1) (next_versions s).
Proof.
  rewrite apply_schema_unfold. cbn [set_subjects next_versions].
  rewrite (proj2 (proj2 (proj2 (replay_bound_frame value s)))). apply observe_next_raise.
Qed.

Lemma permanent_delete_raises subject version s :
  next_versions (Store.permanent_delete_version subject version s).2 =
  raise subject (i32_saturating_add version 1) (next_versions s).
Proof.
  rewrite <-observe_next_raise. unfold Store.permanent_delete_version, observe_version.
  repeat case_match; done.
Qed.

Lemma entry_at_apply_schema value s subject version :
  store_wf s →
  entry_at (apply_schema value s) subject version =
  if decide ((sv_subject value, sv_version value) = (subject, version))
  then Some (mkVersionEntry (sv_version value) (sv_id value) (sv_deleted value))
  else entry_at s subject version.
Proof.
  intros Hs. unfold entry_at. rewrite apply_schema_subjects, lookup_insert.
  destruct (decide (sv_subject value = subject)) as [<-|Hne]; simpl.
  - rewrite find_version_upsert by (by apply sorted_history).
    destruct (decide (sv_version value = version)) as [<-|Hne].
    + by rewrite decide_True by done.
    + rewrite decide_False by congruence. by destruct (subjects s !! sv_subject value).
  - by rewrite decide_False by congruence.
Qed.

Lemma entry_at_permanent_delete subject version s subject' version' :
  entry_at (Store.permanent_delete_version subject version s).2 subject' version' =
  if decide ((subject, version) = (subject', version')) then None
  else entry_at s subject' version'.
Proof.
  unfold entry_at. rewrite permanent_delete_subjects.
  destruct (decide (subject = subject')) as [<-|Hne]; [|by rewrite decide_False by congruence].
  destruct (subjects s !! subject) as [vs|]; cbn [mbind option_bind]; [|by destruct (decide _)].
  pose proof (find_version_filter version vs version') as Hf.
  assert (∀ (x : option VersionEntry), (if decide ((subject, version) = (subject, version')) then None else x) =
    if decide (version = version') then None else x) as Hd.
  { intros x. destruct (decide (version = version')) as [<-|]; [by rewrite decide_True|].
    by rewrite decide_False by congruence. }
  rewrite Hd, <-Hf. destruct (List.filter _ vs) as [|e vs']; [|done]. by destruct (decide (vs = [])).
Qed.

Lemma entry_at_soft_delete subject s subject' version :
  entry_at (Store.soft_delete_subject subject s).2 subject' version =
  if decide (subject' = subject) then mark_deleted <$> entry_at s subject' version
  else entry_at s subject' version.
Proof.
  unfold Store.soft_delete_subject, entry_at.
  destruct (subjects s !! subject) as [[|e vs]|] eqn:E; cbn [snd set_subjects subjects].
  - case_decide; [|done]. subst. by rewrite E.
  - rewrite lookup_insert. destruct (decide (subject = subject')) as [<-|Hne].
    + rewrite decide_True by done. rewrite E. apply (find_version_marked _ (e :: vs)).
    + by rewrite decide_False by done.
  - case_decide; [|done]. subst. by rewrite E.
Qed.

(** Every record does to the state what it does to the table. *)
Lemma shows_apply rec s t :
  store_wf s → shows s t → shows (apply_record rec s) (write t rec).
Proof.
  intros Hs [He Hn Hc Hm].
  assert (∀ s' (b : Table), settings s' = settings s → t_compat b = t_compat t → t_mode b = t_mode t →
    (∀ o, compat_at s' o = t_compat b !! o) ∧ (∀ o, mode_at s' o = t_mode b !! o)) as Hset.
  { unfold settings. intros s' b [= Hgc _ Hsc Hgm _ Hsm] -> ->. split; intros o.
    - rewrite <-Hc. destruct o; simpl; congruence.
    - rewrite <-Hm. destruct o; simpl; congruence. }
  destruct rec as [k v|[kt o mg] v|[kt o mg] v|k v|k v|k| | |]; cbn [apply_record write]; try done.
  - destruct (Hset (apply_schema v s) (write t (RSchema k v))) as [??];
      [apply apply_schema_settings|done..|].
    split; [|by rewrite apply_schema_next, Hn|done..].
    intros subject version. rewrite entry_at_apply_schema by done. cbn [write on_next on_entries t_entries].
    rewrite lookup_insert, He. done.
  - destruct o as [subject|], v as [[level]|]; cbn [ck_subject]; (split; [done|done| |done]); try done;
      intros o'; cbn [on_compat t_compat]; rewrite lookup_partial_alter, <-!Hc;
      destruct o' as [subject'|]; cbn; rewrite ?lookup_insert, ?lookup_delete;
      repeat case_decide; simplify_eq; done.
  - destruct o as [subject|], v as [[mode]|]; cbn [mk_subject]; (split; [done|done|done|]); try done;
      intros o'; cbn [on_mode t_mode]; rewrite lookup_partial_alter, <-!Hm;
      destruct o' as [subject'|]; cbn; rewrite ?lookup_insert, ?lookup_delete;
      repeat case_decide; simplify_eq; done.
  - destruct (Hset (Store.soft_delete_subject (dk_subject k) s).2 t) as [??];
      [unfold Store.soft_delete_subject; by repeat case_match|done..|].
    split; [|transitivity (next_versions s); [unfold Store.soft_delete_subject; by repeat case_match|done]|done..].
    intros subject version. rewrite entry_at_soft_delete. cbn [on_entries t_entries].
    by rewrite lookup_flag, He.
  - split; [done|by cbn [on_next t_next]; rewrite <-Hn; apply observe_next_raise|done..].
  - destruct (Hset (Store.permanent_delete_version (sk_subject k) (sk_version k) s).2 t) as [??];
      [unfold Store.permanent_delete_version; by repeat case_match|done..|].
    split; [|by rewrite permanent_delete_raises, Hn|done..].
    intros subject version. rewrite entry_at_permanent_delete. cbn [on_next on_entries t_entries].
    by rewrite lookup_delete, He.
Qed.
End shows.

(** ** Lists *)

Lemma flat_map_ext_elem {A B} (f g : A → list B) l :
  (∀ x, x ∈ l → f x = g x) → flat_map f l = flat_map g l.
Proof.
  induction l as [|x l IH]; intros Hfg; simpl; [done|].
  rewrite Hfg by (apply elem_of_cons; auto). f_equal. apply IH. intros y Hy. apply Hfg, elem_of_cons. auto.
Qed.

Lemma omap_ext_elem {A B} (f g : A → option B) (l : list A) :
  (∀ x, x ∈ l → f x = g x) → omap f l = omap g l.
Proof.
  intros Hfg. apply list_omap_ext. apply Forall_Forall2_diag, Forall_forall. done.
Qed.

Lemma foldl_ext_elem {A B} (f g : B → A → B) b (l : list A) :
  (∀ b x, x ∈ l → f b x = g b x) → foldl f b l = foldl g b l.
Proof.
  revert b. induction l as [|x l IH]; intros b Hfg; simpl; [done|].
  rewrite Hfg by (apply elem_of_cons; auto). apply IH. intros b' y Hy. apply Hfg, elem_of_cons. auto.
Qed.

(** ** States that serve the same *)

(** Equal but for what no answer shows: the schemas no version is bound to,
    the identity indexes and the id high-water mark. *)
Record same_service (s s' : StoreState) : Prop := {
  ss_subjects : subjects s = subjects s';
  ss_next : next_versions s = next_versions s';
  ss_settings : settings s = settings s';
  ss_content : ∀ subject vs e, subjects s !! subject = Some vs → e ∈ vs →
    by_id s !! ve_id e = by_id s' !! ve_id e;
}.

#[global] Instance same_service_equivalence : Equivalence same_service.
Proof.
  split.
  - done.
  - intros s s' [H1 H2 H3 H4]. split; [done..|]. intros subject vs e Hvs He. symmetry.
    eapply H4; [by rewrite H1|done].
  - intros s1 s2 s3 [H1 H2 H3 H4] [K1 K2 K3 K4]. split; [congruence..|].
    intros subject vs e Hvs He. rewrite (H4 _ _ _ Hvs He). eapply K4; [by rewrite <-H1|done].
Qed.

Section proper.
Context (s s' : StoreState) (Hss : same_service s s').

Lemma ss_id_of subject version : id_of s subject version = id_of s' subject version.
Proof. unfold id_of. by rewrite (ss_subjects _ _ Hss). Qed.

Lemma ss_id_content subject version id :
  id_of s subject version = Some id → by_id s !! id = by_id s' !! id.
Proof. intros (vs & e & Hvs & He & _ & <-)%id_of_Some. by eapply ss_content. Qed.

Lemma ss_resolve_refs recur recur' refs acc :
  (∀ refs acc, recur refs acc = recur' refs acc) →
  resolve_refs recur s refs acc = resolve_refs recur' s' refs acc.
Proof.
  intros Hr. revert acc. induction refs as [|r refs IH]; intros acc; simpl; [done|].
  case_bool_decide; [done|]. rewrite <-ss_id_of.
  destruct (id_of s _ _) as [id|] eqn:Hid; [|done]. rewrite <-(ss_id_content _ _ _ Hid).
  destruct (by_id s !! id); [|done]. rewrite Hr. repeat case_match; done.
Qed.

Lemma ss_resolve_into fuel refs acc : resolve_into fuel s refs acc = resolve_into fuel s' refs acc.
Proof.
  revert refs acc. induction fuel as [|fuel IH]; intros refs acc; simpl; [done|].
  by apply ss_resolve_refs.
Qed.

Lemma ss_resolve_closure refs : resolve_closure s refs = resolve_closure s' refs.
Proof.
  unfold resolve_closure, closure_fuel, entry_keys.
  by rewrite ss_resolve_into, (ss_subjects _ _ Hss).
Qed.

Lemma ss_version subject v include_deleted :
  version s subject v include_deleted = version s' subject v include_deleted.
Proof.
  unfold version. rewrite <-(ss_subjects _ _ Hss).
  destruct (subjects s !! subject) as [vs|] eqn:Hvs; [|done]. cbn [mbind option_bind].
  destruct (match v with Some v => _ | None => _ end) as [e|] eqn:He; [|done].
  cbn [mbind option_bind]. rewrite (ss_content _ _ Hss _ _ _ Hvs); [done|].
  destruct v.
  - by apply list_elem_of_In, (List.find_some _ _ He).
  - unfold rfind in He. apply List.find_some in He as [He%list_elem_of_In _].
    by apply elem_of_reverse.
Qed.

Lemma ss_schema_by_id id include_deleted :
  schema_by_id s id include_deleted = schema_by_id s' id include_deleted.
Proof.
  unfold schema_by_id. rewrite <-(ss_subjects _ _ Hss).
  destruct (existsb _ _) eqn:He.
  - apply existsb_visible in He as (subject & e & (vs & Hvs & Hin & _) & <-).
    by rewrite (ss_content _ _ Hss _ _ _ Hvs Hin).
  - by destruct (by_id s !! id), (by_id s' !! id).
Qed.

Lemma ss_all_schemas include_deleted : all_schemas s include_deleted = all_schemas s' include_deleted.
Proof.
  unfold all_schemas. rewrite <-(ss_subjects _ _ Hss). f_equal. apply flat_map_ext_elem.
  intros [subject vs] Hvs%elem_of_btree_iter. apply omap_ext_elem. intros e He. simpl in *.
  by rewrite (ss_content _ _ Hss _ _ _ Hvs He).
Qed.

Lemma ss_versions_schemas subject : versions_schemas s subject = versions_schemas s' subject.
Proof.
  unfold versions_schemas. rewrite <-(ss_subjects _ _ Hss).
  destruct (subjects s !! subject) as [vs|] eqn:Hvs; [|done].
  apply omap_ext_elem. intros e [He _]%elem_of_filter_bool.
  by rewrite (ss_content _ _ Hss _ _ _ Hvs He).
Qed.

Lemma ss_referenced_by subject v include_deleted :
  referenced_by s subject v include_deleted = referenced_by s' subject v include_deleted.
Proof.
  unfold referenced_by. rewrite <-(ss_subjects _ _ Hss). f_equal. apply foldl_ext_elem.
  intros ids vs [subject' Hvs]%elem_of_btree_values. apply foldl_ext_elem. intros ids' e He.
  by rewrite (ss_content _ _ Hss _ _ _ Hvs He).
Qed.
End proper.

#[global] Instance resolve_closure_proper : Proper (same_service ==> eq ==> eq) resolve_closure.
Proof. intros s s' Hss refs _ <-. by apply ss_resolve_closure. Qed.
#[global] Instance version_proper : Proper (same_service ==> eq ==> eq ==> eq ==> eq) version.
Proof. intros s s' Hss a _ <- b _ <- c _ <-. by apply ss_version. Qed.
#[global] Instance versions_proper : Proper (same_service ==> eq ==> eq ==> eq) versions.
Proof. intros s s' [Hs _ _ _] a _ <- b _ <-. unfold versions. by rewrite Hs. Qed.
#[global] Instance schema_by_id_proper : Proper (same_service ==> eq ==> eq ==> eq) schema_by_id.
Proof. intros s s' Hss a _ <- b _ <-. by apply ss_schema_by_id. Qed.
#[global] Instance schema_id_subject_versions_proper :
  Proper (same_service ==> eq ==> eq ==> eq) schema_id_subject_versions.
Proof. intros s s' [Hs _ _ _] a _ <- b _ <-. unfold schema_id_subject_versions. by rewrite Hs. Qed.
#[global] Instance list_subjects_proper : Proper (same_service ==> eq ==> eq) list_subjects.
Proof. intros s s' [Hs _ _ _] a _ <-. unfold list_subjects. by rewrite Hs. Qed.
#[global] Instance all_schemas_proper : Proper (same_service ==> eq ==> eq) all_schemas.
Proof. intros s s' Hss a _ <-. by apply ss_all_schemas. Qed.
#[global] Instance versions_schemas_proper : Proper (same_service ==> eq ==> eq) versions_schemas.
Proof. intros s s' Hss a _ <-. by apply ss_versions_schemas. Qed.
#[global] Instance referenced_by_proper : Proper (same_service ==> eq ==> eq ==> eq ==> eq) referenced_by.
Proof. intros s s' Hss a _ <- b _ <- c _ <-. by apply ss_referenced_by. Qed.
#[global] Instance next_version_proper : Proper (same_service ==> eq ==> eq) next_version.
Proof. intros s s' [_ Hn _ _] a _ <-. unfold next_version. by rewrite Hn. Qed.
#[global] Instance global_compat_proper : Proper (same_service ==> eq) global_compat.
Proof. intros s s' [_ _ [= Hg Hd _ _ _ _] _]. unfold global_compat. by rewrite Hg, Hd. Qed.
#[global] Instance subject_compat_proper : Proper (same_service ==> eq ==> eq) subject_compat.
Proof. intros s s' [_ _ [= _ _ Hc _ _ _] _] a _ <-. unfold subject_compat. by rewrite Hc. Qed.
#[global] Instance global_mode_proper : Proper (same_service ==> eq) global_mode.
Proof. intros s s' [_ _ [= _ _ _ Hg Hd _] _]. unfold global_mode. by rewrite Hg, Hd. Qed.
#[global] Instance subject_mode_proper : Proper (same_service ==> eq ==> eq) subject_mode.
Proof. intros s s' [_ _ [= _ _ _ _ _ Hm] _] a _ <-. unfold subject_mode. by rewrite Hm. Qed.
#[global] Instance effective_mode_proper : Proper (same_service ==> eq ==> eq) effective_mode.
Proof.
  intros s s' Hss a _ <-. pose proof (subject_mode_proper s s' Hss a a eq_refl) as Hm.
  unfold effective_mode. unfold subject_mode in Hm. by rewrite Hm, (global_mode_proper s s' Hss).
Qed.
#[global] Instance effective_level_proper : Proper (same_service ==> eq ==> eq) effective_level.
Proof.
  intros s s' Hss a _ <-. unfold effective_level.
  by rewrite (subject_compat_proper s s' Hss a a eq_refl), (global_compat_proper s s' Hss).
Qed.

Section proper_checks.
Context `{SchemaFormat}.

#[global] Instance closure_or_empty_proper : Proper (same_service ==> eq ==> eq) closure_or_empty.
Proof. intros s s' Hss a _ <-. unfold closure_or_empty. by rewrite Hss. Qed.

#[global] Instance check_registration_proper :
  Proper (same_service ==> eq ==> eq ==> eq ==> eq ==> eq) check_registration.
Proof.
  intros s s' Hss subject _ <- ty _ <- candidate _ <- refs _ <-. unfold check_registration.
  rewrite (versions_schemas_proper s s' Hss subject subject eq_refl).
  rewrite (effective_level_proper s s' Hss subject subject eq_refl).
  destruct (directions _) as [|d ds]; [done|]. destruct (versions_schemas s' subject) as [|x xs]; [done|].
  erewrite foldl_ext_elem; [done|]. intros msgs [[??] v_refs] _.
  by rewrite (closure_or_empty_proper s s' Hss v_refs _ eq_refl).
Qed.

#[global] Instance check_against_version_proper :
  Proper (same_service ==> eq ==> eq ==> eq ==> eq ==> eq ==> eq) check_against_version.
Proof.
  intros s s' Hss subject _ <- ty _ <- candidate _ <- refs _ <- v _ <-. unfold check_against_version.
  rewrite (versions_proper s s' Hss subject subject eq_refl false false eq_refl).
  rewrite (version_proper s s' Hss subject subject eq_refl v v eq_refl false false eq_refl).
  rewrite (effective_level_proper s s' Hss subject subject eq_refl).
  destruct (versions s' subject false); [|done]. destruct (version s' subject v false) as [x|]; [|done].
  cbn [ok_or mbind result_bind].
  by rewrite (closure_or_empty_proper s s' Hss (vs_references x) _ eq_refl).
Qed.

(** The reads of the registry that look at the histories, the stored schemas and
    the settings, and every compatibility verdict, are the same. The lookup of a
    schema by its content also looks at the identity index and is not among
    them. *)
Record reads_alike (s s' : StoreState) : Prop := {
  ra_list_subjects : ∀ d, list_subjects s d = list_subjects s' d;
  ra_versions : ∀ subject d, versions s subject d = versions s' subject d;
  ra_version : ∀ subject v d, version s subject v d = version s' subject v d;
  ra_schema_by_id : ∀ id d, schema_by_id s id d = schema_by_id s' id d;
  ra_subject_versions : ∀ id d, schema_id_subject_versions s id d = schema_id_subject_versions s' id d;
  ra_all_schemas : ∀ d, all_schemas s d = all_schemas s' d;
  ra_referenced_by : ∀ subject v d, referenced_by s subject v d = referenced_by s' subject v d;
  ra_closure : ∀ refs, resolve_closure s refs = resolve_closure s' refs;
  ra_level : ∀ subject, effective_level s subject = effective_level s' subject;
  ra_mode : ∀ subject, effective_mode s subject = effective_mode s' subject;
  ra_next : ∀ subject, next_version s subject = next_version s' subject;
  ra_check : ∀ subject ty candidate refs,
    check_registration s subject ty candidate refs = check_registration s' subject ty candidate refs;
  ra_query : ∀ subject ty candidate refs v,
    check_against_version s subject ty candidate refs v =
    check_against_version s' subject ty candidate refs v;
}.

Lemma same_service_reads s s' : same_service s s' → reads_alike s s'.
Proof.
  intros Hss. split; intros.
  - by apply list_subjects_proper.
  - by apply versions_proper.
  - by apply version_proper.
  - by apply schema_by_id_proper.
  - by apply schema_id_subject_versions_proper.
  - by apply all_schemas_proper.
  - by apply referenced_by_proper.
  - by apply resolve_closure_proper.
  - by apply effective_level_proper.
  - by apply effective_mode_proper.
  - by apply next_version_proper.
  - by apply check_registration_proper.
  - by apply check_against_version_proper.
Qed.
End proper_checks.

(** ** Replaying a log *)

Lemma sorted_histories_eq vs vs' :
  StronglySorted Z.lt (ve_version <$> vs) → StronglySorted Z.lt (ve_version <$> vs') →
  (∀ v, find_version v vs = find_version v vs') → vs = vs'.
Proof.
  intros Hs Hs' Hf.
  assert (∀ l, StronglySorted Z.lt (ve_version <$> l) →
    StronglySorted (λ e e', (ve_version e < ve_version e')%Z) l) as Hconv.
  { induction l as [|e l IH]; intros Hl; [constructor|]. rewrite fmap_cons in Hl.
    apply StronglySorted_inv in Hl as [Hl Hall]. constructor; [auto|]. rewrite Forall_fmap in Hall. exact Hall. }
  assert (AntiSymm (=) (λ e e', (ve_version e < ve_version e')%Z)) by (intros ???; lia).
  eapply (StronglySorted_unique (λ e e', (ve_version e < ve_version e')%Z)); [auto..|]. apply NoDup_Permutation.
  1, 2: eapply (NoDup_fmap_1 ve_version), StronglySorted_lt_NoDup; done.
  intros e. specialize (Hf (ve_version e)).
  pose proof (find_version_iff (ve_version e) vs e Hs). pose proof (find_version_iff (ve_version e) vs' e Hs').
  rewrite Hf in *. naive_solver.
Qed.

Lemma shows_subjects s s' t :
  store_wf s → store_wf s' → shows s t → shows s' t → subjects s = subjects s'.
Proof.
  intros Hs Hs' Ht Ht'. apply map_eq. intros subject.
  assert (∀ v, entry_at s subject v = entry_at s' subject v) as He
    by (intros v; by rewrite (sh_entries _ _ Ht), (sh_entries _ _ Ht')).
  unfold entry_at in He.
  assert (∀ x vs, store_wf x → subjects x !! subject = Some vs →
    ∃ e, find_version (ve_version e) vs = Some e) as Hne.
  { intros x vs Hx Hvs. pose proof (wf_hist _ Hx _ _ Hvs) as Hw.
    destruct vs as [|e vs]; [by destruct (hist_nonempty _ _ _ Hw)|]. exists e.
    apply find_version_iff; [apply (hist_sorted _ _ _ Hw)|]. split; [apply elem_of_cons; auto|done]. }
  destruct (subjects s !! subject) as [vs|] eqn:Hvs, (subjects s' !! subject) as [vs'|] eqn:Hvs';
    simpl in He; [f_equal| | |done].
  - apply sorted_histories_eq; [..|done].
    + apply (hist_sorted _ _ _ (wf_hist _ Hs _ _ Hvs)).
    + apply (hist_sorted _ _ _ (wf_hist _ Hs' _ _ Hvs')).
  - destruct (Hne _ _ Hs Hvs) as [e He']. by rewrite He in He'.
  - destruct (Hne _ _ Hs' Hvs') as [e He']. by rewrite <-He in He'.
Qed.

Section replay.
Context `{SchemaFormat} `{SerdeJson} `{UuidLib}.
Context (compatibility mode : string).

(** What a node that starts with these defaults holds after reading [log]. *)
Definition replay_log (log : list kv) : StoreState :=
  foldl apply_kv (with_defaults compatibility mode) log.

Lemma replay_log_wf log : store_wf (replay_log log).
Proof.
  unfold replay_log. induction log as [|r log IH] using rev_ind; [apply with_defaults_wf|].
  rewrite foldl_snoc. by apply apply_kv_wf.
Qed.

Lemma replay_log_shows log : shows (replay_log log) (table log).
Proof.
  unfold replay_log, table. induction log as [|r log IH] using rev_ind.
  - split; try done; by intros [].
  - rewrite !foldl_snoc. apply shows_apply; [apply replay_log_wf|done].
Qed.

Lemma apply_record_by_id rec s :
  by_id (apply_record rec s) =
  match rec with
  | RSchema _ v => <[ sv_id v := registered_as v ]> (by_id s)
  | _ => by_id s
  end.
Proof.
  destruct rec as [k v|[kt o mg] v|[kt o mg] v|k v|k v|k| | |]; cbn [apply_record]; try done.
  - apply apply_schema_by_id.
  - by destruct o, v.
  - by destruct o, v.
  - unfold Store.soft_delete_subject. by repeat case_match.
  - unfold Store.permanent_delete_version. by repeat case_match.
Qed.

Lemma apply_record_max_id rec s :
  max_id (apply_record rec s) =
  match rec with RSchema _ v => Z.max (max_id s) (sv_id v) | _ => max_id s end.
Proof.
  destruct rec as [k v|[kt o mg] v|[kt o mg] v|k v|k v|k| | |]; cbn [apply_record]; try done.
  - rewrite apply_schema_unfold. cbn [set_subjects max_id].
    apply (proj1 (proj2 (proj2 (replay_bound_frame v s)))).
  - by destruct o, v.
  - by destruct o, v.
  - unfold Store.soft_delete_subject. by repeat case_match.
  - unfold Store.permanent_delete_version. by repeat case_match.
Qed.

Lemma apply_record_defaults rec s :
  default_compatibility (apply_record rec s) = default_compatibility s ∧
  default_mode (apply_record rec s) = default_mode s.
Proof.
  destruct rec as [k v|[kt o mg] v|[kt o mg] v|k v|k v|k| | |]; cbn [apply_record]; try done.
  - pose proof (apply_schema_settings v s) as Hs. unfold settings in Hs. by simplify_eq.
  - by destruct o, v.
  - by destruct o, v.
  - unfold Store.soft_delete_subject. by repeat case_match.
  - unfold Store.permanent_delete_version. by repeat case_match.
Qed.

Lemma replay_log_defaults log :
  default_compatibility (replay_log log) = compatibility ∧ default_mode (replay_log log) = mode.
Proof.
  unfold replay_log. induction log as [|r log [IHc IHm]] using rev_ind; [done|]. rewrite foldl_snoc.
  unfold apply_kv at 1 3. destruct (apply_record_defaults (decode r.1 r.2)
    (foldl apply_kv (with_defaults compatibility mode) log)) as [-> ->]. done.
Qed.

(** Every stored schema is its id's. *)
Lemma replay_log_content content log id reg :
  uniform content log → by_id (replay_log log) !! id = Some reg → reg = content id.
Proof.
  unfold replay_log. revert id reg. induction log as [|r log IH] using rev_ind; intros id reg Hu; [done|].
  rewrite foldl_snoc. unfold apply_kv at 1. rewrite apply_record_by_id.
  assert (uniform content log) as Hu'.
  { intros r' k v Hr'. apply Hu, elem_of_app. auto. }
  destruct (decode r.1 r.2) as [k v| | | | | | | |] eqn:Hd; try by apply IH.
  intros [[<- <-]|[_ ?]]%lookup_insert_Some; [|by apply IH].
  eapply Hu; [|done]. apply elem_of_app. right. by apply list_elem_of_singleton.
Qed.

Lemma replay_log_service content log log' :
  uniform content log → uniform content log' → table log = table log' →
  same_service (replay_log log) (replay_log log').
Proof.
  intros Hu Hu' Ht. pose proof (replay_log_shows log) as Hs. pose proof (replay_log_shows log') as Hs'.
  rewrite <-Ht in Hs'. pose proof (replay_log_wf log) as Hw. pose proof (replay_log_wf log') as Hw'.
  assert (subjects (replay_log log) = subjects (replay_log log')) as Hsub by (by eapply shows_subjects).
  split; [done| | |].
  - by rewrite (sh_next _ _ Hs), (sh_next _ _ Hs').
  - assert (∀ o, compat_at (replay_log log) o = compat_at (replay_log log') o) as Hc
      by (intros o; by rewrite (sh_compat _ _ Hs), (sh_compat _ _ Hs')).
    assert (∀ o, mode_at (replay_log log) o = mode_at (replay_log log') o) as Hm
      by (intros o; by rewrite (sh_mode _ _ Hs), (sh_mode _ _ Hs')).
    unfold settings. destruct (replay_log_defaults log) as [-> ->], (replay_log_defaults log') as [-> ->].
    pose proof (Hc None) as Hc0. pose proof (Hm None) as Hm0. simpl in Hc0, Hm0. rewrite Hc0, Hm0.
    assert (subject_compat_ (replay_log log) = subject_compat_ (replay_log log')) as ->
      by (apply map_eq; intros x; apply (Hc (Some x))).
    assert (subject_mode_ (replay_log log) = subject_mode_ (replay_log log')) as ->
      by (apply map_eq; intros x; apply (Hm (Some x))). done.
  - intros subject vs e Hvs He.
    destruct (hist_stored _ _ _ (wf_hist _ Hw _ _ Hvs) e He) as [reg Hr].
    rewrite Hsub in Hvs. destruct (hist_stored _ _ _ (wf_hist _ Hw' _ _ Hvs) e He) as [reg' Hr'].
    rewrite Hr, Hr'. f_equal.
    rewrite (replay_log_content _ _ _ _ Hu Hr), (replay_log_content _ _ _ _ Hu' Hr'). done.
Qed.

(** *** The identity index *)

(** The identity of an id's content when it has no references. *)
Definition plain_key (content : Z → RegisteredSchema) (id : Z) : option string :=
  match format_parse (rs_ty (content id)) (rs_schema (content id)) [] with
  | Ok canonical => Some (dedup_key canonical [] (rs_message_type (content id)))
  | Err _ => None
  end.

(** No schema of the log carries references, and no two of its ids have the
    same identity. *)
Definition self_contained (content : Z → RegisteredSchema) (log : list kv) : Prop :=
  ∀ r k v, r ∈ log → decode r.1 r.2 = RSchema k v →
    sv_references v = [] ∧
    ∀ r' k' v' key, r' ∈ log → decode r'.1 r'.2 = RSchema k' v' →
      plain_key content (sv_id v) = Some key → plain_key content (sv_id v') = Some key →
      sv_id v = sv_id v'.

Lemma replay_log_stored log id :
  is_Some (by_id (replay_log log) !! id) →
  ∃ r k v, r ∈ log ∧ decode r.1 r.2 = RSchema k v ∧ sv_id v = id.
Proof.
  unfold replay_log. induction log as [|r log IH] using rev_ind; [by intros [? ?]|].
  rewrite foldl_snoc. unfold apply_kv at 1. rewrite apply_record_by_id.
  assert (is_Some (by_id (foldl apply_kv (with_defaults compatibility mode) log) !! id) →
    ∃ r' k v, r' ∈ log ++ [r] ∧ decode r'.1 r'.2 = RSchema k v ∧ sv_id v = id) as IH'.
  { intros (r' & k & v & Hr' & ? & ?)%IH. exists r', k, v. rewrite elem_of_app. auto. }
  destruct (decode r.1 r.2) as [k v| | | | | | | |] eqn:Hd; try done.
  destruct (decide (sv_id v = id)) as [Heq|Hne].
  - intros _. exists r, k, v. rewrite elem_of_app, list_elem_of_singleton. auto.
  - by rewrite lookup_insert_ne.
Qed.

(** Replaying a record without references rebuilds its identity. *)
Lemma apply_schema_plain_key v s content :
  registered_as v = content (sv_id v) → sv_references v = [] →
  replay_key v s = plain_key content (sv_id v).
Proof.
  intros Hc Hr. unfold replay_key, plain_key. rewrite <-Hc, Hr.
  assert (∀ x, resolve_closure x [] = Ok []) as Hnil by done. rewrite Hnil. done.
Qed.

Lemma apply_record_by_canonical rec s :
  (∀ k v, rec ≠ RSchema k v) → by_canonical (apply_record rec s) = by_canonical s.
Proof.
  intros Hno. destruct rec as [k v|[kt o mg] v|[kt o mg] v|k v|k v|k| | |]; cbn [apply_record]; try done.
  - by destruct (Hno k v).
  - by destruct o, v.
  - by destruct o, v.
  - unfold Store.soft_delete_subject. by repeat case_match.
  - unfold Store.permanent_delete_version. by repeat case_match.
Qed.

(** The index after one more record without references. *)
Lemma apply_schema_index v s content :
  store_wf s → registered_as v = content (sv_id v) → sv_references v = [] →
  (∀ key id, by_canonical s !! key = Some id ↔
     is_Some (by_id s !! id) ∧ plain_key content id = Some key) →
  (∀ id key, is_Some (by_id s !! id) → plain_key content id = Some key →
     plain_key content (sv_id v) = Some key → id = sv_id v) →
  by_canonical (apply_schema v s) =
    match plain_key content (sv_id v) with
    | Some key => <[ key := sv_id v ]> (by_canonical s)
    | None => by_canonical s
    end.
Proof.
  intros Hs Hc Hr Hidx Hdist. rewrite apply_schema_unfold. cbn [set_subjects by_canonical].
  assert (∀ key, canonical_by_id s !! sv_id v = Some key → by_canonical s !! key = Some (sv_id v)) as Hinv
    by (intros key; apply (canon_inverse _ _ _ (wf_canon _ Hs))).
  destruct (plain_key content (sv_id v)) as [key|] eqn:Hk.
  - apply (replay_bound_indexes v s key Hs); [by rewrite (apply_schema_plain_key _ _ _ Hc Hr)|].
    destruct (by_canonical s !! key) as [id|] eqn:Hb.
    + left. apply Hidx in Hb as [Hst Hkey]. by rewrite (Hdist id key).
    + right. split; [done|]. destruct (canonical_by_id s !! sv_id v) as [key'|] eqn:Hcb; [|done].
      pose proof (Hinv key' eq_refl) as Hb'. pose proof Hb' as [_ Hkey]%Hidx. congruence.
  - unfold replay_bound. rewrite (apply_schema_plain_key _ _ _ Hc Hr), Hk.
    unfold replay_stored. rewrite unbind_canonical_eq by apply Hs. simpl.
    destruct (canonical_by_id s !! sv_id v) as [key'|] eqn:Hcb; [|done].
    pose proof (Hinv key' eq_refl) as [_ Hkey]%Hidx. congruence.
Qed.

Lemma self_contained_prefix content log r :
  self_contained content (log ++ [r]) → self_contained content log.
Proof.
  intros Hc r' k v Hr' Hd. destruct (Hc r' k v) as [Hv Hi]; [apply elem_of_app; auto|done|].
  split; [done|]. intros r2 k2 v2 key Hr2. apply Hi, elem_of_app. auto.
Qed.

(** The index of a replay binds each stored id to its identity, and nothing else. *)
Lemma replay_log_index content log key id :
  uniform content log → self_contained content log →
  by_canonical (replay_log log) !! key = Some id ↔
  is_Some (by_id (replay_log log) !! id) ∧ plain_key content id = Some key.
Proof.
  revert key id. induction log as [|r log IH] using rev_ind; intros key id Hu Hsc.
  { split; [done|]. by intros [[? ?] _]. }
  assert (uniform content log) as Hu' by (intros r' k v Hr'; apply Hu, elem_of_app; auto).
  pose proof (self_contained_prefix _ _ _ Hsc) as Hsc'.
  assert (replay_log (log ++ [r]) = apply_record (decode r.1 r.2) (replay_log log)) as ->
    by (unfold replay_log; by rewrite foldl_snoc).
  rewrite apply_record_by_id.
  destruct (decode r.1 r.2) as [k v| | | | | | | |] eqn:Hd;
    try (rewrite apply_record_by_canonical by done; by apply IH).
  assert (r ∈ log ++ [r]) as Hin by (apply elem_of_app; right; by apply list_elem_of_singleton).
  destruct (Hsc r k v Hin Hd) as [Hrefs Hdist]. pose proof (Hu r k v Hin Hd) as Hcont.
  cbn [apply_record]. rewrite (apply_schema_index v _ content).
  - assert (∀ reg, is_Some (<[ sv_id v := reg ]> (by_id (replay_log log)) !! id) ↔
      sv_id v = id ∨ is_Some (by_id (replay_log log) !! id)) as Hst.
    { intros reg. unfold is_Some. setoid_rewrite lookup_insert_Some. split.
      - intros (x & [[? _]|[_ ?]]); eauto.
      - intros [?|[x Hx]]; [eauto|]. destruct (decide (sv_id v = id)); eauto 6. }
    rewrite Hst. destruct (plain_key content (sv_id v)) as [key0|] eqn:Hk0.
    + rewrite lookup_insert_Some, (IH key id Hu' Hsc'). split.
      * intros [[<- <-]|[_ [? ?]]]; auto.
      * intros [[<-|?] Hk]; [left; split; congruence|].
        destruct (decide (key0 = key)) as [->|]; [left; split; [done|]|auto].
        destruct (replay_log_stored log id) as (r' & k' & v' & Hr' & Hd' & <-); [done|].
        apply (Hdist r' k' v' key); try done. apply elem_of_app; auto.
    + rewrite (IH key id Hu' Hsc'). split; [intros [? ?]; auto|].
      intros [[<-|?] Hk]; [congruence|done].
  - apply replay_log_wf.
  - done.
  - done.
  - intros key' id'. by apply IH.
  - intros id' key' Hid' Hk' Hk. symmetry.
    destruct (replay_log_stored log id' Hid') as (r' & k' & v' & Hr' & Hd' & <-).
    apply (Hdist r' k' v' key'); try done. apply elem_of_app; auto.
Qed.

(** Two replays with one service and one content find the same schemas. *)
Lemma replay_log_lookup content log log' subject ty schema refs mt d :
  uniform content log → uniform content log' →
  self_contained content log → self_contained content log' →
  same_service (replay_log log) (replay_log log') →
  find_under_subject (replay_log log) subject ty schema refs mt d =
  find_under_subject (replay_log log') subject ty schema refs mt d.
Proof.
  intros Hu Hu' Hsc Hsc' Hss. unfold find_under_subject.
  rewrite (resolve_closure_proper _ _ Hss refs refs eq_refl).
  destruct (resolve_closure _ refs) as [resolved|]; cbn [result_ok mbind option_bind]; [|done].
  destruct (format_parse ty schema resolved) as [canonical|]; cbn [result_ok mbind option_bind]; [|done].
  set (key := dedup_key canonical refs mt).
  assert (∀ l l' r, uniform content l → uniform content l' → self_contained content l →
    self_contained content l' → subjects (replay_log l) = subjects (replay_log l') →
    find_under_subject_canonical (replay_log l) subject key d = Some r →
    find_under_subject_canonical (replay_log l') subject key d = Some r) as Hone.
  { intros l l' r U U' C C' Hsub. unfold find_under_subject_canonical.
    intros (id & Hk & (vs & Hvs & (e & He & [= <-])%bind_Some)%bind_Some)%bind_Some.
    apply (replay_log_index content) in Hk as [_ Hk]; [|done..].
    pose proof He as [Hin%list_elem_of_In Hb]%List.find_some. assert (ve_id e = id) as Heq by lia.
    rewrite Hsub in Hvs.
    destruct (hist_stored _ _ _ (wf_hist _ (replay_log_wf l') _ _ Hvs) e Hin) as [reg Hr].
    assert (by_canonical (replay_log l') !! key = Some id) as ->.
    { apply (replay_log_index content); [done..|]. rewrite <-Heq. rewrite Heq at 2. eauto. }
    simpl. by rewrite Hvs; simpl; rewrite He. }
  pose proof (ss_subjects _ _ Hss) as Hsub.
  destruct (find_under_subject_canonical (replay_log log) _ _ _) as [r|] eqn:E.
  - symmetry. by eapply (Hone log log').
  - destruct (find_under_subject_canonical (replay_log log') _ _ _) as [r|] eqn:E'; [|done].
    apply (Hone log' log) in E'; [congruence|done..].
Qed.

(** The id high-water mark of a replay is the greatest id of its records. *)
Lemma replay_log_max_id log :
  (0 ≤ max_id (replay_log log))%Z ∧
  (∀ r k v, r ∈ log → decode r.1 r.2 = RSchema k v → (sv_id v ≤ max_id (replay_log log))%Z) ∧
  (max_id (replay_log log) = 0%Z ∨
   ∃ r k v, r ∈ log ∧ decode r.1 r.2 = RSchema k v ∧ max_id (replay_log log) = sv_id v).
Proof.
  unfold replay_log. induction log as [|r log (IH0 & IHle & IHeq)] using rev_ind.
  { split_and!; [done| |by left]. by intros r k v ?%elem_of_nil. }
  rewrite foldl_snoc. unfold apply_kv at 1 3 5 7. rewrite apply_record_max_id. split_and!.
  - destruct (decode r.1 r.2); lia.
  - intros r' k v [Hr'|Hr'%list_elem_of_singleton]%elem_of_app Hd.
    + specialize (IHle _ _ _ Hr' Hd). destruct (decode r.1 r.2); lia.
    + subst. rewrite Hd. lia.
  - destruct (decode r.1 r.2) as [k v| | | | | | | |] eqn:Hd; try (destruct IHeq as [?|(r'&k'&v'&?&?&?)];
      [by left|right; exists r', k', v'; split_and!; [apply elem_of_app; auto|done..]]).
    destruct (Z.le_ge_cases (sv_id v) (max_id (foldl apply_kv (with_defaults compatibility mode) log))).
    + rewrite Z.max_l by done. destruct IHeq as [?|(r'&k'&v'&?&?&?)];
        [by left|right; exists r', k', v'; split_and!; [apply elem_of_app; auto|done..]].
    + rewrite Z.max_r by done. right. exists r, k, v. split_and!; [set_solver|done..].
Qed.

Lemma compacted_sublist log log' : rtc compact log log' → ∀ r, r ∈ log' → r ∈ log.
Proof.
  induction 1 as [|log log1 log' Hc _ IH]; [done|]. intros r Hr. apply IH in Hr.
  by eapply elem_of_submseteq, sublist_submseteq, compact_sublist.
Qed.

Lemma compacted_lookup content log log' subject ty schema refs mt d :
  regular log → uniform content log → self_contained content log → rtc compact log log' →
  find_under_subject (replay_log log) subject ty schema refs mt d =
  find_under_subject (replay_log log') subject ty schema refs mt d.
Proof.
  intros Hr Hu Hsc Hc. pose proof (compacted_sublist _ _ Hc) as Hin.
  assert (uniform content log') as Hu' by (intros r k v Hr'; by apply Hu, Hin).
  apply (replay_log_lookup content); try done.
  - intros r k v Hr' Hd. destruct (Hsc r k v (Hin _ Hr') Hd) as [? Hi]. split; [done|].
    intros r2 k2 v2 key Hr2. by apply Hi, Hin.
  - eapply replay_log_service; [done..|by apply compacted_table].
Qed.

Lemma compacted_service content log log' :
  regular log → uniform content log → rtc compact log log' →
  same_service (replay_log log) (replay_log log') ∧
  (max_id (replay_log log') ≤ max_id (replay_log log))%Z.
Proof.
  intros Hr Hu Hc. pose proof (compacted_sublist _ _ Hc) as Hin. split.
  - eapply replay_log_service; [exact Hu| |by apply compacted_table].
    intros r k v Hr'. by apply Hu, Hin.
  - destruct (replay_log_max_id log) as (H0' & Hle & _).
    destruct (replay_log_max_id log') as (_ & _ & [->|(r & k & v & Hr' & Hd & ->)]); [done|].
    by eapply Hle; [apply Hin|].
Qed.
End replay.

(** The uniformity of a concrete log, decided. *)
Definition uniform_check `{SerdeJson} (content : Z → RegisteredSchema) (log : list kv) : bool :=
  forallb (λ r, match decode r.1 r.2 with
                | RSchema _ v => bool_decide (registered_as v = content (sv_id v))
                | _ => true
                end) log.

Lemma uniform_checked `{SerdeJson} content log : uniform_check content log = true → uniform content log.
Proof.
  unfold uniform_check. rewrite forallb_forall. intros Hc r k v Hr Hd.
  specialize (Hc r (proj1 (list_elem_of_In _ _) Hr)). rewrite Hd in Hc. by apply bool_decide_eq_true in Hc.
Qed.

(** The ids and reference lists of a concrete log, decided. *)
Definition self_contained_check `{SchemaFormat} `{SerdeJson} (content : Z → RegisteredSchema) (log : list kv)
    : bool :=
  let values := omap (λ r, match decode r.1 r.2 with RSchema _ v => Some v | _ => None end) log in
  forallb (λ v, bool_decide (sv_references v = []) &&
    forallb (λ v', (sv_id v =? sv_id v')%Z ||
               negb (bool_decide (plain_key content (sv_id v) = plain_key content (sv_id v')))) values) values.

Lemma self_contained_checked `{SchemaFormat} `{SerdeJson} content log :
  self_contained_check content log = true → self_contained content log.
Proof.
  unfold self_contained_check. rewrite forallb_forall. intros Hc r k v Hr Hd.
  assert (∀ r' k' v', r' ∈ log → decode r'.1 r'.2 = RSchema k' v' →
    In v' (omap (λ r, match decode r.1 r.2 with RSchema _ v => Some v | _ => None end) log)) as Hin.
  { intros r' k' v' Hr' Hd'. apply list_elem_of_In, list_elem_of_omap. exists r'. by rewrite Hd'. }
  specialize (Hc v (Hin _ _ _ Hr Hd)). apply andb_true_iff in Hc as [Hrefs%bool_decide_eq_true Hc].
  split; [done|]. intros r' k' v' key Hr' Hd' Hk Hk'. rewrite forallb_forall in Hc.
  specialize (Hc v' (Hin _ _ _ Hr' Hd')). rewrite Hk, Hk', bool_decide_eq_true_2 in Hc by done.
  rewrite orb_false_r in Hc. lia.
Qed.
