(* ===== verification/ClusterLog.v ===== *)
(** * The log of the cluster may be compacted (kafkastore/mod.rs, kafkastore/topic.rs)

    The records the ten writes send keep the log regular, whatever the nodes
    do: every record takes effect under the one key of its slot, high-water
    records never decrease, and a version is tombstoned only after a high-water
    record above it. With the theorems on compaction this makes the cleaner of
    the broker invisible to the readers of the registry. *)

From stdpp Require Import base gmap strings list pretty sorting functions relations.
From Stdlib Require Import ZArith Lia.
From S2P Require Import Prelude Json Types Store Closure StoreFacts StoreSpec StoreQueries.
From S2P Require Import Record RecordFacts Compat Reader ReaderFacts KafkaStore KafkaFacts KafkaSpec.
From S2P Require Import Slots KafkaLive Program Protocol Cluster ClusterFacts ClusterRun Compaction CompactionFacts.

(** ** What a write decides *)

Definition is_tombstone (rec : SchemaRecord) (subject : string) (version : Z) : Prop :=
  match rec with RTombstone k => sk_subject k = subject ∧ sk_version k = version | _ => False end.

Definition is_high_water (rec : SchemaRecord) (subject : string) (n : Z) : Prop :=
  match rec with
  | RVersionHighWater k v => vk_subject k = subject ∧ vv_next_version v = n
  | _ => False
  end.

(** The records of a decision on [s]: a high-water record comes first and is the
    subject's next version; a tombstone comes after one that covers it. *)
Record disciplined (s : StoreState) (fs : list Part) : Prop := {
  di_first : ∀ f, head fs = Some f → (∀ subject v, ¬ is_tombstone f subject v) ∧
    ∀ subject n, is_high_water f subject n → n = next_version s subject;
  di_high_water : ∀ f subject n, f ∈ tail fs → ¬ is_high_water f subject n;
  di_covered : ∀ f subject v, f ∈ tail fs → is_tombstone f subject v →
    ∃ f' n, head fs = Some f' ∧ is_high_water f' subject n ∧ (i32_saturating_add v 1 ≤ n)%Z;
}.

Lemma disciplined_single s f :
  (∀ subject v, ¬ is_tombstone f subject v) → (∀ subject n, ¬ is_high_water f subject n) →
  disciplined s [f].
Proof.
  intros Ht Hh. split; simpl.
  - intros ? [= <-]. split; [done|]. intros ?? []%Hh.
  - by intros ??? ?%elem_of_nil.
  - by intros ??? ?%elem_of_nil.
Qed.

Lemma disciplined_nil s : disciplined s [].
Proof. split; [done|..]; by intros ??? ?%elem_of_nil. Qed.

Section decisions.
Context `{SchemaFormat}.

Lemma next_version_covers s subject vs e :
  store_wf s → subjects s !! subject = Some vs → e ∈ vs →
  (i32_saturating_add (ve_version e) 1 ≤ next_version s subject)%Z.
Proof.
  intros Hs Hvs He. destruct (hist_next _ _ _ (wf_hist _ Hs _ _ Hvs) e He) as (n & Hn & Hle).
  unfold next_version. by rewrite Hn.
Qed.

Lemma versions_covered s subject include_deleted l v :
  store_wf s → versions s subject include_deleted = Some l → v ∈ l →
  (i32_saturating_add v 1 ≤ next_version s subject)%Z.
Proof.
  intros Hs Hl Hv. rewrite elem_of_versions in Hv by done.
  destruct Hv as [x (e & reg & (vs & Hvs & He & _) & <- & _)%version_spec]; [|done].
  by eapply next_version_covers.
Qed.

(** A subject's permanent delete: the high-water record, then the nulls. *)
Lemma disciplined_delete s subject vs rest :
  (∀ v, v ∈ vs → (i32_saturating_add v 1 ≤ next_version s subject)%Z) →
  (∀ f subject' v, f ∈ rest → ¬ is_tombstone f subject' v) →
  (∀ f subject' n, f ∈ rest → ¬ is_high_water f subject' n) →
  disciplined s (rec_high_water subject (next_version s subject) ::
                 (rec_tombstone subject <$> vs) ++ rest).
Proof.
  intros Hvs Ht Hh. split; cbn [head tail].
  - intros f [= <-]. split; [by intros ?? []|]. intros ?? [<- <-]. done.
  - intros f subject' n [(v & -> & _)%list_elem_of_fmap|Hf]%elem_of_app; [by intros []|by apply Hh].
  - intros f subject' v [(v' & -> & Hv)%list_elem_of_fmap|Hf]%elem_of_app; [|by intros []%Ht].
    intros [<- <-]. do 2 eexists. split_and!; [done|done|by apply Hvs].
Qed.

Lemma outcome_disciplined op s a fs :
  store_wf s → outcome op s = Ok (a, fs) → disciplined s fs.
Proof.
  intros Hs. destruct op as [req|osubject level|subject|mode|subject mode|subject|subject v|subject v|subject|subject];
    cbn [outcome].
  8: { unfold mbind, result_bind. destruct (spec_writable subject s); [|done].
    destruct (permanent_delete_checks s subject v) as [u|] eqn:Hc; [|done].
    destruct (spec_not_referenced subject v s); [|done]. intros [= <- <-].
    apply (disciplined_delete s subject [v] []); [|by intros ??? ?%elem_of_nil..].
    intros v' Hv'%list_elem_of_singleton. subst v'. unfold permanent_delete_checks in Hc.
    destruct (versions s subject true) as [l|] eqn:Hl; [|done].
    destruct (version s subject (Some v) true) as [x|] eqn:Hx; [|done].
    eapply versions_covered; [done|exact Hl|]. rewrite elem_of_versions by done. by rewrite Hx. }
  9: { unfold mbind, result_bind. destruct (spec_writable subject s); [|done].
    destruct (permanent_subject_checks s subject) as [all|] eqn:Hc; [|done].
    destruct (spec_none_referenced subject all s); [|done]. intros [= <- <-].
    apply disciplined_delete.
    - intros v Hv. unfold permanent_subject_checks in Hc.
      destruct (versions s subject true) as [l|] eqn:Hl; [|done]. cbn in Hc.
      case_match; simplify_eq. by eapply versions_covered.
    - intros f subject' v Hf Ht. repeat (apply elem_of_cons in Hf as [->|Hf]; [done|]).
      by apply elem_of_nil in Hf.
    - intros f subject' n Hf Ht. repeat (apply elem_of_cons in Hf as [->|Hf]; [done|]).
      by apply elem_of_nil in Hf. }
  all: unfold decide_register, decide_import, decide_assign, mbind, result_bind; intros Ho;
    simplify_eq/=; repeat (case_match; simplify_eq/=);
    first [apply disciplined_nil | by apply disciplined_single; intros ?? []].
Qed.
End decisions.

(** ** The log *)

Section kept.
Context `{SchemaFormat} `{SerdeJsonLaws} `{UuidLib} `{!MarkerLaws}.
Context (compatibility mode group : string).

Abbreviation s0 := (with_defaults compatibility mode).
Abbreviation replay := (Cluster.replay s0).

Definition covered (log : list kv) (subject : string) (version : Z) : Prop :=
  ∃ r n, r ∈ log ∧ raises r subject n ∧ (i32_saturating_add version 1 ≤ n)%Z.

Record kept (log : list kv) : Prop := {
  kept_canonical : Forall canonical log;
  kept_water : StronglySorted water_le log;
  kept_covered : ∀ r subject version, r ∈ log → deletes r subject version → covered log subject version;
}.

Lemma kept_regular log : kept log → regular log.
Proof.
  intros [Hc Hw Hd]. split; [|  |done|done].
  - eapply Forall_impl; [exact Hc|]. by intros r [].
  - rewrite Forall_forall in Hc. intros r r' Hr Hr' Hk Hne.
    destruct (Hc r Hr) as [_ Hr1], (Hc r' Hr') as [_ Hr2].
    rewrite (Hr1 Hne), (Hr2 (eq_ind _ (λ k, k ≠ SNone) Hne _ Hk)). by rewrite Hk.
Qed.

Lemma covered_app log l subject version : covered log subject version → covered (log ++ l) subject version.
Proof. intros (r & n & Hr & ?). exists r, n. split; [apply elem_of_app; auto|done]. Qed.

Lemma kept_snoc log r :
  kept log → canonical r →
  (∀ subject n, raises r subject n → ∀ r' n', r' ∈ log → raises r' subject n' → (n' ≤ n)%Z) →
  (∀ subject version, deletes r subject version → covered log subject version) →
  kept (log ++ [r]).
Proof.
  intros [Hc Hw Hd] Hr Hn Ht. split.
  - apply Forall_app. split; [done|]. by constructor.
  - apply StronglySorted_app; [done|by repeat constructor|].
    intros x y Hx Hy%list_elem_of_singleton subject n n' Hxn Hyn. subst. by eapply Hn.
  - intros r' subject version [Hr'|Hr'%list_elem_of_singleton]%elem_of_app Hdel; subst; apply covered_app; eauto.
Qed.

(** A marker takes no slot. *)
Lemma marker_decodes t v : decode (barrier_key t) v = RNoop ∧ key_slot (barrier_key t) = SNone.
Proof.
  unfold decode, key_slot, from_slice_value. simpl. rewrite marker_parse. simpl.
  unfold from_slice. by rewrite marker_parse.
Qed.

Lemma kept_marker log t v : kept log → kept (log ++ [(barrier_key t, v)]).
Proof.
  intros Hk. destruct (marker_decodes t v) as [Hd Hs]. apply kept_snoc; [done|..].
  - unfold canonical, effective. cbn [fst snd]. by rewrite Hd, Hs.
  - unfold raises. cbn [fst snd]. by rewrite Hd.
  - unfold deletes. cbn [fst snd]. by rewrite Hd.
Qed.

(** No high-water record of a log is above what it replays to. *)
Lemma raises_next log r subject n :
  r ∈ log → raises r subject n → (n ≤ next_version (replay log) subject)%Z.
Proof.
  intros Hr Hn. destruct (above_table log r subject n Hr Hn) as (m & Hm & Hle).
  pose proof (replay_log_shows compatibility mode log) as Hs. rewrite <-(sh_next _ _ Hs) in Hm.
  unfold next_version, Cluster.replay. unfold replay_log in Hm. by rewrite Hm.
Qed.

(** What is left of a decision still fits the log. *)
Definition fits (log : list kv) (fs : list Part) : Prop :=
  ∀ f, f ∈ fs → (∀ subject n, ¬ is_high_water f subject n) ∧
    ∀ subject v, is_tombstone f subject v → covered log subject v.

Lemma fits_app log l fs : fits log fs → fits (log ++ l) fs.
Proof. intros Hf f Hin. destruct (Hf f Hin) as [? Ht]. split; [done|]. intros. apply covered_app. auto. Qed.

(** The first record of a decision, and the following ones. *)
Lemma kept_first log s f fs r :
  kept log → replay log = s → disciplined s (f :: fs) → records_as r f →
  kept (log ++ [r]) ∧ fits (log ++ [r]) fs.
Proof.
  intros Hk Hs [Hf Hh Ht] [Hd Hr]. destruct (Hf f eq_refl) as [Hf1 Hf2]. split.
  - apply kept_snoc; [done|done| |].
    + unfold raises at 1. rewrite Hd. intros subject n Hn r' n' Hr' Hn'.
      rewrite (Hf2 subject n Hn), <-Hs. by eapply raises_next.
    + unfold deletes. rewrite Hd. intros subject v Hv. by destruct (Hf1 subject v).
  - intros f' Hf'. split; [intros subject n; by apply Hh|]. intros subject v Hv.
    destruct (Ht f' subject v Hf' Hv) as (f'' & n & [= <-] & Hn & Hle).
    exists r, n. split_and!; [set_solver| |done]. unfold raises. by rewrite Hd.
Qed.

Lemma kept_next log f fs r :
  kept log → fits log (f :: fs) → records_as r f → kept (log ++ [r]) ∧ fits (log ++ [r]) fs.
Proof.
  intros Hk Hf [Hd Hr]. destruct (Hf f) as [Hf1 Hf2]; [apply elem_of_cons; auto|]. split.
  - apply kept_snoc; [done|done| |].
    + unfold raises at 1. rewrite Hd. intros subject n Hn. by destruct (Hf1 subject n).
    + unfold deletes. rewrite Hd. auto.
  - apply fits_app. intros f' Hf'. apply Hf, elem_of_cons. auto.
Qed.

(** The log is kept, and what the sequential registry has pending fits it. *)
Definition log_ok (st : Cluster) : Prop :=
  kept (cl_log st) ∧ ∃ q, sequential s0 (cl_history st) = Some q ∧
    ∀ c a fs, sq_pending q = Some (c, a, fs) → fits (cl_log st) fs.

Lemma s0_sane : sane s0.
Proof. split; [apply with_defaults_wf|]. by intros id reg. Qed.

Lemma log_ok_marker st t v : log_ok st → log_ok (append (barrier_key t, v) st).
Proof.
  intros [Hk (q & Hq & Hp)]. split; [by apply kept_marker|]. exists q. split; [done|].
  intros c a fs Hc. by apply fits_app, (Hp c a).
Qed.

(** A transaction that commits continues the decision of its call. *)
Lemma log_ok_land st i ru σ g r :
  core s0 st → log_ok st → holds st i → permits (ru_op ru) (CSend (Some g) r) σ →
  stands s0 (cl_log st) (cl_history st) (holds st i) (m_applied (cl_members st i))
    (ru_id ru) (ru_op ru) σ →
  log_ok (land ru r st).
Proof.
  intros Hc [Hk (q & Hq & Hp)] Hh Hperm Hst. destruct (core_run _ _ Hc) as (q' & Hq' & Hs).
  rewrite Hq in Hq'. injection Hq' as <-. unfold log_ok. cbn [land cl_log cl_history].
  destruct σ as [|n|s|ss|a s [|f fs]|]; try done.
  - destruct Hperm as (a & f & fs & Ho & Hr). destruct Hst as (Hf & _ & Hn). destruct (Hn Hh) as [Hrep _].
    rewrite (sequential_snoc _ _ _ _ Hq), (sq_step_fresh _ _ _ (mkEffect (ru_id ru) (ru_op ru)) Hq Hf).
    unfold sq_begin. cbn [ef_op ef_call]. rewrite Hs, Hrep, Ho.
    assert (store_wf s) as Hwf by (rewrite <-Hrep; apply (replay_log_wf compatibility mode)).
    destruct (kept_first (cl_log st) s f fs r Hk Hrep) as [Hk' Hfit];
      [by eapply outcome_disciplined|done|].
    split; [done|]. eexists. split; [done|]. by intros ??? [= <- <- <-].
  - by destruct Hst as (_ & Hnh & _).
  - cbn in Hperm. destruct Hst as (ds & h2 & _ & Hn). destruct (Hn Hh) as (_ & _ & q' & Hq' & Hpend).
    rewrite Hq in Hq'. injection Hq' as <-.
    destruct (kept_next (cl_log st) f fs r Hk (Hp _ _ _ Hpend) Hperm) as [Hk' Hfit].
    split; [done|]. rewrite (sequential_snoc _ _ _ _ Hq). unfold sq_step. rewrite Hpend. cbn [ef_call].
    rewrite decide_True by done. eexists. split; [done|]. by intros ??? [= <- <- <-].
Qed.

Lemma log_ok_step st st' :
  inv s0 st → log_ok st → step s0 group st st' → log_ok st'.
Proof.
  intros [Hc Hcalls] Hok [i op Hi Had|i ru X c k x st1 Hru Hk Ha|i ru r Hru Hr|i ru Hru|i n Hn|i v|i v|t v];
    try exact Hok; [|by apply log_ok_marker].
  cut (log_ok st1); [done|].
  destruct (Hcalls i ru Hru) as (_ & _ & _ & _ & σ & Hwp & Hst). rewrite Hk in Hwp. cbn in Hwp.
  destruct Hwp as [Hperm _].
  destruct c as [| | | | |g| |n|t| |r|[g|] r]; cbn [answers] in Ha.
  - by destruct Ha as [_ ->].
  - by destruct Ha as [_ ->].
  - by destruct Ha as [_ ->].
  - by destruct Ha as [_ ->].
  - by subst.
  - destruct Ha as [_ Ha]. destruct x; [by subst|]. by destruct Ha as [->| ->].
  - destruct Ha as [_ Ha]. destruct x as [b|e].
    + destruct Ha as [_ ->]. by apply log_ok_marker.
    + destruct Ha as [->|[t ->]]; [done|by apply log_ok_marker].
  - by destruct Ha as (_ & _ & ->).
  - destruct Ha as [_ [->| ->]]; [done|by apply log_ok_marker].
  - by destruct Ha as [_ ->].
  - by subst.
  - destruct Ha as [_ Ha]. destruct x as [u|e].
    + destruct Ha as [Hh ->]. by eapply log_ok_land.
    + destruct Ha as [->|[Hh ->]]; [done|by eapply log_ok_land].
  - done.
Qed.

Lemma log_ok_reachable st : reachable s0 group st → log_ok st.
Proof.
  intros (views & Hst). assert (log_ok (boot views)) as Hb.
  { split; [|eexists; split; [done|]; by intros ??? [=]].
    split; [constructor|constructor|]. by intros ??? ?%elem_of_nil. }
  revert Hb. generalize (inv_boot s0 views). revert Hst. generalize (boot views) as st1.
  induction 1 as [|x y z Hxy _ IH]; [done|]. intros Hinv Hok.
  apply IH; [by eapply inv_step; [apply s0_sane|..]|by eapply log_ok_step].
Qed.

(** C4: the broker's log cleaner is invisible to what the registry serves. Take
    any log the cluster can write, and let compaction drop any records it may:
    a record whose key is written again later, a null with nothing left of its
    key before it, any number of times. If the records of each schema id carry
    one content, a node that starts from what is left holds a well-formed
    registry with the same subjects, versions, schemas by version and by id,
    referrers, closures, settings, compatibility verdicts and next versions
    ([reads_alike]), deleted ones included; its id high-water mark may only be
    lower. The lookup of a schema by its content answers the same too when the
    log's schemas carry no references and no two ids have one identity;
    otherwise a compacted log may have lost an identity
    ([compaction_forgets_identities]). *)
Theorem compaction_transparent st content log' :
  reachable s0 group st → uniform content (cl_log st) → rtc compact (cl_log st) log' →
  store_wf (replay log') ∧ reads_alike (replay (cl_log st)) (replay log') ∧
  settings (replay log') = settings (replay (cl_log st)) ∧
  (max_id (replay log') ≤ max_id (replay (cl_log st)))%Z ∧
  (self_contained content (cl_log st) →
   ∀ subject ty schema refs mt deleted,
     Store.find_under_subject (replay (cl_log st)) subject ty schema refs mt deleted =
     Store.find_under_subject (replay log') subject ty schema refs mt deleted).
Proof.
  intros Hst Hu Hc. destruct (log_ok_reachable st Hst) as [Hk _].
  destruct (compacted_service compatibility mode content _ _ (kept_regular _ Hk) Hu Hc) as [Hss Hmax].
  split_and!; [apply (replay_log_wf compatibility mode)|by apply same_service_reads| |done|].
  - symmetry. apply (ss_settings _ _ Hss).
  - intros Hsc subject ty schema refs mt d.
    by apply (compacted_lookup compatibility mode content _ _ _ _ _ _ _ _ (kept_regular _ Hk)).
Qed.
End kept.

(** ** Cleaned logs *)

Section runs.
Context `{SchemaFormat} `{SerdeJsonLaws} `{UuidLib} `{!MarkerLaws}.
Context (token : Uuid).

Abbreviation write op st := (request default_store "schema-registry" token 80 0 op st).

(** The requests one after the other on node 0, which leads. *)
Definition lone_leader : Cluster := boot (λ _, leader "a" 1).

Definition run_requests (ops : list WOp) (st : Cluster) : Cluster := foldl (λ st op, write op st) st ops.

(** Every request has ended when the next one starts. *)
Fixpoint in_turn (ops : list WOp) (st : Cluster) : bool :=
  match ops with
  | [] => true
  | op :: ops =>
      match m_call (cl_members st 0) with None => in_turn ops (write op st) | Some _ => false end
  end.

Lemma run_requests_reachable ops :
  Forall admissible ops → in_turn ops lone_leader = true →
  reachable default_store "schema-registry" (run_requests ops lone_leader).
Proof.
  intros Hops Hturn. exists (λ _, leader "a" 1). unfold lone_leader in *. revert Hturn. generalize (boot (λ _, leader "a" 1)) as st.
  induction Hops as [|op ops Hop _ IH]; intros st; cbn [in_turn run_requests foldl]; [intros _; apply rtc_refl|].
  destruct (m_call (cl_members st 0)) eqn:Hc; [done|]. intros Ht.
  transitivity (write op st); [by apply request_steps|]. by apply IH.
Qed.
End runs.

Section witnesses.
#[local] Existing Instance echo_format.
#[local] Existing Instance marker_serde.
#[local] Existing Instance marker_serde_laws.
#[local] Existing Instance string_uuid.
#[local] Existing Instance marker_laws.

Abbreviation run ops := (run_requests ("t" : @Uuid string_uuid) ops lone_leader).

Definition reg (subject schema : string) (refs : list SchemaReference) : WOp :=
  WRegister (mkRegisterSchema subject Avro schema refs None None None).

Lemma reg_admissible subject schema refs :
  Forall (λ r, in_i32 (ref_version r)) refs → admissible (reg subject schema refs).
Proof. by intros Hr; split_and!. Qed.

(** Two versions of [orders]; the second is deleted for good. *)
Definition deleted_ops : list WOp :=
  [reg "orders" "X" []; reg "orders" "Y" []; WSetCompat (Some "orders") "FULL";
   WSoftDeleteVersion "orders" 2; WPermanentDeleteVersion "orders" 2].
Definition deleted_run : Cluster := run deleted_ops.

Definition deleted_content (id : Z) : RegisteredSchema :=
  mkRegisteredSchema Avro (if (id =? 1)%Z then "X" else "Y") [] None ∅.

Lemma deleted_run_reachable : reachable default_store "schema-registry" deleted_run.
Proof.
  apply run_requests_reachable; [|vm_compute; reflexivity].
  repeat (apply Forall_cons_2; [first [done | by apply reg_admissible]|]). apply Forall_nil_2.
Qed.

Lemma deleted_run_uniform : uniform deleted_content (cl_log deleted_run).
Proof. apply uniform_checked. vm_compute. reflexivity. Qed.

Lemma compaction_transparent_witness :
  length (cl_log deleted_run) = 26 ∧ length (clean (cl_log deleted_run)) = 3 ∧
  all_schemas (Cluster.replay default_store (clean (cl_log deleted_run))) true =
    all_schemas (Cluster.replay default_store (cl_log deleted_run)) true ∧
  next_version (Cluster.replay default_store (clean (cl_log deleted_run))) "orders" = 3%Z ∧
  Store.find_under_subject (Cluster.replay default_store (clean (cl_log deleted_run)))
    "orders" Avro "X" [] None true = Some (mkRegistered 1 1).
Proof.
  split; [vm_compute; reflexivity|]. split; [vm_compute; reflexivity|].
  destruct (compaction_transparent "BACKWARD" "READWRITE" "schema-registry" deleted_run deleted_content
    (clean (cl_log deleted_run)) deleted_run_reachable deleted_run_uniform
    (clean_compact (cl_log deleted_run))) as (_ & Hr & _ & _ & Hl).
  split; [symmetry; exact (ra_all_schemas _ _ Hr true)|].
  split; [|refine (eq_trans (eq_sym (Hl _ "orders" Avro "X" [] None true)) _);
           [apply self_contained_checked; vm_compute; reflexivity|vm_compute; reflexivity]].
  transitivity (next_version (Cluster.replay default_store (cl_log deleted_run)) "orders");
    [symmetry; exact (ra_next _ _ Hr "orders")|vm_compute; reflexivity].
Defined.

(** The id of a registration on a state. *)
Definition registered_id (subject schema : string) (refs : list SchemaReference) (s : StoreState)
    : option Registered :=
  match Store.register subject Avro schema refs None s with Ok (r, _) => Some r | Err _ => None end.

(** The id high-water mark is not in the log: once the records of the deleted
    version are gone, a node that starts gives its id, 2, to another schema,
    where a node that read every record gives 3. *)
Lemma compaction_forgets_ids :
  (registered_id "orders" "Y" [] <$> [Cluster.replay default_store (take 7 (cl_log deleted_run))]) =
    [Some (mkRegistered 2 2)] ∧
  registered_id "orders" "Z" [] (Cluster.replay default_store (cl_log deleted_run)) =
    Some (mkRegistered 3 3) ∧
  registered_id "orders" "Z" [] (Cluster.replay default_store (clean (cl_log deleted_run))) =
    Some (mkRegistered 2 3).
Proof. split_and!; vm_compute; reflexivity. Qed.

(** [b] references [a]; both are deleted and [a] is registered again. *)
Definition revived_ops : list WOp :=
  [reg "a" "X" []; reg "b" "Y" [mkSchemaReference "n" "a" 1]; WSoftDeleteVersion "b" 1;
   WSoftDeleteVersion "a" 1; reg "a" "X" []].
Definition revived_run : Cluster := run revived_ops.

(** The cleaned log has [b] before the [a] it references, so its replay cannot
    compute the identity of [b]: registering [b]'s schema again makes a second
    id and version where a node that read every record revives the first. *)
Lemma compaction_forgets_identities :
  reachable default_store "schema-registry" revived_run ∧
  registered_id "b" "Y" [mkSchemaReference "n" "a" 1] (Cluster.replay default_store (cl_log revived_run)) =
    Some (mkRegistered 2 1) ∧
  registered_id "b" "Y" [mkSchemaReference "n" "a" 1]
    (Cluster.replay default_store (clean (cl_log revived_run))) = Some (mkRegistered 3 2).
Proof.
  split_and!; [|vm_compute; reflexivity..].
  apply run_requests_reachable; [|vm_compute; reflexivity].
  repeat (apply Forall_cons_2; [first [exact I | apply reg_admissible]|]); try apply Forall_nil_2.
  apply Forall_cons_2; [done|apply Forall_nil_2].
Qed.
End witnesses.

(** *** One identity, two texts *)

(** A format in which all schemas are the same but for their text. *)
Definition lenient_format : SchemaFormat := {|
  format_parse _ _ _ := Ok "K";
  format_check _ _ _ _ _ := Ok tt;
  normalized_storage_form _ schema _ := Ok schema;
|}.

Section texts.
#[local] Existing Instance lenient_format.
#[local] Existing Instance marker_serde.
#[local] Existing Instance marker_serde_laws.
#[local] Existing Instance string_uuid.
#[local] Existing Instance marker_laws.

Definition shared_run : Cluster :=
  run_requests ("t" : @Uuid string_uuid)
    [reg "a" "X" []; reg "b" "Y" []; WSoftDeleteVersion "b" 1; WPermanentDeleteVersion "b" 1] lone_leader.

(** One content per id is needed: [a] and [b] share an id, so while [b]'s
    records last, version 1 of [a] is served with the text of [b]; once they
    are cleaned it is served with its own. *)
Lemma compaction_restores_text :
  (vs_schema <$> version (Cluster.replay default_store (cl_log shared_run)) "a" (Some 1%Z) false) =
    Some "Y" ∧
  (vs_schema <$> version (Cluster.replay default_store (clean (cl_log shared_run))) "a" (Some 1%Z) false) =
    Some "X".
Proof. split; vm_compute; reflexivity. Qed.
End texts.
