(* ===== verification/Guards.v ===== *)
(** * Barrier guards (kafkastore/mod.rs, kafkastore/writer.rs)

    A barrier costs three things that have to be given back: the token's reservation
    with the reader, the marker on the topic, and the waiter itself. A [BarrierGuard] owns
    them; it is finished by the waiter, or dropped wherever the waiter's future is: while the
    marker is produced, while it waits, or while the tombstone is produced. Here the guards of
    a node run side by side with its producer and its reader. *)

From stdpp Require Import base gmap list strings relations sorting.
From S2P Require Import Prelude Types Store Record Reader ReaderFacts.

(** ** The state *)

(** Where the waiter that owns a guard is. *)
Inductive GuardPhase := Ordering | Waiting | Finishing.

Section guards.
Context `{UuidLib}.

(** A record under a token's key: the marker, or its tombstone. *)
Inductive Mark := Marker (t : Uuid) | Tombstone (t : Uuid).

Definition mark_token (m : Mark) : Uuid := match m with Marker t | Tombstone t => t end.

(** The reader's tracker, the guards that are alive, the clean-up tasks that were
    spawned and have not run, what the producer was given and has not sent, the topic, and the
    tokens whose tombstone the producer gave up on. *)
Record Guarded := mkGuarded {
  gd_barriers : Barriers;
  gd_guards : gmap Uuid GuardPhase;
  gd_cleanups : list Uuid;
  gd_queue : list Mark;
  gd_log : list Mark;
  gd_lost : gset Uuid;
}.

Definition no_guards : Guarded := mkGuarded no_barriers ∅ [] [] [] ∅.

(** ** The operations *)

(** [Handle::try_current()] finds a runtime. *)
Context (in_runtime : bool).

(** [SchemaWriter::barrier] and [clear_barrier]: a record through the unfenced producer. *)
Definition barrier (t : Uuid) (st : Guarded) : Guarded :=
  mkGuarded (gd_barriers st) (gd_guards st) (gd_cleanups st) (gd_queue st ++ [Marker t]) (gd_log st) (gd_lost st).

Definition clear_barrier (t : Uuid) (st : Guarded) : Guarded :=
  mkGuarded (gd_barriers st) (gd_guards st) (gd_cleanups st) (gd_queue st ++ [Tombstone t]) (gd_log st) (gd_lost st).

Definition set_phase (t : Uuid) (p : GuardPhase) (st : Guarded) : Guarded :=
  mkGuarded (gd_barriers st) (<[ t := p ]> (gd_guards st)) (gd_cleanups st) (gd_queue st) (gd_log st) (gd_lost st).

Definition set_tracker (b : Barriers) (st : Guarded) : Guarded :=
  mkGuarded b (gd_guards st) (gd_cleanups st) (gd_queue st) (gd_log st) (gd_lost st).

(** [BarrierGuard::order], up to the wait for the producer. *)
Definition guard_order (t : Uuid) (st : Guarded) : Guarded :=
  barrier t (set_phase t Ordering (set_tracker (reserve t (gd_barriers st)) st)).

(** [BarrierGuard::finish], up to the wait for the producer. *)
Definition guard_finish (t : Uuid) (st : Guarded) : Guarded :=
  clear_barrier t (set_phase t Finishing (set_tracker (cancel t (gd_barriers st)) st)).

(** [Drop for BarrierGuard]. *)
Definition guard_drop (active : bool) (t : Uuid) (st : Guarded) : Guarded :=
  if active then
    mkGuarded (cancel t (gd_barriers st)) (delete t (gd_guards st))
      (if in_runtime then t :: gd_cleanups st else gd_cleanups st) (gd_queue st) (gd_log st) (gd_lost st)
  else mkGuarded (gd_barriers st) (delete t (gd_guards st)) (gd_cleanups st) (gd_queue st) (gd_log st) (gd_lost st).

(** One turn of the loop of [await_barrier]. *)
Definition guard_poll (t : Uuid) (st : Guarded) : Guarded :=
  match poll t (gd_barriers st) with
  | (Seen, b) => guard_finish t (set_tracker b st)
  | (Invalidated, b) => guard_drop true t (set_tracker b st)
  | (Pending, b) => set_tracker b st
  end.

(** The task a drop spawned. *)
Definition run_cleanup (t : Uuid) (rest : list Uuid) (st : Guarded) : Guarded :=
  clear_barrier t (mkGuarded (gd_barriers st) (gd_guards st) rest (gd_queue st) (gd_log st) (gd_lost st)).

(** The producer sends its records in order; one it gives up on is left out. *)
Definition land_mark (m : Mark) (rest : list Mark) (st : Guarded) : Guarded :=
  mkGuarded (gd_barriers st) (gd_guards st) (gd_cleanups st) rest (gd_log st ++ [m]) (gd_lost st).

Definition lose_mark (m : Mark) (rest : list Mark) (st : Guarded) : Guarded :=
  mkGuarded (gd_barriers st) (gd_guards st) (gd_cleanups st) rest (gd_log st)
    (match m with Tombstone t => {[ t ]} ∪ gd_lost st | Marker _ => gd_lost st end).

(** A [Uuid::new_v4()] nothing has used. *)
Record unused (t : Uuid) (st : Guarded) : Prop := {
  un_guards : gd_guards st !! t = None;
  un_cleanups : t ∉ gd_cleanups st;
  un_marks : t ∉ mark_token <$> (gd_log st ++ gd_queue st);
}.

(** The steps of a node: its waiters, the spawned tasks, the producer and the reader. *)
Inductive gstep (st : Guarded) : Guarded → Prop :=
  | GOrder t : unused t st → gstep st (guard_order t st)
  | GOrdered t : gd_guards st !! t = Some Ordering → Marker t ∈ gd_log st → gstep st (set_phase t Waiting st)
  | GPoll t : gd_guards st !! t = Some Waiting → gstep st (guard_poll t st)
  | GCleared t : gd_guards st !! t = Some Finishing → Tombstone t ∈ gd_log st → gstep st (guard_drop false t st)
  (** An error of the producer, the deadline, a stopped reader or a request that goes away. *)
  | GAbandon t p : gd_guards st !! t = Some p → gstep st (guard_drop true t st)
  | GCleanup t before after : gd_cleanups st = before ++ t :: after → gstep st (run_cleanup t (before ++ after) st)
  | GLand m rest : gd_queue st = m :: rest → gstep st (land_mark m rest st)
  | GLose m rest : gd_queue st = m :: rest → gstep st (lose_mark m rest st)
  | GObserve m : m ∈ gd_log st → gstep st (set_tracker (observe (mark_token m) (gd_barriers st)) st)
  | GReplaced : gstep st (set_tracker (invalidate_all (gd_barriers st)) st).

Definition guards_reachable (st : Guarded) : Prop := rtc gstep no_guards st.

(** Nothing is under way. *)
Definition quiet (st : Guarded) : Prop := gd_guards st = ∅ ∧ gd_cleanups st = [] ∧ gd_queue st = [].

(** What compaction keeps of a token's key. *)
Definition compacted (t : Uuid) (log : list Mark) : option Mark := last (filter (λ m, mark_token m = t) log).

(** ** The tracker *)

(** What is tracked belongs to a guard that is alive and has not been finished, and a guard that
    still waits is tracked. *)
Record tracker_inv (b : Barriers) (guards : gmap Uuid GuardPhase) : Prop := {
  ti_owned : ∀ t, t ∈ pending b ∪ seen b ∪ invalidated b → ∃ p, guards !! t = Some p ∧ p ≠ Finishing;
  ti_seen : seen b ⊆ pending b;
  ti_split : pending b ## invalidated b;
  ti_waits : ∀ t p, guards !! t = Some p → p ≠ Finishing → t ∈ pending b ∪ invalidated b;
}.

Lemma reserve_inv b guards t :
  guards !! t = None → tracker_inv b guards → tracker_inv (reserve t b) (<[ t := Ordering ]> guards).
Proof.
  intros Hn [Ho Hs Hd Hw]. split; cbn.
  - intros u Hu. destruct (decide (u = t)) as [->|]; [rewrite lookup_insert_eq; eauto|].
    rewrite lookup_insert_ne by done. apply Ho. set_solver.
  - set_solver.
  - assert (t ∉ invalidated b) as Ht; [|set_solver]. intros Hi. destruct (Ho t) as (p & ? & _); [set_solver|congruence].
  - intros u p. destruct (decide (u = t)) as [->|]; [set_solver|]. rewrite lookup_insert_ne by done.
    intros Hu Hp. specialize (Hw u p Hu Hp). set_solver.
Qed.

(** Forgetting a token, when its guard goes or is finished. *)
Lemma cancel_inv b guards guards' t :
  (∀ u, u ≠ t → guards' !! u = guards !! u) → (∀ p, guards' !! t = Some p → p = Finishing) →
  tracker_inv b guards → tracker_inv (cancel t b) guards'.
Proof.
  intros Hg Ht [Ho Hs Hd Hw]. split; cbn.
  - intros u Hu. rewrite Hg by set_solver. apply Ho. set_solver.
  - set_solver.
  - set_solver.
  - intros u p Hu Hp. destruct (decide (u = t)) as [->|Hne]; [by apply Ht in Hu|].
    rewrite Hg in Hu by done. specialize (Hw u p Hu Hp). set_solver.
Qed.

Lemma forget_inv b guards t : tracker_inv b guards → tracker_inv (cancel t b) (delete t guards).
Proof.
  apply cancel_inv; [intros u Hu; by rewrite lookup_delete_ne|]. intros p. by rewrite lookup_delete_eq.
Qed.

Lemma finished_inv b guards t : tracker_inv b guards → tracker_inv (cancel t b) (<[ t := Finishing ]> guards).
Proof.
  apply cancel_inv; [intros u Hu; by rewrite lookup_insert_ne|]. intros p. rewrite lookup_insert_eq. congruence.
Qed.

(** A finished guard has nothing left in the tracker. *)
Lemma finished_untracked b guards t : tracker_inv b guards → guards !! t = Some Finishing → cancel t b = b.
Proof.
  intros [Ho _ _ _] Ht. assert (t ∉ pending b ∪ seen b ∪ invalidated b) as Hn.
  { intros Hu. destruct (Ho t Hu) as (p & Hp & Hne). congruence. }
  destruct b as [pe se inv]. unfold cancel. cbn in *. f_equal; set_solver.
Qed.

(** A poll followed by [cancel] forgets what [cancel] alone forgets. *)
Lemma cancel_poll t b : cancel t (poll t b).2 = cancel t b.
Proof. unfold poll, cancel. repeat case_bool_decide; cbn; [f_equal; set_solver..|done]. Qed.

Lemma poll_pending t b b' : poll t b = (Pending, b') → b' = b.
Proof. unfold poll. repeat case_bool_decide; congruence. Qed.

Lemma observe_inv b guards t : tracker_inv b guards → tracker_inv (observe t b) guards.
Proof.
  intros [Ho Hs Hd Hw]. unfold observe. case_bool_decide; [|done]. split; cbn; [|set_solver|done|done].
  intros u Hu. apply Ho. set_solver.
Qed.

Lemma invalidate_inv b guards : tracker_inv b guards → tracker_inv (invalidate_all b) guards.
Proof.
  intros [Ho Hs Hd Hw]. split; cbn; [|set_solver|set_solver|].
  - intros u Hu. apply Ho. set_solver.
  - intros u p Hu Hp. specialize (Hw u p Hu Hp). set_solver.
Qed.

Lemma ordered_inv b guards t :
  guards !! t = Some Ordering → tracker_inv b guards → tracker_inv b (<[ t := Waiting ]> guards).
Proof.
  intros Ht [Ho Hs Hd Hw]. split; [|done..|].
  - intros u Hu. destruct (decide (u = t)) as [->|]; [rewrite lookup_insert_eq|rewrite lookup_insert_ne by done]; eauto.
  - intros u q Hu Hq. destruct (decide (u = t)) as [->|]; [by apply (Hw t Ordering)|].
    rewrite lookup_insert_ne in Hu by done. by apply (Hw u q).
Qed.

Lemma gstep_tracker st st' :
  gstep st st' → tracker_inv (gd_barriers st) (gd_guards st) → tracker_inv (gd_barriers st') (gd_guards st').
Proof.
  intros Hstep Hi. destruct Hstep as [t Hu|t Ht _|t Ht|t Ht _|t p Ht|t before after _|m rest _|m rest _|m _|]; cbn; try done.
  - apply reserve_inv; [by destruct Hu|done].
  - by apply ordered_inv.
  - unfold guard_poll. pose proof (cancel_poll t (gd_barriers st)) as Hc.
    destruct (poll t (gd_barriers st)) as [[| |] b] eqn:Hp; cbn in *.
    + by rewrite (poll_pending _ _ _ Hp).
    + rewrite Hc. by apply finished_inv.
    + rewrite Hc. by apply forget_inv.
  - rewrite <-(finished_untracked _ _ t Hi Ht). by apply forget_inv.
  - by apply forget_inv.
  - by apply observe_inv.
  - by apply invalidate_inv.
Qed.

(** ** The topic *)

(** No marker follows another record of its token. *)
Definition first_marker (m m' : Mark) : Prop := ∀ t, m' = Marker t → mark_token m ≠ t.

(** The markers come first, and one of a token without a guard is cleared, will be, or the producer
    gave up on it. *)
Record topic_inv (st : Guarded) : Prop := {
  to_order : StronglySorted first_marker (gd_log st ++ gd_queue st);
  to_clear : in_runtime = true → ∀ t, Marker t ∈ gd_log st ++ gd_queue st →
    is_Some (gd_guards st !! t) ∨ t ∈ gd_cleanups st ∨ Tombstone t ∈ gd_log st ++ gd_queue st ∨ t ∈ gd_lost st;
}.

Lemma sorted_snoc (l : list Mark) m :
  StronglySorted first_marker l → (∀ t, m = Marker t → t ∉ mark_token <$> l) →
  StronglySorted first_marker (l ++ [m]).
Proof.
  intros Hl Hm. apply StronglySorted_app_2; [|done|by repeat constructor].
  intros m1 m2 H1 ->%list_elem_of_singleton t -> <-. by apply (Hm (mark_token m1)), list_elem_of_fmap_2.
Qed.

Lemma sorted_drop (l r : list Mark) m :
  StronglySorted first_marker (l ++ m :: r) → StronglySorted first_marker (l ++ r).
Proof.
  rewrite !StronglySorted_app, StronglySorted_cons. intros (Hx & Hl & _ & Hr).
  split_and!; [|done..]. intros m1 m2 H1 H2. apply Hx; [done|by right].
Qed.

(** A token whose marker and tombstone are on the topic is compacted away. *)
Lemma compacted_tombstone l t :
  StronglySorted first_marker l → Tombstone t ∈ l → compacted t l = Some (Tombstone t).
Proof.
  intros Hs Ht. unfold compacted. destruct (last _) as [m|] eqn:Hl.
  - pose proof (last_filter_Some _ _ _ Hl) as (l1 & l2 & -> & Hf).
    apply last_Some_elem_of, list_elem_of_filter in Hl as [Hm _].
    destruct m as [u|u]; cbn in Hm; subst u; [|done]. exfalso.
    apply elem_of_app in Ht as [H1|[?|H2]%elem_of_cons]; [|done|].
    + by eapply (StronglySorted_app_1_elem_of _ _ _ _ (Marker t) Hs H1); [left|reflexivity|reflexivity].
    + rewrite Forall_forall in Hf. by apply (Hf _ H2).
  - apply last_None in Hl. assert (Tombstone t ∈ filter (λ m, mark_token m = t) l) as Hin by by apply list_elem_of_filter.
    rewrite Hl in Hin. by apply elem_of_nil in Hin.
Qed.

Lemma topic_frame st b guards cleanups :
  (∀ t, is_Some (gd_guards st !! t) → is_Some (guards !! t) ∨ t ∈ cleanups ∨ Tombstone t ∈ gd_log st ++ gd_queue st) →
  (∀ t, t ∈ gd_cleanups st → t ∈ cleanups) →
  topic_inv st → topic_inv (mkGuarded b guards cleanups (gd_queue st) (gd_log st) (gd_lost st)).
Proof.
  intros Hg Hc [Ho Hcl]. split; [done|]. cbn. intros Hr t Ht.
  destruct (Hcl Hr t Ht) as [H1|[H2|[H3|H4]]]; [destruct (Hg t H1) as [?|[?|?]]|..]; eauto.
Qed.

Lemma topic_tombstone st t before after :
  gd_cleanups st = before ++ t :: after ∨ gd_cleanups st = before ++ after →
  topic_inv st → topic_inv (run_cleanup t (before ++ after) st).
Proof.
  intros Hc [Ho Hcl]. split; cbn; rewrite (assoc_L (++)); [by apply sorted_snoc|].
  intros Hr u [Hu|Hu%list_elem_of_singleton]%elem_of_app; [|done].
  rewrite (elem_of_app _ [Tombstone t]), list_elem_of_singleton.
  destruct (Hcl Hr u Hu) as [?|[H2|[?|?]]]; [by left| |tauto..].
  destruct (decide (u = t)) as [->|Hne]; [tauto|]. right. left. destruct Hc as [Hc|Hc]; rewrite Hc in H2; set_solver.
Qed.

Lemma drop_topic st t : topic_inv st → topic_inv (guard_drop true t st).
Proof.
  intros [Ho Hcl]. unfold guard_drop. destruct in_runtime eqn:Hr; [|by split; [|congruence]].
  apply topic_frame; [|set_solver|by split; [|rewrite Hr]].
  intros u Hu. destruct (decide (u = t)) as [->|]; [right; left; set_solver|]. left. by rewrite lookup_delete_ne.
Qed.

Lemma poll_topic st t : topic_inv st → topic_inv (guard_poll t st).
Proof.
  intros Hi. assert (∀ b, topic_inv (set_tracker b st)) as Hb by (intros b; apply topic_frame; [by left|done|done]).
  unfold guard_poll. destruct (poll _ _) as [[| |] b]; [done| |by apply drop_topic].
  apply (topic_tombstone (set_phase t Finishing (set_tracker (cancel t b) st)) t [] (gd_cleanups st)); [by right|].
  apply topic_frame; [|done|done]. intros u Hu. left.
  destruct (decide (u = t)) as [->|]; [rewrite lookup_insert_eq; eauto|by rewrite lookup_insert_ne].
Qed.

Lemma gstep_topic st st' : gstep st st' → topic_inv st → topic_inv st'.
Proof.
  intros Hstep Hi. destruct Hstep as [t Hu|t Ht _|t Ht|t Ht Hm|t p Ht|t before after Hc|m rest Hq|m rest Hq|m _|].
  - destruct Hi as [Ho Hcl], Hu as [_ _ Hun]. split; cbn; rewrite (assoc_L (++)).
    + apply sorted_snoc; [done|]. by intros u [= <-].
    + intros Hr u [Hu|[= ->]%list_elem_of_singleton]%elem_of_app; [|left; rewrite lookup_insert_eq; eauto].
      rewrite (elem_of_app _ [Marker t]), list_elem_of_singleton.
      assert (u ≠ t) as Hne by (intros ->; apply Hun; by apply (list_elem_of_fmap_2 mark_token _ _ Hu)).
      rewrite lookup_insert_ne by done. destruct (Hcl Hr u Hu) as [?|[?|[?|?]]]; tauto.
  - apply topic_frame; [|done|done]. intros u Hu. left.
    destruct (decide (u = t)) as [->|]; [rewrite lookup_insert_eq; eauto|by rewrite lookup_insert_ne].
  - by apply poll_topic.
  - apply topic_frame; [|done|done]. intros u Hu.
    destruct (decide (u = t)) as [->|]; [right; right; apply elem_of_app; by left|left; by rewrite lookup_delete_ne].
  - by apply drop_topic.
  - apply topic_tombstone; [by left|done].
  - destruct Hi as [Ho Hcl]. rewrite Hq in *. split; cbn; by rewrite <-(assoc_L (++)).
  - destruct Hi as [Ho Hcl]. rewrite Hq in *. split; cbn; [by eapply sorted_drop|].
    intros Hr u Hu. assert (∀ x, x ∈ gd_log st ++ m :: rest ↔ x = m ∨ x ∈ gd_log st ++ rest) as Hx
      by (intros x; rewrite !elem_of_app, elem_of_cons; tauto).
    specialize (Hcl Hr u). rewrite !Hx in Hcl. destruct Hcl as [?|[?|[[<-|?]|?]]]; [by right|by left|by right; left| |tauto|].
    + right. right. right. set_solver.
    + right. right. right. destruct m; set_solver.
  - apply topic_frame; [by left|done|done].
  - apply topic_frame; [by left|done|done].
Qed.

Lemma reachable_guards st : guards_reachable st → tracker_inv (gd_barriers st) (gd_guards st) ∧ topic_inv st.
Proof.
  intros Hr. revert st Hr. refine (rtc_ind_r (R := gstep) _ no_guards _ _).
  - split; [by split|]. split; [constructor|]. cbn. intros _ t Ht. by apply elem_of_nil in Ht.
  - intros x y _ Hstep [Ht Ho]. split; [by eapply gstep_tracker|by eapply gstep_topic].
Qed.

(** ** Everything is given back *)

(** Left alone, a node comes to rest without losing a tombstone: the guards go, ... *)
Lemma guards_go n : ∀ st, size (gd_guards st) = n →
  ∃ st', rtc gstep st st' ∧ gd_guards st' = ∅ ∧ gd_lost st' = gd_lost st.
Proof.
  induction n as [|n IH]; intros st Hn; [exists st; by apply map_size_empty_inv in Hn|].
  destruct (decide (gd_guards st = ∅)) as [He|Hne]; [exists st; by rewrite He|].
  apply map_choose in Hne as (t & p & Ht).
  destruct (IH (guard_drop true t st)) as (st' & Hrun & He & Hl); [cbn; rewrite map_size_delete, Ht, Hn; done|].
  exists st'. split; [|done]. eapply rtc_l; [by eapply GAbandon|done].
Qed.

(** ... their clean-ups run, ... *)
Lemma cleanups_run n : ∀ st, length (gd_cleanups st) = n →
  ∃ st', rtc gstep st st' ∧ gd_guards st' = gd_guards st ∧ gd_cleanups st' = [] ∧ gd_lost st' = gd_lost st.
Proof.
  induction n as [|n IH]; intros st Hn; [exists st; by apply nil_length_inv in Hn|].
  destruct (gd_cleanups st) as [|t rest] eqn:Hc; [done|].
  destruct (IH (run_cleanup t ([] ++ rest) st)) as (st' & Hrun & Hg & He & Hl); [by injection Hn|].
  exists st'. split; [|done]. eapply rtc_l; [by apply (GCleanup st t [] rest)|done].
Qed.

(** ... and the producer sends what it has. *)
Lemma queue_lands n : ∀ st, length (gd_queue st) = n →
  ∃ st', rtc gstep st st' ∧ gd_guards st' = gd_guards st ∧ gd_cleanups st' = gd_cleanups st ∧ gd_queue st' = [] ∧
    gd_lost st' = gd_lost st.
Proof.
  induction n as [|n IH]; intros st Hn; [exists st; by apply nil_length_inv in Hn|].
  destruct (gd_queue st) as [|m rest] eqn:Hq; [done|].
  destruct (IH (land_mark m rest st)) as (st' & Hrun & He); [by injection Hn|].
  exists st'. split; [|done]. eapply rtc_l; [by apply GLand|done].
Qed.

Lemma comes_to_rest st : ∃ st', rtc gstep st st' ∧ quiet st' ∧ gd_lost st' = gd_lost st.
Proof.
  destruct (guards_go _ st eq_refl) as (s1 & H1 & Hg & Hl1).
  destruct (cleanups_run _ s1 eq_refl) as (s2 & H2 & Hg2 & Hc & Hl2).
  destruct (queue_lands _ s2 eq_refl) as (s3 & H3 & Hg3 & Hc3 & Hq & Hl3).
  exists s3. split; [by rewrite H1, H2|].
  split; [split_and!; congruence|congruence].
Qed.

(** A waiter that is not finished is released by the first poll after its marker is observed. *)
Lemma observed_released b guards t p :
  tracker_inv b guards → guards !! t = Some p → p ≠ Finishing → (poll t (observe t b)).1 ≠ Pending.
Proof.
  intros [_ _ Hd Hw] Ht Hp. specialize (Hw t p Ht Hp). unfold observe, poll.
  case_bool_decide as Hpe; cbn; repeat case_bool_decide; cbn; try done; set_solver.
Qed.

(** C17: barriers are given back. However the waiters, the clean-up tasks, the producer and the reader of a
    node interleave, and wherever a waiter is dropped: the reader tracks no token but those of guards that are
    still waiting; such a guard is released by the first poll after the reader has observed its marker; at
    rest the tracker is empty and, inside a runtime, the topic's compaction keeps no marker but
    those whose tombstone the producer failed to send; and every state can come to rest
    without such a failure. *)
Theorem barriers_given_back st : guards_reachable st →
  (∀ t, t ∈ pending (gd_barriers st) ∪ seen (gd_barriers st) ∪ invalidated (gd_barriers st) →
     ∃ p, gd_guards st !! t = Some p ∧ p ≠ Finishing) ∧
  (∀ t p, gd_guards st !! t = Some p → p ≠ Finishing → (poll t (observe t (gd_barriers st))).1 ≠ Pending) ∧
  (quiet st → gd_barriers st = no_barriers ∧
     (in_runtime = true → ∀ t, Marker t ∈ gd_log st → t ∉ gd_lost st →
        compacted t (gd_log st) = Some (Tombstone t))) ∧
  ∃ st', rtc gstep st st' ∧ quiet st' ∧ gd_lost st' = gd_lost st.
Proof.
  intros Hr. destruct (reachable_guards st Hr) as [Ht [Ho Hc]]. split_and!.
  - apply Ht.
  - intros t p. by apply (observed_released _ _ _ _ Ht).
  - intros (Hg & Hcl & Hq). rewrite Hg, Hcl, Hq, (right_id_L [] (++)) in *. split.
    + destruct Ht as [Hown _ _ _]. destruct (gd_barriers st) as [pe se inv]. unfold no_barriers. cbn in *.
      assert (∀ t, t ∉ pe ∪ se ∪ inv) as Hn by (intros t Hin; by destruct (Hown t Hin) as (p & ? & _)).
      f_equal; apply set_eq; set_solver.
    + intros Hrt t Hm Hl. apply compacted_tombstone; [done|].
      destruct (Hc Hrt t Hm) as [[p Hp]|[Hin|[?|?]]]; [done|by apply elem_of_nil in Hin|done|done].
  - apply comes_to_rest.
Qed.
End guards.

(** ** A run *)

Section witnesses.
#[local] Existing Instance string_uuid.

Abbreviation ta := ("a" : @Uuid string_uuid).
Abbreviation tb := ("b" : @Uuid string_uuid).

(** Token [ta] is ordered, observed and finished; [tb] is dropped while its marker is still in the
    producer. *)
Definition run : list (Guarded → Guarded) := [
  guard_order ta;
  λ st, land_mark (Marker ta) [] st;
  set_phase ta Waiting;
  λ st, set_tracker (observe ta (gd_barriers st)) st;
  guard_poll true ta;
  guard_order tb;
  guard_drop true true tb;
  λ st, land_mark (Tombstone ta) [Marker tb] st;
  guard_drop true false ta;
  λ st, run_cleanup tb ([] ++ []) st;
  λ st, land_mark (Marker tb) [Tombstone tb] st;
  λ st, land_mark (Tombstone tb) [] st ].

Definition rested : Guarded := foldl (λ st f, f st) no_guards run.

Lemma rested_reachable : guards_reachable true rested.
Proof.
  unfold rested, run, guards_reachable. cbn [foldl].
  eapply rtc_r; [|by apply GLand]. eapply rtc_r; [|by apply GLand].
  eapply rtc_r; [|by apply (GCleanup _ _ _ [] [])].
  eapply rtc_r; [|apply GCleared; [by vm_compute|by right; left]].
  eapply rtc_r; [|by apply GLand]. eapply rtc_r; [|by eapply GAbandon].
  eapply rtc_r; [|apply GOrder; split; [by vm_compute|by apply (bool_decide_unpack _)..]].
  eapply rtc_r; [|apply GPoll; by vm_compute].
  eapply rtc_r; [|apply (GObserve _ _ (Marker ta)); by left].
  eapply rtc_r; [|apply GOrdered; [by vm_compute|by left]].
  eapply rtc_r; [|by apply GLand]. eapply rtc_r; [apply rtc_refl|].
  apply GOrder; split; [by vm_compute|by apply (bool_decide_unpack _)..].
Qed.

Lemma barriers_given_back_witness :
  gd_barriers rested = no_barriers ∧
  compacted ta (gd_log rested) = Some (Tombstone ta) ∧ compacted tb (gd_log rested) = Some (Tombstone tb).
Proof.
  destruct (barriers_given_back true rested rested_reachable) as (_ & _ & Hq & _).
  destruct Hq as [Hb Hc]; [by split_and!|]. split; [exact Hb|].
  split; apply (Hc eq_refl); [by left|by vm_compute|by right; right; left|by vm_compute].
Defined.
End witnesses.
