(* ===== verification/Server.v ===== *)
(** * The server (bin/schema-registry.rs, rest/serve.rs, election/mod.rs)

    The accept loops and what they add to a request (the peer address and the
    principal of the client certificate), the task that refreshes the key set,
    and main: the order in which a node starts its parts, where it stops when
    one fails, and what it serves at the end. The theorems follow a request
    from the socket to the handler of a node started from given options. *)

From stdpp Require Import base gmap strings list relations.
From Stdlib Require Import ZArith Lia.
From S2P Require Import Prelude Text Float Json Types Store StoreFacts StoreSpec Record RecordFacts Reader.
From S2P Require Import ReaderFacts KafkaStore Topic Start Election Auth Authz Router RouterFacts Config ConfigFacts ServerArgs.

(** ** Serving connections (rest/serve.rs) *)

(** A request as it arrives on a connection. *)
Record HttpRequest := mkHttpRequest {
  ht_method : Method;
  ht_path : string;
  ht_query : string;
  ht_headers : list (string * string);
  ht_body : option string;
}.

(** The request the router sees: the connection's peer and principal are
    extensions, set by the server. *)
Definition with_connection (peer : string) (mtls : option Principal) (r : HttpRequest) : Request :=
  mkRequest (ht_method r) (ht_path r) (ht_query r) (ht_headers r) (ht_body r) (Some peer) mtls None false.

Section serving.
(** A certificate, and krabka_security's subject name of it. *)
Context {Cert : Type} (extract_principal_from_cert : Cert → option string).

(** What the listener and its connections do: the shutdown, a failed accept, or
    a connection with its handshake ([None]: it failed; the certificates the
    peer presented otherwise) and its requests. *)
Inductive Incoming :=
  | Shutdown
  | AcceptFailed
  | Accepted (peer : string) (handshake : option (option (list Cert))) (requests : list HttpRequest).

(** The first certificate's subject, as an mTLS principal. *)
Definition peer_principal (certs : option (list Cert)) : option Principal :=
  cs ← certs;
  cert ← head cs;
  name ← extract_principal_from_cert cert;
  Some (mkPrincipal name MTls []).

(** [serve_http]: the peer address of each connection, no certificate. *)
Fixpoint serve_http (events : list Incoming) : list Request :=
  match events with
  | [] | Shutdown :: _ => []
  | AcceptFailed :: rest => serve_http rest
  | Accepted peer _ requests :: rest => (with_connection peer None <$> requests) ++ serve_http rest
  end.

(** [serve_tls]: a failed accept or handshake ends that connection only. *)
Fixpoint serve_tls (events : list Incoming) : list Request :=
  match events with
  | [] | Shutdown :: _ => []
  | AcceptFailed :: rest => serve_tls rest
  | Accepted _ None _ :: rest => serve_tls rest
  | Accepted peer (Some certs) requests :: rest =>
      (with_connection peer (peer_principal certs) <$> requests) ++ serve_tls rest
  end.

(** The events up to the shutdown. *)
Fixpoint until_shutdown (events : list Incoming) : list Incoming :=
  match events with
  | [] | Shutdown :: _ => []
  | e :: rest => e :: until_shutdown rest
  end.

(** Where a request the router sees comes from. *)
Definition comes_from (tls : bool) (events : list Incoming) (req : Request) : Prop :=
  ∃ peer handshake requests r,
    Accepted peer handshake requests ∈ until_shutdown events ∧ r ∈ requests ∧
    if tls then ∃ certs, handshake = Some certs ∧ req = with_connection peer (peer_principal certs) r
    else req = with_connection peer None r.

Lemma comes_from_cons tls e events req :
  e ≠ Shutdown → comes_from tls events req → comes_from tls (e :: events) req.
Proof.
  intros He (peer & h & rs & r & Hin & Hr). exists peer, h, rs, r. split; [|done].
  destruct e; [done|by right..].
Qed.

Lemma comes_from_first (tls : bool) peer h (rs : list HttpRequest) events req :
  (∃ r, r ∈ rs ∧ if tls then ∃ certs, h = Some certs ∧ req = with_connection peer (peer_principal certs) r
                 else req = with_connection peer None r) →
  comes_from tls (Accepted peer h rs :: events) req.
Proof. intros (r & Hr & Hreq). exists peer, h, rs, r. split; [by left|done]. Qed.

(** The requests of the connections accepted before the shutdown, and only
    they, reach the router. *)
Lemma served_requests (tls : bool) events req :
  req ∈ (if tls then serve_tls events else serve_http events) ↔ comes_from tls events req.
Proof.
  assert (∀ e events, e ≠ Shutdown → comes_from tls (e :: events) req →
    (∃ peer h (rs : list HttpRequest), e = Accepted peer h rs ∧ ∃ r, r ∈ rs ∧
       if tls then ∃ certs, h = Some certs ∧ req = with_connection peer (peer_principal certs) r
       else req = with_connection peer None r) ∨ comes_from tls events req) as Hcons.
  { intros e evs He (peer & h & rs & r & Hin & Hr & Hreq).
    assert (Accepted peer h rs ∈ e :: until_shutdown evs) as [Heq|Hin']%elem_of_cons by (by destruct e).
    - left. subst e. eauto 10.
    - right. exists peer, h, rs, r. done. }
  assert (∀ events, ¬ comes_from tls (Shutdown :: events) req) as Hshut.
  { by intros evs (? & ? & ? & ? & ?%elem_of_nil & _). }
  assert (¬ comes_from tls [] req) as Hnil.
  { by intros (? & ? & ? & ? & ?%elem_of_nil & _). }
  induction events as [|e events IH].
  { destruct tls; (split; [by intros ?%elem_of_nil|by intros ?%Hnil]). }
  destruct e as [| |peer h rs].
  - destruct tls; (split; [by intros ?%elem_of_nil|by intros ?%Hshut]).
  - assert (req ∈ (if tls then serve_tls events else serve_http events) ↔ comes_from tls (AcceptFailed :: events) req) as Hf.
    { rewrite IH. split; [by apply comes_from_cons|]. intros [(? & ? & ? & [=] & _)|?]%Hcons; done. }
    by destruct tls.
  - destruct tls.
    + destruct h as [certs|]; cbn [serve_tls].
      * rewrite elem_of_app, list_elem_of_fmap, IH. split.
        -- intros [(r & -> & Hr)|?]; [apply comes_from_first; eauto|by apply comes_from_cons].
        -- intros [(? & ? & ? & [= <- <- <-] & r & Hr & certs' & [= <-] & ->)|?]%Hcons; eauto.
      * rewrite IH. split; [by apply comes_from_cons|].
        intros [(? & ? & ? & [= <- <- <-] & r & Hr & certs' & [=] & _)|?]%Hcons; done.
    + cbn [serve_http]. rewrite elem_of_app, list_elem_of_fmap, IH. split.
      * intros [(r & -> & Hr)|?]; [apply comes_from_first; eauto|by apply comes_from_cons].
      * intros [(? & ? & ? & [= <- <- <-] & r & Hr & ->)|?]%Hcons; eauto.
Qed.
End serving.
#[global] Arguments Incoming Cert : clear implicits.

(** ** The key-set refresher (bin/schema-registry.rs) *)

Section jwks.
Context {Jwks : Type} (jwks_from_json : string → option Jwks).

(** A fetch: the request failed, or the status with the body, if it could be
    read. *)
Abbreviation Fetch := (option (Z * option string)).

(** The key set a fetch delivers. *)
Definition fetched_keys (f : Fetch) : option Jwks :=
  '(status, body) ← f;
  if (200 <=? status)%Z && (status <? 300)%Z then body ≫= jwks_from_json else None.

(** One round stores what was fetched, or keeps what was there. *)
Definition refresh_round (keys : Jwks) (f : Fetch) : Jwks := default keys (fetched_keys f).

(** The loop: a round, then the sleep or the cancellation ([true]). *)
Fixpoint run_jwks_refresher (keys : Jwks) (rounds : list (Fetch * bool)) : Jwks :=
  match rounds with
  | [] => keys
  | (f, cancelled) :: rest =>
      let keys := refresh_round keys f in
      if (cancelled : bool) then keys else run_jwks_refresher keys rest
  end.

(** The rounds that are run: up to and with the cancelled one. *)
Fixpoint rounds_run (rounds : list (Fetch * bool)) : list Fetch :=
  match rounds with
  | [] => []
  | (f, cancelled) :: rest => f :: (if (cancelled : bool) then [] else rounds_run rest)
  end.

Lemma refresh_keeps rounds : ∀ keys,
  run_jwks_refresher keys rounds = default keys (last (omap fetched_keys (rounds_run rounds))).
Proof.
  induction rounds as [|[f cancelled] rest IH]; intros keys; [done|]. simpl. unfold refresh_round.
  destruct cancelled.
  - by destruct (fetched_keys f).
  - rewrite IH. destruct (fetched_keys f) as [k|]; [|done].
    rewrite last_cons. by destruct (last _).
Qed.
End jwks.

(** [build_jwks_client]: the configured CA, or the default roots. *)
Definition build_jwks_client {Client Certificate : Type} (new_client : Client)
    (read : string → option string) (from_pem : string → option Certificate)
    (with_root : Certificate → option Client) (ca_path : option string) : result string Client :=
  match ca_path with
  | None => Ok new_client
  | Some path =>
      pem ← ok_or (read path) ("read JWKS CA " +:+ path);
      cert ← ok_or (from_pem pem) "parse JWKS CA PEM";
      ok_or (with_root cert) "build JWKS reqwest client"
  end.

(** The refresher starts with the default client when that fails. *)
Definition refresher_client {Client : Type} (new_client : Client) (built : result string Client) : Client :=
  match built with Ok c => c | Err _ => new_client end.

(** ** Starting a node (main) *)

(** What main has set going, in order: a task spawned, a part installed, the
    store caught up, the listener bound, and last the accept loop. *)
Inductive BootEvent :=
  | BAdminListening (addr : string)
  | BAuditSink
  | BJwksRefresher (uri : string)
  | BStoreStarted
  | BElectionSpawned
  | BPrimaryInstalled
  | BAclRefresh
  | BBound
  | BServing (tls : bool).

(** A start-up: what happened so far, and the outcome ([None]: not ended). *)
Definition Boot (A : Type) : Type := list BootEvent → list BootEvent * option (result string A).

#[global] Instance boot_ret : MRet Boot := λ A a tr, (tr, Some (Ok a)).
#[global] Instance boot_bind : MBind Boot := λ A B k m tr,
  match m tr with
  | (tr', Some (Ok a)) => k a tr'
  | (tr', Some (Err e)) => (tr', Some (Err e))
  | (tr', None) => (tr', None)
  end.

Definition boot_lift {A} (r : result string A) : Boot A := λ tr, (tr, Some r).
Definition boot_wait {A} (r : option (result string A)) : Boot A := λ tr, (tr, r).
Definition started (e : BootEvent) : Boot unit := λ tr, (tr ++ [e], Some (Ok tt)).

Section main.
Context `{ConfigUnits} `{SchemaFormat} `{SerdeJson} `{UuidLib} `{AuthLib} `{PercentLib} `{Axum}.
Context (requires_tls requires_sasl : ListenerProtocol → bool).
Context (read_to_string : string → result string string).
Context (validate_token : OAuthBearerValidator → string → Z → option Principal).
Context (authorizer : gset string → list AclEntry → AuthorizationRequest → PermissionType).
Context (read_file : string → option string).

(** What the environment answers during a start. *)
Record Env := mkEnv {
  en_telemetry : result string unit;
  en_admin_addr : option string;
  en_admin_listen : result string unit;
  en_startup : Startup;
  en_start_error : StartError → string;
  en_identity_error : IdentityError → string;
  en_admin_client : result string unit;
  en_bind : result string unit;
  en_local_addr : result string unit;
  en_server_config : TlsConfig → result string unit;
  en_http : ProxyRequest → option ProxyReply;
}.

(** What a started node serves: its configuration, the store as its reader left
    it, and the layers around the router. *)
Record Server := mkServer {
  sv_config : RegistryConfig;
  sv_store : Reader;
  sv_identity : SchemaRegistryIdentity;
  sv_layers : SecurityLayers;
}.

Definition store_start (cfg : RegistryConfig) (env : Env) : option (result string Reader) :=
  r ← Start.start (rc_schemas_topic cfg) (rt_default_compatibility_level (rc_runtime cfg))
        (rt_default_mode (rc_runtime cfg))
        (millis_i64 (rt_schemas_topic_create_timeout (rc_runtime cfg))) (en_startup env);
  Some (match r with Ok reader => Ok reader | Err e => Err (en_start_error env e) end).

(** [Election::start]: the identity is parsed, then the group task is spawned;
    nothing waits for it to join. *)
Definition election_start (cfg : RegistryConfig) (env : Env) : Boot SchemaRegistryIdentity :=
  match parse_identity (rc_advertised_url cfg) (rc_leader_eligibility cfg) with
  | Ok identity => _ ← started BElectionSpawned; mret identity
  | Err e => boot_lift (Err (en_identity_error env e))
  end.

(** [PrimaryState::default()]. *)
Definition no_primary : PrimaryState := mkPrimaryState false None None None.

Definition authz_enabled (cfg : RegistryConfig) : bool :=
  match sc_authz (rc_security cfg) with Some a => ac_enabled a | None => false end.

(** The configuration main assembles. *)
Definition assemble (a : NodeArgs) (runtime : RegistryRuntimeConfig) (security : SecurityOutput)
    : RegistryConfig :=
  mkRegistryConfig (na_bootstrap_servers a) (na_schemas_topic a) (na_schemas_topic_rf a)
    (na_client_id a) (default ("http://" +:+ na_listen_addr a) (na_advertised_url a)) (na_group_id a)
    (na_leader_eligibility a) runtime (so_config security).

Definition main (a : NodeArgs) (env : Env) : Boot Server :=
  runtime ← boot_lift (runtime_config (na_runtime a));
  _ ← boot_lift (en_telemetry env);
  _ ← match en_admin_addr env with
      | Some addr => _ ← boot_lift (en_admin_listen env); started (BAdminListening addr)
      | None => mret tt
      end;
  security ← boot_lift (build_security requires_tls requires_sasl read_to_string
                          (security_input (na_security a)));
  let cfg := assemble a runtime security in
  _ ← started BAuditSink;
  _ ← match so_jwks_handle security with
      | Some h => started (BJwksRefresher (jw_endpoint_uri h))
      | None => mret tt
      end;
  store ← boot_wait (store_start cfg env);
  _ ← started BStoreStarted;
  identity ← election_start cfg env;
  _ ← started BPrimaryInstalled;
  layers ← boot_lift (ok_or (start_layers validate_token authorizer read_file (rc_security cfg)
                        no_primary (en_http env) (rc_advertised_url cfg)
                        (Z.to_nat (bytes_u64 (rt_forward_max_body runtime))))
                        "load basic-auth credentials");
  _ ← (if authz_enabled cfg then _ ← boot_lift (en_admin_client env); started BAclRefresh
       else mret tt);
  _ ← boot_lift (en_bind env);
  _ ← started BBound;
  _ ← boot_lift (en_local_addr env);
  match sc_tls (rc_security cfg) with
  | Some tls =>
      _ ← boot_lift (en_server_config env tls);
      _ ← started (BServing true); mret (mkServer cfg store identity layers)
  | None => _ ← started (BServing false); mret (mkServer cfg store identity layers)
  end.

(** The layers with the election watch at [p], as a request finds it. *)
Definition observe_primary (p : PrimaryState) (sec : SecurityLayers) : SecurityLayers :=
  let f := sec_forward sec in
  mkSecurityLayers (sec_auth sec) (sec_authz sec)
    (mkForwardState p (fw_http f) (fw_node_id f) (fw_max_body f) (fw_secret f)).

(** The requests the router of a started node sees. *)
Definition app_requests {Cert} (extract : Cert → option string) (srv : Server)
    (events : list (Incoming Cert)) : list Request :=
  match sc_tls (rc_security (sv_config srv)) with
  | Some _ => serve_tls extract events
  | None => serve_http events
  end.

(** ** What a started node is *)

Lemma boot_bind_Ok {A B} (m : Boot A) (k : A → Boot B) tr tr' b :
  (m ≫= k) tr = (tr', Some (Ok b)) → ∃ a tr1, m tr = (tr1, Some (Ok a)) ∧ k a tr1 = (tr', Some (Ok b)).
Proof.
  unfold mbind, boot_bind. destruct (m tr) as [tr1 [[a|e]|]]; [eauto|done..].
Qed.

Lemma boot_lift_Ok {A} (r : result string A) tr tr1 a :
  boot_lift r tr = (tr1, Some (Ok a)) → r = Ok a ∧ tr1 = tr.
Proof. unfold boot_lift. intros [= <- ->]. done. Qed.

(** An optional part of the start-up leaves at most its own mark. *)
Lemma boot_option {A} (o : option A) (m : A → Boot unit) (e : A → BootEvent) tr tr' u :
  (∀ x tr tr' u, m x tr = (tr', Some (Ok u)) → tr' = tr ++ [e x]) →
  match o with Some x => m x | None => mret tt end tr = (tr', Some (Ok u)) →
  tr' = tr ++ match o with Some x => [e x] | None => [] end.
Proof. intros Hm. destruct o; [apply Hm|]. intros [= <- _]. by rewrite app_nil_r. Qed.

Lemma guarded_start (r : result string unit) e tr tr' u :
  (_ ← boot_lift r; started e) tr = (tr', Some (Ok u)) → tr' = tr ++ [e].
Proof. intros (? & ? & [_ ->]%boot_lift_Ok & Hm)%boot_bind_Ok. by injection Hm as <-. Qed.

(** The accept loop is the last part: with TLS when it is configured. *)
Lemma listen_inv (tls : option TlsConfig) env (srv srv' : Server) tr tr' :
  match tls with
  | Some tls => _ ← boot_lift (en_server_config env tls); _ ← started (BServing true); mret srv
  | None => _ ← started (BServing false); mret srv
  end tr = (tr', Some (Ok srv')) →
  srv' = srv ∧ tr' = tr ++ [BServing (bool_decide (is_Some tls))].
Proof.
  destruct tls as [tls|].
  - intros (? & ? & [_ ->]%boot_lift_Ok & Hm)%boot_bind_Ok. by injection Hm as <- <-.
  - intros Hm. by injection Hm as <- <-.
Qed.

(** A node that started: what its parts were started with, and in which order. *)
Lemma main_inv a env tr srv :
  main a env [] = (tr, Some (Ok srv)) →
  ∃ runtime out, runtime_config (na_runtime a) = Ok runtime ∧
    build_security requires_tls requires_sasl read_to_string (security_input (na_security a)) = Ok out ∧
    sv_config srv = assemble a runtime out ∧
    store_start (sv_config srv) env = Some (Ok (sv_store srv)) ∧
    parse_identity (rc_advertised_url (sv_config srv)) (rc_leader_eligibility (sv_config srv)) = Ok (sv_identity srv) ∧
    start_layers validate_token authorizer read_file (so_config out) no_primary (en_http env)
      (rc_advertised_url (sv_config srv))
      (Z.to_nat (bytes_u64 (rt_forward_max_body runtime))) = Some (sv_layers srv) ∧
    tr = match en_admin_addr env with Some addr => [BAdminListening addr] | None => [] end ++ [BAuditSink] ++
         match so_jwks_handle out with Some h => [BJwksRefresher (jw_endpoint_uri h)] | None => [] end ++
         [BStoreStarted; BElectionSpawned; BPrimaryInstalled] ++
         (if authz_enabled (sv_config srv) then [BAclRefresh] else []) ++
         [BBound; BServing (bool_decide (is_Some (sc_tls (so_config out))))].
Proof.
  unfold main. intros Hm.
  apply boot_bind_Ok in Hm as (runtime & ? & [Hr ->]%boot_lift_Ok & Hm).
  apply boot_bind_Ok in Hm as (? & ? & [_ ->]%boot_lift_Ok & Hm).
  apply boot_bind_Ok in Hm as (? & ? & Ha & Hm).
  apply (boot_option _ _ BAdminListening) in Ha as ->; [|by intros ? ? ? ? ?%guarded_start].
  apply boot_bind_Ok in Hm as (out & ? & [Hs ->]%boot_lift_Ok & Hm). cbn zeta in Hm.
  apply boot_bind_Ok in Hm as (? & ? & [= <- <-] & Hm).
  apply boot_bind_Ok in Hm as (? & ? & Hj & Hm).
  apply (boot_option _ _ (λ h, BJwksRefresher (jw_endpoint_uri h))) in Hj as ->; [|by intros ? ? ? ? [= <- _]].
  apply boot_bind_Ok in Hm as (store & ? & [= <- Hst] & Hm).
  apply boot_bind_Ok in Hm as (? & ? & [= <- <-] & Hm).
  apply boot_bind_Ok in Hm as (idn & ? & Hid & Hm). unfold election_start in Hid.
  destruct (parse_identity _ _) as [idn'|] eqn:Hpi; [|done]. injection Hid as <- <-.
  apply boot_bind_Ok in Hm as (? & ? & [= <- <-] & Hm).
  apply boot_bind_Ok in Hm as (layers & ? & [Hl ->]%boot_lift_Ok & Hm).
  apply boot_bind_Ok in Hm as (? & ? & Haz & Hm).
  apply boot_bind_Ok in Hm as (? & ? & [_ ->]%boot_lift_Ok & Hm).
  apply boot_bind_Ok in Hm as (? & ? & [= <- <-] & Hm).
  apply boot_bind_Ok in Hm as (? & ? & [_ ->]%boot_lift_Ok & Hm).
  apply listen_inv in Hm as [-> ->]. exists runtime, out. cbn [sv_config sv_store sv_identity sv_layers].
  split_and!; try done; [unfold ok_or in Hl; destruct (start_layers _ _ _ _ _ _ _ _); simplify_eq; done|].
  destruct (authz_enabled _).
  - apply guarded_start in Haz as ->. by rewrite <-!(assoc_L (++)).
  - injection Haz as <- _. by rewrite <-!(assoc_L (++)).
Qed.

(** *** Nothing is served before everything else has started *)

(** Neither bound nor serving. *)
Definition quiet (tr : list BootEvent) : Prop := BBound ∉ tr ∧ ∀ b, BServing b ∉ tr.

(** What a start that did not succeed may have done: it serves nobody, and its
    listener is bound only when the last two steps were left, the listener's
    local address and the TLS configuration, and one of them failed. *)
Definition no_service {A} (env : Env) (tr : list BootEvent) (r : option (result string A)) : Prop :=
  (∀ b, BServing b ∉ tr) ∧
  (BBound ∈ tr → ∃ e, r = Some (Err e) ∧
     (en_local_addr env = Err e ∨ ∃ tls, en_server_config env tls = Err e)).

(** [m] neither binds nor serves; [m] serves only when it succeeds. *)
Definition mute {A} (m : Boot A) : Prop := ∀ tr, quiet tr → quiet (m tr).1.
Definition opens {A} (env : Env) (m : Boot A) : Prop :=
  ∀ tr, quiet tr → no_service env (m tr).1 (m tr).2 ∨ ∃ a, (m tr).2 = Some (Ok a).

Lemma quiet_no_service {A} env tr (r : option (result string A)) : quiet tr → no_service env tr r.
Proof. intros [Hb Hs]. by split. Qed.

Lemma opens_bind {A B} env (m : Boot A) (k : A → Boot B) :
  mute m → (∀ a, opens env (k a)) → opens env (m ≫= k).
Proof.
  intros Hm Hk tr Htr. specialize (Hm tr Htr). unfold mbind, boot_bind.
  destruct (m tr) as [tr1 [[a|e]|]]; [by apply Hk|left; by apply quiet_no_service..].
Qed.

Lemma mute_bind {A B} (m : Boot A) (k : A → Boot B) : mute m → (∀ a, mute (k a)) → mute (m ≫= k).
Proof.
  intros Hm Hk tr Htr. specialize (Hm tr Htr). unfold mbind, boot_bind.
  destruct (m tr) as [tr1 [[a|e]|]]; [by apply Hk|done..].
Qed.

Lemma mute_lift {A} (r : result string A) : mute (boot_lift r).
Proof. by intros tr. Qed.
Lemma mute_wait {A} (r : option (result string A)) : mute (boot_wait r).
Proof. by intros tr. Qed.
Lemma mute_ret {A} (a : A) : mute (mret a).
Proof. by intros tr. Qed.
Lemma mute_started e : e ≠ BBound → (∀ b, e ≠ BServing b) → mute (started e).
Proof.
  intros Hbd Hsv tr [Hb Hs]. cbn. split.
  - rewrite elem_of_app, list_elem_of_singleton. intros [?|?]; [done|]. by apply Hbd.
  - intros b. rewrite elem_of_app, list_elem_of_singleton. intros [?|?]; [by apply (Hs b)|]. by apply (Hsv b).
Qed.

Create HintDb boot.
#[local] Hint Resolve mute_bind mute_lift mute_wait mute_ret : boot.
#[local] Hint Extern 1 (mute (started _)) => apply mute_started; discriminate : boot.
#[local] Hint Extern 1 (mute (match ?x with _ => _ end)) => destruct x : boot.

(** The last steps, once the listener is bound. *)
Lemma bound_opens env (tls : option TlsConfig) (srv : Server) :
  opens env (_ ← started BBound; _ ← boot_lift (en_local_addr env);
             match tls with
             | Some tls => _ ← boot_lift (en_server_config env tls); _ ← started (BServing true); mret srv
             | None => _ ← started (BServing false); mret srv
             end).
Proof.
  intros tr [Hb Hs]. unfold mbind, boot_bind, started, boot_lift.
  assert (∀ b, BServing b ∉ tr ++ [BBound]) as Hsv
    by (intros b; rewrite elem_of_app, list_elem_of_singleton; intros [?|?]; [by eapply Hs|done]).
  destruct (en_local_addr env) as [u|e] eqn:Hl; cbn; [|left; split; [done|]; eauto].
  destruct tls as [tls|]; [|right; by eexists]. destruct (en_server_config env tls) as [v|e] eqn:Hc; cbn.
  - right. by eexists.
  - left. split; [done|]. eauto 6.
Qed.

Lemma main_opens a env : opens env (main a env).
Proof.
  unfold main, election_start.
  do 13 (apply opens_bind; [by auto 6 with boot nocore|intros ?; cbn zeta]).
  apply bound_opens.
Qed.

(** C40: a node serves last. A start that succeeds has gone through its parts in this order: the
    admin listener when one is configured, the audit sink, the key-set refresher when a key-set
    endpoint is configured, the store (its reader caught up with its barrier), the spawning of
    the election task, the installation of the election watch in the store, the ACL refresh task
    when authorization is on, the binding of the listener, the accept loop; over TLS exactly when
    a certificate is configured. A start that fails or is still waiting at any part serves
    nobody, and has bound the listener only if all other parts had started and what failed is
    the listener's local address or the TLS configuration. The node runs with the policy and the
    security settings its options validate to, and stands for election under the identity of its
    advertised URL. *)
Theorem server_start_order a env tr r :
  main a env [] = (tr, r) →
  match r with
  | Some (Ok srv) =>
      ∃ runtime out reader,
        runtime_config (na_runtime a) = Ok runtime ∧
        build_security requires_tls requires_sasl read_to_string (security_input (na_security a)) = Ok out ∧
        sv_config srv = assemble a runtime out ∧
        Start.start (na_schemas_topic a) (rt_default_compatibility_level runtime) (rt_default_mode runtime)
          (millis_i64 (rt_schemas_topic_create_timeout runtime)) (en_startup env) = Some (Ok reader) ∧
        sv_store srv = reader ∧
        parse_identity (rc_advertised_url (sv_config srv)) (na_leader_eligibility a) = Ok (sv_identity srv) ∧
        tr = match en_admin_addr env with Some addr => [BAdminListening addr] | None => [] end ++
             [BAuditSink] ++
             match so_jwks_handle out with Some h => [BJwksRefresher (jw_endpoint_uri h)] | None => [] end ++
             [BStoreStarted; BElectionSpawned; BPrimaryInstalled] ++
             (if authz_enabled (sv_config srv) then [BAclRefresh] else []) ++
             [BBound; BServing (bool_decide (is_Some (sc_tls (so_config out))))]
  | _ => no_service env tr r
  end.
Proof.
  intros Hm. destruct (main_opens a env [] ltac:(split; [|intros b]; apply not_elem_of_nil)) as [Hs|[x Hx]];
    rewrite Hm in *; cbn [fst snd] in *; destruct r as [[srv|e]|]; try done.
  all: destruct (main_inv a env tr srv Hm) as (runtime & out & Hr & Hs' & Hc & Hst & Hid & _ & ->).
  all: exists runtime, out; unfold store_start in Hst; rewrite Hc in Hst, Hid;
    cbn [assemble rc_schemas_topic rc_runtime rc_leader_eligibility] in *;
    apply bind_Some in Hst as ([reader|e] & Hst & [= Hrd]); exists reader; rewrite Hc; by split_and!.
Qed.
End main.

(** ** From the socket to the handler *)

Section requests.
Context `{ConfigUnits} `{SchemaFormat} `{SerdeJson} `{UuidLib} `{AuthLib} `{AxumLaws}.
Context (requires_tls requires_sasl : ListenerProtocol → bool).
Context (read_to_string : string → result string string).
Context (validate_token : OAuthBearerValidator → string → Z → option Principal).
Context (authorizer : gset string → list AclEntry → AuthorizationRequest → PermissionType).
Context (read_file : string → option string).
Context {Cert : Type} (extract : Cert → option string).

Abbreviation run_main := (main requires_tls requires_sasl read_to_string validate_token authorizer read_file).

Lemma start_layers_primary cfg p p' http url max_body sec :
  start_layers validate_token authorizer read_file cfg p http url max_body = Some sec →
  start_layers validate_token authorizer read_file cfg p' http url max_body = Some (observe_primary p' sec).
Proof. unfold start_layers. by intros (basic & -> & [= <-])%bind_Some. Qed.

Lemma app_requests_from srv events req :
  req ∈ app_requests extract srv events ↔
  comes_from extract (bool_decide (is_Some (sc_tls (rc_security (sv_config srv))))) events req.
Proof.
  unfold app_requests. rewrite <-served_requests. by destruct (sc_tls _).
Qed.

End requests.

(** ** Witnesses *)

Section witnesses.
#[local] Existing Instance ms_units.
#[local] Existing Instance ms_config.
#[local] Existing Instance demo_percent.
#[local] Existing Instance demo_axum.
#[local] Existing Instance demo_axum_laws.
#[local] Existing Instance demo_auth.
#[local] Existing Instance echo_format.
#[local] Existing Instance tree_serde.
#[local] Existing Instance string_uuid.

(** Mutual TLS, authentication and authorization on; alice is a super user. *)
Definition mtls_args : SecurityArgs :=
  mkSecurityArgs true (Some "s3cret") "registry" None [] [] "off" "sub" None None None None None None
    (Some "cert.pem") (Some "key.pem") (Some "ca.pem") "required" true ["CN=alice"] (secs 30)
    "PLAINTEXT" "PLAIN" None None None None None "kafka" None None None None.

(** The defaults, with a small limit on forwarded bodies. *)
Definition small_body_args : RuntimeArgs :=
  mkRuntimeArgs 16 104857600 None None None None None None None None None (Some 100%Z) None None.

Definition mtls_node : NodeArgs :=
  mkNodeArgs "broker:9092" "0.0.0.0:8081" "_schemas" 1 "krabka" (Some "https://sr-0:8081") "schema-registry"
    true small_body_args mtls_args.

Definition demo_env : Env :=
  mkEnv (Ok tt) None (Ok tt) demo_startup (λ _, "store") (λ _, "identity") (Ok tt) (Ok tt) (Ok tt) (λ _, Ok tt) (λ _, None).

(** The first entry whose principal is the request's decides. *)
Definition demo_authorizer (_ : gset string) (acls : list AclEntry) (r : AuthorizationRequest) : PermissionType :=
  match List.find (λ e, String.eqb (ae_principal e) (pr_name (ar_principal r))) acls with
  | Some e => ae_permission_type e
  | None => Deny
  end.

(** The first refresh fails, the second one brings an entry for bob. *)
Definition demo_rounds : list (option (list AclEntry) * bool) :=
  [(None, false);
   (Some [mkAclEntry Topic "orders" Literal "CN=bob" "*" Read Allow], false)].

Abbreviation demo_main := (main (λ _, false) (λ _, false) (λ _, Err "") (λ _ _ _, None) demo_authorizer (λ _, None)).

(** alice, mallory and bob read the versions of a subject; mallory forges
    alice's name where a client can. *)
Definition demo_traffic : list (Incoming string) :=
  [AcceptFailed;
   Accepted "10.0.0.7" None [mkHttpRequest GET "/subjects/orders/versions" "" [] (Some "")];
   Accepted "10.0.0.1" (Some (Some ["CN=alice"])) [mkHttpRequest GET "/subjects/orders/versions" "" [] (Some "")];
   Accepted "10.0.0.9" (Some (Some ["CN=mallory"]))
     [mkHttpRequest GET "/subjects/orders/versions" "" [(AUTHORIZATION, "Basic CN=alice:pw")] (Some "")];
   Accepted "10.0.0.5" (Some (Some ["CN=bob"])) [mkHttpRequest GET "/subjects/orders/versions" "" [] (Some "")];
   Shutdown;
   Accepted "10.0.0.1" (Some (Some ["CN=alice"])) [mkHttpRequest GET "/" "" [] (Some "")]].

Lemma server_start_order_witness : ∃ tr srv,
  demo_main mtls_node demo_env [] = (tr, Some (Ok srv)) ∧ last tr = Some (BServing true) ∧
  rd_topic_id (sv_store srv) = 1%Z.
Proof.
  destruct (demo_main mtls_node demo_env []) as [tr r] eqn:Hm.
  pose proof (server_start_order _ _ _ _ _ _ mtls_node demo_env tr r Hm) as Ho.
  destruct r as [[srv|e]|]; [|vm_compute in Hm; discriminate|vm_compute in Hm; discriminate].
  exists tr, srv. split; [reflexivity|].
  destruct Ho as (runtime & out & reader & Hr & Hs & _ & Hst & -> & _ & ->).
  vm_compute in Hr. injection Hr as <-. vm_compute in Hs. injection Hs as <-.
  change [BBound; ?e] with ([BBound] ++ [e]). rewrite !app_assoc, last_snoc. split; [reflexivity|].
  vm_compute in Hst. injection Hst as <-. reflexivity.
Defined.

End witnesses.
