(* ===== verification/RestTypes.v ===== *)
(** * The types of the answers (rest/)

    Each endpoint's answer as a JSON type: the fields a client may rely on, the
    ones that may be missing, the values of the enumerations. The theorem types
    every answer of every handler, in any world and on any input. *)

From stdpp Require Import base gmap strings list pretty.
From Stdlib Require Import ZArith Lia.
From S2P Require Import Prelude Text Float Json Types Store Record Descriptor ProtoText Matching JsonDiff AvroFormat.
From S2P Require Import Compat Reader KafkaStore Import Auth Authz Router Rest.

#[local] Existing Instance M_ret.
#[local] Existing Instance M_bind.

(** ** JSON types *)

Inductive JType :=
  | TInteger
  | TBool
  | TText
  | TOneOf (values : list string)
  | TArray (t : JType)
  | TObject (fields : list (string * (bool * JType))).

Definition required_field (k : string) (t : JType) : string * (bool * JType) := (k, (true, t)).
Definition optional_field (k : string) (t : JType) : string * (bool * JType) := (k, (false, t)).

(** An object has its required fields, and no field that is not listed. *)
Fixpoint has_type (t : JType) (v : json) : bool :=
  match t, v with
  | TInteger, JNumber (PosInt _ | NegInt _) => true
  | TBool, JBool _ => true
  | TText, JString _ => true
  | TOneOf values, JString s => existsb (String.eqb s) values
  | TArray t, JArray l => forallb (has_type t) l
  | TObject fields, JObject l =>
      (fix go fields :=
         match fields with
         | [] => true
         | (k, (required, t)) :: fields =>
             match assoc_get k l with Some v => has_type t v | None => negb required end && go fields
         end) fields &&
      forallb (λ kv, existsb (String.eqb kv.1) (fst <$> fields)) l
  | _, _ => false
  end.

(** ** The answers *)

Definition schema_type_field : string * (bool * JType) :=
  optional_field "schemaType" (TOneOf ["JSON"; "PROTOBUF"]).
Definition reference_type : JType :=
  TObject [required_field "name" TText; required_field "subject" TText; required_field "version" TInteger].
Definition references_type_field : string * (bool * JType) :=
  optional_field "references" (TArray reference_type).
Definition message_type_field : string * (bool * JType) := optional_field "messageType" TText.
Definition version_fields : list (string * (bool * JType)) :=
  [required_field "subject" TText; required_field "version" TInteger; required_field "id" TInteger;
   schema_type_field; message_type_field; required_field "schema" TText].

(** The body of a 200; [None]: the schema's own text. *)
Definition answer_type (h : Handler) : option JType :=
  match h with
  | HRoot => Some (TObject [])
  | HSchemasTypes => Some (TArray (TOneOf ["AVRO"; "JSON"; "PROTOBUF"]))
  | HListSchemas => Some (TArray (TObject version_fields))
  | HImport => Some (TArray (TObject [required_field "subject" TText; required_field "id" TInteger;
                                      required_field "version" TInteger]))
  | HGetById => Some (TObject [schema_type_field; message_type_field; required_field "schema" TText;
                               references_type_field])
  | HGetByIdVersions => Some (TArray (TObject [required_field "subject" TText; required_field "version" TInteger]))
  | HGetByIdSchema | HGetVersionSchema => None
  | HGetByIdSubjects | HListSubjects => Some (TArray TText)
  | HLookup => Some (TObject version_fields)
  | HGetVersion => Some (TObject (version_fields ++ [references_type_field]))
  | HRegister => Some (TObject [required_field "id" TInteger])
  | HVersions | HDeleteSubject | HReferencedBy => Some (TArray TInteger)
  | HDeleteVersion => Some TInteger
  | HGetGlobalMode | HGetSubjectMode | HDeleteSubjectMode => Some (TObject [required_field "mode" TText])
  | HPutGlobalMode | HPutSubjectMode => Some (TObject [required_field "mode" (TOneOf valid_modes)])
  | HGetGlobalConfig | HGetSubjectConfig => Some (TObject [required_field "compatibilityLevel" TText])
  | HPutGlobalConfig | HPutSubjectConfig => Some (TObject [required_field "compatibility" (TOneOf LEVELS)])
  | HDeleteSubjectConfig => Some (TObject [required_field "compatibility" TText])
  | HCompatibility => Some (TObject [required_field "is_compatible" TBool; optional_field "messages" (TArray TText)])
  end.

(** Errors that are the registry's or its broker's fault, not the request's. *)
Definition server_fault (e : SrError) : bool :=
  match e with Backend _ | OperationTimedOut | ForwardFailed | UnknownLeader _ => true | _ => false end.

(** The status an error code stands for: its first three digits. *)
Definition leading_status (code : Z) : Z := if (code <? 1000)%Z then code else (code / 100)%Z.

(** The endpoints that read a body. *)
Definition takes_body (h : Handler) : bool :=
  match h with
  | HImport | HLookup | HRegister | HPutGlobalMode | HPutSubjectMode | HPutGlobalConfig
  | HPutSubjectConfig | HCompatibility => true
  | _ => false
  end.

Section types.
Context `{SchemaFormat} `{SerdeJson} `{UuidLib} `{AvroLib} `{JsonText} `{!RestLib}.

(** ** Typed values *)

Lemma ser_int_typed n : has_type TInteger (ser_int n) = true.
Proof. unfold ser_int. by case_match. Qed.

Lemma array_typed {A} t (f : A → json) l :
  (∀ x, x ∈ l → has_type t (f x) = true) → has_type (TArray t) (JArray (f <$> l)) = true.
Proof.
  intros Hf. cbn [has_type]. apply forallb_forall. intros v Hv%list_elem_of_In.
  apply list_elem_of_fmap in Hv as (x & -> & Hx). by apply Hf.
Qed.

Lemma texts_typed l : has_type (TArray TText) (JArray (JString <$> l)) = true.
Proof. by apply array_typed. Qed.

Lemma ints_typed l : has_type (TArray TInteger) (JArray (ser_int <$> l)) = true.
Proof. apply array_typed. intros. apply ser_int_typed. Qed.

Lemma reference_typed r : has_type reference_type (ser_SchemaReference r) = true.
Proof. unfold ser_SchemaReference, ser_int. by destruct (_ <? _)%Z. Qed.

Lemma references_typed refs :
  has_type (TArray reference_type) (JArray (ser_SchemaReference <$> refs)) = true.
Proof. apply array_typed. intros. apply reference_typed. Qed.

(** ** Typed computations *)

(** Every success of [m] satisfies [P], in whatever world. *)
Definition yields {A} (P : A → Prop) (m : M A) : Prop := ∀ w a w', m w = (Ok a, w') → P a.

Lemma yields_bind {A B} (R : A → Prop) P (m : M A) (k : A → M B) :
  yields R m → (∀ a, R a → yields P (k a)) → yields P (m ≫= k).
Proof.
  intros Hm Hk w b w'. unfold mbind, M_bind. destruct (m w) as [[a|e] w1] eqn:E; [|done].
  apply Hk. by eapply Hm.
Qed.

Lemma yields_seq {A B} P (m : M A) (k : A → M B) : (∀ a, yields P (k a)) → yields P (m ≫= k).
Proof. intros Hk. by apply (yields_bind (λ _, True)). Qed.

Lemma yields_ret {A} (P : A → Prop) a : P a → yields P (mret a).
Proof. by intros HP w b w' [= <- _]. Qed.

Lemma yields_throw {A} (P : A → Prop) e : yields P (throw e).
Proof. by intros w b w'. Qed.

Lemma yields_lift {A} (P : A → Prop) r : (∀ a, r = Ok a → P a) → yields P (lift r).
Proof. intros HP w b w' [= -> _]. by apply HP. Qed.

Definition well_typed (t : option JType) (r : HttpResponse) : Prop :=
  match t with
  | Some t => ∃ v, r = ok_json v ∧ has_type t v = true
  | None => ∃ text, r = ok_raw text
  end.

Lemma yields_json t v : has_type t v = true → yields (well_typed (Some t)) (mret (ok_json v)).
Proof. intros Hv. apply yields_ret. by exists v. Qed.

Lemma single_typed key t v :
  has_type (TObject [required_field key t]) (object_of [(key, v)]) = has_type t v.
Proof.
  unfold object_of, collect_map, required_field. cbn [foldl assoc_insert fst snd has_type assoc_get forallb fmap list_fmap existsb].
  rewrite String.eqb_refl. by rewrite !andb_true_r.
Qed.

Lemma yields_level key t level :
  has_type t (JString level) = true →
  yields (well_typed (Some (TObject [required_field key t]))) (mret (level_json key level)).
Proof. intros Hv. apply yields_json. by rewrite single_typed. Qed.

Ltac yields_steps :=
  repeat match goal with
    | |- yields _ (lift _ ≫= _) => apply yields_seq; intros
    | |- yields _ (read_store ≫= _) => apply yields_seq; intros
    | |- yields _ (throw _) => apply yields_throw
    | |- yields _ (match ?x with _ => _ end) => destruct x
    | |- yields _ (let '_ := ?x in _) => destruct x
    end.

(** ** The handlers *)

(** An object of concrete fields, some of them optional. *)
Ltac typed_object :=
  unfold opt_field, references_field, wire_name, ser_int;
  repeat match goal with
    | |- context [match ?ty with Avro => _ | _ => _ end] => destruct ty
    | |- context [match ?o with Some _ => _ | None => _ end] => destruct o
    | |- context [(?n <? 0)%Z] => destruct (n <? 0)%Z
    end; vm_compute; reflexivity.

(** The same with a list of references at the end. *)
Ltac typed_references refs :=
  let Hr := fresh "Hr" in
  pose proof (references_typed refs) as Hr; unfold references_field, opt_field, wire_name, ser_int in *;
  destruct refs as [|ref refs]; [clear Hr; typed_object|];
  repeat match goal with
    | |- context [match ?ty with Avro => _ | _ => _ end] => destruct ty
    | |- context [match ?o with Some _ => _ | None => _ end] => destruct o
    | |- context [(?n <? 0)%Z] => destruct (n <? 0)%Z
    end; vm_compute in Hr |- *; rewrite Hr; reflexivity.

Lemma get_by_id_typed id deleted : yields (well_typed (answer_type HGetById)) (get_by_id id deleted).
Proof. unfold get_by_id. yields_steps. apply yields_json. typed_references l. Qed.

Lemma get_by_id_versions_typed id deleted :
  yields (well_typed (answer_type HGetByIdVersions)) (get_by_id_versions id deleted).
Proof.
  unfold get_by_id_versions. yields_steps. apply yields_json, array_typed. intros [subject v] _. typed_object.
Qed.

Lemma get_by_id_subjects_typed id deleted :
  yields (well_typed (answer_type HGetByIdSubjects)) (get_by_id_subjects id deleted).
Proof. unfold get_by_id_subjects. yields_steps. apply yields_json, texts_typed. Qed.

Lemma list_schemas_typed deleted : yields (well_typed (answer_type HListSchemas)) (list_schemas deleted).
Proof.
  unfold list_schemas. yields_steps. apply yields_json, array_typed. intros row _.
  unfold listed_row. typed_object.
Qed.

Lemma register_typed subject normalize body :
  yields (well_typed (answer_type HRegister)) (Rest.register subject normalize body).
Proof.
  unfold Rest.register. yields_steps. apply yields_seq. intros reg. apply yields_json. typed_object.
Qed.

Lemma lookup_typed subject deleted normalize body :
  yields (well_typed (answer_type HLookup)) (Rest.lookup subject deleted normalize body).
Proof. unfold Rest.lookup. yields_steps. apply yields_json. typed_object. Qed.

Lemma get_version_typed subject version deleted :
  yields (well_typed (answer_type HGetVersion)) (get_version subject version deleted).
Proof.
  unfold get_version. apply yields_seq. intros [s found]. apply yields_json.
  destruct found as [id v ty schema refs mt extra]. cbn [vs_version vs_id vs_ty vs_schema vs_references vs_message_type].
  typed_references refs.
Qed.

Lemma put_config_typed subject body :
  yields (well_typed (answer_type HPutGlobalConfig)) (put_config subject body).
Proof.
  unfold put_config. apply yields_seq. intros level.
  apply (yields_bind (λ _, has_type (TOneOf LEVELS) (JString level) = true)).
  - apply yields_lift. unfold validate. intros [] Hl. cbn [has_type]. by case_match.
  - intros u Hl. apply yields_seq. intros u'. by apply yields_level.
Qed.

Lemma delete_config_typed subject :
  yields (well_typed (answer_type HDeleteSubjectConfig)) (delete_config subject).
Proof. unfold delete_config. apply yields_seq. intros [level|]; [by apply yields_level|apply yields_throw]. Qed.

(** A mode that was set is one of the modes. *)
Lemma put_mode_typed (m : string → M unit) (body : string) :
  (∀ mode, yields (λ _, existsb (String.eqb mode) valid_modes = true) (m mode)) →
  yields (well_typed (answer_type HPutGlobalMode))
    (mode ← lift (from_body "PutMode" de_PutMode InvalidMode body); _ ← m mode; mret (level_json "mode" mode)).
Proof.
  intros Hm. apply yields_seq. intros mode. eapply yields_bind; [apply Hm|]. intros u Hv. by apply yields_level.
Qed.

Lemma set_global_mode_valid mode :
  yields (λ _, existsb (String.eqb mode) valid_modes = true) (KafkaStore.set_global_mode mode).
Proof.
  unfold KafkaStore.set_global_mode. destruct (existsb _ _); [by intros w a w' _|apply yields_throw].
Qed.

Lemma set_subject_mode_valid subject mode :
  yields (λ _, existsb (String.eqb mode) valid_modes = true) (KafkaStore.set_subject_mode subject mode).
Proof.
  unfold KafkaStore.set_subject_mode. destruct (existsb _ _); [by intros w a w' _|apply yields_throw].
Qed.

Lemma delete_version_typed subject version permanent :
  yields (well_typed (answer_type HDeleteVersion)) (delete_version subject version permanent).
Proof.
  unfold delete_version. do 2 (apply yields_seq; intros ?). apply yields_json, ser_int_typed.
Qed.

Lemma delete_subject_typed subject permanent :
  yields (well_typed (answer_type HDeleteSubject)) (delete_subject subject permanent).
Proof. unfold delete_subject. apply yields_seq. intros vs. apply yields_json, ints_typed. Qed.

Lemma check_compatibility_typed subject version verbose body :
  yields (well_typed (answer_type HCompatibility)) (check_compatibility subject version verbose body).
Proof.
  unfold check_compatibility. yields_steps. apply yields_json.
  destruct verbose; [|vm_compute; reflexivity].
  pose proof (texts_typed (messages a3)) as Ht. vm_compute in Ht |- *. rewrite Ht. reflexivity.
Qed.

Lemma import_files_typed files order : ∀ registered,
  yields (λ rows, has_type (TArray (TObject [required_field "subject" TText; required_field "id" TInteger;
    required_field "version" TInteger])) (JArray rows) = true) (import_files files order registered).
Proof.
  induction order as [|name order IH]; intros registered; cbn [import_files]; [by apply yields_ret|].
  do 3 (apply yields_seq; intros ?). eapply yields_bind; [apply IH|]. intros rows Hrows. apply yields_ret.
  cbn [has_type forallb] in *. rewrite Hrows. typed_object.
Qed.

Lemma file_descriptor_set_typed body : yields (well_typed (answer_type HImport)) (file_descriptor_set body).
Proof.
  unfold file_descriptor_set. do 2 (apply yields_seq; intros ?).
  eapply yields_bind; [apply import_files_typed|]. intros rows Hrows. by apply yields_json.
Qed.

(** ** Every answer *)

Definition typed_answer (h : Handler) (body : option string) (a : Answer) : Prop :=
  match a with
  | Http r => well_typed (answer_type h) r
  | BodyRefused => body = None ∧ takes_body h = true
  end.

Lemma respond_typed h body m : yields (well_typed (answer_type h)) m → yields (typed_answer h body) (respond m).
Proof. intros Hm. eapply yields_bind; [exact Hm|]. intros r Hr. by apply yields_ret. Qed.

Lemma with_body_typed h body f :
  takes_body h = true → (∀ b, yields (well_typed (answer_type h)) (f b)) → yields (typed_answer h body) (with_body body f).
Proof.
  intros Ht Hf. destruct body as [b|]; [|by apply yields_ret].
  eapply yields_bind; [apply Hf|]. intros r Hr. by apply yields_ret.
Qed.

(** The handlers that list or report one value. *)
Lemma listings_typed subject version deleted :
  yields (well_typed (answer_type HListSubjects)) (list_all deleted) ∧
  yields (well_typed (answer_type HVersions)) (list_versions subject deleted) ∧
  yields (well_typed (answer_type HReferencedBy)) (referencedby subject version).
Proof.
  split_and!; [unfold list_all|unfold list_versions|unfold referencedby].
  - yields_steps. apply yields_json, texts_typed.
  - yields_steps. apply yields_json, ints_typed.
  - apply yields_seq. intros [s found]. apply yields_json, ints_typed.
Qed.

Lemma texts_raw id subject version deleted :
  yields (well_typed (answer_type HGetByIdSchema)) (get_by_id_schema id) ∧
  yields (well_typed (answer_type HGetVersionSchema)) (get_version_schema subject version deleted).
Proof.
  split; [unfold get_by_id_schema; yields_steps|unfold get_version_schema; apply yields_seq; intros [s found]];
    apply yields_ret; by eexists.
Qed.

Lemma settings_typed subject :
  yields (well_typed (answer_type HGetGlobalMode)) get_global_mode ∧
  yields (well_typed (answer_type HGetSubjectMode)) (get_subject_mode subject) ∧
  yields (well_typed (answer_type HDeleteSubjectMode)) (delete_subject_mode subject) ∧
  yields (well_typed (answer_type HGetGlobalConfig)) get_global_config ∧
  yields (well_typed (answer_type HGetSubjectConfig)) (get_subject_config subject).
Proof.
  unfold get_global_mode, get_subject_mode, delete_subject_mode, get_global_config, get_subject_config.
  split_and!; yields_steps; try apply yields_seq; intros; by apply yields_level.
Qed.

Lemma handle_typed h params query body : yields (typed_answer h body) (handle h params query body).
Proof.
  assert (∀ key (k : bool → M Answer), (∀ b, yields (typed_answer h body) (k b)) →
    yields (typed_answer h body) (lift (query_flag key query) ≫= k)) as Hflag by (intros; by apply yields_seq).
  destruct h; try (destruct params as [|p1 [|p2 [|p3 params]]]; try (by apply yields_throw));
    cbn [handle]; repeat (apply Hflag; intros ?);
    first [apply respond_typed | apply with_body_typed; [reflexivity|intros ?]];
    first
      [ apply get_by_id_typed | apply get_by_id_versions_typed | apply get_by_id_subjects_typed
      | apply list_schemas_typed | apply register_typed | apply lookup_typed | apply get_version_typed
      | apply put_config_typed | apply delete_config_typed | apply delete_version_typed
      | apply delete_subject_typed | apply check_compatibility_typed | apply file_descriptor_set_typed
      | apply put_mode_typed; intros ?; apply set_global_mode_valid
      | apply put_mode_typed; intros ?; apply set_subject_mode_valid
      | apply (listings_typed _ "") | apply (listings_typed "" "") | apply (listings_typed _ _ true)
      | apply (texts_raw _ "" "" true) | apply (texts_raw "" _ _ _)
      | apply (settings_typed "") | apply (settings_typed _)
      | by apply yields_json ].
Qed.

Lemma well_typed_ok t r : well_typed t r → hr_content_type r = CONTENT_TYPE ∧ hr_status r = 200%Z.
Proof. destruct t; [by intros (v & -> & _)|by intros (text & ->)]. Qed.

(** The answer to an error: its own code and message, the status of its code. *)
Definition error_answer (e : SrError) (r : HttpResponse) : Prop :=
  hr_content_type r = CONTENT_TYPE ∧ hr_status r = leading_status (error_code e) ∧
  (400 ≤ hr_status r < 600)%Z ∧ ((500 ≤ hr_status r)%Z ↔ server_fault e = true) ∧
  hr_body r = json_print (JObject [("error_code", JNumber (PosInt (error_code e)));
                                   ("message", JString (error_message e))]).

Lemma into_response_answer e : error_answer e (into_response e).
Proof. unfold error_answer. destruct e; cbn; (split_and!; [done|done|lia|lia|split; [lia|done]|done]). Qed.

(** C33: every answer has its endpoint's type and says what the handler found. Whatever the
    request, the store and the broker do, the handler's outcome is answered as it is, in the
    registry's content type: a success is a 200 whose body has the JSON type the endpoint
    declares (all required fields, no undeclared one, the enumerations kept) or, for the two
    raw endpoints, is a schema's own text; an error is an object of exactly that error's code
    and message under the status of the code's first three digits, a 5xx for faults of the
    registry and a 4xx for all others. Only an endpoint that reads a body refuses an
    unreadable one. *)
Theorem serve_well_typed h params query body w :
  (serve h params query body w).2 = (handle h params query body w).2 ∧
  match (handle h params query body w).1 with
  | Ok BodyRefused =>
      (serve h params query body w).1 = BodyRefused ∧ body = None ∧ takes_body h = true
  | Ok (Http r) =>
      (serve h params query body w).1 = Http r ∧ hr_content_type r = CONTENT_TYPE ∧
      hr_status r = 200%Z ∧ well_typed (answer_type h) r
  | Err e => ∃ r, (serve h params query body w).1 = Http r ∧ error_answer e r
  end.
Proof.
  unfold serve. destruct (handle h params query body w) as [[a|e] w'] eqn:E; cbn [fst snd]; (split; [done|]).
  - apply handle_typed in E. destruct a as [r|]; [|by split]. destruct (well_typed_ok _ _ E). done.
  - exists (into_response e). split; [done|apply into_response_answer].
Qed.
End types.
