(* ===== verification/Delivery.v ===== *)
(** * From producer to consumer (schema-serde and the registry)

    The whole path of a value: the producer's cache registers the type's schema
    over HTTP and frames what it serializes with the id it got; the consumer's
    cache, which has never seen the id, fetches the schema from the registry and
    reads the value back. *)

From stdpp Require Import base gmap strings list pretty.
From Stdlib Require Import ZArith Lia.
From S2P Require Import Prelude Text Float Json Types Store Closure StoreFacts StoreSpec StoreQueries DedupKey.
From S2P Require Import Record RecordFacts Descriptor ProtoText ProtoDiff Matching JsonDiff AvroFormat Compat Reader ReaderFacts.
From S2P Require Import KafkaStore KafkaFacts KafkaSpec KafkaLive Import Auth Authz Router RouterFacts Rest RestFacts.
From S2P Require Import Wire Client ClientHttp Interop Cache CacheFacts Serde SerdeFacts Program Protocol.

(** ** What a new registration stores *)

Section stored.
Context `{SchemaFormat}.

(** An identity the registry has not seen. *)
Definition unseen (s : StoreState) (ty : SchemaType) (text : string) (refs : list SchemaReference)
    (mt : option string) : Prop :=
  ∀ key, identity s ty text refs mt = Some key → by_canonical s !! key = None.

(** It gets the next id, under which its own text is served. *)
Lemma assign_stored req text resolved s reg s' :
  store_wf s → (max_id s < i32_max)%Z → (next_version s (rq_subject req) < i32_max)%Z →
  unseen s (rq_ty req) text (rq_references req) (rq_message_type req) →
  resolve_closure s (rq_references req) = Ok resolved →
  spec_assign req text resolved s = Ok (reg, s') →
  reg_id reg = (max_id s + 1)%Z ∧
  schema_by_id s' (reg_id reg) false = Some (rq_ty req, text, rq_references req, rq_message_type req).
Proof.
  intros Hs Hm Hn Hnew Hcl Ha.
  destruct (assign_found req text resolved s reg s' Hs Hm Hn (or_intror Hnew) Hcl Ha) as (Hs' & Hcl' & Hf).
  unfold find_under_subject in Hf. rewrite Hcl' in Hf. simpl in Hf.
  apply bind_Some in Hf as (canonical & Hp & Hf).
  destruct (found_visible s' _ _ reg Hs' Hf) as [_ [[[[ty t] rf] m] Hvis]].
  assert (find_under_subject s (rq_subject req) (rq_ty req) text (rq_references req) (rq_message_type req) false = None) as Hnone.
  { destruct (find_under_subject s _ _ _ _ _ _) as [x|] eqn:Hx; [|done]. unfold find_under_subject in Hx.
    rewrite Hcl in Hx. simpl in Hx. apply bind_Some in Hx as (c & Hpc & Hx).
    destruct (format_parse _ _ _) as [c'|] eqn:Hpc'; [|done]. injection Hpc as ->.
    unfold find_under_subject_canonical in Hx.
    rewrite (Hnew _ (identity_intro _ _ _ _ _ _ _ Hcl Hpc')) in Hx. done. }
  unfold spec_assign in Ha. rewrite Hnone in Ha.
  destruct (check_registration _ _ _ _ _) as [[]|]; [|done]. cbn [mbind result_bind] in Ha.
  destruct (Store.register _ _ _ _ _ s) as [[r s1]|] eqn:Hr; [|done]. cbn [mbind result_bind] in Ha. injection Ha as -> <-.
  split.
  - apply register_inv in Hr as (resolved' & c & Hcl2 & Hpc & [[Hx _]|(_ & id & s2 & Hal & Hap)]).
    + unfold find_under_subject_canonical in Hx. rewrite (Hnew _ (identity_intro _ _ _ _ _ _ _ Hcl2 Hpc)) in Hx. done.
    + injection Hap as <- _. destruct (allocate_id_frame _ _ _ _ _ Hs Hm Hal) as (_ & _ & _ & [[Hk _]|(_ & _ & -> & _)]);
        [|done]. rewrite (Hnew _ (identity_intro _ _ _ _ _ _ _ Hcl2 Hpc)) in Hk. done.
  - rewrite Hvis. unfold schema_by_id in Hvis. rewrite apply_schema_by_id in Hvis.
    cbn [schema_value sv_id sv_schema_type sv_schema sv_references sv_message_type sv_extra] in Hvis.
    rewrite lookup_insert_eq in Hvis. cbn [mbind option_bind] in Hvis. case_match; [|done].
    cbn [rs_ty rs_schema rs_references rs_message_type] in Hvis.
    rewrite <-Hvis. cbn. by destruct (rq_ty req).
Qed.
End stored.

(** ** The path *)

Section delivery.
Context `{SchemaFormat} `{SerdeJsonLaws} `{UuidLib} `{!MarkerLaws} `{AvroLib} `{JsonText} `{!RestLib}.
Context (decode_message : string → string) (form_empty : form_urlencoded "" = []).
Context {V D : Type} `{EqDecision V} `{EqDecision D} (json_of : string → option V) (proto_of : string → option D).
Context `{TimeUnits} (policy : SchemaFetchRetryPolicy).

Abbreviation Transport := (Method → string → option string → result string Client.Response).

(** The registry client over a transport. *)
Definition client_api (http : Transport) (base : string) : RegistryApi :=
  mkApi (client_register decode_message http base) (client_lookup decode_message http base)
    (client_latest decode_message http base) (client_schema_by_id decode_message http base)
    (client_schema_by_subject_version decode_message http base).

(** The registry in front of the producer: what it needs to take a schema [b]
    binds for the first time, and to serve the text as it was sent. *)
Record accepts (s : StoreState) (w : World) (b : Binding) (subject : string) : Prop := {
  acc_at : at_state s w;
  acc_sane : sane s;
  acc_max : (0 ≤ max_id s < i32_max)%Z;
  acc_version : (next_version s subject < i32_max)%Z;
  acc_mode : effective_mode s subject ≠ "IMPORT";
  acc_text : normalized_storage_form (type_of (b_kind b)) (b_schema b) [] = Ok (b_schema b);
  acc_new : unseen s (type_of (b_kind b)) (b_schema b) [] (b_message_type b);
}.

(** The registry's state after the producer's registration. *)
Definition registered_world (b : Binding) (subject : string) (w : World) : World :=
  (KafkaStore.register (request_of subject (b_kind b) (b_schema b) [] (b_message_type b)) w).2.

Lemma ids_of_sane s : sane s → ids_i32 s.
Proof. intros [_ Hst] id [reg Hr]. by apply (Hst id reg). Qed.

(** The id the producer gets is served with the producer's own text. *)
Lemma registration_served s w b subject reg :
  accepts s w b subject → b_references b = [] →
  (KafkaStore.register (request_of subject (b_kind b) (b_schema b) [] (b_message_type b)) w).1 = Ok reg →
  ∃ s', steady s' settled (registered_world b subject w) ∧ (0 ≤ reg_id reg ≤ i32_max)%Z ∧
    schema_by_id s' (reg_id reg) false =
      Some (type_of (b_kind b), b_schema b, [], b_message_type b).
Proof.
  intros [Hat Hsane Hmax Hver Hmode Htext Hnew] Hrefs Hreg.
  set (rq := request_of subject (b_kind b) (b_schema b) [] (b_message_type b)) in *.
  pose proof (hoare_register rq s ltac:(by split_and!) (proj1 Hsane) (ids_of_sane s Hsane) w Hat) as Hh.
  unfold registered_world. fold rq.
  destruct (KafkaStore.register rq w) as [[reg'|e] w'] eqn:Er; [|done]. cbn [fst snd] in *. injection Hreg as ->.
  destruct Hh as (s' & Hspec & Hst). exists s'. split; [done|].
  unfold spec_register in Hspec. cbn [rq request_of rq_subject rq_ty rq_schema rq_references] in Hspec.
  destruct (String.eqb _ "READONLY"); [done|].
  assert (resolve_closure s [] = Ok []) as Hcl by (vm_compute; reflexivity). rewrite Hcl in Hspec. cbn [mbind result_bind] in Hspec.
  rewrite Htext in Hspec. cbn [mbind result_bind] in Hspec.
  rewrite (proj2 (String.eqb_neq _ _) Hmode) in Hspec.
  destruct (assign_stored rq (b_schema b) [] s reg s' (proj1 Hsane) (proj2 Hmax) Hver Hnew Hcl Hspec) as [Hid Hby].
  split; [lia|]. exact Hby.
Qed.

(** A cold cache asks for the id once, and after the fetch holds the text. *)
Lemma cold_fetch http base id w now now' :
  resolve_writer_schema (client_api http base) id = Ok (w, None) →
  ∃ g1 g2, writer_schema_with_references id now inner_default = (Err (WriterSchemaPending id), g1, Some id) ∧
    finish_fetch policy id (resolve_writer_schema (client_api http base) id) now' g1 = Some g2 ∧
    ∀ t, writer_schema_with_references id t g2 = (Ok w, g2, None).
Proof.
  intros Hr. eexists _, _. split; [|split].
  - unfold writer_schema_with_references, inner_default. cbn. rewrite !lookup_empty.
    rewrite bool_decide_eq_false_2 by (apply not_elem_of_empty). reflexivity.
  - rewrite Hr. cbn. reflexivity.
  - intros t. apply cached_writer. cbn. apply lookup_insert_eq.
Qed.

(** What the producer frames with, and what the registry serves under it from then on. *)
Lemma producer_id s w http http' base b topic g :
  let subject := binding_subject b topic in
  accepts s w b subject → b_references b = [] →
  connected http base w subject → connected http' base (registered_world b subject w) subject →
  prewarmed json_of proto_of (client_api http base) b topic g →
  ∃ id, binding_id b topic g = Ok id ∧ in_u32 id ∧
    resolve_writer_schema (client_api http' base) id = Ok (mkWriter (b_schema b) ∅ [], b_message_type b).
Proof.
  cbn zeta. intros Hacc Hrefs Hc Hc' Hpre.
  destruct (prewarmed_cache _ _ _ _ _ _ Hpre Hrefs) as (id & Hid & Hreg & _).
  cbn [client_api api_register] in Hreg. set (subject := binding_subject b topic) in *.
  assert (∀ reg, (KafkaStore.register (request_of subject (b_kind b) (b_schema b) [] (b_message_type b)) w).1 = Ok reg →
    (0 ≤ reg_id reg ≤ i32_max)%Z) as Hrange.
  { intros reg Hr. by destruct (registration_served s w b subject reg Hacc Hrefs Hr) as (_ & _ & ? & _). }
  rewrite (send_register decode_message form_empty http base w) in Hreg; [|done|constructor|exact Hrange].
  destruct (KafkaStore.register _ w).1 as [reg|e] eqn:Er; [|done]. injection Hreg as <-.
  destruct (registration_served s w b subject reg Hacc Hrefs Er) as (s' & Hst & Hrg & Hby).
  exists (reg_id reg). split; [done|]. split; [unfold in_u32, i32_max in *; lia|].
  unfold resolve_writer_schema. cbn [client_api api_schema_by_id].
  rewrite (send_by_id decode_message form_empty http' base _ subject s' (reg_id reg) Hc' Hst).
  - rewrite Hby. cbn. done.
  - unfold in_i32, i32_min, i32_max in *. lia.
  - intros ty text refs mt. rewrite Hby. intros [= _ _ <- _]. constructor.
Qed.

(** C16: a value arrives. A producer whose serde was registered and pre-warmed against a registry
    that had not seen its schema serializes a value; a consumer with an empty cache, connected to
    the registry as the registration left it, answers its first read of the bytes with
    "pending" and starts exactly one fetch, of the id in the frame; once the fetch is done, every
    read of the bytes gives the producer's value, without another fetch. For Avro, and for JSON
    with the writer's schema validated. JSON without validation and Protobuf need no fetch, and a fetch
    of the id does not make the consumer refuse the Protobuf message. *)
Theorem value_delivered `{!AvroDatum} `{!JsonValidation} `{ProtoLib} {A J P : Type}
    `{!AvroType A, !AvroDatumLaws A, !JsonType J, !JsonTypeLaws J, !ProtoType P, !ProtoTypeLaws P}
    s w http http' base topic role g now now' bytes :
  (∀ v : A,
     let b := avro_make (T := A) role in let subject := binding_subject b topic in
     accepts s w b subject → connected http base w subject →
     connected http' base (registered_world b subject w) subject →
     prewarmed json_of proto_of (client_api http base) b topic g →
     avro_serialize b topic v g = Ok bytes →
     ∃ id g1 g2, avro_deserialize (T := A) bytes now inner_default = (Err (WriterSchemaPending id), g1, Some id) ∧
       finish_fetch policy id (resolve_writer_schema (client_api http' base) id) now' g1 = Some g2 ∧
       ∀ t, avro_deserialize (T := A) bytes t g2 = (Ok v, g2, None)) ∧
  (∀ v : J,
     let b := json_make (T := J) role in let subject := binding_subject b topic in
     accepts s w b subject → connected http base w subject →
     connected http' base (registered_world b subject w) subject →
     prewarmed json_of proto_of (client_api http base) b topic g →
     json_serialize b topic v g = Ok bytes →
     json_deserialize (T := J) false bytes now inner_default = (Ok v, inner_default, None) ∧
     ∃ id g1 g2, json_deserialize (T := J) true bytes now inner_default = (Err (WriterSchemaPending id), g1, Some id) ∧
       finish_fetch policy id (resolve_writer_schema (client_api http' base) id) now' g1 = Some g2 ∧
       ∀ t, json_deserialize (T := J) true bytes t g2 = (Ok v, g2, None)) ∧
  (∀ (v : P) b index, protobuf_make (T := P) role = Some (b, index) → in_i64 (Z.of_nat (length index)) →
     let subject := binding_subject b topic in
     accepts s w b subject → connected http base w subject →
     connected http' base (registered_world b subject w) subject →
     prewarmed json_of proto_of (client_api http base) b topic g →
     protobuf_serialize b index topic v g = Ok bytes →
     protobuf_deserialize bytes inner_default = Ok v ∧
     ∃ id, binding_id b topic g = Ok id ∧ ∀ g1 g2,
       finish_fetch policy id (resolve_writer_schema (client_api http' base) id) now' g1 = Some g2 →
       protobuf_deserialize bytes g2 = Ok v).
Proof.
  split_and!; [intros v..|intros v b index Hmake Hlen]; cbn zeta; intros Hacc Hc Hc' Hpre Hser.
  - destruct (producer_id s w http http' base _ topic g Hacc eq_refl Hc Hc' Hpre) as (id & Hid & Hu & Hw).
    destruct (cold_fetch http' base id _ now now' Hw) as (g1 & g2 & Hcold & Hfin & Hwarm).
    unfold avro_serialize in Hser. rewrite Hid in Hser. cbn in Hser.
    destruct (to_value v) as [av|] eqn:Hv; [|done]. cbn in Hser.
    destruct (write_value get_schema av) as [body|] eqn:Hb; [|done]. cbn in Hser. injection Hser as <-.
    destruct (avro_read_back v av body Hv Hb) as (ws & left & Hp & Hrd & Hf).
    exists id, g1, g2. unfold avro_deserialize, Wire.decode, Wire.encode.
    rewrite strip_header_frame by done. cbn [wire]. rewrite Hcold. cbn. split_and!; [done..|].
    intros t. rewrite Hwarm. cbn. unfold avro_read, avro_sources. cbn. rewrite Hp. cbn. rewrite Hrd. cbn. by rewrite Hf.
  - destruct (producer_id s w http http' base _ topic g Hacc eq_refl Hc Hc' Hpre) as (id & Hid & Hu & Hw).
    destruct (cold_fetch http' base id _ now now' Hw) as (g1 & g2 & Hcold & Hfin & Hwarm).
    unfold json_serialize in Hser. rewrite Hid in Hser. cbn in Hser.
    destruct (to_vec v) as [body|] eqn:Hb; [|done]. cbn in Hser. injection Hser as <-.
    unfold json_deserialize, Wire.decode, Wire.encode. rewrite strip_header_frame by done. cbn [wire].
    split; [by rewrite (json_read_back v body Hb)|].
    exists id, g1, g2. rewrite Hcold. cbn. split_and!; [done..|].
    intros t. rewrite Hwarm. cbn. destruct (json_conforms v body Hb) as (schema & inst & validator & Hs & Hi & Hval & Hok).
    unfold json_validate. cbn. rewrite Hs. cbn. rewrite Hi. cbn. rewrite hash_iter_empty. cbn.
    rewrite Hval. cbn. rewrite Hok. cbn. by rewrite (json_read_back v body Hb).
  - unfold protobuf_make in Hmake. apply bind_Some in Hmake as (file & Hparse & (path & Hindex & [= <- <-])%bind_Some).
    destruct (message_index_range _ _ _ Hindex) as [Hne Hi32].
    destruct (producer_id s w http http' base _ topic g Hacc eq_refl Hc Hc' Hpre) as (id & Hid & Hu & Hw).
    unfold protobuf_serialize in Hser. rewrite Hid in Hser. injection Hser as <-.
    unfold protobuf_deserialize. rewrite decode_encode_protobuf by done. cbn [wire mbind result_bind]. split.
    + unfold writer_message_type, inner_default. cbn. by rewrite lookup_empty, proto_read_back.
    + exists id. split; [done|]. intros g1 g2. rewrite Hw. cbn. intros [= <-].
      unfold writer_message_type. cbn. by rewrite lookup_insert_eq, String.eqb_refl, proto_read_back.
Qed.
End delivery.

(** ** A value's path, run *)

Section witnesses.
#[local] Existing Instance echo_format.
#[local] Existing Instance marker_serde.
#[local] Existing Instance marker_serde_laws.
#[local] Existing Instance string_uuid.
#[local] Existing Instance marker_laws.
#[local] Existing Instance byte_avro.
#[local] Existing Instance byte_datum.
#[local] Existing Instance byte_avro_type.
#[local] Existing Instance byte_avro_laws.
#[local] Existing Instance byte_text.
#[local] Existing Instance byte_validation.
#[local] Existing Instance byte_json_type.
#[local] Existing Instance byte_json_laws.
#[local] Existing Instance shop_lib.
#[local] Existing Instance line_type.
#[local] Existing Instance line_laws.
#[local] Instance still_units : TimeUnits := {| Time := Z; secs_f64 := λ t, SpecFloat.S754_zero false; human := λ _, "" |}.
#[local] Instance byte_rest : RestLib := {|
  form_urlencoded _ := []; query_message q := q; serde_message name _ := name; avro_canonical_form _ := "";
  decode_descriptor_set _ := Err "no descriptors" |}.

(** A transport to the registry in the state [w], for the values of the topic "orders". *)
Definition orders_http (w : World) (m : Method) (url : string) (body : option string)
    : result string Client.Response :=
  match m, body with
  | GET, None => deliver (serve HGetById [demo_id url] "" None w).1
  | POST, Some b =>
      if String.eqb url "/subjects/orders-value/versions"
      then deliver (serve HRegister ["orders-value"] "" (Some b) w).1
      else deliver (serve HLookup ["orders-value"] "" (Some b) w).1
  | _, _ => Err "no such request"
  end.

Lemma orders_connected w : connected (orders_http w) "" w "orders-value".
Proof.
  split; [done|done|]. intros id. unfold orders_http, demo_id.
  change ("" +:+ "/schemas/ids/" +:+ pretty id) with ("/schemas/ids/" +:+ pretty id).
  by rewrite strip_prefix_app.
Qed.

Definition orders_api : RegistryApi := client_api (λ _, "") (orders_http demo_world) "".

(** The producer's cache after its pre-warm. *)
Definition orders_cache (b : Binding) : Inner :=
  (prewarm (V := unit) (D := unit) (λ _, None) (λ _, None) orders_api AutoRegister
     (binding_register b "orders" inner_default)).1.

Lemma orders_prewarmed b :
  (prewarm (V := unit) (D := unit) (λ _, None) (λ _, None) orders_api AutoRegister
     (binding_register b "orders" inner_default)).2 = Ok () →
  prewarmed (V := unit) (D := unit) (λ _, None) (λ _, None) orders_api b "orders" (orders_cache b).
Proof.
  intros Hr. exists inner_default. split.
  - intros j id w mt id' w' mt' Hj _ _ _. cbn in Hj. by apply list_elem_of_singleton in Hj.
  - unfold orders_cache. rewrite <-Hr. by destruct (prewarm _ _ _ _ _).
Qed.

Lemma orders_accepted b : accepts default_store demo_world b "orders-value".
Proof.
  assert (∀ k t, normalized_storage_form (type_of k) t [] = Ok t) as Hn by (by intros []).
  split; [exact demo_world_at|split; [exact default_store_wf|]|done|done|done|by apply Hn|].
  - intros id reg Hid. vm_compute in Hid. discriminate.
  - intros key _. reflexivity.
Qed.

Definition orders_policy : SchemaFetchRetryPolicy := mkPolicy (1%Z : Time) (1%Z : Time).

(** The byte 42 written as Avro, and as JSON, under the id 1 the registry assigned. *)
Lemma value_delivered_witness :
  let http' b := orders_http (registered_world b "orders-value" demo_world) in
  (∃ id g1 g2, avro_deserialize (T := Z) [0; 0; 0; 0; 1; 42]%Z 0 inner_default = (Err (WriterSchemaPending id), g1, Some id) ∧
    finish_fetch orders_policy id
      (resolve_writer_schema (client_api (λ _, "") (http' (avro_make (T := Z) Value)) "") id) 1 g1 = Some g2 ∧
    ∀ t, avro_deserialize (T := Z) [0; 0; 0; 0; 1; 42]%Z t g2 = (Ok 42%Z, g2, None)) ∧
  json_deserialize (T := Z) false [0; 0; 0; 0; 1; 42]%Z 0 inner_default = (Ok 42%Z, inner_default, None) ∧
  protobuf_deserialize (T := Z) [0; 0; 0; 0; 1; 4; 2; 0; 42]%Z inner_default = Ok 42%Z.
Proof.
  split_and!.
  - refine (proj1 (value_delivered (A := Z) (J := Z) (P := Z) (λ _, "") eq_refl (V := unit) (D := unit) (λ _, None) (λ _, None)
      orders_policy default_store demo_world (orders_http demo_world) _ "" "orders" Value
      (orders_cache (avro_make (T := Z) Value)) 0 1 _) 42%Z _ (orders_connected _) (orders_connected _) _ _).
    + apply orders_accepted.
    + apply orders_prewarmed. vm_compute. reflexivity.
    + vm_compute. reflexivity.
  - refine (proj1 (proj1 (proj2 (value_delivered (A := Z) (J := Z) (P := Z) (λ _, "") eq_refl (V := unit) (D := unit) (λ _, None)
      (λ _, None) orders_policy default_store demo_world (orders_http demo_world)
      (orders_http (registered_world (json_make (T := Z) Value) "orders-value" demo_world)) "" "orders" Value
      (orders_cache (json_make (T := Z) Value)) 0 1 _)) 42%Z _ (orders_connected _) (orders_connected _) _ _)).
    + apply orders_accepted.
    + apply orders_prewarmed. vm_compute. reflexivity.
    + vm_compute. reflexivity.
  - refine (proj1 (proj2 (proj2 (value_delivered (A := Z) (J := Z) (P := Z) (λ _, "") eq_refl (V := unit) (D := unit)
      (λ _, None) (λ _, None) orders_policy default_store demo_world (orders_http demo_world)
      (orders_http (registered_world line_binding "orders-value" demo_world)) "" "orders" Value
      (orders_cache line_binding) 0 1 _)) 42%Z line_binding [1; 0]%Z _ _ _ (orders_connected _) (orders_connected _) _ _)).
    + reflexivity.
    + split; [discriminate|reflexivity].
    + apply orders_accepted.
    + apply orders_prewarmed. vm_compute. reflexivity.
    + vm_compute. reflexivity.
Defined.
End witnesses.
