(* ===== verification/JsonSyntax.v ===== *)
(** * JSON texts

    A printer and a parser of JSON texts without fractions: an instance of the
    parameter [SerdeJson] that is JSON, so that the records of the topic can be
    looked at byte by byte. The printer writes what serde_json's compact printer
    writes (no spaces, fields in order, the short escapes, [\u00xx] for the other
    control characters, all other bytes as they are); the parser reads RFC 8259
    texts whose numbers are integers of [u64] or [i64]. [text_back] shows that
    the pair meets the law the registry relies on. *)

From stdpp Require Import base gmap strings list.
From Stdlib Require Import ZArith Lia Ascii Decimal DecimalN DecimalString.
From S2P Require Import Prelude Text Json Types Store Record.

#[local] Open Scope string_scope.

(** ** Characters *)

Definition chr (n : nat) : ascii := ascii_of_nat n.
Definition char_in (l : list nat) (c : ascii) : bool := existsb (Nat.eqb (nat_of_ascii c)) l.

Definition is_space : ascii → bool := char_in [32; 9; 10; 13].

Fixpoint skip (s : string) : string :=
  match s with
  | String c s' => if is_space c then skip s' else s
  | "" => ""
  end.

Definition hex_char (n : nat) : ascii := chr (if Nat.ltb n 10 then 48 + n else 87 + n).

Definition hex_value (c : ascii) : option nat :=
  let n := nat_of_ascii c in
  if Nat.leb 48 n && Nat.leb n 57 then Some (n - 48)
  else if Nat.leb 97 n && Nat.leb n 102 then Some (n - 87)
  else if Nat.leb 65 n && Nat.leb n 70 then Some (n - 55)
  else None.

(** The four digits of a [\u] escape. *)
Definition hex4 (a b c d : ascii) : option N :=
  a ← hex_value a; b ← hex_value b; c ← hex_value c; d ← hex_value d;
  Some (N.of_nat (a * 16 + b) * 256 + N.of_nat (c * 16 + d))%N.

(** A scalar value as UTF-8. *)
Definition utf8 (n : N) : string :=
  let byte (k : N) s := String (ascii_of_N k) s in
  let tail k := byte (128 + N.shiftr n (6 * k) mod 64)%N in
  (if n <? 128 then byte n ""
   else if n <? 2048 then byte (192 + N.shiftr n 6) (tail 0 "")
   else if n <? 65536 then byte (224 + N.shiftr n 12) (tail 1 (tail 0 ""))
   else byte (240 + N.shiftr n 18) (tail 2 (tail 1 (tail 0 ""))))%N.

(** ** Strings *)

(** The character [c] of a string, printed before [s]. *)
Definition escape (c : ascii) (s : string) : string :=
  let n := nat_of_ascii c in
  let short e s := String (chr 92) (String e s) in
  if Nat.eqb n 34 then short (chr 34) s
  else if Nat.eqb n 92 then short (chr 92) s
  else if Nat.eqb n 8 then short "b"%char s
  else if Nat.eqb n 9 then short "t"%char s
  else if Nat.eqb n 10 then short "n"%char s
  else if Nat.eqb n 12 then short "f"%char s
  else if Nat.eqb n 13 then short "r"%char s
  else if Nat.ltb n 32 then
    short "u"%char (String "0"%char (String "0"%char
      (String (hex_char (n / 16)) (String (hex_char (n mod 16)) s))))
  else String c s.

Fixpoint print_chars (text rest : string) : string :=
  match text with
  | "" => String (chr 34) rest
  | String c text => escape c (print_chars text rest)
  end.

Definition print_string (text rest : string) : string := String (chr 34) (print_chars text rest).

Definition unescape (e : ascii) : option ascii :=
  if char_in [34; 92; 47] e then Some e
  else if Ascii.eqb e "b" then Some (chr 8)
  else if Ascii.eqb e "t" then Some (chr 9)
  else if Ascii.eqb e "n" then Some (chr 10)
  else if Ascii.eqb e "f" then Some (chr 12)
  else if Ascii.eqb e "r" then Some (chr 13)
  else None.

Definition prepend (p : string) (r : option (string * string)) : option (string * string) :=
  '(text, rest) ← r; Some (p +:+ text, rest).

(** The text up to the closing quote, and what follows it. *)
Fixpoint chars (s : string) : option (string * string) :=
  match s with
  | "" => None
  | String c s =>
      if Ascii.eqb c (chr 34) then Some ("", s)
      else if Ascii.eqb c (chr 92) then
        match s with
        | String "u" (String a (String b (String c (String d s)))) =>
            match hex4 a b c d with
            | None => None
            | Some hi =>
                if (hi <? 55296)%N || (57344 <=? hi)%N then prepend (utf8 hi) (chars s)
                else
                  match s with
                  | String "\" (String "u" (String a (String b (String c (String d s))))) =>
                      match hex4 a b c d with
                      | None => None
                      | Some lo =>
                          if ((hi <? 56320) && (56320 <=? lo) && (lo <? 57344))%N
                          then prepend (utf8 (65536 + (hi - 55296) * 1024 + (lo - 56320))%N) (chars s)
                          else None
                      end
                  | _ => None
                  end
            end
        | String e s =>
            match unescape e with Some c => prepend (String c "") (chars s) | None => None end
        | "" => None
        end
      else if Nat.ltb (nat_of_ascii c) 32 then None
      else prepend (String c "") (chars s)
  end.

Lemma chars_escape c s : chars (escape c s) = prepend (String c "") (chars s).
Proof. destruct c as [[] [] [] [] [] [] [] []]; reflexivity. Qed.

Lemma chars_print text rest : chars (print_chars text rest) = Some (text, rest).
Proof.
  induction text as [|c text IH]; [reflexivity|]. cbn [print_chars]. by rewrite chars_escape, IH.
Qed.

(** ** Numbers *)

Fixpoint print_uint (d : uint) (rest : string) : string :=
  match d with
  | Nil => rest
  | D0 d => String "0" (print_uint d rest)
  | D1 d => String "1" (print_uint d rest)
  | D2 d => String "2" (print_uint d rest)
  | D3 d => String "3" (print_uint d rest)
  | D4 d => String "4" (print_uint d rest)
  | D5 d => String "5" (print_uint d rest)
  | D6 d => String "6" (print_uint d rest)
  | D7 d => String "7" (print_uint d rest)
  | D8 d => String "8" (print_uint d rest)
  | D9 d => String "9" (print_uint d rest)
  end.

Fixpoint digits (s : string) : uint * string :=
  match s with
  | String c s' =>
      let next mk := let '(d, rest) := digits s' in (mk d, rest) in
      match c with
      | "0" => next D0 | "1" => next D1 | "2" => next D2 | "3" => next D3 | "4" => next D4
      | "5" => next D5 | "6" => next D6 | "7" => next D7 | "8" => next D8 | "9" => next D9
      | _ => (Nil, s)
      end%char
  | "" => (Nil, s)
  end.

(** What may follow a number: no digit, fraction or exponent. *)
Definition ends_number (s : string) : bool :=
  match s with
  | "" => true
  | String c _ => negb (char_in [46; 69; 101] c) && negb (Nat.leb 48 (nat_of_ascii c) && Nat.leb (nat_of_ascii c) 57)
  end.

Lemma digits_stop s : ends_number s = true → digits s = (Nil, s).
Proof. destruct s as [|[[] [] [] [] [] [] [] []] s]; (reflexivity || discriminate). Qed.

Lemma digits_print d rest : ends_number rest = true → digits (print_uint d rest) = (d, rest).
Proof. intros Hr. induction d; cbn; rewrite ?IHd; [by apply digits_stop|reflexivity..]. Qed.

Definition uint_eqb (d d' : uint) : bool := Decimal.uint_beq d d'.

(** A number without superfluous zeros. *)
Definition natural (s : string) : option (Z * string) :=
  let '(d, rest) := digits s in
  if uint_eqb (unorm d) d && ends_number rest then Some (Z.of_N (N.of_uint d), rest) else None.

Definition print_natural (n : Z) (rest : string) : string := print_uint (N.to_uint (Z.to_N n)) rest.

Lemma unorm_to_uint n : unorm (N.to_uint n) = N.to_uint n.
Proof. by rewrite <-DecimalN.Unsigned.to_of, DecimalN.Unsigned.of_to. Qed.

Lemma natural_print n rest :
  (0 ≤ n)%Z → ends_number rest = true → natural (print_natural n rest) = Some (n, rest).
Proof.
  intros Hn Hr. unfold natural, print_natural. rewrite digits_print by done.
  unfold uint_eqb. rewrite unorm_to_uint, Hr.
  assert (∀ d, Decimal.uint_beq d d = true) as -> by (intros d; by apply internal_uint_dec_lb).
  by rewrite DecimalN.Unsigned.of_to, Z2N.id.
Qed.

(** ** Values *)

Definition print_number (n : number) (rest : string) : string :=
  match n with
  | PosInt n => print_natural n rest
  | NegInt n => String "-" (print_natural (- n) rest)
  | Float _ => "0.0" +:+ rest
  end.

Fixpoint print_value (v : json) (rest : string) : string :=
  match v with
  | JNull => "null" +:+ rest
  | JBool true => "true" +:+ rest
  | JBool false => "false" +:+ rest
  | JNumber n => print_number n rest
  | JString s => print_string s rest
  | JArray [] => "[]" +:+ rest
  | JArray (v :: l) =>
      String "[" (print_value v
        ((fix go l := match l with
                      | [] => String "]" rest
                      | v :: l => String "," (print_value v (go l))
                      end) l))
  | JObject [] => "{}" +:+ rest
  | JObject ((k, v) :: l) =>
      String "{" (print_string k (String ":" (print_value v
        ((fix go l := match l with
                      | [] => String "}" rest
                      | (k, v) :: l => String "," (print_string k (String ":" (print_value v (go l))))
                      end) l))))
  end.

Definition keyword (k : string) (v : json) (s : string) : option (json * string) :=
  rest ← strip_prefix k s; Some (v, rest).

Fixpoint value (fuel : nat) (s : string) : option (json * string) :=
  match fuel with
  | O => None
  | S fuel =>
    match skip s with
    | "" => None
    | String c rest as s =>
      if Ascii.eqb c "n" then keyword "null" JNull s
      else if Ascii.eqb c "t" then keyword "true" (JBool true) s
      else if Ascii.eqb c "f" then keyword "false" (JBool false) s
      else if Ascii.eqb c (chr 34) then '(text, rest) ← chars rest; Some (JString text, rest)
      else if Ascii.eqb c "[" then
        match skip rest with
        | String "]" rest => Some (JArray [], rest)
        | rest => '(l, rest) ← elements fuel rest; Some (JArray l, rest)
        end
      else if Ascii.eqb c "{" then
        match skip rest with
        | String "}" rest => Some (JObject [], rest)
        | rest => '(l, rest) ← members fuel rest; Some (JObject l, rest)
        end
      else if Ascii.eqb c "-" then
        '(n, rest) ← natural rest;
        if ((0 <? n) && (n <=? 2 ^ 63))%Z then Some (JNumber (NegInt (- n)), rest) else None
      else
        '(n, rest) ← natural s;
        if (n <? 2 ^ 64)%Z then Some (JNumber (PosInt n), rest) else None
    end
  end
with elements (fuel : nat) (s : string) : option (list json * string) :=
  match fuel with
  | O => None
  | S fuel =>
      '(v, rest) ← value fuel s;
      match skip rest with
      | String "," rest => '(l, rest) ← elements fuel rest; Some (v :: l, rest)
      | String "]" rest => Some ([v], rest)
      | _ => None
      end
  end
with members (fuel : nat) (s : string) : option (list (string * json) * string) :=
  match fuel with
  | O => None
  | S fuel =>
      match skip s with
      | String c rest =>
          if Ascii.eqb c (chr 34) then
            '(k, rest) ← chars rest;
            match skip rest with
            | String ":" rest =>
                '(v, rest) ← value fuel rest;
                match skip rest with
                | String "," rest => '(l, rest) ← members fuel rest; Some ((k, v) :: l, rest)
                | String "}" rest => Some ([(k, v)], rest)
                | _ => None
                end
            | _ => None
            end
          else None
      | _ => None
      end
  end.

(** Enough for every text: a value takes a unit, and so does an element. *)
Definition text_fuel (s : string) : nat := S (2 * String.length s).

Definition text_parse (s : string) : option json :=
  '(v, rest) ← value (text_fuel s) s;
  match skip rest with "" => Some v | _ => None end.

Definition text_print (v : json) : string := print_value v "".

Definition text_serde : SerdeJson := {| json_print := text_print; json_parse := text_parse |}.

(** ** The round trip *)

Fixpoint print_tail (l : list json) (rest : string) : string :=
  match l with
  | [] => String "]" rest
  | v :: l => String "," (print_value v (print_tail l rest))
  end.

Fixpoint print_fields (l : list (string * json)) (rest : string) : string :=
  match l with
  | [] => String "}" rest
  | (k, v) :: l => String "," (print_string k (String ":" (print_value v (print_fields l rest))))
  end.

Lemma print_array v l rest :
  print_value (JArray (v :: l)) rest = String "[" (print_value v (print_tail l rest)).
Proof. cbn [print_value]. do 2 f_equal. induction l as [|x l IH]; [done|]. cbn [print_tail]. by rewrite <-IH. Qed.

Lemma print_object k v l rest :
  print_value (JObject ((k, v) :: l)) rest =
  String "{" (print_string k (String ":" (print_value v (print_fields l rest)))).
Proof.
  cbn [print_value]. do 4 f_equal. induction l as [|[k' x] l IH]; [done|]. cbn [print_fields]. by rewrite <-IH.
Qed.

Fixpoint weight (v : json) : nat :=
  match v with
  | JArray l => S (sum_list_with (λ x, S (weight x)) l)
  | JObject l => S (sum_list_with (λ kv, S (weight kv.2)) l)
  | _ => 1
  end.

(** A printed value starts with a character that is neither a space nor a bracket
    that closes. *)
Definition opens (s : string) : bool :=
  match s with String c _ => negb (is_space c) && negb (Ascii.eqb c "]") && negb (Ascii.eqb c "}") | "" => false end.

Lemma print_natural_opens n rest :
  ∃ c s, print_natural n rest = String c s ∧ Nat.leb 48 (nat_of_ascii c) && Nat.leb (nat_of_ascii c) 57 = true.
Proof.
  unfold print_natural. destruct (N.to_uint (Z.to_N n)) eqn:E; cbn [print_uint]; eauto.
  pose proof (unorm_to_uint (Z.to_N n)) as Hu. by rewrite E in Hu.
Qed.

Lemma digit_opens c s :
  Nat.leb 48 (nat_of_ascii c) && Nat.leb (nat_of_ascii c) 57 = true → opens (String c s) = true.
Proof. destruct c as [[] [] [] [] [] [] [] []]; (reflexivity || discriminate). Qed.

Lemma print_opens v rest : opens (print_value v rest) = true.
Proof.
  destruct v as [|[]|[n|n|f]|s|[|]|[|[]]]; try reflexivity.
  cbn [print_value print_number]. destruct (print_natural_opens n rest) as (c & s & -> & Hc). by apply digit_opens.
Qed.

Lemma opens_skip s : opens s = true → skip s = s.
Proof. destruct s as [|c s]; [done|]. cbn [opens skip]. by destruct (is_space c). Qed.

Lemma skip_char c s : is_space c = false → skip (String c s) = String c s.
Proof. cbn [skip]. by intros ->. Qed.

(** Each shape of value, by its first character. *)
Lemma value_digit fuel c rest :
  Nat.leb 48 (nat_of_ascii c) && Nat.leb (nat_of_ascii c) 57 = true →
  value (S fuel) (String c rest) =
  ('(n, rest) ← natural (String c rest);
   if (n <? 2 ^ 64)%Z then Some (JNumber (PosInt n), rest) else None).
Proof. destruct c as [[] [] [] [] [] [] [] []]; (reflexivity || discriminate). Qed.

Lemma value_minus fuel s :
  value (S fuel) (String "-" s) =
  ('(n, rest) ← natural s;
   if ((0 <? n) && (n <=? 2 ^ 63))%Z then Some (JNumber (NegInt (- n)), rest) else None).
Proof. reflexivity. Qed.

Lemma value_quote fuel s :
  value (S fuel) (String (chr 34) s) = ('(text, rest) ← chars s; Some (JString text, rest)).
Proof. reflexivity. Qed.

Lemma value_array fuel s :
  opens s = true →
  value (S fuel) (String "[" s) = ('(l, rest) ← elements fuel s; Some (JArray l, rest)).
Proof.
  intros Ho. cbn [value skip]. cbn -[elements skip]. rewrite opens_skip by done.
  destruct s as [|[[] [] [] [] [] [] [] []] s]; (reflexivity || discriminate).
Qed.

Lemma value_object fuel s :
  opens s = true →
  value (S fuel) (String "{" s) = ('(l, rest) ← members fuel s; Some (JObject l, rest)).
Proof.
  intros Ho. cbn [value skip]. cbn -[members skip]. rewrite opens_skip by done.
  destruct s as [|[[] [] [] [] [] [] [] []] s]; (reflexivity || discriminate).
Qed.

(** [v] is read back by any parser with fuel for it. *)
Definition reads_back (v : json) : Prop :=
  json_plain v = true → ∀ (fuel : nat) rest, (weight v ≤ fuel)%nat → ends_number rest = true →
  value fuel (print_value v rest) = Some (v, rest).

Lemma tail_ends l rest : ends_number (print_tail l rest) = true.
Proof. by destruct l. Qed.
Lemma fields_end l rest : ends_number (print_fields l rest) = true.
Proof. by destruct l as [|[]]. Qed.

Lemma elements_back l : ∀ v fuel rest,
  Forall reads_back (v :: l) → forallb json_plain (v :: l) = true →
  (sum_list_with (λ x, S (weight x)) (v :: l) ≤ fuel)%nat →
  elements fuel (print_value v (print_tail l rest)) = Some (v :: l, rest).
Proof.
  induction l as [|x l IH]; intros v fuel rest [Hv Hl]%Forall_cons [Hp Hpl]%andb_prop Hf;
    cbn [sum_list_with] in Hf; (destruct fuel as [|fuel]; [lia|]); cbn [elements];
    rewrite (Hv Hp) by (lia || apply tail_ends); cbn [mbind option_bind print_tail];
    rewrite skip_char by reflexivity; [done|].
  rewrite IH; [done|done|done|]. cbn [sum_list_with]. lia.
Qed.

Lemma members_back l : ∀ k v fuel rest,
  Forall (λ kv, reads_back kv.2) ((k, v) :: l) → forallb (λ kv, json_plain kv.2) ((k, v) :: l) = true →
  (sum_list_with (λ kv : string * json, S (weight kv.2)) ((k, v) :: l) ≤ fuel)%nat →
  members fuel (print_string k (String ":" (print_value v (print_fields l rest)))) =
    Some ((k, v) :: l, rest).
Proof.
  induction l as [|[k' x] l IH]; intros k v fuel rest [Hv Hl]%Forall_cons [Hp Hpl]%andb_prop Hf;
    cbn [sum_list_with snd] in Hf, Hv, Hp; (destruct fuel as [|fuel]; [lia|]); cbn [members]; unfold print_string;
    (rewrite skip_char by reflexivity); rewrite Ascii.eqb_refl, chars_print; cbn [mbind option_bind];
    (rewrite skip_char by reflexivity); rewrite (Hv Hp) by (lia || apply fields_end);
    cbn [mbind option_bind print_fields]; (rewrite skip_char by reflexivity); [done|].
  rewrite IH; [done|done|done|]. cbn [sum_list_with snd]. lia.
Qed.

Lemma value_back v : reads_back v.
Proof.
  induction v as [|b|n|s|l IH|l IH] using json_rect'; intros Hp fuel rest Hf Hr;
    (destruct fuel as [|fuel]; [cbn in Hf; lia|]).
  - reflexivity.
  - destruct b; reflexivity.
  - destruct n as [n|n|f]; [| |discriminate]; cbn [json_plain] in Hp;
      apply andb_prop in Hp as [H1 H2]; cbn [print_value print_number].
    + pose proof (natural_print n rest ltac:(lia) Hr) as Hn.
      destruct (print_natural_opens n rest) as (c & s & Hs & Hc). rewrite Hs in *.
      rewrite value_digit by done. rewrite Hn. cbn. by rewrite H2.
    + pose proof (natural_print (- n) rest ltac:(lia) Hr) as Hn.
      rewrite value_minus, Hn. cbn [mbind option_bind]. rewrite (proj2 (Z.ltb_lt _ _)), (proj2 (Z.leb_le _ _)) by lia. cbn [andb].
      by rewrite Z.opp_involutive.
  - cbn [print_value]. unfold print_string. by rewrite value_quote, chars_print.
  - destruct l as [|v l]; [reflexivity|]. rewrite print_array, value_array by apply print_opens.
    rewrite elements_back; [done|done|done|]. cbn [weight] in Hf. lia.
  - destruct l as [|[k v] l]; [reflexivity|]. rewrite print_object, value_object by done.
    rewrite members_back; [done|done|done|]. cbn [weight] in Hf. lia.
Qed.

(** ** Fuel *)

Lemma length_text_app s t : String.length (s +:+ t) = (String.length s + String.length t)%nat.
Proof.
  induction s as [|c s IH]; [done|].
  change (S (String.length (s +:+ t)) = S (String.length s + String.length t)).
  by rewrite IH.
Qed.

Lemma print_chars_length text rest :
  (String.length (print_chars text rest) > String.length rest)%nat.
Proof.
  induction text as [|c text IH]; [cbn; lia|]. cbn [print_chars].
  assert (String.length (escape c (print_chars text rest)) > String.length (print_chars text rest))%nat; [|lia].
  unfold escape. repeat case_match; cbn [String.length]; lia.
Qed.

Lemma print_natural_length n rest :
  (String.length (print_natural n rest) > String.length rest)%nat.
Proof.
  assert (∀ d, String.length rest ≤ String.length (print_uint d rest))%nat as Hd
    by (induction d; cbn; lia).
  unfold print_natural. pose proof (unorm_to_uint (Z.to_N n)) as Hu.
  destruct (N.to_uint (Z.to_N n)) as [|d|d|d|d|d|d|d|d|d|d]; [done|..];
    cbn [print_uint String.length]; specialize (Hd d); lia.
Qed.

(** A value of weight [w] takes at least [w / 2] characters. *)
Definition weighs (v : json) : Prop :=
  ∀ rest, (weight v + 2 * String.length rest ≤ 2 * String.length (print_value v rest))%nat.

Lemma print_tail_length l rest : Forall weighs l →
  (sum_list_with (λ x, S (weight x)) l + 2 * String.length rest + 2 ≤ 2 * String.length (print_tail l rest))%nat.
Proof.
  induction 1 as [|x l Hx _ IH]; cbn [sum_list_with print_tail String.length]; [lia|].
  specialize (Hx (print_tail l rest)). lia.
Qed.

Lemma print_field_length k v rest : weighs v →
  (S (weight v) + 2 * String.length rest ≤
   2 * String.length (print_string k (String ":" (print_value v rest))))%nat.
Proof.
  intros Hv. unfold print_string. pose proof (print_chars_length k (String ":" (print_value v rest))).
  specialize (Hv rest). cbn [String.length] in *. lia.
Qed.

Lemma print_fields_length l rest : Forall (λ kv : string * json, weighs kv.2) l →
  (sum_list_with (λ kv : string * json, S (weight kv.2)) l + 2 * String.length rest + 2 ≤
   2 * String.length (print_fields l rest))%nat.
Proof.
  induction 1 as [|[k x] l Hx _ IH]; cbn [sum_list_with print_fields String.length]; [lia|].
  pose proof (print_field_length k x (print_fields l rest) Hx). cbn [snd]. lia.
Qed.

Lemma print_length v : weighs v.
Proof.
  induction v as [|b|n|s|l IH|l IH] using json_rect'; intros rest.
  - cbn [weight print_value]. rewrite length_text_app. cbn [String.length]. lia.
  - destruct b; cbn [weight print_value]; rewrite length_text_app; cbn [String.length]; lia.
  - destruct n as [n|n|f]; cbn [print_value print_number weight String.length].
    + pose proof (print_natural_length n rest). lia.
    + pose proof (print_natural_length (- n) rest). lia.
    + rewrite length_text_app. cbn [String.length]. lia.
  - cbn [print_value weight]. unfold print_string. cbn [String.length].
    pose proof (print_chars_length s rest). lia.
  - destruct l as [|v l].
    { cbn [weight print_value sum_list_with]. rewrite length_text_app. cbn [String.length]. lia. }
    apply Forall_cons in IH as [Hv Hl]. rewrite print_array.
    specialize (Hv (print_tail l rest)). pose proof (print_tail_length l rest Hl).
    cbn [weight sum_list_with String.length]. lia.
  - destruct l as [|[k v] l].
    { cbn [weight print_value sum_list_with]. rewrite length_text_app. cbn [String.length]. lia. }
    apply Forall_cons in IH as [Hv Hl]. rewrite print_object.
    pose proof (print_field_length k v (print_fields l rest) Hv). pose proof (print_fields_length l rest Hl).
    cbn [weight sum_list_with String.length snd] in *. lia.
Qed.

(** A printed value is parsed back. *)
Lemma text_back v : json_plain v = true → text_parse (text_print v) = Some v.
Proof.
  intros Hp. unfold text_parse, text_print, text_fuel. pose proof (print_length v "").
  rewrite (value_back v Hp); [done| |done]. cbn [String.length] in *. lia.
Qed.

#[export] Instance text_serde_laws : @SerdeJsonLaws text_serde.
Proof. constructor. exact text_back. Qed.
