(* ===== verification/JsonTests.v ===== *)
(** * The JSON Schema format against its own tests

    The cases of the unit tests of the format (format/json/mod.rs, compat.rs, diff.rs), and the
    golden matrix of the verdicts a Confluent registry gives
    (tests/fixtures/compat/json_matrix.json), run through the definitions: the model answers as the
    code is tested to answer. The texts of the tests are given as the values serde_json reads. *)

From stdpp Require Import base gmap strings list.
From Stdlib Require Import ZArith Ascii.
From S2P Require Import Prelude Text Float Json Types Store Record RecordFacts Descriptor ProtoText Matching JsonDiff JsonSpec ProtoDiff AvroFormat Formats Compat.

(** ** Running a check *)

(** Regular expressions of the tests: a literal prefix. *)
Definition prefix_regex : Regex := λ p,
  match p with
  | String "^"%char literal => Some (λ s, match strip_prefix literal s with Some _ => true | None => false end)
  | _ => None
  end.

(** What a test asserts of a check: its result, or only that it returns. *)
Inductive Expect := IsOk | IsErr | Runs.

Record UnitCheck := mkCheck { uc_reader : json; uc_writer : json; uc_expect : Expect }.

(** The two texts of a check. *)
Definition pair_text (reader writer : json) : JsonText := λ s,
  if String.eqb s "reader" then Ok reader else if String.eqb s "writer" then Ok writer else Err "no such text".

(** Deep enough for every document below. *)
Definition test_fuel : nat := 60.

Definition run_check (c : UnitCheck) : bool :=
  match @JsonDiff.check prefix_regex rfc6901 tree_serde (pair_text (uc_reader c) (uc_writer c)) test_fuel
          "reader" "writer" [] [], uc_expect c with
  | Some (Ok _), (IsOk | Runs) | Some (Err _), (IsErr | Runs) => true
  | _, _ => false
  end.

(** A test function: the checks it makes. *)
Abbreviation UnitTest := (list UnitCheck).

Definition passes (t : UnitTest) : bool := forallb run_check t.

(** ** The rules of the table-driven test *)

Definition milestone_23_rules : list (string * UnitCheck) := [
  ("integer-to-number", mkCheck
     (JObject [("type", JString "number")])
     (JObject [("type", JString "integer")]) IsOk);
  ("number-to-integer", mkCheck
     (JObject [("type", JString "integer")])
     (JObject [("type", JString "number")]) IsErr);
  ("multiple-of-reduced", mkCheck
     (JObject [("multipleOf", JNumber (PosInt 2)); ("type", JString "integer")])
     (JObject [("multipleOf", JNumber (PosInt 4)); ("type", JString "integer")]) IsOk);
  ("multiple-of-expanded", mkCheck
     (JObject [("multipleOf", JNumber (PosInt 4)); ("type", JString "integer")])
     (JObject [("multipleOf", JNumber (PosInt 2)); ("type", JString "integer")]) IsErr);
  ("dependency-added", mkCheck
     (JObject [("dependencies", JObject [("a", JArray [JString "b"])]); ("type", JString "object")])
     (JObject [("type", JString "object")]) IsErr);
  ("dependency-removed", mkCheck
     (JObject [("type", JString "object")])
     (JObject [("dependencies", JObject [("a", JArray [JString "b"])]); ("type", JString "object")]) IsOk);
  ("tuple-type-changed", mkCheck
     (JObject [("items", JArray [JObject [("type", JString "string")]]); ("type", JString "array")])
     (JObject [("items", JArray [JObject [("type", JString "integer")]]); ("type", JString "array")]) IsErr);
  ("unique-items-added", mkCheck
     (JObject [("type", JString "array"); ("uniqueItems", JBool true)])
     (JObject [("type", JString "array")]) IsErr);
  ("unique-items-removed", mkCheck
     (JObject [("type", JString "array")])
     (JObject [("type", JString "array"); ("uniqueItems", JBool true)]) IsOk);
  ("required-default", mkCheck
     (JObject [("properties", JObject [("a", JObject [("default", JString ""); ("type", JString "string")])]);
      ("required", JArray [JString "a"]); ("type", JString "object")])
     (JObject [("properties", JObject [("a", JObject [("default", JString ""); ("type", JString "string")])]);
      ("type", JString "object")]) IsOk);
  ("required-default-closed", mkCheck
     (JObject [("additionalProperties", JBool false);
      ("properties", JObject [("a", JObject [("default", JString ""); ("type", JString "string")])]);
      ("required", JArray [JString "a"]); ("type", JString "object")])
     (JObject [("additionalProperties", JBool false); ("type", JString "object")]) IsOk);
  ("closed-to-open-removal", mkCheck
     (JObject [("properties", JObject [("a", JObject [("type", JString "integer")])]);
      ("type", JString "object")])
     (JObject [("additionalProperties", JBool false);
      ("properties", JObject [("a", JObject [("type", JString "integer")]);
      ("b", JObject [("type", JString "string")])]); ("type", JString "object")]) IsOk);
  ("pattern-covered", mkCheck
     (JObject [("patternProperties", JObject [("^x", JObject [("type", JString "string")])]);
      ("properties", JObject [("x", JObject [("type", JString "string")])]); ("type", JString "object")])
     (JObject [("patternProperties", JObject [("^x", JObject [("type", JString "string")])]);
      ("type", JString "object")]) IsOk);
  ("additional-properties-narrowed", mkCheck
     (JObject [("additionalProperties", JObject [("type", JString "string")]); ("type", JString "object")])
     (JObject [("type", JString "object")]) IsErr);
  ("plain-to-anyof", mkCheck
     (JObject [("anyOf", JArray [JObject [("type", JString "string")]; JObject [("type", JString "integer")]])])
     (JObject [("type", JString "string")]) IsOk);
  ("anyof-branch-relaxed", mkCheck
     (JObject [("anyOf", JArray [JObject [("maximum", JNumber (PosInt 10)); ("type", JString "integer")]])])
     (JObject [("anyOf", JArray [JObject [("maximum", JNumber (PosInt 5)); ("type", JString "integer")]])]) IsOk);
  ("oneof-to-anyof", mkCheck
     (JObject [("anyOf", JArray [JObject [("type", JString "string")]])])
     (JObject [("oneOf", JArray [JObject [("type", JString "string")]])]) IsOk);
  ("not-narrowed", mkCheck
     (JObject [("not", JObject [("type", JString "integer")])])
     (JObject [("not", JObject [("type", JString "number")])]) IsOk);
  ("second-combinator-changed", mkCheck
     (JObject [("allOf", JArray [JObject [("type", JString "object")]]);
      ("anyOf", JArray [JObject [("type", JString "string")]])])
     (JObject [("allOf", JArray [JObject [("type", JString "object")]]);
      ("anyOf", JArray [JObject [("type", JString "string")]; JObject [("type", JString "integer")]])]) IsErr) ].

Lemma milestone_23_compatibility_rules : forallb (λ c, run_check c.2) milestone_23_rules = true.
Proof. vm_compute. reflexivity. Qed.

(** ** The test functions *)

Definition add_property_open_model_is_incompatible : UnitTest := [
  mkCheck
    (JObject [("properties", JObject [("a", JObject [("type", JString "integer")]);
     ("b", JObject [("type", JString "string")])]); ("type", JString "object")])
    (JObject [("properties", JObject [("a", JObject [("type", JString "integer")])]);
     ("type", JString "object")]) IsErr ].

Definition add_required_property_closed_model_is_incompatible : UnitTest := [
  mkCheck
    (JObject [("additionalProperties", JBool false);
     ("properties", JObject [("a", JObject [("type", JString "integer")]);
     ("b", JObject [("type", JString "string")])]); ("required", JArray [JString "b"]);
     ("type", JString "object")])
    (JObject [("additionalProperties", JBool false);
     ("properties", JObject [("a", JObject [("type", JString "integer")])]); ("type", JString "object")]) IsErr ].

Definition type_narrowed_is_incompatible : UnitTest := [
  mkCheck
    (JObject [("type", JString "string")])
    (JObject [("type", JArray [JString "string"; JString "null"])]) IsErr ].

Definition required_added_is_incompatible : UnitTest := [
  mkCheck
    (JObject [("properties", JObject [("a", JObject [("type", JString "integer")])]);
     ("required", JArray [JString "a"]); ("type", JString "object")])
    (JObject [("properties", JObject [("a", JObject [("type", JString "integer")])]);
     ("type", JString "object")]) IsErr ].

Definition enum_changes_do_not_panic : UnitTest := [
  mkCheck
    (JObject [("enum", JArray [JString "a"; JString "b"])])
    (JObject [("enum", JArray [JString "a"])]) Runs;
  mkCheck
    (JObject [("enum", JArray [JString "a"])])
    (JObject [("enum", JArray [JString "a"; JString "b"])]) Runs ].

Definition maximum_lowered_is_incompatible : UnitTest := [
  mkCheck
    (JObject [("maximum", JNumber (PosInt 10)); ("type", JString "integer")])
    (JObject [("maximum", JNumber (PosInt 100)); ("type", JString "integer")]) IsErr ].

Definition min_length_added_is_incompatible : UnitTest := [
  mkCheck
    (JObject [("minLength", JNumber (PosInt 3)); ("type", JString "string")])
    (JObject [("type", JString "string")]) IsErr ].

Definition max_items_changes_do_not_panic : UnitTest := [
  mkCheck
    (JObject [("maxItems", JNumber (PosInt 9)); ("type", JString "array")])
    (JObject [("maxItems", JNumber (PosInt 3)); ("type", JString "array")]) Runs ].

Definition items_type_change_is_incompatible : UnitTest := [
  mkCheck
    (JObject [("items", JObject [("type", JString "string")]); ("type", JString "array")])
    (JObject [("items", JObject [("type", JString "integer")]); ("type", JString "array")]) IsErr ].

Definition anyof_subschema_added_does_not_panic : UnitTest := [
  mkCheck
    (JObject [("anyOf", JArray [JObject [("type", JString "string")]; JObject [("type", JString "integer")]])])
    (JObject [("anyOf", JArray [JObject [("type", JString "string")]])]) Runs ].

Definition allof_subschema_added_does_not_panic : UnitTest := [
  mkCheck
    (JObject [("allOf", JArray [JObject [("type", JString "object")];
     JObject [("required", JArray [JString "a"])]])])
    (JObject [("allOf", JArray [JObject [("type", JString "object")]])]) Runs ].

Definition ref_resolves_and_diffs_target : UnitTest := [
  mkCheck
    (JObject [("$defs", JObject [("T", JObject [("type", JString "string")])]); ("$ref", JString "#/$defs/T")])
    (JObject [("$defs", JObject [("T", JObject [("type", JString "integer")])]); ("$ref", JString "#/$defs/T")]) IsErr ].

Definition recursive_ref_terminates : UnitTest := [
  mkCheck
    (JObject [("$defs", JObject [("N", JObject [("properties", JObject [("next", JObject [("$ref", JString "#/$defs/N")])]);
     ("type", JString "object")])]); ("$ref", JString "#/$defs/N")])
    (JObject [("$defs", JObject [("N", JObject [("properties", JObject [("next", JObject [("$ref", JString "#/$defs/N")])]);
     ("type", JString "object")])]); ("$ref", JString "#/$defs/N")]) IsOk ].

Definition dependencies_and_conditionals_do_not_panic : UnitTest := [
  mkCheck
    (JObject [("if", JObject [("required", JArray [JString "a"])]);
     ("then", JObject [("required", JArray [JString "b"])])])
    (JObject [("type", JString "object")]) Runs ].

Definition type_changed_neither_subset_is_incompatible : UnitTest := [
  mkCheck
    (JObject [("type", JArray [JString "integer"; JString "boolean"])])
    (JObject [("type", JArray [JString "string"; JString "number"])]) IsErr ].

Definition type_extended_writer_had_type_reader_drops_is_compatible : UnitTest := [
  mkCheck
    (JObject [])
    (JObject [("type", JString "string")]) IsOk ].

Definition exclusive_maximum_added_is_incompatible : UnitTest := [
  mkCheck
    (JObject [("exclusiveMaximum", JNumber (PosInt 100)); ("type", JString "number")])
    (JObject [("type", JString "number")]) IsErr ].

Definition exclusive_maximum_removed_is_compatible : UnitTest := [
  mkCheck
    (JObject [("type", JString "number")])
    (JObject [("exclusiveMaximum", JNumber (PosInt 100)); ("type", JString "number")]) IsOk ].

Definition exclusive_maximum_decreased_is_incompatible : UnitTest := [
  mkCheck
    (JObject [("exclusiveMaximum", JNumber (PosInt 50)); ("type", JString "number")])
    (JObject [("exclusiveMaximum", JNumber (PosInt 100)); ("type", JString "number")]) IsErr ].

Definition exclusive_maximum_increased_is_compatible : UnitTest := [
  mkCheck
    (JObject [("exclusiveMaximum", JNumber (PosInt 100)); ("type", JString "number")])
    (JObject [("exclusiveMaximum", JNumber (PosInt 50)); ("type", JString "number")]) IsOk ].

Definition exclusive_minimum_added_is_incompatible : UnitTest := [
  mkCheck
    (JObject [("exclusiveMinimum", JNumber (PosInt 5)); ("type", JString "number")])
    (JObject [("type", JString "number")]) IsErr ].

Definition exclusive_minimum_removed_is_compatible : UnitTest := [
  mkCheck
    (JObject [("type", JString "number")])
    (JObject [("exclusiveMinimum", JNumber (PosInt 5)); ("type", JString "number")]) IsOk ].

Definition exclusive_minimum_increased_is_incompatible : UnitTest := [
  mkCheck
    (JObject [("exclusiveMinimum", JNumber (PosInt 10)); ("type", JString "number")])
    (JObject [("exclusiveMinimum", JNumber (PosInt 5)); ("type", JString "number")]) IsErr ].

Definition exclusive_minimum_decreased_is_compatible : UnitTest := [
  mkCheck
    (JObject [("exclusiveMinimum", JNumber (PosInt 5)); ("type", JString "number")])
    (JObject [("exclusiveMinimum", JNumber (PosInt 10)); ("type", JString "number")]) IsOk ].

Definition multiple_of_added_is_incompatible : UnitTest := [
  mkCheck
    (JObject [("multipleOf", JNumber (PosInt 3)); ("type", JString "integer")])
    (JObject [("type", JString "integer")]) IsErr ].

Definition multiple_of_removed_is_compatible : UnitTest := [
  mkCheck
    (JObject [("type", JString "integer")])
    (JObject [("multipleOf", JNumber (PosInt 3)); ("type", JString "integer")]) IsOk ].

Definition multiple_of_changed_is_incompatible : UnitTest := [
  mkCheck
    (JObject [("multipleOf", JNumber (PosInt 3)); ("type", JString "integer")])
    (JObject [("multipleOf", JNumber (PosInt 2)); ("type", JString "integer")]) IsErr ].

Definition max_length_added_is_incompatible : UnitTest := [
  mkCheck
    (JObject [("maxLength", JNumber (PosInt 10)); ("type", JString "string")])
    (JObject [("type", JString "string")]) IsErr ].

Definition max_length_removed_is_compatible : UnitTest := [
  mkCheck
    (JObject [("type", JString "string")])
    (JObject [("maxLength", JNumber (PosInt 10)); ("type", JString "string")]) IsOk ].

Definition max_length_decreased_is_incompatible : UnitTest := [
  mkCheck
    (JObject [("maxLength", JNumber (PosInt 10)); ("type", JString "string")])
    (JObject [("maxLength", JNumber (PosInt 20)); ("type", JString "string")]) IsErr ].

Definition max_length_increased_is_compatible : UnitTest := [
  mkCheck
    (JObject [("maxLength", JNumber (PosInt 20)); ("type", JString "string")])
    (JObject [("maxLength", JNumber (PosInt 10)); ("type", JString "string")]) IsOk ].

Definition min_length_removed_is_compatible : UnitTest := [
  mkCheck
    (JObject [("type", JString "string")])
    (JObject [("minLength", JNumber (PosInt 3)); ("type", JString "string")]) IsOk ].

Definition min_length_decreased_is_compatible : UnitTest := [
  mkCheck
    (JObject [("minLength", JNumber (PosInt 2)); ("type", JString "string")])
    (JObject [("minLength", JNumber (PosInt 5)); ("type", JString "string")]) IsOk ].

Definition min_length_increased_is_incompatible : UnitTest := [
  mkCheck
    (JObject [("minLength", JNumber (PosInt 5)); ("type", JString "string")])
    (JObject [("minLength", JNumber (PosInt 2)); ("type", JString "string")]) IsErr ].

Definition pattern_added_is_incompatible : UnitTest := [
  mkCheck
    (JObject [("pattern", JString "^[a-z]+"); ("type", JString "string")])
    (JObject [("type", JString "string")]) IsErr ].

Definition pattern_removed_is_compatible : UnitTest := [
  mkCheck
    (JObject [("type", JString "string")])
    (JObject [("pattern", JString "^[a-z]+"); ("type", JString "string")]) IsOk ].

Definition pattern_changed_is_incompatible : UnitTest := [
  mkCheck
    (JObject [("pattern", JString "^[A-Z]+"); ("type", JString "string")])
    (JObject [("pattern", JString "^[a-z]+"); ("type", JString "string")]) IsErr ].

Definition max_items_added_is_incompatible : UnitTest := [
  mkCheck
    (JObject [("maxItems", JNumber (PosInt 5)); ("type", JString "array")])
    (JObject [("type", JString "array")]) IsErr ].

Definition max_items_removed_is_compatible : UnitTest := [
  mkCheck
    (JObject [("type", JString "array")])
    (JObject [("maxItems", JNumber (PosInt 5)); ("type", JString "array")]) IsOk ].

Definition max_items_decreased_is_incompatible : UnitTest := [
  mkCheck
    (JObject [("maxItems", JNumber (PosInt 5)); ("type", JString "array")])
    (JObject [("maxItems", JNumber (PosInt 10)); ("type", JString "array")]) IsErr ].

Definition max_items_increased_is_compatible : UnitTest := [
  mkCheck
    (JObject [("maxItems", JNumber (PosInt 10)); ("type", JString "array")])
    (JObject [("maxItems", JNumber (PosInt 5)); ("type", JString "array")]) IsOk ].

Definition min_items_added_is_incompatible : UnitTest := [
  mkCheck
    (JObject [("minItems", JNumber (PosInt 2)); ("type", JString "array")])
    (JObject [("type", JString "array")]) IsErr ].

Definition min_items_removed_is_compatible : UnitTest := [
  mkCheck
    (JObject [("type", JString "array")])
    (JObject [("minItems", JNumber (PosInt 2)); ("type", JString "array")]) IsOk ].

Definition min_items_decreased_is_compatible : UnitTest := [
  mkCheck
    (JObject [("minItems", JNumber (PosInt 2)); ("type", JString "array")])
    (JObject [("minItems", JNumber (PosInt 5)); ("type", JString "array")]) IsOk ].

Definition min_items_increased_is_incompatible : UnitTest := [
  mkCheck
    (JObject [("minItems", JNumber (PosInt 5)); ("type", JString "array")])
    (JObject [("minItems", JNumber (PosInt 2)); ("type", JString "array")]) IsErr ].

Definition additional_items_removed_is_incompatible : UnitTest := [
  mkCheck
    (JObject [("additionalItems", JBool false); ("items", JArray [JObject [("type", JString "string")]]);
     ("type", JString "array")])
    (JObject [("items", JArray [JObject [("type", JString "string")]]); ("type", JString "array")]) IsErr ].

Definition additional_items_added_is_compatible : UnitTest := [
  mkCheck
    (JObject [("items", JArray [JObject [("type", JString "string")]]); ("type", JString "array")])
    (JObject [("additionalItems", JBool false); ("items", JArray [JObject [("type", JString "string")]]);
     ("type", JString "array")]) IsOk ].

Definition max_properties_added_is_incompatible : UnitTest := [
  mkCheck
    (JObject [("maxProperties", JNumber (PosInt 3)); ("type", JString "object")])
    (JObject [("type", JString "object")]) IsErr ].

Definition max_properties_removed_is_compatible : UnitTest := [
  mkCheck
    (JObject [("type", JString "object")])
    (JObject [("maxProperties", JNumber (PosInt 3)); ("type", JString "object")]) IsOk ].

Definition max_properties_decreased_is_incompatible : UnitTest := [
  mkCheck
    (JObject [("maxProperties", JNumber (PosInt 3)); ("type", JString "object")])
    (JObject [("maxProperties", JNumber (PosInt 10)); ("type", JString "object")]) IsErr ].

Definition max_properties_increased_is_compatible : UnitTest := [
  mkCheck
    (JObject [("maxProperties", JNumber (PosInt 10)); ("type", JString "object")])
    (JObject [("maxProperties", JNumber (PosInt 3)); ("type", JString "object")]) IsOk ].

Definition min_properties_added_is_incompatible : UnitTest := [
  mkCheck
    (JObject [("minProperties", JNumber (PosInt 2)); ("type", JString "object")])
    (JObject [("type", JString "object")]) IsErr ].

Definition min_properties_removed_is_compatible : UnitTest := [
  mkCheck
    (JObject [("type", JString "object")])
    (JObject [("minProperties", JNumber (PosInt 2)); ("type", JString "object")]) IsOk ].

Definition min_properties_decreased_is_compatible : UnitTest := [
  mkCheck
    (JObject [("minProperties", JNumber (PosInt 2)); ("type", JString "object")])
    (JObject [("minProperties", JNumber (PosInt 5)); ("type", JString "object")]) IsOk ].

Definition min_properties_increased_is_incompatible : UnitTest := [
  mkCheck
    (JObject [("minProperties", JNumber (PosInt 5)); ("type", JString "object")])
    (JObject [("minProperties", JNumber (PosInt 2)); ("type", JString "object")]) IsErr ].

Definition enum_narrowed_is_incompatible : UnitTest := [
  mkCheck
    (JObject [("enum", JArray [JString "a"])])
    (JObject [("enum", JArray [JString "a"; JString "b"])]) IsErr ].

Definition enum_extended_is_compatible : UnitTest := [
  mkCheck
    (JObject [("enum", JArray [JString "a"; JString "b"])])
    (JObject [("enum", JArray [JString "a"])]) IsOk ].

Definition enum_changed_disjoint_is_incompatible : UnitTest := [
  mkCheck
    (JObject [("enum", JArray [JString "c"; JString "d"])])
    (JObject [("enum", JArray [JString "a"; JString "b"])]) IsErr ].

Definition const_changed_is_incompatible : UnitTest := [
  mkCheck
    (JObject [("const", JString "bar")])
    (JObject [("const", JString "foo")]) IsErr ].

Definition const_added_is_incompatible : UnitTest := [
  mkCheck
    (JObject [("const", JString "only"); ("type", JString "string")])
    (JObject [("type", JString "string")]) IsErr ].

Definition const_removed_is_compatible : UnitTest := [
  mkCheck
    (JObject [("type", JString "string")])
    (JObject [("const", JString "only"); ("type", JString "string")]) IsOk ].

Definition oneof_subschema_added_is_compatible : UnitTest := [
  mkCheck
    (JObject [("oneOf", JArray [JObject [("type", JString "string")]; JObject [("type", JString "integer")]])])
    (JObject [("oneOf", JArray [JObject [("type", JString "string")]])]) IsOk ].

Definition oneof_subschema_removed_is_incompatible : UnitTest := [
  mkCheck
    (JObject [("oneOf", JArray [JObject [("type", JString "string")]])])
    (JObject [("oneOf", JArray [JObject [("type", JString "string")]; JObject [("type", JString "integer")]])]) IsErr ].

Definition oneof_subschemas_disjoint_is_incompatible : UnitTest := [
  mkCheck
    (JObject [("oneOf", JArray [JObject [("type", JString "number")]; JObject [("type", JString "boolean")]])])
    (JObject [("oneOf", JArray [JObject [("type", JString "string")]; JObject [("type", JString "integer")]])]) IsErr ].

Definition allof_subschema_removed_is_compatible : UnitTest := [
  mkCheck
    (JObject [("allOf", JArray [JObject [("type", JString "object")]])])
    (JObject [("allOf", JArray [JObject [("type", JString "object")];
     JObject [("required", JArray [JString "a"])]])]) IsOk ].

Definition allof_subschemas_disjoint_is_incompatible : UnitTest := [
  mkCheck
    (JObject [("allOf", JArray [JObject [("type", JString "boolean")]])])
    (JObject [("allOf", JArray [JObject [("type", JString "string")]])]) IsErr ].

Definition not_both_sides_different_is_incompatible : UnitTest := [
  mkCheck
    (JObject [("not", JObject [("type", JString "integer")])])
    (JObject [("not", JObject [("type", JString "string")])]) IsErr ].

Definition not_same_both_sides_is_compatible : UnitTest := [
  mkCheck
    (JObject [("not", JObject [("type", JString "string")])])
    (JObject [("not", JObject [("type", JString "string")])]) IsOk ].

Definition combinator_keyword_mismatch_is_incompatible : UnitTest := [
  mkCheck
    (JObject [("anyOf", JArray [JObject [("type", JString "string")]])])
    (JObject [("allOf", JArray [JObject [("type", JString "string")]])]) IsErr ].

Definition combinator_one_side_absent_is_incompatible : UnitTest := [
  mkCheck
    (JObject [("type", JString "string")])
    (JObject [("allOf", JArray [JObject [("type", JString "string")]])]) IsErr ].

Definition combinator_reader_adds_is_incompatible : UnitTest := [
  mkCheck
    (JObject [("allOf", JArray [JObject [("type", JString "string")]])])
    (JObject [("type", JString "string")]) IsErr ].

Definition remote_ref_is_permissive : UnitTest := [
  mkCheck
    (JObject [("$ref", JString "http://example.com/other-schema")])
    (JObject [("$ref", JString "http://example.com/schema")]) Runs ].

Definition dangling_local_ref_is_permissive : UnitTest := [
  mkCheck
    (JObject [("type", JString "string")])
    (JObject [("$ref", JString "#/$defs/Missing")]) Runs ].

Definition ref_only_on_reader_side_resolves_vs_writer : UnitTest := [
  mkCheck
    (JObject [("$defs", JObject [("T", JObject [("type", JString "string")])]); ("$ref", JString "#/$defs/T")])
    (JObject [("type", JString "integer")]) IsErr ].

Definition ref_only_on_writer_side_resolves_vs_reader : UnitTest := [
  mkCheck
    (JObject [("type", JString "integer")])
    (JObject [("$defs", JObject [("T", JObject [("type", JString "integer")])]); ("$ref", JString "#/$defs/T")]) Runs ].

Definition dependency_added_is_incompatible : UnitTest := [
  mkCheck
    (JObject [("dependencies", JObject [("foo", JArray [JString "bar"])]); ("type", JString "object")])
    (JObject [("type", JString "object")]) IsErr ].

Definition dependency_removed_is_compatible : UnitTest := [
  mkCheck
    (JObject [("type", JString "object")])
    (JObject [("dependencies", JObject [("foo", JArray [JString "bar"])]); ("type", JString "object")]) IsOk ].

Definition dependent_required_added_is_compatible : UnitTest := [
  mkCheck
    (JObject [("dependentRequired", JObject [("foo", JArray [JString "bar"])]); ("type", JString "object")])
    (JObject [("type", JString "object")]) IsOk ].

Definition dependent_schemas_added_is_compatible : UnitTest := [
  mkCheck
    (JObject [("dependentSchemas", JObject [("foo", JObject [("required", JArray [JString "bar"])])]);
     ("type", JString "object")])
    (JObject [("type", JString "object")]) IsOk ].

Definition dependency_key_added_to_existing_map_is_incompatible : UnitTest := [
  mkCheck
    (JObject [("dependencies", JObject [("baz", JArray [JString "qux"]); ("foo", JArray [JString "bar"])]);
     ("type", JString "object")])
    (JObject [("dependencies", JObject [("foo", JArray [JString "bar"])]); ("type", JString "object")]) IsErr ].

Definition dependency_key_removed_from_existing_map_is_compatible : UnitTest := [
  mkCheck
    (JObject [("dependencies", JObject [("foo", JArray [JString "bar"])]); ("type", JString "object")])
    (JObject [("dependencies", JObject [("baz", JArray [JString "qux"]); ("foo", JArray [JString "bar"])]);
     ("type", JString "object")]) IsOk ].

Definition conditional_if_changed_is_incompatible : UnitTest := [
  mkCheck
    (JObject [("if", JObject [("required", JArray [JString "x"])]);
     ("then", JObject [("required", JArray [JString "b"])])])
    (JObject [("if", JObject [("required", JArray [JString "a"])]);
     ("then", JObject [("required", JArray [JString "b"])])]) IsErr ].

Definition conditional_then_changed_is_incompatible : UnitTest := [
  mkCheck
    (JObject [("if", JObject [("required", JArray [JString "a"])]);
     ("then", JObject [("required", JArray [JString "c"])])])
    (JObject [("if", JObject [("required", JArray [JString "a"])]);
     ("then", JObject [("required", JArray [JString "b"])])]) IsErr ].

Definition conditional_else_added_is_incompatible : UnitTest := [
  mkCheck
    (JObject [("else", JObject [("required", JArray [JString "c"])]);
     ("if", JObject [("required", JArray [JString "a"])]);
     ("then", JObject [("required", JArray [JString "b"])])])
    (JObject [("if", JObject [("required", JArray [JString "a"])]);
     ("then", JObject [("required", JArray [JString "b"])])]) IsErr ].

Definition conditional_else_removed_is_incompatible : UnitTest := [
  mkCheck
    (JObject [("if", JObject [("required", JArray [JString "a"])]);
     ("then", JObject [("required", JArray [JString "b"])])])
    (JObject [("else", JObject [("required", JArray [JString "c"])]);
     ("if", JObject [("required", JArray [JString "a"])]);
     ("then", JObject [("required", JArray [JString "b"])])]) IsErr ].

Definition conditional_same_both_sides_is_compatible : UnitTest := [
  mkCheck
    (JObject [("if", JObject [("required", JArray [JString "a"])]);
     ("then", JObject [("required", JArray [JString "b"])])])
    (JObject [("if", JObject [("required", JArray [JString "a"])]);
     ("then", JObject [("required", JArray [JString "b"])])]) IsOk ].

Definition conditional_only_on_reader_is_incompatible : UnitTest := [
  mkCheck
    (JObject [("if", JObject [("required", JArray [JString "a"])]);
     ("then", JObject [("required", JArray [JString "b"])]); ("type", JString "object")])
    (JObject [("type", JString "object")]) IsErr ].

Definition additional_properties_removed_is_incompatible : UnitTest := [
  mkCheck
    (JObject [("additionalProperties", JBool false); ("type", JString "object")])
    (JObject [("type", JString "object")]) IsErr ].

Definition additional_properties_added_is_compatible : UnitTest := [
  mkCheck
    (JObject [("type", JString "object")])
    (JObject [("additionalProperties", JBool false); ("type", JString "object")]) IsOk ].

Definition property_removed_from_closed_model_is_incompatible : UnitTest := [
  mkCheck
    (JObject [("additionalProperties", JBool false);
     ("properties", JObject [("a", JObject [("type", JString "integer")])]); ("type", JString "object")])
    (JObject [("additionalProperties", JBool false);
     ("properties", JObject [("a", JObject [("type", JString "integer")]);
     ("b", JObject [("type", JString "string")])]); ("type", JString "object")]) IsErr ].

Definition property_added_to_closed_model_is_compatible : UnitTest := [
  mkCheck
    (JObject [("additionalProperties", JBool false);
     ("properties", JObject [("a", JObject [("type", JString "integer")]);
     ("b", JObject [("type", JString "string")])]); ("type", JString "object")])
    (JObject [("additionalProperties", JBool false);
     ("properties", JObject [("a", JObject [("type", JString "integer")])]); ("type", JString "object")]) IsOk ].

Definition type_extended_superset_is_compatible : UnitTest := [
  mkCheck
    (JObject [("type", JArray [JString "string"; JString "integer"])])
    (JObject [("type", JString "string")]) IsOk ].

Definition property_removed_from_open_model_is_compatible : UnitTest := [
  mkCheck
    (JObject [("properties", JObject [("a", JObject [("type", JString "integer")])]);
     ("type", JString "object")])
    (JObject [("properties", JObject [("a", JObject [("type", JString "integer")]);
     ("b", JObject [("type", JString "string")])]); ("type", JString "object")]) IsOk ].

Definition ref_to_root_resolves : UnitTest := [
  mkCheck
    (JObject [("$ref", JString "#")])
    (JObject [("$ref", JString "#")]) Runs ].

Definition maximum_added_is_incompatible : UnitTest := [
  mkCheck
    (JObject [("maximum", JNumber (PosInt 100)); ("type", JString "number")])
    (JObject [("type", JString "number")]) IsErr ].

Definition maximum_removed_is_compatible : UnitTest := [
  mkCheck
    (JObject [("type", JString "number")])
    (JObject [("maximum", JNumber (PosInt 100)); ("type", JString "number")]) IsOk ].

Definition maximum_increased_is_compatible : UnitTest := [
  mkCheck
    (JObject [("maximum", JNumber (PosInt 100)); ("type", JString "number")])
    (JObject [("maximum", JNumber (PosInt 10)); ("type", JString "number")]) IsOk ].

Definition minimum_added_is_incompatible : UnitTest := [
  mkCheck
    (JObject [("minimum", JNumber (PosInt 1)); ("type", JString "number")])
    (JObject [("type", JString "number")]) IsErr ].

Definition minimum_removed_is_compatible : UnitTest := [
  mkCheck
    (JObject [("type", JString "number")])
    (JObject [("minimum", JNumber (PosInt 1)); ("type", JString "number")]) IsOk ].

Definition minimum_decreased_is_compatible : UnitTest := [
  mkCheck
    (JObject [("minimum", JNumber (PosInt 5)); ("type", JString "number")])
    (JObject [("minimum", JNumber (PosInt 10)); ("type", JString "number")]) IsOk ].

Definition minimum_increased_is_incompatible : UnitTest := [
  mkCheck
    (JObject [("minimum", JNumber (PosInt 10)); ("type", JString "number")])
    (JObject [("minimum", JNumber (PosInt 5)); ("type", JString "number")]) IsErr ].

(** ** The table of the functions *)

Inductive CompatibilityDisposition := Compatible | Incompatible | NoPanic.

Definition COMPATIBILITY_CASES : list (string * CompatibilityDisposition * UnitTest) := [
  ("add-property-open-model-is-incompatible", Incompatible, add_property_open_model_is_incompatible);
  ("add-required-property-closed-model-is-incompatible", Incompatible, add_required_property_closed_model_is_incompatible);
  ("type-narrowed-is-incompatible", Incompatible, type_narrowed_is_incompatible);
  ("required-added-is-incompatible", Incompatible, required_added_is_incompatible);
  ("enum-changes-do-not-panic", NoPanic, enum_changes_do_not_panic);
  ("maximum-lowered-is-incompatible", Incompatible, maximum_lowered_is_incompatible);
  ("min-length-added-is-incompatible", Incompatible, min_length_added_is_incompatible);
  ("max-items-changes-do-not-panic", NoPanic, max_items_changes_do_not_panic);
  ("items-type-change-is-incompatible", Incompatible, items_type_change_is_incompatible);
  ("anyof-subschema-added-does-not-panic", NoPanic, anyof_subschema_added_does_not_panic);
  ("allof-subschema-added-does-not-panic", NoPanic, allof_subschema_added_does_not_panic);
  ("ref-resolves-and-diffs-target", Incompatible, ref_resolves_and_diffs_target);
  ("recursive-ref-terminates", Compatible, recursive_ref_terminates);
  ("dependencies-and-conditionals-do-not-panic", NoPanic, dependencies_and_conditionals_do_not_panic);
  ("type-changed-neither-subset-is-incompatible", Incompatible, type_changed_neither_subset_is_incompatible);
  ("type-extended-writer-had-type-reader-drops-is-compatible", Compatible, type_extended_writer_had_type_reader_drops_is_compatible);
  ("exclusive-maximum-added-is-incompatible", Incompatible, exclusive_maximum_added_is_incompatible);
  ("exclusive-maximum-removed-is-compatible", Compatible, exclusive_maximum_removed_is_compatible);
  ("exclusive-maximum-decreased-is-incompatible", Incompatible, exclusive_maximum_decreased_is_incompatible);
  ("exclusive-maximum-increased-is-compatible", Compatible, exclusive_maximum_increased_is_compatible);
  ("exclusive-minimum-added-is-incompatible", Incompatible, exclusive_minimum_added_is_incompatible);
  ("exclusive-minimum-removed-is-compatible", Compatible, exclusive_minimum_removed_is_compatible);
  ("exclusive-minimum-increased-is-incompatible", Incompatible, exclusive_minimum_increased_is_incompatible);
  ("exclusive-minimum-decreased-is-compatible", Compatible, exclusive_minimum_decreased_is_compatible);
  ("multiple-of-added-is-incompatible", Incompatible, multiple_of_added_is_incompatible);
  ("multiple-of-removed-is-compatible", Compatible, multiple_of_removed_is_compatible);
  ("multiple-of-changed-is-incompatible", Incompatible, multiple_of_changed_is_incompatible);
  ("max-length-added-is-incompatible", Incompatible, max_length_added_is_incompatible);
  ("max-length-removed-is-compatible", Compatible, max_length_removed_is_compatible);
  ("max-length-decreased-is-incompatible", Incompatible, max_length_decreased_is_incompatible);
  ("max-length-increased-is-compatible", Compatible, max_length_increased_is_compatible);
  ("min-length-removed-is-compatible", Compatible, min_length_removed_is_compatible);
  ("min-length-decreased-is-compatible", Compatible, min_length_decreased_is_compatible);
  ("min-length-increased-is-incompatible", Incompatible, min_length_increased_is_incompatible);
  ("pattern-added-is-incompatible", Incompatible, pattern_added_is_incompatible);
  ("pattern-removed-is-compatible", Compatible, pattern_removed_is_compatible);
  ("pattern-changed-is-incompatible", Incompatible, pattern_changed_is_incompatible);
  ("max-items-added-is-incompatible", Incompatible, max_items_added_is_incompatible);
  ("max-items-removed-is-compatible", Compatible, max_items_removed_is_compatible);
  ("max-items-decreased-is-incompatible", Incompatible, max_items_decreased_is_incompatible);
  ("max-items-increased-is-compatible", Compatible, max_items_increased_is_compatible);
  ("min-items-added-is-incompatible", Incompatible, min_items_added_is_incompatible);
  ("min-items-removed-is-compatible", Compatible, min_items_removed_is_compatible);
  ("min-items-decreased-is-compatible", Compatible, min_items_decreased_is_compatible);
  ("min-items-increased-is-incompatible", Incompatible, min_items_increased_is_incompatible);
  ("additional-items-removed-is-incompatible", Incompatible, additional_items_removed_is_incompatible);
  ("additional-items-added-is-compatible", Compatible, additional_items_added_is_compatible);
  ("max-properties-added-is-incompatible", Incompatible, max_properties_added_is_incompatible);
  ("max-properties-removed-is-compatible", Compatible, max_properties_removed_is_compatible);
  ("max-properties-decreased-is-incompatible", Incompatible, max_properties_decreased_is_incompatible);
  ("max-properties-increased-is-compatible", Compatible, max_properties_increased_is_compatible);
  ("min-properties-added-is-incompatible", Incompatible, min_properties_added_is_incompatible);
  ("min-properties-removed-is-compatible", Compatible, min_properties_removed_is_compatible);
  ("min-properties-decreased-is-compatible", Compatible, min_properties_decreased_is_compatible);
  ("min-properties-increased-is-incompatible", Incompatible, min_properties_increased_is_incompatible);
  ("enum-narrowed-is-incompatible", Incompatible, enum_narrowed_is_incompatible);
  ("enum-extended-is-compatible", Compatible, enum_extended_is_compatible);
  ("enum-changed-disjoint-is-incompatible", Incompatible, enum_changed_disjoint_is_incompatible);
  ("const-changed-is-incompatible", Incompatible, const_changed_is_incompatible);
  ("const-added-is-incompatible", Incompatible, const_added_is_incompatible);
  ("const-removed-is-compatible", Compatible, const_removed_is_compatible);
  ("oneof-subschema-added-is-compatible", Compatible, oneof_subschema_added_is_compatible);
  ("oneof-subschema-removed-is-incompatible", Incompatible, oneof_subschema_removed_is_incompatible);
  ("oneof-subschemas-disjoint-is-incompatible", Incompatible, oneof_subschemas_disjoint_is_incompatible);
  ("allof-subschema-removed-is-compatible", Compatible, allof_subschema_removed_is_compatible);
  ("allof-subschemas-disjoint-is-incompatible", Incompatible, allof_subschemas_disjoint_is_incompatible);
  ("not-both-sides-different-is-incompatible", Incompatible, not_both_sides_different_is_incompatible);
  ("not-same-both-sides-is-compatible", Compatible, not_same_both_sides_is_compatible);
  ("combinator-keyword-mismatch-is-incompatible", Incompatible, combinator_keyword_mismatch_is_incompatible);
  ("combinator-one-side-absent-is-incompatible", Incompatible, combinator_one_side_absent_is_incompatible);
  ("combinator-reader-adds-is-incompatible", Incompatible, combinator_reader_adds_is_incompatible);
  ("remote-ref-is-permissive", Compatible, remote_ref_is_permissive);
  ("dangling-local-ref-is-permissive", Compatible, dangling_local_ref_is_permissive);
  ("ref-only-on-reader-side-resolves-vs-writer", Compatible, ref_only_on_reader_side_resolves_vs_writer);
  ("ref-only-on-writer-side-resolves-vs-reader", Compatible, ref_only_on_writer_side_resolves_vs_reader);
  ("dependency-added-is-incompatible", Incompatible, dependency_added_is_incompatible);
  ("dependency-removed-is-compatible", Compatible, dependency_removed_is_compatible);
  ("dependent-required-added-is-compatible", Compatible, dependent_required_added_is_compatible);
  ("dependent-schemas-added-is-compatible", Compatible, dependent_schemas_added_is_compatible);
  ("dependency-key-added-to-existing-map-is-incompatible", Incompatible, dependency_key_added_to_existing_map_is_incompatible);
  ("dependency-key-removed-from-existing-map-is-compatible", Compatible, dependency_key_removed_from_existing_map_is_compatible);
  ("conditional-if-changed-is-incompatible", Incompatible, conditional_if_changed_is_incompatible);
  ("conditional-then-changed-is-incompatible", Incompatible, conditional_then_changed_is_incompatible);
  ("conditional-else-added-is-incompatible", Incompatible, conditional_else_added_is_incompatible);
  ("conditional-else-removed-is-incompatible", Incompatible, conditional_else_removed_is_incompatible);
  ("conditional-same-both-sides-is-compatible", Compatible, conditional_same_both_sides_is_compatible);
  ("conditional-only-on-reader-is-incompatible", Incompatible, conditional_only_on_reader_is_incompatible);
  ("additional-properties-removed-is-incompatible", Incompatible, additional_properties_removed_is_incompatible);
  ("additional-properties-added-is-compatible", Compatible, additional_properties_added_is_compatible);
  ("property-removed-from-closed-model-is-incompatible", Incompatible, property_removed_from_closed_model_is_incompatible);
  ("property-added-to-closed-model-is-compatible", Compatible, property_added_to_closed_model_is_compatible);
  ("type-extended-superset-is-compatible", Compatible, type_extended_superset_is_compatible);
  ("property-removed-from-open-model-is-compatible", Compatible, property_removed_from_open_model_is_compatible);
  ("ref-to-root-resolves", Compatible, ref_to_root_resolves);
  ("maximum-added-is-incompatible", Incompatible, maximum_added_is_incompatible);
  ("maximum-removed-is-compatible", Compatible, maximum_removed_is_compatible);
  ("maximum-increased-is-compatible", Compatible, maximum_increased_is_compatible);
  ("minimum-added-is-incompatible", Incompatible, minimum_added_is_incompatible);
  ("minimum-removed-is-compatible", Compatible, minimum_removed_is_compatible);
  ("minimum-decreased-is-compatible", Compatible, minimum_decreased_is_compatible);
  ("minimum-increased-is-incompatible", Incompatible, minimum_increased_is_incompatible) ].

Lemma compatibility_families_are_named_and_table_driven :
  forallb (λ c, passes c.2) COMPATIBILITY_CASES = true.
Proof. vm_compute. reflexivity. Qed.

(** The test does not look at the table's dispositions. Where one says [Compatible] or
    [Incompatible], the check agrees, but for one case filed as compatible. *)
Definition disposed (d : CompatibilityDisposition) (c : UnitCheck) : bool :=
  run_check (mkCheck (uc_reader c) (uc_writer c)
    match d with Compatible => IsOk | Incompatible => IsErr | NoPanic => Runs end).

Definition misfiled : list string :=
  omap (λ c, if forallb (disposed c.1.2) c.2 then None else Some c.1.1) COMPATIBILITY_CASES.

Lemma misfiled_cases : misfiled = ["ref-only-on-reader-side-resolves-vs-writer"].
Proof. vm_compute. reflexivity. Qed.

(** ** The verdicts on single differences (compat.rs) *)

Definition representative_verdicts : list (JsonDiff.Kind * bool) := [
  (TypeExtended, true); (TypeNarrowed, false);
  (TypeChanged, false); (PropertyAddedToOpenContentModel, false);
  (PropertyRemovedFromOpenContentModel, true); (PropertyAddedToClosedContentModel, true);
  (PropertyRemovedFromClosedContentModel, false); (RequiredAttributeAdded, false);
  (RequiredAttributeRemoved, true); (AdditionalPropertiesRemoved, false);
  (AdditionalPropertiesAdded, true); (EnumArrayNarrowed, false);
  (EnumArrayExtended, true); (EnumArrayChanged, false);
  (MaximumAdded, false); (MaximumRemoved, true);
  (MaximumDecreased, false); (MaximumIncreased, true);
  (MinimumAdded, false); (MinimumRemoved, true);
  (MinimumDecreased, true); (MinimumIncreased, false);
  (MultipleOfAdded, false); (MultipleOfRemoved, true);
  (MultipleOfReduced, true); (MultipleOfExpanded, false);
  (MultipleOfChanged, false); (MaxLengthAdded, false);
  (MaxLengthRemoved, true); (PatternAdded, false);
  (PatternRemoved, true); (PatternChanged, false);
  (MaxItemsAdded, false); (MaxItemsRemoved, true);
  (MinItemsAdded, false); (MinItemsRemoved, true);
  (AdditionalItemsRemoved, false); (AdditionalItemsAdded, true);
  (UniqueItemsAdded, false); (UniqueItemsRemoved, true);
  (MaxPropertiesAdded, false); (MaxPropertiesRemoved, true);
  (MinPropertiesAdded, false); (MinPropertiesRemoved, true);
  (CombinedTypeChanged, false); (CombinedTypeExtended, true);
  (ProductTypeExtended, false); (ProductTypeNarrowed, true);
  (SumTypeExtended, true); (SumTypeNarrowed, false);
  (NotTypeExtended, false); (NotTypeNarrowed, true);
  (CombinedTypeSubschemasChanged, false); (DependencyArrayAdded, false);
  (DependencyArrayRemoved, true); (DependencyArrayExtended, false);
  (DependencyArrayNarrowed, true); (DependencySchemaAdded, false);
  (DependencySchemaRemoved, true); (ConditionalChanged, false) ].

Lemma representative_verdicts_match :
  forallb (λ c, Bool.eqb (JsonDiff.is_backward_compatible c.1) c.2) representative_verdicts = true.
Proof. reflexivity. Qed.

(** ** The diff (diff.rs) *)

Section diff_tests.
#[local] Existing Instance prefix_regex.
#[local] Existing Instance rfc6901.
#[local] Existing Instance tree_serde.

Definition typed (t : string) : json := JObject [("type", JString t)].

Definition referenced : json :=
  JObject [("$defs", JObject [("T", typed "integer")]); ("$ref", JString "#/$defs/T")].
Definition recursive_root : json := JObject [("$ref", JString "#")].

(** References are resolved before the diff, and cycles end. *)
Lemma references_resolve_before_diffing_and_cycles_terminate :
  compare_with_refs test_fuel referenced (typed "integer") [] [] = Some [] ∧
  compare_with_refs test_fuel (typed "integer") referenced [] [] = Some [] ∧
  compare_with_refs test_fuel recursive_root recursive_root [] [] = Some [].
Proof. by vm_compute. Qed.

Definition empty_ctx : Ctx := mkCtx (JObject []) (JObject []) [] [].

Lemma branch_matching_requires_compatible_coverage :
  let recur := compare_schema test_fuel empty_ctx in
  let old := [typed "integer"; typed "string"] in
  maximum_matching recur old [typed "string"; typed "number"] = Some 2%nat ∧
  maximum_matching recur old [typed "boolean"; typed "number"] = Some 1%nat ∧
  branch_compatible recur (typed "integer") (typed "number") = Some true.
Proof. by vm_compute. Qed.
End diff_tests.

(** ** The golden matrix *)

(** A case: the writer is registered under a subject with the level, then the reader is checked
    against the latest version. *)
Record GoldenCase := mkGolden { gc_level : string; gc_writer : json; gc_reader : json; gc_compatible : bool }.

Section golden.
#[local] Existing Instance prefix_regex.
#[local] Existing Instance rfc6901.
#[local] Existing Instance tree_serde.
#[local] Instance golden_avro : AvroLib := {|
  avro_schema := unit; parse_str _ := Err "no Avro"; parse_list _ := Err "no Avro"; can_read _ _ := Err "no Avro" |}.
#[local] Instance golden_proto : ProtoLib := {|
  protox_parse _ _ := Err "no Protobuf"; link_files _ := Err "no Protobuf"; encode_hex _ := "" |}.

(** The engine's verdict; [None]: an error, or a diff that did not end. *)
Definition engine_verdict (c : GoldenCase) : option bool :=
  let text := pair_text (gc_reader c) (gc_writer c) in
  let fmt := @formats golden_avro tree_serde text golden_proto prefix_regex rfc6901 test_fuel (Ok ()) in
  let ends a b := match @JsonDiff.check prefix_regex rfc6901 tree_serde text test_fuel a b [] [] with
                  | Some _ => true | None => false end in
  let snap := set_subject_compat "s" (gc_level c) default_store in
  if negb (ends "reader" "writer" && ends "writer" "reader") then None
  else
    match @Store.register fmt "s" Json "writer" [] None snap with
    | Ok (_, snap) =>
        match @check_against_version fmt snap "s" Json "reader" [] None with
        | Ok v => Some (is_compatible v)
        | Err _ => None
        end
    | Err _ => None
    end.

(** Each pair of documents with the verdicts under the levels. *)
Definition golden_pairs : list (string * json * json * list (string * bool)) := [
  ("add_prop_open",
    JObject [("properties", JObject [("a", JObject [("type", JString "integer")])]); ("type", JString "object")],
    JObject [("properties", JObject [("a", JObject [("type", JString "integer")]);
    ("b", JObject [("type", JString "string")])]); ("type", JString "object")],
    [("BACKWARD", false); ("FORWARD", true)]);
  ("remove_prop_open",
    JObject [("properties", JObject [("a", JObject [("type", JString "integer")]);
    ("b", JObject [("type", JString "string")])]); ("type", JString "object")],
    JObject [("properties", JObject [("a", JObject [("type", JString "integer")])]); ("type", JString "object")],
    [("BACKWARD", true); ("FORWARD", false); ("FULL", false)]);
  ("add_prop_closed",
    JObject [("additionalProperties", JBool false);
    ("properties", JObject [("a", JObject [("type", JString "integer")])]); ("type", JString "object")],
    JObject [("additionalProperties", JBool false);
    ("properties", JObject [("a", JObject [("type", JString "integer")]);
    ("b", JObject [("type", JString "string")])]); ("type", JString "object")],
    [("BACKWARD", true); ("FORWARD", false); ("FULL", false)]);
  ("remove_prop_closed",
    JObject [("additionalProperties", JBool false);
    ("properties", JObject [("a", JObject [("type", JString "integer")]);
    ("b", JObject [("type", JString "string")])]); ("type", JString "object")],
    JObject [("additionalProperties", JBool false);
    ("properties", JObject [("a", JObject [("type", JString "integer")])]); ("type", JString "object")],
    [("BACKWARD", false); ("FORWARD", true)]);
  ("required_added",
    JObject [("properties", JObject [("a", JObject [("type", JString "integer")])]); ("type", JString "object")],
    JObject [("properties", JObject [("a", JObject [("type", JString "integer")])]);
    ("required", JArray [JString "a"]); ("type", JString "object")],
    [("BACKWARD", false); ("FORWARD", true)]);
  ("required_removed",
    JObject [("properties", JObject [("a", JObject [("type", JString "integer")])]);
    ("required", JArray [JString "a"]); ("type", JString "object")],
    JObject [("properties", JObject [("a", JObject [("type", JString "integer")])]); ("type", JString "object")],
    [("BACKWARD", true); ("FORWARD", false); ("FULL", false)]);
  ("addl_false_to_true",
    JObject [("additionalProperties", JBool false); ("type", JString "object")],
    JObject [("additionalProperties", JBool true); ("type", JString "object")],
    [("BACKWARD", true); ("FORWARD", false); ("FULL", false)]);
  ("addl_true_to_false",
    JObject [("additionalProperties", JBool true); ("type", JString "object")],
    JObject [("additionalProperties", JBool false); ("type", JString "object")],
    [("BACKWARD", false); ("FORWARD", true)]);
  ("type_widen",
    JObject [("type", JString "string")],
    JObject [("type", JArray [JString "string"; JString "null"])],
    [("BACKWARD", true); ("FORWARD", false); ("FULL", false)]);
  ("type_narrow",
    JObject [("type", JArray [JString "string"; JString "null"])],
    JObject [("type", JString "string")],
    [("BACKWARD", false); ("FORWARD", true)]);
  ("type_changed",
    JObject [("type", JString "string")],
    JObject [("type", JString "integer")],
    [("BACKWARD", false); ("FORWARD", false); ("FULL", false)]);
  ("enum_extended",
    JObject [("enum", JArray [JString "a"])],
    JObject [("enum", JArray [JString "a"; JString "b"])],
    [("BACKWARD", true); ("FORWARD", false); ("FULL", false)]);
  ("enum_narrowed",
    JObject [("enum", JArray [JString "a"; JString "b"])],
    JObject [("enum", JArray [JString "a"])],
    [("BACKWARD", false); ("FORWARD", true)]);
  ("maximum_added",
    JObject [("type", JString "integer")],
    JObject [("maximum", JNumber (PosInt 10)); ("type", JString "integer")],
    [("BACKWARD", false); ("FORWARD", true)]);
  ("maximum_removed",
    JObject [("maximum", JNumber (PosInt 10)); ("type", JString "integer")],
    JObject [("type", JString "integer")],
    [("BACKWARD", true); ("FORWARD", false); ("FULL", false)]);
  ("maximum_increased",
    JObject [("maximum", JNumber (PosInt 10)); ("type", JString "integer")],
    JObject [("maximum", JNumber (PosInt 100)); ("type", JString "integer")],
    [("BACKWARD", true); ("FORWARD", false); ("FULL", false)]);
  ("maximum_decreased",
    JObject [("maximum", JNumber (PosInt 100)); ("type", JString "integer")],
    JObject [("maximum", JNumber (PosInt 10)); ("type", JString "integer")],
    [("BACKWARD", false); ("FORWARD", true)]);
  ("minimum_added",
    JObject [("type", JString "integer")],
    JObject [("minimum", JNumber (PosInt 1)); ("type", JString "integer")],
    [("BACKWARD", false); ("FORWARD", true)]);
  ("minimum_removed",
    JObject [("minimum", JNumber (PosInt 1)); ("type", JString "integer")],
    JObject [("type", JString "integer")],
    [("BACKWARD", true); ("FORWARD", false); ("FULL", false)]);
  ("exclusive_max_added",
    JObject [("type", JString "integer")],
    JObject [("exclusiveMaximum", JNumber (PosInt 10)); ("type", JString "integer")],
    [("BACKWARD", false); ("FORWARD", true)]);
  ("multiple_of_added",
    JObject [("type", JString "integer")],
    JObject [("multipleOf", JNumber (PosInt 5)); ("type", JString "integer")],
    [("BACKWARD", false); ("FORWARD", true)]);
  ("min_length_added",
    JObject [("type", JString "string")],
    JObject [("minLength", JNumber (PosInt 3)); ("type", JString "string")],
    [("BACKWARD", false); ("FORWARD", true)]);
  ("min_length_removed",
    JObject [("minLength", JNumber (PosInt 3)); ("type", JString "string")],
    JObject [("type", JString "string")],
    [("BACKWARD", true); ("FORWARD", false); ("FULL", false)]);
  ("max_length_added",
    JObject [("type", JString "string")],
    JObject [("maxLength", JNumber (PosInt 9)); ("type", JString "string")],
    [("BACKWARD", false); ("FORWARD", true)]);
  ("pattern_added",
    JObject [("type", JString "string")],
    JObject [("pattern", JString "^x"); ("type", JString "string")],
    [("BACKWARD", false); ("FORWARD", true)]);
  ("min_items_added",
    JObject [("type", JString "array")],
    JObject [("minItems", JNumber (PosInt 1)); ("type", JString "array")],
    [("BACKWARD", false); ("FORWARD", true)]);
  ("max_items_added",
    JObject [("type", JString "array")],
    JObject [("maxItems", JNumber (PosInt 5)); ("type", JString "array")],
    [("BACKWARD", false); ("FORWARD", true)]);
  ("items_type_change",
    JObject [("items", JObject [("type", JString "integer")]); ("type", JString "array")],
    JObject [("items", JObject [("type", JString "string")]); ("type", JString "array")],
    [("BACKWARD", false); ("FORWARD", false); ("FULL", false)]);
  ("min_properties_added",
    JObject [("type", JString "object")],
    JObject [("minProperties", JNumber (PosInt 1)); ("type", JString "object")],
    [("BACKWARD", false); ("FORWARD", true)]);
  ("anyof_subschema_added",
    JObject [("anyOf", JArray [JObject [("type", JString "string")]])],
    JObject [("anyOf", JArray [JObject [("type", JString "string")]; JObject [("type", JString "integer")]])],
    [("BACKWARD", true); ("FORWARD", false); ("FULL", false)]);
  ("anyof_subschema_removed",
    JObject [("anyOf", JArray [JObject [("type", JString "string")]; JObject [("type", JString "integer")]])],
    JObject [("anyOf", JArray [JObject [("type", JString "string")]])],
    [("BACKWARD", false); ("FORWARD", true)]);
  ("allof_subschema_added",
    JObject [("allOf", JArray [JObject [("type", JString "object")]])],
    JObject [("allOf", JArray [JObject [("type", JString "object")];
    JObject [("required", JArray [JString "a"]); ("type", JString "object")]])],
    [("BACKWARD", false); ("FORWARD", true)]);
  ("oneof_subschema_added",
    JObject [("oneOf", JArray [JObject [("type", JString "string")]])],
    JObject [("oneOf", JArray [JObject [("type", JString "string")]; JObject [("type", JString "integer")]])],
    [("BACKWARD", true); ("FORWARD", false); ("FULL", false)]);
  ("not_added",
    JObject [("type", JString "object")],
    JObject [("not", JObject [("type", JString "string")])],
    [("BACKWARD", false); ("FORWARD", false); ("FULL", false)]);
  ("ref_target_type_change",
    JObject [("$defs", JObject [("T", JObject [("type", JString "integer")])]); ("$ref", JString "#/$defs/T")],
    JObject [("$defs", JObject [("T", JObject [("type", JString "string")])]); ("$ref", JString "#/$defs/T")],
    [("BACKWARD", false); ("FORWARD", false); ("FULL", false)]);
  ("dependency_added",
    JObject [("type", JString "object")],
    JObject [("dependencies", JObject [("a", JArray [JString "b"])]); ("type", JString "object")],
    [("BACKWARD", false); ("FORWARD", true)]);
  ("if_then_added",
    JObject [("type", JString "object")],
    JObject [("if", JObject [("required", JArray [JString "a"])]);
    ("then", JObject [("required", JArray [JString "b"])]); ("type", JString "object")],
    [("BACKWARD", false); ("FORWARD", false); ("FULL", false)]);
  ("inline_to_ref",
    JObject [("type", JString "integer")],
    JObject [("$defs", JObject [("T", JObject [("type", JString "integer")])]); ("$ref", JString "#/$defs/T")],
    [("BACKWARD", true); ("FORWARD", true); ("FULL", true)]);
  ("ref_to_inline",
    JObject [("$defs", JObject [("T", JObject [("type", JString "integer")])]); ("$ref", JString "#/$defs/T")],
    JObject [("type", JString "integer")],
    [("BACKWARD", true); ("FORWARD", true); ("FULL", true)]);
  ("closed_to_open_removed_property",
    JObject [("additionalProperties", JBool false);
    ("properties", JObject [("a", JObject [("type", JString "integer")]);
    ("b", JObject [("type", JString "string")])]); ("type", JString "object")],
    JObject [("properties", JObject [("a", JObject [("type", JString "integer")])]); ("type", JString "object")],
    [("BACKWARD", true); ("FORWARD", false); ("FULL", false)]);
  ("pattern_property_covered",
    JObject [("patternProperties", JObject [("^x", JObject [("type", JString "string")])]);
    ("type", JString "object")],
    JObject [("patternProperties", JObject [("^x", JObject [("type", JString "string")])]);
    ("properties", JObject [("x", JObject [("type", JString "string")])]); ("type", JString "object")],
    [("BACKWARD", true); ("FORWARD", true); ("FULL", true)]);
  ("required_existing_with_default",
    JObject [("properties", JObject [("a", JObject [("default", JString ""); ("type", JString "string")])]);
    ("type", JString "object")],
    JObject [("properties", JObject [("a", JObject [("default", JString ""); ("type", JString "string")])]);
    ("required", JArray [JString "a"]); ("type", JString "object")],
    [("BACKWARD", true); ("FORWARD", true); ("FULL", true)]);
  ("required_added_closed_with_default",
    JObject [("additionalProperties", JBool false); ("type", JString "object")],
    JObject [("additionalProperties", JBool false);
    ("properties", JObject [("a", JObject [("default", JString ""); ("type", JString "string")])]);
    ("required", JArray [JString "a"]); ("type", JString "object")],
    [("BACKWARD", true); ("FORWARD", false); ("FULL", false)]);
  ("additional_properties_narrowed",
    JObject [("type", JString "object")],
    JObject [("additionalProperties", JObject [("type", JString "string")]); ("type", JString "object")],
    [("BACKWARD", false); ("FORWARD", true)]);
  ("additional_properties_schema_changed",
    JObject [("additionalProperties", JObject [("type", JString "integer")]); ("type", JString "object")],
    JObject [("additionalProperties", JObject [("type", JString "string")]); ("type", JString "object")],
    [("BACKWARD", false); ("FORWARD", false); ("FULL", false)]);
  ("plain_widened_to_anyof",
    JObject [("type", JString "string")],
    JObject [("anyOf", JArray [JObject [("type", JString "string")]; JObject [("type", JString "integer")]])],
    [("BACKWARD", true); ("FORWARD", false); ("FULL", false)]);
  ("anyof_branch_relaxed",
    JObject [("anyOf", JArray [JObject [("maximum", JNumber (PosInt 5)); ("type", JString "integer")]])],
    JObject [("anyOf", JArray [JObject [("maximum", JNumber (PosInt 10)); ("type", JString "integer")]])],
    [("BACKWARD", true); ("FORWARD", false); ("FULL", false)]);
  ("oneof_to_anyof",
    JObject [("oneOf", JArray [JObject [("type", JString "string")]])],
    JObject [("anyOf", JArray [JObject [("type", JString "string")]])],
    [("BACKWARD", true); ("FORWARD", false); ("FULL", false)]);
  ("not_subschema_narrowed",
    JObject [("not", JObject [("type", JString "number")])],
    JObject [("not", JObject [("type", JString "integer")])],
    [("BACKWARD", true); ("FORWARD", false); ("FULL", false)]);
  ("second_combinator_narrowed",
    JObject [("allOf", JArray [JObject [("type", JString "object")]]);
    ("anyOf", JArray [JObject [("type", JString "string")]; JObject [("type", JString "integer")]])],
    JObject [("allOf", JArray [JObject [("type", JString "object")]]);
    ("anyOf", JArray [JObject [("type", JString "string")]])],
    [("BACKWARD", false); ("FORWARD", true)]);
  ("tuple_positional_type_change",
    JObject [("items", JArray [JObject [("type", JString "integer")]]); ("type", JString "array")],
    JObject [("items", JArray [JObject [("type", JString "string")]]); ("type", JString "array")],
    [("BACKWARD", false); ("FORWARD", false); ("FULL", false)]);
  ("items_schema_to_tuple",
    JObject [("items", JObject [("type", JString "integer")]); ("type", JString "array")],
    JObject [("items", JArray [JObject [("type", JString "integer")]]); ("type", JString "array")],
    [("BACKWARD", false); ("FORWARD", false); ("FULL", false)]);
  ("items_tuple_to_schema",
    JObject [("items", JArray [JObject [("type", JString "integer")]]); ("type", JString "array")],
    JObject [("items", JObject [("type", JString "integer")]); ("type", JString "array")],
    [("BACKWARD", false); ("FORWARD", false); ("FULL", false)]);
  ("unique_items_added",
    JObject [("type", JString "array")],
    JObject [("type", JString "array"); ("uniqueItems", JBool true)],
    [("BACKWARD", false); ("FORWARD", true)]);
  ("unique_items_removed",
    JObject [("type", JString "array"); ("uniqueItems", JBool true)],
    JObject [("type", JString "array")],
    [("BACKWARD", true); ("FORWARD", false); ("FULL", false)]);
  ("integer_to_number",
    JObject [("type", JString "integer")],
    JObject [("type", JString "number")],
    [("BACKWARD", true); ("FORWARD", false); ("FULL", false)]);
  ("number_to_integer",
    JObject [("type", JString "number")],
    JObject [("type", JString "integer")],
    [("BACKWARD", false); ("FORWARD", true)]);
  ("multiple_of_reduced",
    JObject [("multipleOf", JNumber (PosInt 4)); ("type", JString "integer")],
    JObject [("multipleOf", JNumber (PosInt 2)); ("type", JString "integer")],
    [("BACKWARD", true); ("FORWARD", false); ("FULL", false)]);
  ("multiple_of_expanded",
    JObject [("multipleOf", JNumber (PosInt 2)); ("type", JString "integer")],
    JObject [("multipleOf", JNumber (PosInt 4)); ("type", JString "integer")],
    [("BACKWARD", false); ("FORWARD", true)]) ].

Definition golden_cases : list GoldenCase :=
  '(_, writer, reader, verdicts) ← golden_pairs; '(level, compatible) ← verdicts;
  [mkGolden level writer reader compatible].

(** All 152 verdicts of the matrix are the engine's. *)
Lemma json_engine_matches_cp_verdicts :
  length golden_cases = 152%nat ∧
  forallb (λ c, bool_decide (engine_verdict c = Some (gc_compatible c))) golden_cases = true.
Proof. vm_compute. split; reflexivity. Qed.
End golden.
