(* ===== verification/ProtoTests.v ===== *)
(** * The Protobuf format against its own tests

    The cases of the unit tests of the format (format/protobuf/mod.rs) and the golden matrix of the
    verdicts a Confluent registry gives (tests/fixtures/compat/protobuf_matrix.json), run through the
    definitions. The texts of the tests are given as the descriptors protox's parser makes of
    them: named types are not resolved, a map field has its entry message, an optional field of
    proto3 its synthetic oneof. *)

From stdpp Require Import base gmap strings list.
From Stdlib Require Import ZArith.
From S2P Require Import Prelude Text Float Json Types Store Record RecordFacts Descriptor ProtoText Matching JsonDiff ProtoDiff AvroFormat Formats Compat.

#[local] Open Scope Z_scope.

(** ** The files *)

Definition proto_0 : FileDescriptorProto :=
  mkFile (Some "schema.proto") None [] [mkMessage (Some "U") [mkField (Some "id") (Some 1) (Some LOptional)
  (Some TInt32) None None None; mkField (Some "x") (Some 2) (Some LOptional) (Some TInt32) None None None] [] []
  [] None [] []] [] [] (Some "proto3").
Definition proto_1 : FileDescriptorProto :=
  mkFile (Some "schema.proto") None [] [mkMessage (Some "U") [mkField (Some "id") (Some 1) (Some LOptional)
  (Some TInt32) None None None] [] [] [] None [] []] [] [] (Some "proto3").
Definition proto_2 : FileDescriptorProto :=
  mkFile (Some "schema.proto") None [] [mkMessage (Some "U") [mkField (Some "id") (Some 1) (Some LOptional)
  (Some TInt64) None None None] [] [] [] None [] []] [] [] (Some "proto3").
Definition proto_3 : FileDescriptorProto :=
  mkFile (Some "schema.proto") None [] [mkMessage (Some "U") [mkField (Some "id") (Some 1) (Some LOptional)
  (Some TString) None None None] [] [] [] None [] []] [] [] (Some "proto3").
Definition proto_4 : FileDescriptorProto :=
  mkFile (Some "schema.proto") None [] [mkMessage (Some "U") [mkField (Some "id") (Some 1) (Some LRepeated)
  (Some TInt32) None None None] [] [] [] None [] []] [] [] (Some "proto3").
Definition proto_5 : FileDescriptorProto :=
  mkFile (Some "schema.proto") None [] [mkMessage (Some "M") [] [] [] [] None [] []; mkMessage (Some "U")
  [mkField (Some "id") (Some 1) (Some LOptional) None (Some "M") None None] [] [] [] None [] []] [] []
  (Some "proto3").
Definition proto_6 : FileDescriptorProto :=
  mkFile (Some "schema.proto") None [] [mkMessage (Some "U") [mkField (Some "a") (Some 1) (Some LOptional)
  (Some TInt32) None (Some 0) None; mkField (Some "b") (Some 2) (Some LOptional) (Some TInt32) None (Some 0)
  None] [] [] [Some "x"] None [] []] [] [] (Some "proto3").
Definition proto_7 : FileDescriptorProto :=
  mkFile (Some "schema.proto") None [] [mkMessage (Some "U") [mkField (Some "a") (Some 1) (Some LOptional)
  (Some TInt32) None None None; mkField (Some "b") (Some 2) (Some LOptional) (Some TInt32) None None None] [] []
  [] None [] []] [] [] (Some "proto3").
Definition proto_8 : FileDescriptorProto :=
  mkFile (Some "schema.proto") None [] [mkMessage (Some "U") [mkField (Some "a") (Some 1) (Some LOptional)
  (Some TInt32) None (Some 0) (Some true)] [] [] [Some "_a"] None [] []] [] [] (Some "proto3").
Definition proto_9 : FileDescriptorProto :=
  mkFile (Some "schema.proto") None [] [mkMessage (Some "U") [mkField (Some "a") (Some 1) (Some LOptional)
  (Some TInt32) None None None] [] [] [] None [] []] [] [] (Some "proto3").
Definition proto_10 : FileDescriptorProto :=
  mkFile (Some "schema.proto") None [] [mkMessage (Some "U") [mkField (Some "id") (Some 1) (Some LOptional)
  (Some TInt32) None None None] [] [] [] None [mkRange (Some 2) (Some 3)] []] [] [] (Some "proto3").
Definition proto_11 : FileDescriptorProto :=
  mkFile (Some "schema.proto") None [] [mkMessage (Some "U") [mkField (Some "m") (Some 1) (Some LRepeated)
  (Some TMessage) (Some "MEntry") None None] [mkMessage (Some "MEntry") [mkField (Some "key") (Some 1)
  (Some LOptional) (Some TString) None None None; mkField (Some "value") (Some 2) (Some LOptional)
  (Some TString) None None None] [] [] [] (Some true) [] []] [] [] None [] []] [] [] (Some "proto3").
Definition proto_12 : FileDescriptorProto :=
  mkFile (Some "schema.proto") None [] [mkMessage (Some "U") [mkField (Some "m") (Some 1) (Some LRepeated)
  (Some TMessage) (Some "MEntry") None None] [mkMessage (Some "MEntry") [mkField (Some "key") (Some 1)
  (Some LOptional) (Some TString) None None None; mkField (Some "value") (Some 2) (Some LOptional) (Some TInt32)
  None None None] [] [] [] (Some true) [] []] [] [] None [] []] [] [] (Some "proto3").
Definition proto_13 : FileDescriptorProto :=
  mkFile (Some "schema.proto") None [] [mkMessage (Some "U") [mkField (Some "e") (Some 1) (Some LOptional)
  None (Some "E") None None] [] [] [] None [] []] [mkEnum (Some "E") [(Some 0, Some "A"); (Some 1, Some "B")]]
  [] (Some "proto3").
Definition proto_14 : FileDescriptorProto :=
  mkFile (Some "schema.proto") None [] [mkMessage (Some "U") [mkField (Some "e") (Some 1) (Some LOptional)
  None (Some "E") None None] [] [] [] None [] []] [mkEnum (Some "E") [(Some 0, Some "A")]] [] (Some "proto3").
Definition proto_15 : FileDescriptorProto :=
  mkFile (Some "schema.proto") None [] [mkMessage (Some "U") [mkField (Some "n") (Some 1) (Some LOptional)
  None (Some "N") None None] [mkMessage (Some "N") [mkField (Some "a") (Some 1) (Some LOptional) (Some TString)
  None None None] [] [] [] None [] []] [] [] None [] []] [] [] (Some "proto3").
Definition proto_16 : FileDescriptorProto :=
  mkFile (Some "schema.proto") None [] [mkMessage (Some "U") [mkField (Some "n") (Some 1) (Some LOptional)
  None (Some "N") None None] [mkMessage (Some "N") [mkField (Some "a") (Some 1) (Some LOptional) (Some TInt32)
  None None None] [] [] [] None [] []] [] [] None [] []] [] [] (Some "proto3").
Definition proto_17 : FileDescriptorProto :=
  mkFile (Some "schema.proto") (Some "b") [] [mkMessage (Some "U") [mkField (Some "id") (Some 1)
  (Some LOptional) (Some TInt32) None None None] [] [] [] None [] []] [] [] (Some "proto3").
Definition proto_18 : FileDescriptorProto :=
  mkFile (Some "schema.proto") (Some "a") [] [mkMessage (Some "U") [mkField (Some "id") (Some 1)
  (Some LOptional) (Some TInt32) None None None] [] [] [] None [] []] [] [] (Some "proto3").
Definition proto_19 : FileDescriptorProto :=
  mkFile (Some "schema.proto") None [] [mkMessage (Some "U") [mkField (Some "id") (Some 1) (Some LOptional)
  None (Some "E") None None] [] [] [] None [] []] [mkEnum (Some "E") [(Some 0, Some "A")]] [] (Some "proto3").
Definition proto_20 : FileDescriptorProto :=
  mkFile (Some "schema.proto") None [] [mkMessage (Some "U") [mkField (Some "id") (Some 1) (Some LOptional)
  (Some TInt32) None None None] [] [] [] None [] []; mkMessage (Some "V") [mkField (Some "a") (Some 1)
  (Some LOptional) (Some TInt32) None None None] [] [] [] None [] []] [] [] (Some "proto3").
Definition proto_21 : FileDescriptorProto :=
  mkFile (Some "schema.proto") None [] [mkMessage (Some "U") [mkField (Some "a") (Some 1) (Some LOptional)
  (Some TInt32) None (Some 0) None] [] [] [Some "x"] None [] []] [] [] (Some "proto3").
Definition proto_22 : FileDescriptorProto :=
  mkFile (Some "schema.proto") None [] [mkMessage (Some "U") [mkField (Some "a") (Some 1) (Some LRequired)
  (Some TInt32) None None None] [] [] [] None [] []] [] [] None.
Definition proto_23 : FileDescriptorProto :=
  mkFile (Some "schema.proto") None [] [mkMessage (Some "U") [] [] [] [] None [] []] [] [] None.
Definition proto_24 : FileDescriptorProto :=
  mkFile (Some "schema.proto") None [] [mkMessage (Some "U") [mkField (Some "a") (Some 1) (Some LRepeated)
  (Some TInt32) None None None] [] [] [] None [] []] [] [] None.
Definition proto_25 : FileDescriptorProto :=
  mkFile (Some "schema.proto") None [] [mkMessage (Some "U") [mkField (Some "a") (Some 1) (Some LOptional)
  (Some TInt32) None None None] [] [] [] None [] []] [] [] None.
Definition proto_26 : FileDescriptorProto :=
  mkFile (Some "schema.proto") None [] [mkMessage (Some "U") [mkField (Some "a") (Some 1) (Some LRepeated)
  (Some TInt32) None None None] [] [] [] None [] []] [] [] (Some "proto3").
Definition proto_27 : FileDescriptorProto :=
  mkFile (Some "schema.proto") None [] [mkMessage (Some "U") [mkField (Some "a") (Some 1) (Some LRepeated)
  (Some TString) None None None] [] [] [] None [] []] [] [] None.
Definition proto_28 : FileDescriptorProto :=
  mkFile (Some "schema.proto") None [] [mkMessage (Some "U") [mkField (Some "a") (Some 1) (Some LOptional)
  (Some TString) None None None] [] [] [] None [] []] [] [] None.
Definition proto_29 : FileDescriptorProto :=
  mkFile (Some "schema.proto") None [] [mkMessage (Some "U") [mkField (Some "id") (Some 1) (Some LOptional)
  (Some TSint32) None None None] [] [] [] None [] []] [] [] (Some "proto3").
Definition proto_30 : FileDescriptorProto :=
  mkFile (Some "schema.proto") None [] [mkMessage (Some "U") [mkField (Some "id") (Some 1) (Some LOptional)
  (Some TSint64) None None None] [] [] [] None [] []] [] [] (Some "proto3").
Definition proto_31 : FileDescriptorProto :=
  mkFile (Some "schema.proto") None [] [mkMessage (Some "U") [mkField (Some "id") (Some 1) (Some LOptional)
  (Some TBytes) None None None] [] [] [] None [] []] [] [] (Some "proto3").
Definition proto_32 : FileDescriptorProto :=
  mkFile (Some "schema.proto") None [] [mkMessage (Some "U") [mkField (Some "id") (Some 1) (Some LOptional)
  (Some TFixed32) None None None] [] [] [] None [] []] [] [] (Some "proto3").
Definition proto_33 : FileDescriptorProto :=
  mkFile (Some "schema.proto") None [] [mkMessage (Some "U") [mkField (Some "id") (Some 1) (Some LOptional)
  (Some TSfixed32) None None None] [] [] [] None [] []] [] [] (Some "proto3").
Definition proto_34 : FileDescriptorProto :=
  mkFile (Some "schema.proto") None [] [mkMessage (Some "A") [] [] [] [] None [] []; mkMessage (Some "B") [] []
  [] [] None [] []; mkMessage (Some "U") [mkField (Some "f") (Some 1) (Some LOptional) None (Some "A")
  None None] [] [] [] None [] []] [] [] (Some "proto3").
Definition proto_35 : FileDescriptorProto :=
  mkFile (Some "schema.proto") None [] [mkMessage (Some "A") [] [] [] [] None [] []; mkMessage (Some "B") [] []
  [] [] None [] []; mkMessage (Some "U") [mkField (Some "f") (Some 1) (Some LOptional) None (Some "B")
  None None] [] [] [] None [] []] [] [] (Some "proto3").
Definition proto_36 : FileDescriptorProto :=
  mkFile (Some "schema.proto") None [] [mkMessage (Some "U") [mkField (Some "id") (Some 1) (Some LOptional)
  (Some TInt32) None None None] [] [] [] None [] ["old"]] [] [] (Some "proto3").
Definition proto_37 : FileDescriptorProto :=
  mkFile (Some "schema.proto") None [] [mkMessage (Some "U") [mkField (Some "m") (Some 1) (Some LRepeated)
  (Some TMessage) (Some "MEntry") None None] [mkMessage (Some "MEntry") [mkField (Some "key") (Some 1)
  (Some LOptional) (Some TString) None None None; mkField (Some "value") (Some 2) (Some LOptional) (Some TInt64)
  None None None] [] [] [] (Some true) [] []] [] [] None [] []] [] [] (Some "proto3").
Definition proto_38 : FileDescriptorProto :=
  mkFile (Some "schema.proto") None [] [mkMessage (Some "U") [mkField (Some "m") (Some 1) (Some LOptional)
  (Some TInt32) None None None] [] [] [] None [] []] [] [] (Some "proto3").
Definition proto_39 : FileDescriptorProto :=
  mkFile (Some "schema.proto") None [] [mkMessage (Some "U") [mkField (Some "id") (Some 1) (Some LOptional)
  (Some TInt32) None None None] [] [] [] None [] []] [mkEnum (Some "E") [(Some 0, Some "A")]] [] (Some "proto3").

(** ** Running a check *)

(** A parser of named texts, and a linker that wants every import. *)
Definition texts_lib (texts : list (string * FileDescriptorProto)) : ProtoLib := {|
  protox_parse name text :=
    match assoc_get text texts with
    | Some f => Ok (mkFile (Some name) (file_package f) (file_dependency f) (file_message_type f)
                      (file_enum_type f) (file_service f) (file_syntax f))
    | None => Err "syntax"
    end;
  link_files files :=
    if forallb (λ d, existsb (λ f, bool_decide (file_name f = Some d)) files) (files ≫= file_dependency)
    then Ok () else Err "unresolved import";
  encode_hex f := normalize f;
|}.

Record ProtoCase := mkCase { pc_reader : FileDescriptorProto; pc_writer : FileDescriptorProto; pc_compatible : bool }.

Definition pair_lib (reader writer : FileDescriptorProto) : ProtoLib :=
  texts_lib [("reader", reader); ("writer", writer)].

Definition run_case (c : ProtoCase) : bool :=
  Bool.eqb (match @ProtoDiff.check (pair_lib (pc_reader c) (pc_writer c)) "reader" "writer" [] [] with
            | Ok _ => true | Err _ => false end) (pc_compatible c).

(** ** The tables of the unit tests *)

Definition basic_cases : list (string * ProtoCase) := [
  ("field-added", mkCase proto_0 proto_1 true);
  ("field-removed", mkCase proto_1 proto_0 true);
  ("scalar-same-wire-group", mkCase proto_2 proto_1 true);
  ("scalar-cross-wire-group", mkCase proto_3 proto_1 false);
  ("singular-to-repeated", mkCase proto_4 proto_1 true);
  ("scalar-to-message", mkCase proto_5 proto_1 false);
  ("move-into-oneof", mkCase proto_6 proto_7 false);
  ("move-out-of-oneof", mkCase proto_7 proto_6 true);
  ("proto3-optional", mkCase proto_8 proto_9 true) ].

Lemma proto_compatibility_basic_cases_are_named_and_table_driven : forallb (λ c, run_case c.2) basic_cases = true.
Proof. vm_compute. reflexivity. Qed.

Definition extended_cases : list (string * ProtoCase) := [
  ("reserve-number", mkCase proto_10 proto_1 true);
  ("map-cross-wire-group", mkCase proto_11 proto_12 false);
  ("identical-map", mkCase proto_12 proto_12 true);
  ("enum-constant-added", mkCase proto_13 proto_14 true);
  ("nested-field-cross-group", mkCase proto_15 proto_16 false);
  ("package-renamed", mkCase proto_17 proto_18 true);
  ("int-to-enum", mkCase proto_19 proto_1 true);
  ("reader-message-added", mkCase proto_20 proto_1 true);
  ("reader-message-removed", mkCase proto_1 proto_20 false) ].

Lemma proto_compatibility_extended_cases_are_named_and_table_driven : forallb (λ c, run_case c.2) extended_cases = true.
Proof. vm_compute. reflexivity. Qed.

Definition field_rules : list (string * ProtoCase) := [
  ("oneof-field-removed", mkCase proto_21 proto_6 false);
  ("existing-plus-new-moved-to-oneof", mkCase proto_6 proto_9 true);
  ("proto2-required-added", mkCase proto_22 proto_23 false);
  ("proto2-required-removed", mkCase proto_23 proto_22 false);
  ("proto2-numeric-label", mkCase proto_24 proto_25 false);
  ("proto3-explicit-numeric-label", mkCase proto_26 proto_8 false);
  ("string-label", mkCase proto_27 proto_28 true) ].

Lemma proto_milestone_23_field_rules : forallb (λ c, run_case c.2) field_rules = true.
Proof. vm_compute. reflexivity. Qed.

(** ** References *)

Definition money : FileDescriptorProto :=
  mkFile (Some "schema.proto") (Some "m") [] [mkMessage (Some "Money") [mkField (Some "cents") (Some 1)
  (Some LOptional) (Some TInt64) None None None] [] [] [] None [] []] [] [] (Some "proto3").
Definition money_changed : FileDescriptorProto :=
  mkFile (Some "schema.proto") (Some "m") [] [mkMessage (Some "Money") [mkField (Some "cents") (Some 1)
  (Some LOptional) (Some TString) None None None] [] [] [] None [] []] [] [] (Some "proto3").
Definition money_extended : FileDescriptorProto :=
  mkFile (Some "schema.proto") (Some "m") [] [mkMessage (Some "Money") [mkField (Some "cents") (Some 1)
  (Some LOptional) (Some TInt64) None None None; mkField (Some "currency") (Some 2) (Some LOptional)
  (Some TString) None None None] [] [] [] None [] []] [] [] (Some "proto3").
Definition order_importing : FileDescriptorProto :=
  mkFile (Some "schema.proto") None ["money.proto"] [mkMessage (Some "Order") [mkField (Some "price") (Some 1)
  (Some LOptional) None (Some "m.Money") None None] [] [] [] None [] []] [] [] (Some "proto3").

Section references.
#[local] Instance money_lib : ProtoLib :=
  texts_lib [("order", order_importing); ("old", money); ("changed", money_changed); ("compatible", money_extended)].

Definition money_ref (text : string) : list ResolvedReference := [mkResolvedReference "money.proto" Protobuf text].

(** An import is resolved by the reference of its name, or the text is refused. *)
Lemma protobuf_resolves_import_reference :
  ProtoDiff.parse "order" (money_ref "old") = Ok (mkProtobufSchema order_importing (normalize order_importing)) ∧
  ProtoDiff.parse "order" [] = Err (InvalidSchema "Protobuf link: unresolved import").
Proof. by vm_compute. Qed.

Lemma protobuf_diffs_changed_imports :
  ProtoDiff.check "order" "order" (money_ref "old") (money_ref "old") = Ok () ∧
  ∃ messages, ProtoDiff.check "order" "order" (money_ref "changed") (money_ref "old") = Err messages.
Proof. split; [by vm_compute|]. eexists. vm_compute. reflexivity. Qed.

Lemma protobuf_reference_check_accepts_a_compatible_reference_change :
  ProtoDiff.check "order" "order" (money_ref "compatible") (money_ref "old") = Ok ().
Proof. by vm_compute. Qed.
End references.

(** ** The normalised text *)

Definition text_lines (l : list string) : string := foldr (λ s rest, s +:+ newline +:+ rest) "" l.

Definition proto3_line : string := "syntax = " +:+ in_quotes "proto3" +:+ ";".

Lemma normalize_emits_package_and_imports_cp_exact :
  normalize money = text_lines [proto3_line; "package m;"; ""; "message Money {"; "  int64 cents = 1;"; "}"] ∧
  normalize order_importing = text_lines [proto3_line; ""; "import " +:+ in_quotes "money.proto" +:+ ";"; "";
    "message Order {"; "  m.Money price = 1;"; "}"].
Proof. by vm_compute. Qed.

Definition outer_file : FileDescriptorProto :=
  mkFile None None []
    [mkMessage (Some "Outer") []
       [mkMessage (Some "Inner") [mkField (Some "id") (Some 1) (Some LOptional) (Some TString) None None None]
          [] [] [] None [] []]
       [mkEnum (Some "Kind") [(Some 0, Some "KIND_UNSPECIFIED"); (Some 1, Some "KIND_READY")]] [] None [] []]
    [] [] (Some "proto3").

Lemma normalize_preserves_nested_enum_and_message_indentation :
  normalize outer_file = text_lines [proto3_line; ""; "message Outer {"; "  enum Kind {";
    "    KIND_UNSPECIFIED = 0;"; "    KIND_READY = 1;"; "  }"; "  message Inner {"; "    string id = 1;"; "  }"; "}"].
Proof. by vm_compute. Qed.

(** ** The golden matrix *)

Section golden.
#[local] Existing Instance tree_serde.
#[local] Instance golden_avro : AvroLib := {|
  avro_schema := unit; parse_str _ := Err "no Avro"; parse_list _ := Err "no Avro"; can_read _ _ := Err "no Avro" |}.
#[local] Instance golden_text : JsonText := λ _, Err "no JSON".
#[local] Instance golden_regex : Regex := λ _, None.
#[local] Instance golden_pointer : JsonPointer := λ _ _, None.

(** The engine's verdict: the writer is registered under a subject with the level, then the reader
    is checked against the latest version. *)
Definition engine_verdict (level : string) (writer reader : FileDescriptorProto) : option bool :=
  let fmt := @formats golden_avro tree_serde golden_text (pair_lib reader writer) golden_regex golden_pointer 0 (Ok ()) in
  match @Store.register fmt "s" Protobuf "writer" [] None (set_subject_compat "s" level default_store) with
  | Ok (_, snap) =>
      match @check_against_version fmt snap "s" Protobuf "reader" [] None with
      | Ok v => Some (is_compatible v)
      | Err _ => None
      end
  | Err _ => None
  end.

Definition golden_protos : list (string * FileDescriptorProto * FileDescriptorProto * list (string * bool)) := [
  ("field_added", proto_1, proto_0, [("BACKWARD", true); ("FORWARD", true); ("FULL", true)]);
  ("field_removed", proto_0, proto_1, [("BACKWARD", true); ("FORWARD", true); ("FULL", true)]);
  ("scalar_int_widen", proto_1, proto_2, [("BACKWARD", true); ("FORWARD", true); ("FULL", true)]);
  ("scalar_int_to_string", proto_1, proto_3, [("BACKWARD", false); ("FORWARD", false); ("FULL", false)]);
  ("scalar_sint_group", proto_29, proto_30, [("BACKWARD", true); ("FORWARD", true); ("FULL", true)]);
  ("scalar_string_bytes", proto_3, proto_31, [("BACKWARD", true); ("FORWARD", true); ("FULL", true)]);
  ("scalar_fixed32_group", proto_32, proto_33, [("BACKWARD", true); ("FORWARD", true); ("FULL", true)]);
  ("scalar_int_to_sint", proto_1, proto_29, [("BACKWARD", false); ("FORWARD", false); ("FULL", false)]);
  ("kind_scalar_to_msg", proto_1, proto_5, [("BACKWARD", false); ("FORWARD", false); ("FULL", false)]);
  ("kind_scalar_to_enum", proto_1, proto_19, [("BACKWARD", true); ("FORWARD", true); ("FULL", true)]);
  ("named_type_changed", proto_34, proto_35, [("BACKWARD", false); ("FORWARD", false); ("FULL", false)]);
  ("label_singular_repeat", proto_1, proto_4, [("BACKWARD", true); ("FORWARD", true); ("FULL", true)]);
  ("oneof_move_in", proto_7, proto_6, [("BACKWARD", false); ("FORWARD", true)]);
  ("oneof_move_out", proto_6, proto_7, [("BACKWARD", true); ("FORWARD", false); ("FULL", false)]);
  ("oneof_added", proto_9, proto_21, [("BACKWARD", true); ("FORWARD", true); ("FULL", true)]);
  ("proto3_optional", proto_9, proto_8, [("BACKWARD", true); ("FORWARD", true); ("FULL", true)]);
  ("reserved_number", proto_1, proto_10, [("BACKWARD", true); ("FORWARD", true); ("FULL", true)]);
  ("reserved_name", proto_1, proto_36, [("BACKWARD", true); ("FORWARD", true); ("FULL", true)]);
  ("map_identical", proto_12, proto_12, [("BACKWARD", true); ("FORWARD", true); ("FULL", true)]);
  ("map_value_widen", proto_12, proto_37, [("BACKWARD", true); ("FORWARD", true); ("FULL", true)]);
  ("map_value_to_string", proto_12, proto_11, [("BACKWARD", false); ("FORWARD", false); ("FULL", false)]);
  ("scalar_to_map", proto_38, proto_12, [("BACKWARD", false); ("FORWARD", false); ("FULL", false)]);
  ("enum_const_added", proto_14, proto_13, [("BACKWARD", true); ("FORWARD", true); ("FULL", true)]);
  ("enum_const_removed", proto_13, proto_14, [("BACKWARD", true); ("FORWARD", true); ("FULL", true)]);
  ("enum_added", proto_1, proto_39, [("BACKWARD", true); ("FORWARD", true); ("FULL", true)]);
  ("enum_removed", proto_39, proto_1, [("BACKWARD", true); ("FORWARD", true); ("FULL", true)]);
  ("message_added", proto_1, proto_20, [("BACKWARD", true); ("FORWARD", false); ("FULL", false)]);
  ("message_removed", proto_20, proto_1, [("BACKWARD", false); ("FORWARD", true)]);
  ("nested_scalar_change", proto_16, proto_15, [("BACKWARD", false); ("FORWARD", false); ("FULL", false)]);
  ("package_change", proto_18, proto_17, [("BACKWARD", true); ("FORWARD", true); ("FULL", true)]);
  ("oneof_field_removed", proto_6, proto_21, [("BACKWARD", false); ("FORWARD", true)]);
  ("one_existing_plus_new_into_oneof", proto_9, proto_6, [("BACKWARD", true); ("FORWARD", true); ("FULL", true)]);
  ("proto2_required_added", proto_23, proto_22, [("BACKWARD", false); ("FORWARD", false); ("FULL", false)]);
  ("proto2_required_removed", proto_22, proto_23, [("BACKWARD", false); ("FORWARD", false); ("FULL", false)]);
  ("proto2_numeric_label_change", proto_25, proto_24, [("BACKWARD", false); ("FORWARD", false); ("FULL", false)]);
  ("proto3_explicit_numeric_label_change", proto_8, proto_26, [("BACKWARD", false); ("FORWARD", false); ("FULL", false)]);
  ("string_label_change", proto_28, proto_27, [("BACKWARD", true); ("FORWARD", true); ("FULL", true)]) ].

(** All 108 verdicts of the matrix are the engine's. *)
Lemma protobuf_engine_matches_cp_verdicts :
  length (golden_protos ≫= snd) = 108%nat ∧
  forallb (λ '(_, writer, reader, verdicts),
    forallb (λ v : string * bool, bool_decide (engine_verdict v.1 writer reader = Some v.2)) verdicts) golden_protos = true.
Proof. vm_compute. split; reflexivity. Qed.
End golden.
