(* ===== verification/StoreTests.v ===== *)
(** * The registry state against its own tests

    The unit tests of store/mod.rs, function by function, run on the definitions. A test is its
    assertions in order; [None] is a step that panics. The Avro records of the tests are texts that
    parse to themselves without their spaces; the text the tests call malformed does not parse. The
    tests about Avro's own canonical form are left out: the format is a parameter of the state. *)

From stdpp Require Import base gmap strings list.
From Stdlib Require Import ZArith Ascii.
From S2P Require Import Prelude Json Types Store Record RecordFacts.

#[local] Open Scope Z_scope.

(** ** The format and the helpers of the tests *)

Fixpoint without_spaces (s : string) : string :=
  match s with
  | "" => ""
  | String c s' => if Ascii.eqb c " "%char then without_spaces s' else String c (without_spaces s')
  end.

#[local] Instance spaced_format : SchemaFormat := {|
  format_parse _ schema _ :=
    if String.eqb schema "{not avro}" then Err (InvalidSchema "Avro") else Ok (without_spaces schema);
  format_check _ _ _ _ _ := Ok ();
  normalized_storage_form _ schema _ := Ok schema;
|}.

(** The record named [n]; the braces and quotes of its text do not matter here. *)
Definition av (n : string) : string := "type:record,name:" +:+ n +:+ ",fields:[]".
Definition sref (name subject : string) (version : Z) : SchemaReference := mkSchemaReference name subject version.

(** [register(..).unwrap()] of an Avro schema without a message type. *)
Definition reg (subject schema : string) (refs : list SchemaReference) (s : StoreState)
    : option (Registered * StoreState) :=
  result_ok (Store.register subject Avro schema refs None s).

Definition apply_with_flag (s : StoreState) (subject : string) (version id : Z) (schema : string) (deleted : bool)
    : StoreState :=
  apply_schema (mkSchemaValue subject version id None None [] schema deleted ∅) s.
Definition apply_live (s : StoreState) (subject : string) (version id : Z) (schema : string) : StoreState :=
  apply_with_flag s subject version id schema false.
Definition apply_deleted (s : StoreState) (subject : string) (version id : Z) (schema : string) : StoreState :=
  apply_with_flag s subject version id schema true.

(** [assert!]. *)
Definition asserts (l : list bool) : option bool := Some (forallb (λ b, b) l).

#[local] Instance Registered_eq_dec : EqDecision Registered.
Proof. solve_decision. Defined.

(** ** The tests *)

Definition same_schema_different_refs_gets_distinct_id : option bool :=
  '(_, s) ← reg "base" (av "Base") [] default_store;
  '(r1, s) ← reg "a" (av "A") [] s;
  '(r2, s) ← reg "b" (av "A") [sref "base" "base" 1] s;
  asserts [negb (reg_id r1 =? reg_id r2)].

Definition same_schema_same_refs_is_idempotent : option bool :=
  '(_, s) ← reg "base" (av "Base") [] default_store;
  '(r1, s) ← reg "d" (av "D") [sref "base" "base" 1] s;
  '(r2, s) ← reg "d" (av "D") [sref "base" "base" 1] s;
  asserts [bool_decide (r1 = r2)].

Definition resolve_closure_is_transitive_and_cycle_guarded : option bool :=
  '(_, s) ← reg "base" (av "Base") [] default_store;
  '(_, s) ← reg "mid" (av "Mid") [sref "base" "base" 1] s;
  closure ← result_ok (resolve_closure s [sref "mid" "mid" 1]);
  let names := List.map res_name closure in
  asserts [bool_decide ("mid" ∈ names); bool_decide ("base" ∈ names);
    match resolve_closure s [sref "x" "nope" 1] with Err _ => true | Ok _ => false end].

Definition referenced_by_lists_referrers : option bool :=
  '(_, s) ← reg "base" (av "Base") [] default_store;
  '(r, s) ← reg "dep" (av "Dep") [sref "base" "base" 1] s;
  asserts [bool_decide (referenced_by s "base" 1 false = [reg_id r]);
    bool_decide (referenced_by s "base" 99 false = [])].

Definition first_registration_gets_id_1_version_1 : option bool :=
  '(r, s) ← reg "av-value" (av "A") [] default_store;
  asserts [reg_id r =? 1; reg_version r =? 1].

Definition identical_under_same_subject_is_idempotent : option bool :=
  '(r1, s) ← reg "av-value" (av "A") [] default_store;
  '(r2, s) ← reg "av-value" (av "A") [] s;
  asserts [bool_decide (r1 = r2); bool_decide (versions s "av-value" false = Some [1])].

Definition same_schema_new_subject_reuses_global_id_fresh_version : option bool :=
  '(r1, s) ← reg "av-value" (av "A") [] default_store;
  '(r2, s) ← reg "other-value" (av "A") [] s;
  asserts [bool_decide (r2 = mkRegistered (reg_id r1) 1)].

Definition different_schema_increments_id_and_version : option bool :=
  '(r1, s) ← reg "av-value" (av "A") [] default_store;
  '(r2, s) ← reg "av-value" (av "B") [] s;
  asserts [bool_decide (r2 = mkRegistered (reg_id r1 + 1) 2);
    bool_decide (versions s "av-value" false = Some [1; 2])].

Definition invalid_schema_rejected_even_under_none : option bool :=
  asserts [match Store.register "av-value" Avro "{not avro}" [] None default_store with
           | Err _ => true | Ok _ => false end].

Definition apply_schema_is_idempotent : option bool :=
  let v := mkSchemaValue "av-value" 1 1 None None [] (av "A") false ∅ in
  let s := apply_schema v (apply_schema v default_store) in
  '(_, schema, _, _) ← schema_by_id s 1 false;
  '(r, _) ← reg "av-value" (av "A") [] s;
  asserts [bool_decide (versions s "av-value" false = Some [1]); String.eqb schema (av "A");
    reg_id r =? 1; reg_version r =? 1].

Definition owner_extra : gmap string json :=
  {[ "metadata" := JObject [("properties", JObject [("owner", JString "ops")])] ]}.

Definition soft_delete_encoding_preserves_unknown_schema_fields `{SerdeJson} : option bool :=
  let value := mkSchemaValue "av" 1 1 None None [] (av "A") false owner_extra in
  let s := apply_schema value default_store in
  found ← version s "av" (Some 1) true;
  let '(key, encoded) := encode_schema_deleted_with_message_type "av" (vs_version found) (vs_id found) (vs_ty found)
                           (vs_schema found) (vs_references found) (vs_message_type found, vs_extra found) in
  match Record.decode key (Some encoded) with
  | RSchema _ deleted => asserts [sv_deleted deleted; bool_decide (sv_extra deleted = sv_extra value)]
  | _ => None
  end.

Definition replay_rebinds_version_and_id : option bool :=
  let s := apply_live (apply_live default_store "av" 1 1 (av "A")) "av" 1 2 (av "B") in
  found ← version s "av" (Some 1) false;
  '(_, schema, _, _) ← schema_by_id s 2 false;
  conflicts ← result_ok (schema_id_conflicts s 1 Avro (av "C") [] None);
  asserts [vs_id found =? 2; String.eqb schema (av "B");
    match schema_by_id s 1 true with None => true | Some _ => false end; conflicts].

Definition import_identity_is_canonical : option bool :=
  let s := apply_live default_store "av" 1 1 (av "A") in
  conflicts ← result_ok (schema_id_conflicts s 1 Avro "type: record, name: A, fields: []" [] None);
  asserts [negb conflicts].

Definition tombstones_preserve_version_high_water : option bool :=
  let s := (Store.permanent_delete_version "av" 3 (apply_live default_store "av" 3 3 (av "C"))).2 in
  '(registered, _) ← reg "av" (av "D") [] s;
  let compacted := (Store.permanent_delete_version "av" 3 default_store).2 in
  '(registered', _) ← reg "av" (av "D") [] compacted;
  asserts [reg_version registered =? 4; reg_version registered' =? 4].

Definition versions_schemas_returns_ordered_pairs : option bool :=
  '(_, s) ← reg "av-value" (av "A") [] default_store;
  '(_, s) ← reg "av-value" (av "B") [] s;
  asserts [bool_decide (versions_schemas s "av-value" = [(Avro, av "A", []); (Avro, av "B", [])]);
    bool_decide (versions_schemas s "missing" = [])].

Definition compat_defaults_backward_and_is_settable : option bool :=
  let s := set_global_compat "FULL" default_store in
  let s' := set_subject_compat "x" "NONE" s in
  asserts [String.eqb (global_compat default_store) "BACKWARD"; String.eqb (global_compat s) "FULL";
    bool_decide (subject_compat s "x" = None); bool_decide (subject_compat s' "x" = Some "NONE")].

Definition configured_defaults_are_overridden_by_replayed_globals : option bool :=
  let s := with_defaults "FULL" "READONLY" in
  let s' := Store.set_global_mode "IMPORT" (set_global_compat "FORWARD" s) in
  asserts [bool_decide ((global_compat s, global_mode s) = ("FULL", "READONLY"));
    bool_decide ((global_compat s', global_mode s') = ("FORWARD", "IMPORT"))].

Definition soft_delete_hides_then_deleted_shows_then_permanent_removes : option bool :=
  '(_, s) ← reg "av" (av "A") [] default_store;
  '(_, s) ← reg "av" (av "B") [] s;
  let s := apply_deleted s "av" 1 1 (av "A") in
  let '(removed, s') := Store.permanent_delete_version "av" 1 s in
  asserts [bool_decide (versions s "av" false = Some [2]); bool_decide (versions s "av" true = Some [1; 2]);
    match version s "av" (Some 1) false with None => true | Some _ => false end;
    match version s "av" (Some 1) true with None => false | Some _ => true end;
    bool_decide (removed = Some 1);
    match version s' "av" (Some 1) true with None => true | Some _ => false end;
    bool_decide (versions s' "av" true = Some [2]);
    bool_decide ((Store.permanent_delete_version "nope" 9 s').1 = None);
    bool_decide ((Store.permanent_delete_version "av" 99 s').1 = None)].

Definition version_none_resolves_latest_skipping_deleted : option bool :=
  '(_, s) ← reg "av" (av "A") [] default_store;
  '(_, s) ← reg "av" (av "B") [] s;
  let s := apply_deleted s "av" 2 2 (av "B") in
  asserts [bool_decide (vs_version <$> version s "av" None false = Some 1);
    bool_decide (vs_version <$> version s "av" None true = Some 2)].

Definition soft_delete_subject_flags_all_versions : option bool :=
  '(_, s) ← reg "av" (av "A") [] default_store;
  '(_, s) ← reg "av" (av "B") [] s;
  let '(flagged, s) := Store.soft_delete_subject "av" s in
  asserts [bool_decide (flagged = Some [1; 2]); bool_decide (versions s "av" false = None);
    bool_decide (list_subjects s false = []); bool_decide (list_subjects s true = ["av"])].

Definition resurrect_on_reregister_clears_deleted : option bool :=
  '(_, s) ← reg "av" (av "A") [] default_store;
  let s := apply_deleted s "av" 1 1 (av "A") in
  asserts [bool_decide (versions s "av" false = None);
    bool_decide (versions (apply_live s "av" 1 1 (av "A")) "av" false = Some [1])].

Definition schema_by_id_respects_reference_liveness : option bool :=
  '(_, s) ← reg "av" (av "A") [] default_store;
  let deleted := apply_deleted s "av" 1 1 (av "A") in
  let removed := (Store.permanent_delete_version "av" 1 deleted).2 in
  let served s include := match schema_by_id s 1 include with Some _ => true | None => false end in
  asserts [served s false; negb (served deleted false); served deleted true; negb (served removed true)].

Definition schema_id_subject_versions_and_all_schemas : option bool :=
  '(_, s) ← reg "a" (av "A") [] default_store;
  '(_, s) ← reg "b" (av "A") [] s;
  let pairs := schema_id_subject_versions s 1 false in
  asserts [bool_decide (pairs ≡ₚ [("a", 1); ("b", 1)]); bool_decide (length (all_schemas s false) = 2%nat)].

Definition modes_default_and_resolve : option bool :=
  let readonly := Store.set_global_mode "READONLY" default_store in
  let import := Store.set_subject_mode "x" "IMPORT" readonly in
  asserts [String.eqb (global_mode default_store) "READWRITE"; String.eqb (effective_mode default_store "x") "READWRITE";
    String.eqb (effective_mode readonly "x") "READONLY"; String.eqb (effective_mode import "x") "IMPORT";
    String.eqb (effective_mode (Store.clear_subject_mode "x" import) "x") "READONLY"].

(** ** They pass *)

Definition store_tests : list (option bool) := [
  same_schema_different_refs_gets_distinct_id; same_schema_same_refs_is_idempotent;
  resolve_closure_is_transitive_and_cycle_guarded; referenced_by_lists_referrers;
  first_registration_gets_id_1_version_1; identical_under_same_subject_is_idempotent;
  same_schema_new_subject_reuses_global_id_fresh_version; different_schema_increments_id_and_version;
  invalid_schema_rejected_even_under_none; apply_schema_is_idempotent;
  @soft_delete_encoding_preserves_unknown_schema_fields tree_serde;
  replay_rebinds_version_and_id; import_identity_is_canonical; tombstones_preserve_version_high_water;
  versions_schemas_returns_ordered_pairs; compat_defaults_backward_and_is_settable;
  configured_defaults_are_overridden_by_replayed_globals;
  soft_delete_hides_then_deleted_shows_then_permanent_removes; version_none_resolves_latest_skipping_deleted;
  soft_delete_subject_flags_all_versions; resurrect_on_reregister_clears_deleted;
  schema_by_id_respects_reference_liveness; schema_id_subject_versions_and_all_schemas; modes_default_and_resolve ].

Lemma store_tests_pass : Forall (λ t, t = Some true) store_tests.
Proof. repeat constructor; vm_compute; reflexivity. Qed.
