(* ===== verification/TopicTests.v ===== *)
(** * The topic's records against their own tests

    The unit tests of kafkastore/record.rs and kafkastore/reader.rs, function by function, run on
    the definitions with the JSON of [JsonSyntax]: the bytes of the keys and values are compared as
    the tests compare them. A test is its assertions; [None] is a step that panics. In the texts
    below a single quote stands for a double quote. *)

From stdpp Require Import base gmap strings list.
From Stdlib Require Import ZArith Ascii.
From S2P Require Import Prelude Text Json Types Store StoreSpec Record JsonSyntax Reader ReaderFacts Cache Config Broker Clients.

#[local] Open Scope Z_scope.

(** ** Helpers *)

Fixpoint q (s : string) : string :=
  match s with
  | "" => ""
  | String c s => String (if Ascii.eqb c "'" then chr 34 else c) (q s)
  end.

#[local] Existing Instance text_serde.

(** [assert!]. *)
Definition checks (l : list bool) : bool := forallb (λ b, b) l.

Definition is_noop (r : SchemaRecord) : bool := match r with RNoop => true | _ => false end.
Definition bytes_are (s t : string) : bool := String.eqb s (q t).

(** ** Records *)

Definition encode_config_round_trips_via_decode : bool :=
  let '(k, v) := encode_config None "FULL" in
  match decode k (Some v) with
  | RConfig key (Some val) =>
      bool_decide (ck_subject key = None) && String.eqb (compatibility_level val) "FULL"
  | _ => false
  end.

Definition encode_mode_round_trips : bool :=
  let '(k, v) := encode_mode (Some "s") "READONLY" in
  match decode k (Some v) with
  | RMode key (Some val) => bool_decide (mk_subject key = Some "s") && String.eqb (mv_mode val) "READONLY"
  | _ => false
  end && bytes_are (encode_mode None "IMPORT").1 "{'keytype':'MODE','subject':null,'magic':0}".

Definition version_high_water_round_trips_as_noop_extension : bool :=
  let '(key, value) := encode_version_high_water "s" 4 in
  match decode key (Some value) with
  | RVersionHighWater key value => String.eqb (vk_subject key) "s" && (vv_next_version value =? 4)
  | _ => false
  end.

Definition mode_tombstone_decodes_to_clear : bool :=
  match decode (mode_key (Some "s")) None with
  | RMode key None => bool_decide (mk_subject key = Some "s")
  | _ => false
  end.

Definition encode_delete_subject_round_trips : bool :=
  let '(k, v) := encode_delete_subject "s" 3 in
  bytes_are k "{'keytype':'DELETE_SUBJECT','subject':'s','magic':0}" &&
  match decode k (Some v) with
  | RDeleteSubject key val => String.eqb (dk_subject key) "s" && String.eqb (dv_subject val) "s" && (dv_version val =? 3)
  | _ => false
  end.

Definition schema_null_value_decodes_to_tombstone : bool :=
  let key := encode_tombstone "s" 2 in
  bytes_are key "{'keytype':'SCHEMA','subject':'s','version':2,'magic':1}" &&
  match decode key None with
  | RTombstone k => String.eqb (sk_subject k) "s" && (sk_version k =? 2)
  | _ => false
  end.

Definition encode_schema_deleted_sets_flag : bool :=
  let '(_, v) := encode_schema_deleted "s" 1 7 Avro (q "{'type':'int'}") [] in
  match from_slice de_SchemaValue v with
  | Some val => sv_deleted val && (sv_id val =? 7)
  | None => false
  end.

Definition encode_schema_round_trips_references : bool :=
  let refs := [mkSchemaReference "n" "b" 1] in
  let '(k, v) := encode_schema "s" 1 1 Avro "{}" refs in
  match decode k (Some v) with
  | RSchema _ val => bool_decide (sv_references val = refs)
  | _ => false
  end.

Definition encode_schema_round_trips_message_type_when_present : bool :=
  let '(k, v) := encode_schema_with_message_type "pb-value" 1 7 Protobuf
    (q "syntax = 'proto3'; message Order {}") [] (Some "demo.Order") in
  match decode k (Some v) with
  | RSchema _ val => bool_decide (sv_message_type val = Some "demo.Order")
  | _ => false
  end &&
  bool_decide ((from_slice_value v ≫= λ raw, json_get raw "messageType") = Some (JString "demo.Order")).

Definition references_value_shape : list (string * Z * SchemaType * list SchemaReference * string) := [
  ("av_order", 2, Avro, [mkSchemaReference "Money" "av_money" 1],
   "{'subject':'av_order','version':1,'id':2,'references':[{'name':'Money','subject':'av_money','version':1}],'schema':'S','deleted':false}");
  ("pb_order", 4, Protobuf, [mkSchemaReference "money.proto" "pb_money" 1],
   "{'subject':'pb_order','version':1,'id':4,'schemaType':'PROTOBUF','references':[{'name':'money.proto','subject':'pb_money','version':1}],'schema':'S','deleted':false}");
  ("av_money", 1, Avro, [], "{'subject':'av_money','version':1,'id':1,'schema':'S','deleted':false}")].

Definition references_value_shape_matches_cp_capture : bool :=
  forallb (λ '(subject, id, ty, refs, expected), bytes_are (encode_schema subject 1 id ty "S" refs).2 expected)
    references_value_shape.

Definition clear_subjects_and_delete_subject_tombstone_are_noop : bool :=
  forallb (λ '(key, value), is_noop (decode key value)) [
    (q "{'keytype':'CLEAR_SUBJECTS','subject':'s','magic':0}", None);
    (q "{'keytype':'CLEAR_SUBJECT','subject':'i','magic':0}", Some (q "{'subject':'i'}"));
    ((encode_delete_subject "s" 1).1, None)].

Definition encoders_match_cp_captured_keys : bool :=
  checks [
    bytes_are (encode_schema "t" 1 1 Avro "{}" []).1 "{'keytype':'SCHEMA','subject':'t','version':1,'magic':1}";
    bytes_are (encode_delete_subject "d" 1).1 "{'keytype':'DELETE_SUBJECT','subject':'d','magic':0}";
    bytes_are (encode_mode (Some "r") "READONLY").1 "{'keytype':'MODE','subject':'r','magic':0}";
    bytes_are (encode_tombstone "t" 1) "{'keytype':'SCHEMA','subject':'t','version':1,'magic':1}";
    bytes_are (encode_schema_deleted "t" 1 1 Avro "{}" []).2
      "{'subject':'t','version':1,'id':1,'schema':'{}','deleted':true}"].

(** [Value]s are equal up to the order of their fields. *)
Definition config_key_subject_cases : bool :=
  forallb (λ '(subject, expected),
      bool_decide (from_slice_value (config_key subject) =
        Some (json_normalize (JObject [("keytype", JString "CONFIG"); ("subject", expected); ("magic", JNumber (PosInt 0))]))))
    [(Some "my-subject", JString "my-subject"); (None, JNull)].

Definition record_tests : list bool := [
  encode_config_round_trips_via_decode; encode_mode_round_trips;
  version_high_water_round_trips_as_noop_extension; mode_tombstone_decodes_to_clear;
  encode_delete_subject_round_trips; schema_null_value_decodes_to_tombstone;
  encode_schema_deleted_sets_flag; encode_schema_round_trips_references;
  encode_schema_round_trips_message_type_when_present; references_value_shape_matches_cp_capture;
  clear_subjects_and_delete_subject_tombstone_are_noop; encoders_match_cp_captured_keys;
  config_key_subject_cases].

Lemma record_tests_pass : Forall (λ t, t = true) record_tests.
Proof. repeat constructor; vm_compute; reflexivity. Qed.

(** ** The reader *)

#[local] Existing Instance string_uuid.
#[local] Existing Instance echo_format.
#[local] Instance milli_units : TimeUnits := {| Time := Z; secs_f64 := λ t, SpecFloat.S754_zero false; human := λ _, "" |}.
#[local] Instance milli_config : ConfigUnits := {|
  millis_i64 := λ t, t; from_millis := λ t, t; time_eqb := Z.eqb; time_ltb := Z.ltb; time_leb := Z.leb;
  secs := λ n, n * 1000; millis := λ n, n; minutes := λ n, n * 60000;
  ByteSize := Z; bytes_u64 := λ b, b; bytes_f64 := λ b, SpecFloat.S754_zero false; from_bytes := λ b, b;
  bytes_eqb := Z.eqb; mebibytes := λ n, n * 1024 * 1024 |}.

Definition reader_policy_uses_configured_runtime : bool :=
  let d := runtime_default 0 0 in
  let runtime := mkRuntime (rt_dispatch_queue_capacity d) (rt_client_frame_max d)
    (rt_election_session_timeout d) (rt_election_rebalance_timeout d) (rt_election_heartbeat_interval d)
    (rt_election_reconnect_backoff d) (millis 333) (millis 777) (mebibytes 2) (rt_store_timeout d)
    (rt_schemas_topic_create_timeout d) (rt_forward_max_body d) (rt_default_compatibility_level d)
    (rt_default_mode d) in
  let p := reader_policy runtime in
  checks [rp_retry_backoff p =? millis 333; rp_fetch_max_wait p =? millis 777; rp_fetch_max p =? mebibytes 2].

(** A live SCHEMA record without a type, references or extra fields. *)
Definition schema_record (subject : string) (version id : Z) (schema : string) : SchemaRecord :=
  RSchema (SchemaKey_new subject version) (mkSchemaValue subject version id None None [] schema false ∅).

Definition absent {A} (o : option A) : bool := match o with None => true | Some _ => false end.

Definition apply_record_folds_schema_and_ignores_noop : bool :=
  let s := apply_record RNoop (apply_record (schema_record "av-value" 1 1 (q "{'type':'int'}")) default_store) in
  checks [bool_decide (versions s "av-value" false = Some [1]);
    match schema_by_id s 1 false with
    | Some (_, schema, _, _) => String.eqb schema (q "{'type':'int'}")
    | None => false
    end].

Definition fetch_errors_choose_recovery_action : bool :=
  forallb (λ '(e, expected), bool_decide (fetch_error_action e = expected)) [
    (EServer 1, ResetToLogStart); (EServer 3, RefreshTopic); (EServer 6, RefreshTopic);
    (EServer 100, RefreshTopic); (EDisconnected, Reconnect); (ETimeout, Reconnect);
    (EConnect, Reconnect); (EIo, Reconnect); (EServer 7, RetrySameConnection)].

Definition retry_warnings_are_rate_limited : bool :=
  bool_decide (List.filter should_log_failure (N.of_nat <$> seq 1 16) = [1; 2; 4; 8; 16]%N).

Definition unsupported_records_are_classified_and_counted_with_offsets : bool :=
  let r := foldl (λ r '(key, value), account_unsupported (decode key value) r) (reader_init 0 default_store) [
    (q "{'keytype':'CONTEXT','magic':1}", None);
    (q "{'keytype':'SCHEMA','subject':'s','version':1,'magic':1}", Some (q "{'broken':true}"))] in
  checks [(rd_unknown r =? 1)%N; (rd_undecodable r =? 1)%N].

Definition rebuild_keeps_live_state_until_snapshot_is_complete : bool :=
  let live := apply_record (schema_record "stale" 1 1 (q "{'type':'string'}")) default_store in
  let '(live, rebuild) := begin_rebuild live default_store None 7 9 false in
  let '(at8, rebuild8) := complete_rebuild live rebuild 8 in
  let '(at9, rebuild9) := complete_rebuild at8 rebuild8 9 in
  checks [negb (absent (versions live "stale" true));
    match rebuild with Some (s, _) => absent (versions s "stale" true) | None => false end;
    negb (absent (versions at8 "stale" true)); absent (versions at9 "stale" true); absent rebuild9].

Definition repeated_same_topic_rebuild_preserves_id_high_water : bool :=
  let live := apply_record (schema_record "old" 1 7 (q "{'type':'string'}")) default_store in
  match begin_rebuild live default_store None 7 9 true with
  | (_, Some (s, end_offset)) =>
      match Store.register "new" Avro (q "{'type':'int'}") [] None s with
      | Ok (registered, s) =>
          let s := apply_record (schema_record "compacted" 1 11 (q "{'type':'long'}")) s in
          match begin_rebuild live default_store (Some (s, end_offset)) 12 14 true with
          | (_, Some (s', _)) =>
              match Store.register "latest" Avro (q "{'type':'int'}") [] None s' with
              | Ok (latest, _) => checks [reg_id registered =? 8; reg_id latest =? 12]
              | Err _ => false
              end
          | _ => false
          end
      | Err _ => false
      end
  | _ => false
  end.

Definition barrier_tokens_are_read_from_noop_values : bool :=
  let token : string := "6f9619ff-8b86-d011-b42d-00cf4fc964ff" in
  let value := q ("{'barrier':'" +:+ token +:+ "'}") in
  let key := q ("{'keytype':'NOOP','magic':0,'barrier':'" +:+ token +:+ "'}") in
  checks [bool_decide (barrier_token (q "{'keytype':'NOOP','magic':0}") (Some value) = Some token);
    bool_decide (barrier_token key None = Some token);
    absent (barrier_token (q "{'keytype':'CONFIG'}") (Some value))].

Definition apply_record_handles_mode_delete_tombstone : bool :=
  let set subject mode := apply_record (RMode (mkModeKey "MODE" subject 0) mode) in
  let s1 := apply_record (schema_record "s" 1 1 (q "{'type':'int'}")) default_store in
  let s2 := set None (Some (mkModeValue "READONLY")) s1 in
  let s3 := set None None s2 in
  let s4 := set (Some "s") (Some (mkModeValue "IMPORT")) s3 in
  let s5 := set (Some "s") None s4 in
  let s6 := apply_record (RDeleteSubject (mkDeleteSubjectKey "DELETE_SUBJECT" "s" 0) (mkDeleteSubjectValue "s" 1)) s5 in
  let s7 := apply_record (RTombstone (SchemaKey_new "s" 1)) s6 in
  let s8 := apply_record (RVersionHighWater (mkVersionHighWaterKey "NOOP" "compacted" 0) (mkVersionHighWaterValue 4)) s7 in
  checks [String.eqb (global_mode s2) "READONLY"; String.eqb (global_mode s3) "READWRITE";
    bool_decide (subject_mode s4 "s" = Some "IMPORT"); absent (subject_mode s5 "s");
    absent (versions s6 "s" false); absent (versions s7 "s" true);
    match Store.register "compacted" Avro (q "{'type':'int'}") [] None s8 with
    | Ok (registered, _) => reg_version registered =? 4
    | Err _ => false
    end].

Definition reader_tests : list bool := [
  reader_policy_uses_configured_runtime; apply_record_folds_schema_and_ignores_noop;
  fetch_errors_choose_recovery_action; retry_warnings_are_rate_limited;
  unsupported_records_are_classified_and_counted_with_offsets;
  rebuild_keeps_live_state_until_snapshot_is_complete;
  repeated_same_topic_rebuild_preserves_id_high_water; barrier_tokens_are_read_from_noop_values;
  apply_record_handles_mode_delete_tombstone].

Lemma reader_tests_pass : Forall (λ t, t = true) reader_tests.
Proof. repeat constructor; vm_compute; reflexivity. Qed.
