(* ===== verification/SecurityTests.v ===== *)
(** * The security settings against their own tests

    The unit tests of cli.rs, auth/basic.rs, auth/mod.rs and authz.rs, function by function, run on the
    definitions. Paths are their texts, a file system is the files it has, base64 is the standard
    alphabet with padding, and a header value is made of printable characters and tabs. *)

From stdpp Require Import base gmap strings list.
From Stdlib Require Import ZArith Ascii SpecFloat.
From S2P Require Import Prelude Text Json Types Cache Auth Authz Router Config.

#[local] Open Scope Z_scope.

(** ** The libraries *)

#[local] Instance whole_units : TimeUnits := {| Time := Z; secs_f64 := λ t, S754_zero false; human := λ _, "" |}.
#[local] Instance whole_config : ConfigUnits := {|
  millis_i64 := λ t, t; from_millis := λ n, n; time_eqb := Z.eqb; time_ltb := Z.ltb; time_leb := Z.leb;
  secs := λ n, n * 1000; millis := λ n, n; minutes := λ n, n * 60000;
  ByteSize := Z; bytes_u64 := λ b, b; bytes_f64 := λ _, S754_zero false; from_bytes := λ n, n;
  bytes_eqb := Z.eqb; mebibytes := λ n, n * 1048576 |}.

Definition requires_tls (p : ListenerProtocol) : bool := match p with PSsl | PSaslSsl => true | PSaslPlaintext => false end.
Definition requires_sasl (p : ListenerProtocol) : bool := match p with PSaslPlaintext | PSaslSsl => true | PSsl => false end.

Definition sextet (c : ascii) : option N :=
  let n := N_of_ascii c in
  (if (65 <=? n) && (n <=? 90) then Some (n - 65)
   else if (97 <=? n) && (n <=? 122) then Some (n - 71)
   else if (48 <=? n) && (n <=? 57) then Some (n + 4)
   else if n =? 43 then Some 62 else if n =? 47 then Some 63 else None)%N.

(** Four characters at a time; the last group may be padded. *)
Fixpoint base64 (s : string) : option string :=
  match s with
  | "" => Some ""
  | String a (String b (String c (String d rest))) =>
      x ← sextet a; y ← sextet b;
      let first := ascii_of_N (x * 4 + y / 16) in
      match rest, c, d with
      | "", "="%char, "="%char => Some (String first "")
      | "", _, "="%char =>
          z ← sextet c; Some (String first (String (ascii_of_N (y mod 16 * 16 + z / 4)) ""))
      | _, _, _ =>
          z ← sextet c; w ← sextet d; tail ← base64 rest;
          Some (String first (String (ascii_of_N (y mod 16 * 16 + z / 4)) (String (ascii_of_N (z mod 4 * 64 + w)) tail)))
      end%N
  | _ => None
  end.

Definition printable (s : string) : bool :=
  forallb (λ c, let n := nat_of_ascii c in (Nat.leb 32 n && Nat.ltb n 127) || Nat.eqb n 9) (String.list_ascii_of_string s).

#[local] Instance plain_auth : AuthLib := {|
  base64_decode := base64; utf8_valid _ := true; bcrypt_verify _ _ := None;
  header_to_str s := if printable s then Some s else None;
  header_from_str s := if printable s then Some s else None |}.

(** ** Options *)

(** The options given on the command line, with the defaults of the test helper [input]. *)
Definition input (options : list (string * string)) : SecurityCliInput :=
  let all k := (List.filter (λ kv, String.eqb kv.1 k) options).*2 in
  let opt k := last (all k) in
  let flag k := negb (Nat.eqb (length (all k)) 0) in
  mkSecurityCliInput (flag "require-auth") (default "" (opt "realm")) (opt "basic-auth-file") (all "basic-user")
    (all "auth-role") (default "off" (opt "bearer")) (default "sub" (opt "bearer-principal-claim"))
    (opt "jwks-endpoint-uri") (opt "jwks-valid-issuer") (opt "jwks-expected-audience") (opt "jwks-ca")
    (opt "jwks-principal-claim") (secs <$> (opt "jwks-refresh" ≫= parse_i32)) (opt "tls-cert") (opt "tls-key")
    (opt "tls-client-ca") (default "disabled" (opt "tls-client-auth")) (flag "authz") (all "super-user")
    (Some (secs (default 30 (opt "acl-refresh" ≫= parse_i32)))) (opt "forward-secret")
    (default "PLAINTEXT" (opt "kafka-security-protocol")) (default "PLAIN" (opt "kafka-sasl-mechanism"))
    (opt "kafka-sasl-username") (opt "kafka-sasl-password") (opt "kafka-sasl-password-file")
    (opt "kafka-sasl-keytab-path") (opt "kafka-sasl-client-principal") (opt "kafka-sasl-service-name")
    (opt "kafka-sasl-host") (opt "kafka-sasl-kdc-url") (opt "kafka-tls-ca") (opt "kafka-tls-server-name").

Definition newline : string := String (ascii_of_nat 10) "".

Definition password_files (path : string) : result string string :=
  if String.eqb path "/password" then Ok ("from-file" +:+ String (ascii_of_nat 13) newline) else Err "not found".

Definition built (options : list (string * string)) : result string SecurityOutput :=
  build_security requires_tls requires_sasl password_files (input options).

(** [sec]: the settings of options that are accepted. *)
Definition sec (options : list (string * string)) : option SecurityConfig := so_config <$> result_ok (built options).

Fixpoint contains (part s : string) : bool :=
  starts_with part s || match s with String _ s' => contains part s' | "" => false end.

Definition refused {A} (r : result string A) : bool := match r with Err _ => true | Ok _ => false end.
Definition refused_with {A} (part : string) (r : result string A) : bool :=
  match r with Err e => contains part e | Ok _ => false end.

Definition holds {A} (o : option A) (p : A → bool) : bool := match o with Some x => p x | None => false end.
Definition none {A} (o : option A) : bool := match o with Some _ => false | None => true end.

#[local] Instance BasicAuthConfig_eq_dec : EqDecision BasicAuthConfig.
Proof. solve_decision. Defined.
#[local] Instance OAuthBearerValidator_eq_dec : EqDecision OAuthBearerValidator.
Proof. solve_decision. Defined.
#[local] Instance ClientAuthMode_eq_dec : EqDecision ClientAuthMode.
Proof. solve_decision. Defined.
#[local] Instance TlsConfig_eq_dec : EqDecision TlsConfig.
Proof. solve_decision. Defined.
#[local] Instance ListenerProtocol_eq_dec : EqDecision ListenerProtocol.
Proof. solve_decision. Defined.
#[local] Instance SaslMechanism_eq_dec : EqDecision SaslMechanism.
Proof. solve_decision. Defined.
#[local] Instance SaslCredentials_eq_dec : EqDecision SaslCredentials.
Proof. solve_decision. Defined.
#[local] Instance TrustStore_eq_dec : EqDecision TrustStore.
Proof. solve_decision. Defined.
#[local] Instance TlsConnectorConfig_eq_dec : EqDecision TlsConnectorConfig.
Proof. solve_decision. Defined.
#[local] Instance ClientSecurity_eq_dec : EqDecision ClientSecurity.
Proof. solve_decision. Defined.

(** ** The settings *)

Definition default_input_is_fully_open : bool :=
  holds (sec []) (λ s, negb (sc_require_auth s) && String.eqb (sc_realm s) "" && none (sc_basic s) && none (sc_bearer s)
    && none (sc_tls s) && none (sc_authz s) && none (sc_forward_secret s) && none (sc_client s)).

Definition secured_nodes_require_a_forward_secret : bool :=
  forallb (λ o, refused_with "--forward-secret is required" (built o)) [[("require-auth", "")]; [("authz", "")]]
  && holds (sec [("require-auth", ""); ("forward-secret", "shared-secret")])
       (λ s, bool_decide (sc_forward_secret s = Some "shared-secret"))
  && refused (built [("require-auth", ""); ("forward-secret", "line" +:+ newline +:+ "break")]).

Definition require_auth_and_realm_passthrough : bool :=
  holds (sec [("require-auth", ""); ("realm", "MyRealm"); ("forward-secret", "shared-secret")])
    (λ s, sc_require_auth s && String.eqb (sc_realm s) "MyRealm").

(** The Basic settings of the options, where the users are a map. *)
Definition basic_of (options : list (string * string)) : option (list (string * string) * option string) :=
  s ← sec options; b ← sc_basic s; Some (bc_users b, bc_file b).

Definition basic_inline_users : bool :=
  bool_decide (basic_of [("basic-user", "alice:pw"); ("basic-user", "bob:bpw")]
               = Some ([("alice", "pw"); ("bob", "bpw")], None)).
Definition basic_malformed_inline_user_is_skipped : bool :=
  bool_decide (basic_of [("basic-user", "no-colon"); ("basic-user", "alice:pw")] = Some ([("alice", "pw")], None)).
Definition basic_file_only : bool :=
  bool_decide (basic_of [("basic-auth-file", "/etc/sr/htpasswd")] = Some ([], Some "/etc/sr/htpasswd")).
Definition basic_file_and_inline_both_set : bool :=
  bool_decide (basic_of [("basic-auth-file", "/etc/sr/htpasswd"); ("basic-user", "alice:pw")]
               = Some ([("alice", "pw")], Some "/etc/sr/htpasswd")).

Definition bearer_off_is_none : bool := holds (sec [("bearer", "off")]) (λ s, none (sc_bearer s)).
Definition bearer_unsecured_builds_validator_with_principal_claim : bool :=
  bool_decide ((sec [("bearer", "unsecured"); ("bearer-principal-claim", "preferred_username")] ≫= sc_bearer)
               = Some (UnsecuredJws "preferred_username")).
Definition bearer_invalid_value_errors : bool := refused (built [("bearer", "signed")]).

Definition tls_cert_and_key_build_config_with_each_client_auth : bool :=
  forallb (λ '(mode, expected),
      bool_decide ((sec [("tls-cert", "/c.pem"); ("tls-key", "/k.pem"); ("tls-client-ca", "/ca.pem"); ("tls-client-auth", mode)]
                      ≫= sc_tls) = Some (mkTls "/c.pem" "/k.pem" (Some "/ca.pem") (Some "/ca.pem") expected)))
    [("disabled", AuthDisabled); ("optional", AuthOptional); ("required", AuthRequired)].
Definition tls_invalid_configuration_cases_error : bool :=
  forallb (λ o, refused (built o))
    [[("tls-cert", "/c.pem")]; [("tls-key", "/k.pem")];
     [("tls-cert", "/c.pem"); ("tls-key", "/k.pem"); ("tls-client-auth", "mutual")]].

Definition authz_is (options : list (string * string)) (super_users : gset string) (refresh : Time) : bool :=
  holds (sec options ≫= sc_authz) (λ a,
    ac_enabled a && bool_decide (ac_super_users a = super_users) && time_eqb (ac_acl_refresh a) refresh).
Definition authz_enabled_builds_config : bool :=
  authz_is [("authz", ""); ("forward-secret", "shared-secret"); ("super-user", "admin"); ("super-user", "root"); ("acl-refresh", "45")]
    {["admin"; "root"]} (secs 45).
Definition authz_default_refresh : bool :=
  authz_is [("authz", ""); ("forward-secret", "shared-secret")] ∅ (secs 30).

(** ** The clients of the brokers *)

Definition client_of (options : list (string * string)) : option ClientSecurity := s ← sec options; sc_client s.

Definition client_plaintext_protocol_cases_are_none : bool :=
  forallb (λ p, holds (sec [("kafka-security-protocol", p)]) (λ s, none (sc_client s))) ["PLAINTEXT"; "plaintext"].
Definition client_ssl_has_tls_no_sasl : bool :=
  bool_decide (client_of [("kafka-security-protocol", "SSL"); ("kafka-tls-ca", "/broker-ca.pem"); ("kafka-tls-server-name", "broker.internal")]
               = Some (mkClientSecurity PSsl (Some (mkConnector (PemFile "/broker-ca.pem") "broker.internal")) None None)).
Definition client_ssl_default_server_name_is_localhost : bool :=
  bool_decide ((client_of [("kafka-security-protocol", "SSL")] ≫= cs_tls) = Some (mkConnector PlatformTrust "localhost")).

Definition sasl (protocol mechanism : string) (options : list (string * string)) : list (string * string) :=
  ("kafka-security-protocol", protocol) :: ("kafka-sasl-mechanism", mechanism) :: options.
Definition user_password : list (string * string) := [("kafka-sasl-username", "u"); ("kafka-sasl-password", "p")].

Definition client_sasl_plaintext_has_sasl_no_tls : bool :=
  bool_decide ((client_of (sasl "SASL_PLAINTEXT" "PLAIN" user_password))
               = Some (mkClientSecurity PSaslPlaintext None (Some (CredPlain "u" "p")) None)).
Definition client_sasl_password_file_is_read_and_conflicts_with_inline_password : bool :=
  let from_file := [("kafka-security-protocol", "SASL_PLAINTEXT"); ("kafka-sasl-username", "u"); ("kafka-sasl-password-file", "/password")] in
  bool_decide ((client_of from_file ≫= cs_sasl) = Some (CredPlain "u" "from-file"))
  && refused (built (("kafka-sasl-password", "inline") :: from_file)).
Definition client_sasl_ssl_has_both : bool :=
  holds (client_of (sasl "SASL_SSL" "SCRAM-SHA-256" user_password)) (λ c,
    bool_decide (cs_protocol c = PSaslSsl) && negb (none (cs_tls c))
    && holds (cs_sasl c) (λ s, match s with CredScram _ _ _ _ => true | _ => false end)).
Definition client_sasl_mechanisms_map : bool :=
  forallb (λ '(mech, want), bool_decide ((client_of (sasl "SASL_PLAINTEXT" mech user_password) ≫= cs_sasl)
                                          = Some (CredScram want "u" "p" false)))
    [("SCRAM-SHA-256", ScramSha256); ("SCRAM-SHA-512", ScramSha512)].
Definition client_gssapi_maps_runtime_credentials_without_username_or_password : bool :=
  holds (client_of (sasl "SASL_PLAINTEXT" "GSSAPI"
          [("kafka-sasl-keytab-path", "/etc/schema-registry/client.keytab"); ("kafka-sasl-client-principal", "schema-registry@EXAMPLE.COM");
           ("kafka-sasl-host", "broker.internal"); ("kafka-sasl-kdc-url", "tcp://kdc.example.com:88")])) (λ c,
    bool_decide (cs_sasl_host c = Some "broker.internal")
    && bool_decide (cs_sasl c = Some (CredGssapi "/etc/schema-registry/client.keytab" "schema-registry@EXAMPLE.COM" "kafka"
                                        "tcp://kdc.example.com:88"))).
Definition client_gssapi_requires_credential_fields : bool :=
  let valid := [("kafka-sasl-keytab-path", "/client.keytab"); ("kafka-sasl-client-principal", "schema-registry@EXAMPLE.COM");
                ("kafka-sasl-kdc-url", "tcp://kdc:88")] in
  forallb (λ field, refused_with ("--" +:+ field)
      (built (sasl "SASL_PLAINTEXT" "GSSAPI" (List.filter (λ kv, negb (String.eqb kv.1 field)) valid)))) valid.*1.
Definition invalid_client_security_cases : bool :=
  forallb (λ o, refused (built o))
    [sasl "SASL_PLAINTEXT" "PLAIN" [("kafka-sasl-password", "p")]; sasl "SASL_PLAINTEXT" "PLAIN" [("kafka-sasl-username", "u")];
     sasl "SASL_GSSAPI" "PLAIN" []; sasl "SASL_PLAINTEXT" "DIGEST-MD5" user_password].

(** ** Signed tokens *)

Definition bearer_jwks_off_variant_returns_none_handle : bool := holds (result_ok (built [])) (λ o, none (so_jwks_handle o)).
Definition bearer_jwks_builds_signed_validator : bool :=
  holds (result_ok (built [("bearer", "jwks"); ("jwks-endpoint-uri", "https://idp.example.com/.well-known/jwks.json")])) (λ o,
    negb (none (sc_bearer (so_config o)))
    && holds (so_jwks_handle o) (λ h, String.eqb (jw_endpoint_uri h) "https://idp.example.com/.well-known/jwks.json"
         && none (jw_ca_path h) && time_eqb (jw_refresh h) (minutes 1))).
Definition bearer_jwks_missing_endpoint_errors : bool :=
  refused_with "--bearer-jwks-endpoint-uri" (built [("bearer", "jwks")]).
Definition bearer_jwks_sets_issuer_and_audience : bool :=
  holds (result_ok (built [("bearer", "jwks"); ("jwks-endpoint-uri", "https://idp/jwks"); ("jwks-valid-issuer", "https://idp");
                           ("jwks-expected-audience", "kafka-sr"); ("jwks-principal-claim", "email")])) (λ o,
    holds (so_jwks_handle o) (λ h, String.eqb (jw_endpoint_uri h) "https://idp/jwks")
    && bool_decide (sc_bearer (so_config o) = Some (SignedJws "email" (Some "https://idp") (Some "kafka-sr")))).
Definition bearer_jwks_custom_refresh : bool :=
  holds (result_ok (built [("bearer", "jwks"); ("jwks-endpoint-uri", "https://idp/jwks"); ("jwks-refresh", "120")])) (λ o,
    holds (so_jwks_handle o) (λ h, time_eqb (jw_refresh h) (minutes 2))).

Definition cli_tests : list bool := [
  default_input_is_fully_open; secured_nodes_require_a_forward_secret; require_auth_and_realm_passthrough;
  basic_inline_users; basic_malformed_inline_user_is_skipped; basic_file_only; basic_file_and_inline_both_set;
  bearer_off_is_none; bearer_unsecured_builds_validator_with_principal_claim; bearer_invalid_value_errors;
  tls_cert_and_key_build_config_with_each_client_auth; tls_invalid_configuration_cases_error;
  authz_enabled_builds_config; authz_default_refresh; client_plaintext_protocol_cases_are_none;
  client_ssl_has_tls_no_sasl; client_ssl_default_server_name_is_localhost; client_sasl_plaintext_has_sasl_no_tls;
  client_sasl_password_file_is_read_and_conflicts_with_inline_password; client_sasl_ssl_has_both;
  client_sasl_mechanisms_map; client_gssapi_maps_runtime_credentials_without_username_or_password;
  client_gssapi_requires_credential_fields; invalid_client_security_cases; bearer_jwks_off_variant_returns_none_handle;
  bearer_jwks_builds_signed_validator; bearer_jwks_missing_endpoint_errors; bearer_jwks_sets_issuer_and_audience;
  bearer_jwks_custom_refresh].

Lemma cli_tests_pass : Forall (λ t, t = true) cli_tests.
Proof. repeat constructor; vm_compute; reflexivity. Qed.

(** ** The Basic store *)

(** The files of the tests. *)
Definition credential_files (path : string) : option string :=
  let text ls := Some (String.concat newline ls) in
  if String.eqb path "/htpasswd" then text ["# comment"; ""; "alice:filepw"; "bob:bobpw"; ""]
  else if String.eqb path "/parse" then
    text ["# leading comment"; ""; "  "; "alice:pw"; "malformed-no-colon"; "  bob:bpw  "; ""]
  else if String.eqb path "/roles" then text [" alice : pw , admin , developer"; "bob: other,user"; ""]
  else None.

Definition verifies (store : option BasicAuthStore) (cases : list (string * string * bool)) : bool :=
  holds store (λ s, forallb (λ '(user, pass, want), Bool.eqb (verify s user pass) want) cases).

Definition plaintext_verify : bool :=
  verifies (Some (from_users [("alice", "pw")])) [("alice", "pw", true); ("alice", "bad", false); ("bob", "pw", false)].

Definition load_inline_users_win_over_file : bool :=
  verifies (load credential_files (mkBasicAuthConfig [("alice", "inlinepw")] (Some "/htpasswd") ∅))
    [("alice", "inlinepw", true); ("alice", "filepw", false); ("bob", "bobpw", true)].

Definition load_file_skips_comments_and_blank_lines : bool :=
  verifies (load credential_files (mkBasicAuthConfig [] (Some "/parse") ∅))
    [("alice", "pw", true); ("bob", "bpw", true); ("malformed-no-colon", "", false)].

Definition load_missing_file_is_io_err : bool :=
  none (load credential_files (mkBasicAuthConfig [] (Some "/nonexistent/krabka-sr-basic-missing.htpasswd") ∅)).

Definition cp_properties_roles_are_parsed_and_enforced : bool :=
  let roles_for required := load credential_files (mkBasicAuthConfig [] (Some "/roles") {[ required ]}) in
  verifies (roles_for "admin") [("alice", "pw", true); ("alice", "pw,admin", false); ("bob", "other", false)]
  && holds (roles_for "admin") (λ s, bool_decide (authenticate s "alice" "pw" = Some ["admin"; "developer"]))
  && verifies (roles_for "*") [("bob", "other", true)].

(** ** Who a request is *)

#[local] Instance AuthMethod_eq_dec : EqDecision AuthMethod.
Proof. solve_decision. Defined.
#[local] Instance Principal_eq_dec : EqDecision Principal.
Proof. solve_decision. Defined.
#[local] Instance AuthDecision_eq_dec : EqDecision AuthDecision.
Proof. solve_decision. Defined.

Definition header_map (authorization : option string) : list (string * string) :=
  match authorization with Some v => [(AUTHORIZATION, v)] | None => [] end.

Definition state_with_basic (require_auth : bool) : AuthState :=
  mkAuthState (Some (from_users [("alice", "pw")])) None require_auth "schema-registry" None.

Definition decides (st : AuthState) (authorization : option string) (mtls : option Principal) (expected : AuthDecision) : bool :=
  bool_decide (resolve (header_map authorization) mtls st 0 = expected).

(** [basic_b64] of alice with the passwords [pw] and [wrong]. *)
Definition alice_pw : string := "Basic YWxpY2U6cHc=".
Definition alice_wrong : string := "Basic YWxpY2U6d3Jvbmc=".

Definition no_credentials_cases_respect_auth_requirement : bool :=
  forallb (λ '(require_auth, expected), decides (state_with_basic require_auth) None None expected)
    [(false, Authn anonymous); (true, Unauthorized)].
Definition bad_basic_is_unauthorized : bool := decides (state_with_basic false) (Some alice_wrong) None Unauthorized.
Definition good_basic_authenticates : bool :=
  decides (state_with_basic false) (Some alice_pw) None (Authn (mkPrincipal "alice" SaslPlain [])).
Definition presented_but_unconfigured_credential_cases_are_unauthorized : bool :=
  forallb (λ a, decides (mkAuthState None None false "schema-registry" None) (Some a) None Unauthorized)
    ["Bearer some.jwt.token"; alice_pw].
Definition invalid_basic_credential_cases_are_unauthorized : bool :=
  forallb (λ a, decides (state_with_basic false) (Some a) None Unauthorized) ["Basic !!!not-base64!!!"; "Basic anVzdGF1c2Vy"].
Definition mtls_principal_wins : bool :=
  let mtls := mkPrincipal "cert-user" MTls [] in
  decides (state_with_basic true) (Some alice_wrong) (Some mtls) (Authn mtls).

(** A handler behind the layer: the request that reached it. *)
Definition answers (st : AuthState) (path : string) (headers : list (string * string)) : Response :=
  auth_layer st 0 Rejected (mkRequest GET path "" headers (Some "") None None None false).

Definition only_authenticated_forward_bypasses_require_auth : bool :=
  forallb (λ '(secret, expected),
      match answers (mkAuthState None None true "schema-registry" (Some "shared-secret")) "/"
              ((FORWARD_HEADER, "ingress-node") :: match secret with Some s => [(FORWARD_SECRET_HEADER, s)] | None => [] end) with
      | Rejected _ => expected
      | Challenge None => negb expected
      | _ => false
      end)
    [(Some "shared-secret", true); (None, false); (Some "wrong", false)].

Definition double_quote : string := String (ascii_of_nat 34) "".

(** The header of the challenge; the model's [Challenge] stands for the status and the fixed body. *)
Definition auth_layer_401_matches_cp_byte_exact : bool :=
  holds (load credential_files (mkBasicAuthConfig [("alice", "pw,user")] None {[ "admin" ]})) (λ store,
    match answers (mkAuthState (Some store) None true "SchemaRegistry-Props" None) "/subjects" (header_map (Some alice_pw)) with
    | Challenge (Some www) => String.eqb www ("basic realm=" +:+ double_quote +:+ "SchemaRegistry-Props" +:+ double_quote)
    | _ => false
    end).

Definition auth_tests : list bool := [
  plaintext_verify; load_inline_users_win_over_file; load_file_skips_comments_and_blank_lines; load_missing_file_is_io_err;
  cp_properties_roles_are_parsed_and_enforced; no_credentials_cases_respect_auth_requirement; bad_basic_is_unauthorized;
  good_basic_authenticates; presented_but_unconfigured_credential_cases_are_unauthorized;
  invalid_basic_credential_cases_are_unauthorized; mtls_principal_wins; only_authenticated_forward_bypasses_require_auth;
  auth_layer_401_matches_cp_byte_exact].

Lemma auth_tests_pass : Forall (λ t, t = true) auth_tests.
Proof. repeat constructor; vm_compute; reflexivity. Qed.

(** * Authorization

    The tables of the unit tests of authz.rs: the target of every route, the conversion of ACL
    entries, the decisions and the statuses of the middleware. Kafka's ACL authorizer is a parameter of
    the model; the tests use literal entries, which [literal_acls] decides. *)

(** ** Percent encoding *)

Definition hex_digit (c : ascii) : option nat :=
  let n := nat_of_ascii c in
  if (48 <=? n)%nat && (n <=? 57)%nat then Some (n - 48)%nat
  else if (65 <=? n)%nat && (n <=? 70)%nat then Some (n - 55)%nat
  else if (97 <=? n)%nat && (n <=? 102)%nat then Some (n - 87)%nat
  else None.

(** A percent sign with two hexadecimal digits is the byte they name. *)
Fixpoint percent_bytes (s : string) : string :=
  match s with
  | String "%"%char ((String a (String b rest)) as tail) =>
      match hex_digit a, hex_digit b with
      | Some x, Some y => String (ascii_of_nat (16 * x + y)) (percent_bytes rest)
      | _, _ => String "%"%char (percent_bytes tail)
      end
  | String c rest => String c (percent_bytes rest)
  | EmptyString => EmptyString
  end.

#[local] Instance percent_lib : PercentLib := {| percent_decode := percent_bytes |}.

#[local] Instance ResourceType_eq_dec : EqDecision ResourceType.
Proof. solve_decision. Defined.
#[local] Instance AclOperation_eq_dec : EqDecision AclOperation.
Proof. solve_decision. Defined.
#[local] Instance PatternType_eq_dec : EqDecision PatternType.
Proof. solve_decision. Defined.
#[local] Instance PermissionType_eq_dec : EqDecision PermissionType.
Proof. solve_decision. Defined.
#[local] Instance AclEntry_eq_dec : EqDecision AclEntry.
Proof. solve_decision. Defined.

(** ** Targets *)

(** Methods that are no operation of their route. *)
Definition unmapped_methods : list (Method * string) := [
  (PUT, "/subjects/s"); (DELETE, "/subjects/s/versions"); (PUT, "/subjects/s/versions/1"); (DELETE, "/config");
  (DELETE, "/mode"); (POST, "/mode/s"); (GET, "/schemas/import"); (PUT, "/schemas/import") ].

Lemma unmapped_methods_on_known_routes_have_no_authz_target :
  forallb (λ c, bool_decide (authz_target c.1 c.2 = None)) unmapped_methods = true.
Proof. vm_compute. reflexivity. Qed.

Definition ROUTE_MAPPING_CASES : list (string * Method * string * option (ResourceType * string * AclOperation)) := [
  ("register", POST, "/subjects/orders-value/versions", Some (Topic, "orders-value", Write));
  ("read-version", GET, "/subjects/orders-value/versions/1", Some (Topic, "orders-value", Read));
  ("version-schema", GET, "/subjects/s/versions/1/schema", Some (Topic, "s", Read));
  ("referenced-by", GET, "/subjects/s/versions/1/referencedby", Some (Topic, "s", Read));
  ("delete-subject", DELETE, "/subjects/orders-value", Some (Topic, "orders-value", Delete));
  ("delete-version", DELETE, "/subjects/s/versions/2", Some (Topic, "s", Delete));
  ("lookup-subject", POST, "/subjects/s", Some (Topic, "s", Read));
  ("alter-subject-config", PUT, "/config/s", Some (Topic, "s", Alter));
  ("describe-subject-config", GET, "/config/s", Some (Topic, "s", Describe));
  ("delete-subject-config", DELETE, "/config/s", Some (Topic, "s", Alter));
  ("delete-subject-mode", DELETE, "/mode/s", Some (Topic, "s", Alter));
  ("compatibility", POST, "/compatibility/subjects/s/versions/1", Some (Topic, "s", Read));
  ("alter-global-config", PUT, "/config", Some (Cluster, "kafka-cluster", Alter));
  ("describe-global-config", GET, "/config", Some (Cluster, "kafka-cluster", Describe));
  ("describe-global-mode", GET, "/mode", Some (Cluster, "kafka-cluster", Describe));
  ("list-subjects", GET, "/subjects", Some (Cluster, "kafka-cluster", Describe));
  ("schema-by-id", GET, "/schemas/ids/1", Some (Cluster, "kafka-cluster", Read));
  ("schema-by-id-raw", GET, "/schemas/ids/1/schema", Some (Cluster, "kafka-cluster", Read));
  ("schema-by-id-subjects", GET, "/schemas/ids/1/subjects", Some (Cluster, "kafka-cluster", Read));
  ("list-schemas", GET, "/schemas", Some (Cluster, "kafka-cluster", Read));
  ("import-schemas", POST, "/schemas/import", Some (Cluster, "kafka-cluster", Write));
  ("schema-types", GET, "/schemas/types", Some (Cluster, "kafka-cluster", Describe));
  ("alter-global-mode", PUT, "/mode", Some (Cluster, "kafka-cluster", Alter));
  ("alter-subject-mode", PUT, "/mode/s", Some (Topic, "s", Alter));
  ("describe-subject-mode", GET, "/mode/s", Some (Topic, "s", Describe));
  ("list-versions", GET, "/subjects/s/versions", Some (Topic, "s", Read));
  ("schema-id-versions", GET, "/schemas/ids/1/versions", Some (Cluster, "kafka-cluster", Read));
  ("percent-decoded-subject", POST, "/subjects/foo%2Fbar/versions", Some (Topic, "foo/bar", Write));
  ("root-unmapped", GET, "/", None) ].

Lemma every_registered_route_has_an_authz_target_or_explicit_exemption :
  forallb (λ '(_, method, path, expected),
    bool_decide (authz_target method path = expected) &&
    (match expected with Some _ => true | None => bool_decide (method = GET) && String.eqb path "/" end))
    ROUTE_MAPPING_CASES = true.
Proof. vm_compute. reflexivity. Qed.

(** ** ACL entries *)

Definition token_acl (operation : AclOperation) : AclEntry :=
  mkAclEntry Cluster KAFKA_CLUSTER Literal "User:alice" "*" operation Allow.
Definition txn_acl : AclEntry :=
  mkAclEntry TransactionalId "my-txn" Literal "User:flink" "*" TwoPhaseCommit Allow.
Definition typed_acl (rt : ResourceType) (pattern : PatternType) : AclEntry :=
  mkAclEntry rt "alice" pattern "User:alice" "*" Describe Allow.

(** The entries of the three tests with what they become. *)
Definition admin_entries : list (AclEntry * option AclEntry) := [
  (txn_acl, Some txn_acl);
  (token_acl CreateTokens, Some (token_acl CreateTokens));
  (token_acl DescribeTokens, Some (token_acl DescribeTokens));
  (typed_acl DelegationToken Literal, Some (typed_acl DelegationToken Literal));
  (typed_acl User Prefixed, Some (typed_acl User Prefixed));
  (typed_acl Topic Match, None) ].

Lemma acl_entries_from_admin :
  forallb (λ c, bool_decide (acl_entry_from_admin c.1 = c.2)) admin_entries = true.
Proof. vm_compute. reflexivity. Qed.

(** ** Decisions *)

(** Literal entries for any host. *)
Definition literal_acls (entries : list AclEntry) (r : AuthorizationRequest) : PermissionType :=
  if existsb (λ e, bool_decide (ae_resource_type e = ar_resource_type r) && String.eqb (ae_resource_name e) (ar_resource_name r)
                   && String.eqb (ae_principal e) ("User:" +:+ pr_name (ar_principal r))
                   && bool_decide (ae_operation e = ar_operation r) && bool_decide (ae_permission_type e = Allow)) entries
  then Allow else Deny.

Definition host : string := "0.0.0.0:0".
Definition alice_write_s : AclEntry := mkAclEntry Topic "s" Literal "User:alice" "*" Write Allow.
Definition alice : Principal := mkPrincipal "alice" SaslPlain [].
Definition with_acls (super_users : list string) (enabled : bool) (acls : list AclEntry) : SchemaRegistryAuthz :=
  mkAuthz literal_acls acls (list_to_set super_users) enabled.

Definition authorize_decisions
    : list (string * SchemaRegistryAuthz * Principal * ResourceType * string * AclOperation * bool) := [
  ("matching-acl", with_acls [] true [alice_write_s], alice, Topic, "s", Write, true);
  ("different-subject", with_acls [] true [alice_write_s], alice, Topic, "other", Write, false);
  ("super-user-without-acl", with_acls ["alice"] true [], alice, Topic, "s", Write, true);
  ("disabled-topic", with_acls [] false [], alice, Topic, "s", Write, true);
  ("disabled-cluster", with_acls [] false [], anonymous, Cluster, KAFKA_CLUSTER, Describe, true) ].

Lemma authorize_decisions_are_named_and_table_driven :
  forallb (λ '(_, az, principal, rt, name, op, expected), Bool.eqb (authorize az principal host rt name op) expected)
    authorize_decisions = true.
Proof. vm_compute. reflexivity. Qed.

(** ** The middleware *)

(** A handler that answers every request. *)
Definition echo_ok (req : Request) : Response := Rejected req.

Definition anonymous_acl : AclEntry := mkAclEntry Topic "orders-value" Literal "User:ANONYMOUS" "*" Write Allow.

(** Whether a request passes the layer. *)
Definition middleware_passes (matching_acl : bool) (method : Method) (path : string) (forwarded : bool) : option bool :=
  let az := with_acls [] true (if matching_acl then [anonymous_acl] else []) in
  let req := mkRequest method path "" [] (Some "") (Some host) None None forwarded in
  match authz_layer az echo_ok req with
  | Rejected _ => Some true
  | Failed Forbidden => Some false
  | _ => None
  end.

(** [true] is the handler's 200, [false] the 403. *)
Definition middleware_statuses : list (string * bool * Method * string * bool * bool) := [
  ("deny-without-acl", false, POST, "/subjects/orders-value/versions", false, false);
  ("allow-matching-acl", true, POST, "/subjects/orders-value/versions", false, true);
  ("ungated-root", false, GET, "/", false, true);
  ("trusted-forward", false, POST, "/subjects/orders-value/versions", true, true) ].

Lemma middleware_statuses_are_named_and_table_driven :
  forallb (λ '(_, acl, method, path, forwarded, expected),
    bool_decide (middleware_passes acl method path forwarded = Some expected)) middleware_statuses = true.
Proof. vm_compute. reflexivity. Qed.
