(* ===== verification/ClientTests.v ===== *)
(** * The registry client and the cache against their own tests

    The unit tests of registry/mod.rs, cache.rs and subject.rs (schema-serde), function by function,
    run on the definitions with the JSON of [JsonSyntax]. A mock server is a list of answers; a test
    that waits for a background fetch runs the fetch and moves the clock to the next retry. Times are
    seconds in double precision. In the texts below a single quote stands for a double quote. *)

From stdpp Require Import base gmap strings list pretty.
From Stdlib Require Import ZArith Ascii SpecFloat.
From S2P Require Import Prelude Text Float Json Types Store Record JsonSyntax Authz Client ClientHttp Cache CacheFacts Config SerdeApi.

#[local] Open Scope Z_scope.

#[local] Existing Instance text_serde.

Fixpoint quoted (s : string) : string :=
  match s with
  | "" => ""
  | String c s => String (if Ascii.eqb c "'" then chr 34 else c) (quoted s)
  end.

Definition all (l : list bool) : bool := forallb (λ b, b) l.

(** ** Subjects *)

Definition topic_name_strategy : bool :=
  all [String.eqb (topic_subject "orders" Value) "orders-value"; String.eqb (topic_subject "orders" Key) "orders-key"].
Definition schema_kind_wire_names_round_trip : bool :=
  forallb (λ k, bool_decide (from_wire_name (kind_wire_name k) = k)) [KAvro; KProtobuf; KJson].
Definition unknown_schema_type_reads_as_the_registry_default : bool :=
  forallb (λ w, bool_decide (from_wire_name w = KAvro)) [None; Some "AVRO"; Some "SOMETHING_NEW"].
Definition schema_kind_wire_names : bool :=
  forallb (λ '(k, w), bool_decide (kind_wire_name k = w)) [(KAvro, None); (KProtobuf, Some "PROTOBUF"); (KJson, Some "JSON")].

(** ** A mock server *)

(** A route: its method and path, the body it wants, and its answer. *)
Record Mock := mkMock { mk_method : Method; mk_path : string; mk_want : option string; mk_status : Z; mk_text : string }.

Definition on_get (path : string) (status : Z) (text : string) : Mock := mkMock GET path None status (quoted text).
Definition on_post (path want : string) (status : Z) (text : string) : Mock :=
  mkMock POST path (Some (quoted want)) status (quoted text).

(** [path] does not look at the query. *)
Definition without_query (url : string) : string := match split_once "?" url with Some (p, _) => p | None => url end.

Definition answers_to (m : Method) (url : string) (body : option string) (k : Mock) : bool :=
  bool_decide (mk_method k = m) && String.eqb (mk_path k) (without_query url)
  && match mk_want k with
     | None => true
     | Some want => bool_decide ((body ≫= from_slice_value) = from_slice_value want)
     end.

Definition mock (routes : list Mock) (m : Method) (url : string) (body : option string) : result string Response :=
  Ok match List.find (answers_to m url body) routes with
     | Some k => mkResponse (mk_status k) (Ok (mk_text k))
     | None => mkResponse 404 (Ok "")
     end.

Definition api (routes : list Mock) : RegistryApi :=
  let malformed := λ _ : string, "malformed" in
  mkApi (client_register malformed (mock routes) "") (client_lookup malformed (mock routes) "")
    (client_latest malformed (mock routes) "") (client_schema_by_id malformed (mock routes) "")
    (client_schema_by_subject_version malformed (mock routes) "").

Definition gives {A} `{EqDecision A} (r : result SchemaSerdeError A) (x : A) : bool :=
  match r with Ok y => bool_decide (y = x) | Err _ => false end.

(** ** The client *)

Definition base_url_trims_trailing_slash : bool := String.eqb (base_url "http://localhost:8081/") "http://localhost:8081".

Definition payload_omits_avro_type_and_empty_refs : bool :=
  String.eqb (json_print (payload KAvro (quoted "'string'") [] None)) (quoted "{'schema':'\'string\''}").

Fixpoint has_part (part s : string) : bool :=
  starts_with part s || match s with String _ s' => has_part part s' | "" => false end.

Definition payload_includes_protobuf_type : bool :=
  let j := json_print (payload KProtobuf (quoted "syntax = 'proto3';") [] (Some "demo.Order")) in
  all [has_part (quoted "'schemaType':'PROTOBUF'") j; has_part (quoted "'messageType':'demo.Order'") j].

Definition register_posts_schema_payload_and_returns_id : bool :=
  gives (api_register (api [on_post "/subjects/orders-value/versions"
      "{'schema':'syntax = \'proto3\';','schemaType':'PROTOBUF','messageType':'demo.Order','references':[{'name':'money.proto','subject':'money-value','version':3}]}"
      200 "{'id':42}"])
    "orders-value" KProtobuf (quoted "syntax = 'proto3';") [mkSchemaReference "money.proto" "money-value" 3] (Some "demo.Order")) 42.

Definition lookup_posts_schema_payload_and_returns_existing_id : bool :=
  gives (api_lookup (api [on_post "/subjects/orders-value"
      "{'schema':'{\'type\':\'object\'}','schemaType':'JSON','references':[{'name':'common.json','subject':'common-value','version':2}]}"
      200 "{'id':43,'version':7,'schema':'{\'type\':\'object\'}','schemaType':'JSON'}"])
    "orders-value" KJson (quoted "{'type':'object'}") [mkSchemaReference "common.json" "common-value" 2] None) 43.

Definition latest_id_fetches_latest_subject_version : bool :=
  gives (client_latest_id (λ _, "") (mock [on_get "/subjects/orders-value/versions/latest" 200
      "{'id':44,'version':9,'schema':'syntax = \'proto3\';','schemaType':'PROTOBUF','messageType':'demo.Order'}"]) "" "orders-value") 44.

Definition subject_versions_for_id_returns_every_binding : bool :=
  gives (subject_versions_for_id (λ _, "") (mock [on_get "/schemas/ids/42/versions" 200
      "[{'subject':'orders-value','version':3},{'subject':'orders-archive-value','version':1}]"]) "" 42)
    [("orders-value", 3); ("orders-archive-value", 1)].

Definition subject_versions_for_id_reports_an_unregistered_id : bool :=
  match subject_versions_for_id (λ _, "") (mock [on_get "/schemas/ids/99/versions" 404
      "{'error_code':40403,'message':'Schema not found'}"]) "" 99 with
  | Err (RegistryStatus 404 40403 _) => true
  | _ => false
  end.

(** The codes of the two fixtures under shorter messages, and a body that is no JSON. *)
Definition error_answers : list (Z * string * Z * bool * bool) := [
  (404, "{'error_code':40401,'message':'Subject not found.'}", 40401, true, false);
  (422, "{'error_code':42201,'message':'Invalid schema'}", 42201, false, false);
  (500, "forward failed", 500, false, true)].

Definition confluent_errors_are_typed_and_non_json_errors_remain_usable : bool :=
  forallb (λ '(status, body, code, subject_not_found, transient),
      match subject_versions_for_id (λ _, "") (mock [on_get "/schemas/ids/9/versions" status body]) "" 9 with
      | Err (RegistryStatus s c message as e) =>
          all [s =? status; c =? code; negb (String.eqb message ""); Bool.eqb (is_subject_not_found e) subject_not_found;
               Bool.eqb (is_transient_registry_failure e) transient]
      | _ => false
      end) error_answers.

Definition references_are_fetched_deleted_and_returned_dependency_first : bool :=
  let routes := [
    on_get "/subjects/b-value/versions/2" 200
      "{'id':2,'version':2,'schema':'B','references':[{'name':'a.avsc','subject':'a-value','version':1}]}";
    on_get "/subjects/a-value/versions/1" 200 "{'id':1,'version':1,'schema':'A'}"] in
  match reference_sources_ordered (api_by_version (api routes)) [mkSchemaReference "b.avsc" "b-value" 2] with
  | Ok (sources, order) =>
      all [bool_decide (order = ["a.avsc"; "b.avsc"]); bool_decide (sources !! "a.avsc" = Some "A");
           bool_decide (sources !! "b.avsc" = Some "B")]
  | Err _ => false
  end.

Definition registry_error_predicates_use_confluent_codes : bool :=
  forallb (λ '(code, subject, schema, incompatible),
      let e := RegistryStatus 400 code "fixture" in
      all [Bool.eqb (is_subject_not_found e) subject; Bool.eqb (is_schema_not_found e) schema; Bool.eqb (is_incompatible e) incompatible])
    [(40401, true, false, false); (40403, false, true, false); (409, false, false, true)].

Definition client_tests : list bool := [
  topic_name_strategy; schema_kind_wire_names_round_trip; unknown_schema_type_reads_as_the_registry_default; schema_kind_wire_names;
  base_url_trims_trailing_slash; payload_omits_avro_type_and_empty_refs; payload_includes_protobuf_type;
  register_posts_schema_payload_and_returns_id; lookup_posts_schema_payload_and_returns_existing_id;
  latest_id_fetches_latest_subject_version; subject_versions_for_id_returns_every_binding;
  subject_versions_for_id_reports_an_unregistered_id; confluent_errors_are_typed_and_non_json_errors_remain_usable;
  references_are_fetched_deleted_and_returned_dependency_first; registry_error_predicates_use_confluent_codes].

Lemma client_tests_pass : Forall (λ t, t = true) client_tests.
Proof. repeat constructor; vm_compute; reflexivity. Qed.

(** ** The retry policy *)

Definition f64_secs (n d : Z) : spec_float := SFdiv 53 1024 (f64_of_Z n) (f64_of_Z d).

#[local] Instance f64_units : TimeUnits := {| Time := spec_float; secs_f64 := λ t, t; human := λ _, "" |}.
#[local] Instance f64_config : ConfigUnits := {|
  millis_i64 := λ _, 0; from_millis := λ n, f64_secs n 1000; time_eqb := SFeqb; time_ltb := SFltb; time_leb := SFleb;
  secs := λ n, f64_secs n 1; millis := λ n, f64_secs n 1000; minutes := λ n, f64_secs (n * 60) 1;
  ByteSize := Z; bytes_u64 := λ b, b; bytes_f64 := f64_of_Z; from_bytes := λ b, b; bytes_eqb := Z.eqb; mebibytes := λ n, n * 1048576 |}.

Definition default_mode_is_auto_register : bool :=
  match cc_mode default_cache_config with AutoRegister => true | _ => false end.

Definition default_fetch_retry_delay_is_stable_per_id_monotonic_and_capped : bool :=
  match mapM (retry_delay default_retry_policy 91) [1; 2; 3; 7; 8; 2 ^ 32 - 1] with
  | Some [first; second; third; before_cap; capped; far] =>
      all [first <=? second; second <=? third; third <=? before_cap; before_cap <=? capped; capped =? NANOS; far =? capped]
  | _ => false
  end.

Definition custom_fetch_retry_policy_controls_delay_range : bool :=
  match policy_new (millis 25) (millis 50) with
  | Ok policy =>
      bool_decide (mapM (retry_delay policy 0) [1; 2; 2 ^ 32 - 1] = Some [25 * 1000000; 50 * 1000000; 50 * 1000000])
  | Err _ => false
  end.

Definition accepts (initial max : Time) : bool := match policy_new initial max with Ok _ => true | Err _ => false end.
Definition fetch_retry_policy_accepts_equal_bounds : bool := accepts (millis 25) (millis 25).
Definition fetch_retry_policy_rejects_invalid_bounds : bool :=
  forallb (λ '(initial, max), negb (accepts initial max))
    [(secs 0, millis 1); (millis 1, secs 0); (S754_infinity false, secs 1); (millis 2, millis 1)].

Definition cache_retains_fetch_retry_policy : bool :=
  match policy_new (millis 25) (millis 50) with
  | Ok policy =>
      let kept := fetch_retry_policy (cache_new (api []) (mkCacheConfig AutoRegister policy)) in
      time_eqb (initial_backoff kept) (millis 25) && time_eqb (max_backoff kept) (millis 50)
  | Err _ => false
  end.

(** ** The cache *)

Definition intern_is_idempotent_per_subject : bool :=
  let i := mkInterned "orders-value" KAvro "a" [] None in
  Nat.eqb (length (interned (intern i (intern i inner_default)))) 1.

(** The answer of a read of a warm cache. *)
Definition reads (id : Z) (g : Inner) (text : string) : bool :=
  match (writer_schema id 0 g).1.1 with Ok s => String.eqb s text | Err _ => false end.

Definition seeded_reads_are_synchronous : bool :=
  let g := seed_writer_schema 42 "schema-text" (seed_subject_id "orders-value" 42 inner_default) in
  all [bool_decide (id_for_subject g "orders-value" = Some 42);
       match (writer_schema 7 0 g).1.1 with Err _ => true | Ok _ => false end; reads 42 g "schema-text"].

Definition message_type_metadata_is_cached_by_id : bool :=
  let g := seed_writer_message_type 9 "demo.Order" inner_default in
  all [bool_decide (writer_message_type 9 g = Some "demo.Order"); bool_decide (writer_message_type 10 g = None)].

(** Protobuf texts are compared as they are written here: the descriptor of a text is a library's. *)
Definition warm (mode : RegisterMode) (kind : SchemaKind) (schema : string) (message_type : option string) (routes : list Mock)
    : Inner * result SchemaSerdeError unit :=
  prewarm from_slice_value (λ _, None : option unit) (api routes) mode
    (intern (mkInterned "orders-value" kind schema [] message_type) inner_default).

Definition warmed (r : Inner * result SchemaSerdeError unit) (p : Inner → bool) : bool :=
  match r with (g, Ok _) => p g | _ => false end.

Definition proto3 : string := quoted "syntax = 'proto3';".
Definition object_schema : string := quoted "{'type':'object'}".

Definition prewarm_auto_register_resolves_subject_id_and_message_type : bool :=
  warmed (warm AutoRegister KProtobuf proto3 (Some "demo.Order")
      [on_post "/subjects/orders-value/versions" "{'schema':'syntax = \'proto3\';','schemaType':'PROTOBUF','messageType':'demo.Order'}"
         200 "{'id':50}"]) (λ g,
    all [bool_decide (id_for_subject g "orders-value" = Some 50); reads 50 g proto3;
         bool_decide (writer_message_type 50 g = Some "demo.Order")]).

Definition prewarm_lookup_only_uses_lookup_endpoint : bool :=
  warmed (warm LookupOnly KJson object_schema None
      [on_post "/subjects/orders-value" "{'schema':'{\'type\':\'object\'}','schemaType':'JSON'}"
         200 "{'id':51,'version':3,'schema':'{\'type\':\'object\'}','schemaType':'JSON'}"]) (λ g,
    all [bool_decide (id_for_subject g "orders-value" = Some 51); reads 51 g object_schema]).

Definition latest_answer (text : string) : list Mock := [on_get "/subjects/orders-value/versions/latest" 200 text].

Definition prewarm_use_latest_caches_registry_schema_references_and_message_type : bool :=
  warmed (warm UseLatest KProtobuf proto3 (Some "demo.Local")
      (latest_answer "{'id':52,'version':4,'schema':'syntax = \'proto3\';','schemaType':'PROTOBUF','messageType':'demo.Local'}")) (λ g,
    all [bool_decide (id_for_subject g "orders-value" = Some 52); reads 52 g proto3;
         bool_decide (ws_references <$> id_writer_schema g !! 52 = Some ∅); bool_decide (writer_message_type 52 g = Some "demo.Local")]).

Definition prewarm_use_latest_accepts_absent_confluent_message_type : bool :=
  warmed (warm UseLatest KProtobuf proto3 (Some "demo.Local")
      (latest_answer "{'id':53,'version':1,'schema':'syntax = \'proto3\';','schemaType':'PROTOBUF'}")) (λ g,
    all [bool_decide (id_for_subject g "orders-value" = Some 53); bool_decide (writer_message_type 53 g = None)]).

(** The answer carries the schema text as a JSON string. *)
Definition latest_with (id : Z) (schema : string) (kind : SchemaKind) : list Mock :=
  [mkMock GET "/subjects/orders-value/versions/latest" None 200 (json_print (JObject
     [("id", JNumber (PosInt id)); ("version", JNumber (PosInt 1)); ("schema", JString schema);
      ("schemaType", match kind_wire_name kind with Some w => JString w | None => JNull end)]))].

Definition use_latest_accepts_semantically_equivalent_schema_text : bool :=
  forallb (λ '(kind, local, remote),
      warmed (warm UseLatest kind (quoted local) None (latest_with 54 (quoted remote) kind))
        (λ g, bool_decide (id_for_subject g "orders-value" = Some 54)))
    [(KAvro, "{'type':'record','name':'Order','fields':[]}", "{ 'fields': [], 'name': 'Order', 'type': 'record' }");
     (KJson, "{'type':'object','properties':{'id':{'type':'integer'}}}", "{ 'properties': { 'id': { 'type': 'integer' } }, 'type': 'object' }")].

Definition reference_equality_does_not_depend_on_array_order : bool :=
  let a := mkSchemaReference "a.proto" "a-value" 1 in let b := mkSchemaReference "b.proto" "b-value" 2 in
  references_equivalent [a; b] [b; a].

Definition use_latest_rejects_a_schema_that_differs_from_local_encoding : bool :=
  forallb (λ kind,
      match warm UseLatest kind "local schema" None (latest_with 52 "remote schema" kind) with
      | (g, Err e) => has_part "orders-value" (serde_error_message e) && bool_decide (id_for_subject g "orders-value" = None)
      | _ => false
      end) [KAvro; KProtobuf; KJson].

(** ** Background fetches *)

(** [wait_for_writer_schema]: the answer, the state and the number of fetches. [serves n] are the routes of the
    [n]-th fetch. *)
Fixpoint wait_for_writer_schema (turns : nat) (serves : nat → list Mock) (fetches : nat) (id now : Z) (g : Inner)
    : option (result SchemaSerdeError WriterSchema * Inner * nat) :=
  match turns with
  | O => None
  | S turns =>
      match writer_schema_with_references id now g with
      | (Err (WriterSchemaPending _), g, Some task) =>
          g ← finish_fetch default_retry_policy task (resolve_writer_schema (api (serves fetches)) task) now g;
          wait_for_writer_schema turns serves (S fetches) id now g
      | (Err (WriterSchemaPending _), g, None) =>
          wait_for_writer_schema turns serves fetches id (default now (retry_after g !! id)) g
      | (r, g, _) => Some (r, g, fetches)
      end
  end.

Definition waited (serves : nat → list Mock) (id : Z) (p : result SchemaSerdeError WriterSchema → Inner → nat → bool) : bool :=
  match wait_for_writer_schema 8 serves 0 id 0 inner_default with Some (r, g, n) => p r g n | None => false end.

Definition unavailable (id : Z) (r : result SchemaSerdeError WriterSchema) : bool :=
  match r with Err (WriterSchemaUnavailable id' _) => id' =? id | _ => false end.

Definition writer_schema_fetch_resolves_registry_reference_sources : bool :=
  waited (λ _, [
      on_get "/schemas/ids/60" 200
        "{'schema':'syntax = \'proto3\'; import \'money.proto\';','schemaType':'PROTOBUF','references':[{'name':'money.proto','subject':'money-value','version':1}]}";
      on_get "/subjects/money-value/versions/1" 200
        "{'id':61,'version':1,'schema':'syntax = \'proto3\'; package money; message Money { int64 cents = 1; }','schemaType':'PROTOBUF'}"])
    60 (λ r _ _, match r with Ok w => bool_decide (is_Some (ws_references w !! "money.proto")) | Err _ => false end).

Definition writer_schema_fetch_reports_missing_reference_without_remaining_pending : bool :=
  waited (λ _, [
      on_get "/schemas/ids/62" 200
        "{'schema':'syntax = \'proto3\'; import \'missing.proto\';','schemaType':'PROTOBUF','references':[{'name':'missing.proto','subject':'missing-value','version':1}]}";
      on_get "/subjects/missing-value/versions/1" 404 "not found"])
    62 (λ r _ _, unavailable 62 r).

(** One fetch, and a second read answers the same. *)
Definition terminal (id : Z) (r : result SchemaSerdeError WriterSchema) (g : Inner) (fetches : nat) : bool :=
  all [unavailable id r; unavailable id (writer_schema_with_references id 0 g).1.1; Nat.eqb fetches 1].

Definition writer_schema_fetch_terminally_caches_malformed_registry_json : bool :=
  waited (λ _, [on_get "/schemas/ids/63" 200 "{not valid json"]) 63 (terminal 63).
Definition writer_schema_fetch_terminally_caches_not_found_response : bool :=
  waited (λ _, [on_get "/schemas/ids/65" 404 "not found"]) 65 (terminal 65).

(** The first fetch fails, the second answers. *)
Definition recovers (id status : Z) (text : string) : bool :=
  waited (λ n, if Nat.eqb n 0 then [on_get ("/schemas/ids/" +:+ pretty id) status text]
               else [on_get ("/schemas/ids/" +:+ pretty id) 200 "{'schema':'recovered schema'}"]) id
    (λ r g fetches, match r with Ok w => String.eqb (ws_schema w) "recovered schema" | Err _ => false end
       && Nat.eqb fetches 2 && bool_decide (retry_attempts g !! id = None)).

Definition writer_schema_fetch_retries_after_a_throttled_registry_response : bool := recovers 64 429 "too many requests".
Definition writer_schema_fetch_retries_after_a_transient_registry_failure : bool := recovers 63 503 "unavailable".

Definition cache_tests : list bool := [
  default_mode_is_auto_register; default_fetch_retry_delay_is_stable_per_id_monotonic_and_capped;
  custom_fetch_retry_policy_controls_delay_range; fetch_retry_policy_accepts_equal_bounds;
  fetch_retry_policy_rejects_invalid_bounds; cache_retains_fetch_retry_policy; intern_is_idempotent_per_subject;
  seeded_reads_are_synchronous; message_type_metadata_is_cached_by_id;
  prewarm_auto_register_resolves_subject_id_and_message_type; prewarm_lookup_only_uses_lookup_endpoint;
  prewarm_use_latest_caches_registry_schema_references_and_message_type;
  prewarm_use_latest_accepts_absent_confluent_message_type; use_latest_accepts_semantically_equivalent_schema_text;
  reference_equality_does_not_depend_on_array_order; use_latest_rejects_a_schema_that_differs_from_local_encoding;
  writer_schema_fetch_resolves_registry_reference_sources; writer_schema_fetch_reports_missing_reference_without_remaining_pending;
  writer_schema_fetch_terminally_caches_malformed_registry_json; writer_schema_fetch_terminally_caches_not_found_response;
  writer_schema_fetch_retries_after_a_throttled_registry_response; writer_schema_fetch_retries_after_a_transient_registry_failure].

Lemma cache_tests_pass : Forall (λ t, t = true) cache_tests.
Proof. repeat constructor; vm_compute; reflexivity. Qed.
