(* ===== verification/UnitTests.v ===== *)
(** * Further unit tests of the source

    The tables of the unit tests of error.rs, wire.rs (schema-serde), election/protocol.rs,
    rest/forward.rs, kafkastore/topic.rs, config.rs and of the runtime options of
    bin/schema-registry.rs, run on the definitions. *)

From stdpp Require Import base gmap strings list.
From Stdlib Require Import ZArith Ascii SpecFloat.
From S2P Require Import Prelude Text Json Types Store Record JsonSyntax Reader KafkaStore Wire Topic Election Auth Authz Router Cache Config.

#[local] Open Scope Z_scope.

(** ** error.rs *)

Definition codes_map_to_status : list (SrError * Z * Z) := [
  (NotFound, 404, 404); (MethodNotAllowed, 405, 405); (Forbidden, 40301, 403);
  (InvalidRequest "bad request", 400, 400); (ForwardFailed, 50003, 500); (UnknownLeader "leader not known", 50004, 500);
  (SubjectNotFound "s", 40401, 404); (VersionNotFound, 40402, 404); (SchemaNotFound, 40403, 404);
  (InvalidSchema "bad", 42201, 422); (Backend "x", 50001, 500); (OperationNotPermitted "s", 42205, 422);
  (SubjectNotSoftDeleted "s", 40405, 404); (VersionNotSoftDeleted "s" 2, 40407, 404); (InvalidMode "X", 42204, 422);
  (SubjectSoftDeleted "s", 40404, 404); (SubjectModeNotConfigured "s", 40409, 404);
  (ReferenceNotFound "r", 42201, 422); (ReferencedByOthers "s:1", 42206, 422);
  (Incompatible ["reader missing default"], 409, 409) ].

Lemma error_codes : forallb (λ '(e, code, status), (error_code e =? code) && (http_status e =? status))
  codes_map_to_status = true.
Proof. reflexivity. Qed.

(** ** wire.rs *)

Lemma encode_prepends_magic_and_be_id : Wire.encode 1 [120; 121] = [0; 0; 0; 0; 1; 120; 121].
Proof. reflexivity. Qed.

Lemma decode_rejects_bad_magic_and_short :
  Wire.decode [1; 0; 0; 0; 1] = Err (BadMagic 1) ∧ Wire.decode [0; 0; 0] = Err (FrameTooShort 3).
Proof. by vm_compute. Qed.

Lemma protobuf_top_level_uses_single_zero_byte :
  encode_protobuf 7 [0] [112; 98] = [0; 0; 0; 0; 7; 0; 112; 98] ∧
  decode_protobuf [0; 0; 0; 0; 7; 0; 112; 98] = Ok (7, [0], [112; 98]).
Proof. by vm_compute. Qed.

(** A negative count, an index outside [i32], an overflowing and an overlong varint. *)
Definition refused_indices : list (list Z * WireError) := [
  (put_varint (-1), NegativeCount (-1)); (put_varint 1 ++ put_varint (2 ^ 31), IndexTooLarge (2 ^ 31));
  (repeat 128 9 ++ [2], VarintOverflow); ([128; 0], VarintOverlong) ].

Lemma protobuf_rejects_bad_indices :
  Forall (λ c, decode_protobuf ([MAGIC; 0; 0; 0; 7] ++ c.1) = Err c.2) refused_indices.
Proof. repeat constructor. Qed.

Definition varint_values : list Z :=
  [0; 1; -1; 63; 64; -64; 127; 128; -128; 300; -300; 8192; -8192; i32_max; i32_min; 2 ^ 40; - 2 ^ 40].

Lemma varint_zigzag_round_trips :
  forallb (λ v, match read_varint (put_varint v) with Ok (w, []) => w =? v | _ => false end) varint_values = true.
Proof. vm_compute. reflexivity. Qed.

(** The smallest frame. *)
Lemma strip_header_accepts_minimum_5_byte_frame : Wire.decode [0; 0; 0; 1; 2] = Ok (258, []).
Proof. reflexivity. Qed.

(** ** election/protocol.rs *)

Definition test_id (host : string) (port : Z) (eligible : bool) : SchemaRegistryIdentity :=
  mkIdentity host port eligible "http" SR_VERSION.

(** The member with the first URL, whatever the order, among the eligible ones; the members a
    Confluent group had elect as it did. *)
Lemma select_master_tests :
  let a := ("m2", test_id "b" 8081 true) in let b := ("m1", test_id "a" 8081 true) in
  let c := ("m3", test_id "z" 8081 false) in
  let node1 := ("krabka-d7c9d4c3-a778-465d-a069-954b68d772f9", test_id "sr-node-1" 8081 true) in
  let node2 := ("krabka-e0f909d7-bc38-4a07-8f00-84cf9fd71f17", test_id "sr-node-2" 8081 true) in
  select_master [a; b; c] = Some b ∧ select_master [c; b; a] = Some b ∧
  select_master [("m", test_id "a" 1 false)] = None ∧
  select_master [node1; node2] = Some node1 ∧ select_master [node2; node1] = Some node1 ∧
  url (test_id "h" 8081 true) = "http://h:8081".
Proof. by vm_compute. Qed.

(** The texts below are written with single quotes. *)
Fixpoint with_quotes (s : string) : string :=
  match s with
  | "" => ""
  | String c s => String (if Ascii.eqb c "'" then chr 34 else c) (with_quotes s)
  end.

#[local] Existing Instance text_serde.

#[local] Instance identity_eq_dec : EqDecision SchemaRegistryIdentity.
Proof. solve_decision. Defined.
#[local] Instance assignment_eq_dec : EqDecision SchemaRegistryGroupAssignment.
Proof. solve_decision. Defined.

Definition cp_master_identity : SchemaRegistryIdentity := mkIdentity "sr-node-1" 8081 true "http" 1.
Definition cp_identity_text : string :=
  with_quotes "{'host':'sr-node-1','port':8081,'master_eligibility':true,'scheme':'http','version':1}".

(** The bytes a Confluent node sends as its member metadata, and back. *)
Lemma identity_json_round_trips_and_is_field_ordered :
  let bytes := to_vec (ser_identity (test_id "sr-node-1" 8081 true)) in
  bytes = cp_identity_text ∧ from_slice de_identity bytes = Some (test_id "sr-node-1" 8081 true) ∧
  to_vec (ser_identity cp_master_identity) = cp_identity_text.
Proof. by vm_compute. Qed.

Definition test_assignments : list SchemaRegistryGroupAssignment := [
  mkAssignment 0 (Some "krabka-d7c9d4c3") (Some (test_id "sr-node-1" 8081 true)) SR_VERSION;
  mkAssignment 1 None None SR_VERSION].

Lemma assignment_round_trips_with_and_without_master :
  forallb (λ a, bool_decide (from_slice de_assignment (to_vec (ser_assignment a)) = Some a)) test_assignments = true.
Proof. by vm_compute. Qed.

Definition cp_assignment : SchemaRegistryGroupAssignment :=
  mkAssignment 0 (Some "krabka-d7c9d4c3-a778-465d-a069-954b68d772f9") (Some cp_master_identity) 1.

Lemma assignment_encodes_cp_member_assignment_byte_exactly :
  to_vec (ser_assignment cp_assignment) = with_quotes
    "{'error':0,'master':'krabka-d7c9d4c3-a778-465d-a069-954b68d772f9','master_identity':{'host':'sr-node-1','port':8081,'master_eligibility':true,'scheme':'http','version':1},'version':1}".
Proof. by vm_compute. Qed.

(** ** rest/forward.rs *)

Definition test_primary (url : string) : PrimaryState := mkPrimaryState true (Some url) (Some 1) (Some "member").
Definition test_secondary (url : string) : PrimaryState := mkPrimaryState false (Some url) None None.

Definition forwarding_decision_cases : list (string * Method * bool * PrimaryState * Decision) := [
  ("read_secondary", GET, false, test_secondary "http://p:8081", PassThrough);
  ("write_primary", POST, false, test_primary "http://me:8081", PassThrough);
  ("write_secondary", POST, false, test_secondary "http://p:8081", Forward "http://p:8081");
  ("secondary_without_primary", DELETE, false, mkPrimaryState false None None None, Unavailable);
  ("forwarded_secondary", POST, true, test_secondary "http://p:8081", Retriable);
  ("forwarded_primary", POST, true, test_primary "http://me:8081", PassThrough) ].

Lemma forwarding_decisions :
  Forall (λ '(_, method, forwarded, state, expected), decide_forward method forwarded state = expected)
    forwarding_decision_cases.
Proof. repeat constructor. Qed.

(** ** kafkastore/topic.rs *)

Lemma topic_policy_validation_is_strict_and_transient_codes_are_named :
  compact_only "compact" = true ∧ compact_only "compact,delete" = false ∧ compact_only "delete" = false ∧
  forallb transient_topic_error [3; 5; 6; 100] = true ∧ transient_topic_error 29 = false.
Proof. by vm_compute. Qed.

(** An answer about the topic's configuration, whether it is one, and whether its error is retried. *)
Definition topic_config_answers : list (option (result (Z * string) (gmap string string)) * bool * bool) := [
  (Some (Ok ∅), true, false); (None, true, false);
  (Some (Err (3, "UNKNOWN_TOPIC_OR_PARTITION")), false, true);
  (Some (Err (29, "TOPIC_AUTHORIZATION_FAILED")), false, false) ].

Lemma topic_config_turns_a_resource_error_into_a_retryable_broker_error :
  forallb (λ '(answer, want_config, want_retryable),
    match topic_config answer with
    | Ok _ => want_config
    | Err e => negb want_config && Bool.eqb (retryable_admin_error e) want_retryable
    end) topic_config_answers = true.
Proof. by vm_compute. Qed.

(** ** config.rs and the runtime options *)

(** Times in microseconds and sizes in thousandths of a byte, so that a value may fall between two whole
    milliseconds or bytes. *)
#[local] Instance fine_units : TimeUnits := {| Time := Z; secs_f64 := λ t, S754_zero false; human := λ _, "" |}.
#[local] Instance fine_config : ConfigUnits := {|
  millis_i64 := λ t, t / 1000; from_millis := λ n, n * 1000; time_eqb := Z.eqb; time_ltb := Z.ltb; time_leb := Z.leb;
  secs := λ n, n * 1000000; millis := λ n, n * 1000; minutes := λ n, n * 60000000;
  ByteSize := Z; bytes_u64 := λ b, b / 1000; bytes_f64 := λ _, S754_zero false; from_bytes := λ n, n * 1000;
  bytes_eqb := Z.eqb; mebibytes := λ n, n * 1048576000 |}.

Definition valid {A} (r : result string A) : bool := match r with Ok _ => true | Err _ => false end.

(** The options of the three values with a protocol bound, and of two election timings. *)
Definition options (fetch_max_wait fetch_max create_timeout heartbeat rebalance : option Z) : RuntimeArgs :=
  mkRuntimeArgs 0 0 None rebalance heartbeat None None fetch_max_wait fetch_max None create_timeout None None None.

Definition runtime_relations_are_rejected : bool :=
  negb (valid (runtime_config (options None None None (Some (secs 10)) None)))
  && negb (valid (runtime_config (options None None None None (Some (millis 9999))))).

Definition protocol_runtime_values_require_exact_i32_units : bool :=
  let half := 500 in
  let over := (2 ^ 31) * 1000 in
  let most := (2 ^ 31 - 1) * 1000 in
  forallb (λ o, negb (valid (runtime_config o)))
    [options (Some half) None None None None; options None (Some half) None None None;
     options None None (Some half) None None; options (Some over) None None None None;
     options None (Some over) None None None; options None None (Some over) None None]
  && valid (runtime_config (options (Some most) (Some most) (Some most) None None))
  && valid (runtime_config (options None None None None None)).

(** The values of the command line over the defaults. *)
Definition explicit_runtime : RuntimeArgs :=
  mkRuntimeArgs 0 0 (Some (millis 11000)) (Some (millis 32000)) (Some (millis 3001)) (Some (millis 501)) (Some (millis 251))
    (Some (millis 501)) (Some (from_bytes 1048577)) (Some (millis 60001)) (Some (millis 15001)) (Some (from_bytes 16777217))
    (Some "FULL") (Some "IMPORT").

Lemma runtime_options_tests :
  runtime_relations_are_rejected = true ∧ protocol_runtime_values_require_exact_i32_units = true ∧
  runtime_config explicit_runtime =
    Ok (mkRuntime 0 0 (millis 11000) (millis 32000) (millis 3001) (millis 501) (millis 251) (millis 501) (from_bytes 1048577)
          (millis 60001) (millis 15001) (from_bytes 16777217) "FULL" "IMPORT") ∧
  runtime_config (options None None None None None) = Ok (runtime_default 0 0).
Proof. by vm_compute. Qed.
